(* ===== verification/_CoqProject ===== *)
-Q . S2P
Prelude.v
FogTypes.v
RecoveryTypes.v
BlockTracker.v
InputSelection.v
KexRng.v
UserRngSet.v
Polling.v
ObliviousMap.v
ViewEnclave.v
RecoveryDb.v
RecoveryDbWf.v
RecoveryDbSpec.v
IngestEnclave.v
IngestHistory.v
ControllerState.v
EnclaveConnection.v
PeerConnection.v
IngestController.v
ControllerLock.v
IngestServerSpec.v
ControllerProgress.v
ReportServer.v
IngestServer.v
IngestProcess.v
IngestExamples.v
PeerBackup.v
PeerExamples.v
OramStorage.v
OramStorageSpec.v
OramTamper.v
UntrustedStorage.v
OramExamples.v
ViewServer.v
ViewServerSpec.v
ViewServerExamples.v
LedgerServer.v
LedgerServerSpec.v
CachedTxData.v
AttestedLedger.v
CachedTxDataSpec.v
WalletSpec.v
WalletView.v
WalletSystem.v
PaykitClient.v
PaykitSpec.v
WalletExamples.v
AttestedExamples.v
PaykitExamples.v
Ffi.v
FfiSpec.v
FfiAccount.v
LibMc.v
LibMcAttest.v
LibMcTransaction.v
LibMcApi.v
LibMcSafe.v
LibMcSpec.v
LibMcExamples.v
Ecall.v
EcallProxy.v
IngestEcall.v
ViewEcall.v
LedgerEcall.v
EcallExamples.v
ViewEcallExamples.v
Jni.v
Android.v
AndroidSpec.v
AndroidSafe.v
AndroidFacts.v
AndroidExamples.v
ServerLife.v
ServerLifeSpec.v
ServerLifeExamples.v
Distribution.v
DistributionSpec.v
DistributionExamples.v
