(* ===== verification/Prelude.v ===== *)
(** * Fog: a verified model of the MobileCoin Fog services

    Fog lets a light client find its transactions without telling a server who
    it is.  An ingest server runs an enclave that reads every new block, finds
    the user of each output and stores the output, encrypted for the user,
    under a search key that only the user and the enclave can compute.  The
    search keys of a user are the outputs of an rng that both derive from a key
    exchange with the enclave's egress key.  The rows go to a recovery
    database; a view server loads them into an oblivious map and answers
    lookups; the client polls with the next outputs of its rngs, decrypts what
    it finds, asks a ledger server which of its outputs are spent, and builds
    transactions from the others with proofs and mixins of the same server.

    ** Files

    - [Prelude]: outcomes ([result], [run]), machine integers, tactics, generic
      lemmas on lists, maps and integers; required by all other files.
    - [FogTypes], [RecoveryTypes]: the records of src/fog/fog_types/src and of
      src/fog/recovery_db_iface/src/types.rs, with their conversions.
    - [KexRng]: src/fog/kex_rng/src, the buffered and versioned rngs.
    - [UserRngSet], [Polling]: src/fog/view/protocol/src, the rng set of a user
      (user_rng_set.rs, user_private.rs) and the poll loop (polling.rs).
    - [ObliviousMap]: the interface of the oblivious hash map of both enclaves.
    - [ViewEnclave]: src/fog/view/enclave/impl/src, the store and the queries.
    - [BlockTracker]: src/fog/view/server/src/block_tracker.rs.
    - [RecoveryDb]: src/fog/sql_recovery_db/src, every operation of the two
      database interfaces on the tables; [RecoveryDbWf] has the invariant and
      the steps, [RecoveryDbSpec] the theorems.
    - [IngestEnclave]: src/fog/ingest/enclave/impl/src, the rng store
      (rng_store.rs) and the enclave calls (lib.rs); [IngestHistory] follows an
      enclave over a sequence of calls.
    - [ControllerState], [IngestController]: src/fog/ingest/server/src,
      controller_state.rs and controller.rs; [ControllerLock] is about the
      mutex of the state, [ControllerProgress] about its unbounded loops,
      [IngestServerSpec] about sequences of its calls.  [PeerConnection]: its
      connections to its peers (connection.rs); [PeerBackup] puts servers behind
      them, [PeerExamples] has the runs.
    - [IngestServer]: the request handlers (ingest_service.rs,
      ingest_peer_service.rs) and the two threads (worker.rs) of the ingest
      server; [IngestProcess] interleaves them, [IngestExamples] has the runs.
    - [ReportServer]: src/fog/report/server/src, the server that publishes the
      reports of the ingest servers.
    - [OramStorage], [OramStorageSpec], [OramTamper]:
      src/fog/ocall_oram_storage/trusted/src, the encrypted and hashed storage
      behind the oblivious map; [UntrustedStorage]: the other side of its
      OCALLs (ocall_oram_storage/untrusted/src); [OramExamples] has instances.
    - [ViewServer]: src/fog/view/server/src, the fetcher thread
      (db_fetcher.rs), the thread that loads the enclave (server.rs) and the
      query service (fog_view_service.rs); [ViewServerSpec] has the invariant
      over all interleavings, [ViewServerExamples] the runs.
    - [LedgerServer]: src/fog/fog_types/src/ledger.rs, src/fog/ledger/enclave
      and the four services of src/fog/ledger/server/src; [LedgerServerSpec]
      says what their answers mean while the ledger grows.
    - [EnclaveConnection]: src/fog/enclave_connection/src and
      src/fog/view/connection/src, the attested channel of a client;
      [AttestedLedger] puts the key image service behind it, with a network that
      loses messages; [AttestedExamples] has instances.
    - [InputSelection], [CachedTxData]:
      src/fog/sample-paykit/src/cached_tx_data/mod.rs, the selection of inputs
      and the account state; [CachedTxDataSpec] has its invariant, [WalletSpec]
      the theorems against interfaces for the two servers, [WalletView] and
      [WalletSystem] provide the interfaces.
    - [PaykitClient]: src/fog/sample-paykit/src/client.rs and the clients of
      src/fog/ledger/connection/src; [PaykitSpec] has the theorems.
    - [WalletExamples], [PaykitExamples]: an account, its servers and a ledger
      on concrete data.
    - [Ffi]: src/util/ffi/src and src/libmobilecoin/src/common, memory, pointers,
      buffers and the boundary of the C interface of the mobile library;
      [FfiSpec] has triples for its functions, [FfiAccount] the ownership of what
      they allocate.  [LibMc], [LibMcAttest], [LibMcTransaction]: the functions of
      src/libmobilecoin/src; [LibMcApi]: all of them as one type of calls, and
      the programs that make them.  [LibMcSafe], [LibMcSpec] have the theorems,
      [LibMcExamples] the runs.
    - [Ecall]: the entry points of the three enclaves (lib.rs of
      src/fog/ingest/enclave/trusted, ledger/enclave/trusted and
      view/enclave/trusted) on a model of memory; [EcallProxy]: the way of a call
      from the server to the enclave and back, with serialization and retries.
      [IngestEcall], [ViewEcall], [LedgerEcall]: the calls, the dispatchers and
      the proxies (api/src, trusted/src and src of each enclave);
      [EcallExamples], [ViewEcallExamples] have instances.
    - [Jni]: src/android-bindings/src/ffi.rs and error.rs, native methods on
      boxed values with locks; [Android]: the methods of
      src/android-bindings/src/bindings.rs, one function for the methods of a
      Java class or of a few.  [AndroidSpec] has rules for the steps of a method,
      [AndroidSafe] the Java programs and their safety, [AndroidFacts] what
      single methods do, [AndroidExamples] a small Java machine.
    - [ServerLife]: the objects that start and stop the gRPC servers and threads
      (server.rs of src/fog/ingest/server/src, ledger/server/src,
      view/server/src and report/server/src); [ServerLifeSpec] says what runs,
      [ServerLifeExamples] has instances.
    - [Distribution]: src/fog/distribution/src/main.rs, the tool that spends a
      bootstrapped ledger to fog users; [DistributionSpec] has the theorems,
      [DistributionExamples] a run.

    Definitions keep the names of the source; a method that exists on two types
    carries its type's name ([RngStore_new], [controller_new_keys]).

    ** What the theorems show

    - Users can find everything.  [Polling.poll_complete]: against an honest
      server, nothing below the block count a client reaches is missing on its
      rngs; [Polling.poll_terminates]: the poll ends.  Both assume that the
      outputs of an rng are used in order ([used_in_order]).
      [IngestHistory.ingest_used_in_order] proves this of an enclave,
      [IngestServerSpec.server_keys_in_order] of the database behind the
      controller, over all its operations, with panics and retries, and
      [IngestProcess.process_keys_in_order] of a running server with its
      threads and request handlers.
      [IngestEnclave.ingest_txs_reaches_users] and [KexRng.kex_rng_in_sync]
      relate the two ends of an rng.
    - The wallet is right.  [WalletSystem.wallet_system_balance] composes the
      poll loop, the account state, the attested connection and the key image
      service: whatever fails in between, the balance is the one after exactly
      the number of blocks reported.  [WalletSpec.wallet_inputs_correct]: no assertion of the account
      state fails, and inputs are unspent outputs of the account.
      [PaykitSpec]: the status of a transaction is final, rings and proofs are
      valid, a transaction is balanced.
    - The view server reports only what it loaded
      ([BlockTracker.reported_count_is_loaded] for the tracker,
      [ViewServerSpec.published_count_is_served] for the threads in any
      interleaving), its threads do not panic and its queue is bounded; its
      enclave answers lookups exactly, with answers of one length (the theorems
      of [ViewEnclave]).
    - The ledger server answers truthfully for the block count it reports,
      although blocks arrive between its reads
      ([LedgerServerSpec.ledger_answers_true]).  A client's connection asks it
      at most once per request and recovers from lost messages
      ([AttestedLedger.attested_connection_refines]).
    - The storage of the oblivious map behaves like plain memory
      ([OramStorageSpec.storage_refines_memory]), detects tampering below an
      authentic block ([OramTamper.branch_tampering_detected]), and its
      untrusted side stays in bounds
      ([UntrustedStorage.untrusted_calls_in_bounds]).
    - The database keeps its constraints in every reachable state and never
      rewrites history; block data is written once and read back; incremental
      polling of events misses and repeats nothing; a lost key accounts for its
      blocks; reports raise the expiry (the theorems of [RecoveryDbSpec]).
    - The controller publishes only under the egress key users were told about
      ([IngestServerSpec.server_invocation_announced]), keeps the rules of the
      active mode and, [new_keys] apart, does not deadlock on its own lock.
      Once activated it is backed up by all its peers
      ([PeerBackup.activation_backed_up]), and the report server serves its
      report under a signature of the certified key
      ([ReportServer.published_report_served]).
    - The C interface is memory safe for every program that keeps its contract:
      no undefined behaviour, no unwinding into C, no leaks
      ([LibMcSafe.library_memory_safe]).  A phone that draws search keys through
      it gets those of the ingest enclave
      ([LibMcSpec.phone_draws_search_keys]).
    - Servers talk to their enclaves.  A method called on the proxy has the result
      and the effect of the method of the enclave
      ([IngestEcall.ingest_proxy_is_enclave], [ViewEcall.view_proxy_is_enclave],
      [LedgerEcall.ledger_proxy_is_enclave]), and the entry points do not write
      into the enclave whatever pointers they get
      ([Ecall.entry_points_keep_enclave]).
    - The Android bindings are memory safe for every Java program that keeps the
      contract stated there ([AndroidSafe.android_memory_safe]), a phone draws the
      enclave's search keys through them
      ([AndroidFacts.phone_draws_enclave_keys]), and amounts are read exactly when
      they are not negative ([AndroidFacts.big_int_to_u64_correct]).
    - Servers start completely or not at all and leave nothing behind
      ([ServerLifeSpec.ingest_start_all_or_nothing],
      [ServerLifeSpec.server_lifetimes_clean]), and the ingest server refuses a
      bad list of peers ([ServerLifeSpec.ingest_new_checks_peers]).
    - The distribution tool spends no output twice and builds balanced
      transactions ([DistributionSpec.distribution_spends_once],
      [DistributionSpec.distribution_tx_balanced]).
    - Input selection is optimal where it has to be, prefers old outputs and
      never panics (the theorems of [InputSelection]).
    - Some theorems show where the code falls short: the root of the storage is
      never compared ([OramTamper.checkout_ignores_roots]), a key registered
      while blocks are loaded is passed over
      ([ViewServerExamples.stale_keys_skip_block]), a stop request can hang
      ([ViewServerSpec.stop_hangs_on_full_queue]), large wallets cannot refresh
      ([WalletSystem.large_wallet_stuck]), inputs are selected for the wrong fee
      ([PaykitExamples.higher_fee_refused]), an ingress key can be replaced while
      the server is activated ([IngestExamples.set_key_races_activation]), two
      activations can wait for each other
      ([PeerExamples.mutual_activation_deadlocks]), the C interface gives out the
      private key as the public one ([LibMcSpec.public_from_private_leaks]) and
      frees what a caller has freed
      ([LibMcSpec.error_variable_reuse_undefined]), the Android bindings can block,
      crash, lose a session and leak addresses
      ([AndroidFacts.contract_is_needed],
      [AndroidFacts.attest_finish_loses_session],
      [AndroidSafe.address_boxes_leak]), the entry point of the view enclave
      faults on null ([Ecall.view_entry_null_faults]), a ledger server that fails
      to start keeps a thread, a view server that is restarted does not poll and
      stopping an ingest server waits for the watcher
      ([ServerLifeSpec.ledger_failed_start_keeps_thread],
      [ServerLifeSpec.view_restart_stops_polling],
      [IngestServer.stop_waits_for_watcher]), the distribution tool sends nothing
      from a single account ([DistributionSpec.single_account_sends_nothing]), and
      the ones named in the
      files of the ingest server, the database and the poll loop.

    ** Conventions

    - The release profile wraps integer arithmetic: [u64] operations are the
      wrapping ones ([+w] and the like), casts between [u64] and [i64] columns
      are written out, and theorems name the bounds they need.
    - An [assert], [unwrap], [expect] or index that can fail is [Panic] (or
      [Panicked], where the state at the panic matters).
    - Loops that are not structural run on fuel.  Where the code has a bound the
      fuel is proved enough ([highest_fully_processed_correct],
      [poll_terminates], [matching_sealed_key_enough]); the loops of the
      controller that retry a database call forever take their fuel as an
      argument, and running out of it is one of the outcomes.  The loop that
      stores a block ends with the first connection
      ([ControllerProgress.publish_rows_ends]).  The loop that draws mixins ends
      once the generator has drawn enough different values
      ([PaykitSpec.sample_indices_ends]).
    - A hash map is a [gmap]; where the order of its iteration could matter the
      order is a parameter ([HashIter]).
    - Foreign code (the curve, hashes, the crypto box, the oblivious map,
      sealing, attested sessions, Postgres' connection pool, peers, the clock)
      is a type class, with a class of laws for what its documentation
      promises.  Every law class has an instance on concrete data, which the
      witnesses use.
    - A call of the controller runs without another thread in between, except
      in the runs of [IngestExamples.set_key_races_activation] and
      [PeerExamples.mutual_activation_deadlocks]; the threads and
      handlers of the ingest server and other users of the database act between
      calls.  The threads of the view server
      are step functions that interleave at every access to what they share.
      The ledger may grow between any two reads of a service.  Logging, metrics
      and waiting are left out.

    ** Not modelled

    The fee lookup, the call that submits a transaction and the set-up of the
    sample paykit; loading an enclave from its file; reading of configurations,
    keys and command lines; the load testing and other tools, which start
    processes and measure times; test infrastructure.  In the C interface, calls from several threads and arguments
    that overlap.  In the Android bindings, calls from several threads, panics of
    the libraries behind them and the collection of objects. *)

From stdpp Require Export base list option gmap sorting.
From Stdlib Require Export ZArith Lia.

(** ** Outcomes

    [result] is Rust's [Result]; [run] is a computation that either returns or
    panics ([assert!], [unwrap], an index out of range). *)
Inductive result (A E : Type) : Type :=
| Ok (a : A)
| Err (e : E).
Global Arguments Ok {A E} a.
Global Arguments Err {A E} e.

Inductive run (A : Type) : Type :=
| Ret (a : A)
| Panic.
Global Arguments Ret {A} a.
Global Arguments Panic {A}.

#[export] Instance run_ret : MRet run := fun A a => Ret a.
#[export] Instance run_bind : MBind run :=
  fun A B f m => match m with Ret a => f a | Panic => Panic end.

#[export] Instance result_eq_dec {A E} `{EqDecision A, EqDecision E} :
  EqDecision (result A E).
Proof. solve_decision. Defined.
#[export] Instance run_eq_dec {A} `{EqDecision A} : EqDecision (run A).
Proof. solve_decision. Defined.

(** The [?] operator: continue on [Ok], return the error otherwise. *)
Definition and_then {A B E} (r : result A E) (k : A -> result B E) : result B E :=
  match r with Ok a => k a | Err e => Err e end.

Definition map_err {A E F} (f : E -> F) (r : result A E) : result A F :=
  match r with Ok a => Ok a | Err e => Err (f e) end.

Definition ok {A E} (r : result A E) : option A :=
  match r with Ok a => Some a | Err _ => None end.

Definition is_ok {A E} (r : result A E) : bool :=
  match r with Ok _ => true | Err _ => false end.

(** The value of a computation that returns. *)
Definition run_ok {A} (m : run A) : option A :=
  match m with Ret a => Some a | Panic => None end.

(** [assert!]: panics when the condition is false. *)
Definition rassert (b : bool) : run unit := if b then Ret tt else Panic.

(** [Option::unwrap] and [Option::expect]. *)
Definition unwrap {A} (o : option A) : run A :=
  match o with Some a => Ret a | None => Panic end.

Declare Scope fog_scope.
Delimit Scope fog_scope with fog.
Notation "'let?' x := r 'in' k" := (and_then r (fun x => k))
  (at level 10, x pattern, r at level 100, k at level 200) : fog_scope.

(** ** Machine integers

    A [u64] is an integer in [0, 2^64); arithmetic is the wrapping arithmetic
    of the release profile of the workspace (overflow-checks = false). *)
Definition u64_modulus : Z := 18446744073709551616.
Definition u64_max : Z := 18446744073709551615.
Definition i64_modulus_half : Z := 9223372036854775808.

Definition is_u64 (z : Z) : Prop := (0 <= z < u64_modulus)%Z.
Definition is_i64 (z : Z) : Prop := (- i64_modulus_half <= z < i64_modulus_half)%Z.

Definition wrap64 (z : Z) : Z := (z mod u64_modulus)%Z.
Definition u64_add (a b : Z) : Z := wrap64 (a + b).
Definition u64_sub (a b : Z) : Z := wrap64 (a - b).
Definition u64_mul (a b : Z) : Z := wrap64 (a * b).
Definition u64_saturating_sub (a b : Z) : Z := Z.max 0 (a - b).
Definition u64_checked_add (a b : Z) : option Z :=
  if (a + b <=? u64_max)%Z then Some (a + b)%Z else None.

(** [x as i64] on a [u64] and [x as u64] on an [i64]. *)
Definition as_i64 (z : Z) : Z :=
  if (z <? i64_modulus_half)%Z then z else (z - u64_modulus)%Z.
Definition as_u64 (z : Z) : Z := wrap64 z.
Definition as_u32 (z : Z) : Z := z mod 4294967296.
Definition as_i32 (z : Z) : Z := (z + 2147483648) mod 4294967296 - 2147483648.

Infix "+w" := u64_add (at level 50, left associativity) : fog_scope.
Infix "-w" := u64_sub (at level 50, left associativity) : fog_scope.
Infix "*w" := u64_mul (at level 40, left associativity) : fog_scope.

(** Bytes are integers in [0, 256); byte strings are lists of them. *)
Abbreviation bytes := (list Z).

(** [u64::to_le_bytes] and [u64::from_le_bytes], on [n] bytes. *)
Fixpoint le_split (n : nat) (z : Z) : bytes :=
  match n with
  | O => []
  | S n => (z mod 256)%Z :: le_split n (z / 256)%Z
  end.
Fixpoint le_combine (bs : bytes) : Z :=
  match bs with
  | [] => 0%Z
  | b :: bs => (b + 256 * le_combine bs)%Z
  end.
Definition to_le_bytes (z : Z) : bytes := le_split 8 z.
Definition from_le_bytes (bs : bytes) : Z := le_combine bs.

Definition is_byte (z : Z) : Prop := (0 <= z < 256)%Z.

(** Sum of a list of integers. *)
Definition zsum (l : list Z) : Z := foldr Z.add 0%Z l.

(** ** Slices and vectors

    [v[a..b]], [v[a..b].copy_from_slice(src)] and [Vec::resize]; the first two
    panic on a bad range, the second also on a length mismatch. *)
Definition slice {A} (v : list A) (a b : nat) : run (list A) :=
  if (a <=? b)%nat && (b <=? length v)%nat then Ret (take (b - a) (drop a v)) else Panic.

Definition copy_into {A} (v : list A) (a b : nat) (src : list A) : run (list A) :=
  if (a <=? b)%nat && (b <=? length v)%nat && (length src =? b - a)%nat
  then Ret (take a v ++ src ++ drop b v) else Panic.

Definition vec_resize {A} (v : list A) (n : nat) (x : A) : list A :=
  take n v ++ replicate (n - length v) x.

(** ** Hash maps

    A [HashMap] keyed by byte strings is a [gmap]; its iteration order is
    unspecified, so an iteration is any enumeration of the entries. *)
Class HashIter := {
  hash_iter : forall {V}, gmap (list Z) V -> list (list Z * V);
  hash_iter_perm : forall {V} (m : gmap (list Z) V), hash_iter m ≡ₚ map_to_list m;
}.

(** One such enumeration, to evaluate definitions with. *)
Definition canonical_iter : HashIter :=
  {| hash_iter := fun V m => map_to_list m; hash_iter_perm := fun V m => Permutation_refl _ |}.

(** ** Automation *)
Create HintDb fog.

Ltac unfold_u64 :=
  unfold is_u64, is_i64, u64_add, u64_sub, u64_mul, u64_saturating_sub, u64_checked_add,
    as_i64, as_u64, is_byte in *;
  unfold wrap64 in *; unfold u64_modulus, u64_max, i64_modulus_half in *.

(** Linear arithmetic on machine integers. *)
Ltac solve_u64 :=
  unfold_u64; repeat case_match;
  repeat match goal with
  | H : (_ <? _)%Z = true |- _ => apply Z.ltb_lt in H
  | H : (_ <? _)%Z = false |- _ => apply Z.ltb_ge in H
  | H : (_ <=? _)%Z = true |- _ => apply Z.leb_le in H
  | H : (_ <=? _)%Z = false |- _ => apply Z.leb_gt in H
  end;
  Z.to_euclidean_division_equations; lia.

(** Decide a closed decidable proposition by evaluation. *)
Ltac vm_decide := refine (bool_decide_unpack _ _); vm_compute; exact I.

(** Turn the boolean tests of the context into propositions. *)
Ltac bool_to_prop :=
  repeat match goal with
  | H : (_ && _) = true |- _ => apply andb_true_iff in H as [? ?]
  | H : (_ && _) = false |- _ => apply andb_false_iff in H
  | H : (_ || _) = true |- _ => apply orb_true_iff in H
  | H : (_ || _) = false |- _ => apply orb_false_iff in H as [? ?]
  | H : negb _ = true |- _ => apply negb_true_iff in H
  | H : negb _ = false |- _ => apply negb_false_iff in H
  | H : (_ <? _)%Z = true |- _ => apply Z.ltb_lt in H
  | H : (_ <? _)%Z = false |- _ => apply Z.ltb_ge in H
  | H : (_ <=? _)%Z = true |- _ => apply Z.leb_le in H
  | H : (_ <=? _)%Z = false |- _ => apply Z.leb_gt in H
  | H : (_ =? _)%Z = true |- _ => apply Z.eqb_eq in H
  | H : (_ =? _)%Z = false |- _ => apply Z.eqb_neq in H
  | H : bool_decide _ = true |- _ => apply bool_decide_eq_true in H
  | H : bool_decide _ = false |- _ => apply bool_decide_eq_false in H
  end.

(** ** Lemmas on machine integers *)

Lemma wrap64_small z : is_u64 z -> wrap64 z = z.
Proof. intros H; apply Z.mod_small, H. Qed.

Lemma wrap64_range z : is_u64 (wrap64 z).
Proof. apply Z.mod_pos_bound; reflexivity. Qed.

Lemma u64_add_small a b : is_u64 (a + b) -> u64_add a b = (a + b)%Z.
Proof. apply wrap64_small. Qed.

Lemma u64_sub_small a b : is_u64 (a - b) -> u64_sub a b = (a - b)%Z.
Proof. apply wrap64_small. Qed.

Lemma as_i64_range z : is_u64 z -> is_i64 (as_i64 z).
Proof. intros; solve_u64. Qed.

Lemma as_u64_as_i64 z : is_u64 z -> as_u64 (as_i64 z) = z.
Proof. intros; solve_u64. Qed.

Lemma as_i64_as_u64 z : is_i64 z -> as_i64 (as_u64 z) = z.
Proof. intros; solve_u64. Qed.

Lemma as_i64_inj a b : is_u64 a -> is_u64 b -> as_i64 a = as_i64 b -> a = b.
Proof.
  intros Ha Hb Hab.
  by rewrite <- (as_u64_as_i64 a Ha), <- (as_u64_as_i64 b Hb), Hab.
Qed.

Lemma as_i64_small z : (0 <= z < i64_modulus_half)%Z -> as_i64 z = z.
Proof. intros; solve_u64. Qed.

#[export] Hint Resolve wrap64_range as_i64_range : fog.

(** ** Little-endian encodings *)

Lemma le_split_length n z : length (le_split n z) = n.
Proof. revert z; induction n as [|n IH]; intros z; simpl; auto. Qed.

Lemma le_split_bytes n z : Forall is_byte (le_split n z).
Proof.
  revert z; induction n as [|n IH]; intros z; constructor; auto.
  unfold is_byte; Z.to_euclidean_division_equations; lia.
Qed.

Lemma le_combine_split n z :
  (0 <= z < 256 ^ Z.of_nat n)%Z -> le_combine (le_split n z) = z.
Proof.
  revert z; induction n as [|n IH]; intros z Hz; cbn [le_split le_combine].
  - change (256 ^ Z.of_nat 0)%Z with 1%Z in Hz; lia.
  - rewrite IH; [Z.to_euclidean_division_equations; lia|].
    rewrite Nat2Z.inj_succ, Z.pow_succ_r in Hz by lia.
    split; [apply Z.div_pos; lia | apply Z.div_lt_upper_bound; lia].
Qed.

Lemma from_to_le_bytes z : is_u64 z -> from_le_bytes (to_le_bytes z) = z.
Proof. intros H; apply le_combine_split, H. Qed.

Lemma le_split_combine n bs :
  length bs = n -> Forall is_byte bs -> le_split n (le_combine bs) = bs.
Proof.
  revert n; induction bs as [|b bs IH]; intros n <- Hb; [done|].
  apply Forall_cons in Hb as [Hb Hbs]; unfold is_byte in Hb.
  cbn [length le_split le_combine].
  rewrite Z.mul_comm, Z.mod_add, Z.div_add, Z.mod_small, Z.div_small by lia.
  by rewrite Z.add_0_l, IH.
Qed.

Lemma to_from_le_bytes bs :
  length bs = 8 -> Forall is_byte bs -> to_le_bytes (from_le_bytes bs) = bs.
Proof. apply le_split_combine. Qed.

Lemma to_le_bytes_inj a b :
  is_u64 a -> is_u64 b -> to_le_bytes a = to_le_bytes b -> a = b.
Proof.
  intros Ha Hb Hab.
  by rewrite <- (from_to_le_bytes a Ha), <- (from_to_le_bytes b Hb), Hab.
Qed.

(** ** Outcomes *)

Lemma run_bind_ret {A B} (m : run A) (f : A -> run B) b :
  m ≫= f = Ret b <-> exists a, m = Ret a /\ f a = Ret b.
Proof. destruct m; simpl; naive_solver. Qed.

Lemma and_then_ok {A B E} (r : result A E) (k : A -> result B E) b :
  and_then r k = Ok b <-> exists a, r = Ok a /\ k a = Ok b.
Proof. destruct r; simpl; naive_solver. Qed.

Lemma rassert_ret b u : rassert b = Ret u <-> b = true.
Proof. destruct b, u; simpl; naive_solver. Qed.

(** ** Sums *)

Lemma zsum_app l1 l2 : zsum (l1 ++ l2) = (zsum l1 + zsum l2)%Z.
Proof. induction l1 as [|x l1 IH]; simpl; [done|unfold zsum in *; simpl; lia]. Qed.

Lemma zsum_nonneg l : Forall (fun z => 0 <= z)%Z l -> (0 <= zsum l)%Z.
Proof. induction 1; unfold zsum in *; simpl; lia. Qed.

Lemma zsum_permutation l1 l2 : l1 ≡ₚ l2 -> zsum l1 = zsum l2.
Proof. induction 1; unfold zsum in *; simpl; lia. Qed.

(** ** Slices *)

Lemma slice_ret {A} (v : list A) a b :
  (a <= b)%nat -> (b <= length v)%nat -> slice v a b = Ret (take (b - a) (drop a v)).
Proof.
  intros Ha Hb; unfold slice.
  by rewrite (proj2 (Nat.leb_le _ _) Ha), (proj2 (Nat.leb_le _ _) Hb).
Qed.

Lemma copy_into_ret {A} (v : list A) a b src :
  (a <= b)%nat -> (b <= length v)%nat -> length src = (b - a)%nat ->
  copy_into v a b src = Ret (take a v ++ src ++ drop b v).
Proof.
  intros Ha Hb Hs; unfold copy_into.
  by rewrite (proj2 (Nat.leb_le _ _) Ha), (proj2 (Nat.leb_le _ _) Hb), (proj2 (Nat.eqb_eq _ _) Hs).
Qed.

(** ** Association lists *)

Lemma elem_of_fst {A B} (l : list (A * B)) a b : (a, b) ∈ l -> a ∈ l.*1.
Proof. intros H; apply list_elem_of_fmap; by exists (a, b). Qed.

(** ** Hash maps *)

Section hash_iter.
Context `{HashIter}.

Lemma elem_of_hash_iter {V} (m : gmap (list Z) V) k v :
  (k, v) ∈ hash_iter m <-> m !! k = Some v.
Proof. by rewrite hash_iter_perm, elem_of_map_to_list. Qed.

Lemma NoDup_fst_hash_iter {V} (m : gmap (list Z) V) : NoDup (hash_iter m).*1.
Proof. rewrite hash_iter_perm; apply NoDup_fst_map_to_list. Qed.

Lemma hash_iter_to_map {V} (m : gmap (list Z) V) : list_to_map (hash_iter m) = m.
Proof.
  rewrite <- (list_to_map_to_list m) at 2.
  apply list_to_map_proper; [apply NoDup_fst_hash_iter|apply hash_iter_perm].
Qed.

Lemma hash_iter_length {V} (m : gmap (list Z) V) : length (hash_iter m) = size m.
Proof. by rewrite hash_iter_perm, length_map_to_list. Qed.
End hash_iter.
