(* ===== verification/FogTypes.v ===== *)
(** * Data shared by the Fog components (src/fog/fog_types)

    The records exchanged between the user, the view server, the ingest server
    and the database: block ranges, rng records, search results, the
    [TxOutRecord] a user stores and the [FogTxOut] it is built from.

    A compressed Ristretto key is its 32-byte encoding.  [TxOut] and [Amount]
    belong to the transaction crate; the records below carry the fields that
    Fog reads and writes.  Curve operations, the amount constructor and crc32
    are parameters. *)

From S2P Require Import Prelude.

Local Open Scope Z_scope.
Local Open Scope fog_scope.

(** ** common.rs: a half-open range of blocks *)

Record BlockRange := mkBlockRange {
  br_start_block : Z;
  br_end_block : Z;
}.

#[export] Instance BlockRange_eq_dec : EqDecision BlockRange.
Proof. solve_decision. Defined.

Definition BlockRange_new (start_block end_block : Z) : BlockRange :=
  mkBlockRange start_block end_block.

Definition BlockRange_contains (self : BlockRange) (block : Z) : bool :=
  (br_start_block self <=? block) && (block <? br_end_block self).

Definition BlockRange_is_valid (self : BlockRange) : bool :=
  br_start_block self <? br_end_block self.

Definition BlockRange_overlaps (self other : BlockRange) : bool :=
  (br_start_block self <? br_end_block other)
  && (br_start_block other <? br_end_block self).

(** ** lib.rs *)

(** An encrypted transaction output record: an rng output and a ciphertext. *)
Record ETxOutRecord := mkETxOutRecord {
  etr_search_key : bytes;
  etr_payload : bytes;
}.

#[export] Instance ETxOutRecord_eq_dec : EqDecision ETxOutRecord.
Proof. solve_decision. Defined.

(** ** fog_kex_rng: the key exchange message and the stored rng *)

Record KexRngPubkey := mkKexRngPubkey {
  krp_public_key : bytes;
  krp_version : Z;
}.

#[export] Instance KexRngPubkey_eq_dec : EqDecision KexRngPubkey.
Proof. solve_decision. Defined.
#[export] Instance KexRngPubkey_countable : Countable KexRngPubkey.
Proof.
  refine (inj_countable' (fun p => (krp_public_key p, krp_version p))
    (fun q => mkKexRngPubkey q.1 q.2) _).
  by intros [].
Defined.

Record StoredRng := mkStoredRng {
  sr_secret : bytes;
  sr_buffer : bytes;
  sr_counter : Z;
  sr_version : Z;
}.

#[export] Instance StoredRng_eq_dec : EqDecision StoredRng.
Proof. solve_decision. Defined.

(** ** view.rs: requests and responses *)

Record QueryRequestAAD := mkQueryRequestAAD {
  qra_start_from_user_event_id : Z;
  qra_start_from_block_index : Z;
}.

Record QueryRequest := mkQueryRequest {
  qr_get_txos : list bytes;
}.

Record RngRecord := mkRngRecord {
  rr_ingest_invocation_id : Z;
  rr_pubkey : KexRngPubkey;
  rr_start_block : Z;
}.

Record DecommissionedIngestInvocation := mkDecommissionedIngestInvocation {
  dii_ingest_invocation_id : Z;
  dii_last_ingested_block : Z;
}.

#[export] Instance RngRecord_eq_dec : EqDecision RngRecord.
Proof. solve_decision. Defined.
#[export] Instance DecommissionedIngestInvocation_eq_dec :
  EqDecision DecommissionedIngestInvocation.
Proof. solve_decision. Defined.

Inductive TxOutSearchResultCode :=
| Found
| NotFound
| BadSearchKey
| InternalError
| RateLimited.

#[export] Instance TxOutSearchResultCode_eq_dec : EqDecision TxOutSearchResultCode.
Proof. solve_decision. Defined.

(** The discriminants: [Found = 1], then counting up. *)
Definition TxOutSearchResultCode_as_u32 (c : TxOutSearchResultCode) : Z :=
  match c with
  | Found => 1
  | NotFound => 2
  | BadSearchKey => 3
  | InternalError => 4
  | RateLimited => 5
  end.

Definition TxOutSearchResultCode_try_from (src : Z) : result TxOutSearchResultCode unit :=
  if src =? TxOutSearchResultCode_as_u32 Found then Ok Found
  else if src =? TxOutSearchResultCode_as_u32 NotFound then Ok NotFound
  else if src =? TxOutSearchResultCode_as_u32 BadSearchKey then Ok BadSearchKey
  else if src =? TxOutSearchResultCode_as_u32 InternalError then Ok InternalError
  else if src =? TxOutSearchResultCode_as_u32 RateLimited then Ok RateLimited
  else Err tt.

Record TxOutSearchResult := mkTxOutSearchResult {
  tsr_search_key : bytes;
  tsr_result_code : Z;
  tsr_ciphertext : bytes;
}.

#[export] Instance TxOutSearchResult_eq_dec : EqDecision TxOutSearchResult.
Proof. solve_decision. Defined.

Record QueryResponse := mkQueryResponse {
  qresp_highest_processed_block_count : Z;
  qresp_highest_processed_block_signature_timestamp : Z;
  qresp_next_start_from_user_event_id : Z;
  qresp_missed_block_ranges : list BlockRange;
  qresp_rng_records : list RngRecord;
  qresp_decommissioned_ingest_invocations : list DecommissionedIngestInvocation;
  qresp_tx_out_search_results : list TxOutSearchResult;
  qresp_last_known_block_count : Z;
  qresp_last_known_block_cumulative_txo_count : Z;
}.

(** ** view.rs: the records a user recovers *)

Record TxOutRecord := mkTxOutRecord {
  tor_tx_out_amount_commitment_data : bytes;
  tor_tx_out_amount_masked_value : Z;
  tor_tx_out_target_key_data : bytes;
  tor_tx_out_public_key_data : bytes;
  tor_tx_out_global_index : Z;
  tor_block_index : Z;
  tor_timestamp : Z;
  tor_tx_out_amount_commitment_data_crc32 : Z;
}.

#[export] Instance TxOutRecord_eq_dec : EqDecision TxOutRecord.
Proof. solve_decision. Defined.

Record FogTxOut := mkFogTxOut {
  fto_target_key : bytes;
  fto_public_key : bytes;
  fto_amount_masked_value : Z;
  fto_amount_commitment_data_crc32 : Z;
}.

#[export] Instance FogTxOut_eq_dec : EqDecision FogTxOut.
Proof. solve_decision. Defined.

Record FogTxOutMetadata := mkFogTxOutMetadata {
  ftm_global_index : Z;
  ftm_block_index : Z;
  ftm_timestamp : Z;
}.

(** The transaction crate's output, by the fields Fog uses. *)
Record Amount := mkAmount {
  amt_commitment : bytes;
  amt_masked_value : Z;
}.

Record TxOut := mkTxOut {
  txo_amount : Amount;
  txo_target_key : bytes;
  txo_public_key : bytes;
  txo_e_fog_hint : bytes;
}.

#[export] Instance Amount_eq_dec : EqDecision Amount.
Proof. solve_decision. Defined.
#[export] Instance TxOut_eq_dec : EqDecision TxOut.
Proof. solve_decision. Defined.

(** The error of the key crate: the two variants Fog constructs itself, and
    whatever else the crate returns, which Fog only passes on. *)
Inductive KeyError :=
| LengthMismatch (a b : Z)
| AlgorithmMismatch
| OtherKeyError (code : Z).

#[export] Instance KeyError_eq_dec : EqDecision KeyError.
Proof. solve_decision. Defined.

Inductive FogTxOutError (AmountError : Type) :=
| ChecksumMismatch
| FogTxOutErrorAmount (e : AmountError)
| FogTxOutErrorKey (e : KeyError).
Global Arguments ChecksumMismatch {AmountError}.
Global Arguments FogTxOutErrorAmount {AmountError} e.
Global Arguments FogTxOutErrorKey {AmountError} e.

(** ** ingest.rs: a chunk of a block handed to the ingest enclave *)
Record TxsForIngest := mkTxsForIngest {
  tfi_block_index : Z;
  tfi_global_txo_index : Z;
  tfi_redacted_txs : list TxOut;
  tfi_timestamp : Z;
}.

(** Building and reading a [TxOutRecord]: only the decoder of compressed keys
    and the checksum are foreign code. *)
Section tx_out_record.
Context (compressed_try_from : bytes -> result bytes KeyError).
Context (checksum_ieee : bytes -> Z).

Definition TxOutRecord_new (fog_tx_out : FogTxOut) (meta : FogTxOutMetadata) : TxOutRecord :=
  {| tor_tx_out_amount_commitment_data := [];
     tor_tx_out_amount_commitment_data_crc32 := fto_amount_commitment_data_crc32 fog_tx_out;
     tor_tx_out_amount_masked_value := fto_amount_masked_value fog_tx_out;
     tor_tx_out_target_key_data := fto_target_key fog_tx_out;
     tor_tx_out_public_key_data := fto_public_key fog_tx_out;
     tor_tx_out_global_index := ftm_global_index meta;
     tor_block_index := ftm_block_index meta;
     tor_timestamp := ftm_timestamp meta |}.

Definition TxOutRecord_get_fog_tx_out (self : TxOutRecord) : result FogTxOut KeyError :=
  match tor_tx_out_amount_commitment_data self with
  | [] =>
      let? target_key := compressed_try_from (tor_tx_out_target_key_data self) in
      let? public_key := compressed_try_from (tor_tx_out_public_key_data self) in
      Ok (mkFogTxOut target_key public_key (tor_tx_out_amount_masked_value self)
            (tor_tx_out_amount_commitment_data_crc32 self))
  | commitment =>
      if negb (Z.of_nat (length commitment) =? 32)
      then Err (LengthMismatch 32 (Z.of_nat (length commitment)))
      else
        let? target_key := compressed_try_from (tor_tx_out_target_key_data self) in
        let? public_key := compressed_try_from (tor_tx_out_public_key_data self) in
        Ok (mkFogTxOut target_key public_key (tor_tx_out_amount_masked_value self)
              (checksum_ieee commitment))
  end.

(** [impl From<&TxOut> for FogTxOut]. *)
Definition FogTxOut_from (src : TxOut) : FogTxOut :=
  mkFogTxOut (txo_target_key src) (txo_public_key src)
    (amt_masked_value (txo_amount src))
    (checksum_ieee (amt_commitment (txo_amount src))).

(** Recovery with the private view key. *)
Section recover.
Context {PrivateKey PublicKey AmountError : Type}.
Context (public_try_from : bytes -> result PublicKey KeyError).
Context (get_tx_out_shared_secret : PrivateKey -> PublicKey -> bytes).
Context (get_value_mask : bytes -> Z).
Context (Amount_new : Z -> bytes -> result Amount AmountError).
Context (ENCRYPTED_FOG_HINT_LEN : nat).

Definition FogTxOut_try_recover_tx_out (self : FogTxOut) (view_key : PrivateKey)
  : result TxOut (FogTxOutError AmountError) :=
  let? public_key := map_err FogTxOutErrorKey (public_try_from (fto_public_key self)) in
  let tx_out_shared_secret := get_tx_out_shared_secret view_key public_key in
  let value := Z.lxor (fto_amount_masked_value self) (get_value_mask tx_out_shared_secret) in
  let? amount := map_err FogTxOutErrorAmount (Amount_new value tx_out_shared_secret) in
  if negb (fto_amount_commitment_data_crc32 self =? checksum_ieee (amt_commitment amount))
  then Err ChecksumMismatch
  else Ok (mkTxOut amount (fto_target_key self) (fto_public_key self)
             (replicate ENCRYPTED_FOG_HINT_LEN 0)).
End recover.
End tx_out_record.

(** ** Block ranges *)

Lemma BlockRange_contains_spec r b :
  BlockRange_contains r b = true <-> br_start_block r <= b < br_end_block r.
Proof. unfold BlockRange_contains; rewrite andb_true_iff, Z.leb_le, Z.ltb_lt; lia. Qed.

Lemma BlockRange_valid_spec r :
  BlockRange_is_valid r = true <-> exists b, BlockRange_contains r b = true.
Proof.
  unfold BlockRange_is_valid; rewrite Z.ltb_lt; split.
  - exists (br_start_block r); apply BlockRange_contains_spec; lia.
  - intros [b Hb%BlockRange_contains_spec]; lia.
Qed.

(** Two valid ranges overlap exactly when they share a block. *)
Lemma BlockRange_overlaps_spec r1 r2 :
  BlockRange_is_valid r1 = true -> BlockRange_is_valid r2 = true ->
  BlockRange_overlaps r1 r2 = true
  <-> exists b, BlockRange_contains r1 b = true /\ BlockRange_contains r2 b = true.
Proof.
  unfold BlockRange_is_valid, BlockRange_overlaps.
  rewrite !Z.ltb_lt, andb_true_iff, !Z.ltb_lt; intros Hv1 Hv2; split.
  - intros [H1 H2]; exists (Z.max (br_start_block r1) (br_start_block r2)).
    rewrite !BlockRange_contains_spec; lia.
  - intros (b & [Hb1 Hb2]%BlockRange_contains_spec & [Hb3 Hb4]%BlockRange_contains_spec); lia.
Qed.

(** ** Result codes *)

Lemma TxOutSearchResultCode_roundtrip c :
  TxOutSearchResultCode_try_from (TxOutSearchResultCode_as_u32 c) = Ok c.
Proof. by destruct c. Qed.

Lemma TxOutSearchResultCode_try_from_spec z c :
  TxOutSearchResultCode_try_from z = Ok c <-> z = TxOutSearchResultCode_as_u32 c.
Proof.
  split; [|intros ->; apply TxOutSearchResultCode_roundtrip].
  unfold TxOutSearchResultCode_try_from; intros H; repeat case_match; bool_to_prop; by simplify_eq.
Qed.

(** ** Recovering what was stored *)

(** The round trip of a stored output: the user who decodes a record built by
    the ingest enclave and recovers the output with the view key obtains the
    original output, up to the fog hint (which is zeroed), provided the amount
    is the one the view key rebuilds.  [masked] states what the amount
    constructor documents: the masked value is the value xor the mask. *)
Section recover_roundtrip.
Context (compressed_try_from : bytes -> result bytes KeyError).
Context (checksum_ieee : bytes -> Z).
Context {PrivateKey PublicKey AmountError : Type}.
Context (public_try_from : bytes -> result PublicKey KeyError).
Context (get_tx_out_shared_secret : PrivateKey -> PublicKey -> bytes).
Context (get_value_mask : bytes -> Z).
Context (Amount_new : Z -> bytes -> result Amount AmountError).
Context (ENCRYPTED_FOG_HINT_LEN : nat).

Hypothesis compressed_ok : forall k, length k = 32%nat -> compressed_try_from k = Ok k.
Hypothesis masked : forall v ss a,
  Amount_new v ss = Ok a -> amt_masked_value a = Z.lxor v (get_value_mask ss).

Lemma get_fog_tx_out_new f meta :
  length (fto_target_key f) = 32%nat -> length (fto_public_key f) = 32%nat ->
  TxOutRecord_get_fog_tx_out compressed_try_from checksum_ieee (TxOutRecord_new f meta) = Ok f.
Proof.
  intros Ht Hp; unfold TxOutRecord_get_fog_tx_out, TxOutRecord_new; simpl.
  rewrite !compressed_ok by done; by destruct f.
Qed.

Lemma try_recover_tx_out_from txo view_key pub value :
  public_try_from (txo_public_key txo) = Ok pub ->
  Amount_new value (get_tx_out_shared_secret view_key pub) = Ok (txo_amount txo) ->
  FogTxOut_try_recover_tx_out checksum_ieee public_try_from get_tx_out_shared_secret
    get_value_mask Amount_new ENCRYPTED_FOG_HINT_LEN (FogTxOut_from checksum_ieee txo) view_key
  = Ok (mkTxOut (txo_amount txo) (txo_target_key txo) (txo_public_key txo)
          (replicate ENCRYPTED_FOG_HINT_LEN 0)).
Proof.
  intros Hpub Ham; unfold FogTxOut_try_recover_tx_out, FogTxOut_from; simpl.
  rewrite Hpub; simpl; rewrite (masked _ _ _ Ham).
  rewrite Z.lxor_assoc, Z.lxor_nilpotent, Z.lxor_0_r, Ham; simpl.
  by rewrite Z.eqb_refl.
Qed.
End recover_roundtrip.
