(* ===== verification/RecoveryTypes.v ===== *)
(** * Types of the recovery database interface (src/fog/recovery_db_iface/src/types.rs)

    The status of an ingress key, the range of blocks the view server has to
    load for it, the range an ingest invocation provides, and user events. *)

From S2P Require Import Prelude FogTypes.

Local Open Scope Z_scope.

Record IngressPublicKeyStatus := mkIngressPublicKeyStatus {
  ks_start_block : Z;
  ks_pubkey_expiry : Z;
  ks_retired : bool;
  ks_lost : bool;
}.

#[export] Instance IngressPublicKeyStatus_eq_dec : EqDecision IngressPublicKeyStatus.
Proof. solve_decision. Defined.

Record AddBlockDataStatus := mkAddBlockDataStatus {
  block_already_scanned_with_this_key : bool;
}.

#[export] Instance AddBlockDataStatus_eq_dec : EqDecision AddBlockDataStatus.
Proof. solve_decision. Defined.

Record IngressPublicKeyRecord := mkIngressPublicKeyRecord {
  kr_key : bytes;
  kr_status : IngressPublicKeyStatus;
  kr_last_scanned_block : option Z;
}.

#[export] Instance IngressPublicKeyRecord_eq_dec : EqDecision IngressPublicKeyRecord.
Proof. solve_decision. Defined.

Definition covers_block_index (self : IngressPublicKeyRecord) (block_index : Z) : bool :=
  if ks_lost (kr_status self) then
    (ks_start_block (kr_status self) <=? block_index)
    && default false ((fun idx => block_index <=? idx) <$> kr_last_scanned_block self)
  else
    (ks_start_block (kr_status self) <=? block_index)
    && (negb (ks_retired (kr_status self))
        || (block_index <? ks_pubkey_expiry (kr_status self))).

Definition next_needed_block_index (self : IngressPublicKeyRecord) : option Z :=
  let candidate :=
    default (ks_start_block (kr_status self))
      ((fun x => u64_add x 1) <$> kr_last_scanned_block self) in
  if covers_block_index self candidate then Some candidate else None.

Inductive FogUserEvent :=
| NewRngRecord (r : RngRecord)
| DecommissionIngestInvocation (d : DecommissionedIngestInvocation)
| MissingBlocks (r : BlockRange).

#[export] Instance FogUserEvent_eq_dec : EqDecision FogUserEvent.
Proof. solve_decision. Defined.

Record IngestableRange := mkIngestableRange {
  ir_id : Z;
  ir_start_block : Z;
  ir_decommissioned : bool;
  ir_last_ingested_block : option Z;
}.

Definition can_provide_block (self : IngestableRange) (block : Z) : bool :=
  if block <? ir_start_block self then false
  else if ir_decommissioned self then
    match ir_last_ingested_block self with
    | Some last_ingested_block => block <=? last_ingested_block
    | None => false
    end
  else true.

(** [VerificationReport] is opaque to the database: [Report]. *)
Record ReportData (Report : Type) := mkReportData {
  rd_ingest_invocation_id : option Z;
  rd_report : Report;
  rd_pubkey_expiry : Z;
}.
Global Arguments mkReportData {Report}.
Global Arguments rd_ingest_invocation_id {Report}.
Global Arguments rd_report {Report}.
Global Arguments rd_pubkey_expiry {Report}.

(** ** The documented range of a key

    Lower bound and exclusive upper bound, [None] for no upper bound. *)
Definition covered_upper_bound (rec : IngressPublicKeyRecord) : option Z :=
  if ks_lost (kr_status rec) then
    Some (match kr_last_scanned_block rec with
          | Some l => l + 1
          | None => ks_start_block (kr_status rec)
          end)
  else if ks_retired (kr_status rec) then Some (ks_pubkey_expiry (kr_status rec))
  else None.

Lemma covers_block_index_range rec b :
  covers_block_index rec b = true
  <-> ks_start_block (kr_status rec) <= b
      /\ match covered_upper_bound rec with Some u => b < u | None => True end.
Proof.
  unfold covers_block_index, covered_upper_bound.
  destruct (ks_lost (kr_status rec)), (kr_last_scanned_block rec), (ks_retired (kr_status rec));
    simpl;
    rewrite ?andb_true_iff, ?Z.leb_le, ?Z.ltb_lt, ?orb_true_iff; simpl; try lia; naive_solver lia.
Qed.

Lemma covers_above_start rec b :
  covers_block_index rec b = true -> ks_start_block (kr_status rec) <= b.
Proof. intros [? _]%covers_block_index_range; done. Qed.

(** The range is convex. *)
Lemma covers_convex rec a b c :
  covers_block_index rec a = true -> covers_block_index rec c = true ->
  a <= b <= c -> covers_block_index rec b = true.
Proof.
  rewrite !covers_block_index_range; destruct (covered_upper_bound rec); lia.
Qed.

(** A block the key has not been used for yet, going by the last scanned block. *)
Definition unscanned (rec : IngressPublicKeyRecord) (b : Z) : Prop :=
  match kr_last_scanned_block rec with
  | Some l => l < b
  | None => True
  end.

(** What is next needed is the least covered block that is not scanned. *)
Lemma next_needed_block_index_least rec b :
  (forall l, kr_last_scanned_block rec = Some l ->
     0 <= l < u64_max /\ ks_start_block (kr_status rec) <= l) ->
  next_needed_block_index rec = Some b
  <-> covers_block_index rec b = true /\ unscanned rec b
      /\ (forall c, covers_block_index rec c = true -> unscanned rec c -> b <= c).
Proof.
  intros Hl; unfold next_needed_block_index, unscanned.
  set (cand := default _ _).
  assert (Hcand : forall c, covers_block_index rec c = true ->
    (match kr_last_scanned_block rec with Some l => l < c | None => True end) ->
    cand <= c /\ covers_block_index rec cand = true
    /\ match kr_last_scanned_block rec with Some l => l < cand | None => True end).
  { intros c [Hs Hu]%covers_block_index_range Hc; subst cand.
    rewrite covers_block_index_range.
    destruct (kr_last_scanned_block rec) as [l|]; simpl.
    - destruct (Hl l eq_refl); rewrite u64_add_small by (unfold_u64; lia).
      destruct (covered_upper_bound rec); lia.
    - destruct (covered_upper_bound rec); lia. }
  destruct (covers_block_index rec cand) eqn:Hc; split.
  - intros [= <-]; split_and!; [done| |naive_solver].
    subst cand; destruct (kr_last_scanned_block rec) as [l|]; simpl; [|done].
    destruct (Hl l eq_refl); rewrite u64_add_small by (unfold_u64; lia); lia.
  - intros (Hb & Hlb & Hmin); destruct (Hcand b Hb Hlb) as (? & ? & ?); f_equal.
    assert (b <= cand) by (by apply Hmin); lia.
  - done.
  - intros (Hb & Hlb & _); destruct (Hcand b Hb Hlb) as (? & ? & ?); congruence.
Qed.

(** ** Ingest invocations: the blocks an invocation provides *)

Lemma can_provide_block_spec r b :
  can_provide_block r b = true
  <-> ir_start_block r <= b
      /\ (ir_decommissioned r = true ->
          exists l, ir_last_ingested_block r = Some l /\ b <= l).
Proof.
  unfold can_provide_block; destruct (b <? ir_start_block r) eqn:Hb; bool_to_prop.
  - split; [done|lia].
  - destruct (ir_decommissioned r), (ir_last_ingested_block r) as [l|];
      rewrite ?Z.leb_le; naive_solver lia.
Qed.
