(* ===== verification/BlockTracker.v ===== *)
(** * The view server's block tracker (src/fog/view/server/src/block_tracker.rs)

    Which block has to be loaded next for each ingress key, and up to which
    block count all required data has been loaded.  The unbounded loop of
    [highest_fully_processed_block_count] runs on fuel; the fuel given is one
    more than the distance to the highest known block count, and
    [highest_fully_processed_correct] shows that this is always enough. *)

From S2P Require Import Prelude FogTypes RecoveryTypes.

Local Open Scope Z_scope.
Local Open Scope fog_scope.

Record BlockTracker := mkBlockTracker {
  processed_block_per_ingress_key : gmap (list Z) Z;
  last_highest_processed_block_count : Z;
}.

Definition BlockTracker_new : BlockTracker := mkBlockTracker ∅ 0.

Definition next_blocks_step (self : BlockTracker) (next_blocks : gmap (list Z) Z)
  (rec : IngressPublicKeyRecord) : gmap (list Z) Z :=
  match processed_block_per_ingress_key self !! kr_key rec with
  | Some last_processed_block =>
      let next_block := last_processed_block +w 1 in
      if covers_block_index rec next_block
      then <[kr_key rec := next_block]> next_blocks
      else next_blocks
  | None =>
      if covers_block_index rec (ks_start_block (kr_status rec))
      then <[kr_key rec := ks_start_block (kr_status rec)]> next_blocks
      else next_blocks
  end.

Definition next_blocks (self : BlockTracker) (ingress_key_records : list IngressPublicKeyRecord)
  : gmap (list Z) Z :=
  foldl (next_blocks_step self) ∅ ingress_key_records.

(** The insertion happens before the assertion on the previous value. *)
Definition block_processed (self : BlockTracker) (ingress_key : bytes) (block_index : Z)
  : run BlockTracker :=
  let self' := mkBlockTracker
    (<[ingress_key := block_index]> (processed_block_per_ingress_key self))
    (last_highest_processed_block_count self) in
  match processed_block_per_ingress_key self !! ingress_key with
  | Some previous_block_index =>
      _ ← rassert (block_index =? previous_block_index +w 1); Ret self'
  | None => Ret self'
  end.

Definition highest_known_block_count (self : BlockTracker) : Z :=
  map_fold (fun _ block_index m => Z.max (block_index +w 1) m) 0
    (processed_block_per_ingress_key self).

(** The inner [for] loop: the first key that has to provide the block and has
    not provided it. *)
Fixpoint reason_we_stop (self : BlockTracker) (next_block_index : Z)
  (ingress_keys : list IngressPublicKeyRecord) : option IngressPublicKeyRecord :=
  match ingress_keys with
  | [] => None
  | rec :: rest =>
      if negb (covers_block_index rec next_block_index)
      then reason_we_stop self next_block_index rest
      else
        match processed_block_per_ingress_key self !! kr_key rec with
        | Some last_processed_block =>
            if last_processed_block <? next_block_index then Some rec
            else reason_we_stop self next_block_index rest
        | None => Some rec
        end
  end.

(** The outer [loop]; [None] when the fuel runs out. *)
Fixpoint advance_loop (fuel : nat) (self : BlockTracker) (highest_known : Z)
  (ingress_keys : list IngressPublicKeyRecord)
  : option (BlockTracker * option IngressPublicKeyRecord) :=
  match fuel with
  | O => None
  | S fuel =>
      let next_block_index := last_highest_processed_block_count self in
      let next_block_count := last_highest_processed_block_count self +w 1 in
      if highest_known <? next_block_count then Some (self, None)
      else
        match reason_we_stop self next_block_index ingress_keys with
        | Some rec => Some (self, Some rec)
        | None =>
            advance_loop fuel
              (mkBlockTracker (processed_block_per_ingress_key self) next_block_count)
              highest_known ingress_keys
        end
  end.

Definition highest_fully_processed_block_count (self : BlockTracker)
  (ingress_keys : list IngressPublicKeyRecord)
  : option (BlockTracker * (Z * option IngressPublicKeyRecord)) :=
  let highest_known := highest_known_block_count self in
  let fuel := S (Z.to_nat (highest_known - last_highest_processed_block_count self)) in
  '(self', reason_we_stopped) ← advance_loop fuel self highest_known ingress_keys;
  Some (self', (last_highest_processed_block_count self', reason_we_stopped)).

(** ** Well-formedness

    Block indices are machine words with room for the block count after them,
    and the count reported so far never exceeds the highest known one. *)
Record tracker_wf (self : BlockTracker) : Prop := {
  wf_index : forall k i, processed_block_per_ingress_key self !! k = Some i ->
    0 <= i < u64_max - 1;
  wf_last : 0 <= last_highest_processed_block_count self <= highest_known_block_count self;
}.

(** The key behind [rec] has provided block [b]. *)
Definition provided (self : BlockTracker) (rec : IngressPublicKeyRecord) (b : Z) : Prop :=
  exists l, processed_block_per_ingress_key self !! kr_key rec = Some l /\ b <= l.

(** ** A history of loads

    [loaded] records every (key, block) pair the tracker was told about.  A
    step either processes a block that [next_blocks] asked for, or recomputes
    the count.  The key records may change from step to step (keys retire, are
    lost, are scanned further); only a key's start block is fixed. *)
Section history.
Context (start_of : bytes -> Z).

Definition records_ok (recs : list IngressPublicKeyRecord) : Prop :=
  NoDup (kr_key <$> recs)
  /\ Forall (fun r => ks_start_block (kr_status r) = start_of (kr_key r)) recs.

Inductive tracker_step :
  BlockTracker * list (bytes * Z) -> BlockTracker * list (bytes * Z) -> Prop :=
| step_load self loaded recs k b self' :
    records_ok recs ->
    next_blocks self recs !! k = Some b -> 0 <= b < u64_max - 1 ->
    block_processed self k b = Ret self' ->
    tracker_step (self, loaded) (self', (k, b) :: loaded)
| step_count self loaded recs self' r :
    records_ok recs ->
    highest_fully_processed_block_count self recs = Some (self', r) ->
    tracker_step (self, loaded) (self', loaded).

Definition tracker_reachable : BlockTracker * list (bytes * Z) -> Prop :=
  rtc tracker_step (BlockTracker_new, []).

(** The processed map is an exact summary of the history. *)
Record history_inv (s : BlockTracker * list (bytes * Z)) : Prop := {
  inv_wf : tracker_wf s.1;
  inv_loaded : forall k b, (k, b) ∈ s.2 <->
    exists l, processed_block_per_ingress_key s.1 !! k = Some l /\ start_of k <= b <= l;
}.
End history.

(** ** The highest known block count *)

Lemma highest_known_nonneg self : 0 <= highest_known_block_count self.
Proof.
  unfold highest_known_block_count.
  apply (map_fold_weak_ind (fun r _ => 0 <= r)); [lia|].
  intros; lia.
Qed.

Lemma highest_known_upper self k i :
  processed_block_per_ingress_key self !! k = Some i ->
  i +w 1 <= highest_known_block_count self.
Proof.
  unfold highest_known_block_count.
  apply (map_fold_weak_ind
    (fun r m => m !! k = Some i -> i +w 1 <= r)); [by rewrite lookup_empty|].
  intros k' i' m r Hk' IH; rewrite lookup_insert_Some; intros [[<- <-]|[_ Hk]]; [lia|].
  specialize (IH Hk); lia.
Qed.

Lemma highest_known_bound self u :
  0 <= u -> (forall k i, processed_block_per_ingress_key self !! k = Some i -> i +w 1 <= u) ->
  highest_known_block_count self <= u.
Proof.
  intros Hu; unfold highest_known_block_count.
  apply (map_fold_weak_ind (fun r m => (forall k i, m !! k = Some i -> i +w 1 <= u) -> r <= u));
    [done|].
  intros k i m r Hk IH Hm; apply Z.max_lub; [by apply (Hm k); rewrite lookup_insert_eq|].
  apply IH; intros k' i' Hk'; apply (Hm k'); rewrite lookup_insert_ne; congruence.
Qed.

Lemma highest_known_lt_max self : tracker_wf self -> highest_known_block_count self < u64_max.
Proof.
  intros Hwf; apply Z.le_lt_trans with (u64_max - 1); [|lia].
  apply highest_known_bound; [unfold_u64; lia|].
  intros k i Hi; apply (wf_index _ Hwf) in Hi.
  rewrite u64_add_small by (unfold_u64; lia); lia.
Qed.

(** ** The scan over the keys *)

Lemma reason_we_stop_none self b keys :
  reason_we_stop self b keys = None <->
  forall rec, rec ∈ keys -> covers_block_index rec b = true -> provided self rec b.
Proof.
  unfold provided; induction keys as [|rec keys IH]; simpl.
  - split; [|done]; intros _ rec Hrec; by apply not_elem_of_nil in Hrec.
  - setoid_rewrite elem_of_cons; destruct (covers_block_index rec b) eqn:Hc; simpl.
    + destruct (processed_block_per_ingress_key self !! kr_key rec) as [l|] eqn:Hl.
      * destruct (l <? b) eqn:Hlb; bool_to_prop.
        -- split; [done|]; intros H.
           destruct (H rec (or_introl eq_refl) Hc) as (l' & ? & ?); simplify_eq; lia.
        -- rewrite IH; split; [|auto]; intros H r [->|Hr]; [eauto|auto].
      * split; [done|]; intros H.
        by destruct (H rec (or_introl eq_refl) Hc) as (l' & ? & ?); simplify_eq.
    + rewrite IH; split; [intros H r [->|Hr] Hcr; [congruence|auto]|auto].
Qed.

Lemma reason_we_stop_some self b keys rec :
  reason_we_stop self b keys = Some rec ->
  rec ∈ keys /\ covers_block_index rec b = true /\ ~ provided self rec b.
Proof.
  unfold provided; induction keys as [|rec' keys IH]; simpl; [done|].
  rewrite elem_of_cons; destruct (covers_block_index rec' b) eqn:Hc; simpl; [|naive_solver].
  destruct (processed_block_per_ingress_key self !! kr_key rec') as [l|] eqn:Hl; [|naive_solver].
  destruct (l <? b) eqn:Hlb; bool_to_prop; [|naive_solver].
  intros [= <-]; split_and!; [auto|done|]; intros (l' & ? & ?); simplify_eq; lia.
Qed.

(** ** The loop *)

(** What a finished run of the loop from [self] establishes. *)
Record advanced (self self' : BlockTracker) (hk : Z) (keys : list IngressPublicKeyRecord)
  (reason : option IngressPublicKeyRecord) : Prop := {
  adv_processed :
    processed_block_per_ingress_key self' = processed_block_per_ingress_key self;
  adv_bounds : last_highest_processed_block_count self
    <= last_highest_processed_block_count self' <= hk;
  adv_sound : forall b rec,
    last_highest_processed_block_count self <= b < last_highest_processed_block_count self' ->
    rec ∈ keys -> covers_block_index rec b = true -> provided self rec b;
  adv_reason : match reason with
    | None => last_highest_processed_block_count self' = hk
    | Some rec => rec ∈ keys /\ last_highest_processed_block_count self' < hk
        /\ covers_block_index rec (last_highest_processed_block_count self') = true
        /\ ~ provided self rec (last_highest_processed_block_count self')
    end;
}.

Lemma advance_loop_advanced fuel self hk keys :
  0 <= last_highest_processed_block_count self <= hk -> hk < u64_max ->
  hk - last_highest_processed_block_count self < Z.of_nat fuel ->
  exists self' reason, advance_loop fuel self hk keys = Some (self', reason)
    /\ advanced self self' hk keys reason.
Proof.
  revert self; induction fuel as [|fuel IH]; intros self Hlast Hhk Hfuel; [lia|]; simpl.
  rewrite u64_add_small by (unfold_u64; lia).
  destruct (hk <? last_highest_processed_block_count self + 1) eqn:Hlt; bool_to_prop.
  { exists self, None; split; [done|]; split; intros; try done; lia. }
  destruct (reason_we_stop self _ keys) as [rec|] eqn:Hr.
  { apply reason_we_stop_some in Hr as (? & ? & ?).
    exists self, (Some rec); split; [done|]; split; intros; try done; [lia|lia|].
    split_and!; try done; lia. }
  destruct (IH (mkBlockTracker (processed_block_per_ingress_key self)
    (last_highest_processed_block_count self + 1))) as (self' & reason & Hloop & [Hp Hb Hs He]);
    simpl in *; [lia..|].
  exists self', reason; split; [done|]; split; [done|lia| |done].
  intros b rec Hbr Hrec Hc.
  destruct (decide (b = last_highest_processed_block_count self)) as [->|Hne].
  - by apply (proj1 (reason_we_stop_none _ _ _) Hr).
  - apply Hs; [lia|done..].
Qed.

Lemma highest_fully_processed_advanced self keys :
  tracker_wf self ->
  exists self' reason,
    highest_fully_processed_block_count self keys
      = Some (self', (last_highest_processed_block_count self', reason))
    /\ advanced self self' (highest_known_block_count self) keys reason.
Proof.
  intros Hwf; pose proof (wf_last _ Hwf) as Hlast; pose proof (highest_known_lt_max _ Hwf).
  destruct (advance_loop_advanced
    (S (Z.to_nat (highest_known_block_count self - last_highest_processed_block_count self)))
    self (highest_known_block_count self) keys) as (self' & reason & Hloop & Hadv); [lia..|].
  exists self', reason; split; [|done].
  unfold highest_fully_processed_block_count; by rewrite Hloop.
Qed.

(** ** Well-formedness is preserved *)

Lemma BlockTracker_new_wf : tracker_wf BlockTracker_new.
Proof. split; [intros k i; simpl; by rewrite lookup_empty|]; vm_compute; intuition discriminate. Qed.

Lemma advanced_wf self self' keys reason :
  tracker_wf self -> advanced self self' (highest_known_block_count self) keys reason ->
  tracker_wf self'.
Proof.
  intros [Hi Hl] [Hp Hb _ _]; split; [by rewrite Hp|].
  unfold highest_known_block_count in *; rewrite Hp; lia.
Qed.

Lemma block_processed_ret self k b self' :
  block_processed self k b = Ret self' <->
  self' = mkBlockTracker (<[k := b]> (processed_block_per_ingress_key self))
            (last_highest_processed_block_count self)
  /\ (forall p, processed_block_per_ingress_key self !! k = Some p -> b = p +w 1).
Proof.
  unfold block_processed; destruct (_ !! k) as [p|]; [|naive_solver].
  unfold rassert; destruct (b =? p +w 1) eqn:Hb; bool_to_prop; simpl; naive_solver.
Qed.

(** Processing a block never lowers the highest known block count. *)
Lemma highest_known_insert self k b l :
  tracker_wf self -> 0 <= b < u64_max - 1 ->
  (forall p, processed_block_per_ingress_key self !! k = Some p -> b = p +w 1) ->
  highest_known_block_count self
  <= highest_known_block_count
       (mkBlockTracker (<[k := b]> (processed_block_per_ingress_key self)) l).
Proof.
  intros Hwf Hb Hp; set (self' := mkBlockTracker _ _).
  assert (Hkb : b +w 1 <= highest_known_block_count self')
    by (apply (highest_known_upper self' k); simpl; by rewrite lookup_insert_eq).
  rewrite u64_add_small in Hkb by (unfold_u64; lia).
  apply highest_known_bound; [apply highest_known_nonneg|].
  intros k' i Hi; pose proof (wf_index _ Hwf _ _ Hi).
  rewrite u64_add_small by (unfold_u64; lia).
  destruct (decide (k = k')) as [<-|Hk].
  - rewrite (Hp _ Hi), u64_add_small in Hkb by (unfold_u64; lia); lia.
  - rewrite <- u64_add_small by (unfold_u64; lia).
    apply (highest_known_upper self' k'); simpl; by rewrite lookup_insert_ne.
Qed.

Lemma block_processed_wf self k b self' :
  tracker_wf self -> 0 <= b < u64_max - 1 ->
  block_processed self k b = Ret self' -> tracker_wf self'.
Proof.
  intros Hwf Hb [-> Hp]%block_processed_ret.
  pose proof (highest_known_insert _ _ _ (last_highest_processed_block_count self) Hwf Hb Hp).
  destruct Hwf as [Hi Hl]; split; simpl; [|lia].
  intros k' i; rewrite lookup_insert_Some; intros [[<- <-]|[_ Hi']]; eauto.
Qed.

(** ** What has to be loaded next *)

(** The candidate for one key, as the two branches of the loop compute it. *)
Definition next_candidate (self : BlockTracker) (rec : IngressPublicKeyRecord) : Z :=
  match processed_block_per_ingress_key self !! kr_key rec with
  | Some l => l +w 1
  | None => ks_start_block (kr_status rec)
  end.

Lemma next_blocks_step_eq self m rec :
  next_blocks_step self m rec =
  if covers_block_index rec (next_candidate self rec)
  then <[kr_key rec := next_candidate self rec]> m else m.
Proof. unfold next_blocks_step, next_candidate; by destruct (_ !! kr_key rec). Qed.

Lemma next_blocks_foldl_other self recs m k :
  k ∉ kr_key <$> recs -> foldl (next_blocks_step self) m recs !! k = m !! k.
Proof.
  revert m; induction recs as [|rec recs IH]; intros m Hk; simpl; [done|].
  rewrite fmap_cons, not_elem_of_cons in Hk; destruct Hk as [Hk Hrecs].
  rewrite IH, next_blocks_step_eq by done; case_match; [by rewrite lookup_insert_ne|done].
Qed.

Lemma next_blocks_foldl self recs m rec :
  NoDup (kr_key <$> recs) -> rec ∈ recs ->
  foldl (next_blocks_step self) m recs !! kr_key rec =
  if covers_block_index rec (next_candidate self rec)
  then Some (next_candidate self rec) else m !! kr_key rec.
Proof.
  revert m; induction recs as [|rec' recs IH]; intros m Hnd Hrec;
    [by apply not_elem_of_nil in Hrec|].
  rewrite fmap_cons in Hnd; apply NoDup_cons in Hnd as [Hnin Hnd]; simpl.
  apply elem_of_cons in Hrec as [<-|Hrec].
  - rewrite next_blocks_foldl_other, next_blocks_step_eq by done.
    case_match; [by rewrite lookup_insert_eq|done].
  - rewrite IH, next_blocks_step_eq by done; case_match; [done|].
    assert (kr_key rec' <> kr_key rec)
      by (intros Heq; apply Hnin; rewrite Heq; by apply list_elem_of_fmap_2).
    case_match; [by rewrite lookup_insert_ne|done].
Qed.

Lemma next_blocks_lookup self recs k b :
  NoDup (kr_key <$> recs) ->
  next_blocks self recs !! k = Some b <->
  exists rec, rec ∈ recs /\ kr_key rec = k /\ b = next_candidate self rec
    /\ covers_block_index rec b = true.
Proof.
  intros Hnd; unfold next_blocks; split.
  - intros Hk; destruct (decide (k ∈ kr_key <$> recs)) as [Hin|Hnin].
    + apply list_elem_of_fmap in Hin as (rec & -> & Hrec).
      rewrite next_blocks_foldl, lookup_empty in Hk by done.
      case_match; simplify_eq; eauto.
    + by rewrite next_blocks_foldl_other, lookup_empty in Hk.
  - intros (rec & Hrec & <- & -> & Hc).
    by rewrite next_blocks_foldl, Hc by done.
Qed.

(** ** The history *)

Lemma history_inv_step start_of s s' :
  history_inv start_of s -> tracker_step start_of s s' -> history_inv start_of s'.
Proof.
  intros [Hwf Hld] Hstep; destruct Hstep as
    [self loaded recs k b self' [Hnd Hst] Hnext Hb Hproc | self loaded recs self' r Hok Hhfp];
    simpl in *.
  - pose proof (block_processed_wf _ _ _ _ Hwf Hb Hproc) as Hwf'.
    apply block_processed_ret in Hproc as [-> Hp]; split; simpl; [done|].
    apply next_blocks_lookup in Hnext as (rec & Hrec & <- & Hcand & Hcov); [|done].
    rewrite Forall_forall in Hst; specialize (Hst _ Hrec).
    apply covers_above_start in Hcov; rewrite Hst in Hcov.
    intros k' b'; rewrite elem_of_cons, Hld.
    destruct (decide (k' = kr_key rec)) as [->|Hk].
    + rewrite lookup_insert_eq; unfold next_candidate in Hcand.
      destruct (processed_block_per_ingress_key self !! kr_key rec) as [l|] eqn:Hl.
      * pose proof (wf_index _ Hwf _ _ Hl).
        rewrite u64_add_small in Hcand by (unfold_u64; lia).
        split.
        -- intros [[= ->]|(l' & [= <-] & ?)]; eexists; (split; [done|lia]).
        -- intros (l' & [= <-] & ?).
           destruct (decide (b' = b)) as [->|]; [by left|right; exists l; split; [done|lia]].
      * split; [intros [[= ->]|(l' & ? & _)]; [eexists; split; [done|lia]|done]|].
        intros (l' & [= <-] & ?); left; f_equal; lia.
    + rewrite lookup_insert_ne by done; naive_solver.
  - destruct (highest_fully_processed_advanced self recs Hwf) as (self1 & reason & Heq & Hadv).
    rewrite Heq in Hhfp; simplify_eq; split; simpl; [by eapply advanced_wf|].
    by rewrite (adv_processed _ _ _ _ _ Hadv).
Qed.

Lemma history_inv_reachable start_of s :
  tracker_reachable start_of s -> history_inv start_of s.
Proof.
  intros Hr; eapply (rtc_ind_r (fun s => history_inv start_of s)); [| |exact Hr].
  - split; simpl; [apply BlockTracker_new_wf|].
    intros k b; rewrite lookup_empty; split; [intros H; by apply not_elem_of_nil in H|naive_solver].
  - intros s1 s2 _ Hstep Hinv; by eapply history_inv_step.
Qed.

(** ** Correctness *)

(** Computing the highest fully processed block count always terminates.
    The count never decreases and never exceeds the highest known count; every
    block it advances over has been provided by every key that covers it; and
    it stops short of the highest known count only because of the key it
    returns, which covers the next block and has not provided it. *)
Theorem highest_fully_processed_correct self keys :
  tracker_wf self ->
  exists self' reason,
    highest_fully_processed_block_count self keys
      = Some (self', (last_highest_processed_block_count self', reason))
    /\ tracker_wf self'
    /\ processed_block_per_ingress_key self' = processed_block_per_ingress_key self
    /\ last_highest_processed_block_count self
       <= last_highest_processed_block_count self' <= highest_known_block_count self
    /\ (forall b rec,
          last_highest_processed_block_count self <= b
            < last_highest_processed_block_count self' ->
          rec ∈ keys -> covers_block_index rec b = true -> provided self rec b)
    /\ match reason with
       | None => last_highest_processed_block_count self' = highest_known_block_count self
       | Some rec => rec ∈ keys
           /\ last_highest_processed_block_count self' < highest_known_block_count self
           /\ covers_block_index rec (last_highest_processed_block_count self') = true
           /\ ~ provided self rec (last_highest_processed_block_count self')
       end.
Proof.
  intros Hwf; destruct (highest_fully_processed_advanced self keys Hwf) as (self' & r & Heq & Hadv).
  pose proof (advanced_wf _ _ _ _ Hwf Hadv); destruct Hadv; eauto 10.
Qed.

(** With one record per key, [next_blocks] asks for exactly the block
    after the last processed one (or the start block) of each key that still
    covers it, and processing a requested block never trips the assertion in
    [block_processed]. *)
Theorem next_blocks_correct self recs k b :
  NoDup (kr_key <$> recs) ->
  (next_blocks self recs !! k = Some b <->
   exists rec, rec ∈ recs /\ kr_key rec = k /\ covers_block_index rec b = true
     /\ b = match processed_block_per_ingress_key self !! k with
            | Some last => last +w 1
            | None => ks_start_block (kr_status rec)
            end)
  /\ (next_blocks self recs !! k = Some b ->
      block_processed self k b
      = Ret (mkBlockTracker (<[k := b]> (processed_block_per_ingress_key self))
               (last_highest_processed_block_count self))).
Proof.
  intros Hnd; rewrite next_blocks_lookup by done; unfold next_candidate; split.
  - split; intros (rec & ? & <- & ? & ?); eauto.
  - intros (rec & _ & <- & -> & _); apply block_processed_ret; split; [done|].
    by intros p ->.
Qed.

(** C18: along every sequence of loads and recounts, whatever the key records
    do in between, each block the reported count newly passes over has been
    loaded for every ingress key that covers it: the user misses nothing. *)
Theorem reported_count_is_loaded start_of self loaded recs self' n reason :
  tracker_reachable start_of (self, loaded) -> records_ok start_of recs ->
  highest_fully_processed_block_count self recs = Some (self', (n, reason)) ->
  forall b rec, last_highest_processed_block_count self <= b < n -> rec ∈ recs ->
    covers_block_index rec b = true -> (kr_key rec, b) ∈ loaded.
Proof.
  intros [Hwf Hld]%history_inv_reachable [_ Hst] Hhfp b rec Hb Hrec Hc; simpl in *.
  destruct (highest_fully_processed_advanced self recs Hwf) as (self1 & r & Heq & Hadv).
  rewrite Heq in Hhfp; simplify_eq.
  destruct (adv_sound _ _ _ _ _ Hadv b rec Hb Hrec Hc) as (l & Hl & Hbl).
  apply Hld; exists l; split; [done|].
  rewrite Forall_forall in Hst; rewrite <- (Hst _ Hrec).
  apply covers_above_start in Hc; lia.
Qed.

(** *** Concrete instances *)

Definition demo_record (key : Z) (start : Z) : IngressPublicKeyRecord :=
  mkIngressPublicKeyRecord [key] (mkIngressPublicKeyStatus start 0 false false) None.

Definition demo_records : list IngressPublicKeyRecord := [demo_record 1 0; demo_record 2 1].

Definition demo_tracker : BlockTracker :=
  mkBlockTracker (<[[1] := 4]> (<[[2] := 2]> ∅)) 1.

Lemma demo_tracker_wf : tracker_wf demo_tracker.
Proof.
  split; [|vm_compute; intuition discriminate].
  intros k i; simpl; rewrite !lookup_insert_Some, lookup_empty; unfold u64_max; naive_solver lia.
Qed.

Lemma highest_fully_processed_correct_witness :
  exists self' reason,
    highest_fully_processed_block_count demo_tracker demo_records
      = Some (self', (last_highest_processed_block_count self', reason))
    /\ last_highest_processed_block_count self' = 3
    /\ reason = Some (demo_record 2 1).
Proof.
  destruct (highest_fully_processed_correct demo_tracker demo_records demo_tracker_wf)
    as (self' & reason & Heq & _).
  exists self', reason; split; [exact Heq|].
  assert (Hc : highest_fully_processed_block_count demo_tracker demo_records
    = Some (mkBlockTracker (processed_block_per_ingress_key demo_tracker) 3,
            (3, Some (demo_record 2 1)))) by reflexivity.
  rewrite Heq in Hc; injection Hc as -> _ ->; split; reflexivity.
Defined.

Lemma demo_records_nodup : NoDup (kr_key <$> demo_records).
Proof. vm_decide. Qed.

Lemma next_blocks_correct_witness :
  next_blocks demo_tracker demo_records !! [2] = Some 3
  /\ block_processed demo_tracker [2] 3
     = Ret (mkBlockTracker (<[[2] := 3]> (processed_block_per_ingress_key demo_tracker)) 1).
Proof.
  destruct (next_blocks_correct demo_tracker demo_records [2] 3 demo_records_nodup) as [_ H].
  split; [reflexivity|apply H; reflexivity].
Defined.

Definition demo_start (k : bytes) : Z := match k with [2] => 1 | _ => 0 end.

Lemma demo_records_ok : records_ok demo_start demo_records.
Proof. split; [apply demo_records_nodup|]; repeat constructor. Qed.

Lemma demo_reachable :
  tracker_reachable demo_start (mkBlockTracker (<[[1] := 0]> ∅) 0, [([1], 0)]).
Proof.
  eapply rtc_l; [|apply rtc_refl].
  eapply step_load with (recs := demo_records);
    [apply demo_records_ok|reflexivity|unfold u64_max; lia|reflexivity].
Qed.

Lemma reported_count_is_loaded_witness :
  highest_fully_processed_block_count (mkBlockTracker (<[[1] := 0]> ∅) 0) demo_records
    = Some (mkBlockTracker (<[[1] := 0]> ∅) 1, (1, None))
  /\ ([1], 0) ∈ [([1] : bytes, 0)].
Proof.
  split; [reflexivity|].
  apply (reported_count_is_loaded demo_start _ _ demo_records
    (mkBlockTracker (<[[1] := 0]> ∅) 1) 1 None demo_reachable demo_records_ok
    ltac:(reflexivity) 0 (demo_record 1 0)); [simpl; lia|left|reflexivity].
Defined.
