(* ===== verification/InputSelection.v ===== *)
(** * Input selection of the sample paykit
    (src/fog/sample-paykit/src/cached_tx_data/mod.rs, [input_selection_heuristic])

    The dynamic-programming table and the greedy pass over it, with every
    index, assertion and wrapping addition of the code.  [best] is the
    reference definition of a table entry; [best_is_maximum] relates it to the
    sublists of the values. *)

From S2P Require Import Prelude.

Local Open Scope Z_scope.
Local Open Scope fog_scope.

Inductive InputSelectionError :=
| InsufficientFunds
| WalletCompactingNeeded (recommended : Z).

#[export] Instance InputSelectionError_eq_dec : EqDecision InputSelectionError.
Proof. solve_decision. Defined.

(** [v[i]] and [v[i] = x]: both panic out of range. *)
Definition index {A} (v : list A) (i : nat) : run A := unwrap (v !! i).
Definition index_set {A} (v : list A) (i : nat) (x : A) : run (list A) :=
  _ ← index v i; Ret (<[i := x]> v).

Abbreviation table := (list (list Z)).
Definition cell (t : table) (i j : nat) : run Z := row ← index t i; index row j.
Definition cell_set (t : table) (i j : nat) (x : Z) : run table :=
  row ← index t i; row' ← index_set row j x; index_set t i row'.

(** [iter().sum::<u64>()]. *)
Definition u64_sum (l : list Z) : Z := foldl u64_add 0 l.

Section selection.
(** [mc_transaction_core::constants::MAX_INPUTS]. *)
Context (MAX_INPUTS : nat).

(** One pass of the inner loop: fill [dp_table[i][j + 1]]. *)
Definition fill_cell (tx_values : list Z) (i j : nat) (dp_table : table) : run table :=
  v ← index tx_values i;
  a ← cell dp_table (i + 1) j;
  b ← cell dp_table (i + 1) (j + 1);
  cell_set dp_table i (j + 1) (Z.max (v +w a) b).

Fixpoint fill_row (tx_values : list Z) (i : nat) (js : list nat) (dp_table : table) : run table :=
  match js with
  | [] => Ret dp_table
  | j :: js => t ← fill_cell tx_values i j dp_table; fill_row tx_values i js t
  end.

Fixpoint fill_table (tx_values : list Z) (rows : list nat) (dp_table : table) : run table :=
  match rows with
  | [] => Ret dp_table
  | i :: rows => t ← fill_row tx_values i (seq 0 MAX_INPUTS) dp_table; fill_table tx_values rows t
  end.

Definition make_dp_table (tx_values : list Z) : run table :=
  fill_table tx_values (rev (seq 0 (length tx_values)))
    (replicate (length tx_values + 1) (replicate (MAX_INPUTS + 1) 0)).

(** The greedy loop over the indices; [selected] and [value] are its state. *)
Fixpoint select_loop (tx_values : list Z) (amount : Z) (max_inputs : nat) (dp_table : table)
  (idxs : list nat) (selected : list nat) (value : Z)
  : run (result (list nat) InputSelectionError) :=
  match idxs with
  | [] =>
      _ ← rassert (length selected <=? max_inputs)%nat;
      _ ← rassert (amount <=? value);
      Ret (Ok selected)
  | idx :: idxs =>
      if amount <=? value then
        _ ← rassert (length selected <=? max_inputs)%nat;
        Ret (Ok selected)
      else
        _ ← rassert (length selected <? max_inputs)%nat;
        v ← index tx_values idx;
        rest ← cell dp_table (idx + 1) (max_inputs - length selected - 1);
        if amount <=? value +w v +w rest
        then select_loop tx_values amount max_inputs dp_table idxs
               (selected ++ [idx]) (value +w v)
        else select_loop tx_values amount max_inputs dp_table idxs selected value
  end.

Definition input_selection_heuristic (tx_values : list Z) (amount : Z) (max_inputs : nat)
  : run (result (list nat) InputSelectionError) :=
  let max_inputs := Nat.min max_inputs MAX_INPUTS in
  if u64_sum tx_values <? amount then Ret (Err InsufficientFunds)
  else
    dp_table ← make_dp_table tx_values;
    top ← cell dp_table 0 max_inputs;
    if top <? amount then
      recommended ← cell dp_table 0 (Nat.max max_inputs 3);
      Ret (Err (WalletCompactingNeeded recommended))
    else
      select_loop tx_values amount max_inputs dp_table (seq 0 (length tx_values)) [] 0.
End selection.

(** ** Reference definitions *)

(** The largest sum of at most [j] of the values of [l]. *)
Fixpoint best (l : list Z) (j : nat) : Z :=
  match l, j with
  | v :: l', S j' => Z.max (v + best l' j') (best l' j)
  | _, _ => 0
  end.

(** The values at the selected indices. *)
Definition values_at (l : list Z) (idxs : list nat) : list Z :=
  (fun i => default 0 (l !! i)) <$> idxs.

(** The row of the finished table for the suffix [l]. *)
Definition best_row (MAX_INPUTS : nat) (l : list Z) : list Z :=
  best l <$> seq 0 (MAX_INPUTS + 1).

Definition nonneg (l : list Z) : Prop := Forall (fun v => 0 <= v) l.

(** ** [best] is the maximum over sublists *)

Lemma best_nonneg l j : 0 <= best l j.
Proof. revert j; induction l as [|v l IH]; intros [|j]; simpl; try lia; specialize (IH (S j)); lia. Qed.

Lemma best_zero l : best l 0 = 0.
Proof. by destruct l. Qed.

Lemma best_le_sum l j : nonneg l -> best l j <= zsum l.
Proof.
  intros H; revert j; induction H as [|v l Hv Hl IH]; intros [|j]; simpl; try done.
  - apply (zsum_nonneg (v :: l)); by constructor.
  - pose proof (IH j); pose proof (IH (S j)); lia.
Qed.

Lemma best_upper l s j :
  s `sublist_of` l -> (length s <= j)%nat -> zsum s <= best l j.
Proof.
  intros Hs; revert j; induction Hs as [|v s l Hs IH|v s l Hs IH]; intros j Hj; simpl.
  - destruct j; done.
  - destruct j as [|j]; simpl in *; [lia|]; specialize (IH j); unfold zsum in *; simpl; lia.
  - destruct j as [|j]; simpl in *.
    + specialize (IH 0%nat Hj); by rewrite best_zero in IH.
    + specialize (IH (S j) Hj); lia.
Qed.

Lemma best_attained l j :
  exists s, s `sublist_of` l /\ (length s <= j)%nat /\ zsum s = best l j.
Proof.
  revert j; induction l as [|v l IH]; intros [|j]; simpl;
    try (exists []; split_and!; [apply sublist_nil_l|simpl; lia|done]).
  destruct (Z.max_spec (v + best l j) (best l (S j))) as [[_ ->]|[_ ->]].
  - destruct (IH (S j)) as (s & ? & ? & ?); exists s; split_and!; [by constructor|done|done].
  - destruct (IH j) as (s & ? & ? & ?); exists (v :: s).
    split_and!; [by constructor|simpl; lia|unfold zsum in *; simpl; lia].
Qed.

(** ** Sums without overflow *)

Lemma u64_sum_small l : nonneg l -> zsum l < u64_modulus -> u64_sum l = zsum l.
Proof.
  intros Hl Hs; unfold u64_sum.
  assert (H : forall a, 0 <= a -> a + zsum l < u64_modulus -> foldl u64_add a l = a + zsum l).
  { clear Hs; induction Hl as [|v l Hv Hl IH]; intros a Ha Hs; simpl in *; [lia|].
    pose proof (zsum_nonneg l Hl) as Hz; unfold zsum in *.
    rewrite u64_add_small by (unfold is_u64; lia); rewrite IH; lia. }
  rewrite H; lia.
Qed.

Lemma nonneg_drop n l : nonneg l -> nonneg (drop n l).
Proof. apply Forall_drop. Qed.

(** ** The table holds [best] *)

Section table_correct.
Context (MAX_INPUTS : nat) (tx_values : list Z).
Hypothesis Hnonneg : nonneg tx_values.
Hypothesis Hsum : zsum tx_values < u64_modulus.

Lemma index_ret {A} (v : list A) i x : v !! i = Some x -> index v i = Ret x.
Proof. unfold index; by intros ->. Qed.

Lemma best_row_lookup l j :
  (j <= MAX_INPUTS)%nat -> best_row MAX_INPUTS l !! j = Some (best l j).
Proof. intros Hj; unfold best_row; by rewrite list_lookup_fmap, lookup_seq_lt by lia. Qed.

Lemma zsum_drop n : zsum (drop n tx_values) <= zsum tx_values.
Proof.
  rewrite <- (take_drop n tx_values) at 2; rewrite zsum_app.
  pose proof (zsum_nonneg (take n tx_values) ltac:(by apply Forall_take)); lia.
Qed.

Lemma best_drop_S i v j :
  tx_values !! i = Some v ->
  best (drop i tx_values) (S j)
  = Z.max (v + best (drop (S i) tx_values) j) (best (drop (S i) tx_values) (S j)).
Proof. intros Hv; by rewrite (drop_S _ _ _ Hv). Qed.

(** A row under construction: the first [n] entries after the leading zero are
    final, the others still zero. *)
Definition partial_row (i n : nat) : list Z :=
  take (n + 1) (best_row MAX_INPUTS (drop i tx_values)) ++ replicate (MAX_INPUTS - n) 0.

Lemma best_row_length l : length (best_row MAX_INPUTS l) = (MAX_INPUTS + 1)%nat.
Proof. unfold best_row; by rewrite length_fmap, length_seq. Qed.

Lemma partial_row_length i n : (n <= MAX_INPUTS)%nat -> length (partial_row i n) = (MAX_INPUTS + 1)%nat.
Proof.
  intros; unfold partial_row; rewrite length_app, length_take, length_replicate, best_row_length; lia.
Qed.

Lemma partial_row_set i n :
  (n < MAX_INPUTS)%nat ->
  <[(n + 1)%nat := best (drop i tx_values) (n + 1)]> (partial_row i n) = partial_row i (S n).
Proof.
  intros Hn; unfold partial_row.
  rewrite insert_app_r_alt by (rewrite length_take, best_row_length; lia).
  rewrite length_take, best_row_length.
  replace (n + 1 - (n + 1) `min` (MAX_INPUTS + 1))%nat with 0%nat by lia.
  replace (MAX_INPUTS - n)%nat with (S (MAX_INPUTS - S n)) by lia; simpl replicate; simpl insert.
  replace (S n + 1)%nat with (S (n + 1)) by lia.
  rewrite (take_S_r _ _ (best (drop i tx_values) (n + 1))) by (apply best_row_lookup; lia).
  by rewrite <- app_assoc.
Qed.

(** The table when rows [i ..] are final and the rows above are still zero. *)
Definition partial_table (i : nat) (row : list Z) : table :=
  replicate i (replicate (MAX_INPUTS + 1) 0) ++ row
    :: ((fun k => best_row MAX_INPUTS (drop k tx_values)) <$> seq (S i) (length tx_values - i)).

Lemma partial_table_here i row : partial_table i row !! i = Some row.
Proof.
  unfold partial_table; by rewrite lookup_app_r, length_replicate, Nat.sub_diag
    by (rewrite length_replicate; lia).
Qed.

Lemma partial_table_next i row :
  (i < length tx_values)%nat ->
  partial_table i row !! (i + 1)%nat = Some (best_row MAX_INPUTS (drop (S i) tx_values)).
Proof.
  intros Hi; unfold partial_table.
  rewrite lookup_app_r, length_replicate by (rewrite length_replicate; lia).
  replace (i + 1 - i)%nat with 1%nat by lia; simpl.
  rewrite list_lookup_fmap, lookup_seq_lt by lia; simpl; by rewrite Nat.add_0_r.
Qed.

Lemma partial_table_set i row row' :
  <[i := row']> (partial_table i row) = partial_table i row'.
Proof.
  unfold partial_table; rewrite insert_app_r_alt by (rewrite length_replicate; lia).
  by rewrite length_replicate, Nat.sub_diag.
Qed.

Lemma fill_cell_partial i n v :
  tx_values !! i = Some v -> (n < MAX_INPUTS)%nat ->
  fill_cell tx_values i n (partial_table i (partial_row i n))
  = Ret (partial_table i (partial_row i (S n))).
Proof.
  intros Hv Hn; pose proof (lookup_lt_Some _ _ _ Hv) as Hi; unfold fill_cell, cell, cell_set.
  rewrite (index_ret _ _ _ Hv); simpl.
  rewrite (index_ret _ _ _ (partial_table_next i _ Hi)); simpl.
  rewrite (index_ret _ _ _ (best_row_lookup (drop (S i) tx_values) n ltac:(lia))); simpl.
  rewrite (index_ret _ _ _ (best_row_lookup (drop (S i) tx_values) (n + 1) ltac:(lia))); simpl.
  rewrite (index_ret _ _ _ (partial_table_here i _)); simpl; unfold index_set.
  destruct (lookup_lt_is_Some_2 (partial_row i n) (n + 1)) as [x Hx];
    [rewrite partial_row_length; lia|].
  rewrite (index_ret _ _ _ Hx); simpl; rewrite (index_ret _ _ _ (partial_table_here i _)); simpl.
  rewrite partial_table_set, <- partial_row_set by done; repeat f_equal.
  replace (n + 1)%nat with (S n) by lia; rewrite (best_drop_S i v n Hv); f_equal.
  pose proof (best_nonneg (drop (S i) tx_values) n).
  pose proof (best_le_sum (drop (S i) tx_values) n (nonneg_drop _ _ Hnonneg)).
  pose proof (zsum_drop i) as Hz; rewrite (drop_S _ _ _ Hv) in Hz; unfold zsum in *; simpl in Hz.
  pose proof (Forall_lookup_1 _ _ _ _ Hnonneg Hv) as Hv0; simpl in Hv0.
  apply u64_add_small; unfold is_u64; lia.
Qed.

Lemma fill_row_partial i v k n :
  tx_values !! i = Some v -> (n + k = MAX_INPUTS)%nat ->
  fill_row tx_values i (seq n k) (partial_table i (partial_row i n))
  = Ret (partial_table i (partial_row i MAX_INPUTS)).
Proof.
  intros Hv; revert n; induction k as [|k IH]; intros n Hk; simpl.
  - by replace n with MAX_INPUTS by lia.
  - rewrite (fill_cell_partial i n v Hv) by lia; simpl; apply IH; lia.
Qed.

Lemma partial_row_full i : partial_row i MAX_INPUTS = best_row MAX_INPUTS (drop i tx_values).
Proof.
  unfold partial_row; rewrite Nat.sub_diag, app_nil_r; apply take_ge; by rewrite best_row_length.
Qed.

Lemma partial_row_start i : partial_row i 0 = replicate (MAX_INPUTS + 1) 0.
Proof.
  unfold partial_row, best_row.
  replace (MAX_INPUTS + 1)%nat with (S MAX_INPUTS) by lia; simpl.
  by rewrite best_zero, Nat.sub_0_r.
Qed.

(** Moving one row up. *)
Lemma partial_table_up i :
  (i < length tx_values)%nat ->
  partial_table (S i) (best_row MAX_INPUTS (drop (S i) tx_values))
  = partial_table i (partial_row i 0).
Proof.
  intros Hi; unfold partial_table; rewrite partial_row_start.
  replace (length tx_values - i)%nat with (S (length tx_values - S i)) by lia.
  rewrite replicate_S_end, <- app_assoc; done.
Qed.

Definition final_table : table :=
  (fun k => best_row MAX_INPUTS (drop k tx_values)) <$> seq 0 (length tx_values + 1).

Lemma fill_table_partial i :
  (i <= length tx_values)%nat ->
  fill_table MAX_INPUTS tx_values (rev (seq 0 i))
    (partial_table i (best_row MAX_INPUTS (drop i tx_values)))
  = Ret (partial_table 0 (best_row MAX_INPUTS (drop 0 tx_values))).
Proof.
  induction i as [|i IH]; intros Hi; [done|].
  rewrite seq_S, rev_app_distr; simpl.
  rewrite partial_table_up by lia.
  destruct (lookup_lt_is_Some_2 tx_values i) as [v Hv]; [lia|].
  rewrite (fill_row_partial i v MAX_INPUTS 0 Hv) by done; simpl.
  rewrite partial_row_full; apply IH; lia.
Qed.

Lemma best_row_nil : best_row MAX_INPUTS [] = replicate (MAX_INPUTS + 1) 0.
Proof.
  unfold best_row; apply list_eq; intros j.
  rewrite list_lookup_fmap; destruct (decide (j < MAX_INPUTS + 1)%nat).
  - rewrite lookup_seq_lt, lookup_replicate_2 by lia; done.
  - rewrite lookup_seq_ge, (lookup_ge_None_2 (replicate _ _)) by (rewrite ?length_replicate; lia).
    done.
Qed.

Lemma make_dp_table_correct : make_dp_table MAX_INPUTS tx_values = Ret final_table.
Proof.
  unfold make_dp_table.
  replace (replicate (length tx_values + 1) (replicate (MAX_INPUTS + 1) 0))
    with (partial_table (length tx_values)
            (best_row MAX_INPUTS (drop (length tx_values) tx_values))).
  - rewrite fill_table_partial by done; f_equal; unfold partial_table, final_table; simpl.
    by rewrite Nat.sub_0_r, Nat.add_comm.
  - unfold partial_table; rewrite drop_all, best_row_nil, Nat.sub_diag; simpl.
    by rewrite (replicate_add (length tx_values) 1).
Qed.

Lemma final_table_cell i j :
  (i <= length tx_values)%nat -> (j <= MAX_INPUTS)%nat ->
  cell final_table i j = Ret (best (drop i tx_values) j).
Proof.
  intros Hi Hj; unfold cell, final_table.
  rewrite (index_ret _ i (best_row MAX_INPUTS (drop i tx_values))); simpl.
  - apply index_ret, best_row_lookup, Hj.
  - rewrite list_lookup_fmap, lookup_seq_lt by lia; done.
Qed.
End table_correct.

(** ** The greedy pass *)

Section greedy.
Context (MAX_INPUTS : nat) (tx_values : list Z) (amount : Z) (max_inputs : nat).
Hypothesis Hnonneg : nonneg tx_values.
Hypothesis Hsum : zsum tx_values < u64_modulus.
Hypothesis Hmax : (max_inputs <= MAX_INPUTS)%nat.

(** What the loop adds to its state from index [i] on: [extra] is an increasing
    list of indices; together with what was selected before it reaches the
    amount within the input limit; it stops as soon as the amount is reached;
    and an index is passed over only when no choice of later values completes
    the selection. *)
Record greedy_from (i : nat) (n : nat) (value : Z) (extra : list nat) : Prop := {
  gf_sorted : Sorted.StronglySorted lt extra;
  gf_range : Forall (fun x => i <= x < length tx_values)%nat extra;
  gf_count : (n + length extra <= max_inputs)%nat;
  gf_reaches : amount <= value + zsum (values_at tx_values extra);
  gf_tight : forall pre x, extra = pre ++ [x] ->
    value + zsum (values_at tx_values pre) < amount;
  gf_skip : forall pre post x v s, extra = pre ++ post ->
    (i <= x)%nat -> Forall (fun y => y < x)%nat pre -> Forall (fun y => x < y)%nat post ->
    value + zsum (values_at tx_values pre) < amount ->
    tx_values !! x = Some v -> s `sublist_of` drop (S x) tx_values ->
    (n + length pre + 1 + length s <= max_inputs)%nat ->
    value + zsum (values_at tx_values pre) + v + zsum s < amount;
}.

Lemma greedy_from_nil i n value :
  (n <= max_inputs)%nat -> amount <= value -> greedy_from i n value [].
Proof.
  intros Hn Ha; split; try done; simpl; [constructor|lia|unfold zsum; simpl; lia| |].
  - intros pre x Hpre; by apply app_cons_not_nil in Hpre.
  - intros pre post x v s [-> ->]%eq_sym%app_eq_nil _ _ _; unfold zsum; simpl; lia.
Qed.

Lemma greedy_from_take i n value v extra :
  tx_values !! i = Some v -> value < amount ->
  greedy_from (S i) (S n) (value + v) extra -> greedy_from i n value (i :: extra).
Proof.
  intros Hv Hlt [Hs Hr Hc Hre Ht Hk].
  assert (Hd : default 0 (tx_values !! i) = v) by by rewrite Hv.
  assert (Hz : forall l, zsum (values_at tx_values (i :: l)) = v + zsum (values_at tx_values l))
    by (intros l; unfold values_at; rewrite fmap_cons, Hd; done).
  pose proof (lookup_lt_Some _ _ _ Hv).
  split.
  - constructor; [done|]; eapply Forall_impl; [exact Hr|]; simpl; lia.
  - constructor; [lia|]; eapply Forall_impl; [exact Hr|]; simpl; lia.
  - simpl; lia.
  - rewrite Hz; lia.
  - intros [|y pre] x [= Hy Hx]; [unfold zsum; simpl; lia|].
    subst y; rewrite Hz; specialize (Ht pre x Hx); lia.
  - intros [|y pre] post x w s Heq Hix Hpre Hpost Hval Hw Hsub Hcnt.
    + simpl in Heq; subst post; apply Forall_cons in Hpost as [? _]; lia.
    + injection Heq as <- Heq; apply Forall_cons in Hpre as [Hx Hpre].
      rewrite Hz in *; simpl in Hcnt.
      specialize (Hk pre post x w s Heq ltac:(lia) Hpre Hpost ltac:(lia) Hw Hsub ltac:(lia)); lia.
Qed.

Lemma greedy_from_skip i n value v extra :
  tx_values !! i = Some v -> value < amount ->
  value + v + best (drop (S i) tx_values) (max_inputs - n - 1) < amount ->
  greedy_from (S i) n value extra -> greedy_from i n value extra.
Proof.
  intros Hv Hlt Hbest [Hs Hr Hc Hre Ht Hk]; split; try done.
  - eapply Forall_impl; [exact Hr|]; simpl; lia.
  - intros pre post x w s Heq Hix Hpre Hpost Hval Hw Hsub Hcnt.
    destruct (decide (x = i)) as [->|Hne].
    + assert (pre = []) as ->.
      { destruct pre as [|y pre]; [done|]; subst extra; simpl in *.
        apply Forall_cons in Hr as [? _]; apply Forall_cons in Hpre as [? _]; lia. }
      simplify_eq; simpl in *.
      pose proof (best_upper _ _ (max_inputs - n - 1) Hsub ltac:(lia)); unfold zsum in *; simpl; lia.
    + apply (Hk pre post x w s); [done|lia|done..].
Qed.

Lemma select_loop_greedy k : forall i selected value,
  (i + k = length tx_values)%nat -> (length selected <= max_inputs)%nat ->
  0 <= value -> value + zsum (drop i tx_values) < u64_modulus ->
  amount <= value + best (drop i tx_values) (max_inputs - length selected) ->
  exists extra,
    select_loop tx_values amount max_inputs (final_table MAX_INPUTS tx_values) (seq i k)
      selected value = Ret (Ok (selected ++ extra))
    /\ greedy_from i (length selected) value extra.
Proof.
  induction k as [|k IH]; intros i selected value Hik Hsel Hval Hov Hbest; simpl.
  - rewrite drop_ge in Hbest by lia; simpl in Hbest.
    rewrite (proj2 (Nat.leb_le _ _) Hsel), (proj2 (Z.leb_le _ _)) by lia; simpl.
    exists []; rewrite app_nil_r; split; [done|apply greedy_from_nil; lia].
  - destruct (amount <=? value) eqn:Hge; bool_to_prop.
    { rewrite (proj2 (Nat.leb_le _ _) Hsel); simpl.
      exists []; rewrite app_nil_r; split; [done|apply greedy_from_nil; lia]. }
    assert (Hlt : (length selected < max_inputs)%nat).
    { destruct (decide (length selected = max_inputs)) as [Heq|]; [|lia].
      rewrite Heq, Nat.sub_diag, best_zero in Hbest; lia. }
    rewrite (proj2 (Nat.ltb_lt _ _) Hlt); simpl.
    destruct (lookup_lt_is_Some_2 tx_values i) as [v Hv]; [lia|].
    rewrite (index_ret _ _ _ Hv); simpl.
    rewrite final_table_cell by lia; simpl; rewrite Nat.add_1_r.
    rewrite (drop_S _ _ _ Hv) in Hov, Hbest; unfold zsum in Hov; simpl in Hov; fold zsum in Hov.
    set (b := best (drop (S i) tx_values) (max_inputs - length selected - 1)) in *.
    pose proof (Forall_lookup_1 _ _ _ _ Hnonneg Hv) as Hv0; simpl in Hv0.
    pose proof (best_le_sum (drop (S i) tx_values) (max_inputs - length selected - 1)
      (nonneg_drop _ _ Hnonneg)) as Hb1; fold b in Hb1.
    pose proof (best_nonneg (drop (S i) tx_values) (max_inputs - length selected - 1)) as Hb0.
    fold b in Hb0; unfold zsum in Hb1.
    rewrite (u64_add_small value v) by (unfold is_u64; lia).
    rewrite u64_add_small by (unfold is_u64; lia).
    destruct (amount <=? value + v + b) eqn:Htake; bool_to_prop.
    + destruct (IH (S i) (selected ++ [i]) (value + v)) as (extra & Hloop & Hg).
      1: lia. 1: rewrite length_app; simpl; lia. 1: lia. 1: unfold zsum; lia.
      { rewrite length_app; simpl.
        replace (max_inputs - (length selected + 1))%nat
          with (max_inputs - length selected - 1)%nat by lia; fold b; lia. }
      exists (i :: extra); rewrite Hloop, <- app_assoc; split; [done|].
      rewrite length_app, Nat.add_1_r in Hg; by eapply greedy_from_take.
    + destruct (IH (S i) selected value) as (extra & Hloop & Hg); try (unfold zsum; lia); try lia.
      { replace (max_inputs - length selected)%nat
          with (S (max_inputs - length selected - 1)) in * by lia.
        simpl in Hbest; fold b in Hbest; lia. }
      exists extra; split; [done|]; by eapply greedy_from_skip.
Qed.
End greedy.

(** ** Correctness of input selection *)

Section correctness.
Context (MAX_INPUTS : nat) (tx_values : list Z) (amount : Z) (max_inputs : nat).
Hypothesis Hmi : (3 <= MAX_INPUTS)%nat.
Hypothesis Hnonneg : nonneg tx_values.
Hypothesis Hsum : zsum tx_values < u64_modulus.

Let m := Nat.min max_inputs MAX_INPUTS.

(** The four outcomes of the function, in the order of its tests. *)
Lemma input_selection_cases :
  let r := input_selection_heuristic MAX_INPUTS tx_values amount max_inputs in
  (zsum tx_values < amount /\ r = Ret (Err InsufficientFunds))
  \/ (amount <= zsum tx_values /\ best tx_values m < amount
      /\ r = Ret (Err (WalletCompactingNeeded (best tx_values (Nat.max m 3)))))
  \/ (amount <= best tx_values m /\ exists idxs, r = Ret (Ok idxs)
      /\ greedy_from tx_values amount m 0 0 0 idxs).
Proof.
  intros r; subst r; unfold input_selection_heuristic; fold m.
  assert (Hm : (m <= MAX_INPUTS)%nat) by (subst m; lia).
  rewrite u64_sum_small by done.
  destruct (zsum tx_values <? amount) eqn:Hfunds; bool_to_prop; [left; done|right].
  rewrite make_dp_table_correct by done; cbn [mbind run_bind].
  rewrite !final_table_cell by lia; cbn [mbind run_bind].
  change (drop 0 tx_values) with tx_values.
  destruct (best tx_values m <? amount) eqn:Htop; bool_to_prop.
  - by left.
  - right; split; [done|].
    destruct (select_loop_greedy MAX_INPUTS tx_values amount m Hnonneg Hm
      (length tx_values) 0 [] 0) as (extra & Hloop & Hg); simpl; rewrite ?drop_0, ?Nat.sub_0_r;
      try lia; try done.
    by exists extra.
Qed.
End correctness.

(** C22: for every list of values whose sum fits a [u64], input selection
    returns (no assertion or index ever fails) and
    - reports insufficient funds exactly when all values together miss the
      amount;
    - asks for compaction exactly when they suffice but no choice of at most
      the allowed number of them does, and recommends the largest sum of that
      many (at least three) values;
    - otherwise returns increasing indices, at most the allowed number, whose
      values reach the amount and stop reaching it when the last is dropped. *)
Theorem input_selection_correct MAX_INPUTS tx_values amount max_inputs :
  (3 <= MAX_INPUTS)%nat -> nonneg tx_values -> zsum tx_values < u64_modulus ->
  let m := Nat.min max_inputs MAX_INPUTS in
  exists r, input_selection_heuristic MAX_INPUTS tx_values amount max_inputs = Ret r /\
  match r with
  | Err InsufficientFunds => zsum tx_values < amount
  | Err (WalletCompactingNeeded recommended) =>
      amount <= zsum tx_values
      /\ (forall s, s `sublist_of` tx_values -> (length s <= m)%nat -> zsum s < amount)
      /\ (forall s, s `sublist_of` tx_values -> (length s <= Nat.max m 3)%nat ->
            zsum s <= recommended)
      /\ (exists s, s `sublist_of` tx_values /\ (length s <= Nat.max m 3)%nat
            /\ zsum s = recommended)
  | Ok idxs =>
      Sorted.StronglySorted lt idxs
      /\ Forall (fun i => i < length tx_values)%nat idxs
      /\ (length idxs <= m)%nat
      /\ amount <= zsum (values_at tx_values idxs)
      /\ (forall pre x, idxs = pre ++ [x] -> zsum (values_at tx_values pre) < amount)
  end.
Proof.
  intros Hmi Hnn Hs m; destruct (input_selection_cases MAX_INPUTS tx_values amount max_inputs)
    as [[Hf ->]|[(Hf & Hb & ->)|(Hb & idxs & -> & [Hso Hra Hco Hre Hti _])]]; try done;
    eexists; (split; [reflexivity|]); subst m.
  - done.
  - split_and!; [done| |intros; by apply best_upper|apply best_attained].
    intros s Hsub Hlen; pose proof (best_upper _ _ _ Hsub Hlen); lia.
  - split_and!; [done| |lia|lia|done].
    eapply Forall_impl; [exact Hra|]; simpl; lia.
Qed.

(** The oldest values are preferred.  If a value at index [x] is not
    selected although the amount was not reached by the earlier selected
    values [pre], then taking it would have been a dead end: no choice of
    later values reaches the amount within the input limit. *)
Theorem input_selection_prefers_oldest MAX_INPUTS tx_values amount max_inputs idxs pre post x v s :
  (3 <= MAX_INPUTS)%nat -> nonneg tx_values -> zsum tx_values < u64_modulus ->
  input_selection_heuristic MAX_INPUTS tx_values amount max_inputs = Ret (Ok idxs) ->
  idxs = pre ++ post -> Forall (fun y => y < x)%nat pre -> Forall (fun y => x < y)%nat post ->
  zsum (values_at tx_values pre) < amount ->
  tx_values !! x = Some v -> s `sublist_of` drop (S x) tx_values ->
  (length pre + 1 + length s <= Nat.min max_inputs MAX_INPUTS)%nat ->
  zsum (values_at tx_values pre) + v + zsum s < amount.
Proof.
  intros Hmi Hnn Hs Hr Heq Hpre Hpost Hval Hv Hsub Hlen.
  destruct (input_selection_cases MAX_INPUTS tx_values amount max_inputs)
    as [[_ Hc]|[(_ & _ & Hc)|(_ & idxs' & Hc & Hg)]]; try done; rewrite Hr in Hc; simplify_eq.
  eapply (gf_skip _ _ _ _ _ _ _ Hg pre post x v s); try done; lia.
Qed.

(** *** Concrete instances: the values of the unit test *)
Definition demo_values : list Z := [1; 1; 1; 4; 9; 1; 1; 1; 19; 2; 1].

Lemma demo_values_nonneg : nonneg demo_values.
Proof. repeat constructor; lia. Qed.

Lemma input_selection_correct_witness :
  input_selection_heuristic 16 demo_values 24 3 = Ret (Ok [0; 3; 8]%nat)
  /\ input_selection_heuristic 16 demo_values 41 3 = Ret (Err (WalletCompactingNeeded 32))
  /\ input_selection_heuristic 16 demo_values 42 3 = Ret (Err InsufficientFunds)
  /\ 24 <= zsum (values_at demo_values [0; 3; 8]%nat).
Proof.
  split; [vm_compute; reflexivity|]; split; [vm_compute; reflexivity|].
  split; [vm_compute; reflexivity|].
  destruct (input_selection_correct 16 demo_values 24 3) as (r & Hr & Hspec);
    [lia|apply demo_values_nonneg|reflexivity|].
  assert (Hc : input_selection_heuristic 16 demo_values 24 3 = Ret (Ok [0; 3; 8]%nat))
    by (vm_compute; reflexivity).
  rewrite Hc in Hr; injection Hr as <-; apply Hspec.
Defined.

Lemma input_selection_prefers_oldest_witness :
  input_selection_heuristic 16 demo_values 24 3 = Ret (Ok [0; 3; 8]%nat)
  /\ 1 + 1 + zsum [19] < 24.
Proof.
  split; [vm_compute; reflexivity|].
  apply (input_selection_prefers_oldest 16 demo_values 24 3 [0; 3; 8]%nat [0]%nat [3; 8]%nat
    1 1 [19]); try reflexivity; try (repeat constructor; lia); try lia.
Defined.
