(* ===== verification/KexRng.v ===== *)
(** * The key exchange rng (src/fog/kex_rng/src)

    The ingest enclave and the user derive the same sequence of search keys
    from a key exchange.  The traits [Kex] (of the key crate) and [KexRngCore]
    are type classes; [BufferedKexRng] is generic in the core, as in the code,
    and [VersionedKexRng] dispatches on the version.  The curve and the hash
    are parameters: [KexLaws] names what is documented of the key exchange. *)

From S2P Require Import Prelude FogTypes.

Local Open Scope Z_scope.
Local Open Scope fog_scope.

(** The key exchange algorithm of the key crate. *)
Class Kex := {
  Private : Type;
  Public : Type;
  public_from : Private -> Public;
  public_to_bytes : Public -> bytes;
  public_try_from : bytes -> result Public KeyError;
  key_exchange : Private -> Public -> bytes;
}.

(** Key exchange is symmetric, encodings round trip, secrets have 32 bytes. *)
Class KexLaws (K : Kex) : Prop := {
  key_exchange_comm : forall a b,
    key_exchange a (public_from b) = key_exchange b (public_from a);
  public_roundtrip : forall p, public_try_from (public_to_bytes p) = Ok p;
  key_exchange_length : forall a p, length (key_exchange a p) = 32%nat;
}.

(** error.rs *)
Inductive KexRngError :=
| KexRngErrorKey (e : KeyError)
| UnknownVersion (version : Z).

#[export] Instance KexRngError_eq_dec : EqDecision KexRngError.
Proof. solve_decision. Defined.

(** traits.rs: a core is a pseudorandom function with an output size and a
    version. *)
Class KexRngCore := {
  OutputSize : nat;
  VERSION_ID : Z;
  prf : bytes -> Z -> bytes;
}.

(** The size in bytes of a public key of the [Ristretto] exchange. *)
Definition PublicSize : nat := 32.

(** lib.rs: [KexRngPubkey::from_public_key]. *)
Definition KexRngPubkey_from_public_key `{K : Kex} (core : KexRngCore) (public : Public)
  : KexRngPubkey :=
  mkKexRngPubkey (public_to_bytes public) VERSION_ID.

(** ** buffered.rs *)

Record BufferedKexRng := mkBufferedKexRng {
  bkr_secret : bytes;
  bkr_counter : Z;
  bkr_buffer : bytes;
}.

#[export] Instance BufferedKexRng_eq_dec : EqDecision BufferedKexRng.
Proof. solve_decision. Defined.

Section buffered.
Context `{K : Kex} (core : KexRngCore).

Definition buffered_peek (self : BufferedKexRng) : bytes := bkr_buffer self.

Definition buffered_advance (self : BufferedKexRng) : BufferedKexRng :=
  let counter := bkr_counter self +w 1 in
  mkBufferedKexRng (bkr_secret self) counter (prf (bkr_secret self) counter).

Definition buffered_index (self : BufferedKexRng) : Z := bkr_counter self.

Definition buffered_version_id (self : BufferedKexRng) : Z := VERSION_ID.

Definition buffered_from_secret (secret : bytes) : BufferedKexRng :=
  mkBufferedKexRng secret 0 (prf secret 0).

(** [new_secret] draws an ephemeral key: its public part and the secret. *)
Definition buffered_new_from_ephemeral_static {R} (new_secret : R -> Public -> Public * bytes)
  (rng : R) (pubkey : Public) : KexRngPubkey * BufferedKexRng :=
  let '(our_public, secret) := new_secret rng pubkey in
  (KexRngPubkey_from_public_key core our_public, buffered_from_secret secret).

Definition buffered_new_from_static_static (our_private : Private) (their_pubkey : Public)
  : KexRngPubkey * BufferedKexRng :=
  let secret := key_exchange our_private their_pubkey in
  (KexRngPubkey_from_public_key core (public_from our_private), buffered_from_secret secret).

Definition buffered_try_from_kex_pubkey (pubkey : KexRngPubkey) (our_private : Private)
  : result BufferedKexRng KexRngError :=
  if negb (krp_version pubkey =? VERSION_ID)
  then Err (KexRngErrorKey AlgorithmMismatch)
  else
    let? public := map_err KexRngErrorKey (public_try_from (krp_public_key pubkey)) in
    Ok (buffered_from_secret (key_exchange our_private public)).

(** [impl From<BufferedKexRng> for StoredRng]. *)
Definition buffered_into_stored (src : BufferedKexRng) : StoredRng :=
  {| sr_secret := bkr_secret src; sr_buffer := bkr_buffer src;
     sr_counter := bkr_counter src; sr_version := VERSION_ID |}.

(** [impl TryFrom<StoredRng> for BufferedKexRng]. *)
Definition buffered_try_from_stored (src : StoredRng) : result BufferedKexRng KeyError :=
  if negb (sr_version src =? VERSION_ID) then Err AlgorithmMismatch
  else if negb (length (sr_buffer src) =? OutputSize)%nat
  then Err (LengthMismatch (Z.of_nat (length (sr_buffer src))) (Z.of_nat OutputSize))
  else if negb (length (sr_secret src) =? PublicSize)%nat
  then Err (LengthMismatch (Z.of_nat (length (sr_secret src))) (Z.of_nat PublicSize))
  else Ok (mkBufferedKexRng (sr_secret src) (sr_counter src) (sr_buffer src)).
End buffered.

(** ** kexrng20201124.rs: the Blake2b core *)

Definition ascii_20201124 : bytes := [50; 48; 50; 48; 49; 49; 50; 52].

#[export] Instance KexRng20201124 (blake2b : bytes -> bytes) : KexRngCore := {|
  OutputSize := 16;
  VERSION_ID := 0;
  prf := fun secret counter =>
    take 16 (blake2b (ascii_20201124 ++ secret ++ to_le_bytes counter));
|}.

(** ** versioned/macros.rs, mod.rs: one variant, [V0] *)

Inductive VersionedKexRng :=
| V0 (inner : BufferedKexRng).

#[export] Instance VersionedKexRng_eq_dec : EqDecision VersionedKexRng.
Proof. solve_decision. Defined.

Section versioned.
Context `{K : Kex} (blake2b : bytes -> bytes).
Let core : KexRngCore := KexRng20201124 blake2b.

Definition versioned_new_from_ephemeral_static {R}
  (new_secret : R -> Public -> Public * bytes) (rng : R) (pubkey : Public)
  : KexRngPubkey * VersionedKexRng :=
  let '(kex_pubkey, buf) := buffered_new_from_ephemeral_static core new_secret rng pubkey in
  (kex_pubkey, V0 buf).

Definition versioned_new_from_static_static (our_private : Private) (pubkey : Public)
  : KexRngPubkey * VersionedKexRng :=
  let '(kex_pubkey, buf) := buffered_new_from_static_static core our_private pubkey in
  (kex_pubkey, V0 buf).

Definition versioned_try_from_kex_pubkey (pubkey : KexRngPubkey) (private_key : Private)
  : result VersionedKexRng KexRngError :=
  if krp_version pubkey =? @VERSION_ID core
  then let? inner := buffered_try_from_kex_pubkey core pubkey private_key in Ok (V0 inner)
  else Err (UnknownVersion (krp_version pubkey)).

Definition versioned_try_from_stored (src : StoredRng) : result VersionedKexRng KexRngError :=
  if sr_version src =? @VERSION_ID core
  then let? inner := map_err KexRngErrorKey (buffered_try_from_stored core src) in Ok (V0 inner)
  else Err (UnknownVersion (sr_version src)).

Definition versioned_into_stored (src : VersionedKexRng) : StoredRng :=
  match src with V0 inner => buffered_into_stored core inner end.

Definition peek (self : VersionedKexRng) : bytes :=
  match self with V0 inner => buffered_peek inner end.

Definition advance (self : VersionedKexRng) : VersionedKexRng :=
  match self with V0 inner => V0 (buffered_advance core inner) end.

Definition rng_index (self : VersionedKexRng) : Z :=
  match self with V0 inner => buffered_index inner end.

Definition version_id (self : VersionedKexRng) : Z :=
  match self with V0 inner => buffered_version_id core inner end.

(** [Iterator::next]: the current output, then step. *)
Definition rng_next (self : VersionedKexRng) : bytes * VersionedKexRng :=
  (peek self, advance self).

(** [rng.take(n).collect()] on a clone. *)
Fixpoint rng_take (n : nat) (self : VersionedKexRng) : list bytes :=
  match n with
  | O => []
  | S n => let '(out, self') := rng_next self in out :: rng_take n self'
  end.
End versioned.

(** ** The abstract sequence

    [output blake2b secret i] is the i-th search key of a secret; an rng is
    well formed when it stands at its index in the sequence of its secret. *)
Definition output (blake2b : bytes -> bytes) (secret : bytes) (i : Z) : bytes :=
  @prf (KexRng20201124 blake2b) secret i.

Definition rng_secret (self : VersionedKexRng) : bytes :=
  match self with V0 inner => bkr_secret inner end.

Record rng_wf (blake2b : bytes -> bytes) (self : VersionedKexRng) : Prop := {
  rng_wf_counter : is_u64 (rng_index self);
  rng_wf_secret : length (rng_secret self) = 32%nat;
  rng_wf_buffer : peek self = output blake2b (rng_secret self) (rng_index self);
}.

Section rng_lemmas.
Context `{K : Kex} (blake2b : bytes -> bytes).

Lemma advance_secret r : rng_secret (advance blake2b r) = rng_secret r.
Proof. by destruct r. Qed.

Lemma advance_index r : rng_index (advance blake2b r) = rng_index r +w 1.
Proof. by destruct r. Qed.

Lemma advance_wf r : rng_wf blake2b r -> rng_wf blake2b (advance blake2b r).
Proof.
  intros [_ Hs _]; split; [rewrite advance_index; apply wrap64_range|by rewrite advance_secret|].
  by destruct r.
Qed.

(** The rng after [n] steps. *)
Definition advance_n (n : nat) (r : VersionedKexRng) : VersionedKexRng :=
  Nat.iter n (advance blake2b) r.

Lemma advance_n_wf n r : rng_wf blake2b r -> rng_wf blake2b (advance_n n r).
Proof. induction n; simpl; auto using advance_wf. Qed.

Lemma advance_n_secret n r : rng_secret (advance_n n r) = rng_secret r.
Proof. induction n as [|n IH]; simpl; [done|by rewrite advance_secret]. Qed.

Lemma advance_n_index n r :
  is_u64 (rng_index r) -> rng_index r + Z.of_nat n < u64_modulus ->
  rng_index (advance_n n r) = rng_index r + Z.of_nat n.
Proof.
  intros Hr; induction n as [|n IH]; intros Hn; simpl; [lia|].
  rewrite advance_index, IH by lia; rewrite u64_add_small; unfold is_u64 in *; lia.
Qed.

Lemma advance_n_peek n r :
  rng_wf blake2b r -> rng_index r + Z.of_nat n < u64_modulus ->
  peek (advance_n n r) = output blake2b (rng_secret r) (rng_index r + Z.of_nat n).
Proof.
  intros Hwf Hn; rewrite (rng_wf_buffer _ _ (advance_n_wf n r Hwf)), advance_n_secret.
  by rewrite advance_n_index by (try apply Hwf; lia).
Qed.

Lemma advance_n_S n r : advance_n n (advance blake2b r) = advance_n (S n) r.
Proof. unfold advance_n; by rewrite Nat.iter_succ_r. Qed.

(** Taking [n] outputs lists the next [n] entries of the sequence. *)
Lemma rng_take_lookup n r i :
  (i < n)%nat -> rng_take blake2b n r !! i = Some (peek (advance_n i r)).
Proof.
  revert r i; induction n as [|n IH]; intros r i Hi; [lia|]; simpl.
  destruct i as [|i]; [done|]; simpl; rewrite IH by lia; by rewrite advance_n_S.
Qed.

Lemma rng_take_length n r : length (rng_take blake2b n r) = n.
Proof. revert r; induction n as [|n IH]; intros r; simpl; auto. Qed.

Lemma from_secret_wf secret :
  length secret = 32%nat -> rng_wf blake2b (V0 (buffered_from_secret (KexRng20201124 blake2b) secret)).
Proof. intros Hs; split; simpl; [unfold_u64; lia|done|done]. Qed.

Context `{!KexLaws K}.

Lemma try_from_kex_pubkey_wf pubkey private r :
  versioned_try_from_kex_pubkey blake2b pubkey private = Ok r -> rng_wf blake2b r.
Proof.
  unfold versioned_try_from_kex_pubkey, buffered_try_from_kex_pubkey; simpl.
  intros H; repeat case_match; simplify_eq; simpl in *; simplify_eq.
  destruct (public_try_from _); simpl in *; simplify_eq.
  apply from_secret_wf, key_exchange_length.
Qed.

Lemma new_from_static_static_sync a b :
  let '(kex_pubkey, rng) := versioned_new_from_static_static blake2b a (public_from b) in
  versioned_try_from_kex_pubkey blake2b kex_pubkey b = Ok rng.
Proof.
  unfold versioned_new_from_static_static, versioned_try_from_kex_pubkey,
    buffered_new_from_static_static, buffered_try_from_kex_pubkey; simpl.
  rewrite public_roundtrip; simpl; by rewrite key_exchange_comm.
Qed.

Lemma versioned_stored_roundtrip r :
  (forall bs, (16 <= length (blake2b bs))%nat) -> rng_wf blake2b r ->
  versioned_try_from_stored blake2b (versioned_into_stored blake2b r) = Ok r.
Proof.
  intros Hh [_ Hs Hb]; destruct r as [[secret counter buffer]]; simpl in *.
  unfold versioned_try_from_stored, buffered_try_from_stored; simpl.
  assert (length buffer = 16%nat) as ->.
  { rewrite Hb; unfold output; cbn [prf KexRng20201124]; rewrite length_take.
    specialize (Hh (ascii_20201124 ++ secret ++ to_le_bytes counter)); lia. }
  by rewrite Hs.
Qed.
End rng_lemmas.

(** ** Correctness *)

Section kex_rng_correct.
Context `{K : Kex} `{!KexLaws K} (blake2b : bytes -> bytes).

(** The two ends of a key exchange agree.  From the message published by
    the holder of [a], the holder of [b] builds the very rng the publisher
    built, and after [n] steps both show the n-th output of the shared secret
    and report index [n]. *)
Theorem kex_rng_in_sync (a b : Private) (n : nat) :
  Z.of_nat n < u64_modulus ->
  let '(kex_pubkey, rng) := versioned_new_from_static_static blake2b a (public_from b) in
  exists rng', versioned_try_from_kex_pubkey blake2b kex_pubkey b = Ok rng'
    /\ peek (advance_n blake2b n rng) = output blake2b (key_exchange a (public_from b)) (Z.of_nat n)
    /\ peek (advance_n blake2b n rng') = peek (advance_n blake2b n rng)
    /\ rng_index (advance_n blake2b n rng) = Z.of_nat n.
Proof.
  intros Hn; pose proof (new_from_static_static_sync blake2b a b) as Hsync.
  destruct (versioned_new_from_static_static blake2b a (public_from b)) as [pk rng] eqn:Heq.
  exists rng; split; [done|].
  unfold versioned_new_from_static_static, buffered_new_from_static_static in Heq; simplify_eq/=.
  set (rng := V0 (buffered_from_secret _ _)).
  assert (Hwf : rng_wf blake2b rng) by apply from_secret_wf, key_exchange_length.
  split_and!; [|done|].
  - by rewrite (advance_n_peek blake2b n rng Hwf).
  - by rewrite (advance_n_index blake2b n rng (rng_wf_counter _ _ Hwf)).
Qed.

(** Storing an rng and loading it back gives the same rng; loading
    succeeds on exactly the stored forms with the known version and the right
    lengths, and what it accepts is stored again as it was. *)
Theorem stored_rng_roundtrip (r : VersionedKexRng) (src : StoredRng) :
  (forall bs, (16 <= length (blake2b bs))%nat) ->
  (rng_wf blake2b r ->
   versioned_try_from_stored blake2b (versioned_into_stored blake2b r) = Ok r)
  /\ (versioned_try_from_stored blake2b src = Ok r <->
      versioned_into_stored blake2b r = src
      /\ length (sr_buffer src) = 16%nat /\ length (sr_secret src) = 32%nat).
Proof.
  intros Hh; split; [by apply versioned_stored_roundtrip|].
  destruct r as [[secret counter buffer]], src as [ssec sbuf sctr sver]; simpl.
  unfold versioned_try_from_stored, buffered_try_from_stored; simpl.
  destruct (sver =? 0) eqn:Hv; bool_to_prop; simpl; [|unfold buffered_into_stored; simpl; naive_solver].
  destruct (length sbuf =? 16)%nat eqn:Hb; simpl; [|apply Nat.eqb_neq in Hb; naive_solver].
  destruct (length ssec =? PublicSize)%nat eqn:Hs; simpl;
    [|apply Nat.eqb_neq in Hs; unfold PublicSize in *; naive_solver].
  apply Nat.eqb_eq in Hb, Hs; unfold buffered_into_stored; simpl; naive_solver.
Qed.
End kex_rng_correct.

(** *** A concrete key exchange

    A commutative toy exchange on byte strings and a hash that puts the
    counter first, enough to evaluate the definitions. *)
#[export] Instance demo_kex : Kex := {|
  Private := list Z;
  Public := list Z;
  public_from := fun a => a;
  public_to_bytes := fun p => p;
  public_try_from := fun bs => Ok bs;
  key_exchange := fun a p => le_split 32 (le_combine a + le_combine p);
|}.

#[export] Instance demo_kex_laws : KexLaws demo_kex.
Proof.
  split; [|done|intros; apply le_split_length].
  intros a b; cbn [key_exchange public_from demo_kex]; by rewrite Z.add_comm.
Qed.

Definition demo_hash (bs : bytes) : bytes := rev bs ++ replicate 16 0.

Lemma demo_hash_length bs : (16 <= length (demo_hash bs))%nat.
Proof. unfold demo_hash; rewrite length_app, length_replicate; lia. Qed.

Lemma kex_rng_in_sync_witness :
  let '(kex_pubkey, rng) := versioned_new_from_static_static (K := demo_kex) demo_hash [5] [7] in
  exists rng', versioned_try_from_kex_pubkey (K := demo_kex) demo_hash kex_pubkey [7] = Ok rng'
    /\ peek (advance_n demo_hash 3 rng') = peek (advance_n demo_hash 3 rng).
Proof.
  destruct (kex_rng_in_sync (K := demo_kex) demo_hash [5] [7] 3 ltac:(reflexivity)) as (rng' & H1 & _ & H2 & _).
  exists rng'; split; [exact H1|exact H2].
Defined.

Lemma stored_rng_roundtrip_witness :
  let r := V0 (buffered_from_secret (KexRng20201124 demo_hash) (replicate 32 1)) in
  versioned_try_from_stored demo_hash (versioned_into_stored demo_hash r) = Ok r.
Proof.
  intros r.
  destruct (stored_rng_roundtrip demo_hash r (versioned_into_stored demo_hash r)
    demo_hash_length) as [H _].
  apply H, from_secret_wf; reflexivity.
Defined.
