(* ===== verification/UserRngSet.v ===== *)
(** * The user's rng set (src/fog/view/protocol/src/user_rng_set.rs, user_private.rs)

    The rngs a user shares with ingest enclaves, and matching search results
    against them.  Decryption and protobuf decoding are parameters. *)

From S2P Require Import Prelude FogTypes KexRng.

Local Open Scope Z_scope.
Local Open Scope fog_scope.

Record UserRngSet := mkUserRngSet {
  urs_rngs : gmap (list Z) VersionedKexRng;
  urs_highest_processed_block_count : Z;
  urs_next_start_from_user_event_id : Z;
}.

Definition UserRngSet_new : UserRngSet := mkUserRngSet ∅ 0 0.

Definition get_rngs (self : UserRngSet) : gmap (list Z) VersionedKexRng := urs_rngs self.

Definition get_highest_processed_block_count (self : UserRngSet) : Z :=
  urs_highest_processed_block_count self.

Definition set_highest_processed_block_count (self : UserRngSet) (val : Z) : UserRngSet :=
  mkUserRngSet (urs_rngs self) val (urs_next_start_from_user_event_id self).

Definition get_next_start_from_user_event_id (self : UserRngSet) : Z :=
  urs_next_start_from_user_event_id self.

Definition set_next_start_from_user_event_id (self : UserRngSet) (val : Z) : UserRngSet :=
  mkUserRngSet (urs_rngs self) (urs_highest_processed_block_count self) val.

Inductive TxOutRecoveryError (CryptoBoxError : Type) :=
| ProstDeserializationFailed
| TxOutRecordDeserializationFailed
| DecryptionFailed (e : CryptoBoxError)
| MacCheckFailed
| InvalidNonce
| InvalidKey (e : KeyError)
| TxOutSearchFailure (code : TxOutSearchResultCode) (search_key : bytes)
| UnexpectedTxOutSearchResultCode (code : Z) (search_key : bytes)
| SearchKeyNotFound (search_key : bytes)
| RecoveryKexRng (e : KexRngError).
Global Arguments ProstDeserializationFailed {CryptoBoxError}.
Global Arguments TxOutRecordDeserializationFailed {CryptoBoxError}.
Global Arguments DecryptionFailed {CryptoBoxError} e.
Global Arguments MacCheckFailed {CryptoBoxError}.
Global Arguments InvalidNonce {CryptoBoxError}.
Global Arguments InvalidKey {CryptoBoxError} e.
Global Arguments TxOutSearchFailure {CryptoBoxError} code search_key.
Global Arguments UnexpectedTxOutSearchResultCode {CryptoBoxError} code search_key.
Global Arguments SearchKeyNotFound {CryptoBoxError} search_key.
Global Arguments RecoveryKexRng {CryptoBoxError} e.

(** What the user holds and the foreign code it calls. *)
Class UserCrypto `{K : Kex} := {
  CryptoBoxError : Type;
  blake2b : bytes -> bytes;
  decrypt_in_place : Private -> bytes -> result (bool * bytes) CryptoBoxError;
  decode_tx_out_record : bytes -> option TxOutRecord;
}.

Section user.
Context `{U : UserCrypto} `{I : HashIter}.

Record UserPrivate := mkUserPrivate { upriv_view_key : Private }.

Definition get_view_key (self : UserPrivate) : Private := upriv_view_key self.

Definition get_view_pubkey (self : UserPrivate) : Public := public_from (upriv_view_key self).

Definition decrypt_tx_out_result (self : UserPrivate) (payload : bytes)
  : result TxOutRecord (TxOutRecoveryError CryptoBoxError) :=
  let? (success, payload) :=
    map_err DecryptionFailed (decrypt_in_place (get_view_key self) payload) in
  if negb success then Err MacCheckFailed
  else
    match decode_tx_out_record payload with
    | Some txo => Ok txo
    | None => Err TxOutRecordDeserializationFailed
    end.

(** Keep an rng that is already there. *)
Definition ingest_rng_record (self : UserRngSet) (upriv : UserPrivate) (rec : RngRecord)
  : UserRngSet * result unit (TxOutRecoveryError CryptoBoxError) :=
  match versioned_try_from_kex_pubkey blake2b (rr_pubkey rec) (get_view_key upriv) with
  | Err e => (self, Err (RecoveryKexRng e))
  | Ok rng =>
      let nonce := krp_public_key (rr_pubkey rec) in
      let rngs :=
        match urs_rngs self !! nonce with
        | Some _ => urs_rngs self
        | None => <[nonce := rng]> (urs_rngs self)
        end in
      (mkUserRngSet rngs (urs_highest_processed_block_count self)
         (urs_next_start_from_user_event_id self), Ok tt)
  end.

(** The first loop: found ciphertexts by search key, and the failures. *)
Definition collect_result
  (acc : gmap (list Z) bytes * list (TxOutRecoveryError CryptoBoxError))
  (res : TxOutSearchResult) : gmap (list Z) bytes * list (TxOutRecoveryError CryptoBoxError) :=
  let '(tx_result_map, failures) := acc in
  match TxOutSearchResultCode_try_from (tsr_result_code res) with
  | Ok code =>
      if bool_decide (code = Found)
      then (<[tsr_search_key res := tsr_ciphertext res]> tx_result_map, failures)
      else if negb (bool_decide (code = NotFound))
      then (tx_result_map, failures ++ [TxOutSearchFailure code (tsr_search_key res)])
      else (tx_result_map, failures)
  | Err _ =>
      (tx_result_map,
       failures ++ [UnexpectedTxOutSearchResultCode (tsr_result_code res) (tsr_search_key res)])
  end.

(** The state of the second loop. *)
Record matching := mkMatching {
  mt_map : gmap (list Z) bytes;
  mt_successes : list TxOutRecord;
  mt_failures : list (TxOutRecoveryError CryptoBoxError);
}.

Definition match_one (upriv : UserPrivate) (ciphertext : bytes) (st : matching)
  (tx_result_map : gmap (list Z) bytes) : matching :=
  match decrypt_tx_out_result upriv ciphertext with
  | Ok txo => mkMatching tx_result_map (mt_successes st ++ [txo]) (mt_failures st)
  | Err err => mkMatching tx_result_map (mt_successes st) (mt_failures st ++ [err])
  end.

(** The [while let] loop of one rng.  Each pass removes an entry of the map, so
    as many passes as the map has entries are enough. *)
Fixpoint drain_rng (fuel : nat) (upriv : UserPrivate) (rng : VersionedKexRng) (st : matching)
  : VersionedKexRng * matching :=
  match fuel with
  | O => (rng, st)
  | S fuel =>
      match mt_map st !! peek rng with
      | None => (rng, st)
      | Some ciphertext =>
          drain_rng fuel upriv (advance blake2b rng)
            (match_one upriv ciphertext st (delete (peek rng) (mt_map st)))
      end
  end.

Fixpoint match_rngs (upriv : UserPrivate) (entries : list (bytes * VersionedKexRng))
  (rngs : gmap (list Z) VersionedKexRng) (st : matching)
  : gmap (list Z) VersionedKexRng * matching :=
  match entries with
  | [] => (rngs, st)
  | (nonce, rng) :: entries =>
      let '(rng', st') := drain_rng (size (mt_map st)) upriv rng st in
      match_rngs upriv entries (<[nonce := rng']> rngs) st'
  end.

Definition ingest_tx_out_search_results (self : UserRngSet) (upriv : UserPrivate)
  (results : list TxOutSearchResult)
  : UserRngSet * (list TxOutRecord * list (TxOutRecoveryError CryptoBoxError)) :=
  let '(tx_result_map, failures) := foldl collect_result (∅, []) results in
  let '(rngs, st) :=
    match_rngs upriv (hash_iter (urs_rngs self)) (urs_rngs self)
      (mkMatching tx_result_map [] failures) in
  (mkUserRngSet rngs (urs_highest_processed_block_count self)
     (urs_next_start_from_user_event_id self),
   (mt_successes st,
    mt_failures st ++ ((fun e => SearchKeyNotFound e.1) <$> hash_iter (mt_map st)))).

(** The found map of a list of results: for each key the last found entry. *)
Definition found_map (results : list TxOutSearchResult) : gmap (list Z) bytes :=
  (foldl collect_result (∅, []) results).1.

(** [r] is followed in [m] by exactly [k] consecutive outputs. *)
Definition consecutive (m : gmap (list Z) bytes) (r : VersionedKexRng) (k : nat) : Prop :=
  (forall i, (i < k)%nat -> is_Some (m !! peek (advance_n blake2b i r)))
  /\ m !! peek (advance_n blake2b k r) = None.

(** The ciphertexts at the first [k] outputs of [r]. *)
Fixpoint ciphertexts (m : gmap (list Z) bytes) (r : VersionedKexRng) (k : nat) : list bytes :=
  match k with
  | O => []
  | S k => option_list (m !! peek r) ++ ciphertexts m (advance blake2b r) k
  end.

(** What decrypting a list of ciphertexts contributes. *)
Definition decrypted (upriv : UserPrivate) (cs : list bytes) : list TxOutRecord :=
  omap (fun c => ok (decrypt_tx_out_result upriv c)) cs.
End user.
Global Arguments UserPrivate {K}.

Section user_lemmas.
Context `{U : UserCrypto} `{I : HashIter}.
Implicit Types (m : gmap (list Z) bytes) (r : VersionedKexRng) (st : matching).

(** ** The found map *)

Lemma collect_result_map acc res k c :
  (collect_result acc res).1 !! k = Some c <->
  (tsr_result_code res = 1 /\ tsr_search_key res = k /\ tsr_ciphertext res = c)
  \/ (~ (tsr_result_code res = 1 /\ tsr_search_key res = k) /\ acc.1 !! k = Some c).
Proof.
  destruct acc as [m fs]; unfold collect_result.
  destruct (TxOutSearchResultCode_try_from (tsr_result_code res)) as [code|e] eqn:Hc.
  - apply TxOutSearchResultCode_try_from_spec in Hc.
    destruct (decide (code = Found)) as [->|Hne].
    + rewrite bool_decide_eq_true_2 by done; simpl in *; rewrite lookup_insert_Some; naive_solver.
    + rewrite bool_decide_eq_false_2 by done.
      assert (tsr_result_code res <> 1) by (destruct code; simpl in *; [done|lia..]).
      case_match; simpl; naive_solver.
  - assert (tsr_result_code res <> 1) by (intros H1; by rewrite H1 in Hc).
    simpl; naive_solver.
Qed.

Lemma found_map_some (results : list TxOutSearchResult) k c :
  found_map results !! k = Some c ->
  exists res, res ∈ results /\ tsr_result_code res = 1 /\ tsr_search_key res = k
    /\ tsr_ciphertext res = c.
Proof.
  unfold found_map; induction results as [|res results IH] using rev_ind; simpl;
    [by rewrite lookup_empty|].
  rewrite foldl_snoc, collect_result_map; intros [(? & ? & ?)|[_ Hk]].
  - exists res; split_and!; [apply elem_of_app; right; by left|done..].
  - destruct (IH Hk) as (res' & ? & ?); exists res'; split; [apply elem_of_app; by left|done].
Qed.

Lemma found_map_is_some (results : list TxOutSearchResult) res :
  res ∈ results -> tsr_result_code res = 1 -> is_Some (found_map results !! tsr_search_key res).
Proof.
  unfold found_map; induction results as [|res' results IH] using rev_ind; intros Hin Hc;
    [by apply not_elem_of_nil in Hin|].
  rewrite foldl_snoc.
  destruct (decide (tsr_result_code res' = 1 /\ tsr_search_key res' = tsr_search_key res))
    as [[? ?]|Hne].
  - exists (tsr_ciphertext res'); apply collect_result_map; by left.
  - apply elem_of_app in Hin as [Hin|Hin%list_elem_of_singleton]; [|subst; naive_solver].
    destruct (IH Hin Hc) as [c Hk]; exists c; apply collect_result_map; by right.
Qed.

(** ** One rng *)

(** The first [n] outputs of [r] (and the next one) are pairwise different. *)
Definition own_distinct (n : nat) r : Prop := forall i j, (i <= n)%nat -> (j <= n)%nat ->
  peek (advance_n blake2b i r) = peek (advance_n blake2b j r) -> i = j.

Lemma own_distinct_advance n r : own_distinct (S n) r -> own_distinct n (advance blake2b r).
Proof.
  intros H i j Hi Hj; rewrite !advance_n_S; intros Heq.
  apply (H (S i) (S j)) in Heq; lia.
Qed.

(** The map without the first [k] outputs of [r]. *)
Definition consumed m r (k : nat) (m' : gmap (list Z) bytes) : Prop :=
  forall key, (exists i, (i < k)%nat /\ key = peek (advance_n blake2b i r)) /\ m' !! key = None
    \/ (forall i, (i < k)%nat -> key <> peek (advance_n blake2b i r)) /\ m' !! key = m !! key.

Lemma consumed_zero m r : consumed m r 0 m.
Proof. intros key; right; split; [lia|done]. Qed.

Lemma consumed_other m r k m' key :
  consumed m r k m' -> (forall i, (i < k)%nat -> key <> peek (advance_n blake2b i r)) ->
  m' !! key = m !! key.
Proof. intros H Hk; destruct (H key) as [[(i & Hi & ->) _]|[_ ?]]; [by destruct (Hk i)|done]. Qed.

Lemma consumed_subseteq m r k m' : consumed m r k m' -> m' ⊆ m.
Proof.
  intros H; apply map_subseteq_spec; intros key c Hc.
  destruct (H key) as [[_ ?]|[_ <-]]; congruence.
Qed.

Lemma consumed_step m r k m' :
  consumed (delete (peek r) m) (advance blake2b r) k m' -> consumed m r (S k) m'.
Proof.
  intros H key; destruct (decide (key = peek r)) as [->|Hne].
  - left; split; [exists 0%nat; split; [lia|done]|].
    destruct (H (peek r)) as [[_ ?]|[_ ->]]; [done|apply lookup_delete_eq].
  - destruct (H key) as [[(i & Hi & ->) Hn]|[Hi Hn]].
    + left; split; [|done]; exists (S i); split; [lia|by rewrite advance_n_S].
    + right; split; [|by rewrite Hn, lookup_delete_ne by done].
      intros [|i] HSi; [done|]; rewrite <- advance_n_S; apply Hi; lia.
Qed.

Lemma ciphertexts_S m r k c :
  m !! peek r = Some c -> ciphertexts m r (S k) = c :: ciphertexts m (advance blake2b r) k.
Proof. simpl; by intros ->. Qed.

Lemma ciphertexts_ext m m' r k :
  (forall i, (i < k)%nat ->
     m !! peek (advance_n blake2b i r) = m' !! peek (advance_n blake2b i r)) ->
  ciphertexts m r k = ciphertexts m' r k.
Proof.
  revert r; induction k as [|k IH]; intros r H; simpl; [done|].
  rewrite (H 0%nat ltac:(lia) : m !! peek r = _); simpl; f_equal.
  apply IH; intros i Hi; rewrite advance_n_S; apply H; lia.
Qed.

Lemma decrypted_cons upriv c cs :
  decrypted upriv (c :: cs) = decrypted upriv [c] ++ decrypted upriv cs.
Proof. unfold decrypted; simpl; by destruct (decrypt_tx_out_result upriv c). Qed.

Lemma match_one_successes upriv c st m' :
  mt_successes (match_one upriv c st m') = mt_successes st ++ decrypted upriv [c].
Proof.
  unfold match_one, decrypted; destruct (decrypt_tx_out_result upriv c) as [t|e] eqn:Hd;
    simpl; rewrite Hd; simpl; [done|by rewrite app_nil_r].
Qed.

Lemma match_one_map upriv c st m' : mt_map (match_one upriv c st m') = m'.
Proof. unfold match_one; by case_match. Qed.

(** The loop of one rng ends at its first output that is not in the map,
    removes exactly the outputs before it and decrypts their ciphertexts. *)
Lemma drain_rng_spec fuel upriv r st :
  (size (mt_map st) <= fuel)%nat -> own_distinct fuel r ->
  exists k st', drain_rng fuel upriv r st = (advance_n blake2b k r, st')
    /\ consecutive (mt_map st) r k /\ (k <= size (mt_map st))%nat
    /\ consumed (mt_map st) r k (mt_map st')
    /\ mt_successes st' = mt_successes st ++ decrypted upriv (ciphertexts (mt_map st) r k).
Proof.
  revert r st; induction fuel as [|fuel IH]; intros r st Hsize Hdist; simpl.
  - assert (mt_map st = ∅) as Hm by (apply map_size_empty_inv; lia).
    exists 0%nat, st; split_and!; [done|split; [lia|by rewrite Hm]|lia|apply consumed_zero|].
    simpl; by rewrite app_nil_r.
  - destruct (mt_map st !! peek r) as [c|] eqn:Hc.
    + assert (Hsz : size (mt_map st) = S (size (delete (peek r) (mt_map st)))).
      { rewrite <- (insert_delete_id _ _ _ Hc) at 1.
        by rewrite map_size_insert_None by apply lookup_delete_eq. }
      set (st1 := match_one upriv c st (delete (peek r) (mt_map st))).
      destruct (IH (advance blake2b r) st1) as (k & st' & Hd & [Hcon Hend] & Hk & Hcons & Hsucc);
        unfold st1 in *; rewrite ?match_one_map in *; [lia|by apply own_distinct_advance|].
      exists (S k), st'; rewrite Hd, advance_n_S; split_and!; [done|split|lia|by apply consumed_step|].
      * intros [|i] Hi; [by exists c|].
        rewrite <- advance_n_S; destruct (Hcon i) as [c' Hc']; [lia|].
        apply lookup_delete_Some in Hc' as [_ ?]; eauto.
      * rewrite <- advance_n_S; rewrite advance_n_S in Hend |- *.
        rewrite lookup_delete_ne in Hend; [done|].
        intros Heq; specialize (Hdist 0%nat (S k)); simpl in Hdist.
        specialize (Hdist ltac:(lia) ltac:(lia) Heq); lia.
      * rewrite Hsucc, match_one_successes, (ciphertexts_S _ _ _ c Hc), <- app_assoc.
        rewrite (decrypted_cons _ c (ciphertexts (mt_map st) _ _)).
        do 3 f_equal.
        apply ciphertexts_ext; intros i Hi; rewrite lookup_delete_ne; [done|].
        rewrite advance_n_S; intros Heq; specialize (Hdist 0%nat (S i)); simpl in Hdist.
        specialize (Hdist ltac:(lia) ltac:(lia) Heq); lia.
    + exists 0%nat, st; split_and!; [done|split; [lia|done]|lia|apply consumed_zero|].
      simpl; by rewrite app_nil_r.
Qed.

(** ** All rngs *)

(** The next [n] outputs of all rngs are pairwise different. *)
Definition streams_distinct (n : nat) (entries : list (bytes * VersionedKexRng)) : Prop :=
  forall n1 r1 n2 r2 i j, (n1, r1) ∈ entries -> (n2, r2) ∈ entries -> (i <= n)%nat -> (j <= n)%nat ->
    peek (advance_n blake2b i r1) = peek (advance_n blake2b j r2) -> n1 = n2 /\ i = j.

Lemma streams_distinct_own n entries nonce r :
  streams_distinct n entries -> (nonce, r) ∈ entries -> own_distinct n r.
Proof. intros H Hin i j Hi Hj Heq; by eapply (H nonce r nonce r i j). Qed.

(** Outputs of one rng are not consumed by another. *)
Lemma consumed_stream n entries n1 r1 n2 r2 m k m' i :
  streams_distinct n entries -> (n1, r1) ∈ entries -> (n2, r2) ∈ entries -> n1 <> n2 ->
  consumed m r1 k m' -> (k <= n)%nat -> (i <= n)%nat ->
  m' !! peek (advance_n blake2b i r2) = m !! peek (advance_n blake2b i r2).
Proof.
  intros Hd H1 H2 Hne Hc Hk Hi; eapply consumed_other; [exact Hc|].
  intros j Hj Heq; destruct (Hd n2 r2 n1 r1 i j) as [? _]; auto; lia.
Qed.

(** What matching a list of rngs does, for the numbers of steps [steps]. *)
Record matched (upriv : UserPrivate) (entries : list (bytes * VersionedKexRng)) st
  (rngs' : gmap (list Z) VersionedKexRng) st' (steps : bytes -> nat) : Prop := {
  matched_steps : forall nonce r, (nonce, r) ∈ entries ->
    rngs' !! nonce = Some (advance_n blake2b (steps nonce) r)
    /\ consecutive (mt_map st) r (steps nonce) /\ (steps nonce <= size (mt_map st))%nat;
  matched_left : forall key c, mt_map st' !! key = Some c <->
    mt_map st !! key = Some c
    /\ forall nonce r i, (nonce, r) ∈ entries -> (i < steps nonce)%nat ->
         key <> peek (advance_n blake2b i r);
  matched_successes : mt_successes st' = mt_successes st ++
    mjoin ((fun e => decrypted upriv (ciphertexts (mt_map st) e.2 (steps e.1))) <$> entries);
}.

Lemma match_rngs_matched upriv entries rngs st :
  NoDup entries.*1 -> streams_distinct (size (mt_map st)) entries ->
  exists rngs' st' steps, match_rngs upriv entries rngs st = (rngs', st')
    /\ matched upriv entries st rngs' st' steps
    /\ (forall nonce, nonce ∉ entries.*1 -> rngs' !! nonce = rngs !! nonce).
Proof.
  revert rngs st; induction entries as [|[nonce r] entries IH]; intros rngs st Hnd Hdist.
  { exists rngs, st, (fun _ => 0%nat); split_and!; [done| |done].
    split; [by intros ? ? ?%not_elem_of_nil| |by rewrite app_nil_r].
    intros key c; split; [|by intros [? _]]; split; [done|by intros ? ? ? ?%not_elem_of_nil]. }
  apply NoDup_cons in Hnd as [Hnin Hnd]; simpl.
  assert (Hin : (nonce, r) ∈ (nonce, r) :: entries) by left.
  destruct (drain_rng_spec (size (mt_map st)) upriv r st) as
    (k & st1 & Hdr & Hcon & Hk & Hcons & Hsucc); [done|by eapply streams_distinct_own|].
  rewrite Hdr.
  assert (Hsz : (size (mt_map st1) <= size (mt_map st))%nat)
    by (apply map_subseteq_size; by eapply consumed_subseteq).
  assert (Hother : forall n2 r2 i, (n2, r2) ∈ entries -> (i <= size (mt_map st))%nat ->
    mt_map st1 !! peek (advance_n blake2b i r2) = mt_map st !! peek (advance_n blake2b i r2)).
  { intros n2 r2 i Hn2 Hi; eapply consumed_stream with (n1 := nonce); eauto; [by right|].
    intros Heq; apply Hnin; subst; by eapply elem_of_fst. }
  destruct (IH (<[nonce := advance_n blake2b k r]> rngs) st1) as
    (rngs' & st' & steps & Hm & [Hst Hle Hsu] & Hout).
  { done. }
  { intros n1 r1 n2 r2 i j H1 H2 Hi Hj; apply Hdist; [by right|by right|lia|lia]. }
  assert (Hne : forall n2 r2, (n2, r2) ∈ entries -> n2 <> nonce).
  { intros n2 r2 Hn2 ->; apply Hnin; by eapply elem_of_fst. }
  exists rngs', st', (fun n => if decide (n = nonce) then k else steps n).
  split_and!; [done|split|].
  - intros n2 r2 [[= -> ->]|Hn2]%elem_of_cons.
    + rewrite decide_True by done; rewrite Hout by done; by rewrite lookup_insert_eq.
    + rewrite decide_False by eauto; destruct (Hst _ _ Hn2) as (? & [Hc1 Hc2] & Hb).
      split_and!; [done|split|lia].
      * intros i Hi; rewrite <- (Hother n2) by (done || lia); by apply Hc1.
      * by rewrite <- (Hother n2) by (done || lia).
  - intros key c; rewrite Hle; split.
    + intros [Hc Hall]; split; [eapply lookup_weaken; [done|by eapply consumed_subseteq]|].
      intros n2 r2 i [[= -> ->]|Hn2]%elem_of_cons.
      * rewrite decide_True by done; intros Hi ->.
        destruct (Hcons (peek (advance_n blake2b i r))) as [[_ ?]|[Hno _]]; [congruence|].
        by apply (Hno i).
      * rewrite decide_False by eauto; by apply Hall.
    + intros [Hc Hall]; split.
      * rewrite (consumed_other _ _ _ _ _ Hcons); [done|]; intros i Hi.
        apply (Hall nonce r); [done|]; by rewrite decide_True.
      * intros n2 r2 i Hn2 Hi; apply (Hall n2 r2); [by right|]; by rewrite decide_False by eauto.
  - rewrite Hsu, Hsucc, <- app_assoc; simpl; rewrite decide_True by done; f_equal; f_equal.
    f_equal; apply list_fmap_ext; intros j [n2 r2] Hj%list_elem_of_lookup_2; simpl.
    rewrite decide_False by eauto; f_equal; apply ciphertexts_ext.
    destruct (Hst _ _ Hj) as (_ & _ & Hb); intros i Hi; apply (Hother n2); [done|lia].
  - intros n2 Hn2; apply not_elem_of_cons in Hn2; destruct Hn2 as [Hn2 Hn2'].
    rewrite Hout by done; by rewrite lookup_insert_ne.
Qed.

(** The rngs of [self] after ingesting [results]. *)
Definition streams_distinct_set (n : nat) (rngs : gmap (list Z) VersionedKexRng) : Prop :=
  streams_distinct n (map_to_list rngs).

Lemma streams_distinct_perm n l1 l2 : l1 ≡ₚ l2 -> streams_distinct n l1 -> streams_distinct n l2.
Proof. intros Hp H n1 r1 n2 r2 i j; rewrite <- !Hp; apply H. Qed.

Lemma ingest_results_matched self upriv results :
  streams_distinct_set (size (found_map results)) (urs_rngs self) ->
  exists self' succ fails steps,
    ingest_tx_out_search_results self upriv results = (self', (succ, fails))
    /\ urs_highest_processed_block_count self' = urs_highest_processed_block_count self
    /\ urs_next_start_from_user_event_id self' = urs_next_start_from_user_event_id self
    /\ (forall nonce, urs_rngs self' !! nonce
         = (fun r => advance_n blake2b (steps nonce) r) <$> urs_rngs self !! nonce)
    /\ (forall nonce r, urs_rngs self !! nonce = Some r ->
         consecutive (found_map results) r (steps nonce)
         /\ (steps nonce <= size (found_map results))%nat)
    /\ succ ≡ₚ mjoin ((fun e => decrypted upriv (ciphertexts (found_map results) e.2 (steps e.1)))
                      <$> map_to_list (urs_rngs self))
    /\ exists others left, fails = others ++ (SearchKeyNotFound <$> left) /\ NoDup left
       /\ forall key, key ∈ left <->
            is_Some (found_map results !! key)
            /\ forall nonce r i, urs_rngs self !! nonce = Some r -> (i < steps nonce)%nat ->
                 key <> peek (advance_n blake2b i r).
Proof.
  intros Hd; unfold ingest_tx_out_search_results.
  destruct (foldl collect_result (∅, []) results) as [m fs] eqn:Hf.
  assert (Hm : found_map results = m) by (unfold found_map; by rewrite Hf).
  rewrite Hm in *.
  destruct (match_rngs_matched upriv (hash_iter (urs_rngs self)) (urs_rngs self)
    (mkMatching m [] fs)) as (rngs' & st' & steps & -> & [Hst Hle Hsu] & Hout).
  { apply NoDup_fst_hash_iter. }
  { eapply streams_distinct_perm; [symmetry; apply hash_iter_perm|done]. }
  simpl in *.
  exists (mkUserRngSet rngs' (urs_highest_processed_block_count self)
    (urs_next_start_from_user_event_id self)), (mt_successes st'), (mt_failures st' ++
    (SearchKeyNotFound <$> (hash_iter (mt_map st')).*1)), steps.
  split_and!; [by rewrite <- list_fmap_compose|done|done| | | |]; simpl.
  - intros nonce; destruct (urs_rngs self !! nonce) as [r|] eqn:Hr; simpl.
    + by apply Hst, elem_of_hash_iter.
    + rewrite Hout; [done|]; intros ([n r] & -> & Hin)%list_elem_of_fmap.
      apply elem_of_hash_iter in Hin; naive_solver.
  - intros nonce r Hr; apply elem_of_hash_iter in Hr; by destruct (Hst _ _ Hr) as (_ & ? & ?).
  - by rewrite Hsu, hash_iter_perm.
  - eexists _, _; split_and!; [done|apply NoDup_fst_hash_iter|].
    intros key; rewrite list_elem_of_fmap; split.
    + intros ([k c] & -> & Hin); apply elem_of_hash_iter, Hle in Hin as [Hc Hno]; simpl.
      split; [eauto|]; intros nonce r i Hr; apply Hno; by apply elem_of_hash_iter.
    + intros [[c Hc] Hno]; exists (key, c); split; [done|].
      apply elem_of_hash_iter, Hle; split; [done|].
      intros nonce r i Hr; apply elem_of_hash_iter in Hr; eauto.
Qed.
End user_lemmas.

(** ** Correctness *)

Section user_rng_set_correct.
Context `{U : UserCrypto} `{I : HashIter}.

(** Ingesting search results, in whatever order the hash map visits the
    rngs.  Provided no two search keys of the set collide, every rng advances
    past exactly the consecutive run of found results that starts at its
    current output, the decrypted records of those runs (and nothing else) are
    returned, the found results that belong to no run are reported as keys not
    found, and the counters of the set do not change. *)
Theorem ingest_results_correct self upriv (results : list TxOutSearchResult) :
  streams_distinct_set (size (found_map results)) (urs_rngs self) ->
  exists self' succ fails steps,
    ingest_tx_out_search_results self upriv results = (self', (succ, fails))
    /\ urs_highest_processed_block_count self' = urs_highest_processed_block_count self
    /\ urs_next_start_from_user_event_id self' = urs_next_start_from_user_event_id self
    /\ (forall nonce, urs_rngs self' !! nonce
         = (fun r => advance_n blake2b (steps nonce) r) <$> urs_rngs self !! nonce)
    /\ (forall nonce r, urs_rngs self !! nonce = Some r ->
         consecutive (found_map results) r (steps nonce)
         /\ (steps nonce <= size (found_map results))%nat)
    /\ succ ≡ₚ mjoin ((fun e => decrypted upriv (ciphertexts (found_map results) e.2 (steps e.1)))
                      <$> map_to_list (urs_rngs self))
    /\ exists others left, fails = others ++ (SearchKeyNotFound <$> left) /\ NoDup left
       /\ forall key, key ∈ left <->
            is_Some (found_map results !! key)
            /\ forall nonce r i, urs_rngs self !! nonce = Some r -> (i < steps nonce)%nat ->
                 key <> peek (advance_n blake2b i r).
Proof. apply ingest_results_matched. Qed.
End user_rng_set_correct.

(** *** Concrete instances *)

#[export] Instance demo_user : UserCrypto := {|
  CryptoBoxError := unit;
  blake2b := demo_hash;
  decrypt_in_place := fun _ payload => Ok (true, payload);
  decode_tx_out_record := fun payload =>
    Some (mkTxOutRecord [] 0 [] [] (le_combine payload) 0 0 0);
|}.

Definition demo_rng (secret : Z) : VersionedKexRng :=
  V0 (buffered_from_secret (KexRng20201124 demo_hash) (replicate 31 0 ++ [secret])).

Definition demo_set : UserRngSet :=
  mkUserRngSet (<[[1] := demo_rng 1]> (<[[2] := demo_rng 2]> ∅)) 0 0.

Definition demo_result (secret i : Z) : TxOutSearchResult :=
  mkTxOutSearchResult (output demo_hash (replicate 31 0 ++ [secret]) i) 1 [i].

Definition demo_results : list TxOutSearchResult :=
  [demo_result 1 0; demo_result 1 1; demo_result 2 0; demo_result 2 2].

(** The outputs of finitely many rngs can be compared by evaluation. *)
Definition streams_distinctb `{UserCrypto} (n : nat) (entries : list (bytes * VersionedKexRng))
  : bool :=
  forallb (fun e1 => forallb (fun e2 => forallb (fun i => forallb (fun j =>
    implb (bool_decide (peek (advance_n blake2b i e1.2) = peek (advance_n blake2b j e2.2)))
      (bool_decide (e1.1 = e2.1) && bool_decide (i = j)))
    (seq 0 (S n))) (seq 0 (S n))) entries) entries.

Lemma streams_distinctb_sound `{UserCrypto} n entries :
  streams_distinctb n entries = true -> streams_distinct n entries.
Proof.
  unfold streams_distinctb; intros Hb n1 r1 n2 r2 i j H1 H2 Hi Hj Heq.
  rewrite forallb_forall in Hb; specialize (Hb _ (proj1 (list_elem_of_In _ _) H1)).
  rewrite forallb_forall in Hb; specialize (Hb _ (proj1 (list_elem_of_In _ _) H2)).
  rewrite forallb_forall in Hb; specialize (Hb i ltac:(apply in_seq; lia)).
  rewrite forallb_forall in Hb; specialize (Hb j ltac:(apply in_seq; lia)).
  simpl in Hb; rewrite bool_decide_eq_true_2 in Hb by done; simpl in Hb.
  by bool_to_prop.
Qed.

Lemma demo_streams_distinct :
  streams_distinct_set (size (found_map demo_results)) (urs_rngs demo_set).
Proof. apply streams_distinctb_sound; vm_compute; reflexivity. Qed.

Lemma ingest_results_correct_witness :
  let '(self', (succ, fails)) :=
    @ingest_tx_out_search_results _ demo_user canonical_iter demo_set
      (@mkUserPrivate demo_kex [3]) demo_results in
  (tor_tx_out_global_index <$> succ) ≡ₚ [0; 1; 0] /\ length fails = 1%nat.
Proof.
  destruct (@ingest_results_correct _ demo_user canonical_iter demo_set
    (@mkUserPrivate demo_kex [3]) demo_results demo_streams_distinct)
    as (self' & succ & fails & steps & Heq & _).
  rewrite Heq.
  assert (Hc : (tor_tx_out_global_index <$> (@ingest_tx_out_search_results _ demo_user
    canonical_iter demo_set (@mkUserPrivate demo_kex [3]) demo_results).2.1) ≡ₚ [0; 1; 0]
    /\ length (@ingest_tx_out_search_results _ demo_user
    canonical_iter demo_set (@mkUserPrivate demo_kex [3]) demo_results).2.2 = 1%nat).
  { split; [|vm_compute; reflexivity]. vm_compute. solve_Permutation. }
  rewrite Heq in Hc; exact Hc.
Defined.
