(* ===== verification/Polling.v ===== *)
(** * Polling the view server (src/fog/view/protocol/src/polling.rs)

    [poll] against an arbitrary server, given as a state-passing [request]
    function.  The request loop runs as long as the server keeps returning
    results, so it runs on fuel ([None] when it is exhausted);
    [poll_terminates] gives the fuel that is enough against a server that
    holds finitely many records. *)

From S2P Require Import Prelude FogTypes KexRng UserRngSet.

Local Open Scope Z_scope.
Local Open Scope fog_scope.

Inductive TxOutPollingError (ConnError CryptoBoxError : Type) :=
| Conn (e : ConnError)
| TxOutRecovery (e : TxOutRecoveryError CryptoBoxError)
| ProstDecode
| PollingKeyError (e : KeyError).
Global Arguments Conn {ConnError CryptoBoxError} e.
Global Arguments TxOutRecovery {ConnError CryptoBoxError} e.
Global Arguments ProstDecode {ConnError CryptoBoxError}.
Global Arguments PollingKeyError {ConnError CryptoBoxError} e.

Definition i64_max : Z := 9223372036854775807.

Section polling.
Context `{U : UserCrypto} `{I : HashIter}.
Context {S ConnError : Type}.
(** [FogViewConnection::request]: event id, block index and search keys. *)
Context (request : S -> Z -> Z -> list bytes -> result QueryResponse ConnError * S).

(** The mutable variables of the loop. *)
Record PollState := mkPollState {
  ps_server : S;
  ps_set : UserRngSet;
  ps_new_highest_processed_block_count : Z;
  ps_results : list TxOutRecord;
  ps_errs : list (TxOutPollingError ConnError CryptoBoxError);
  ps_request_multiplier : Z;
  ps_dead_rng_set : gset (list Z);
}.

(** The search keys of one round: as many outputs as the multiplier says, from
    every rng that is not dead. *)
Definition round_search_keys (rngs : gmap (list Z) VersionedKexRng) (dead : gset (list Z))
  (request_multiplier : Z) : list bytes :=
  e ← filter (fun e => e.1 ∉ dead) (hash_iter rngs);
  rng_take blake2b (Z.to_nat request_multiplier) e.2.

(** An rng is dead when it did not advance by the multiplier. *)
Definition is_dead (old_rngs : gmap (list Z) VersionedKexRng) (request_multiplier : Z)
  (e : bytes * VersionedKexRng) : bool :=
  default true
    ((fun old_rng => rng_index e.2 <? rng_index old_rng +w request_multiplier)
       <$> old_rngs !! e.1).

Definition compute_dead (old_rngs rngs : gmap (list Z) VersionedKexRng)
  (request_multiplier : Z) : gset (list Z) :=
  list_to_set (filter (fun e => is_dead old_rngs request_multiplier e = true) (hash_iter rngs)).*1.

Definition next_multiplier (request_multiplier : Z) : Z :=
  let doubled := request_multiplier *w 2 in
  if 1000 <=? doubled then 1000 else doubled.

(** One pass of the loop after the exit test: [Err] when the connection fails
    and [poll] returns at once. *)
Definition poll_round (upriv : UserPrivate) (st : PollState) : result PollState PollState :=
  let old_rngs := get_rngs (ps_set st) in
  let search_keys :=
    round_search_keys (get_rngs (ps_set st)) (ps_dead_rng_set st) (ps_request_multiplier st) in
  let '(resp, server) :=
    request (ps_server st) i64_max (get_highest_processed_block_count (ps_set st)) search_keys in
  match resp with
  | Err err =>
      Err (mkPollState server (ps_set st) (ps_new_highest_processed_block_count st)
             (ps_results st) (ps_errs st ++ [Conn err]) (ps_request_multiplier st)
             (ps_dead_rng_set st))
  | Ok resp =>
      let '(set', (this_round_results, this_round_errs)) :=
        ingest_tx_out_search_results (ps_set st) upriv (qresp_tx_out_search_results resp) in
      Ok (mkPollState server set'
            (Z.min (ps_new_highest_processed_block_count st)
               (qresp_highest_processed_block_count resp))
            (ps_results st ++ this_round_results)
            (ps_errs st ++ (TxOutRecovery <$> this_round_errs))
            (next_multiplier (ps_request_multiplier st))
            (compute_dead old_rngs (get_rngs set') (ps_request_multiplier st)))
  end.

(** The loop: [Ok] when it breaks because no rng is live, [Err] on a failed
    connection. *)
Fixpoint poll_loop (fuel : nat) (upriv : UserPrivate) (st : PollState)
  : option (result PollState PollState) :=
  match fuel with
  | O => None
  | Datatypes.S fuel =>
      if bool_decide (size (get_rngs (ps_set st)) <= size (ps_dead_rng_set st))%nat
      then Some (Ok st)
      else
        match poll_round upriv st with
        | Err st' => Some (Err st')
        | Ok st' => poll_loop fuel upriv st'
        end
  end.

Definition ingest_record (upriv : UserPrivate)
  (acc : UserRngSet * list (TxOutPollingError ConnError CryptoBoxError)) (rng_record : RngRecord)
  : UserRngSet * list (TxOutPollingError ConnError CryptoBoxError) :=
  let '(set', r) := ingest_rng_record acc.1 upriv rng_record in
  match r with
  | Ok _ => (set', acc.2)
  | Err err => (set', acc.2 ++ [TxOutRecovery err])
  end.

(** The state in which the loop starts. *)
Definition poll_start (server : S) (set : UserRngSet) (count : Z)
  (errs : list (TxOutPollingError ConnError CryptoBoxError)) : PollState :=
  mkPollState server set count [] errs 2 ∅.

Definition poll (fuel : nat) (server : S) (user_rng_set : UserRngSet) (upriv : UserPrivate)
  : option (S * UserRngSet
            * (list TxOutRecord * list (TxOutPollingError ConnError CryptoBoxError))) :=
  let '(resp, server) :=
    request server (get_next_start_from_user_event_id user_rng_set)
      (get_highest_processed_block_count user_rng_set) [] in
  match resp with
  | Err err => Some (server, user_rng_set, ([], [Conn err]))
  | Ok resp =>
      let '(set1, errs) := foldl (ingest_record upriv) (user_rng_set, []) (qresp_rng_records resp) in
      let set2 := set_next_start_from_user_event_id set1
                    (qresp_next_start_from_user_event_id resp) in
      let count := qresp_highest_processed_block_count resp in
      if count <=? get_highest_processed_block_count set2
      then Some (server, set2, ([], []))
      else
        match poll_loop fuel upriv (poll_start server set2 count errs) with
        | None => None
        | Some (Err st) => Some (ps_server st, ps_set st, (ps_results st, ps_errs st))
        | Some (Ok st) =>
            let set3 :=
              if get_highest_processed_block_count (ps_set st)
                   <? ps_new_highest_processed_block_count st
              then set_highest_processed_block_count (ps_set st)
                     (ps_new_highest_processed_block_count st)
              else ps_set st in
            Some (ps_server st, set3, (ps_results st, ps_errs st))
        end
  end.
End polling.

(** ** An honest server

    [landed] maps every search key that is ever recorded to the block it was
    recorded in.  An honest server that reports a block count has an entry for
    every requested key that landed below it, and returns found entries only
    for requested keys that landed.  An ingest enclave uses the outputs of an
    rng in order, so a later output never lands before an earlier one. *)
Section honest.
Context `{U : UserCrypto} `{I : HashIter}.
Context {S ConnError : Type}.
Context (request : S -> Z -> Z -> list bytes -> result QueryResponse ConnError * S).
Context (landed : gmap (list Z) Z).

Definition index_bound : Z := 4611686018427387904.

Record server_honest : Prop := {
  honest_complete : forall s e b keys resp s', request s e b keys = (Ok resp, s') ->
    forall k blk, k ∈ keys -> landed !! k = Some blk ->
      blk < qresp_highest_processed_block_count resp ->
      exists res, res ∈ qresp_tx_out_search_results resp
        /\ tsr_result_code res = 1 /\ tsr_search_key res = k;
  honest_only : forall s e b keys resp s', request s e b keys = (Ok resp, s') ->
    forall res, res ∈ qresp_tx_out_search_results resp -> tsr_result_code res = 1 ->
      tsr_search_key res ∈ keys /\ is_Some (landed !! tsr_search_key res);
}.

Definition used_in_order (secret : bytes) : Prop :=
  forall i j blk, 0 <= i <= j -> j < u64_modulus -> landed !! output blake2b secret j = Some blk ->
    exists blk', landed !! output blake2b secret i = Some blk' /\ blk' <= blk.

(** The rngs of a user: at their place in their sequences, sequences that do
    not collide, and used in order. *)
Record rngs_ok (rngs : gmap (list Z) VersionedKexRng) : Prop := {
  ok_wf : forall n r, rngs !! n = Some r -> rng_wf blake2b r;
  ok_index : forall n r, rngs !! n = Some r -> rng_index r < index_bound;
  ok_distinct : forall n1 r1 n2 r2 i j, rngs !! n1 = Some r1 -> rngs !! n2 = Some r2 ->
    is_u64 i -> is_u64 j ->
    output blake2b (rng_secret r1) i = output blake2b (rng_secret r2) j -> n1 = n2 /\ i = j;
  ok_order : forall n r, rngs !! n = Some r -> used_in_order (rng_secret r);
}.

(** Nothing below block count [n] is still to come on rng [r]. *)
Definition complete_below (n : Z) (r : VersionedKexRng) : Prop :=
  forall i blk, rng_index r <= i < u64_modulus ->
    landed !! output blake2b (rng_secret r) i = Some blk -> n <= blk.

(** The invariant of the request loop. *)
Record poll_inv (st : PollState (S := S) (ConnError := ConnError)) : Prop := {
  pi_ok : rngs_ok (urs_rngs (ps_set st));
  pi_dead_dom : ps_dead_rng_set st ⊆ dom (urs_rngs (ps_set st));
  pi_dead : forall n r, n ∈ ps_dead_rng_set st -> urs_rngs (ps_set st) !! n = Some r ->
    complete_below (ps_new_highest_processed_block_count st) r;
  pi_mult : 2 <= ps_request_multiplier st <= 1000;
}.

(** What is left to find, per rng and in total: the measure of the loop. *)
Definition remaining_of (rngs : gmap (list Z) VersionedKexRng) (n : bytes) : nat :=
  match rngs !! n with
  | Some r => Z.to_nat (Z.of_nat (size landed) - rng_index r)
  | None => 0
  end.

Definition remaining (rngs : gmap (list Z) VersionedKexRng) : nat :=
  sum_list_with (remaining_of rngs) (elements (dom rngs)).

Lemma poll_inv_start server set count errs :
  rngs_ok (urs_rngs set) ->
  poll_inv (poll_start (S := S) (ConnError := ConnError) server set count errs).
Proof.
  intros Hok; split; simpl; [done|set_solver|set_solver|lia].
Qed.
End honest.

Section poll_lemmas.
Context `{U : UserCrypto} `{I : HashIter}.
Context {S ConnError : Type}.
Context (request : S -> Z -> Z -> list bytes -> result QueryResponse ConnError * S).
Context (landed : gmap (list Z) Z).
Hypothesis Hlanded : Z.of_nat (size landed) < index_bound.
Hypothesis Hhonest : server_honest request landed.

Lemma advance_peek_ok rngs n r i :
  rngs_ok landed rngs -> rngs !! n = Some r -> Z.of_nat i <= index_bound ->
  peek (advance_n blake2b i r) = output blake2b (rng_secret r) (rng_index r + Z.of_nat i)
  /\ is_u64 (rng_index r + Z.of_nat i).
Proof.
  intros Hok Hr Hi; pose proof (ok_wf _ _ Hok _ _ Hr) as Hwf.
  pose proof (ok_index _ _ Hok _ _ Hr) as Hx; pose proof (rng_wf_counter _ _ Hwf) as Hc.
  unfold index_bound, is_u64, u64_modulus in *.
  split; [apply advance_n_peek; [done|unfold u64_modulus; lia]|lia].
Qed.

Lemma rngs_ok_streams rngs n :
  rngs_ok landed rngs -> Z.of_nat n <= index_bound -> streams_distinct_set n rngs.
Proof.
  intros Hok Hn n1 r1 n2 r2 i j H1 H2 Hi Hj.
  apply elem_of_map_to_list in H1, H2.
  destruct (advance_peek_ok _ _ _ i Hok H1) as [-> Hui]; [lia|].
  destruct (advance_peek_ok _ _ _ j Hok H2) as [-> Huj]; [lia|].
  intros Heq; destruct (ok_distinct _ _ Hok _ _ _ _ _ _ H1 H2 Hui Huj Heq) as [-> Hij].
  rewrite H1 in H2; simplify_eq; split; [done|lia].
Qed.

(** Only as many outputs of an rng can have landed as there are records. *)
Lemma landed_index rngs n r i :
  rngs_ok landed rngs -> rngs !! n = Some r -> is_u64 i ->
  is_Some (landed !! output blake2b (rng_secret r) i) -> i < Z.of_nat (size landed).
Proof.
  intros Hok Hr Hi [blk Hl]; unfold is_u64 in Hi.
  set (keys := (fun j => output blake2b (rng_secret r) (Z.of_nat j)) <$> seq 0 (Z.to_nat i + 1)).
  assert (Hsub : keys ⊆+ elements (dom landed)).
  { apply NoDup_submseteq.
    - apply NoDup_fmap_2_strong; [|apply NoDup_seq].
      intros j1 j2 Hj1%elem_of_seq Hj2%elem_of_seq Heq.
      destruct (ok_distinct _ _ Hok n r n r (Z.of_nat j1) (Z.of_nat j2)) as [_ ?];
        try done; unfold is_u64; lia.
    - intros k (j & -> & Hj%elem_of_seq)%list_elem_of_fmap.
      apply elem_of_elements, elem_of_dom.
      destruct (ok_order _ _ Hok _ _ Hr (Z.of_nat j) i blk) as (b' & ? & _); [lia|lia|done|eauto]. }
  apply submseteq_length in Hsub; subst keys.
  rewrite length_fmap, length_seq in Hsub.
  replace (length (elements (dom landed))) with (size landed) in Hsub
    by (rewrite <- size_dom; done).
  lia.
Qed.

Lemma elem_of_round_search_keys rngs dead mult k :
  k ∈ round_search_keys rngs dead mult <->
  exists n r i, rngs !! n = Some r /\ (n ∉ dead) /\ (i < Z.to_nat mult)%nat
    /\ k = peek (advance_n blake2b i r).
Proof.
  unfold round_search_keys; rewrite list_elem_of_bind; split.
  - intros ([n r] & Hk & [Hnd Hin]%list_elem_of_filter); simpl in *.
    apply elem_of_hash_iter in Hin; apply list_elem_of_lookup in Hk as [i Hi].
    pose proof (lookup_lt_Some _ _ _ Hi) as Hlt; rewrite rng_take_length in Hlt.
    rewrite rng_take_lookup in Hi by done; exists n, r, i; split_and!; congruence.
  - intros (n & r & i & Hr & Hnd & Hi & ->); exists (n, r); split.
    + apply list_elem_of_lookup; exists i; by apply rng_take_lookup.
    + apply list_elem_of_filter; split; [done|by apply elem_of_hash_iter].
Qed.

Lemma elem_of_compute_dead old rngs mult n :
  n ∈ compute_dead old rngs mult <->
  exists r, rngs !! n = Some r /\ is_dead old mult (n, r) = true.
Proof.
  unfold compute_dead; rewrite elem_of_list_to_set, list_elem_of_fmap; split.
  - intros ([n' r] & -> & [Hd Hin]%list_elem_of_filter); exists r.
    by apply elem_of_hash_iter in Hin.
  - intros (r & Hr & Hd); exists (n, r); split; [done|].
    apply list_elem_of_filter; split; [done|by apply elem_of_hash_iter].
Qed.

Lemma next_multiplier_range m : 2 <= m <= 1000 -> 2 <= next_multiplier m <= 1000.
Proof.
  intros Hm; unfold next_multiplier, u64_mul; rewrite wrap64_small by (unfold_u64; lia).
  case_match; bool_to_prop; lia.
Qed.

(** The found results of a response are landed records. *)
Lemma found_map_landed s e b keys resp s' k c :
  request s e b keys = (Ok resp, s') ->
  found_map (qresp_tx_out_search_results resp) !! k = Some c ->
  k ∈ keys /\ is_Some (landed !! k).
Proof.
  intros Hreq (res & Hin & Hc & <- & _)%found_map_some.
  by eapply (honest_only _ _ Hhonest).
Qed.

Lemma found_map_size s e b keys resp s' :
  request s e b keys = (Ok resp, s') ->
  (size (found_map (qresp_tx_out_search_results resp)) <= size landed)%nat.
Proof.
  intros Hreq; rewrite <- !size_dom; apply subseteq_size; intros k [c Hk]%elem_of_dom.
  apply elem_of_dom; by eapply found_map_landed.
Qed.

(** ** One round *)

Record round_facts (st st' : PollState (S := S) (ConnError := ConnError)) (resp : QueryResponse) (steps : bytes -> nat) : Prop := {
  rf_request : exists s', request (ps_server st) i64_max
      (get_highest_processed_block_count (ps_set st))
      (round_search_keys (urs_rngs (ps_set st)) (ps_dead_rng_set st) (ps_request_multiplier st))
    = (Ok resp, s');
  rf_rngs : forall n, urs_rngs (ps_set st') !! n
    = (fun r => advance_n blake2b (steps n) r) <$> urs_rngs (ps_set st) !! n;
  rf_steps : forall n r, urs_rngs (ps_set st) !! n = Some r ->
    consecutive (found_map (qresp_tx_out_search_results resp)) r (steps n)
    /\ (steps n <= size (found_map (qresp_tx_out_search_results resp)))%nat;
  rf_count : ps_new_highest_processed_block_count st'
    = Z.min (ps_new_highest_processed_block_count st) (qresp_highest_processed_block_count resp);
  rf_mult : ps_request_multiplier st' = next_multiplier (ps_request_multiplier st);
  rf_dead : ps_dead_rng_set st'
    = compute_dead (urs_rngs (ps_set st)) (urs_rngs (ps_set st')) (ps_request_multiplier st);
  rf_highest : urs_highest_processed_block_count (ps_set st')
    = urs_highest_processed_block_count (ps_set st);
}.

Lemma poll_round_facts upriv st st' :
  poll_inv landed st -> poll_round request upriv st = Ok st' ->
  exists resp steps, round_facts st st' resp steps
    /\ exists found, ps_results st' = ps_results st ++ found
       /\ found ≡ₚ mjoin ((fun e => decrypted upriv
            (ciphertexts (found_map (qresp_tx_out_search_results resp)) e.2 (steps e.1)))
            <$> map_to_list (urs_rngs (ps_set st))).
Proof.
  intros Hinv; unfold poll_round.
  destruct (request _ _ _ _) as [[resp|e] s'] eqn:Hreq; [|done].
  destruct (ingest_results_matched (ps_set st) upriv (qresp_tx_out_search_results resp))
    as (set' & succ & fails & steps & -> & Hh & _ & Hrngs & Hsteps & Hsucc & _).
  { apply rngs_ok_streams; [apply Hinv|].
    pose proof (found_map_size _ _ _ _ _ _ Hreq); lia. }
  intros [= <-]; exists resp, steps; split; [split; simpl; eauto|]; by exists succ.
Qed.

Section round.
Context (st st' : PollState (S := S) (ConnError := ConnError)) (resp : QueryResponse) (steps : bytes -> nat).
Hypothesis Hinv : poll_inv landed st.
Hypothesis Hround : round_facts st st' resp steps.

Let found := found_map (qresp_tx_out_search_results resp).
Let Hok := pi_ok _ _ Hinv.

Lemma round_steps_small n r :
  urs_rngs (ps_set st) !! n = Some r -> Z.of_nat (steps n) <= index_bound.
Proof.
  intros Hr; destruct (rf_request _ _ _ _ Hround) as [s' Hreq].
  pose proof (found_map_size _ _ _ _ _ _ Hreq).
  destruct (rf_steps _ _ _ _ Hround _ _ Hr) as [_ ?]; lia.
Qed.

(** An rng only moves over landed outputs. *)
Lemma round_index_bound n r :
  urs_rngs (ps_set st) !! n = Some r ->
  rng_index r + Z.of_nat (steps n) <= Z.max (rng_index r) (Z.of_nat (size landed)).
Proof.
  intros Hr; destruct (rf_steps _ _ _ _ Hround _ _ Hr) as [[Hc _] _].
  pose proof (round_steps_small _ _ Hr).
  destruct (steps n) as [|k] eqn:Hk; [lia|].
  destruct (Hc k ltac:(lia)) as [c Hfound].
  destruct (rf_request _ _ _ _ Hround) as [s' Hreq].
  destruct (found_map_landed _ _ _ _ _ _ _ _ Hreq Hfound) as [_ Hl].
  destruct (advance_peek_ok _ _ _ k Hok Hr) as [Hpk Hu]; [lia|]; rewrite Hpk in Hl.
  pose proof (landed_index _ _ _ _ Hok Hr Hu Hl); lia.
Qed.

Lemma round_index n r :
  urs_rngs (ps_set st) !! n = Some r ->
  rng_index (advance_n blake2b (steps n) r) = rng_index r + Z.of_nat (steps n).
Proof.
  intros Hr; pose proof (round_steps_small _ _ Hr); pose proof (ok_index _ _ Hok _ _ Hr).
  pose proof (rng_wf_counter _ _ (ok_wf _ _ Hok _ _ Hr)).
  apply advance_n_index; [done|]; unfold index_bound, u64_modulus in *; lia.
Qed.

Lemma round_lookup n r' :
  urs_rngs (ps_set st') !! n = Some r' ->
  exists r, urs_rngs (ps_set st) !! n = Some r /\ r' = advance_n blake2b (steps n) r.
Proof. rewrite (rf_rngs _ _ _ _ Hround), fmap_Some; naive_solver. Qed.

Lemma round_rngs_ok : rngs_ok landed (urs_rngs (ps_set st')).
Proof.
  split.
  - intros n r' (r & Hr & ->)%round_lookup; apply advance_n_wf, (ok_wf _ _ Hok _ _ Hr).
  - intros n r' (r & Hr & ->)%round_lookup; rewrite (round_index _ _ Hr).
    pose proof (round_index_bound _ _ Hr); pose proof (ok_index _ _ Hok _ _ Hr); lia.
  - intros n1 r1' n2 r2' i j (r1 & H1 & ->)%round_lookup (r2 & H2 & ->)%round_lookup.
    rewrite !advance_n_secret; by apply (ok_distinct _ _ Hok).
  - intros n r' (r & Hr & ->)%round_lookup; rewrite advance_n_secret.
    by apply (ok_order _ _ Hok n).
Qed.

(** Dead is: advanced by less than was asked for. *)
Lemma round_dead_iff n r :
  urs_rngs (ps_set st) !! n = Some r ->
  n ∈ ps_dead_rng_set st' <-> Z.of_nat (steps n) < ps_request_multiplier st.
Proof.
  intros Hr; rewrite (rf_dead _ _ _ _ Hround), elem_of_compute_dead.
  rewrite (rf_rngs _ _ _ _ Hround), Hr; unfold is_dead; simpl; rewrite Hr; simpl.
  pose proof (pi_mult _ _ Hinv); pose proof (ok_index _ _ Hok _ _ Hr).
  pose proof (rng_wf_counter _ _ (ok_wf _ _ Hok _ _ Hr)) as Hc.
  rewrite u64_add_small by (unfold index_bound, is_u64, u64_modulus in *; lia).
  split.
  - intros (r' & [= <-] & Hd); rewrite (round_index _ _ Hr) in Hd; bool_to_prop; lia.
  - intros Hlt; eexists; split; [done|]; rewrite (round_index _ _ Hr); apply Z.ltb_lt; lia.
Qed.

(** An rng that was dead is not asked for and does not move. *)
Lemma round_dead_stays n r :
  urs_rngs (ps_set st) !! n = Some r -> n ∈ ps_dead_rng_set st -> steps n = 0%nat.
Proof.
  intros Hr Hd; destruct (steps n) as [|k] eqn:Hk; [done|exfalso].
  destruct (rf_steps _ _ _ _ Hround _ _ Hr) as [[Hc _] _].
  destruct (Hc 0%nat ltac:(lia)) as [c Hfound].
  destruct (rf_request _ _ _ _ Hround) as [s' Hreq].
  destruct (found_map_landed _ _ _ _ _ _ _ _ Hreq Hfound) as [Hkey _].
  apply elem_of_round_search_keys in Hkey as (n2 & r2 & i & Hr2 & Hnd & Hi & Heq).
  destruct (advance_peek_ok _ _ _ 0 Hok Hr) as [Hp1 Hu1]; [unfold index_bound; lia|].
  pose proof (pi_mult _ _ Hinv).
  destruct (advance_peek_ok _ _ _ i Hok Hr2) as [Hp2 Hu2]; [unfold index_bound; lia|].
  rewrite Hp1, Hp2 in Heq.
  destruct (ok_distinct _ _ Hok _ _ _ _ _ _ Hr Hr2 Hu1 Hu2 Heq) as [-> _]; done.
Qed.

Lemma round_dead_complete n r :
  urs_rngs (ps_set st) !! n = Some r -> n ∈ ps_dead_rng_set st' ->
  complete_below landed (ps_new_highest_processed_block_count st')
    (advance_n blake2b (steps n) r).
Proof.
  intros Hr Hd; rewrite (rf_count _ _ _ _ Hround).
  intros i blk; rewrite advance_n_secret, (round_index _ _ Hr); intros Hi Hl.
  destruct (decide (n ∈ ps_dead_rng_set st)) as [Hold|Hlive].
  { rewrite (round_dead_stays _ _ Hr Hold) in Hi.
    pose proof (pi_dead _ _ Hinv _ _ Hold Hr i blk ltac:(lia) Hl); lia. }
  apply (round_dead_iff _ _ Hr) in Hd; pose proof (round_steps_small _ _ Hr).
  destruct (advance_peek_ok _ _ _ (steps n) Hok Hr) as [Hp Hu]; [done|].
  destruct (ok_order _ _ Hok _ _ Hr (rng_index r + Z.of_nat (steps n)) i blk)
    as (blk' & Hl' & Hle); [unfold is_u64 in Hu; lia|lia|done|].
  destruct (rf_steps _ _ _ _ Hround _ _ Hr) as [[_ Hnone] _].
  destruct (rf_request _ _ _ _ Hround) as [s' Hreq].
  destruct (decide (blk' < qresp_highest_processed_block_count resp)) as [Hlt|]; [exfalso|lia].
  destruct (honest_complete _ _ Hhonest _ _ _ _ _ _ Hreq
    (peek (advance_n blake2b (steps n) r)) blk') as (res & Hin & Hc & Hk).
  - apply elem_of_round_search_keys; exists n, r, (steps n); split_and!; [done|done|lia|done].
  - by rewrite Hp.
  - done.
  - destruct (found_map_is_some _ _ Hin Hc) as [c Hc']; rewrite Hk, Hnone in Hc'; done.
Qed.

Lemma poll_inv_round : poll_inv landed st'.
Proof.
  split.
  - apply round_rngs_ok.
  - intros n; rewrite (rf_dead _ _ _ _ Hround), elem_of_compute_dead.
    intros (r & Hr & _); apply elem_of_dom; eauto.
  - intros n r' Hd (r & Hr & ->)%round_lookup; by apply round_dead_complete.
  - rewrite (rf_mult _ _ _ _ Hround); apply next_multiplier_range, Hinv.
Qed.
End round.

(** ** The loop *)

Lemma all_dead st n r :
  poll_inv landed (S := S) (ConnError := ConnError) st ->
  (size (get_rngs (ps_set st)) <= size (ps_dead_rng_set st))%nat ->
  urs_rngs (ps_set st) !! n = Some r -> n ∈ ps_dead_rng_set st.
Proof.
  intros Hinv Hsize Hr; unfold get_rngs in Hsize; rewrite <- size_dom in Hsize.
  pose proof (set_subseteq_size_equiv _ _ (pi_dead_dom _ _ Hinv) Hsize) as Heq.
  apply Heq, elem_of_dom; eauto.
Qed.

Lemma poll_loop_complete fuel upriv st st' :
  poll_inv landed st -> poll_loop request fuel upriv st = Some (Ok st') ->
  forall n r, urs_rngs (ps_set st') !! n = Some r ->
    complete_below landed (ps_new_highest_processed_block_count st') r.
Proof.
  revert st; induction fuel as [|fuel IH]; intros st Hinv; simpl; [done|].
  case_bool_decide as Hsize.
  - intros [= <-] n r Hr; eapply (pi_dead _ _ Hinv); [by eapply all_dead|done].
  - destruct (poll_round request upriv st) as [st1|st1] eqn:Hround; [|done].
    destruct (poll_round_facts _ _ _ Hinv Hround) as (resp & steps & Hf & _).
    apply IH; by eapply poll_inv_round.
Qed.

Lemma sum_list_with_le {A} (f g : A -> nat) l :
  (forall x, x ∈ l -> (f x <= g x)%nat) -> (sum_list_with f l <= sum_list_with g l)%nat.
Proof.
  induction l as [|x l IH]; intros H; simpl; [done|].
  pose proof (H x ltac:(left)); specialize (IH ltac:(intros; apply H; by right)); lia.
Qed.

Lemma sum_list_with_lt {A} (f g : A -> nat) l y :
  (forall x, x ∈ l -> (f x <= g x)%nat) -> y ∈ l -> (f y < g y)%nat ->
  (sum_list_with f l < sum_list_with g l)%nat.
Proof.
  intros H Hy; revert H; induction Hy as [y l|y x l Hy IH]; intros H Hlt; simpl.
  - pose proof (sum_list_with_le f g l ltac:(intros; apply H; by right)); lia.
  - pose proof (H x ltac:(left)); specialize (IH ltac:(intros; apply H; by right) Hlt); lia.
Qed.

(** A round after which some rng is live has found something on it. *)
Lemma remaining_decreases st st' resp steps n r' :
  poll_inv landed st -> round_facts st st' resp steps ->
  urs_rngs (ps_set st') !! n = Some r' -> n ∉ ps_dead_rng_set st' ->
  (remaining landed (urs_rngs (ps_set st')) < remaining landed (urs_rngs (ps_set st)))%nat.
Proof.
  intros Hinv Hf Hr' Hlive; destruct (round_lookup _ _ _ _ Hf _ _ Hr') as (r & Hr & ->).
  unfold remaining.
  assert (dom (urs_rngs (ps_set st')) = dom (urs_rngs (ps_set st))) as ->.
  { apply set_eq; intros k; rewrite !elem_of_dom, (rf_rngs _ _ _ _ Hf), fmap_is_Some; done. }
  apply sum_list_with_lt with n.
  - intros k _; unfold remaining_of; rewrite (rf_rngs _ _ _ _ Hf).
    destruct (urs_rngs (ps_set st) !! k) as [q|] eqn:Hq; simpl; [|done].
    rewrite (round_index _ _ _ _ Hinv Hf _ _ Hq); lia.
  - apply elem_of_elements, elem_of_dom; eauto.
  - unfold remaining_of; rewrite Hr', Hr, (round_index _ _ _ _ Hinv Hf _ _ Hr).
    rewrite (round_dead_iff _ _ _ _ Hinv Hf _ _ Hr) in Hlive.
    pose proof (pi_mult _ _ Hinv); pose proof (round_index_bound _ _ _ _ Hinv Hf _ _ Hr); lia.
Qed.

Lemma poll_loop_terminates fuel upriv st :
  poll_inv landed st -> (remaining landed (urs_rngs (ps_set st)) + 1 < fuel)%nat ->
  is_Some (poll_loop request fuel upriv st).
Proof.
  revert st; induction fuel as [|fuel IH]; intros st Hinv Hfuel; [lia|]; simpl.
  case_bool_decide as Hsize; [by eexists|].
  destruct (poll_round request upriv st) as [st1|st1] eqn:Hround; [|by eexists].
  destruct (poll_round_facts _ _ _ Hinv Hround) as (resp & steps & Hf & _).
  pose proof (poll_inv_round _ _ _ _ Hinv Hf) as Hinv1.
  destruct (decide (size (get_rngs (ps_set st1)) <= size (ps_dead_rng_set st1))%nat) as [Hd|Hd].
  { destruct fuel as [|fuel]; [lia|]; simpl; rewrite bool_decide_eq_true_2 by done; by eexists. }
  apply IH; [done|].
  destruct (set_choose_or_empty (dom (urs_rngs (ps_set st1)) ∖ ps_dead_rng_set st1))
    as [[n [Hdom Hn]%elem_of_difference]|Hempty].
  2:{ exfalso; apply Hd; unfold get_rngs; rewrite <- size_dom; apply subseteq_size; set_solver. }
  apply elem_of_dom in Hdom as [r Hr].
  pose proof (remaining_decreases _ _ _ _ _ _ Hinv Hf Hr Hn); lia.
Qed.

End poll_lemmas.

(** ** Any server at all: counters *)

Section poll_counts.
Context `{U : UserCrypto} `{I : HashIter}.
Context {S ConnError : Type}.
Context (request : S -> Z -> Z -> list bytes -> result QueryResponse ConnError * S).

Lemma ingest_results_highest set upriv results :
  urs_highest_processed_block_count (ingest_tx_out_search_results set upriv results).1
  = urs_highest_processed_block_count set.
Proof.
  unfold ingest_tx_out_search_results; by repeat case_match.
Qed.

Lemma ingest_record_highest upriv acc rec :
  urs_highest_processed_block_count (ingest_record (ConnError := ConnError) upriv acc rec).1
  = urs_highest_processed_block_count acc.1.
Proof.
  unfold ingest_record, ingest_rng_record; destruct (versioned_try_from_kex_pubkey _ _ _); done.
Qed.

Lemma ingest_records_highest upriv acc recs :
  urs_highest_processed_block_count (foldl (ingest_record (ConnError := ConnError) upriv) acc recs).1
  = urs_highest_processed_block_count acc.1.
Proof.
  revert acc; induction recs as [|rec recs IH]; intros acc; simpl; [done|].
  by rewrite IH, ingest_record_highest.
Qed.

Lemma poll_round_highest upriv st st' :
  (poll_round request upriv st = Ok st' \/ poll_round request upriv st = Err st') ->
  urs_highest_processed_block_count (ps_set st') = urs_highest_processed_block_count (ps_set st).
Proof.
  unfold poll_round; destruct (request _ _ _ _) as [[resp|e] s'].
  - pose proof (ingest_results_highest (ps_set st) upriv (qresp_tx_out_search_results resp)) as Hh.
    destruct (ingest_tx_out_search_results _ _ _) as [set' [succ fails]]; simpl in *.
    intros [H|H]; simplify_eq; done.
  - intros [H|H]; simplify_eq; done.
Qed.

Lemma poll_loop_highest fuel upriv st st' :
  (poll_loop request fuel upriv st = Some (Ok st')
   \/ poll_loop request fuel upriv st = Some (Err st')) ->
  urs_highest_processed_block_count (ps_set st') = urs_highest_processed_block_count (ps_set st).
Proof.
  revert st; induction fuel as [|fuel IH]; intros st; simpl; [naive_solver|].
  case_bool_decide; [naive_solver|].
  destruct (poll_round request upriv st) as [st1|st1] eqn:Hr.
  - intros H'; rewrite (IH st1 H'); apply (poll_round_highest upriv); auto.
  - intros [|]; simplify_eq; apply (poll_round_highest upriv); auto.
Qed.
End poll_counts.

(** ** Correctness *)

Section poll_correct.
Context `{U : UserCrypto} `{I : HashIter}.
Context {S ConnError : Type}.
Context (request : S -> Z -> Z -> list bytes -> result QueryResponse ConnError * S).

(** The rngs of the user once the records of the first response are added. *)
Definition rngs_after_events (set : UserRngSet) (upriv : UserPrivate) (resp : QueryResponse)
  : gmap (list Z) VersionedKexRng :=
  urs_rngs (foldl (ingest_record (ConnError := ConnError) upriv) (set, [])
              (qresp_rng_records resp)).1.

(** C20: the block count a user reaches is truthful.  Against an honest server,
    when a poll raises the user's block count to [n], no record that landed in
    a block below [n] is still missing on any of the user's rngs: everything
    from the rng's current output on landed at [n] or later. *)
Theorem poll_complete (landed : gmap (list Z) Z) fuel server set upriv server' set' results errs :
  server_honest request landed -> Z.of_nat (size landed) < index_bound ->
  (forall resp s', request server (urs_next_start_from_user_event_id set)
       (urs_highest_processed_block_count set) [] = (Ok resp, s') ->
     rngs_ok landed (rngs_after_events set upriv resp)) ->
  poll request fuel server set upriv = Some (server', set', (results, errs)) ->
  urs_highest_processed_block_count set < urs_highest_processed_block_count set' ->
  forall nonce r, urs_rngs set' !! nonce = Some r ->
    complete_below landed (urs_highest_processed_block_count set') r.
Proof.
  intros Hhonest Hsmall Hok; unfold poll, get_next_start_from_user_event_id,
    get_highest_processed_block_count.
  destruct (request server _ _ []) as [[resp|e] s1] eqn:Hreq; [|intros [= <- <- <- <-]; lia].
  specialize (Hok resp s1 eq_refl); unfold rngs_after_events in Hok.
  pose proof (ingest_records_highest (ConnError := ConnError) upriv (set, []) (qresp_rng_records resp))
    as Hh0; simpl in Hh0.
  destruct (foldl (ingest_record upriv) (set, []) (qresp_rng_records resp)) as [set1 errs1].
  simpl in *; case_match; [intros [= <- <- <- <-]; simpl; lia|].
  destruct (poll_loop _ _ _ _) as [[st|st]|] eqn:Hloop; [| |done].
  - pose proof (poll_loop_highest request _ _ _ _ (or_introl Hloop)) as Hh1; simpl in Hh1.
    pose proof (poll_loop_complete request landed Hsmall Hhonest _ _ _ _
      (poll_inv_start landed _ (set_next_start_from_user_event_id set1 _) _ _ Hok) Hloop) as Hc.
    case_match; intros [= <- <- <- <-]; simpl in *; [done|lia].
  - pose proof (poll_loop_highest request _ _ _ _ (or_intror Hloop)) as Hh1; simpl in Hh1.
    intros [= <- <- <- <-]; lia.
Qed.

(** C34: polling an honest server that holds finitely many records terminates:
    the number of outputs still to be found, plus two rounds, bounds the
    rounds of the request loop. *)
Theorem poll_terminates (landed : gmap (list Z) Z) fuel server set upriv :
  server_honest request landed -> Z.of_nat (size landed) < index_bound ->
  (forall resp s', request server (urs_next_start_from_user_event_id set)
       (urs_highest_processed_block_count set) [] = (Ok resp, s') ->
     rngs_ok landed (rngs_after_events set upriv resp)
     /\ (remaining landed (rngs_after_events set upriv resp) + 1 < fuel)%nat) ->
  is_Some (poll request fuel server set upriv).
Proof.
  intros Hhonest Hsmall Hok; unfold poll, get_next_start_from_user_event_id,
    get_highest_processed_block_count.
  destruct (request server _ _ []) as [[resp|e] s1] eqn:Hreq; [|by eexists].
  destruct (Hok resp s1 eq_refl) as [Hok1 Hfuel]; unfold rngs_after_events in *.
  destruct (foldl (ingest_record upriv) (set, []) (qresp_rng_records resp)) as [set1 errs1].
  simpl in *; case_match; [by eexists|].
  destruct (poll_loop_terminates request landed Hsmall Hhonest fuel upriv
    (poll_start s1 (set_next_start_from_user_event_id set1
       (qresp_next_start_from_user_event_id resp))
       (qresp_highest_processed_block_count resp) errs1)) as [[st|st] ->];
    [by apply poll_inv_start|done|by eexists|by eexists].
Qed.

(** whatever the server answers, a poll never lowers the user's block
    count, and a poll whose first request fails changes nothing. *)
Theorem poll_count_monotone fuel server set upriv server' set' results errs :
  poll request fuel server set upriv = Some (server', set', (results, errs)) ->
  urs_highest_processed_block_count set <= urs_highest_processed_block_count set'
  /\ (forall e s', request server (urs_next_start_from_user_event_id set)
        (urs_highest_processed_block_count set) [] = (Err e, s') ->
      set' = set /\ results = [] /\ errs = [Conn e]).
Proof.
  unfold poll, get_next_start_from_user_event_id, get_highest_processed_block_count.
  destruct (request server _ _ []) as [[resp|e] s1] eqn:Hreq; [|intros [= <- <- <- <-]; naive_solver].
  pose proof (ingest_records_highest (ConnError := ConnError) upriv (set, []) (qresp_rng_records resp))
    as Hh0; simpl in Hh0.
  destruct (foldl (ingest_record upriv) (set, []) (qresp_rng_records resp)) as [set1 errs1].
  simpl in *; intros Hp; split; [|done]; revert Hp.
  case_match; [intros [= <- <- <- <-]; simpl; lia|].
  destruct (poll_loop _ _ _ _) as [[st|st]|] eqn:Hloop; [| |done].
  - pose proof (poll_loop_highest request _ _ _ _ (or_introl Hloop)) as Hh1; simpl in Hh1.
    case_match; intros [= <- <- <- <-]; simpl in *; bool_to_prop; lia.
  - pose proof (poll_loop_highest request _ _ _ _ (or_intror Hloop)) as Hh1; simpl in Hh1.
    intros [= <- <- <- <-]; lia.
Qed.

(** When the block count of the server is not higher than the user's, a poll returns no errors,
    whichever rng records of the answer were rejected, and moves past their events, so that they
    are not sent again; the comment at its head promises to return any errors. *)
Theorem poll_drops_ingest_errors fuel server set upriv resp server' :
  request server (urs_next_start_from_user_event_id set) (urs_highest_processed_block_count set) []
    = (Ok resp, server') ->
  qresp_highest_processed_block_count resp <= urs_highest_processed_block_count set ->
  exists set', poll request fuel server set upriv = Some (server', set', ([], []))
    /\ urs_next_start_from_user_event_id set' = qresp_next_start_from_user_event_id resp.
Proof.
  unfold poll, get_next_start_from_user_event_id, get_highest_processed_block_count.
  intros -> Hle; pose proof (ingest_records_highest (ConnError := ConnError) upriv (set, [])
    (qresp_rng_records resp)) as Hh.
  destruct (foldl _ _ _) as [set1 errs]; simpl in *; rewrite Hh.
  rewrite (proj2 (Z.leb_le _ _) Hle); by eexists.
Qed.
End poll_correct.

(** *** A concrete server with three records of one rng *)

Definition demo_secret : bytes := replicate 31 0 ++ [1].
Definition demo_output (i : Z) : bytes := output demo_hash demo_secret i.

Definition demo_landed : gmap (list Z) Z :=
  <[demo_output 0 := 3]> (<[demo_output 1 := 3]> (<[demo_output 2 := 5]> ∅)).

Definition demo_search (k : bytes) : TxOutSearchResult :=
  match demo_landed !! k with
  | Some blk => mkTxOutSearchResult k 1 [blk]
  | None => mkTxOutSearchResult k 2 []
  end.

Definition demo_server (s : unit) (event block : Z) (keys : list bytes)
  : result QueryResponse unit * unit :=
  (Ok (mkQueryResponse 6 0 1 [] [] [] (demo_search <$> keys) 6 3), tt).

Definition demo_poll_set : UserRngSet := mkUserRngSet (<[[1] := demo_rng 1]> ∅) 0 0.

Lemma demo_output_inj i j :
  is_u64 i -> is_u64 j -> demo_output i = demo_output j -> i = j.
Proof.
  intros Hi Hj Heq; apply to_le_bytes_inj; [done..|].
  apply (f_equal (take 8)) in Heq; revert Heq; unfold demo_output, output.
  cbn [prf KexRng20201124]; unfold demo_hash; rewrite !rev_app_distr, <- !app_assoc.
  rewrite !take_take; simpl Nat.min.
  rewrite !take_app_le by (rewrite length_rev; unfold to_le_bytes; rewrite le_split_length; lia).
  rewrite !take_ge by (rewrite length_rev; unfold to_le_bytes; rewrite le_split_length; lia).
  intros Heq; apply (f_equal (@rev Z)) in Heq; by rewrite !rev_involutive in Heq.
Qed.

Lemma demo_server_honest : server_honest demo_server demo_landed.
Proof.
  split.
  - intros s e b keys resp s' [= <- _] k blk Hk Hl _; simpl.
    exists (demo_search k); split; [by apply list_elem_of_fmap_2|].
    unfold demo_search; by rewrite Hl.
  - intros s e b keys resp s' [= <- _] res (k & -> & Hk)%list_elem_of_fmap; simpl.
    unfold demo_search; destruct (demo_landed !! k) eqn:Hl; simpl; [|done].
    intros _; split; [done|by eexists].
Qed.

Lemma demo_landed_output j blk :
  is_u64 j -> demo_landed !! demo_output j = Some blk ->
  (j = 0 /\ blk = 3) \/ (j = 1 /\ blk = 3) \/ (j = 2 /\ blk = 5).
Proof.
  intros Hj; unfold demo_landed; rewrite !lookup_insert_Some, lookup_empty.
  intros [[H <-]|[_ [[H <-]|[_ [[H <-]|[_ H]]]]]]; [..|done];
    apply demo_output_inj in H; auto; unfold is_u64, u64_modulus; lia.
Qed.

Lemma demo_rngs_ok : rngs_ok demo_landed (urs_rngs demo_poll_set).
Proof.
  split.
  - intros n r; simpl; rewrite lookup_insert_Some, lookup_empty.
    intros [[_ <-]|[_ ?]]; [|done]; by apply from_secret_wf.
  - intros n r; simpl; rewrite lookup_insert_Some, lookup_empty.
    intros [[_ <-]|[_ ?]]; [|done]; reflexivity.
  - intros n1 r1 n2 r2 i j; simpl; rewrite !lookup_insert_Some, !lookup_empty.
    intros [[<- <-]|[_ ?]] [[<- <-]|[_ ?]] Hi Hj Heq; try done.
    split; [done|]; by apply demo_output_inj.
  - intros n r; simpl; rewrite lookup_insert_Some, lookup_empty.
    intros [[_ <-]|[_ ?]]; [|done]; intros i j blk Hij Hj Hl.
    apply demo_landed_output in Hl as [[-> ->]|[[-> ->]|[-> ->]]]; [| | |unfold is_u64; lia].
    + assert (i = 0) as -> by lia; exists 3; split; [vm_compute; reflexivity|lia].
    + assert (i = 0 \/ i = 1) as [-> | ->] by lia; exists 3; (split; [vm_compute; reflexivity|lia]).
    + assert (i = 0 \/ i = 1 \/ i = 2) as [-> |[-> | ->]] by lia;
        eexists; (split; [vm_compute; reflexivity|lia]).
Qed.

Definition demo_poll :=
  @poll _ demo_user canonical_iter unit unit demo_server 5 tt demo_poll_set
    (@mkUserPrivate demo_kex [3]).

Lemma poll_complete_witness :
  exists set' results, demo_poll = Some (tt, set', (results, []))
    /\ urs_highest_processed_block_count set' = 6 /\ length results = 3%nat
    /\ forall nonce r, urs_rngs set' !! nonce = Some r -> complete_below demo_landed 6 r.
Proof.
  assert (Hp : exists set' results, demo_poll = Some (tt, set', (results, []))
    /\ urs_highest_processed_block_count set' = 6 /\ length results = 3%nat).
  { eexists _, _; split; [vm_compute; reflexivity|split; reflexivity]. }
  destruct Hp as (set' & results & Hp & Hc & Hl); exists set', results.
  split; [exact Hp|]; split; [exact Hc|]; split; [exact Hl|].
  rewrite <- Hc.
  apply (@poll_complete _ demo_user canonical_iter unit unit demo_server demo_landed 5 tt
    demo_poll_set (@mkUserPrivate demo_kex [3]) tt set' results []).
  - apply demo_server_honest.
  - vm_compute; reflexivity.
  - intros resp s' [= <- _]; apply demo_rngs_ok.
  - exact Hp.
  - rewrite Hc; reflexivity.
Defined.

Lemma poll_terminates_witness : is_Some demo_poll.
Proof.
  apply (@poll_terminates _ demo_user canonical_iter unit unit demo_server demo_landed 5 tt
    demo_poll_set (@mkUserPrivate demo_kex [3])).
  - apply demo_server_honest.
  - vm_compute; reflexivity.
  - intros resp s' [= <- _]; split; [apply demo_rngs_ok|vm_compute; lia].
Defined.

Lemma poll_count_monotone_witness :
  exists out, demo_poll = Some out /\ 0 <= urs_highest_processed_block_count out.1.2.
Proof.
  destruct demo_poll as [[[s set'] [results errs]]|] eqn:Hp.
  - exists (s, set', (results, errs)); split; [reflexivity|].
    apply (@poll_count_monotone _ demo_user canonical_iter unit unit demo_server 5 tt
      demo_poll_set (@mkUserPrivate demo_kex [3]) s set' results errs Hp).
  - exfalso; vm_compute in Hp; discriminate.
Defined.

(** A server without new blocks that sends an rng record of an unknown version. *)
Definition stale_server (s : unit) (event block : Z) (keys : list bytes)
  : result QueryResponse unit * unit :=
  (Ok (mkQueryResponse 0 0 1 [] [mkRngRecord 1 (mkKexRngPubkey [] 9) 0] [] [] 0 0), tt).

Lemma poll_drops_ingest_errors_witness :
  (@ingest_rng_record _ demo_user demo_poll_set (@mkUserPrivate demo_kex [3])
     (mkRngRecord 1 (mkKexRngPubkey [] 9) 0)).2 = Err (RecoveryKexRng (UnknownVersion 9))
  /\ exists set', @poll _ demo_user canonical_iter unit unit stale_server 5 tt demo_poll_set
       (@mkUserPrivate demo_kex [3]) = Some (tt, set', ([], []))
     /\ urs_next_start_from_user_event_id set' = 1.
Proof.
  split; [reflexivity|].
  apply (@poll_drops_ingest_errors _ demo_user canonical_iter unit unit stale_server 5 tt
    demo_poll_set (@mkUserPrivate demo_kex [3])
    (mkQueryResponse 0 0 1 [] [mkRngRecord 1 (mkKexRngPubkey [] 9) 0] [] [] 0 0) tt).
  - reflexivity.
  - vm_compute; discriminate.
Defined.
