(* ===== verification/ObliviousMap.v ===== *)
(** * The oblivious map interface

    The oblivious hash map that the ingest and view enclaves store their data
    in is foreign code: [ObliviousHashMap] gives its operations,
    [ObliviousHashMapLaws] what its documentation promises, in terms of the
    finite map [omap_view] it represents.  An operation that needs a new slot
    may overflow; the laws leave open when. *)

From S2P Require Import Prelude.

Local Open Scope Z_scope.

Class ObliviousHashMap := {
  OMap : Type;
  OMAP_FOUND : Z;
  OMAP_NOT_FOUND : Z;
  OMAP_OVERFLOW : Z;
  OMAP_INVALID_KEY : Z;
  omap_create : Z -> OMap;
  (** Write with overwriting allowed: result code and new map. *)
  omap_vartime_write : OMap -> bytes -> bytes -> Z * OMap;
  (** Read into a buffer: result code, buffer afterwards, new map. *)
  omap_read : OMap -> bytes -> bytes -> Z * bytes * OMap;
  (** Access or insert: the callback sees the result code and the stored value, or the
      default when there is none, and gives the value to store and what it captures. *)
  omap_access_and_insert : OMap -> bytes -> bytes -> bytes -> (Z -> bytes -> bytes * bytes)
    -> Z * OMap * bytes;
  omap_len : OMap -> Z;
  omap_capacity : OMap -> Z;
}.

Class ObliviousHashMapLaws (O : ObliviousHashMap) := {
  omap_view : OMap -> gmap (list Z) bytes;
  omap_valid_key : bytes -> bool;
  omap_codes : NoDup [OMAP_FOUND; OMAP_NOT_FOUND; OMAP_OVERFLOW; OMAP_INVALID_KEY];
  omap_create_view : forall cap, omap_view (omap_create cap) = ∅;
  omap_view_valid : forall o k, is_Some (omap_view o !! k) -> omap_valid_key k = true;
  omap_write_spec : forall o k v code o', omap_vartime_write o k v = (code, o') ->
    (omap_valid_key k = true
     /\ (code = OMAP_FOUND \/ code = OMAP_NOT_FOUND) /\ omap_view o' = <[k := v]> (omap_view o))
    \/ ((code = OMAP_INVALID_KEY \/ code = OMAP_OVERFLOW) /\ omap_view o' = omap_view o);
  omap_write_valid : forall o k v,
    (omap_vartime_write o k v).1 = OMAP_INVALID_KEY <-> omap_valid_key k = false;
  omap_read_spec : forall o k buf code buf' o', omap_read o k buf = (code, buf', o') ->
    omap_view o' = omap_view o
    /\ (if omap_valid_key k
        then match omap_view o !! k with
             | Some v => code = OMAP_FOUND /\ buf' = v
             | None => code = OMAP_NOT_FOUND /\ buf' = buf
             end
        else code = OMAP_INVALID_KEY /\ buf' = buf);
  omap_access_and_insert_spec : forall o k d out f code o' out',
    omap_access_and_insert o k d out f = (code, o', out') ->
    if omap_valid_key k
    then match omap_view o !! k with
         | Some v => code = OMAP_FOUND /\ omap_view o' = <[k := (f OMAP_FOUND v).1]> (omap_view o)
             /\ out' = (f OMAP_FOUND v).2
         | None => (code = OMAP_NOT_FOUND
               /\ omap_view o' = <[k := (f OMAP_NOT_FOUND d).1]> (omap_view o)
               /\ out' = (f OMAP_NOT_FOUND d).2)
             \/ code = OMAP_OVERFLOW
         end
    else code = OMAP_INVALID_KEY /\ omap_view o' = omap_view o;
}.

(** ** An instance: a finite map with a capacity *)

#[export] Instance demo_omap : ObliviousHashMap := {|
  OMap := (gmap (list Z) bytes * Z);
  OMAP_FOUND := 1;
  OMAP_NOT_FOUND := 2;
  OMAP_OVERFLOW := 3;
  OMAP_INVALID_KEY := 4;
  omap_create := fun cap => (∅, cap);
  omap_vartime_write := fun o k v =>
    match o.1 !! k with
    | Some _ => (1, (<[k := v]> o.1, o.2))
    | None => if Z.of_nat (size o.1) <? o.2 then (2, (<[k := v]> o.1, o.2)) else (3, o)
    end;
  omap_read := fun o k buf =>
    match o.1 !! k with
    | Some v => (1, v, o)
    | None => (2, buf, o)
    end;
  omap_access_and_insert := fun o k d out f =>
    match o.1 !! k with
    | Some v => (1, (<[k := (f 1 v).1]> o.1, o.2), (f 1 v).2)
    | None =>
        if Z.of_nat (size o.1) <? o.2 then (2, (<[k := (f 2 d).1]> o.1, o.2), (f 2 d).2)
        else (3, o, (f 2 d).2)
    end;
  omap_len := fun o => Z.of_nat (size o.1);
  omap_capacity := fun o => o.2;
|}.

#[export] Instance demo_omap_laws : ObliviousHashMapLaws demo_omap.
Proof.
  refine {| omap_view := fun o : @OMap demo_omap => o.1; omap_valid_key := fun _ => true |}; simpl.
  - vm_decide.
  - done.
  - done.
  - intros [m cap] k v code o'; simpl; repeat case_match; intros [= <- <-]; simpl; auto.
  - intros [m cap] k v; simpl; repeat case_match; simpl; done.
  - intros [m cap] k buf code buf' o'; simpl; repeat case_match; intros [= <- <- <-]; done.
  - intros [m cap] k d out f code o' out'; simpl; repeat case_match; intros [= <- <- <-]; auto.
Defined.
