(* ===== verification/ViewEnclave.v ===== *)
(** * The view enclave (src/fog/view/enclave/impl/src/e_tx_out_store.rs, lib.rs)

    The record store of the view enclave on top of an oblivious map, and the
    enclave calls that use it.  The attested channel and the protobuf codecs
    are foreign code, type classes here. *)

From S2P Require Import Prelude FogTypes RecoveryTypes ObliviousMap.

Local Open Scope Z_scope.
Local Open Scope fog_scope.

(** ** The record store *)

Definition KeySize : nat := 16.
Definition ValueSize : nat := 240.

Inductive AddRecordsError :=
| KeyWrongSize
| KeyRejected
| ValueTooLarge
| ValueWrongSize
| MapOverflow (len capacity : Z).

#[export] Instance AddRecordsError_eq_dec : EqDecision AddRecordsError.
Proof. solve_decision. Defined.

(** [x as u8]. *)
Definition as_u8 (z : Z) : Z := z mod 256.

Section store.
Context `{O : ObliviousHashMap}.

Record ETxOutStore := mkETxOutStore {
  ets_omap : OMap;
  ets_last_ciphertext_size_byte : Z;
}.

Definition ETxOutStore_new (desired_capacity : Z) : ETxOutStore :=
  mkETxOutStore (omap_create desired_capacity) 0.

Definition add_record (self : ETxOutStore) (search_key ciphertext : bytes)
  : run (ETxOutStore * result unit AddRecordsError) :=
  if negb (length search_key =? KeySize)%nat then Ret (self, Err KeyWrongSize)
  else if (ValueSize - 1 <? length ciphertext)%nat then Ret (self, Err ValueTooLarge)
  else if (length ciphertext <? ValueSize - 256)%nat then Ret (self, Err ValueWrongSize)
  else
    let key := search_key in
    let size_byte := as_u8 (Z.of_nat (ValueSize - 1 - length ciphertext)) in
    let value := <[0%nat := size_byte]> (replicate ValueSize 0) in
    let data_end := (ValueSize - Z.to_nat size_byte)%nat in
    value ← copy_into value 1 data_end ciphertext;
    let '(omap_result_code, omap) := omap_vartime_write (ets_omap self) key value in
    let self' := mkETxOutStore omap size_byte in
    if omap_result_code =? OMAP_INVALID_KEY then Ret (self', Err KeyRejected)
    else if omap_result_code =? OMAP_OVERFLOW
    then Ret (self', Err (MapOverflow (omap_len omap) (omap_capacity omap)))
    else if omap_result_code =? OMAP_FOUND then Ret (self', Ok tt)
    else if negb (omap_result_code =? OMAP_NOT_FOUND) then Panic
    else Ret (self', Ok tt).

(** [CMov]: take the new value when the condition holds. *)
Definition cmov (condition : bool) (new old : Z) : Z := if condition then new else old.

Definition find_record (self : ETxOutStore) (search_key : bytes)
  : run (ETxOutStore * TxOutSearchResult) :=
  let last := Z.to_nat (ets_last_ciphertext_size_byte self) in
  let ciphertext := replicate (ValueSize - 1 - last) 0 in
  if negb (length search_key =? KeySize)%nat
  then Ret (self, mkTxOutSearchResult search_key
                    (TxOutSearchResultCode_as_u32 BadSearchKey) ciphertext)
  else
    let value := <[0%nat := ets_last_ciphertext_size_byte self]> (replicate ValueSize 0) in
    let '(oram_result_code, value, omap) := omap_read (ets_omap self) search_key value in
    let result_code := TxOutSearchResultCode_as_u32 InternalError in
    let result_code := cmov (oram_result_code =? OMAP_FOUND)
                         (TxOutSearchResultCode_as_u32 Found) result_code in
    let result_code := cmov (oram_result_code =? OMAP_NOT_FOUND)
                         (TxOutSearchResultCode_as_u32 NotFound) result_code in
    let result_code := cmov (oram_result_code =? OMAP_INVALID_KEY)
                         (TxOutSearchResultCode_as_u32 BadSearchKey) result_code in
    value0 ← unwrap (value !! 0%nat);
    let ciphertext := vec_resize ciphertext (ValueSize - 1 - Z.to_nat value0) 0 in
    let data_end := (ValueSize - Z.to_nat value0)%nat in
    data ← slice value 1 data_end;
    ciphertext ← copy_into ciphertext 0 (length ciphertext) data;
    Ret (mkETxOutStore omap (ets_last_ciphertext_size_byte self),
         mkTxOutSearchResult search_key result_code ciphertext).
End store.

(** ** The enclave calls *)

Record UntrustedQueryResponse := mkUntrustedQueryResponse {
  uqr_user_events : list FogUserEvent;
  uqr_next_start_from_user_event_id : Z;
  uqr_highest_processed_block_count : Z;
  uqr_highest_processed_block_signature_timestamp : Z;
  uqr_last_known_block_count : Z;
  uqr_last_known_block_cumulative_txo_count : Z;
}.

(** The attested channel to clients: decryption and encryption of messages. *)
Class Ake := {
  AkeState : Type;
  EnclaveMessage : Type;
  ChannelId : Type;
  AttestEnclaveError : Type;
  ResponderId : Type;
  channel_id : EnclaveMessage -> ChannelId;
  ake_init : AkeState -> ResponderId -> result unit AttestEnclaveError * AkeState;
  client_decrypt : AkeState -> EnclaveMessage -> result bytes AttestEnclaveError * AkeState;
  client_encrypt : AkeState -> ChannelId -> bytes -> result bytes AttestEnclaveError * AkeState;
}.

(** The protobuf codec of the two messages. *)
Class ViewCodec := {
  decode_query_request : bytes -> option QueryRequest;
  encode_query_response : QueryResponse -> bytes;
}.

Section enclave.
Context `{O : ObliviousHashMap} `{A : Ake} `{C : ViewCodec}.

Inductive ViewEnclaveError :=
| ViewSgx (code : Z)
| ViewSerdeEncode
| ViewSerdeDecode
| ViewProstEncode
| ViewProstDecode
| ViewAttestEnclave (e : AttestEnclaveError)
| ViewAddRecords (e : AddRecordsError)
| ViewPoison
| ViewEnclaveNotInitialized.

(** [e_tx_out_store: Mutex<Option<ETxOutStore>>] and the channel state. *)
Record ViewEnclave := mkViewEnclave {
  ve_e_tx_out_store : option ETxOutStore;
  ve_ake : AkeState;
}.

Definition ViewEnclave_init (self : ViewEnclave) (self_client_id : ResponderId)
  (desired_capacity : Z) : ViewEnclave * result unit ViewEnclaveError :=
  let '(r, ake) := ake_init (ve_ake self) self_client_id in
  match r with
  | Err e => (mkViewEnclave (ve_e_tx_out_store self) ake, Err (ViewAttestEnclave e))
  | Ok _ => (mkViewEnclave (Some (ETxOutStore_new desired_capacity)) ake, Ok tt)
  end.

(** [req.get_txos.iter().map(|key| store.find_record(key)).collect()]. *)
Fixpoint find_records (store : ETxOutStore) (keys : list bytes)
  : run (ETxOutStore * list TxOutSearchResult) :=
  match keys with
  | [] => Ret (store, [])
  | key :: keys =>
      '(store, res) ← find_record store key;
      '(store, rest) ← find_records store keys;
      Ret (store, res :: rest)
  end.

(** Sort the user events into the three lists of the response. *)
Definition push_event
  (acc : list BlockRange * list RngRecord * list DecommissionedIngestInvocation)
  (event : FogUserEvent)
  : list BlockRange * list RngRecord * list DecommissionedIngestInvocation :=
  let '(missed, rngs, decommissioned) := acc in
  match event with
  | NewRngRecord rng_record => (missed, rngs ++ [rng_record], decommissioned)
  | DecommissionIngestInvocation d => (missed, rngs, decommissioned ++ [d])
  | MissingBlocks range => (missed ++ [range], rngs, decommissioned)
  end.

Definition query_response (untrusted : UntrustedQueryResponse)
  (tx_out_search_results : list TxOutSearchResult) : QueryResponse :=
  let '(missed, rngs, decommissioned) := foldl push_event ([], [], []) (uqr_user_events untrusted) in
  {| qresp_highest_processed_block_count := uqr_highest_processed_block_count untrusted;
     qresp_highest_processed_block_signature_timestamp :=
       uqr_highest_processed_block_signature_timestamp untrusted;
     qresp_next_start_from_user_event_id := uqr_next_start_from_user_event_id untrusted;
     qresp_missed_block_ranges := missed;
     qresp_rng_records := rngs;
     qresp_decommissioned_ingest_invocations := decommissioned;
     qresp_tx_out_search_results := tx_out_search_results;
     qresp_last_known_block_count := uqr_last_known_block_count untrusted;
     qresp_last_known_block_cumulative_txo_count :=
       uqr_last_known_block_cumulative_txo_count untrusted |}.

Definition enclave_query (self : ViewEnclave) (msg : EnclaveMessage)
  (untrusted : UntrustedQueryResponse) : run (ViewEnclave * result bytes ViewEnclaveError) :=
  let channel := channel_id msg in
  let '(user_plaintext, ake) := client_decrypt (ve_ake self) msg in
  let self := mkViewEnclave (ve_e_tx_out_store self) ake in
  match user_plaintext with
  | Err e => Ret (self, Err (ViewAttestEnclave e))
  | Ok user_plaintext =>
      match decode_query_request user_plaintext with
      | None => Ret (self, Err ViewProstDecode)
      | Some req =>
          match ve_e_tx_out_store self with
          | None => Ret (self, Err ViewEnclaveNotInitialized)
          | Some store =>
              '(store, results) ← find_records store (qr_get_txos req);
              let response_plaintext_bytes :=
                encode_query_response (query_response untrusted results) in
              let '(response, ake) := client_encrypt (ve_ake self) channel response_plaintext_bytes in
              Ret (mkViewEnclave (Some store) ake, map_err ViewAttestEnclave response)
          end
      end
  end.

(** [add_records] stops at the first record that is rejected; the records
    before it stay. *)
Fixpoint add_records_loop (store : ETxOutStore) (records : list ETxOutRecord)
  : run (ETxOutStore * result unit AddRecordsError) :=
  match records with
  | [] => Ret (store, Ok tt)
  | rec :: records =>
      '(store, r) ← add_record store (etr_search_key rec) (etr_payload rec);
      match r with
      | Err e => Ret (store, Err e)
      | Ok _ => add_records_loop store records
      end
  end.

Definition enclave_add_records (self : ViewEnclave) (records : list ETxOutRecord)
  : run (ViewEnclave * result unit ViewEnclaveError) :=
  match ve_e_tx_out_store self with
  | None => Ret (self, Err ViewEnclaveNotInitialized)
  | Some store =>
      '(store, r) ← add_records_loop store records;
      Ret (mkViewEnclave (Some store) (ve_ake self), map_err ViewAddRecords r)
  end.
End enclave.

(** ** The store as a finite map *)

Section store_correct.
Context `{O : ObliviousHashMap} `{L : !ObliviousHashMapLaws O}.
Implicit Types (self : ETxOutStore) (ct key : bytes).

(** The wire format: the unused size, the ciphertext, zero padding. *)
Definition encode_value ct : bytes :=
  Z.of_nat (ValueSize - 1 - length ct) :: ct ++ replicate (ValueSize - 1 - length ct) 0.

Definition decode_value (v : bytes) : bytes :=
  match v with
  | size_byte :: rest => take (ValueSize - 1 - Z.to_nat size_byte) rest
  | [] => []
  end.

Record store_wf self : Prop := {
  store_wf_last : 0 <= ets_last_ciphertext_size_byte self <= 239;
  store_wf_entry : forall k v, omap_view (ets_omap self) !! k = Some v ->
    length k = KeySize /\ exists ct, (length ct <= 239)%nat /\ v = encode_value ct;
}.

(** The records in the store, by search key. *)
Definition store_map self : gmap (list Z) bytes := decode_value <$> omap_view (ets_omap self).

(** The length of the last ciphertext offered to the store. *)
Definition last_length self : nat :=
  (ValueSize - 1 - Z.to_nat (ets_last_ciphertext_size_byte self))%nat.

Lemma encode_value_length ct : (length ct <= 239)%nat -> length (encode_value ct) = ValueSize.
Proof.
  intros H; unfold encode_value, ValueSize; simpl; rewrite length_app, length_replicate; lia.
Qed.

Lemma decode_encode_value ct : (length ct <= 239)%nat -> decode_value (encode_value ct) = ct.
Proof.
  intros H; unfold decode_value, encode_value, ValueSize; rewrite Nat2Z.id.
  replace (240 - 1 - (240 - 1 - length ct))%nat with (length ct) by lia; apply take_app_length.
Qed.

Lemma add_record_value ct :
  (length ct <= 239)%nat ->
  let size_byte := as_u8 (Z.of_nat (ValueSize - 1 - length ct)) in
  size_byte = Z.of_nat (ValueSize - 1 - length ct)
  /\ copy_into (<[0%nat := size_byte]> (replicate ValueSize 0)) 1
       (ValueSize - Z.to_nat size_byte) ct = Ret (encode_value ct).
Proof.
  intros H size_byte; subst size_byte; unfold as_u8, ValueSize.
  rewrite Z.mod_small by lia; split; [done|]; rewrite Nat2Z.id.
  rewrite copy_into_ret.
  - change (replicate 240 0) with (0 :: replicate 239 0); cbn [insert list_insert].
    replace (240 - (240 - 1 - length ct))%nat with (S (length ct)) by lia.
    rewrite firstn_cons, take_0, skipn_cons, drop_replicate.
    unfold encode_value, ValueSize; cbn [app]; repeat f_equal; lia.
  - lia.
  - rewrite length_insert, length_replicate; lia.
  - lia.
Qed.

Lemma add_record_spec self key ct :
  store_wf self ->
  exists self' r, add_record self key ct = Ret (self', r) /\ store_wf self'
  /\ match r with
     | Ok _ => length key = KeySize /\ (length ct < ValueSize)%nat /\ omap_valid_key key = true
         /\ store_map self' = <[key := ct]> (store_map self) /\ last_length self' = length ct
     | Err e => store_map self' = store_map self
         /\ match e with
            | KeyWrongSize => length key <> KeySize /\ self' = self
            | ValueTooLarge => (ValueSize <= length ct)%nat /\ self' = self
            | ValueWrongSize => False
            | KeyRejected => omap_valid_key key = false /\ last_length self' = length ct
            | MapOverflow _ _ => omap_valid_key key = true /\ last_length self' = length ct
            end
     end.
Proof.
  intros Hwf; unfold add_record.
  destruct (length key =? KeySize)%nat eqn:Hk; cbn [negb].
  2:{ apply Nat.eqb_neq in Hk; exists self, (Err KeyWrongSize); done. }
  apply Nat.eqb_eq in Hk.
  destruct (ValueSize - 1 <? length ct)%nat eqn:Hv.
  { apply Nat.ltb_lt in Hv; exists self, (Err ValueTooLarge); split_and!; try done; lia. }
  apply Nat.ltb_ge in Hv; rewrite (proj2 (Nat.ltb_ge _ _)) by (unfold ValueSize; lia).
  destruct (add_record_value ct Hv) as [Hsb ->]; rewrite Hsb; cbn [mbind run_bind].
  destruct (omap_vartime_write (ets_omap self) key (encode_value ct)) as [code o'] eqn:Hw.
  pose proof (omap_write_spec _ _ _ _ _ Hw) as Hspec.
  pose proof (omap_write_valid (ets_omap self) key (encode_value ct)) as Hval.
  rewrite Hw in Hval; simpl in Hval.
  pose proof omap_codes as Hcodes; rewrite !NoDup_cons in Hcodes.
  set (self' := mkETxOutStore o' _).
  assert (Hlast : last_length self' = length ct)
    by (unfold last_length, self'; cbn [ets_last_ciphertext_size_byte];
        rewrite Nat2Z.id; unfold ValueSize in *; lia).
  assert (Hlast' : 0 <= ets_last_ciphertext_size_byte self' <= 239)
    by (subst self'; cbn [ets_last_ciphertext_size_byte]; unfold ValueSize; lia).
  destruct Hspec as [(Hvk & Hcode & Hview)|(Hcode & Hview)].
  - assert (Hwf' : store_wf self').
    { split; [done|]; subst self'; simpl; rewrite Hview; intros k v.
      rewrite lookup_insert_Some; intros [[<- <-]|[_ Hv']]; [eauto|by apply (store_wf_entry _ Hwf)]. }
    assert (Hmap : store_map self' = <[key := ct]> (store_map self)).
    { unfold store_map; subst self'; simpl; rewrite Hview, fmap_insert.
      by rewrite decode_encode_value. }
    exists self', (Ok tt); split; [|split_and!; auto; unfold ValueSize in *; lia].
    destruct (code =? OMAP_INVALID_KEY) eqn:H1; bool_to_prop; [naive_solver congruence|].
    destruct (code =? OMAP_OVERFLOW) eqn:H2; bool_to_prop; [set_solver|].
    destruct (code =? OMAP_FOUND) eqn:H3; bool_to_prop; [done|].
    destruct (code =? OMAP_NOT_FOUND) eqn:H4; bool_to_prop; [done|naive_solver].
  - assert (Hwf' : store_wf self').
    { split; [done|]; subst self'; simpl; rewrite Hview; apply (store_wf_entry _ Hwf). }
    assert (Hmap : store_map self' = store_map self)
      by (unfold store_map; subst self'; simpl; by rewrite Hview).
    destruct (code =? OMAP_INVALID_KEY) eqn:H1; bool_to_prop.
    { exists self', (Err KeyRejected); split_and!; try done; naive_solver. }
    assert (code = OMAP_OVERFLOW) as -> by naive_solver.
    rewrite Z.eqb_refl; eexists self', (Err (MapOverflow _ _)); split_and!; try done.
    destruct (omap_valid_key key); [done|naive_solver].
Qed.

Lemma slice_encode_value ct :
  (length ct <= 239)%nat ->
  encode_value ct !! 0%nat = Some (Z.of_nat (ValueSize - 1 - length ct))
  /\ slice (encode_value ct) 1 (ValueSize - Z.to_nat (Z.of_nat (ValueSize - 1 - length ct))) = Ret ct.
Proof.
  intros H; split; [done|]; rewrite Nat2Z.id; unfold ValueSize.
  rewrite slice_ret by (rewrite ?encode_value_length; unfold ValueSize; lia).
  unfold encode_value; simpl drop; f_equal.
  replace (240 - (240 - 1 - length ct) - 1)%nat with (length ct) by lia; apply take_app_length.
Qed.

(** The buffer of a miss is the encoding of a zero ciphertext of the last
    length. *)
Lemma miss_buffer self :
  store_wf self ->
  <[0%nat := ets_last_ciphertext_size_byte self]> (replicate ValueSize 0)
  = encode_value (replicate (last_length self) 0).
Proof.
  intros [Hl _]; unfold encode_value; rewrite length_replicate.
  change (replicate ValueSize 0) with (0 :: replicate 239 0); cbn [insert list_insert]; f_equal.
  - unfold last_length, ValueSize; lia.
  - rewrite <- replicate_add; f_equal; unfold last_length, ValueSize; lia.
Qed.

Lemma vec_resize_length {A} (v : list A) n x : length (vec_resize v n x) = n.
Proof. unfold vec_resize; rewrite length_app, length_take, length_replicate; lia. Qed.

Lemma copy_into_whole {A} (v src : list A) :
  length src = length v -> copy_into v 0 (length v) src = Ret src.
Proof.
  intros H; rewrite copy_into_ret by lia; by rewrite take_0, drop_all, app_nil_r.
Qed.

(** The answer the store promises for a key. *)
Definition find_spec self key : TxOutSearchResult :=
  let padding := replicate (last_length self) 0 in
  if negb (length key =? KeySize)%nat || negb (omap_valid_key key)
  then mkTxOutSearchResult key (TxOutSearchResultCode_as_u32 BadSearchKey) padding
  else match store_map self !! key with
       | Some ct => mkTxOutSearchResult key (TxOutSearchResultCode_as_u32 Found) ct
       | None => mkTxOutSearchResult key (TxOutSearchResultCode_as_u32 NotFound) padding
       end.

Lemma find_record_spec self key :
  store_wf self ->
  exists self', find_record self key = Ret (self', find_spec self key) /\ store_wf self'
    /\ store_map self' = store_map self /\ last_length self' = last_length self.
Proof.
  intros Hwf; unfold find_record, find_spec; fold (last_length self).
  destruct (length key =? KeySize)%nat eqn:Hk; cbn [negb orb]; [|exists self; done].
  rewrite miss_buffer by done.
  destruct (omap_read _ key _) as [[code buf] o'] eqn:Hr.
  apply omap_read_spec in Hr as [Hview Hr].
  pose proof omap_codes as Hcodes; rewrite !NoDup_cons in Hcodes.
  set (self' := mkETxOutStore o' _).
  assert (Hmap : store_map self' = store_map self)
    by (unfold store_map; subst self'; simpl; by rewrite Hview).
  assert (Hwf' : store_wf self')
    by (split; [apply Hwf|]; subst self'; simpl; rewrite Hview; apply Hwf).
  assert (Hpad : (length (replicate (last_length self) 0%Z) <= 239)%nat)
    by (rewrite length_replicate; unfold last_length, ValueSize; lia).
  assert (Hbuf : forall ct rc, (length ct <= 239)%nat -> buf = encode_value ct ->
    (value0 ← unwrap (buf !! 0%nat);
     data ← slice buf 1 (ValueSize - Z.to_nat value0);
     ciphertext ← copy_into (vec_resize (replicate (last_length self) 0)
        (ValueSize - 1 - Z.to_nat value0) 0) 0
        (length (vec_resize (replicate (last_length self) 0) (ValueSize - 1 - Z.to_nat value0) 0)) data;
     Ret (self', mkTxOutSearchResult key rc ciphertext))
    = Ret (self', mkTxOutSearchResult key rc ct)).
  { intros ct rc Hct ->; destruct (slice_encode_value ct Hct) as [H0 H1].
    rewrite H0; cbn [unwrap mbind run_bind]; rewrite H1; cbn [mbind run_bind].
    rewrite copy_into_whole; [done|]; rewrite vec_resize_length, Nat2Z.id; unfold ValueSize; lia. }
  exists self'; split; [|done].
  destruct (omap_valid_key key).
  - unfold store_map; rewrite lookup_fmap.
    destruct (omap_view (ets_omap self) !! key) as [v|] eqn:Hv; cbn [fmap option_fmap option_map];
      destruct Hr as [-> ->].
    + destruct (store_wf_entry _ Hwf _ _ Hv) as (_ & ct & Hct & ->).
      rewrite (Hbuf ct) by done; rewrite decode_encode_value by done.
      rewrite Z.eqb_refl, (proj2 (Z.eqb_neq _ _)), (proj2 (Z.eqb_neq _ _)) by set_solver; done.
    + rewrite (Hbuf (replicate (last_length self) 0) _ Hpad eq_refl).
      rewrite Z.eqb_refl, (proj2 (Z.eqb_neq OMAP_NOT_FOUND OMAP_INVALID_KEY)) by set_solver; done.
  - destruct Hr as [-> ->]; rewrite (Hbuf (replicate (last_length self) 0) _ Hpad eq_refl).
    rewrite Z.eqb_refl; done.
Qed.
End store_correct.

(** ** The enclave calls *)

Section enclave_lemmas.
Context `{O : ObliviousHashMap} `{L : !ObliviousHashMapLaws O} `{A : Ake} `{C : ViewCodec}.

Lemma ETxOutStore_new_wf cap : store_wf (ETxOutStore_new cap).
Proof.
  split; simpl; [lia|]; intros k v; by rewrite omap_create_view, lookup_empty.
Qed.

Lemma ETxOutStore_new_map cap : store_map (ETxOutStore_new cap) = ∅.
Proof. unfold store_map; simpl; by rewrite omap_create_view, fmap_empty. Qed.

Lemma find_spec_ext s s' key :
  store_map s' = store_map s -> last_length s' = last_length s -> find_spec s' key = find_spec s key.
Proof. intros Hm Hl; unfold find_spec; by rewrite Hm, Hl. Qed.

Lemma find_records_spec s keys :
  store_wf s ->
  exists s', find_records s keys = Ret (s', find_spec s <$> keys) /\ store_wf s'
    /\ store_map s' = store_map s /\ last_length s' = last_length s.
Proof.
  revert s; induction keys as [|key keys IH]; intros s Hwf; simpl; [by exists s|].
  destruct (find_record_spec s key Hwf) as (s1 & -> & Hwf1 & Hm1 & Hl1); simpl.
  destruct (IH s1 Hwf1) as (s2 & -> & Hwf2 & Hm2 & Hl2); simpl.
  exists s2; split_and!; [|done|congruence|congruence].
  do 3 f_equal; apply list_fmap_ext; intros _ k _; by apply find_spec_ext.
Qed.

(** The map after adding records in order. *)
Definition insert_records (m : gmap (list Z) bytes) (records : list ETxOutRecord)
  : gmap (list Z) bytes :=
  foldl (fun m rec => <[etr_search_key rec := etr_payload rec]> m) m records.

Lemma add_records_loop_spec s records :
  store_wf s ->
  exists s' r, add_records_loop s records = Ret (s', r) /\ store_wf s'
    /\ match r with
       | Ok _ => store_map s' = insert_records (store_map s) records
           /\ (forall rec, last records = Some rec -> last_length s' = length (etr_payload rec))
       | Err _ => exists done, store_map s' = insert_records (store_map s) done
           /\ (exists rec rest, records = done ++ rec :: rest)
       end.
Proof.
  revert s; induction records as [|rec records IH]; intros s Hwf; simpl.
  { exists s, (Ok tt); done. }
  destruct (add_record_spec s (etr_search_key rec) (etr_payload rec) Hwf)
    as (s1 & r & -> & Hwf1 & Hr); simpl; destruct r as [u|e].
  - destruct Hr as (_ & _ & _ & Hm1 & Hl1).
    destruct (IH s1 Hwf1) as (s2 & r2 & Heq & Hwf2 & Hr2); rewrite Heq.
    exists s2, r2; split_and!; [done|done|]; destruct r2 as [u2|e2].
    + destruct Hr2 as [Hm2 Hl2]; split; [by rewrite Hm2, Hm1|].
      intros rec'; destruct records as [|rec2 records]; [|by apply Hl2].
      simpl in *; intros [= <-]; congruence.
    + destruct Hr2 as (dn & Hm2 & rec' & rest & ->).
      exists (rec :: dn); split; [by rewrite Hm2, Hm1|by exists rec', rest].
  - exists s1, (Err e); split_and!; [done|done|].
    exists []; split; [apply Hr|by exists rec, records].
Qed.
End enclave_lemmas.

(** ** Correctness *)

Section view_enclave_correct.
Context `{O : ObliviousHashMap} `{L : !ObliviousHashMapLaws O} `{A : Ake} `{C : ViewCodec}.

(** Adding a record never panics; it succeeds only for a key of the right
    size and a ciphertext that fits, in which case the store becomes the old
    map with that key bound to that ciphertext, and on every error the map is
    unchanged and the error names its cause. *)
Theorem add_record_correct (self : ETxOutStore) (key ct : bytes) :
  store_wf self ->
  exists self' r, add_record self key ct = Ret (self', r) /\ store_wf self'
  /\ match r with
     | Ok _ => length key = KeySize /\ (length ct < ValueSize)%nat /\ omap_valid_key key = true
         /\ store_map self' = <[key := ct]> (store_map self) /\ last_length self' = length ct
     | Err e => store_map self' = store_map self
         /\ match e with
            | KeyWrongSize => length key <> KeySize /\ self' = self
            | ValueTooLarge => (ValueSize <= length ct)%nat /\ self' = self
            | ValueWrongSize => False
            | KeyRejected => omap_valid_key key = false /\ last_length self' = length ct
            | MapOverflow _ _ => omap_valid_key key = true /\ last_length self' = length ct
            end
     end.
Proof. apply add_record_spec. Qed.

(** Looking a key up never panics, does not change the stored map, and
    answers: a bad key for a key of the wrong size or one the map rejects,
    found with exactly the stored ciphertext, or not found with zero padding
    of the length of the last stored ciphertext. *)
Theorem find_record_correct (self : ETxOutStore) (key : bytes) :
  store_wf self ->
  exists self', find_record self key = Ret (self',
      let padding := replicate (last_length self) 0 in
      if negb (length key =? KeySize)%nat || negb (omap_valid_key key)
      then mkTxOutSearchResult key (TxOutSearchResultCode_as_u32 BadSearchKey) padding
      else match store_map self !! key with
           | Some ct => mkTxOutSearchResult key (TxOutSearchResultCode_as_u32 Found) ct
           | None => mkTxOutSearchResult key (TxOutSearchResultCode_as_u32 NotFound) padding
           end)
    /\ store_wf self' /\ store_map self' = store_map self /\ last_length self' = last_length self.
Proof. apply find_record_spec. Qed.

(** Hits and misses look alike.  In a store filled with records of one
    length, every lookup, whatever its outcome, returns a ciphertext of that
    length. *)
Theorem lookup_length_uniform cap records self self' len key res :
  Forall (fun rec => length (etr_payload rec) = len) records -> records <> [] ->
  add_records_loop (ETxOutStore_new cap) records = Ret (self, Ok tt) ->
  find_record self key = Ret (self', res) ->
  length (tsr_ciphertext res) = len.
Proof.
  intros Hlen Hne Hadd Hfind.
  destruct (add_records_loop_spec _ records (ETxOutStore_new_wf cap)) as (s & r & Heq & Hwf & Hr).
  rewrite Heq in Hadd; simplify_eq; destruct Hr as [Hmap Hlast].
  destruct (find_record_spec self key Hwf) as (s' & Heq' & _).
  rewrite Heq' in Hfind; simplify_eq.
  assert (Hll : last_length self = len).
  { destruct (last records) as [rec|] eqn:Hl; [|by apply last_None in Hl].
    rewrite (Hlast rec eq_refl); rewrite Forall_forall in Hlen; apply Hlen.
    by apply last_Some_elem_of. }
  assert (Hall : forall m k ct, (forall k' ct', m !! k' = Some ct' -> length ct' = len) ->
    insert_records m records !! k = Some ct -> length ct = len).
  { clear -Hlen; induction Hlen as [|rec records Hrec Hlen IH]; intros m k ct Hm; simpl; [apply Hm|].
    apply IH; intros k' ct'; rewrite lookup_insert_Some; intros [[_ <-]|[_ ?]]; eauto. }
  unfold find_spec; case_match; simpl; [by rewrite length_replicate|].
  destruct (store_map self !! key) as [ct|] eqn:Hct; simpl; [|by rewrite length_replicate].
  rewrite Hmap, ETxOutStore_new_map in Hct; eapply Hall; [|exact Hct].
  intros ? ?; by rewrite lookup_empty.
Qed.

(** A query on an initialised enclave never panics; when the request
    decrypts and decodes, the response that is encrypted carries the answers
    of the store for the requested keys in order, the user events sorted by
    kind, and the untrusted counters unchanged, and the stored records stay
    as they are. *)
Theorem enclave_query_correct (self : ViewEnclave) store msg untrusted plaintext ake req :
  ve_e_tx_out_store self = Some store -> store_wf store ->
  client_decrypt (ve_ake self) msg = (Ok plaintext, ake) ->
  decode_query_request plaintext = Some req ->
  exists self' store' response,
    enclave_query self msg untrusted
    = Ret (self', map_err ViewAttestEnclave
        (client_encrypt ake (channel_id msg) (encode_query_response response)).1)
    /\ ve_e_tx_out_store self' = Some store' /\ store_wf store' /\ store_map store' = store_map store
    /\ qresp_tx_out_search_results response = (find_spec store <$> qr_get_txos req)
    /\ qresp_rng_records response
       = omap (fun e => match e with NewRngRecord r => Some r | _ => None end)
           (uqr_user_events untrusted)
    /\ qresp_decommissioned_ingest_invocations response
       = omap (fun e => match e with DecommissionIngestInvocation d => Some d | _ => None end)
           (uqr_user_events untrusted)
    /\ qresp_missed_block_ranges response
       = omap (fun e => match e with MissingBlocks r => Some r | _ => None end)
           (uqr_user_events untrusted)
    /\ qresp_highest_processed_block_count response = uqr_highest_processed_block_count untrusted
    /\ qresp_next_start_from_user_event_id response = uqr_next_start_from_user_event_id untrusted.
Proof.
  intros Hst Hwf Hdec Hreq; unfold enclave_query; rewrite Hdec, Hreq, Hst; simpl.
  destruct (find_records_spec store (qr_get_txos req) Hwf) as (store' & -> & Hwf' & Hm & _); simpl.
  set (resp := query_response untrusted (find_spec store <$> qr_get_txos req)).
  assert (Hev : foldl push_event ([], [], []) (uqr_user_events untrusted)
    = (omap (fun e => match e with MissingBlocks r => Some r | _ => None end)
         (uqr_user_events untrusted),
       omap (fun e => match e with NewRngRecord r => Some r | _ => None end)
         (uqr_user_events untrusted),
       omap (fun e => match e with DecommissionIngestInvocation d => Some d | _ => None end)
         (uqr_user_events untrusted))).
  { induction (uqr_user_events untrusted) as [|e es IH] using rev_ind; [done|].
    rewrite foldl_snoc, IH, !omap_app; by destruct e; simpl; rewrite ?app_nil_r. }
  destruct (client_encrypt ake (channel_id msg) (encode_query_response resp)) as [r ake'] eqn:Henc.
  exists (mkViewEnclave (Some store') ake'), store', resp; rewrite Henc.
  split_and!; try done; unfold resp, query_response; by rewrite Hev.
Qed.
End view_enclave_correct.

(** *** A concrete channel and codec *)

#[export] Instance demo_ake : Ake := {|
  AkeState := unit;
  EnclaveMessage := list Z;
  ChannelId := unit;
  AttestEnclaveError := unit;
  ResponderId := unit;
  channel_id := fun _ => tt;
  ake_init := fun s _ => (Ok tt, s);
  client_decrypt := fun s m => (Ok m, s);
  client_encrypt := fun s _ bs => (Ok bs, s);
|}.

#[export] Instance demo_codec : ViewCodec := {|
  decode_query_request := fun bs => Some (mkQueryRequest [bs]);
  encode_query_response := fun r => mjoin (tsr_ciphertext <$> qresp_tx_out_search_results r);
|}.

Definition demo_key (i : Z) : bytes := replicate 16 i.
Definition demo_payload (i : Z) : bytes := replicate 200 i.
Definition demo_records_list : list ETxOutRecord :=
  [mkETxOutRecord (demo_key 1) (demo_payload 7); mkETxOutRecord (demo_key 2) (demo_payload 8)].

Lemma add_record_correct_witness :
  exists self', add_record (ETxOutStore_new 8) (demo_key 1) (demo_payload 7) = Ret (self', Ok tt)
    /\ store_map self' !! demo_key 1 = Some (demo_payload 7).
Proof.
  destruct (add_record_correct (ETxOutStore_new 8) (demo_key 1) (demo_payload 7)
    (ETxOutStore_new_wf 8)) as (self' & r & Heq & _ & Hr).
  assert (Hok : snd <$> run_ok (add_record (ETxOutStore_new 8) (demo_key 1) (demo_payload 7))
    = Some (Ok tt)) by (vm_compute; reflexivity).
  rewrite Heq in Hok; injection Hok as ->; exists self'; split; [exact Heq|].
  destruct Hr as (_ & _ & _ & -> & _); apply lookup_insert_eq.
Defined.

Lemma find_record_correct_witness :
  exists self', find_record (ETxOutStore_new 8) (demo_key 1)
    = Ret (self', mkTxOutSearchResult (demo_key 1) 2 (replicate 239 0)).
Proof.
  destruct (find_record_correct (ETxOutStore_new 8) (demo_key 1) (ETxOutStore_new_wf 8))
    as (self' & Heq & _).
  exists self'; rewrite Heq; vm_compute; reflexivity.
Defined.

Lemma lookup_length_uniform_witness :
  exists self self' res, add_records_loop (ETxOutStore_new 8) demo_records_list = Ret (self, Ok tt)
    /\ find_record self (demo_key 3) = Ret (self', res) /\ length (tsr_ciphertext res) = 200%nat.
Proof.
  assert (Hr : snd <$> run_ok (add_records_loop (ETxOutStore_new 8) demo_records_list)
    = Some (Ok tt)) by (vm_compute; reflexivity).
  assert (Hb : is_Some (run_ok ('(s, _) ← add_records_loop (ETxOutStore_new 8) demo_records_list;
    find_record s (demo_key 3)))) by (apply (bool_decide_unpack _); vm_compute; exact I).
  destruct (add_records_loop (ETxOutStore_new 8) demo_records_list) as [[self r]|] eqn:Ha;
    [|discriminate].
  injection Hr as ->; cbn [mbind run_bind] in Hb.
  destruct (find_record self (demo_key 3)) as [[self' res]|] eqn:Hf;
    [|destruct Hb as [? Hb]; discriminate].
  exists self, self', res; split; [reflexivity|split; [exact Hf|]].
  apply (lookup_length_uniform 8 demo_records_list self self' 200 (demo_key 3) res);
    [repeat constructor|discriminate|exact Ha|exact Hf].
Defined.

Definition demo_enclave : @ViewEnclave demo_omap demo_ake :=
  @mkViewEnclave demo_omap demo_ake (Some (ETxOutStore_new 8)) tt.

Lemma enclave_query_correct_witness :
  exists self', @enclave_query demo_omap demo_ake demo_codec demo_enclave (demo_key 1)
      (mkUntrustedQueryResponse [] 0 5 0 5 9) = Ret (self', Ok (replicate 239 0)).
Proof.
  destruct (@enclave_query_correct demo_omap demo_omap_laws demo_ake demo_codec demo_enclave
    (ETxOutStore_new 8) (demo_key 1) (mkUntrustedQueryResponse [] 0 5 0 5 9) (demo_key 1) tt
    (mkQueryRequest [demo_key 1]) eq_refl (ETxOutStore_new_wf 8) eq_refl eq_refl)
    as (self' & store' & response & Heq & _ & _ & _ & Hres & _).
  exists self'; rewrite Heq.
  assert (Hdata : encode_query_response response = replicate 239 0).
  { unfold encode_query_response; simpl; rewrite Hres; vm_compute; reflexivity. }
  rewrite Hdata; reflexivity.
Defined.
