(* ===== verification/RecoveryDb.v ===== *)
(** * The SQL recovery database (src/fog/sql_recovery_db)

    The tables of the migration, with their primary keys, unique and foreign
    key constraints, and every operation of [RecoveryDb] and [ReportDb] on
    them.  A transaction is a state-passing computation; an error rolls the
    tables back but not the id sequences, as in PostgreSQL.  Statements on a
    connection obtained from the pool are taken to execute; [pool] is the
    outcome of asking the pool for a connection.  Numbers are stored as [i64]
    and cast with [as]; the protobuf codecs are parameters. *)

From S2P Require Import Prelude FogTypes RecoveryTypes.

Local Open Scope Z_scope.
Local Open Scope fog_scope.

(** ** Rows (models.rs, up.sql) *)

Record IngressKey := mkIngressKey {
  ik_start_block : Z;
  ik_pubkey_expiry : Z;
  ik_retired : bool;
  ik_lost : bool;
}.

Record IngestInvocation := mkIngestInvocation {
  ii_id : Z;
  ii_ingress_public_key : bytes;
  ii_egress_public_key : bytes;
  ii_last_active_at : Z;
  ii_start_block : Z;
  ii_decommissioned : bool;
  ii_rng_version : Z;
}.

Record IngestedBlock := mkIngestedBlock {
  ib_id : Z;
  ib_ingest_invocation_id : Z;
  ib_ingress_public_key : bytes;
  ib_block_number : Z;
  ib_cumulative_txo_count : Z;
  ib_block_signature_timestamp : Z;
  ib_proto_ingested_block_data : bytes;
}.

Inductive UserEventType :=
| EventNewIngestInvocation
| EventDecommissionIngestInvocation
| EventMissingBlocks.

#[export] Instance UserEventType_eq_dec : EqDecision UserEventType.
Proof. solve_decision. Defined.

Record UserEvent := mkUserEvent {
  ue_id : Z;
  ue_event_type : UserEventType;
  ue_new_ingest_invocation_id : option Z;
  ue_decommission_ingest_invocation_id : option Z;
  ue_missing_blocks_start : option Z;
  ue_missing_blocks_end : option Z;
}.

Record ReportRow := mkReportRow {
  rp_id : Z;
  rp_ingress_public_key : bytes;
  rp_ingest_invocation_id : option Z;
  rp_fog_report_id : bytes;
  rp_report : bytes;
  rp_pubkey_expiry : Z;
}.

#[export] Instance IngressKey_eq_dec : EqDecision IngressKey.
Proof. solve_decision. Defined.

(** The database: the tables and the id sequences. *)
Record Db := mkDb {
  db_ingress_keys : gmap (list Z) IngressKey;
  db_ingest_invocations : list IngestInvocation;
  db_ingested_blocks : list IngestedBlock;
  db_user_events : list UserEvent;
  db_reports : list ReportRow;
  db_next_invocation : Z;
  db_next_block : Z;
  db_next_event : Z;
  db_next_report : Z;
}.

Definition db_empty : Db := mkDb ∅ [] [] [] [] 1 1 1 1.

(** Setters, one per table. *)
Definition set_keys (f : gmap (list Z) IngressKey -> gmap (list Z) IngressKey) (d : Db) : Db :=
  mkDb (f (db_ingress_keys d)) (db_ingest_invocations d) (db_ingested_blocks d)
    (db_user_events d) (db_reports d) (db_next_invocation d) (db_next_block d)
    (db_next_event d) (db_next_report d).

Definition set_invocations (l : list IngestInvocation) (next : Z) (d : Db) : Db :=
  mkDb (db_ingress_keys d) l (db_ingested_blocks d) (db_user_events d) (db_reports d)
    next (db_next_block d) (db_next_event d) (db_next_report d).

Definition set_blocks (l : list IngestedBlock) (next : Z) (d : Db) : Db :=
  mkDb (db_ingress_keys d) (db_ingest_invocations d) l (db_user_events d) (db_reports d)
    (db_next_invocation d) next (db_next_event d) (db_next_report d).

Definition set_events (l : list UserEvent) (next : Z) (d : Db) : Db :=
  mkDb (db_ingress_keys d) (db_ingest_invocations d) (db_ingested_blocks d) l (db_reports d)
    (db_next_invocation d) (db_next_block d) next (db_next_report d).

Definition set_reports (l : list ReportRow) (next : Z) (d : Db) : Db :=
  mkDb (db_ingress_keys d) (db_ingest_invocations d) (db_ingested_blocks d) (db_user_events d) l
    (db_next_invocation d) (db_next_block d) (db_next_event d) next.

(** Roll the tables of [d'] back to those of [d], keeping the sequences. *)
Definition rollback (d d' : Db) : Db :=
  mkDb (db_ingress_keys d) (db_ingest_invocations d) (db_ingested_blocks d)
    (db_user_events d) (db_reports d) (db_next_invocation d') (db_next_block d')
    (db_next_event d') (db_next_report d').

(** ** Errors (error.rs) *)

Inductive DieselError :=
| UniqueViolation
| ForeignKeyViolation
| DieselNotFound.

Inductive DbError :=
| Orm (e : DieselError)
| R2d2 (e : Z)
| Connection (e : Z)
| MissingIngressKey (key : bytes)
| UserEventSchemaViolation (id : Z)
| IngressKeysSchemaViolation
| IngestedBlockSchemaViolation
| InvalidMissedBlocksRange (range : BlockRange)
| OverlappingMissedBlocksRange (a b : BlockRange)
| DbDecode (e : Z)
| DbEncode (e : Z).

#[export] Instance DieselError_eq_dec : EqDecision DieselError.
Proof. solve_decision. Defined.
#[export] Instance DbError_eq_dec : EqDecision DbError.
Proof. solve_decision. Defined.

(** ** Computations on the database *)

Definition tx (A : Type) : Type := Db -> result A DbError * Db.

#[export] Instance tx_ret : MRet tx := fun A a d => (Ok a, d).
#[export] Instance tx_bind : MBind tx := fun A B f m d =>
  match m d with
  | (Ok a, d') => f a d'
  | (Err e, d') => (Err e, d')
  end.

Definition tx_err {A} (e : DbError) : tx A := fun d => (Err e, d).
Definition tx_lift {A} (r : result A DbError) : tx A := fun d => (r, d).
Definition tx_get {A} (f : Db -> A) : tx A := fun d => (Ok (f d), d).
Definition tx_modify (f : Db -> Db) : tx unit := fun d => (Ok tt, f d).

(** [conn.build_transaction().read_write().run(..)]. *)
Definition transaction {A} (m : tx A) : tx A := fun d =>
  match m d with
  | (Ok a, d') => (Ok a, d')
  | (Err e, d') => (Err e, rollback d d')
  end.

(** [self.pool.get()?]. *)
Definition with_conn {A} (pool : result unit Z) (m : tx A) : tx A := fun d =>
  match pool with
  | Ok _ => m d
  | Err e => (Err (R2d2 e), d)
  end.

(** ** Inserts, with the constraints of the tables

    A sequence value is drawn before the constraints are checked; unique indexes
    are checked before foreign keys. *)

Definition has_invocation (d : Db) (id : Z) : bool :=
  existsb (fun r => ii_id r =? id) (db_ingest_invocations d).

Definition insert_ingest_invocation (ingress egress : bytes) (now start_block : Z)
  (rng_version : Z) : tx Z := fun d =>
  let id := db_next_invocation d in
  let d' := set_invocations (db_ingest_invocations d) (id + 1) d in
  if existsb (fun r => bool_decide (ii_egress_public_key r = egress)) (db_ingest_invocations d)
  then (Err (Orm UniqueViolation), d')
  else if bool_decide (db_ingress_keys d !! ingress = None)
  then (Err (Orm ForeignKeyViolation), d')
  else (Ok id, set_invocations (db_ingest_invocations d ++
          [mkIngestInvocation id ingress egress now start_block false rng_version]) (id + 1) d).

Definition insert_ingested_block (iid : Z) (ingress : bytes)
  (block_number cumulative_txo_count timestamp : Z) (data : bytes) : tx unit := fun d =>
  let id := db_next_block d in
  let d' := set_blocks (db_ingested_blocks d) (id + 1) d in
  if existsb (fun r => (ib_ingest_invocation_id r =? iid) && (ib_block_number r =? block_number))
       (db_ingested_blocks d)
     || existsb (fun r => bool_decide (ib_ingress_public_key r = ingress)
                          && (ib_block_number r =? block_number)) (db_ingested_blocks d)
  then (Err (Orm UniqueViolation), d')
  else if negb (has_invocation d iid) || bool_decide (db_ingress_keys d !! ingress = None)
  then (Err (Orm ForeignKeyViolation), d')
  else (Ok tt, set_blocks (db_ingested_blocks d ++
          [mkIngestedBlock id iid ingress block_number cumulative_txo_count timestamp data])
          (id + 1) d).

(** A unique column ignores nulls. *)
Definition same_some (a b : option Z) : bool :=
  match a, b with Some x, Some y => x =? y | _, _ => false end.

(** The unique and foreign key constraints of [user_events]. *)
Definition event_conflicts (a b : UserEvent) : bool :=
  same_some (ue_new_ingest_invocation_id a) (ue_new_ingest_invocation_id b)
  || same_some (ue_decommission_ingest_invocation_id a) (ue_decommission_ingest_invocation_id b)
  || (same_some (ue_missing_blocks_start a) (ue_missing_blocks_start b)
      && same_some (ue_missing_blocks_end a) (ue_missing_blocks_end b)).

Definition event_refs_ok (d : Db) (e : UserEvent) : bool :=
  match ue_new_ingest_invocation_id e with Some i => has_invocation d i | None => true end
  && match ue_decommission_ingest_invocation_id e with
     | Some i => has_invocation d i
     | None => true
     end.

Definition insert_user_event (mk : Z -> UserEvent) : tx unit := fun d =>
  let id := db_next_event d in
  let e := mk id in
  let d' := set_events (db_user_events d) (id + 1) d in
  if existsb (event_conflicts e) (db_user_events d) then (Err (Orm UniqueViolation), d')
  else if negb (event_refs_ok d e) then (Err (Orm ForeignKeyViolation), d')
  else (Ok tt, set_events (db_user_events d ++ [e]) (id + 1) d).

(** models.rs: the three constructors of [NewUserEvent]. *)
Definition NewUserEvent_new_ingest_invocation (iid id : Z) : UserEvent :=
  mkUserEvent id EventNewIngestInvocation (Some iid) None None None.
Definition NewUserEvent_decommission_ingest_invocation (iid id : Z) : UserEvent :=
  mkUserEvent id EventDecommissionIngestInvocation None (Some iid) None None.
Definition NewUserEvent_missing_blocks (range : BlockRange) (id : Z) : UserEvent :=
  mkUserEvent id EventMissingBlocks None None
    (Some (as_i64 (br_start_block range))) (Some (as_i64 (br_end_block range))).

(** [INSERT INTO reports .. ON CONFLICT (fog_report_id) DO UPDATE]. *)
Definition upsert_report (ingress : bytes) (iid : option Z) (report_id report : bytes)
  (pubkey_expiry : Z) : tx unit := fun d =>
  let id := db_next_report d in
  let d' := set_reports (db_reports d) (id + 1) d in
  if bool_decide (db_ingress_keys d !! ingress = None)
     || match iid with Some i => negb (has_invocation d i) | None => false end
  then (Err (Orm ForeignKeyViolation), d')
  else if existsb (fun r => bool_decide (rp_fog_report_id r = report_id)) (db_reports d)
  then (Ok tt, set_reports
          ((fun r => if bool_decide (rp_fog_report_id r = report_id)
                     then mkReportRow (rp_id r) ingress iid report_id report pubkey_expiry
                     else r) <$> db_reports d) (id + 1) d)
  else (Ok tt, set_reports (db_reports d ++
          [mkReportRow id ingress iid report_id report pubkey_expiry]) (id + 1) d).

(** [SELECT MAX(block_number)]: null on no rows. *)
Definition max_block (rows : list IngestedBlock) : option Z :=
  foldr (fun r acc =>
    match acc with
    | None => Some (ib_block_number r)
    | Some m => Some (Z.max (ib_block_number r) m)
    end) None rows.

Definition blocks_of_key (d : Db) (key : bytes) : list IngestedBlock :=
  filter (fun r => ib_ingress_public_key r = key) (db_ingested_blocks d).

Definition blocks_of_invocation (d : Db) (iid : Z) : list IngestedBlock :=
  filter (fun r => ib_ingest_invocation_id r = iid) (db_ingested_blocks d).

Definition status_of (k : IngressKey) : IngressPublicKeyStatus :=
  mkIngressPublicKeyStatus (as_u64 (ik_start_block k)) (as_u64 (ik_pubkey_expiry k))
    (ik_retired k) (ik_lost k).

(** ** The operations (lib.rs) *)

Section operations.
Context (pool : result unit Z) (now : Z).
Context (encode_block_data : list ETxOutRecord -> result bytes Z).
Context (decode_block_data : bytes -> result (list ETxOutRecord) Z).

Definition decommission_ingest_invocation_impl (iid : Z) : tx unit :=
  tx_modify (fun d => set_invocations
    ((fun r => if ii_id r =? iid
               then mkIngestInvocation (ii_id r) (ii_ingress_public_key r)
                      (ii_egress_public_key r) now (ii_start_block r) true (ii_rng_version r)
               else r) <$> db_ingest_invocations d) (db_next_invocation d) d);;
  insert_user_event (NewUserEvent_decommission_ingest_invocation iid).

Definition update_last_active_at_impl (iid : Z) : tx unit :=
  tx_modify (fun d => set_invocations
    ((fun r => if ii_id r =? iid
               then mkIngestInvocation (ii_id r) (ii_ingress_public_key r)
                      (ii_egress_public_key r) now (ii_start_block r) (ii_decommissioned r)
                      (ii_rng_version r)
               else r) <$> db_ingest_invocations d) (db_next_invocation d) d).

(** Rows of the result as ranges; a null bound violates the schema. *)
Fixpoint missed_ranges (rows : list UserEvent) : result (list BlockRange) DbError :=
  match rows with
  | [] => Ok []
  | r :: rows =>
      match ue_missing_blocks_start r, ue_missing_blocks_end r with
      | Some start_index, Some end_index =>
          let? rest := missed_ranges rows in
          Ok (BlockRange_new (as_u64 start_index) (as_u64 end_index) :: rest)
      | _, _ => Err (UserEventSchemaViolation (ue_id r))
      end
  end.

(** [ORDER BY id]. *)
Definition event_le (a b : UserEvent) : Prop := ue_id a <= ue_id b.
#[global] Instance event_le_dec : RelDecision event_le.
Proof. intros a b; unfold event_le; apply _. Defined.

Definition get_missed_block_ranges_impl : tx (list BlockRange) :=
  rows ← tx_get (fun d => merge_sort event_le
    (filter (fun r => ue_event_type r = EventMissingBlocks) (db_user_events d)));
  tx_lift (missed_ranges rows).

Definition get_ingress_key_status_impl (key : bytes) : tx (option IngressPublicKeyStatus) :=
  rec ← tx_get (fun d => db_ingress_keys d !! key);
  mret (status_of <$> rec).

Definition get_ingress_key_status (key : bytes) : tx (option IngressPublicKeyStatus) :=
  with_conn pool (get_ingress_key_status_impl key).

Definition new_ingress_key (key : bytes) (start_block : Z) : tx bool :=
  with_conn pool (
    existing ← tx_get (fun d => db_ingress_keys d !! key);
    match existing with
    | Some _ => mret false
    | None =>
        tx_modify (set_keys (insert key (mkIngressKey (as_i64 start_block) 0 false false)));;
        mret true
    end).

Definition retire_ingress_key (key : bytes) (set_retired : bool) : tx unit :=
  with_conn pool (tx_modify (set_keys (alter (fun k =>
    mkIngressKey (ik_start_block k) (ik_pubkey_expiry k) set_retired (ik_lost k)) key))).

Definition get_last_scanned_block_index (key : bytes) : tx (option Z) :=
  with_conn pool (
    maybe_index ← tx_get (fun d => max_block (blocks_of_key d key));
    mret (as_u64 <$> maybe_index)).

Definition get_ingress_key_records `{HashIter} (start_block_at_least : Z)
  : tx (list IngressPublicKeyRecord) :=
  with_conn pool (
    tx_get (fun d =>
      (fun '(key, k) =>
         mkIngressPublicKeyRecord key (status_of k) (as_u64 <$> max_block (blocks_of_key d key)))
      <$> filter (fun e => as_i64 start_block_at_least <= ik_start_block e.2)
            (hash_iter (db_ingress_keys d)))).

Definition new_ingest_invocation (prev_ingest_invocation_id : option Z)
  (ingress_public_key : bytes) (egress_public_key : KexRngPubkey) (start_block : Z) : tx Z :=
  with_conn pool (transaction (
    match prev_ingest_invocation_id with
    | Some prev => decommission_ingest_invocation_impl prev
    | None => mret tt
    end;;
    iid ← insert_ingest_invocation ingress_public_key (krp_public_key egress_public_key) now
            (as_i64 start_block) (as_i32 (krp_version egress_public_key));
    insert_user_event (NewUserEvent_new_ingest_invocation iid);;
    mret iid)).

Definition get_ingestable_ranges : tx (list IngestableRange) :=
  with_conn pool (
    tx_get (fun d =>
      (fun r => mkIngestableRange (ii_id r) (as_u64 (ii_start_block r)) (ii_decommissioned r)
                  (as_u64 <$> max_block (blocks_of_invocation d (ii_id r))))
      <$> db_ingest_invocations d)).

Definition decommission_ingest_invocation (iid : Z) : tx unit :=
  with_conn pool (transaction (decommission_ingest_invocation_impl iid)).

(** The block header fields that are stored. *)
Record BlockHeader := mkBlockHeader {
  bh_index : Z;
  bh_cumulative_txo_count : Z;
}.

Definition add_block_data_tx (iid : Z) (block : BlockHeader) (block_signature_timestamp : Z)
  (txs : list ETxOutRecord) : tx unit :=
  row ← tx_get (fun d => head (filter (fun r => ii_id r = iid) (db_ingest_invocations d)));
  ingress_key_bytes ← tx_lift (match row with
    | Some r => Ok (ii_ingress_public_key r)
    | None => Err (Orm DieselNotFound)
    end);
  proto_bytes ← tx_lift (map_err DbEncode (encode_block_data txs));
  insert_ingested_block iid ingress_key_bytes (as_i64 (bh_index block))
    (as_i64 (bh_cumulative_txo_count block)) (as_i64 block_signature_timestamp) proto_bytes;;
  update_last_active_at_impl iid.

Definition add_block_data (iid : Z) (block : BlockHeader) (block_signature_timestamp : Z)
  (txs : list ETxOutRecord) : tx AddBlockDataStatus :=
  with_conn pool (fun d =>
    match transaction (add_block_data_tx iid block block_signature_timestamp txs) d with
    | (Ok _, d') => (Ok (mkAddBlockDataStatus false), d')
    | (Err (Orm UniqueViolation), d') => (Ok (mkAddBlockDataStatus true), d')
    | (Err e, d') => (Err e, d')
    end).

Definition report_lost_ingress_key_tx (lost_ingress_key : bytes) : tx unit :=
  tx_modify (set_keys (alter (fun k =>
    mkIngressKey (ik_start_block k) (ik_pubkey_expiry k) (ik_retired k) true) lost_ingress_key));;
  key_record ← tx_get (fun d => db_ingress_keys d !! lost_ingress_key);
  match key_record with
  | None => tx_err (MissingIngressKey lost_ingress_key)
  | Some k =>
      let start_block := as_u64 (ik_start_block k) in
      let end_block := as_u64 (ik_pubkey_expiry k) in
      maybe_block_index ← tx_get (fun d => max_block (blocks_of_key d lost_ingress_key));
      match maybe_block_index with
      | Some block_index =>
          let block_index := as_u64 block_index in
          if end_block <=? block_index +w 1 then mret tt
          else
            let start_block :=
              if start_block <? block_index +w 1 then block_index +w 1 else start_block in
            let range := mkBlockRange start_block end_block in
            if negb (BlockRange_is_valid range) then mret tt
            else insert_user_event (NewUserEvent_missing_blocks range)
      | None =>
          let range := mkBlockRange start_block end_block in
          if negb (BlockRange_is_valid range) then mret tt
          else insert_user_event (NewUserEvent_missing_blocks range)
      end
  end.

Definition report_lost_ingress_key (lost_ingress_key : bytes) : tx unit :=
  with_conn pool (transaction (report_lost_ingress_key_tx lost_ingress_key)).

Definition get_missed_block_ranges : tx (list BlockRange) :=
  with_conn pool get_missed_block_ranges_impl.

(** [column.ok_or(UserEventSchemaViolation)?]. *)
Definition column {A} (id : Z) (o : option A) : result A DbError :=
  match o with Some a => Ok a | None => Err (UserEventSchemaViolation id) end.

(** One row of the joined query as an event. *)
Definition event_of_row (d : Db) (e : UserEvent) : result FogUserEvent DbError :=
  match ue_event_type e with
  | EventNewIngestInvocation =>
      let inv := i ← ue_new_ingest_invocation_id e;
                 head (filter (fun r => ii_id r = i) (db_ingest_invocations d)) in
      let? iid := column (ue_id e) (ii_id <$> inv) in
      let? egress := column (ue_id e) (ii_egress_public_key <$> inv) in
      let? version := column (ue_id e) (ii_rng_version <$> inv) in
      let? start_block := column (ue_id e) (ii_start_block <$> inv) in
      Ok (NewRngRecord (mkRngRecord iid (mkKexRngPubkey egress (as_u32 version)) (as_u64 start_block)))
  | EventDecommissionIngestInvocation =>
      let? iid := column (ue_id e) (ue_decommission_ingest_invocation_id e) in
      Ok (DecommissionIngestInvocation (mkDecommissionedIngestInvocation iid
            (as_u64 (default 0 (max_block (blocks_of_invocation d iid))))))
  | EventMissingBlocks =>
      let? start_block := column (ue_id e) (ue_missing_blocks_start e) in
      let? end_block := column (ue_id e) (ue_missing_blocks_end e) in
      Ok (MissingBlocks (mkBlockRange (as_u64 start_block) (as_u64 end_block)))
  end.

(** The loop over the rows: the events with their ids, in row order. *)
Fixpoint events_of_rows (d : Db) (rows : list UserEvent)
  : result (list (Z * FogUserEvent)) DbError :=
  match rows with
  | [] => Ok []
  | e :: rows =>
      let? ev := event_of_row d e in
      let? rest := events_of_rows d rows in
      Ok ((ue_id e, ev) :: rest)
  end.

(** [sort_by_key]: stable, by id. *)
Definition id_le (a b : Z * FogUserEvent) : Prop := a.1 <= b.1.
#[global] Instance id_le_dec : RelDecision id_le.
Proof. intros a b; unfold id_le; apply _. Defined.

Definition search_user_events (start_from_user_event_id : Z) : tx (list FogUserEvent * Z) :=
  if start_from_user_event_id =? 9223372036854775807
  then mret ([], 9223372036854775807)
  else with_conn pool (fun d =>
    let data := filter (fun e => start_from_user_event_id < ue_id e) (db_user_events d) in
    let max_user_event_id := foldl (fun m e => Z.max m (ue_id e)) start_from_user_event_id data in
    match events_of_rows d data with
    | Err e => (Err e, d)
    | Ok events => (Ok (snd <$> merge_sort id_le events, max_user_event_id), d)
    end).

(** [get_tx_outs]: all stored records from a block on, by search key. *)
Fixpoint collect_payloads (rows : list IngestedBlock) (m : gmap (list Z) bytes)
  : result (gmap (list Z) bytes) DbError :=
  match rows with
  | [] => Ok m
  | r :: rows =>
      let? recs := map_err DbDecode (decode_block_data (ib_proto_ingested_block_data r)) in
      collect_payloads rows
        (foldl (fun m rec => <[etr_search_key rec := etr_payload rec]> m) m recs)
  end.

Definition get_tx_outs (start_block : Z) (search_keys : list bytes)
  : tx (list TxOutSearchResult) :=
  with_conn pool (
    rows ← tx_get (fun d => filter (fun r => as_i64 start_block <= ib_block_number r)
                              (db_ingested_blocks d));
    search_key_to_payload ← tx_lift (collect_payloads rows ∅);
    mret ((fun search_key =>
      match search_key_to_payload !! search_key with
      | Some payload =>
          mkTxOutSearchResult search_key (TxOutSearchResultCode_as_u32 Found) payload
      | None => mkTxOutSearchResult search_key (TxOutSearchResultCode_as_u32 NotFound) []
      end) <$> search_keys)).

Definition update_last_active_at (iid : Z) : tx unit :=
  with_conn pool (update_last_active_at_impl iid).

Definition rows_by_block_and_key (ingress_key : bytes) (block_index : Z) (d : Db)
  : list IngestedBlock :=
  filter (fun r => ib_block_number r = as_i64 block_index) (blocks_of_key d ingress_key).

Definition get_tx_outs_by_block_and_key (ingress_key : bytes) (block_index : Z)
  : tx (option (list ETxOutRecord)) :=
  with_conn pool (
    protos ← tx_get (fun d =>
      ib_proto_ingested_block_data <$> rows_by_block_and_key ingress_key block_index d);
    match protos with
    | [] => mret None
    | [proto] =>
        records ← tx_lift (map_err DbDecode (decode_block_data proto));
        mret (Some records)
    | _ => tx_err IngestedBlockSchemaViolation
    end).

Definition get_invocation_id_by_block_and_key (ingress_key : bytes) (block_index : Z)
  : tx (option Z) :=
  with_conn pool (
    iids ← tx_get (fun d =>
      ib_ingest_invocation_id <$> rows_by_block_and_key ingress_key block_index d);
    match iids with
    | [] => mret None
    | [iid] => mret (Some iid)
    | _ => tx_err IngestedBlockSchemaViolation
    end).

Definition rows_by_block (block_index : Z) (d : Db) : list IngestedBlock :=
  filter (fun r => ib_block_number r = as_i64 block_index) (db_ingested_blocks d).

Definition get_cumulative_txo_count_for_block (block_index : Z) : tx (option Z) :=
  with_conn pool (
    data ← tx_get (fun d => ib_cumulative_txo_count <$> rows_by_block block_index d);
    match data with
    | [] => mret None
    | cumulative_txo_count :: _ =>
        if forallb (fun val => val =? cumulative_txo_count) data
        then mret (Some (as_u64 cumulative_txo_count))
        else tx_err IngestedBlockSchemaViolation
    end).

Definition get_block_signature_timestamp_for_block (block_index : Z) : tx (option Z) :=
  with_conn pool (
    data ← tx_get (fun d => ib_block_signature_timestamp <$> rows_by_block block_index d);
    mret (as_u64 <$> head data)).

Definition get_highest_known_block_index : tx (option Z) :=
  with_conn pool (
    m ← tx_get (fun d => max_block (db_ingested_blocks d));
    mret (as_u64 <$> m)).

(** ** ReportDb *)

Context {Report : Type}.
Context (encode_report : Report -> result bytes Z) (decode_report : bytes -> result Report Z).

Fixpoint decode_reports (rows : list ReportRow)
  : result (list (bytes * ReportData Report)) DbError :=
  match rows with
  | [] => Ok []
  | r :: rows =>
      let? report := map_err DbDecode (decode_report (rp_report r)) in
      let? rest := decode_reports rows in
      Ok ((rp_fog_report_id r,
           mkReportData (rp_ingest_invocation_id r) report (as_u64 (rp_pubkey_expiry r))) :: rest)
  end.

Definition report_le (a b : ReportRow) : Prop := rp_id a <= rp_id b.
#[global] Instance report_le_dec : RelDecision report_le.
Proof. intros a b; unfold report_le; apply _. Defined.

Definition get_all_reports : tx (list (bytes * ReportData Report)) :=
  with_conn pool (
    rows ← tx_get (fun d => merge_sort report_le (db_reports d));
    tx_lift (decode_reports rows)).

(** The update of the expiry: only upwards, only on a key that is not retired.
    The returned row, if the update touched one. *)
Definition raise_pubkey_expiry (key : bytes) (pubkey_expiry : Z) : tx (option IngressKey) := fun d =>
  match db_ingress_keys d !! key with
  | Some k =>
      if negb (ik_retired k) && (ik_pubkey_expiry k <? as_i64 pubkey_expiry) then
        let k' := mkIngressKey (ik_start_block k) (as_i64 pubkey_expiry) (ik_retired k) (ik_lost k) in
        (Ok (Some k'), set_keys (insert key k') d)
      else (Ok None, d)
  | None => (Ok None, d)
  end.

(** The status after the update: of the updated row, or of the row as it was found. *)
Definition raised_key_status (ingress_key : bytes) (pubkey_expiry : Z)
  : tx IngressPublicKeyStatus :=
  updated ← raise_pubkey_expiry ingress_key pubkey_expiry;
  match updated with
  | None =>
      maybe_key_status ← get_ingress_key_status_impl ingress_key;
      tx_lift (match maybe_key_status with
        | Some s => Ok s
        | None => Err (MissingIngressKey ingress_key)
        end)
  | Some k => mret (status_of k)
  end.

Definition set_report_tx (ingress_key report_id : bytes) (data : ReportData Report)
  : tx IngressPublicKeyStatus :=
  status ← raised_key_status ingress_key (rd_pubkey_expiry data);
  if ks_retired status then mret status
  else
    report_bytes ← tx_lift (map_err DbEncode (encode_report (rd_report data)));
    upsert_report ingress_key (rd_ingest_invocation_id data) report_id report_bytes
      (as_i64 (rd_pubkey_expiry data));;
    mret status.

Definition set_report (ingress_key report_id : bytes) (data : ReportData Report)
  : tx IngressPublicKeyStatus :=
  with_conn pool (transaction (set_report_tx ingress_key report_id data)).

Definition remove_report (report_id : bytes) : tx unit :=
  with_conn pool (tx_modify (fun d => set_reports
    (filter (fun r => rp_fog_report_id r <> report_id) (db_reports d)) (db_next_report d) d)).
End operations.
