(* ===== verification/RecoveryDbWf.v ===== *)
(** * Invariants of the recovery database

    The constraints of the schema as an invariant of the tables, preserved by
    every operation, and what follows from it: schema violations cannot occur. *)

From S2P Require Import Prelude FogTypes RecoveryTypes RecoveryDb.

Local Open Scope Z_scope.
Local Open Scope fog_scope.

(** What a row of [user_events] looks like, by type. *)
Definition event_shape (invs : list IngestInvocation) (e : UserEvent) : Prop :=
  match ue_event_type e with
  | EventNewIngestInvocation =>
      exists r, r ∈ invs /\ ue_new_ingest_invocation_id e = Some (ii_id r)
  | EventDecommissionIngestInvocation =>
      exists r, r ∈ invs /\ ue_decommission_ingest_invocation_id e = Some (ii_id r)
  | EventMissingBlocks =>
      is_Some (ue_missing_blocks_start e) /\ is_Some (ue_missing_blocks_end e)
  end.

Record db_wf (d : Db) : Prop := {
  wf_inv_ids : StronglySorted Z.lt (ii_id <$> db_ingest_invocations d);
  wf_inv_next : Forall (fun r => ii_id r < db_next_invocation d) (db_ingest_invocations d);
  wf_inv_egress : NoDup (ii_egress_public_key <$> db_ingest_invocations d);
  wf_inv_keys : Forall (fun r => is_Some (db_ingress_keys d !! ii_ingress_public_key r))
    (db_ingest_invocations d);
  wf_blocks_unique : NoDup ((fun r => (ib_ingress_public_key r, ib_block_number r))
    <$> db_ingested_blocks d);
  wf_blocks_inv : Forall (fun b => exists r, r ∈ db_ingest_invocations d
      /\ ii_id r = ib_ingest_invocation_id b
      /\ ii_ingress_public_key r = ib_ingress_public_key b) (db_ingested_blocks d);
  wf_event_ids : StronglySorted Z.lt (ue_id <$> db_user_events d);
  wf_event_next : Forall (fun e => ue_id e < db_next_event d) (db_user_events d);
  wf_event_shape : Forall (event_shape (db_ingest_invocations d)) (db_user_events d);
  wf_reports_unique : NoDup (rp_fog_report_id <$> db_reports d);
  wf_reports_keys : Forall (fun r => is_Some (db_ingress_keys d !! rp_ingress_public_key r))
    (db_reports d);
}.

(** Sequences only move forward. *)
Definition seq_le (d d' : Db) : Prop :=
  db_next_invocation d <= db_next_invocation d' /\ db_next_block d <= db_next_block d'
  /\ db_next_event d <= db_next_event d' /\ db_next_report d <= db_next_report d'.

(** A computation that keeps the invariant. *)
Definition preserves {A} (m : tx A) : Prop :=
  forall d, db_wf d -> db_wf (m d).2 /\ seq_le d (m d).2.

Create HintDb preserves.

(** One call of an operation that changes the database. *)
Inductive db_step (d : Db) : Db -> Prop :=
| step_new_ingress_key pool key start_block :
    db_step d (new_ingress_key pool key start_block d).2
| step_retire_ingress_key pool key b :
    db_step d (retire_ingress_key pool key b d).2
| step_new_ingest_invocation pool now prev ingress egress start_block :
    db_step d (new_ingest_invocation pool now prev ingress egress start_block d).2
| step_decommission_ingest_invocation pool now iid :
    db_step d (decommission_ingest_invocation pool now iid d).2
| step_add_block_data pool now encode iid block ts txs :
    db_step d (add_block_data pool now encode iid block ts txs d).2
| step_report_lost_ingress_key pool key :
    db_step d (report_lost_ingress_key pool key d).2
| step_update_last_active_at pool now iid :
    db_step d (update_last_active_at pool now iid d).2
| step_set_report pool Report (encode : Report -> result bytes Z) key report_id data :
    db_step d (set_report pool encode key report_id data d).2
| step_remove_report pool report_id :
    db_step d (remove_report pool report_id d).2.

Definition db_reachable : Db -> Prop := rtc db_step db_empty.

(** ** Small facts *)

Lemma existsb_false_Forall {A} (f : A -> bool) l :
  existsb f l = false <-> Forall (fun x => f x = false) l.
Proof.
  induction l as [|x l IH]; simpl; [by split|].
  rewrite orb_false_iff, Forall_cons, IH; done.
Qed.

Lemma seq_le_refl d : seq_le d d.
Proof. unfold seq_le; lia. Qed.

Lemma seq_le_trans d1 d2 d3 : seq_le d1 d2 -> seq_le d2 d3 -> seq_le d1 d3.
Proof. unfold seq_le; lia. Qed.

Lemma StronglySorted_snoc l x :
  StronglySorted Z.lt l -> Forall (fun y => y < x) l -> StronglySorted Z.lt (l ++ [x]).
Proof.
  intros Hs; induction Hs as [|y l Hs IH Hy]; intros Hx; simpl; [by repeat constructor|].
  apply Forall_cons in Hx as [Hyx Hx]; constructor; [by apply IH|].
  apply Forall_app; split; [done|by constructor].
Qed.

Lemma has_invocation_true d i :
  has_invocation d i = true -> exists r, r ∈ db_ingest_invocations d /\ ii_id r = i.
Proof.
  unfold has_invocation; rewrite existsb_exists; intros (r & Hr & Hi); bool_to_prop.
  exists r; split; [by apply list_elem_of_In|done].
Qed.

Lemma event_shape_mono invs invs' e :
  (forall r, r ∈ invs -> exists r', r' ∈ invs' /\ ii_id r' = ii_id r) ->
  event_shape invs e -> event_shape invs' e.
Proof.
  intros H; unfold event_shape; destruct (ue_event_type e); [| |done];
    intros (r & Hr & He); destruct (H r Hr) as (r' & Hr' & Hid);
    exists r'; split; congruence.
Qed.

Lemma db_empty_wf : db_wf db_empty.
Proof. split; simpl; repeat constructor. Qed.

(** ** Preservation: the combinators *)

Lemma preserves_ret {A} (a : A) : preserves (mret a).
Proof. intros d Hd; split; [done|apply seq_le_refl]. Qed.

Lemma preserves_err {A} e : preserves (@tx_err A e).
Proof. intros d Hd; split; [done|apply seq_le_refl]. Qed.

Lemma preserves_lift {A} (r : result A DbError) : preserves (tx_lift r).
Proof. intros d Hd; split; [done|apply seq_le_refl]. Qed.

Lemma preserves_get {A} (f : Db -> A) : preserves (tx_get f).
Proof. intros d Hd; split; [done|apply seq_le_refl]. Qed.

Lemma preserves_bind {A B} (m : tx A) (f : A -> tx B) :
  preserves m -> (forall a, preserves (f a)) -> preserves (m ≫= f).
Proof.
  intros Hm Hf d Hd; unfold mbind, tx_bind; destruct (Hm d Hd) as [Hd1 Hs1].
  destruct (m d) as [[a|e] d1]; simpl in *; [|done].
  destruct (Hf a d1 Hd1) as [Hd2 Hs2]; split; [done|by eapply seq_le_trans].
Qed.

Lemma preserves_with_conn {A} pool (m : tx A) : preserves m -> preserves (with_conn pool m).
Proof.
  intros Hm d Hd; unfold with_conn; destruct pool; [by apply Hm|split; [done|apply seq_le_refl]].
Qed.

Lemma rollback_wf d d' : db_wf d -> seq_le d d' -> db_wf (rollback d d').
Proof.
  intros Hd (? & ? & ? & ?); split; simpl; try apply Hd.
  - eapply Forall_impl; [apply (wf_inv_next _ Hd)|]; simpl; lia.
  - eapply Forall_impl; [apply (wf_event_next _ Hd)|]; simpl; lia.
Qed.

Lemma preserves_transaction {A} (m : tx A) : preserves m -> preserves (transaction m).
Proof.
  intros Hm d Hd; unfold transaction; destruct (Hm d Hd) as [Hd1 Hs1].
  destruct (m d) as [[a|e] d1]; simpl in *; [done|].
  split; [by apply rollback_wf|done].
Qed.

#[export] Hint Resolve preserves_ret preserves_err preserves_lift preserves_get : preserves.

(** ** Preservation: the statements *)

(** Key rows are only added or changed in place. *)
Lemma preserves_keys (f : gmap (list Z) IngressKey -> gmap (list Z) IngressKey) :
  (forall m k, is_Some (m !! k) -> is_Some (f m !! k)) -> preserves (tx_modify (set_keys f)).
Proof.
  intros Hf d Hd; split; [|unfold seq_le; simpl; lia]; split; simpl; try apply Hd.
  - eapply Forall_impl; [apply (wf_inv_keys _ Hd)|]; simpl; auto.
  - eapply Forall_impl; [apply (wf_reports_keys _ Hd)|]; simpl; auto.
Qed.

Lemma alter_is_some (g : IngressKey -> IngressKey) (key : bytes) (m : gmap (list Z) IngressKey) k :
  is_Some (m !! k) -> is_Some (alter g key m !! k).
Proof.
  intros [v Hv]; destruct (decide (k = key)) as [->|Hne].
  - rewrite lookup_alter_eq, Hv; by eexists.
  - rewrite lookup_alter_ne by done; by eexists.
Qed.

Lemma insert_is_some (key : bytes) (v : IngressKey) (m : gmap (list Z) IngressKey) k :
  is_Some (m !! k) -> is_Some (<[key := v]> m !! k).
Proof.
  intros Hv; destruct (decide (k = key)) as [->|Hne].
  - rewrite lookup_insert_eq; by eexists.
  - by rewrite lookup_insert_ne.
Qed.

(** Invocation rows are changed in place, keeping id, keys and egress key. *)
Lemma preserves_touch_invocations (g : IngestInvocation -> IngestInvocation) :
  (forall r, ii_id (g r) = ii_id r /\ ii_ingress_public_key (g r) = ii_ingress_public_key r
     /\ ii_egress_public_key (g r) = ii_egress_public_key r) ->
  preserves (tx_modify (fun d => set_invocations (g <$> db_ingest_invocations d)
    (db_next_invocation d) d)).
Proof.
  intros Hg d Hd; split; [|unfold seq_le; simpl; lia]; split; simpl; try apply Hd.
  - rewrite <- list_fmap_compose; erewrite list_fmap_ext; [apply (wf_inv_ids _ Hd)|].
    intros _ r _; apply Hg.
  - rewrite Forall_fmap; eapply Forall_impl; [apply (wf_inv_next _ Hd)|]; intros r Hr; simpl.
    by destruct (Hg r) as [-> _].
  - rewrite <- list_fmap_compose; erewrite list_fmap_ext; [apply (wf_inv_egress _ Hd)|].
    intros _ r _; apply Hg.
  - rewrite Forall_fmap; eapply Forall_impl; [apply (wf_inv_keys _ Hd)|]; intros r Hr; simpl.
    by destruct (Hg r) as (_ & -> & _).
  - eapply Forall_impl; [apply (wf_blocks_inv _ Hd)|]; intros b (r & Hr & Hid & Hk).
    destruct (Hg r) as (Hg1 & Hg2 & _).
    exists (g r); split_and!; [by apply list_elem_of_fmap_2|congruence|congruence].
  - eapply Forall_impl; [apply (wf_event_shape _ Hd)|]; intros e; apply event_shape_mono.
    intros r Hr; exists (g r); split; [by apply list_elem_of_fmap_2|apply Hg].
Qed.

Lemma preserves_insert_invocation ingress egress now start version :
  preserves (insert_ingest_invocation ingress egress now start version).
Proof.
  intros d Hd; unfold insert_ingest_invocation.
  assert (Hseq : db_wf (set_invocations (db_ingest_invocations d) (db_next_invocation d + 1) d)
    /\ seq_le d (set_invocations (db_ingest_invocations d) (db_next_invocation d + 1) d)).
  { split; [|unfold seq_le; simpl; lia]; split; simpl; try apply Hd.
    eapply Forall_impl; [apply (wf_inv_next _ Hd)|]; simpl; lia. }
  destruct (existsb _ _) eqn:Hex; [done|].
  case_bool_decide as Hkey; [done|]; clear Hseq.
  apply existsb_false_Forall in Hex.
  split; [|unfold seq_le; simpl; lia]; split; simpl; try apply Hd.
  - rewrite fmap_app; simpl; apply StronglySorted_snoc; [apply Hd|rewrite Forall_fmap; apply Hd].
  - apply Forall_app; split; [eapply Forall_impl; [apply (wf_inv_next _ Hd)|]; simpl; lia|].
    constructor; [simpl; lia|constructor].
  - rewrite fmap_app; apply NoDup_app; split_and!; [apply Hd| |apply NoDup_singleton].
    intros k (r & -> & Hr)%list_elem_of_fmap Hk; simpl in Hk; apply list_elem_of_singleton in Hk.
    rewrite Forall_forall in Hex; specialize (Hex r Hr); bool_to_prop; done.
  - apply Forall_app; split; [apply Hd|]; constructor; [|constructor]; simpl.
    destruct (db_ingress_keys d !! ingress); [by eexists|done].
  - eapply Forall_impl; [apply (wf_blocks_inv _ Hd)|]; intros b (r & Hr & ?); exists r; split; [|done].
    apply elem_of_app; by left.
  - eapply Forall_impl; [apply (wf_event_shape _ Hd)|]; intros e; apply event_shape_mono.
    intros r Hr; exists r; split; [apply elem_of_app; by left|done].
Qed.

Lemma preserves_insert_event mk :
  (forall id, ue_id (mk id) = id
     /\ match ue_event_type (mk id) with
        | EventNewIngestInvocation => is_Some (ue_new_ingest_invocation_id (mk id))
        | EventDecommissionIngestInvocation =>
            is_Some (ue_decommission_ingest_invocation_id (mk id))
        | EventMissingBlocks =>
            is_Some (ue_missing_blocks_start (mk id)) /\ is_Some (ue_missing_blocks_end (mk id))
        end) ->
  preserves (insert_user_event mk).
Proof.
  intros Hmk d Hd; unfold insert_user_event.
  assert (Hseq : db_wf (set_events (db_user_events d) (db_next_event d + 1) d)
    /\ seq_le d (set_events (db_user_events d) (db_next_event d + 1) d)).
  { split; [|unfold seq_le; simpl; lia]; split; simpl; try apply Hd.
    eapply Forall_impl; [apply (wf_event_next _ Hd)|]; simpl; lia. }
  destruct (existsb _ _); [done|]; destruct (event_refs_ok _ _) eqn:Hrefs; simpl; [|done].
  clear Hseq; destruct (Hmk (db_next_event d)) as [Hid Hshape].
  split; [|unfold seq_le; simpl; lia]; split; simpl; try apply Hd.
  - rewrite fmap_app; simpl; apply StronglySorted_snoc; [apply Hd|].
    rewrite Hid, Forall_fmap; apply Hd.
  - apply Forall_app; split; [eapply Forall_impl; [apply (wf_event_next _ Hd)|]; simpl; lia|].
    constructor; [simpl; lia|constructor].
  - apply Forall_app; split; [apply Hd|]; constructor; [|constructor].
    unfold event_refs_ok in Hrefs; apply andb_true_iff in Hrefs as [Hr1 Hr2]; unfold event_shape.
    destruct (ue_event_type (mk (db_next_event d))); [| |done]; destruct Hshape as [i Hi];
      rewrite Hi in Hr1 || rewrite Hi in Hr2;
      [apply has_invocation_true in Hr1 as (r & Hr & <-)
      |apply has_invocation_true in Hr2 as (r & Hr & <-)]; eauto.
Qed.

Lemma preserves_upsert_report ingress iid report_id report expiry :
  preserves (upsert_report ingress iid report_id report expiry).
Proof.
  intros d Hd; unfold upsert_report.
  assert (Hseq : db_wf (set_reports (db_reports d) (db_next_report d + 1) d)
    /\ seq_le d (set_reports (db_reports d) (db_next_report d + 1) d)).
  { split; [|unfold seq_le; simpl; lia]; split; simpl; apply Hd. }
  destruct (bool_decide _ || _) eqn:Hfk; [done|]; bool_to_prop.
  assert (Hkey : is_Some (db_ingress_keys d !! ingress))
    by (destruct (db_ingress_keys d !! ingress); [by eexists|done]).
  destruct (existsb _ _) eqn:Hex; clear Hseq;
    (split; [|unfold seq_le; simpl; lia]); split; simpl; try apply Hd.
  - rewrite <- list_fmap_compose; erewrite list_fmap_ext; [apply (wf_reports_unique _ Hd)|].
    intros _ r _; simpl; case_bool_decide; done.
  - rewrite Forall_fmap; eapply Forall_impl; [apply (wf_reports_keys _ Hd)|]; intros r Hr; simpl.
    case_bool_decide; done.
  - apply existsb_false_Forall in Hex; rewrite fmap_app; apply NoDup_app.
    split_and!; [apply Hd| |apply NoDup_singleton].
    intros k (r & -> & Hr)%list_elem_of_fmap Hk; simpl in Hk; apply list_elem_of_singleton in Hk.
    rewrite Forall_forall in Hex; specialize (Hex r Hr); bool_to_prop; done.
  - apply Forall_app; split; [apply Hd|]; by repeat constructor.
Qed.

Lemma insert_ingested_block_wf iid ingress number count ts data d :
  db_wf d ->
  (exists r, r ∈ db_ingest_invocations d /\ ii_id r = iid /\ ii_ingress_public_key r = ingress) ->
  db_wf (insert_ingested_block iid ingress number count ts data d).2
  /\ seq_le d (insert_ingested_block iid ingress number count ts data d).2.
Proof.
  intros Hd Hinv; unfold insert_ingested_block.
  assert (Hseq : db_wf (set_blocks (db_ingested_blocks d) (db_next_block d + 1) d)
    /\ seq_le d (set_blocks (db_ingested_blocks d) (db_next_block d + 1) d)).
  { split; [|unfold seq_le; simpl; lia]; split; simpl; apply Hd. }
  destruct (existsb _ _ || existsb _ _) eqn:Hex; [done|]; case_match; [done|]; clear Hseq.
  apply orb_false_iff in Hex as [_ Hex]; apply existsb_false_Forall in Hex.
  split; [|unfold seq_le; simpl; lia]; split; simpl; try apply Hd.
  - rewrite fmap_app; apply NoDup_app; split_and!; [apply Hd| |apply NoDup_singleton].
    intros k (b & -> & Hb)%list_elem_of_fmap Hk; simpl in Hk; apply list_elem_of_singleton in Hk.
    rewrite Forall_forall in Hex; specialize (Hex b Hb); simpl in *; simplify_eq.
    rewrite Z.eqb_refl, bool_decide_eq_true_2 in Hex by done; done.
  - apply Forall_app; split; [apply Hd|]; by repeat constructor.
Qed.

(** ** Preservation: the operations *)

Lemma event_mk_new iid : forall id, ue_id (NewUserEvent_new_ingest_invocation iid id) = id
  /\ is_Some (Some iid).
Proof. by intros id; split. Qed.

Lemma preserves_decommission now iid : preserves (decommission_ingest_invocation_impl now iid).
Proof.
  apply preserves_bind; [apply preserves_touch_invocations|intros _; apply preserves_insert_event].
  - intros r; by case_match.
  - by intros id; split; [|eexists].
Qed.

Lemma preserves_update_last_active now iid : preserves (update_last_active_at_impl now iid).
Proof. apply preserves_touch_invocations; intros r; by case_match. Qed.

Lemma preserves_missing_blocks range : preserves (insert_user_event (NewUserEvent_missing_blocks range)).
Proof. apply preserves_insert_event; intros id; split; [done|]; split; by eexists. Qed.

Lemma preserves_add_block_data_tx now encode iid block ts txs :
  preserves (add_block_data_tx now encode iid block ts txs).
Proof.
  intros d Hd; unfold add_block_data_tx, mbind, tx_bind, tx_get, tx_lift.
  destruct (head (filter (fun r => ii_id r = iid) (db_ingest_invocations d))) as [r|] eqn:Hr;
    [|split; [done|apply seq_le_refl]].
  apply head_Some_elem_of, list_elem_of_filter in Hr as [Hid Hr].
  destruct (encode txs) as [bs|e]; simpl; [|split; [done|apply seq_le_refl]].
  destruct (insert_ingested_block_wf iid (ii_ingress_public_key r) (as_i64 (bh_index block))
    (as_i64 (bh_cumulative_txo_count block)) (as_i64 ts) bs d Hd) as [Hd1 Hs1]; [eauto|].
  destruct (insert_ingested_block _ _ _ _ _ _ d) as [[u|e] d1]; simpl in *; [|done].
  destruct (preserves_update_last_active now iid d1 Hd1) as [Hd2 Hs2].
  split; [done|by eapply seq_le_trans].
Qed.

Lemma preserves_raise_expiry key expiry : preserves (raise_pubkey_expiry key expiry).
Proof.
  intros d Hd; unfold raise_pubkey_expiry.
  destruct (db_ingress_keys d !! key); [case_match|]; try (split; [done|apply seq_le_refl]).
  destruct (preserves_keys (insert key (mkIngressKey (ik_start_block i) (as_i64 expiry)
    (ik_retired i) (ik_lost i)))) with (d := d) as [? ?]; auto.
  intros m k; apply insert_is_some.
Qed.

#[export] Hint Resolve preserves_keys alter_is_some insert_is_some preserves_insert_invocation
  preserves_insert_event preserves_upsert_report preserves_decommission preserves_raise_expiry
  preserves_update_last_active preserves_missing_blocks preserves_add_block_data_tx : preserves.

Ltac solve_preserves :=
  repeat first
    [ solve [eauto with preserves]
    | apply preserves_with_conn | apply preserves_transaction
    | apply preserves_bind; [|intros ?] | case_match ].

Lemma db_step_wf d d' : db_wf d -> db_step d d' -> db_wf d' /\ seq_le d d'.
Proof.
  intros Hd Hstep; destruct Hstep.
  - apply (fun H => H d Hd : _); unfold new_ingress_key; solve_preserves.
  - apply (fun H => H d Hd : _); unfold retire_ingress_key; solve_preserves.
  - apply (fun H => H d Hd : _); unfold new_ingest_invocation; solve_preserves.
    apply preserves_insert_event; intros id; split; [done|by eexists].
  - apply (fun H => H d Hd : _); unfold decommission_ingest_invocation; solve_preserves.
  - unfold add_block_data, with_conn; destruct pool; [|split; [done|apply seq_le_refl]].
    destruct (preserves_transaction _ (preserves_add_block_data_tx now encode iid block ts txs) d Hd)
      as [H1 H2].
    destruct (transaction _ d) as [[u|[[]| | | | | | | | | |]] d1]; done.
  - apply (fun H => H d Hd : _); unfold report_lost_ingress_key, report_lost_ingress_key_tx.
    solve_preserves.
  - apply (fun H => H d Hd : _); unfold update_last_active_at; solve_preserves.
  - apply (fun H => H d Hd : _); unfold set_report, set_report_tx, raised_key_status, get_ingress_key_status_impl.
    solve_preserves.
  - unfold remove_report, with_conn; destruct pool; [|split; [done|apply seq_le_refl]].
    split; [|unfold seq_le; simpl; lia]; split; simpl; try apply Hd.
    + eapply sublist_NoDup; [apply (wf_reports_unique _ Hd)|].
      apply fmap_sublist, sublist_filter.
    + apply Forall_forall; intros r [_ Hr]%list_elem_of_filter.
      pose proof (wf_reports_keys _ Hd) as H; rewrite Forall_forall in H; by apply H.
Qed.

Lemma db_reachable_wf d : db_reachable d -> db_wf d.
Proof.
  intros Hr; eapply (rtc_ind_r (fun d => db_wf d)); [apply db_empty_wf| |exact Hr].
  intros d1 d2 _ Hstep Hd1; by destruct (db_step_wf _ _ Hd1 Hstep).
Qed.

(** ** What never changes back

    Events and ingested blocks are only appended, events with fresh ids; a key keeps its start block,
    its expiry never decreases and it never becomes found again; an invocation
    keeps its identity and never becomes active again. *)
Record db_mono (d d' : Db) : Prop := {
  mono_seq : db_next_event d <= db_next_event d';
  mono_events : exists new, db_user_events d' = db_user_events d ++ new
    /\ Forall (fun e => db_next_event d <= ue_id e) new;
  mono_blocks : exists new, db_ingested_blocks d' = db_ingested_blocks d ++ new;
  mono_keys : forall key k, db_ingress_keys d !! key = Some k ->
    exists k', db_ingress_keys d' !! key = Some k' /\ ik_start_block k' = ik_start_block k
      /\ ik_pubkey_expiry k <= ik_pubkey_expiry k' /\ (ik_lost k = true -> ik_lost k' = true);
  mono_invs : forall r, r ∈ db_ingest_invocations d ->
    exists r', r' ∈ db_ingest_invocations d' /\ ii_id r' = ii_id r
      /\ ii_ingress_public_key r' = ii_ingress_public_key r
      /\ ii_egress_public_key r' = ii_egress_public_key r
      /\ ii_start_block r' = ii_start_block r
      /\ (ii_decommissioned r = true -> ii_decommissioned r' = true);
}.

#[export] Instance db_mono_preorder : PreOrder db_mono.
Proof.
  split.
  - intros d; split; [lia|exists []; by rewrite app_nil_r|exists []; by rewrite app_nil_r| |eauto 10].
    intros key k Hk; exists k; split_and!; auto; lia.
  - intros d1 d2 d3 [S1 (e1 & E1 & N1) [b1 B1] K1 I1] [S2 (e2 & E2 & N2) [b2 B2] K2 I2]; split.
    + lia.
    + exists (e1 ++ e2); split; [by rewrite E2, E1, app_assoc|].
      apply Forall_app; split; [done|]; eapply Forall_impl; [exact N2|]; simpl; lia.
    + exists (b1 ++ b2); by rewrite B2, B1, app_assoc.
    + intros key k Hk; destruct (K1 _ _ Hk) as (k1 & Hk1 & ? & ? & ?).
      destruct (K2 _ _ Hk1) as (k2 & Hk2 & ? & ? & ?); exists k2; split_and!; auto; [congruence|lia].
    + intros r Hr; destruct (I1 _ Hr) as (r1 & Hr1 & ? & ? & ? & ? & ?).
      destruct (I2 _ Hr1) as (r2 & Hr2 & ? & ? & ? & ? & ?); exists r2; split_and!; auto; congruence.
Qed.

Definition monotone {A} (m : tx A) : Prop := forall d, db_mono d (m d).2.

Lemma monotone_same {A} (m : tx A) : (forall d, (m d).2 = d) -> monotone m.
Proof. intros H d; rewrite H; reflexivity. Qed.

Lemma monotone_bind {A B} (m : tx A) (f : A -> tx B) :
  monotone m -> (forall a, monotone (f a)) -> monotone (m ≫= f).
Proof.
  intros Hm Hf d; unfold mbind, tx_bind; specialize (Hm d).
  destruct (m d) as [[a|e] d1]; simpl in *; [|done]; etrans; [exact Hm|apply Hf].
Qed.

Lemma db_mono_rollback d d' : db_next_event d <= db_next_event d' -> db_mono d (rollback d d').
Proof. intros H; split; simpl; [exact H|apply db_mono_preorder..]. Qed.

Lemma monotone_transaction {A} (m : tx A) : monotone m -> monotone (transaction m).
Proof.
  intros Hm d; unfold transaction; specialize (Hm d).
  destruct (m d) as [[a|e] d1]; simpl in *; [done|apply db_mono_rollback, Hm].
Qed.

Lemma monotone_with_conn {A} pool (m : tx A) : monotone m -> monotone (with_conn pool m).
Proof. intros Hm d; unfold with_conn; destruct pool; [apply Hm|reflexivity]. Qed.

(** Key updates: keep the start block, do not lower the expiry, do not clear lost. *)
Lemma monotone_alter key (g : IngressKey -> IngressKey) :
  (forall k, ik_start_block (g k) = ik_start_block k
     /\ ik_pubkey_expiry k <= ik_pubkey_expiry (g k) /\ (ik_lost k = true -> ik_lost (g k) = true)) ->
  monotone (tx_modify (set_keys (alter g key))).
Proof.
  intros Hg d; split; simpl; try apply db_mono_preorder.
  intros key' k Hk; destruct (decide (key' = key)) as [->|Hne].
  - rewrite lookup_alter_eq, Hk; simpl; exists (g k); split; [done|apply Hg].
  - rewrite lookup_alter_ne by done; exists k; split_and!; auto; lia.
Qed.

Lemma monotone_touch_invocations (g : IngestInvocation -> IngestInvocation) :
  (forall r, ii_id (g r) = ii_id r /\ ii_ingress_public_key (g r) = ii_ingress_public_key r
     /\ ii_egress_public_key (g r) = ii_egress_public_key r
     /\ ii_start_block (g r) = ii_start_block r
     /\ (ii_decommissioned r = true -> ii_decommissioned (g r) = true)) ->
  monotone (tx_modify (fun d => set_invocations (g <$> db_ingest_invocations d)
    (db_next_invocation d) d)).
Proof.
  intros Hg d; split; simpl; try apply db_mono_preorder.
  intros r Hr; exists (g r); split; [by apply list_elem_of_fmap_2|apply Hg].
Qed.

Lemma db_mono_append_invocations d inv n :
  db_mono d (set_invocations (db_ingest_invocations d ++ inv) n d).
Proof.
  split; simpl; try apply db_mono_preorder.
  intros r Hr; exists r; split; [apply elem_of_app; by left|done].
Qed.

Lemma monotone_insert_invocation ingress egress now start version :
  monotone (insert_ingest_invocation ingress egress now start version).
Proof.
  intros d; unfold insert_ingest_invocation; repeat case_match; simpl;
    [| |apply db_mono_append_invocations]; split; simpl; apply db_mono_preorder.
Qed.

Lemma monotone_insert_event mk :
  (forall id, ue_id (mk id) = id) -> monotone (insert_user_event mk).
Proof.
  intros Hmk d; unfold insert_user_event; repeat case_match; simpl;
    split; simpl; try apply db_mono_preorder; try lia.
  eexists; split; [done|]; repeat constructor; rewrite Hmk; lia.
Qed.

Lemma monotone_insert_block iid ingress number count ts data :
  monotone (insert_ingested_block iid ingress number count ts data).
Proof.
  intros d; unfold insert_ingested_block; repeat case_match; simpl;
    split; simpl; try apply db_mono_preorder; eauto.
Qed.

Lemma monotone_upsert ingress iid report_id report expiry :
  monotone (upsert_report ingress iid report_id report expiry).
Proof.
  intros d; unfold upsert_report; repeat case_match; simpl; split; simpl; apply db_mono_preorder.
Qed.

Lemma monotone_raise key expiry : monotone (raise_pubkey_expiry key expiry).
Proof.
  intros d; unfold raise_pubkey_expiry; destruct (db_ingress_keys d !! key) as [k|] eqn:Hk;
    [|reflexivity]; case_match; [|reflexivity]; bool_to_prop.
  split; simpl; try apply db_mono_preorder.
  intros key' k' Hk'; destruct (decide (key' = key)) as [->|Hne].
  - rewrite lookup_insert_eq; eexists; split; [done|]; simpl; simplify_eq; split_and!; auto; lia.
  - rewrite lookup_insert_ne by done; exists k'; split_and!; auto; lia.
Qed.

Lemma monotone_decommission now iid : monotone (decommission_ingest_invocation_impl now iid).
Proof.
  apply monotone_bind; [apply monotone_touch_invocations|intros _; by apply monotone_insert_event].
  intros r; by case_match.
Qed.

Lemma monotone_update_last_active now iid : monotone (update_last_active_at_impl now iid).
Proof. apply monotone_touch_invocations; intros r; by case_match. Qed.

Create HintDb monotone.
#[export] Hint Resolve monotone_insert_invocation monotone_insert_event monotone_insert_block
  monotone_upsert monotone_raise monotone_decommission monotone_update_last_active : monotone.
#[export] Hint Extern 1 (ue_id _ = _) => reflexivity : monotone.
#[export] Hint Extern 1 (monotone (mret _)) => (apply monotone_same; done) : monotone.
#[export] Hint Extern 1 (monotone (tx_err _)) => (apply monotone_same; done) : monotone.
#[export] Hint Extern 1 (monotone (tx_lift _)) => (apply monotone_same; done) : monotone.
#[export] Hint Extern 1 (monotone (tx_get _)) => (apply monotone_same; done) : monotone.

Ltac solve_monotone :=
  repeat first
    [ solve [eauto with monotone]
    | apply monotone_with_conn | apply monotone_transaction
    | apply monotone_bind; [|intros ?] | case_match ].

Lemma db_step_mono d d' : db_step d d' -> db_mono d d'.
Proof.
  intros Hstep; destruct Hstep.
  - revert d; change (monotone (new_ingress_key pool key start_block)); unfold new_ingress_key.
    apply monotone_with_conn; intros d; unfold mbind, tx_bind, tx_get.
    destruct (db_ingress_keys d !! key) as [k|] eqn:Hk; [reflexivity|]; simpl.
    split; simpl; try apply db_mono_preorder; intros key' k' Hk'.
    rewrite lookup_insert_ne by congruence; exists k'; split_and!; auto; lia.
  - revert d; change (monotone (retire_ingress_key pool key b)); unfold retire_ingress_key.
    apply monotone_with_conn, monotone_alter; intros k; simpl; split_and!; auto; lia.
  - revert d; change (monotone (new_ingest_invocation pool now prev ingress egress start_block)).
    unfold new_ingest_invocation; solve_monotone.
  - revert d; change (monotone (decommission_ingest_invocation pool now iid)).
    unfold decommission_ingest_invocation; solve_monotone.
  - assert (Hm : monotone (transaction (add_block_data_tx now encode iid block ts txs)))
      by (unfold add_block_data_tx; solve_monotone).
    specialize (Hm d); unfold add_block_data, with_conn; destruct pool; [|reflexivity].
    destruct (transaction _ d) as [[u|[[]| | | | | | | | | |]] d1]; done.
  - revert d; change (monotone (report_lost_ingress_key pool key)).
    unfold report_lost_ingress_key, report_lost_ingress_key_tx; solve_monotone.
    apply monotone_alter; intros k; simpl; split_and!; auto; lia.
  - revert d; change (monotone (update_last_active_at pool now iid)).
    unfold update_last_active_at; solve_monotone.
  - revert d; change (monotone (set_report pool encode key report_id data)).
    unfold set_report, set_report_tx, raised_key_status, get_ingress_key_status_impl; solve_monotone.
  - revert d; change (monotone (remove_report pool report_id)); unfold remove_report.
    apply monotone_with_conn; intros d; split; simpl; apply db_mono_preorder.
Qed.

Lemma db_steps_mono d d' : rtc db_step d d' -> db_mono d d'.
Proof.
  induction 1 as [|d1 d2 d3 Hstep _ IH]; [reflexivity|].
  etrans; [by apply db_step_mono|done].
Qed.

Lemma db_steps_wf d d' : rtc db_step d d' -> db_wf d -> db_wf d'.
Proof.
  induction 1 as [|d1 d2 d3 Hstep _ IH]; [done|].
  intros Hd; apply IH; by destruct (db_step_wf _ _ Hd Hstep).
Qed.

(** ** Computations that do not touch the stored blocks *)

Definition keeps_blocks {A} (m : tx A) : Prop := forall d,
  db_ingested_blocks (m d).2 = db_ingested_blocks d.

Lemma keeps_blocks_bind {A B} (m : tx A) (f : A -> tx B) :
  keeps_blocks m -> (forall a, keeps_blocks (f a)) -> keeps_blocks (m ≫= f).
Proof.
  intros Hm Hf d; unfold mbind, tx_bind; specialize (Hm d).
  destruct (m d) as [[a|e] d1]; simpl in *; [|done]; by rewrite Hf.
Qed.

Lemma keeps_blocks_transaction {A} (m : tx A) : keeps_blocks m -> keeps_blocks (transaction m).
Proof.
  intros Hm d; unfold transaction; specialize (Hm d); by destruct (m d) as [[a|e] d1].
Qed.

Lemma keeps_blocks_with_conn {A} pool (m : tx A) : keeps_blocks m -> keeps_blocks (with_conn pool m).
Proof. intros Hm d; unfold with_conn; destruct pool; [apply Hm|done]. Qed.

Lemma keeps_blocks_modify f :
  (forall d, db_ingested_blocks (f d) = db_ingested_blocks d) -> keeps_blocks (tx_modify f).
Proof. intros Hf d; apply Hf. Qed.

Lemma keeps_blocks_insert_invocation ingress egress now start version :
  keeps_blocks (insert_ingest_invocation ingress egress now start version).
Proof. intros d; unfold insert_ingest_invocation; by repeat case_match. Qed.

Lemma keeps_blocks_insert_event mk : keeps_blocks (insert_user_event mk).
Proof. intros d; unfold insert_user_event; by repeat case_match. Qed.

Lemma keeps_blocks_upsert ingress iid report_id report expiry :
  keeps_blocks (upsert_report ingress iid report_id report expiry).
Proof. intros d; unfold upsert_report; by repeat case_match. Qed.

Lemma keeps_blocks_raise key expiry : keeps_blocks (raise_pubkey_expiry key expiry).
Proof. intros d; unfold raise_pubkey_expiry; by repeat case_match. Qed.

Create HintDb keeps_blocks.
#[export] Hint Resolve keeps_blocks_insert_invocation keeps_blocks_insert_event
  keeps_blocks_upsert keeps_blocks_raise : keeps_blocks.
#[export] Hint Extern 1 (keeps_blocks (mret _)) => (intros ?; reflexivity) : keeps_blocks.
#[export] Hint Extern 1 (keeps_blocks (tx_err _)) => (intros ?; reflexivity) : keeps_blocks.
#[export] Hint Extern 1 (keeps_blocks (tx_lift _)) => (intros ?; reflexivity) : keeps_blocks.
#[export] Hint Extern 1 (keeps_blocks (tx_get _)) => (intros ?; reflexivity) : keeps_blocks.
#[export] Hint Extern 1 (keeps_blocks (tx_modify _)) =>
  (apply keeps_blocks_modify; intros ?; reflexivity) : keeps_blocks.

Ltac solve_keeps_blocks :=
  repeat first
    [ solve [eauto with keeps_blocks]
    | apply keeps_blocks_with_conn | apply keeps_blocks_transaction
    | apply keeps_blocks_bind; [|intros ?] | case_match ].

Lemma new_ingress_key_keeps pool key b : keeps_blocks (new_ingress_key pool key b).
Proof. unfold new_ingress_key; solve_keeps_blocks. Qed.
Lemma retire_ingress_key_keeps pool key b : keeps_blocks (retire_ingress_key pool key b).
Proof. unfold retire_ingress_key; solve_keeps_blocks. Qed.
Lemma new_ingest_invocation_keeps pool now prev ingress egress b :
  keeps_blocks (new_ingest_invocation pool now prev ingress egress b).
Proof.
  unfold new_ingest_invocation, decommission_ingest_invocation_impl; solve_keeps_blocks.
Qed.
Lemma decommission_ingest_invocation_keeps pool now iid :
  keeps_blocks (decommission_ingest_invocation pool now iid).
Proof.
  unfold decommission_ingest_invocation, decommission_ingest_invocation_impl; solve_keeps_blocks.
Qed.
Lemma report_lost_ingress_key_keeps pool key : keeps_blocks (report_lost_ingress_key pool key).
Proof. unfold report_lost_ingress_key, report_lost_ingress_key_tx; solve_keeps_blocks. Qed.
Lemma set_report_keeps pool {Report} (encode : Report -> result bytes Z) key id data :
  keeps_blocks (set_report pool encode key id data).
Proof.
  unfold set_report, set_report_tx, raised_key_status, get_ingress_key_status_impl;
    solve_keeps_blocks.
Qed.

(** Storing a block appends it, or leaves the blocks as they are. *)
Lemma add_block_data_blocks pool now encode iid block ts txs d res d' :
  add_block_data pool now encode iid block ts txs d = (res, d') ->
  match res with
  | Ok status =>
      if block_already_scanned_with_this_key status
      then db_ingested_blocks d' = db_ingested_blocks d
      else exists data b, encode txs = Ok data
        /\ db_ingested_blocks d' = db_ingested_blocks d ++ [b]
        /\ ib_block_number b = as_i64 (bh_index block) /\ ib_proto_ingested_block_data b = data
        /\ ib_ingest_invocation_id b = iid
  | Err _ => db_ingested_blocks d' = db_ingested_blocks d
  end.
Proof.
  unfold add_block_data, with_conn, transaction, add_block_data_tx, mbind, tx_bind, tx_get, tx_lift.
  destruct pool as [[]|]; [|by intros [= <- <-]].
  destruct (head (filter _ (db_ingest_invocations d))) as [r|]; [|by intros [= <- <-]].
  destruct (encode txs) as [data|e] eqn:Henc; simpl; [|by intros [= <- <-]].
  unfold insert_ingested_block.
  destruct (existsb _ _ || existsb _ _); [by intros [= <- <-]|].
  destruct (negb _ || _); simpl; intros Heq; injection Heq as <- <-; [done|]; simpl.
  do 2 eexists; split; [done|]; split; [done|done].
Qed.

(** A new invocation is in the table under the id that is returned. *)
Lemma insert_invocation_row now ingress egress version start d iid d' :
  (iid ← insert_ingest_invocation ingress egress now start version;
   insert_user_event (NewUserEvent_new_ingest_invocation iid);;
   mret iid) d = (Ok iid, d') ->
  exists r, r ∈ db_ingest_invocations d' /\ ii_id r = iid
    /\ ii_ingress_public_key r = ingress /\ ii_egress_public_key r = egress.
Proof.
  unfold mbind, tx_bind, insert_ingest_invocation.
  destruct (existsb _ _); [done|]; destruct (bool_decide _); [done|].
  unfold insert_user_event; simpl.
  destruct (existsb _ _); [done|]; destruct (negb _); [done|].
  intros Heq; injection Heq as <- <-; simpl; eexists; split; [apply elem_of_app; right; by constructor|].
  done.
Qed.

Lemma new_ingest_invocation_row pool now prev ingress egress start d iid d' :
  new_ingest_invocation pool now prev ingress egress start d = (Ok iid, d') ->
  exists r, r ∈ db_ingest_invocations d' /\ ii_id r = iid
    /\ ii_ingress_public_key r = ingress /\ ii_egress_public_key r = krp_public_key egress.
Proof.
  unfold new_ingest_invocation, with_conn, transaction; destruct pool as [[]|]; [|done].
  intros Hcall.
  match type of Hcall with (let (_, _) := ?m in _) = _ => destruct m as [[i|e] d2] eqn:Hm end;
    simplify_eq.
  unfold mbind at 1, tx_bind at 1 in Hm; destruct prev as [p|].
  - destruct (decommission_ingest_invocation_impl now p d) as [[[]|e] d1]; [|done].
    eapply insert_invocation_row; exact Hm.
  - eapply insert_invocation_row; exact Hm.
Qed.
