(* ===== verification/RecoveryDbSpec.v ===== *)
(** * What the recovery database promises its clients

    The invariant and the history of the tables, incremental polling of user
    events, the write-once rule for block data, the accounting of lost keys and
    the publication of reports. *)

From S2P Require Import Prelude FogTypes RecoveryTypes RecoveryDb RecoveryDbWf.

Local Open Scope Z_scope.
Local Open Scope fog_scope.

(** ** Filters and lists sorted by id *)

Lemma filter_all {A} (P : A -> Prop) `{!forall x, Decision (P x)} (l : list A) :
  (forall x, x ∈ l -> P x) -> filter P l = l.
Proof.
  induction l as [|x l IH]; intros Hl; [done|].
  rewrite filter_cons, decide_True by (apply Hl; by constructor).
  f_equal; apply IH; intros y Hy; apply Hl; by constructor.
Qed.

Lemma filter_none {A} (P : A -> Prop) `{!forall x, Decision (P x)} (l : list A) :
  (forall x, x ∈ l -> ~ P x) -> filter P l = [].
Proof.
  intros Hl; apply elem_of_nil_inv; intros x [Hx1 Hx2]%list_elem_of_filter; by apply (Hl x).
Qed.

Lemma StronglySorted_filter_fmap {A} (f : A -> Z) (P : A -> Prop) `{!forall x, Decision (P x)} l :
  StronglySorted Z.lt (f <$> l) -> StronglySorted Z.lt (f <$> filter P l).
Proof.
  induction l as [|x l IH]; simpl; [done|]; intros Hl; inversion Hl as [|? ? Hs Hx]; subst.
  rewrite filter_cons; case_decide; simpl; [|by apply IH].
  constructor; [by apply IH|]; rewrite Forall_fmap in Hx |- *.
  apply Forall_forall; intros y [_ Hy]%list_elem_of_filter.
  rewrite Forall_forall in Hx; by apply Hx.
Qed.

Lemma StronglySorted_lt_le {A} (f : A -> Z) (R : A -> A -> Prop) l :
  (forall x y, R x y <-> f x <= f y) -> StronglySorted Z.lt (f <$> l) -> StronglySorted R l.
Proof.
  intros HR; induction l as [|x l IH]; simpl; [constructor|].
  intros H; inversion H as [|? ? Hs Hx]; subst; constructor; [by apply IH|].
  rewrite Forall_fmap in Hx; eapply Forall_impl; [exact Hx|]; simpl; intros y Hy; apply HR; lia.
Qed.

Lemma StronglySorted_lt_inj {A} (f : A -> Z) l x y :
  StronglySorted Z.lt (f <$> l) -> x ∈ l -> y ∈ l -> f x = f y -> x = y.
Proof.
  induction l as [|z l IH]; simpl; [by intros _ ?%not_elem_of_nil|].
  intros H; inversion H as [|? ? Hs Hz]; subst; rewrite Forall_fmap, Forall_forall in Hz.
  intros [->|Hx]%elem_of_cons [->|Hy]%elem_of_cons Hf; [done| | |by apply IH].
  - specialize (Hz _ Hy); simpl in Hz; lia.
  - specialize (Hz _ Hx); simpl in Hz; lia.
Qed.

(** Sorting a list that is strictly sorted by id changes nothing. *)
Lemma merge_sort_sorted {A} (f : A -> Z) (R : A -> A -> Prop) `{!RelDecision R} l :
  (forall x y, R x y <-> f x <= f y) -> StronglySorted Z.lt (f <$> l) -> merge_sort R l = l.
Proof.
  intros HR Hl.
  assert (Transitive R) by (intros x y z; rewrite !HR; lia).
  assert (Total R) by (intros x y; rewrite !HR; lia).
  apply (StronglySorted_unique_strong R).
  - intros x y Hx Hy Hxy Hyx; rewrite merge_sort_Permutation in Hx.
    apply (StronglySorted_lt_inj f l); auto; apply HR in Hxy, Hyx; lia.
  - by apply StronglySorted_merge_sort.
  - by eapply StronglySorted_lt_le.
  - apply merge_sort_Permutation.
Qed.

(** ** Events *)

Lemma find_invocation invs r :
  StronglySorted Z.lt (ii_id <$> invs) -> r ∈ invs ->
  head (filter (fun x => ii_id x = ii_id r) invs) = Some r.
Proof.
  induction invs as [|x invs IH]; [by intros _ ?%not_elem_of_nil|]; simpl; intros Hs Hr.
  pose proof Hs as Hs'; inversion Hs' as [|? ? Hs1 Hx]; subst; rewrite filter_cons.
  apply elem_of_cons in Hr as [->|Hr]; [by rewrite decide_True|].
  rewrite decide_False; [by apply IH|].
  rewrite Forall_fmap, Forall_forall in Hx; specialize (Hx _ Hr); simpl in Hx; lia.
Qed.

Lemma event_of_row_total d e :
  db_wf d -> event_shape (db_ingest_invocations d) e -> exists ev, event_of_row d e = Ok ev.
Proof.
  intros Hd; unfold event_shape, event_of_row; destruct (ue_event_type e).
  - intros (r & Hr & ->); simpl; rewrite find_invocation by (done || apply Hd); simpl; eauto.
  - intros (r & Hr & ->); simpl; eauto.
  - intros [[a ->] [b ->]]; simpl; eauto.
Qed.

Definition row_event (d : Db) (e : UserEvent) (p : Z * FogUserEvent) : Prop :=
  p.1 = ue_id e /\ event_of_row d e = Ok p.2.

Lemma events_of_rows_total d rows :
  db_wf d -> Forall (event_shape (db_ingest_invocations d)) rows ->
  exists evs, events_of_rows d rows = Ok evs /\ Forall2 (row_event d) rows evs.
Proof.
  intros Hd; induction 1 as [|e rows He _ (evs & IH & H2)]; simpl; [by exists []|].
  destruct (event_of_row_total d e Hd He) as [ev Hev]; rewrite Hev, IH; simpl.
  eexists; split; [done|]; constructor; [done|exact H2].
Qed.

Lemma foldl_max (l : list UserEvent) m :
  m <= foldl (fun m e => Z.max m (ue_id e)) m l
  /\ (forall e, e ∈ l -> ue_id e <= foldl (fun m e => Z.max m (ue_id e)) m l)
  /\ (foldl (fun m e => Z.max m (ue_id e)) m l = m
      \/ exists e, e ∈ l /\ foldl (fun m e => Z.max m (ue_id e)) m l = ue_id e).
Proof.
  revert m; induction l as [|x l IH]; intros m; simpl.
  - split_and!; [lia|by intros ? ?%not_elem_of_nil|by left].
  - destruct (IH (Z.max m (ue_id x))) as (H1 & H2 & H3); split_and!; [lia| |].
    + intros e [->|He]%elem_of_cons; [lia|by apply H2].
    + destruct H3 as [->|(e & He & ->)]; [|right; exists e; split; [by constructor|done]].
      destruct (Z.max_spec m (ue_id x)) as [[? ->]|[? ->]]; [|by left].
      right; exists x; split; [by constructor|done].
Qed.

Definition events_after (start : Z) (d : Db) : list UserEvent :=
  filter (fun e => start < ue_id e) (db_user_events d).

(** A search returns the events of the rows after [start], in id order. *)
Lemma search_user_events_spec start d :
  db_wf d -> start <> 9223372036854775807 ->
  exists evs,
    search_user_events (Ok tt) start d =
      (Ok (evs, foldl (fun m e => Z.max m (ue_id e)) start (events_after start d)), d)
    /\ Forall2 (fun e ev => event_of_row d e = Ok ev) (events_after start d) evs.
Proof.
  intros Hd Hstart; unfold search_user_events, with_conn.
  destruct (Z.eqb_spec start 9223372036854775807) as [|_]; [done|].
  destruct (events_of_rows_total d (events_after start d) Hd) as (evs & Hevs & H2).
  { apply Forall_forall; intros e [_ He]%list_elem_of_filter.
    pose proof (wf_event_shape _ Hd) as Hs; rewrite Forall_forall in Hs; by apply Hs. }
  unfold events_after in *; rewrite Hevs.
  assert (Hids : evs.*1 = ue_id <$> filter (fun e => start < ue_id e) (db_user_events d)).
  { clear Hevs; induction H2 as [|e p rows evs [He _] _ IH]; simpl; [done|]; by f_equal. }
  rewrite (merge_sort_sorted fst); [|done|].
  - exists evs.*2; split; [done|]; apply Forall2_fmap_r.
    eapply Forall2_impl; [exact H2|]; by intros e p [].
  - rewrite Hids; apply StronglySorted_filter_fmap, Hd.
Qed.

(** ** Block data *)

Definition tables_equal (d d' : Db) : Prop :=
  db_ingress_keys d' = db_ingress_keys d /\ db_ingest_invocations d' = db_ingest_invocations d
  /\ db_ingested_blocks d' = db_ingested_blocks d /\ db_user_events d' = db_user_events d
  /\ db_reports d' = db_reports d.

Lemma tables_equal_rollback d d' : tables_equal d (rollback d d').
Proof. done. Qed.

Lemma rows_unique d key index b :
  db_wf d -> b ∈ db_ingested_blocks d -> ib_ingress_public_key b = key ->
  ib_block_number b = as_i64 index -> rows_by_block_and_key key index d = [b].
Proof.
  intros Hd Hb Hkey Hnum; unfold rows_by_block_and_key, blocks_of_key.
  pose proof (wf_blocks_unique _ Hd) as Hnd.
  induction (db_ingested_blocks d) as [|x l IH]; [by apply not_elem_of_nil in Hb|].
  simpl in Hnd; apply NoDup_cons in Hnd as [Hx Hnd].
  apply elem_of_cons in Hb as [->|Hb].
  - rewrite !filter_cons, decide_True, filter_cons, decide_True by done; f_equal.
    apply filter_none; intros y [Hy2 Hy3]%list_elem_of_filter Hy1; apply Hx.
    apply list_elem_of_fmap; exists y; split; [congruence|done].
  - rewrite filter_cons; case_decide as Hxk; [|by apply IH].
    rewrite filter_cons, decide_False; [by apply IH|]; intros Hxn.
    apply Hx, list_elem_of_fmap; exists b; split; [congruence|done].
Qed.

(** The outcome of a call that stored nothing, and of one that stored. *)
Lemma add_block_data_cases now encode iid block ts txs d status d1 :
  db_wf d ->
  add_block_data (Ok tt) now encode iid block ts txs d = (Ok status, d1) ->
  exists r, r ∈ db_ingest_invocations d /\ ii_id r = iid /\
  if block_already_scanned_with_this_key status then
    tables_equal d d1 /\ exists b, b ∈ db_ingested_blocks d
      /\ ib_ingress_public_key b = ii_ingress_public_key r
      /\ ib_block_number b = as_i64 (bh_index block)
  else exists data b, encode txs = Ok data /\ b ∈ db_ingested_blocks d1
    /\ ib_ingress_public_key b = ii_ingress_public_key r
    /\ ib_ingest_invocation_id b = iid
    /\ ib_block_number b = as_i64 (bh_index block)
    /\ ib_proto_ingested_block_data b = data.
Proof.
  intros Hd; unfold add_block_data, with_conn, transaction, add_block_data_tx, mbind, tx_bind,
    tx_get, tx_lift.
  destruct (head (filter _ (db_ingest_invocations d))) as [r|] eqn:Hr; [|done].
  apply head_Some_elem_of, list_elem_of_filter in Hr as [Hid Hr].
  destruct (encode txs) as [data|e] eqn:Henc; simpl; [|done].
  unfold insert_ingested_block.
  destruct (existsb _ _ || existsb _ _) eqn:Hdup;
    [|destruct (negb _ || _) eqn:Hfk; simpl; [by intros|]];
    simpl; intros Heq; injection Heq as <- <-; simpl; exists r; split_and!; auto.
  - apply tables_equal_rollback.
  - apply orb_true_iff in Hdup as [Hdup|Hdup];
      apply existsb_exists in Hdup as (b & Hb & Hb'); apply list_elem_of_In in Hb;
      apply andb_true_iff in Hb' as [H1 H2];
      rewrite Z.eqb_eq in H2; exists b; split_and!; try done; [|by rewrite bool_decide_eq_true in H1].
    rewrite Z.eqb_eq in H1; pose proof (wf_blocks_inv _ Hd) as Hfor; rewrite Forall_forall in Hfor.
    destruct (Hfor _ Hb) as (r' & Hr' & Hid' & <-); f_equal.
    apply (StronglySorted_lt_inj ii_id (db_ingest_invocations d)); [apply Hd|done..|congruence].
  - exists data; eexists; split; [done|]; split; [apply elem_of_app; right; by constructor|done].
Qed.

Lemma get_tx_outs_by_block_and_key_stored decode d key index b txs :
  db_wf d -> b ∈ db_ingested_blocks d -> ib_ingress_public_key b = key ->
  ib_block_number b = as_i64 index ->
  decode (ib_proto_ingested_block_data b) = Ok txs ->
  get_tx_outs_by_block_and_key (Ok tt) decode key index d = (Ok (Some txs), d).
Proof.
  intros Hd Hb Hk Hn Hdec; unfold get_tx_outs_by_block_and_key, with_conn, mbind, tx_bind, tx_get.
  rewrite (rows_unique _ _ _ _ Hd Hb Hk Hn); simpl; unfold mbind, tx_bind, tx_lift.
  by rewrite Hdec.
Qed.

(** ** Lost keys *)

(** The blocks a key was responsible for and that were not scanned with it. *)
Definition lost_range (d : Db) (key : bytes) (k : IngressKey) : BlockRange :=
  mkBlockRange
    match max_block (blocks_of_key d key) with
    | Some last => Z.max (as_u64 (ik_start_block k)) (as_u64 last + 1)
    | None => as_u64 (ik_start_block k)
    end
    (as_u64 (ik_pubkey_expiry k)).

Definition mark_lost (key : bytes) : Db -> Db :=
  set_keys (alter (fun k =>
    mkIngressKey (ik_start_block k) (ik_pubkey_expiry k) (ik_retired k) true) key).

Lemma insert_user_event_ok mk d :
  existsb (event_conflicts (mk (db_next_event d))) (db_user_events d) = false ->
  event_refs_ok d (mk (db_next_event d)) = true ->
  insert_user_event mk d =
    (Ok tt, set_events (db_user_events d ++ [mk (db_next_event d)]) (db_next_event d + 1) d).
Proof. intros H1 H2; unfold insert_user_event; by rewrite H1, H2. Qed.

Lemma report_lost_cases d key k :
  db_ingress_keys d !! key = Some k ->
  (forall last, max_block (blocks_of_key d key) = Some last -> as_u64 last < u64_max) ->
  report_lost_ingress_key_tx key d =
    if br_start_block (lost_range d key k) <? br_end_block (lost_range d key k)
    then insert_user_event (NewUserEvent_missing_blocks (lost_range d key k)) (mark_lost key d)
    else (Ok tt, mark_lost key d).
Proof.
  intros Hk Hlast; unfold report_lost_ingress_key_tx, mbind, tx_bind, tx_get, tx_modify; simpl.
  rewrite lookup_alter_eq, Hk; simpl; unfold lost_range.
  change (blocks_of_key (set_keys _ d) key) with (blocks_of_key d key).
  destruct (max_block (blocks_of_key d key)) as [last|]; simpl.
  - specialize (Hlast last eq_refl).
    assert (H0 : 0 <= as_u64 last) by solve_u64.
    assert (Hadd : as_u64 last +w 1 = as_u64 last + 1) by (unfold_u64; solve_u64).
    rewrite Hadd; unfold BlockRange_is_valid; simpl.
    destruct (Z.leb_spec (as_u64 (ik_pubkey_expiry k)) (as_u64 last + 1)).
    + destruct (Z.ltb_spec (Z.max (as_u64 (ik_start_block k)) (as_u64 last + 1))
        (as_u64 (ik_pubkey_expiry k))); [lia|done].
    + destruct (Z.ltb_spec (as_u64 (ik_start_block k)) (as_u64 last + 1)).
      * rewrite Z.max_r by lia; by destruct (_ <? _).
      * rewrite Z.max_l by lia; by destruct (_ <? _).
  - unfold BlockRange_is_valid; simpl; by destruct (_ <? _).
Qed.

Lemma lost_range_u64 d key k :
  (forall last, max_block (blocks_of_key d key) = Some last -> as_u64 last < u64_max) ->
  is_u64 (br_start_block (lost_range d key k)) /\ is_u64 (br_end_block (lost_range d key k)).
Proof.
  intros Hlast; unfold lost_range; simpl; split; [|solve_u64].
  destruct (max_block _) as [last|]; [specialize (Hlast last eq_refl)|]; solve_u64.
Qed.

Lemma lost_range_covers d key k :
  (forall last, max_block (blocks_of_key d key) = Some last -> as_u64 last < u64_max) ->
  forall b, as_u64 (ik_start_block k) <= b < as_u64 (ik_pubkey_expiry k) ->
    (exists last, max_block (blocks_of_key d key) = Some last /\ b <= as_u64 last)
    \/ BlockRange_contains (lost_range d key k) b = true.
Proof.
  intros Hlast b Hb; rewrite BlockRange_contains_spec; unfold lost_range; simpl.
  destruct (max_block _) as [last|]; [|by right].
  destruct (Z.le_gt_cases b (as_u64 last)); [left; eauto|right; lia].
Qed.

(** Among missed ranges only an equal one conflicts. *)
Lemma missing_conflict range id events :
  existsb (event_conflicts (NewUserEvent_missing_blocks range id)) events = true ->
  exists ev, ev ∈ events
    /\ ue_missing_blocks_start ev = Some (as_i64 (br_start_block range))
    /\ ue_missing_blocks_end ev = Some (as_i64 (br_end_block range)).
Proof.
  intros (ev & Hev & Hc)%existsb_exists; apply list_elem_of_In in Hev; exists ev; split; [done|].
  unfold event_conflicts, same_some in Hc; simpl in Hc.
  destruct (ue_missing_blocks_start ev), (ue_missing_blocks_end ev); simpl in Hc;
    bool_to_prop; try done; split; f_equal; lia.
Qed.

Lemma missed_ranges_total rows :
  Forall (fun e => is_Some (ue_missing_blocks_start e) /\ is_Some (ue_missing_blocks_end e)) rows ->
  exists ranges, missed_ranges rows = Ok ranges /\
    forall e s t, e ∈ rows -> ue_missing_blocks_start e = Some s -> ue_missing_blocks_end e = Some t ->
      mkBlockRange (as_u64 s) (as_u64 t) ∈ ranges.
Proof.
  induction 1 as [|e rows [[s Hs] [t Ht]] _ (ranges & IH & Hin)]; simpl.
  - exists []; split; [done|]; by intros ? ? ? ?%not_elem_of_nil.
  - rewrite Hs, Ht, IH; simpl; eexists; split; [done|].
    intros e' s' t' [->|He']%elem_of_cons Hs' Ht'; simplify_eq; [by constructor|].
    apply elem_of_cons; right; by eapply Hin.
Qed.

Lemma get_missed_block_ranges_total d :
  db_wf d -> exists ranges, get_missed_block_ranges (Ok tt) d = (Ok ranges, d) /\
    forall e s t, e ∈ db_user_events d -> ue_event_type e = EventMissingBlocks ->
      ue_missing_blocks_start e = Some s -> ue_missing_blocks_end e = Some t ->
      mkBlockRange (as_u64 s) (as_u64 t) ∈ ranges.
Proof.
  intros Hd; unfold get_missed_block_ranges, get_missed_block_ranges_impl, with_conn, mbind,
    tx_bind, tx_get, tx_lift.
  set (rows := filter _ (db_user_events d)).
  destruct (missed_ranges_total (merge_sort event_le rows)) as (ranges & Hr & Hin).
  - rewrite merge_sort_Permutation; apply Forall_forall; intros e [Ht He]%list_elem_of_filter.
    pose proof (wf_event_shape _ Hd) as Hs; rewrite Forall_forall in Hs.
    specialize (Hs _ He); unfold event_shape in Hs; by rewrite Ht in Hs.
  - rewrite Hr; eexists; split; [done|]; intros e s t He Ht.
    apply Hin; rewrite merge_sort_Permutation; by apply list_elem_of_filter.
Qed.

(** ** Reports *)

Lemma filter_upsert (rows : list ReportRow) (id : bytes) (g : ReportRow -> ReportRow) :
  (forall r, rp_fog_report_id (g r) = id) ->
  forall id', filter (fun r => rp_fog_report_id r = id')
      ((fun r => if bool_decide (rp_fog_report_id r = id) then g r else r) <$> rows)
    = if bool_decide (id' = id) then g <$> filter (fun r => rp_fog_report_id r = id) rows
      else filter (fun r => rp_fog_report_id r = id') rows.
Proof.
  intros Hg id'; induction rows as [|r rows IH]; [by case_bool_decide|].
  rewrite fmap_cons, !filter_cons, IH; destruct (decide (rp_fog_report_id r = id)) as [Hr|Hr].
  - rewrite bool_decide_true, Hg, Hr by done; case_bool_decide; subst; simpl.
    + by rewrite decide_True.
    + by rewrite decide_False, decide_False by congruence.
  - rewrite bool_decide_false by done; case_bool_decide; subst; [by rewrite decide_False|done].
Qed.

Lemma filter_unique_report (rows : list ReportRow) r :
  NoDup (rp_fog_report_id <$> rows) -> r ∈ rows ->
  filter (fun x => rp_fog_report_id x = rp_fog_report_id r) rows = [r].
Proof.
  induction rows as [|x rows IH]; simpl; [by intros _ ?%not_elem_of_nil|].
  intros [Hx Hnd]%NoDup_cons [->|Hr]%elem_of_cons; rewrite filter_cons.
  - rewrite decide_True by done; f_equal; apply filter_none; intros y Hy2 Hy1.
    apply Hx; rewrite <- Hy1; by apply list_elem_of_fmap_2.
  - rewrite decide_False; [by apply IH|].
    intros Heq; apply Hx; rewrite Heq; by apply list_elem_of_fmap_2.
Qed.

(** After an upsert exactly one row has the report id, with the new contents, and the
    other rows are as before. *)
Lemma upsert_report_ok d ingress iid id report expiry :
  db_wf d -> is_Some (db_ingress_keys d !! ingress) ->
  (forall i, iid = Some i -> has_invocation d i = true) ->
  exists rows n row, upsert_report ingress iid id report expiry d = (Ok tt, set_reports rows n d)
    /\ filter (fun r => rp_fog_report_id r = id) rows = [row]
    /\ row = mkReportRow (rp_id row) ingress iid id report expiry
    /\ forall id', id' <> id -> filter (fun r => rp_fog_report_id r = id') rows
         = filter (fun r => rp_fog_report_id r = id') (db_reports d).
Proof.
  intros Hd Hk Hi; unfold upsert_report; rewrite bool_decide_false by (destruct Hk; congruence).
  replace (match iid with Some i => negb (has_invocation d i) | None => false end) with false
    by (destruct iid as [i|]; [by rewrite (Hi i)|done]).
  simpl; destruct (existsb _ (db_reports d)) eqn:Hex.
  - apply existsb_exists in Hex as (r & Hr & Hid); apply list_elem_of_In in Hr.
    apply bool_decide_eq_true in Hid; subst id.
    eexists _, _, (mkReportRow (rp_id r) ingress iid (rp_fog_report_id r) report expiry).
    split; [done|]; rewrite filter_upsert, bool_decide_true by done.
    rewrite filter_unique_report by (apply Hd || done); split_and!; [done..|].
    intros id' Hid'; by rewrite filter_upsert, bool_decide_false.
  - apply existsb_false_Forall in Hex.
    eexists _, _, (mkReportRow (db_next_report d) ingress iid id report expiry); split; [done|].
    rewrite filter_app, filter_cons, decide_True by done; split_and!; [|done|].
    + rewrite filter_none; [done|]; intros y Hy2 Hy1.
      rewrite Forall_forall in Hex; specialize (Hex _ Hy2); by rewrite bool_decide_true in Hex.
    + intros id' Hid'; rewrite filter_app, filter_cons, decide_False by (simpl; congruence).
      by rewrite filter_nil, app_nil_r.
Qed.

(** ** The properties *)


(** History is never rewritten: along any sequence of operations, with connection failures,
    constraint violations and rollbacks among them, events and ingested blocks are only appended
    (events under fresh ids), a key keeps its start block, never lowers its expiry and never
    stops being lost, and an invocation keeps its identity and never stops being
    decommissioned. *)
Theorem db_history d d' : rtc db_step d d' -> db_mono d d'.
Proof. apply db_steps_mono. Qed.


(** C21: Block data is written once and kept: a call that stores a block makes exactly its records
    readable under the key of the invocation, then and after any further operations; a call that
    reports the block as already scanned left every table as it was, and a block with this index
    was already stored under that key. *)
Theorem add_block_data_write_once now (encode : list ETxOutRecord -> result bytes Z)
    (decode : bytes -> result (list ETxOutRecord) Z) iid block ts txs d status d1 d2 :
  (forall txs data, encode txs = Ok data -> decode data = Ok txs) ->
  db_reachable d ->
  add_block_data (Ok tt) now encode iid block ts txs d = (Ok status, d1) ->
  rtc db_step d1 d2 ->
  exists r, r ∈ db_ingest_invocations d /\ ii_id r = iid /\
  if block_already_scanned_with_this_key status then
    tables_equal d d1 /\ exists b, b ∈ db_ingested_blocks d
      /\ ib_ingress_public_key b = ii_ingress_public_key r
      /\ ib_block_number b = as_i64 (bh_index block)
  else get_tx_outs_by_block_and_key (Ok tt) decode (ii_ingress_public_key r) (bh_index block) d2
       = (Ok (Some txs), d2).
Proof.
  intros Hcodec Hr Hadd Hsteps; pose proof (db_reachable_wf _ Hr) as Hd.
  destruct (add_block_data_cases _ _ _ _ _ _ _ _ _ Hd Hadd) as (r & Hr1 & Hid & Hcase).
  exists r; split; [done|]; split; [done|].
  destruct (block_already_scanned_with_this_key status); [done|].
  destruct Hcase as (data & b & Henc & Hb & Hkey & _ & Hnum & Hdata).
  assert (Hd1 : db_wf d1).
  { pose proof (step_add_block_data d (Ok tt) now encode iid block ts txs) as Hstep.
    rewrite Hadd in Hstep; by destruct (db_step_wf _ _ Hd Hstep). }
  destruct (db_steps_mono _ _ Hsteps) as [_ _ [new Hnew] _ _].
  eapply get_tx_outs_by_block_and_key_stored; [by eapply db_steps_wf| |exact Hkey|exact Hnum|].
  - rewrite Hnew; apply elem_of_app; by left.
  - rewrite Hdata; by apply Hcodec.
Qed.

(** Reporting a key as lost accounts for every block it was responsible for: the key becomes
    lost, and each block between its start and its expiry either was scanned with the key (it is
    not after the last scanned block) or lies in a range that [get_missed_block_ranges] returns
    from then on.  The call fails only when a missed range with the same two bounds is already
    recorded, and then changes no table. *)
Theorem report_lost_ingress_key_accounts d key k :
  db_reachable d -> db_ingress_keys d !! key = Some k ->
  (forall last, max_block (blocks_of_key d key) = Some last -> as_u64 last < u64_max) ->
  let '(res, d') := report_lost_ingress_key (Ok tt) key d in
  match res with
  | Ok _ =>
      db_ingress_keys d' !! key =
        Some (mkIngressKey (ik_start_block k) (ik_pubkey_expiry k) (ik_retired k) true)
      /\ exists ranges, get_missed_block_ranges (Ok tt) d' = (Ok ranges, d')
      /\ forall b, as_u64 (ik_start_block k) <= b < as_u64 (ik_pubkey_expiry k) ->
           (exists last, max_block (blocks_of_key d key) = Some last /\ b <= as_u64 last)
           \/ exists r, r ∈ ranges /\ BlockRange_contains r b = true
  | Err e =>
      e = Orm UniqueViolation /\ tables_equal d d'
      /\ exists ev, ev ∈ db_user_events d
         /\ ue_missing_blocks_start ev = Some (as_i64 (br_start_block (lost_range d key k)))
         /\ ue_missing_blocks_end ev = Some (as_i64 (br_end_block (lost_range d key k)))
  end.
Proof.
  intros Hr Hk Hlast; pose proof (db_reachable_wf _ Hr) as Hd.
  destruct (report_lost_ingress_key (Ok tt) key d) as [res d'] eqn:Hcall.
  assert (Hd' : db_wf d').
  { pose proof (step_report_lost_ingress_key d (Ok tt) key) as Hstep.
    rewrite Hcall in Hstep; by destruct (db_step_wf _ _ Hd Hstep). }
  destruct (get_missed_block_ranges_total d' Hd') as (ranges & Hranges & Hin).
  unfold report_lost_ingress_key, with_conn, transaction in Hcall.
  rewrite (report_lost_cases d key k Hk Hlast) in Hcall.
  pose proof (lost_range_covers d key k Hlast) as Hcov.
  destruct (Z.ltb_spec (br_start_block (lost_range d key k)) (br_end_block (lost_range d key k)))
    as [Hne|Hempty].
  - unfold insert_user_event in Hcall.
    destruct (existsb _ _) eqn:Hex; simpl in Hcall; injection Hcall as <- <-.
    + split; [done|]; split; [apply tables_equal_rollback|].
      by apply missing_conflict in Hex.
    + split; [simpl; by rewrite lookup_alter_eq, Hk|]; exists ranges; split; [done|].
      intros b Hb; destruct (Hcov b Hb) as [Hs|Hc]; [by left|right].
      exists (lost_range d key k); split; [|done].
      destruct (lost_range_u64 d key k Hlast) as [H1 H2].
      destruct (lost_range d key k) as [s t] eqn:Hrg; simpl in *.
      rewrite <- (as_u64_as_i64 _ H1), <- (as_u64_as_i64 _ H2).
      eapply Hin; [apply elem_of_app; right; by constructor|done..].
  - injection Hcall as <- <-; split; [simpl; by rewrite lookup_alter_eq, Hk|].
    exists ranges; split; [done|]; intros b Hb; destruct (Hcov b Hb) as [Hs|Hc]; [by left|].
    apply BlockRange_contains_spec in Hc; lia.
Qed.

(** The key after a report with expiry [e] was published under it. *)
Definition raised (k : IngressKey) (e : Z) : IngressKey :=
  mkIngressKey (ik_start_block k) (Z.max (ik_pubkey_expiry k) (as_i64 e)) (ik_retired k) (ik_lost k).

Lemma raised_key_status_ok d key k e :
  db_ingress_keys d !! key = Some k -> ik_retired k = false ->
  raised_key_status key e d =
    (Ok (status_of (raised k e)), set_keys (insert key (raised k e)) d).
Proof.
  intros Hk Hret; unfold raised_key_status, raise_pubkey_expiry, mbind, tx_bind.
  rewrite Hk, Hret; simpl; destruct (Z.ltb_spec (ik_pubkey_expiry k) (as_i64 e)).
  - unfold raised; by rewrite Z.max_r, Hret by lia.
  - assert (Hr : raised k e = k) by (unfold raised; rewrite Z.max_l by lia; by destruct k).
    unfold get_ingress_key_status_impl, mbind, tx_bind, tx_get; simpl; rewrite Hk; simpl.
    rewrite Hr; unfold set_keys; rewrite insert_id by done; by destruct d.
Qed.

Lemma raised_key_status_retired d key k e :
  db_ingress_keys d !! key = Some k -> ik_retired k = true ->
  raised_key_status key e d = (Ok (status_of k), d).
Proof.
  intros Hk Hret; unfold raised_key_status, raise_pubkey_expiry, mbind, tx_bind.
  rewrite Hk, Hret; simpl.
  unfold get_ingress_key_status_impl, mbind, tx_bind, tx_get; simpl; by rewrite Hk.
Qed.

(** Publishing a report: for a retired key nothing is written and the status that comes back
    says so; for any other key the expiry becomes the maximum of the old and the new one and is
    the one returned, exactly one report has this report id, with the given contents, the reports
    with other ids are as before, and no other table changes. *)
Theorem set_report_correct {Report} (encode : Report -> result bytes Z) d key k id
    (data : ReportData Report) report :
  db_reachable d -> db_ingress_keys d !! key = Some k ->
  encode (rd_report data) = Ok report ->
  (forall i, rd_ingest_invocation_id data = Some i -> has_invocation d i = true) ->
  let '(res, d') := set_report (Ok tt) encode key id data d in
  if ik_retired k then res = Ok (status_of k) /\ d' = d
  else
    res = Ok (status_of (raised k (rd_pubkey_expiry data)))
    /\ db_ingress_keys d' = <[key := raised k (rd_pubkey_expiry data)]> (db_ingress_keys d)
    /\ db_ingest_invocations d' = db_ingest_invocations d
    /\ db_ingested_blocks d' = db_ingested_blocks d /\ db_user_events d' = db_user_events d
    /\ exists row, filter (fun r => rp_fog_report_id r = id) (db_reports d') = [row]
       /\ row = mkReportRow (rp_id row) key (rd_ingest_invocation_id data) id report
                  (as_i64 (rd_pubkey_expiry data))
       /\ forall id', id' <> id -> filter (fun r => rp_fog_report_id r = id') (db_reports d')
            = filter (fun r => rp_fog_report_id r = id') (db_reports d).
Proof.
  intros Hr Hk Henc Hinv; pose proof (db_reachable_wf _ Hr) as Hd.
  unfold set_report, with_conn, transaction, set_report_tx, mbind, tx_bind, tx_lift.
  destruct (ik_retired k) eqn:Hret.
  { rewrite (raised_key_status_retired d key k) by done; simpl; by rewrite Hret. }
  rewrite (raised_key_status_ok d key k) by done.
  set (k' := raised k (rd_pubkey_expiry data)).
  replace (ks_retired (status_of k')) with false by done; rewrite Henc; simpl.
  destruct (upsert_report_ok (set_keys (insert key k') d) key (rd_ingest_invocation_id data) id
    report (as_i64 (rd_pubkey_expiry data))) as (rows & n & row & -> & Hf & Hrow & Hoth); simpl.
  - apply (preserves_keys (insert key k')); [|done]; intros m key' ?.
    destruct (decide (key' = key)) as [->|];
      [rewrite lookup_insert_eq; eauto|by rewrite lookup_insert_ne].
  - rewrite lookup_insert_eq; eauto.
  - exact Hinv.
  - split_and!; try done; exists row; split_and!; done.
Qed.

(** ** A concrete history

    Two keys with the same start block and expiry, an invocation of the first one that stores
    block 5, a repeated write of that block by a second invocation, and the loss of the first key. *)

Definition demo_encode (txs : list ETxOutRecord) : result bytes Z :=
  match txs with [] => Ok [] | _ => Err 1 end.
Definition demo_decode (b : bytes) : result (list ETxOutRecord) Z :=
  match b with [] => Ok [] | _ => Err 2 end.
Definition demo_report (iid : option Z) : ReportData Z := mkReportData iid 9 100.
Definition demo_encode_report (r : Z) : result bytes Z := Ok [r].

Definition demo1 : Db := (new_ingress_key (Ok tt) [1] 5 db_empty).2.
Definition demo2 : Db := (new_ingress_key (Ok tt) [2] 5 demo1).2.
Definition demo3 : Db :=
  (set_report (Ok tt) demo_encode_report [1] [7] (demo_report None) demo2).2.
Definition demo4 : Db :=
  (set_report (Ok tt) demo_encode_report [2] [8] (demo_report None) demo3).2.
Definition demo5 : Db :=
  (new_ingest_invocation (Ok tt) 0 None [1] (mkKexRngPubkey [11] 0) 5 demo4).2.
Definition demo6 : Db :=
  (new_ingest_invocation (Ok tt) 0 None [1] (mkKexRngPubkey [12] 0) 5 demo5).2.
Definition demo7 : Db :=
  (add_block_data (Ok tt) 1 demo_encode 1 (mkBlockHeader 5 10) 77 [] demo6).2.
Definition demo8 : Db :=
  (add_block_data (Ok tt) 1 demo_encode 2 (mkBlockHeader 5 10) 77 [] demo7).2.

Lemma demo4_reachable : db_reachable demo4.
Proof.
  apply (rtc_l _ _ demo1); [apply step_new_ingress_key|].
  apply (rtc_l _ _ demo2); [apply step_new_ingress_key|].
  apply (rtc_l _ _ demo3); [apply step_set_report|].
  apply rtc_once, step_set_report.
Qed.

Lemma demo6_reachable : db_reachable demo6.
Proof.
  apply (transitivity demo4_reachable).
  apply (rtc_l _ _ demo5); [apply step_new_ingest_invocation|].
  apply rtc_once, step_new_ingest_invocation.
Qed.

Lemma demo7_step : rtc db_step demo6 demo7.
Proof. apply rtc_once, step_add_block_data. Qed.

Lemma demo8_step : rtc db_step demo7 demo8.
Proof. apply rtc_once, step_add_block_data. Qed.

Lemma demo7_reachable : db_reachable demo7.
Proof. exact (transitivity demo6_reachable demo7_step). Qed.

(** Two keys whose missed ranges have the same bounds: in a reachable database the loss of the
    second one cannot be recorded, the call fails and the key stays as it was. *)
Theorem report_lost_same_range_fails :
  exists d d', db_reachable d
    /\ (report_lost_ingress_key (Ok tt) [1] d).1 = Ok tt
    /\ d' = (report_lost_ingress_key (Ok tt) [1] d).2
    /\ (report_lost_ingress_key (Ok tt) [2] d').1 = Err (Orm UniqueViolation)
    /\ ik_lost <$> db_ingress_keys (report_lost_ingress_key (Ok tt) [2] d').2 !! [2] = Some false.
Proof.
  exists demo4; eexists; split; [apply demo4_reachable|]; split; [vm_compute; reflexivity|].
  split; [reflexivity|]; split; vm_compute; reflexivity.
Qed.


Lemma db_history_witness : db_mono demo6 demo7.
Proof. exact (db_history demo6 demo7 demo7_step). Defined.


Lemma add_block_data_write_once_witness :
  exists r, r ∈ db_ingest_invocations demo6 /\ ii_id r = 1 /\
    get_tx_outs_by_block_and_key (Ok tt) demo_decode (ii_ingress_public_key r) 5 demo8
    = (Ok (Some []), demo8).
Proof.
  apply (add_block_data_write_once 1 demo_encode demo_decode 1 (mkBlockHeader 5 10) 77 [] demo6
    (mkAddBlockDataStatus false) demo7 demo8);
    [|apply demo6_reachable|vm_compute; reflexivity|apply demo8_step].
  intros [|] data H; [by injection H as <-|discriminate].
Defined.

Definition demo9 : Db := (report_lost_ingress_key (Ok tt) [1] demo7).2.

Lemma report_lost_ingress_key_accounts_witness :
  exists ranges, get_missed_block_ranges (Ok tt) demo9 = (Ok ranges, demo9)
    /\ forall b, as_u64 5 <= b < as_u64 100 ->
      (exists last, max_block (blocks_of_key demo7 [1]) = Some last /\ b <= as_u64 last)
      \/ exists r, r ∈ ranges /\ BlockRange_contains r b = true.
Proof.
  assert (Hcall : report_lost_ingress_key (Ok tt) [1] demo7 = (Ok tt, demo9))
    by (vm_compute; reflexivity).
  assert (Hlast : forall last, max_block (blocks_of_key demo7 [1]) = Some last -> as_u64 last < u64_max).
  { intros last H; vm_compute in H; injection H as <-; reflexivity. }
  pose proof (report_lost_ingress_key_accounts demo7 [1] (mkIngressKey 5 100 false false)
    demo7_reachable ltac:(vm_compute; reflexivity) Hlast) as H.
  rewrite Hcall in H; exact (proj2 H).
Defined.

Definition demo10 : Db :=
  (set_report (Ok tt) demo_encode_report [1] [7] (demo_report (Some 1)) demo7).2.

Lemma set_report_correct_witness :
  exists row, filter (fun r => rp_fog_report_id r = [7]) (db_reports demo10) = [row]
    /\ rp_ingest_invocation_id row = Some 1.
Proof.
  assert (Hcall : set_report (Ok tt) demo_encode_report [1] [7] (demo_report (Some 1)) demo7
    = (Ok (mkIngressPublicKeyStatus 5 100 false false), demo10)) by (vm_compute; reflexivity).
  assert (Hinv : forall i, rd_ingest_invocation_id (demo_report (Some 1)) = Some i ->
    has_invocation demo7 i = true) by (intros i H; injection H as <-; reflexivity).
  pose proof (set_report_correct demo_encode_report demo7 [1] (mkIngressKey 5 100 false false) [7]
    (demo_report (Some 1)) [9] demo7_reachable ltac:(vm_compute; reflexivity) eq_refl Hinv) as H.
  rewrite Hcall in H; destruct H as (_ & _ & _ & _ & _ & row & Hrow & Heq & _).
  exists row; split; [exact Hrow|]; by rewrite Heq.
Defined.
