(* ===== verification/IngestEnclave.v ===== *)
(** * The ingest enclave (src/fog/ingest/enclave/impl/src)

    The enclave finds the user of every transaction output from its fog hint,
    gives the output the next search key of the rng it shares with that user
    and encrypts the record for the user.  The counters of the rngs are kept in
    an oblivious map (rng_store.rs); when the map overflows the egress key is
    replaced and the chunk tried again (lib.rs).

    The random generator, hint decryption, the crypto box, sealing and the peer
    channel are foreign code: type classes with the laws they document.  The
    target is little endian, so [from_ne_bytes] is [from_le_bytes]; a lock is
    taken to be available and not poisoned. *)

From S2P Require Import Prelude FogTypes ObliviousMap KexRng UserRngSet.

Local Open Scope Z_scope.
Local Open Scope fog_scope.

(** ** rng_store.rs *)

Section rng_store.
Context `{OM : ObliviousHashMap} (blake2b : bytes -> bytes).

Record RngStore := mkRngStore {
  rs_omap : option OMap;
  rs_desired_capacity : Z;
}.

Definition RngStore_new (desired_capacity : Z) : RngStore :=
  mkRngStore (Some (omap_create desired_capacity)) desired_capacity.

Definition RngStore_capacity (self : RngStore) : Z :=
  default 0 (omap_capacity <$> rs_omap self).

Definition RngStore_clear (self : RngStore) : RngStore :=
  mkRngStore (Some (omap_create (rs_desired_capacity self))) (rs_desired_capacity self).

Definition kex_rng_algo_version (self : RngStore) : Z := @VERSION_ID (KexRng20201124 blake2b).

(** [secret[0] = !secret[0]]. *)
Definition flip_first (secret : bytes) : bytes :=
  match secret with
  | b :: rest => Z.lxor b 255 :: rest
  | [] => []
  end.

(** Overflow flag, output and store. *)
Definition next_rng_output (self : RngStore) (shared_secret : bytes)
  : run (bool * bytes * RngStore) :=
  map ← unwrap (rs_omap self);
  let '(result_code, map', output) :=
    omap_access_and_insert map (flip_first shared_secret) (replicate 8 0) (replicate 16 0)
      (fun _status_code counter_buf =>
         let counter_val := from_le_bytes counter_buf in
         (to_le_bytes (counter_val +w 1),
          @prf (KexRng20201124 blake2b) shared_secret counter_val)) in
  Ret (result_code =? OMAP_OVERFLOW, output,
       mkRngStore (Some map') (rs_desired_capacity self)).
End rng_store.
Global Arguments RngStore {OM}.

(** ** lib.rs *)

(** Foreign code of the enclave, beyond what the user side uses. *)
Class IngestCrypto `{U : UserCrypto} := {
  Rng : Type;
  random_private : Rng -> Private * Rng;
  random_public : Rng -> Public * Rng;
  (** [FogHint::ct_decrypt]: success, and the view public key afterwards. *)
  ct_decrypt : Private -> bytes -> bytes -> bool * bytes;
  box_encrypt : Rng -> Public -> bytes -> result bytes CryptoBoxError * Rng;
  encode_tx_out_record : TxOutRecord -> bytes;
  checksum_ieee : bytes -> Z;
  private_to_bytes : Private -> bytes;
  private_try_from : bytes -> result Private KeyError;
  SgxError : Type;
  (** [IntelSealed::seal_raw]; its error is one of the two kinds of [map_sealing_error]. *)
  seal_raw : bytes -> result bytes (option SgxError);
  (** [IntelSealed::try_from] and [unseal_raw]. *)
  unseal_raw : bytes -> result bytes (option SgxError);
}.

(** The attested channel between ingest enclaves. *)
Class PeerAke := {
  PeerAkeState : Type;
  PeerSession : Type;
  PeerMessage : Type;
  PeerAuthRequest : Type;
  PeerAuthResponse : Type;
  PeerVerificationReport : Type;
  PeerAkeError : Type;
  PeerNotFound : PeerAkeError;
  peer_ake_init : PeerAkeState -> bytes -> result unit PeerAkeError * PeerAkeState;
  (** The handshake: the initiator's two steps around the responder's one. *)
  ake_peer_init : PeerAkeState -> bytes -> result PeerAuthRequest PeerAkeError * PeerAkeState;
  ake_peer_accept : PeerAkeState -> PeerAuthRequest
    -> result (PeerAuthResponse * PeerSession) PeerAkeError * PeerAkeState;
  ake_peer_connect : PeerAkeState -> bytes -> PeerAuthResponse
    -> result (PeerSession * PeerVerificationReport) PeerAkeError * PeerAkeState;
  ake_peer_close : PeerAkeState -> PeerSession -> result unit PeerAkeError * PeerAkeState;
  is_peer_known : PeerAkeState -> PeerSession -> result bool PeerAkeError;
  peer_encrypt : PeerAkeState -> PeerSession -> bytes -> bytes
    -> result PeerMessage PeerAkeError * PeerAkeState;
  peer_decrypt : PeerAkeState -> PeerMessage -> result bytes PeerAkeError * PeerAkeState;
}.

(** The errors of the enclave; payloads that no code looks at are numbers. *)
Inductive IngestEnclaveError (SgxError AkeError : Type) :=
| IngestNotInit
| IngestAlreadyInit
| IngestSgx (e : SgxError)
| IngestAttest (e : AkeError)
| IngestSerialization
| IngestNonce (e : Z)
| IngestQuote (e : Z)
| IngestVerify (e : Z)
| IngestPoison
| IngestInvalidState
| IngestNoReportAvailable
| IngestTooManyPendingReports
| IngestKey (e : KeyError)
| ChunkTooBig (txs retries : nat) (capacity : Z)
| IngestRotateKeys (e : Z)
| ParseSealed.
Global Arguments IngestSgx {SgxError AkeError} e.
Global Arguments IngestAttest {SgxError AkeError} e.
Global Arguments IngestKey {SgxError AkeError} e.
Global Arguments ChunkTooBig {SgxError AkeError} txs retries capacity.
Global Arguments ParseSealed {SgxError AkeError}.

Definition MAX_CHUNK_RETRIES : nat := 10.

Section enclave.
Context `{C : IngestCrypto} `{OM : ObliviousHashMap} `{A : PeerAke}.
Abbreviation Error := (IngestEnclaveError SgxError PeerAkeError).

(** The state behind the locks.  [ie_rng] is the source of the system's randomness. *)
Record SgxIngestEnclave := mkSgxIngestEnclave {
  ie_ake : PeerAkeState;
  ie_ingress_key : Private;
  ie_egress_key : Private;
  ie_rng_store : option RngStore;
  ie_rng : Rng;
}.

(** One output of the chunk: nothing when the decrypted user key is malformed. *)
Definition ingest_one (chunk : TxsForIngest) (ingress_key egress_key : Private)
  (idx : nat) (txo : TxOut) (rng_store : RngStore) (rng : Rng)
  : run (option (option ETxOutRecord) * RngStore * Rng) :=
  let '(fake, rng) := random_public rng in
  let '(_success, user_id) := ct_decrypt ingress_key (txo_e_fog_hint txo) (public_to_bytes fake) in
  match public_try_from user_id with
  | Err _ => Ret (Some None, rng_store, rng)
  | Ok view_pubkey =>
      '(overflow, rng_output, rng_store) ←
        next_rng_output blake2b rng_store (key_exchange egress_key view_pubkey);
      if (overflow : bool) then Ret (None, rng_store, rng)
      else
        let meta := mkFogTxOutMetadata (tfi_global_txo_index chunk +w Z.of_nat idx)
                      (tfi_block_index chunk) (tfi_timestamp chunk) in
        let txo_record := TxOutRecord_new (FogTxOut_from checksum_ieee txo) meta in
        match box_encrypt rng view_pubkey (encode_tx_out_record txo_record) with
        | (Err _, _) => Panic
        | (Ok payload, rng) =>
            Ret (Some (Some (mkETxOutRecord rng_output payload)), rng_store, rng)
        end
  end.

(** The loop of [attempt_ingest_txs]; [None] when the map overflowed. *)
Fixpoint attempt_loop (chunk : TxsForIngest) (ingress_key egress_key : Private)
  (idx : nat) (txs : list TxOut) (rng_store : RngStore) (rng : Rng)
  (new_tx_rows : list ETxOutRecord)
  : run (option (list ETxOutRecord) * RngStore * Rng) :=
  match txs with
  | [] => Ret (Some new_tx_rows, rng_store, rng)
  | txo :: txs =>
      '(res, rng_store, rng) ← ingest_one chunk ingress_key egress_key idx txo rng_store rng;
      match res with
      | None => Ret (None, rng_store, rng)
      | Some row =>
          attempt_loop chunk ingress_key egress_key (S idx) txs rng_store rng
            (new_tx_rows ++ option_list row)
      end
  end.

Definition attempt_ingest_txs (chunk : TxsForIngest) (ingress_key egress_key : Private)
  (rng_store : RngStore) (rng : Rng) : run (option (list ETxOutRecord) * RngStore * Rng) :=
  attempt_loop chunk ingress_key egress_key 0 (tfi_redacted_txs chunk) rng_store rng [].

Definition kex_rng_pubkey_of (egress_key : Private) (rng_store : RngStore) : KexRngPubkey :=
  mkKexRngPubkey (public_to_bytes (public_from egress_key)) (kex_rng_algo_version blake2b rng_store).

(** The retry loop; [chunk_retries] decreases. *)
Fixpoint ingest_loop (chunk_retries : nat) (chunk : TxsForIngest) (ingress_key egress_key : Private)
  (rng_store : RngStore) (rng : Rng) (new_kex_rng_pubkey : option KexRngPubkey)
  : run (result (list ETxOutRecord * option KexRngPubkey) Error * Private * RngStore * Rng) :=
  '(res, rng_store, rng) ← attempt_ingest_txs chunk ingress_key egress_key rng_store rng;
  match res with
  | Some e_tx_out_records =>
      Ret (Ok (e_tx_out_records, new_kex_rng_pubkey), egress_key, rng_store, rng)
  | None =>
      match chunk_retries with
      | O => Ret (Err (ChunkTooBig (length (tfi_redacted_txs chunk)) MAX_CHUNK_RETRIES
                         (RngStore_capacity rng_store)), egress_key, rng_store, rng)
      | S chunk_retries =>
          let '(egress_key, rng) := random_private rng in
          ingest_loop chunk_retries chunk ingress_key egress_key (RngStore_clear rng_store) rng
            (Some (kex_rng_pubkey_of egress_key rng_store))
      end
  end.

Definition ingest_txs (self : SgxIngestEnclave) (chunk : TxsForIngest)
  : run (result (list ETxOutRecord * option KexRngPubkey) Error * SgxIngestEnclave) :=
  rng_store ← unwrap (ie_rng_store self);
  '(res, egress_key, rng_store, rng) ←
    ingest_loop MAX_CHUNK_RETRIES chunk (ie_ingress_key self) (ie_egress_key self)
      rng_store (ie_rng self) None;
  Ret (res, mkSgxIngestEnclave (ie_ake self) (ie_ingress_key self) egress_key
              (Some rng_store) rng).

Definition get_kex_rng_pubkey (self : SgxIngestEnclave) : run (result KexRngPubkey Error) :=
  rng_store ← unwrap (ie_rng_store self);
  Ret (Ok (kex_rng_pubkey_of (ie_egress_key self) rng_store)).

Definition new_keys (self : SgxIngestEnclave) : run (result unit Error * SgxIngestEnclave) :=
  rng_store ← unwrap (ie_rng_store self);
  let '(ingress_key, rng) := random_private (ie_rng self) in
  let '(egress_key, rng) := random_private rng in
  Ret (Ok tt, mkSgxIngestEnclave (ie_ake self) ingress_key egress_key
                (Some (RngStore_clear rng_store)) rng).

Definition new_egress_key (self : SgxIngestEnclave) : run (result unit Error * SgxIngestEnclave) :=
  rng_store ← unwrap (ie_rng_store self);
  let '(egress_key, rng) := random_private (ie_rng self) in
  Ret (Ok tt, mkSgxIngestEnclave (ie_ake self) (ie_ingress_key self) egress_key
                (Some (RngStore_clear rng_store)) rng).

(** [map_sealing_error]: an sgx error, or a format error. *)
Definition map_sealing_error (src : option SgxError) : Error :=
  match src with
  | Some err => IngestSgx err
  | None => ParseSealed
  end.

Definition seal_private_key (src : Private) : result bytes Error :=
  map_err map_sealing_error (seal_raw (private_to_bytes src)).

Definition enclave_init (self : SgxIngestEnclave) (responder_id : bytes)
  (sealed_key : option bytes) (desired_capacity : Z) : result unit Error * SgxIngestEnclave :=
  match peer_ake_init (ie_ake self) responder_id with
  | (Err e, ake) => (Err (IngestAttest e), mkSgxIngestEnclave ake (ie_ingress_key self)
                        (ie_egress_key self) (ie_rng_store self) (ie_rng self))
  | (Ok _, ake) =>
      let unsealed :=
        match sealed_key with
        | None => Ok (ie_ingress_key self)
        | Some sealed =>
            let? key := map_err map_sealing_error (unseal_raw sealed) in
            map_err IngestKey (private_try_from key)
        end in
      match unsealed with
      | Err e => (Err e, mkSgxIngestEnclave ake (ie_ingress_key self) (ie_egress_key self)
                            (ie_rng_store self) (ie_rng self))
      | Ok key => (Ok tt, mkSgxIngestEnclave ake key (ie_egress_key self)
                            (Some (RngStore_new desired_capacity)) (ie_rng self))
      end
  end.

Definition get_ingress_pubkey (self : SgxIngestEnclave) : result Public Error :=
  Ok (public_from (ie_ingress_key self)).

Definition get_sealed_ingress_private_key (self : SgxIngestEnclave)
  : result (bytes * bytes) Error :=
  let pubkey := public_from (ie_ingress_key self) in
  let? sealed_key := seal_private_key (ie_ingress_key self) in
  Ok (sealed_key, public_to_bytes pubkey).

(** The ingress key, encrypted for a known peer. *)
Definition get_ingress_private_key (self : SgxIngestEnclave) (peer : PeerSession)
  : result (PeerMessage * bytes) Error * SgxIngestEnclave :=
  match is_peer_known (ie_ake self) peer with
  | Err e => (Err (IngestAttest e), self)
  | Ok false => (Err (IngestAttest PeerNotFound), self)
  | Ok true =>
      let private_key := ie_ingress_key self in
      let '(msg, ake) := peer_encrypt (ie_ake self) peer [] (private_to_bytes private_key) in
      (let? msg := map_err IngestAttest msg in
       Ok (msg, public_to_bytes (public_from private_key)),
       mkSgxIngestEnclave ake (ie_ingress_key self) (ie_egress_key self) (ie_rng_store self)
         (ie_rng self))
  end.

(** Take over the ingress key of a peer. *)
Definition set_ingress_private_key (self : SgxIngestEnclave) (msg : PeerMessage)
  : result (Public * bytes) Error * SgxIngestEnclave :=
  let '(key, ake) := peer_decrypt (ie_ake self) msg in
  let res :=
    let? key := map_err IngestAttest key in
    let? new_priv_key := map_err IngestKey (private_try_from key) in
    let? sealed_key := seal_private_key new_priv_key in
    Ok (new_priv_key, public_from new_priv_key, sealed_key) in
  match res with
  | Err e => (Err e, mkSgxIngestEnclave ake (ie_ingress_key self) (ie_egress_key self)
                        (ie_rng_store self) (ie_rng self))
  | Ok (new_priv_key, new_pubkey, sealed_key) =>
      (Ok (new_pubkey, sealed_key), mkSgxIngestEnclave ake new_priv_key (ie_egress_key self)
                        (ie_rng_store self) (ie_rng self))
  end.

(** The handshake with a peer is left to the AKE library. *)
Definition on_ake {B} (f : PeerAkeState -> result B PeerAkeError * PeerAkeState) (self : SgxIngestEnclave)
  : result B Error * SgxIngestEnclave :=
  let '(r, ake) := f (ie_ake self) in
  (map_err IngestAttest r,
   mkSgxIngestEnclave ake (ie_ingress_key self) (ie_egress_key self) (ie_rng_store self) (ie_rng self)).

Definition peer_init (self : SgxIngestEnclave) (peer_id : bytes) : result PeerAuthRequest Error * SgxIngestEnclave :=
  on_ake (fun ake => ake_peer_init ake peer_id) self.

Definition peer_accept (self : SgxIngestEnclave) (req : PeerAuthRequest)
  : result (PeerAuthResponse * PeerSession) Error * SgxIngestEnclave :=
  on_ake (fun ake => ake_peer_accept ake req) self.

Definition peer_connect (self : SgxIngestEnclave) (peer_id : bytes) (msg : PeerAuthResponse)
  : result (PeerSession * PeerVerificationReport) Error * SgxIngestEnclave :=
  on_ake (fun ake => ake_peer_connect ake peer_id msg) self.

Definition peer_close (self : SgxIngestEnclave) (session_id : PeerSession) : result unit Error * SgxIngestEnclave :=
  on_ake (fun ake => ake_peer_close ake session_id) self.

(** The calls that only use the sessions leave the keys, the counters and the
    generator alone. *)
Definition same_keys (e e' : SgxIngestEnclave) : Prop :=
  ie_ingress_key e' = ie_ingress_key e /\ ie_egress_key e' = ie_egress_key e
  /\ ie_rng_store e' = ie_rng_store e /\ ie_rng e' = ie_rng e.

#[global] Instance same_keys_preorder : PreOrder same_keys.
Proof. split; [by intros e|]; intros e1 e2 e3; unfold same_keys; intuition congruence. Qed.

Lemma on_ake_same_keys {B} (f : PeerAkeState -> result B PeerAkeError * PeerAkeState) e :
  same_keys e (on_ake f e).2.
Proof. unfold on_ake; by destruct (f (ie_ake e)). Qed.

Lemma give_key_same_keys e session : same_keys e (get_ingress_private_key e session).2.
Proof.
  unfold get_ingress_private_key; destruct (is_peer_known (ie_ake e) session) as [[]|]; try done.
  by destruct (peer_encrypt _ _ _ _).
Qed.
End enclave.
Global Arguments SgxIngestEnclave {K U C OM A}.

(** ** What the foreign code promises *)

Class IngestLaws `{C : IngestCrypto} `{OM : ObliviousHashMap} `{!ObliviousHashMapLaws OM} : Prop := {
  box_encrypt_ok : forall r p pt, exists ct r', box_encrypt r p pt = (Ok ct, r');
  box_decrypt : forall r v pt ct r',
    box_encrypt r (public_from v) pt = (Ok ct, r') -> decrypt_in_place v ct = Ok (true, pt);
  record_roundtrip : forall rec, decode_tx_out_record (encode_tx_out_record rec) = Some rec;
  (** A shared secret with its first byte flipped is not the reserved key. *)
  flip_valid : forall e p, omap_valid_key (flip_first (key_exchange e p)) = true;
}.

(** A use of the generator. *)
Definition rng_step `{C : IngestCrypto} (r r' : Rng) : Prop :=
  (exists e, random_private r = (e, r')) \/ (exists p, random_public r = (p, r'))
  \/ (exists p pt res, box_encrypt r p pt = (res, r')).

(** The generator never draws a private key again: [drawn_private r] are the keys drawn so far. *)
Class FreshRng `{C : IngestCrypto} := {
  drawn_private : Rng -> Private -> Prop;
  drawn_private_fresh : forall r e r', random_private r = (e, r') ->
    ~ drawn_private r e /\ drawn_private r' e;
  drawn_private_step : forall r r', rng_step r r' ->
    forall x, drawn_private r x -> drawn_private r' x;
}.

(** ** The counters *)

Section counters.
Context `{OM : ObliviousHashMap} `{!ObliviousHashMapLaws OM} (blake2b : bytes -> bytes).

Lemma flip_first_inj s s' : flip_first s = flip_first s' -> s = s'.
Proof.
  destruct s as [|b s], s' as [|b' s']; simpl; intros Heq; try done.
  injection Heq as Hb ->; f_equal.
  by rewrite <- (Z.lxor_0_r b), <- (Z.lxor_0_r b'), <- (Z.lxor_nilpotent 255),
    <- !Z.lxor_assoc, Hb.
Qed.

(** The counter of a secret: zero when it has none yet. *)
Definition count (st : RngStore) (secret : bytes) : Z :=
  match rs_omap st with
  | Some m => default 0 (from_le_bytes <$> omap_view m !! flip_first secret)
  | None => 0
  end.

Definition bump (secret : bytes) (cnt : bytes -> Z) (s : bytes) : Z :=
  if decide (s = secret) then cnt secret +w 1 else cnt s.

Lemma count_clear st s : count (RngStore_clear st) s = 0.
Proof. unfold count; simpl; by rewrite omap_create_view, lookup_empty. Qed.

Lemma count_new cap s : count (RngStore_new cap) s = 0.
Proof. unfold count; simpl; by rewrite omap_create_view, lookup_empty. Qed.

(** A call that does not overflow gives the output at the counter and bumps it. *)
Lemma next_rng_output_spec st secret :
  is_Some (rs_omap st) -> omap_valid_key (flip_first secret) = true ->
  exists overflow out st',
    next_rng_output blake2b st secret = Ret (overflow, out, st')
    /\ is_Some (rs_omap st')
    /\ (overflow = false ->
        out = output blake2b secret (count st secret)
        /\ forall s, count st' s = bump secret (count st) s).
Proof.
  intros [m Hm] Hvalid; unfold next_rng_output, count; rewrite Hm; simpl.
  destruct (omap_access_and_insert _ _ _ _ _) as [[code m'] out] eqn:Hacc.
  do 3 eexists; split; [done|]; split; [by eexists|]; simpl.
  apply omap_access_and_insert_spec in Hacc; rewrite Hvalid in Hacc.
  intros Hov; apply Z.eqb_neq in Hov.
  assert (Hall : exists c, out = output blake2b secret c
    /\ c = default 0 (from_le_bytes <$> omap_view m !! flip_first secret)
    /\ omap_view m' = <[flip_first secret := to_le_bytes (c +w 1)]> (omap_view m)).
  { destruct (omap_view m !! flip_first secret) as [v|].
    - destruct Hacc as (_ & -> & ->); by eexists.
    - destruct Hacc as [(_ & -> & ->)|]; [by eexists|done]. }
  destruct Hall as (c & -> & -> & ->); split; [done|].
  intros s; unfold bump; case_decide as Hs.
  - subst s; rewrite lookup_insert_eq; simpl; apply from_to_le_bytes, wrap64_range.
  - rewrite lookup_insert_ne; [done|]; intros Heq; by apply flip_first_inj in Heq.
Qed.
End counters.

(** ** A chunk *)

Section chunks.
Context `{C : IngestCrypto} `{OM : ObliviousHashMap} `{A : PeerAke}.
Context `{!ObliviousHashMapLaws OM} `{!IngestLaws}.

(** The user an output is given to, [fake] being drawn for a hint that does not decrypt. *)
Definition user_of (ingress_key : Private) (txo : TxOut) (fake : Public) : result Public KeyError :=
  public_try_from (ct_decrypt ingress_key (txo_e_fog_hint txo) (public_to_bytes fake)).2.

(** The record of the output at position [idx] of a chunk. *)
Definition chunk_record (chunk : TxsForIngest) (idx : nat) (txo : TxOut) : TxOutRecord :=
  TxOutRecord_new (FogTxOut_from checksum_ieee txo)
    (mkFogTxOutMetadata (tfi_global_txo_index chunk +w Z.of_nat idx)
       (tfi_block_index chunk) (tfi_timestamp chunk)).

(** [row] carries an output to user [p] under the [n]-th search key they share. *)
Definition row_for (chunk : TxsForIngest) (egress_key : Private) (idx : nat) (txo : TxOut)
  (p : Public) (n : Z) (row : ETxOutRecord) : Prop :=
  etr_search_key row = output blake2b (key_exchange egress_key p) n
  /\ exists r r', box_encrypt r p (encode_tx_out_record (chunk_record chunk idx txo))
                  = (Ok (etr_payload row), r').

Definition drawn (fake : Public) : Prop := exists r r', random_public r = (fake, r').

(** The rows of a list of outputs, with the counters before and after. *)
Inductive ingested (chunk : TxsForIngest) (ingress_key egress_key : Private)
  : nat -> list TxOut -> (bytes -> Z) -> list ETxOutRecord -> (bytes -> Z) -> Prop :=
| ingested_nil idx cnt : ingested chunk ingress_key egress_key idx [] cnt [] cnt
| ingested_malformed idx txo txs cnt rows cnt' fake e :
    user_of ingress_key txo fake = Err e ->
    ingested chunk ingress_key egress_key (S idx) txs cnt rows cnt' ->
    ingested chunk ingress_key egress_key idx (txo :: txs) cnt rows cnt'
| ingested_row idx txo txs cnt rows cnt' fake p row :
    drawn fake ->
    user_of ingress_key txo fake = Ok p ->
    row_for chunk egress_key idx txo p (cnt (key_exchange egress_key p)) row ->
    ingested chunk ingress_key egress_key (S idx) txs
      (bump (key_exchange egress_key p) cnt) rows cnt' ->
    ingested chunk ingress_key egress_key idx (txo :: txs) cnt (row :: rows) cnt'.

Lemma attempt_loop_spec chunk ingress egress idx txs st rng rows cnt :
  is_Some (rs_omap st) -> (forall s, cnt s = count st s) ->
  exists res st' rng',
    attempt_loop chunk ingress egress idx txs st rng rows = Ret (res, st', rng')
    /\ is_Some (rs_omap st') /\ rtc rng_step rng rng'
    /\ forall rows', res = Some rows' -> exists new cnt', rows' = rows ++ new
       /\ ingested chunk ingress egress idx txs cnt new cnt' /\ forall s, cnt' s = count st' s.
Proof.
  revert idx st rng rows cnt; induction txs as [|txo txs IH]; intros idx st rng rows cnt Hst Hcnt; simpl.
  { do 3 eexists; split; [done|]; split; [done|]; split; [done|]; intros rows' [= <-].
    exists [], cnt; rewrite app_nil_r; split; [done|]; split; [constructor|done]. }
  unfold ingest_one; destruct (random_public rng) as [fake rng1] eqn:Hfake.
  assert (Hs1 : rng_step rng rng1) by (right; left; by exists fake).
  destruct (ct_decrypt ingress (txo_e_fog_hint txo) (public_to_bytes fake)) as [ok uid] eqn:Hct.
  destruct (public_try_from uid) as [p|e] eqn:Hp; simpl.
  2:{ destruct (IH (S idx) st rng1 (rows ++ []) cnt Hst Hcnt)
        as (res & st' & rng' & -> & Hst' & Hrng & Hres).
      do 3 eexists; split; [done|]; split; [done|]; split; [by eapply rtc_l|]; intros rows' Hr.
      destruct (Hres _ Hr) as (new & cnt' & -> & Hin & Hc); exists new, cnt'.
      rewrite app_nil_r; split; [done|]; split; [|done].
      eapply ingested_malformed; [unfold user_of; by rewrite Hct|done]. }
  destruct (next_rng_output_spec blake2b st (key_exchange egress p) Hst (flip_valid _ _))
    as (overflow & out & st1 & -> & Hst1 & Hnext); simpl.
  destruct overflow; simpl.
  { do 3 eexists; split; [done|]; split; [done|]; split; [by apply rtc_once|done]. }
  destruct (Hnext eq_refl) as [Hout Hc1]; clear Hnext.
  fold (chunk_record chunk idx txo).
  destruct (box_encrypt_ok rng1 p (encode_tx_out_record (chunk_record chunk idx txo)))
    as (ct & rng2 & Hbox); rewrite Hbox; simpl.
  destruct (IH (S idx) st1 rng2 (rows ++ [mkETxOutRecord out ct])
    (bump (key_exchange egress p) cnt) Hst1) as (res & st' & rng' & -> & Hst' & Hrng & Hres).
  { intros s; rewrite Hc1; unfold bump; case_decide; by rewrite Hcnt. }
  assert (Hs2 : rng_step rng1 rng2) by (right; right; eauto).
  do 3 eexists; split; [done|]; split; [done|]; split; [by eapply rtc_l, rtc_l|]; intros rows' Hr.
  destruct (Hres _ Hr) as (new & cnt' & -> & Hin & Hc).
  exists (mkETxOutRecord out ct :: new), cnt'; rewrite <- app_assoc; split; [done|]; split; [|done].
  eapply ingested_row; [by exists rng, rng1|unfold user_of; by rewrite Hct| |exact Hin].
  split; simpl; [by rewrite Hcnt|eauto].
Qed.

(** What a call of the retry loop from counters [cnt] can have done: the rows were made with
    the key it started with, or with a fresh one that is announced; the only failure is that
    every attempt overflowed. *)
Definition loop_outcome (chunk : TxsForIngest) (ingress egress : Private) (cnt : bytes -> Z)
  (new0 : option KexRngPubkey)
  (res : result (list ETxOutRecord * option KexRngPubkey)
           (IngestEnclaveError SgxError PeerAkeError))
  (egress' : Private) (st' : RngStore) (rng : Rng) : Prop :=
  match res with
  | Ok (rows, new) =>
      exists cnt0 cnt', ingested chunk ingress egress' 0 (tfi_redacted_txs chunk) cnt0 rows cnt'
        /\ (forall s, cnt' s = count st' s)
        /\ ((new = new0 /\ egress' = egress /\ cnt0 = cnt)
            \/ (new = Some (kex_rng_pubkey_of egress' st') /\ cnt0 = (fun _ => 0)
                /\ exists r r', rtc rng_step rng r /\ random_private r = (egress', r')))
  | Err e => exists cap, e = ChunkTooBig (length (tfi_redacted_txs chunk)) MAX_CHUNK_RETRIES cap
  end.

Lemma ingest_loop_spec n chunk ingress egress st rng new0 cnt :
  is_Some (rs_omap st) -> (forall s, cnt s = count st s) ->
  exists res egress' st' rng',
    ingest_loop n chunk ingress egress st rng new0 = Ret (res, egress', st', rng')
    /\ is_Some (rs_omap st') /\ rtc rng_step rng rng'
    /\ (egress' = egress
        \/ exists r r', rtc rng_step rng r /\ random_private r = (egress', r') /\ rtc rng_step r' rng')
    /\ loop_outcome chunk ingress egress cnt new0 res egress' st' rng.
Proof.
  revert egress st rng new0 cnt; induction n as [|n IH]; intros egress st rng new0 cnt Hst Hcnt.
  all: cbn [ingest_loop]; unfold attempt_ingest_txs.
  all: destruct (attempt_loop_spec chunk ingress egress 0 (tfi_redacted_txs chunk) st rng [] cnt
    Hst Hcnt) as (res & st' & rng' & -> & Hst' & Hrng & Hres); simpl.
  all: destruct res as [rows|].
  1,3: do 4 eexists; split; [done|]; split; [done|]; split; [done|]; split; [by left|]; simpl.
  1,2: destruct (Hres _ eq_refl) as (new & cnt' & -> & Hin & Hc); exists cnt, cnt'; auto 10.
  - do 4 eexists; split; [done|]; split; [done|]; split; [done|]; split; [by left|]; simpl; by eexists.
  - destruct (random_private rng') as [egress1 rng1] eqn:Hrand.
    assert (Hs1 : rng_step rng' rng1) by (left; by exists egress1).
    assert (Hto1 : rtc rng_step rng rng1) by (by eapply rtc_r).
    destruct (IH egress1 (RngStore_clear st') rng1 (Some (kex_rng_pubkey_of egress1 st'))
      (fun _ => 0)) as (res & egress2 & st2 & rng2 & -> & Hst2 & Hrng2 & Heg & Hout);
      [by eexists|intros s; by rewrite count_clear|].
    do 4 eexists; split; [done|]; split; [done|]; split; [by etrans|]; split.
    { right; destruct Heg as [->|(r & r' & H1 & H2 & H3)]; [by exists rng', rng1|].
      exists r, r'; split; [by etrans|done]. }
    unfold loop_outcome in *; destruct res as [[rows new]|e]; [|done].
    destruct Hout as (cnt0 & cnt' & Hin & Hc & Hcase); exists cnt0, cnt'; split; [done|].
    split; [done|]; right; destruct Hcase as [(-> & -> & ->)|(H1 & H2 & r & r' & H3 & H4)].
    + split; [done|]; split; [done|]; by exists rng', rng1.
    + split; [done|]; split; [done|]; exists r, r'; split; [by etrans|done].
Qed.

(** An initialised enclave stays initialised and a call returns. *)
Definition initialised (self : SgxIngestEnclave) : Prop :=
  exists st, ie_rng_store self = Some st /\ is_Some (rs_omap st).

Definition enclave_count (self : SgxIngestEnclave) (secret : bytes) : Z :=
  match ie_rng_store self with Some st => count st secret | None => 0 end.

Definition kex_pubkey (self : SgxIngestEnclave) : KexRngPubkey :=
  mkKexRngPubkey (public_to_bytes (public_from (ie_egress_key self)))
    (@VERSION_ID (KexRng20201124 blake2b)).

Lemma ingest_txs_spec (self : SgxIngestEnclave) chunk :
  initialised self ->
  exists res self', ingest_txs self chunk = Ret (res, self')
    /\ initialised self' /\ ie_ingress_key self' = ie_ingress_key self
    /\ rtc rng_step (ie_rng self) (ie_rng self')
    /\ (ie_egress_key self' = ie_egress_key self
        \/ exists r r', rtc rng_step (ie_rng self) r /\ random_private r = (ie_egress_key self', r')
           /\ rtc rng_step r' (ie_rng self'))
    /\ match res with
       | Ok (rows, new) => exists cnt0 cnt',
           ingested chunk (ie_ingress_key self) (ie_egress_key self') 0 (tfi_redacted_txs chunk)
             cnt0 rows cnt'
           /\ (forall s, cnt' s = enclave_count self' s)
           /\ ((new = None /\ ie_egress_key self' = ie_egress_key self
                /\ cnt0 = enclave_count self)
               \/ (new = Some (kex_pubkey self') /\ cnt0 = (fun _ => 0)
                   /\ exists r r', rtc rng_step (ie_rng self) r
                      /\ random_private r = (ie_egress_key self', r')))
       | Err e => exists cap,
           e = ChunkTooBig (length (tfi_redacted_txs chunk)) MAX_CHUNK_RETRIES cap
       end.
Proof.
  intros (st & Hst & Hom); unfold ingest_txs, enclave_count; rewrite Hst.
  cbn [unwrap mbind run_bind].
  destruct (ingest_loop_spec MAX_CHUNK_RETRIES chunk (ie_ingress_key self) (ie_egress_key self)
    st (ie_rng self) None (count st) Hom)
    as (res & egress' & st' & rng' & -> & Hst' & Hrng & Heg & Hout); [done|]; cbn [mbind run_bind].
  do 2 eexists; split; [done|]; split; [by eexists|]; split; [done|]; split; [done|]; split; [done|].
  destruct res as [[rows new]|e]; exact Hout.
Qed.

(** Counters stay in their width. *)
Definition counters_ok (self : SgxIngestEnclave) : Prop :=
  forall secret, is_u64 (enclave_count self secret).

Lemma bump_u64 secret cnt : (forall s, is_u64 (cnt s)) -> forall s, is_u64 (bump secret cnt s).
Proof. intros Hc s; unfold bump; case_decide; [apply wrap64_range|apply Hc]. Qed.

Lemma ingested_u64 chunk ingress egress idx txs cnt rows cnt' :
  ingested chunk ingress egress idx txs cnt rows cnt' ->
  (forall s, is_u64 (cnt s)) -> forall s, is_u64 (cnt' s).
Proof. induction 1; auto using bump_u64. Qed.

Lemma ingested_length chunk ingress egress idx txs cnt rows cnt' :
  ingested chunk ingress egress idx txs cnt rows cnt' -> (length rows <= length txs)%nat.
Proof. induction 1; simpl; lia. Qed.

(** Every output with a well-formed user has a row for that user. *)
Lemma ingested_lookup chunk ingress egress idx txs cnt rows cnt' i txo p :
  ingested chunk ingress egress idx txs cnt rows cnt' -> (forall s, is_u64 (cnt s)) ->
  txs !! i = Some txo -> (forall fake, user_of ingress txo fake = Ok p) ->
  exists row n, row ∈ rows /\ is_u64 n /\ row_for chunk egress (idx + i) txo p n row.
Proof.
  intros Hin; revert i; induction Hin as [|idx txo' txs cnt rows cnt' fake e He Hin IH
    |idx txo' txs cnt rows cnt' fake p' row _ Hp Hrow Hin IH]; intros i Hc Hi Huser; [done| |].
  - destruct i as [|i]; simpl in Hi; [simplify_eq; by rewrite Huser in He|].
    rewrite Nat.add_succ_r, <- Nat.add_succ_l; by apply IH.
  - destruct i as [|i]; simpl in Hi.
    + simplify_eq; rewrite Huser in Hp; simplify_eq; exists row; eexists.
      rewrite Nat.add_0_r; split; [by constructor|]; split; [apply Hc|done].
    + destruct (IH i (bump_u64 _ _ Hc) Hi Huser) as (row' & n & Hr & Hn & Hfor).
      exists row', n; rewrite Nat.add_succ_r, <- Nat.add_succ_l; split; [by constructor|done].
Qed.

Context `{!KexLaws K}.

(** The user derives the search key of a row and decrypts its record. *)
Lemma row_for_user chunk (self : SgxIngestEnclave) idx txo v n row :
  is_u64 n -> row_for chunk (ie_egress_key self) idx txo (public_from v) n row ->
  exists rng, versioned_try_from_kex_pubkey blake2b (kex_pubkey self) v = Ok rng
    /\ etr_search_key row = peek (advance_n blake2b (Z.to_nat n) rng)
    /\ decrypt_tx_out_result (mkUserPrivate v) (etr_payload row) = Ok (chunk_record chunk idx txo).
Proof.
  intros Hn (Hkey & r & r' & Hbox).
  pose proof (new_from_static_static_sync blake2b (ie_egress_key self) v) as Hsync.
  simpl in Hsync; eexists; split; [exact Hsync|]; split.
  - pose proof (from_secret_wf blake2b (key_exchange (ie_egress_key self) (public_from v))
      (key_exchange_length _ _)) as Hwf.
    unfold is_u64 in Hn; rewrite advance_n_peek; [|exact Hwf|simpl; lia].
    by rewrite Hkey; simpl; rewrite Z2Nat.id by lia.
  - unfold decrypt_tx_out_result, get_view_key; simpl; rewrite (box_decrypt _ _ _ _ _ Hbox); simpl.
    by rewrite record_roundtrip.
Qed.
End chunks.

Section ingest_correct.
Context `{C : IngestCrypto} `{OM : ObliviousHashMap} `{A : PeerAke}.
Context `{!ObliviousHashMapLaws OM} `{!IngestLaws} `{!KexLaws K}.

(** C4: Ingesting a chunk never panics and reaches the users.  On success, the key exchange
    message of the enclave afterwards is the one it had or the new one that is returned, and every
    output whose hint decrypts to a user is in a row whose search key lies on the rng the user
    builds from that message and whose payload the user decrypts to the record of the output,
    with its position, block and timestamp.  The only error is an overflow in every attempt. *)
Theorem ingest_txs_reaches_users (self : SgxIngestEnclave) chunk :
  initialised self -> counters_ok self ->
  exists res self', ingest_txs self chunk = Ret (res, self') /\ initialised self'
    /\ match res with
       | Ok (rows, new) =>
           counters_ok self'
           /\ (new = None /\ kex_pubkey self' = kex_pubkey self \/ new = Some (kex_pubkey self'))
           /\ get_kex_rng_pubkey self' = Ret (Ok (kex_pubkey self'))
           /\ forall i txo v, tfi_redacted_txs chunk !! i = Some txo ->
                (forall fake, user_of (ie_ingress_key self) txo fake = Ok (public_from v)) ->
                exists row rng n, row ∈ rows
                  /\ versioned_try_from_kex_pubkey blake2b (kex_pubkey self') v = Ok rng
                  /\ etr_search_key row = peek (advance_n blake2b n rng)
                  /\ decrypt_tx_out_result (mkUserPrivate v) (etr_payload row)
                     = Ok (chunk_record chunk i txo)
       | Err e => exists cap,
           e = ChunkTooBig (length (tfi_redacted_txs chunk)) MAX_CHUNK_RETRIES cap
       end.
Proof.
  intros Hinit Hcnt; destruct (ingest_txs_spec self chunk Hinit)
    as (res & self' & Hcall & Hinit' & _ & _ & _ & Hres).
  exists res, self'; split; [done|]; split; [done|]; destruct res as [[rows new]|e]; [|done].
  destruct Hres as (cnt0 & cnt' & Hin & Hc' & Hcase).
  assert (H0 : forall s, is_u64 (cnt0 s)).
  { destruct Hcase as [(_ & _ & ->)|(_ & -> & _)]; [done|intros s; solve_u64]. }
  split; [intros s; rewrite <- Hc'; by eapply ingested_u64|]; split.
  { destruct Hcase as [(-> & He & _)|(-> & _)]; [left; unfold kex_pubkey; by rewrite He|by right]. }
  split; [destruct Hinit' as (st & Hst & _); unfold get_kex_rng_pubkey; by rewrite Hst|].
  intros i txo v Hi Huser.
  destruct (ingested_lookup _ _ _ _ _ _ _ _ i txo _ Hin H0 Hi Huser) as (row & n & Hr & Hn & Hfor).
  destruct (row_for_user chunk self' _ txo v n row Hn Hfor) as (rng & H1 & H2 & H3); eauto 10.
Qed.
End ingest_correct.

(** ** A concrete enclave

    Keys are numbers, users below 256 and drawn keys from 1000 on; a hint [1; u] is for user [u],
    the box is transparent and the hash keeps the counter and the start of the secret. *)

#[export] Instance demo_ingest_kex : Kex := {|
  Private := Z;
  Public := Z;
  public_from := fun a => a;
  public_to_bytes := fun p => [p];
  public_try_from := fun bs =>
    match bs with [p] => Ok p | _ => Err (LengthMismatch (Z.of_nat (length bs)) 1) end;
  key_exchange := fun a p => Z.min a p :: Z.max a p :: replicate 30 0;
|}.

#[export] Instance demo_ingest_kex_laws : KexLaws demo_ingest_kex.
Proof.
  split; [|done|done]; intros a b; cbn [key_exchange public_from demo_ingest_kex].
  by rewrite Z.min_comm, Z.max_comm.
Qed.

Definition demo_ingest_hash (bs : bytes) : bytes := drop 40 bs ++ take 8 (drop 8 bs).

Definition demo_encode_record (r : TxOutRecord) : bytes :=
  let a := tor_tx_out_amount_commitment_data r in
  let b := tor_tx_out_target_key_data r in
  let c := tor_tx_out_public_key_data r in
  [Z.of_nat (length a); Z.of_nat (length b); Z.of_nat (length c);
   tor_tx_out_amount_masked_value r; tor_tx_out_global_index r; tor_block_index r;
   tor_timestamp r; tor_tx_out_amount_commitment_data_crc32 r] ++ a ++ b ++ c.

Definition demo_decode_record (bs : bytes) : option TxOutRecord :=
  match bs with
  | la :: lb :: lc :: v :: g :: k :: t :: crc :: rest =>
      let na := Z.to_nat la in
      let nb := Z.to_nat lb in
      Some (mkTxOutRecord (take na rest) v (take nb (drop na rest))
              (take (Z.to_nat lc) (drop nb (drop na rest))) g k t crc)
  | _ => None
  end.

Lemma demo_record_roundtrip r : demo_decode_record (demo_encode_record r) = Some r.
Proof.
  destruct r as [a v b c g k t crc]; unfold demo_decode_record, demo_encode_record; simpl.
  rewrite !Nat2Z.id, !take_app_length, !drop_app_length, take_app_length.
  by rewrite firstn_all.
Qed.

#[export] Instance demo_ingest_user : UserCrypto (K := demo_ingest_kex) := {|
  CryptoBoxError := unit;
  blake2b := demo_ingest_hash;
  decrypt_in_place := fun _ payload => Ok (true, payload);
  decode_tx_out_record := demo_decode_record;
|}.

#[export] Instance demo_ingest_crypto : IngestCrypto (U := demo_ingest_user) := {|
  Rng := nat;
  random_private := fun r => (1000 + Z.of_nat r, S r);
  random_public := fun r => (Z.of_nat r mod 256, S r);
  ct_decrypt := fun _ hint u =>
    match hint with [1; user] => (true, [user mod 256]) | _ => (false, u) end;
  box_encrypt := fun r _ pt => (Ok pt, S r);
  encode_tx_out_record := demo_encode_record;
  checksum_ieee := fun bs => le_combine bs;
  private_to_bytes := fun k : Z => [k];
  private_try_from := public_try_from (Kex := demo_ingest_kex);
  SgxError := unit;
  seal_raw := fun bs => Ok bs;
  unseal_raw := fun bs => Ok bs;
|}.

#[export] Instance demo_peer_ake : PeerAke := {|
  PeerAkeState := unit;
  PeerSession := unit;
  PeerMessage := list Z;
  PeerAuthRequest := unit;
  PeerAuthResponse := unit;
  PeerVerificationReport := unit;
  PeerAkeError := unit;
  PeerNotFound := tt;
  peer_ake_init := fun s _ => (Ok tt, s);
  ake_peer_init := fun s _ => (Ok tt, s);
  ake_peer_accept := fun s _ => (Ok (tt, tt), s);
  ake_peer_connect := fun s _ _ => (Ok (tt, tt), s);
  ake_peer_close := fun s _ => (Ok tt, s);
  is_peer_known := fun _ _ => Ok true;
  peer_encrypt := fun s _ _ bs => (Ok bs, s);
  peer_decrypt := fun s m => (Ok m, s);
|}.

#[export] Instance demo_ingest_laws : IngestLaws (C := demo_ingest_crypto) (OM := demo_omap).
Proof.
  split; [by do 2 eexists| | |done].
  - by intros r v pt ct r' [= <- _].
  - apply demo_record_roundtrip.
Qed.

#[export] Instance demo_fresh_rng : FreshRng (C := demo_ingest_crypto).
Proof.
  refine {| drawn_private := fun (r : @Rng _ _ demo_ingest_crypto) (e : @Private demo_ingest_kex) =>
    (e : Z) < 1000 + Z.of_nat r |}; simpl.
  - intros r e r' [= <- <-]; lia.
  - intros r r' [[e [= _ <-]]|[[p [= _ <-]]|(p & pt & res & [= _ <-])]]; lia.
Defined.

Definition demo_ingest_enclave (capacity : Z) :
  SgxIngestEnclave (C := demo_ingest_crypto) (OM := demo_omap) (A := demo_peer_ake) :=
  @mkSgxIngestEnclave _ _ demo_ingest_crypto demo_omap demo_peer_ake tt 900 999
    (Some (@RngStore_new demo_omap capacity)) 0%nat.

Definition demo_tx (user : Z) : TxOut := mkTxOut (mkAmount [4] 8) [1] [2] [1; user].
Definition demo_chunk (users : list Z) : TxsForIngest :=
  mkTxsForIngest 7 1000 (demo_tx <$> users) 55.

Lemma demo_ingest_enclave_ok capacity :
  initialised (demo_ingest_enclave capacity) /\ counters_ok (demo_ingest_enclave capacity).
Proof. split; [by do 2 eexists|]; intros s; vm_compute; by split. Qed.

Lemma ingest_txs_reaches_users_witness :
  exists rows self', ingest_txs (demo_ingest_enclave 8) (demo_chunk [10; 20; 10])
      = Ret (Ok (rows, None), self')
    /\ exists row rng n, row ∈ rows
       /\ versioned_try_from_kex_pubkey (K := demo_ingest_kex) demo_ingest_hash (kex_pubkey self') 20 = Ok rng
       /\ etr_search_key row = peek (advance_n demo_ingest_hash n rng)
       /\ decrypt_tx_out_result (U := demo_ingest_user) (@mkUserPrivate demo_ingest_kex 20)
            (etr_payload row)
          = Ok (chunk_record (demo_chunk [10; 20; 10]) 1 (demo_tx 20)).
Proof.
  destruct (demo_ingest_enclave_ok 8) as [Hi Hc].
  destruct (ingest_txs_reaches_users (demo_ingest_enclave 8) (demo_chunk [10; 20; 10]) Hi Hc)
    as (res & self' & Hcall & _ & Hres).
  assert (Hok : (fun x => is_ok x.1) <$> run_ok (ingest_txs (demo_ingest_enclave 8)
    (demo_chunk [10; 20; 10])) = Some true) by (vm_compute; reflexivity).
  assert (Hnew : (fun x => snd <$> ok x.1) <$> run_ok (ingest_txs (demo_ingest_enclave 8)
    (demo_chunk [10; 20; 10])) = Some (Some None)) by (vm_compute; reflexivity).
  rewrite Hcall in Hok, Hnew; destruct res as [[rows new]|e]; [|discriminate].
  injection Hnew as ->; exists rows, self'; split; [exact Hcall|].
  destruct Hres as (_ & _ & _ & H).
  exact (H 1%nat (demo_tx 20) 20 eq_refl (fun fake => eq_refl)).
Defined.

(** After a chunk that is too big the egress key has changed, and the next chunk can succeed
    under the new key without announcing it: its caller still publishes the old key exchange
    message. *)
Theorem too_big_changes_key_silently :
  match ingest_txs (demo_ingest_enclave 1) (demo_chunk [10; 20]) with
  | Ret (Err _, self1) =>
      kex_pubkey self1 <> kex_pubkey (demo_ingest_enclave 1)
      /\ match ingest_txs self1 (demo_chunk [10]) with
         | Ret (Ok (_, new), self2) =>
             new = None /\ kex_pubkey self2 <> kex_pubkey (demo_ingest_enclave 1)
         | _ => False
         end
  | _ => False
  end.
Proof. vm_compute; split_and!; done. Qed.
