(* ===== verification/IngestHistory.v ===== *)
(** * Search keys over the life of an ingest enclave

    What the user's polling relies on: the search keys of a shared secret are
    used in order, without gaps, for as long as the enclave runs.  [history] is
    a sequence of calls of the enclave with the records they published;
    [landed] gives the block of every published search key.  The theorem
    discharges the ordering condition that the polling of the view protocol
    assumes of the records it searches. *)

From S2P Require Import Prelude FogTypes ObliviousMap KexRng UserRngSet Polling IngestEnclave.

Local Open Scope Z_scope.
Local Open Scope fog_scope.

Section history.
Context `{C : IngestCrypto} `{OM : ObliviousHashMap} `{A : PeerAke}.
Context `{!ObliviousHashMapLaws OM} `{!IngestLaws} `{!FreshRng}.

(** The view keys and egress keys in play, closed under what hints decrypt to and what the
    random generator draws; secrets of different egress keys differ, and search keys of the
    secrets do not collide. *)
Context (users : Public -> Prop) (egresses : Private -> Prop).
Definition secret_in_play (s : bytes) : Prop :=
  exists e p, egresses e /\ users p /\ s = key_exchange e p.

Record keys_in_play : Prop := {
  in_play_user : forall k txo fake p, drawn fake -> user_of k txo fake = Ok p -> users p;
  in_play_egress : forall r e r', random_private r = (e, r') -> egresses e;
  in_play_key : forall e e' p p', egresses e -> egresses e' -> users p -> users p' ->
    key_exchange e p = key_exchange e' p' -> e = e';
  in_play_distinct : forall s s' i j, secret_in_play s -> secret_in_play s' ->
    is_u64 i -> is_u64 j -> output blake2b s i = output blake2b s' j -> s = s' /\ i = j;
}.

(** Publish the rows of a block. *)
Definition land (blk : Z) (rows : list ETxOutRecord) (landed : gmap (list Z) Z)
  : gmap (list Z) Z :=
  foldl (fun m row => <[etr_search_key row := blk]> m) landed rows.

(** Calls of an enclave: the published keys, their number and the latest block. *)
Inductive history : SgxIngestEnclave -> gmap (list Z) Z -> Z -> Z -> Prop :=
| history_start self cap blk :
    ie_rng_store self = Some (RngStore_new cap) -> egresses (ie_egress_key self) ->
    drawn_private (ie_rng self) (ie_egress_key self) ->
    history self ∅ 0 blk
| history_ingest self landed total blk chunk rows new self' :
    history self landed total blk ->
    blk <= tfi_block_index chunk ->
    ingest_txs self chunk = Ret (Ok (rows, new), self') ->
    total + Z.of_nat (length rows) < u64_modulus ->
    history self' (land (tfi_block_index chunk) rows landed)
      (total + Z.of_nat (length rows)) (tfi_block_index chunk)
| history_new_egress_key self landed total blk res self' :
    history self landed total blk ->
    new_egress_key self = Ret (res, self') ->
    history self' landed total blk
| history_new_keys self landed total blk res self' :
    history self landed total blk ->
    new_keys self = Ret (res, self') ->
    history self' landed total blk
| history_set_ingress_private_key self landed total blk msg res self' :
    history self landed total blk ->
    set_ingress_private_key self msg = (res, self') ->
    history self' landed total blk.

(** How many search keys of each secret were published: the first ones, in block order. *)
Record seq_inv (landed : gmap (list Z) Z) (used : bytes -> Z) (total : Z) : Prop := {
  seq_total : 0 <= total < u64_modulus;
  seq_used : forall s, 0 <= used s <= total;
  seq_landed : forall s i, secret_in_play s -> 0 <= i < used s ->
    is_Some (landed !! output blake2b s i);
  seq_order : forall s i j bi bj, secret_in_play s -> 0 <= i <= j -> j < used s ->
    landed !! output blake2b s i = Some bi -> landed !! output blake2b s j = Some bj -> bi <= bj;
  seq_unused : forall s i, secret_in_play s -> used s <= i < u64_modulus ->
    landed !! output blake2b s i = None;
}.

(** The keys of an egress key were published up to a block. *)
Definition recent (egress : Private) (landed : gmap (list Z) Z) (used : bytes -> Z) (blk : Z)
  : Prop :=
  forall p i b, users p -> 0 <= i < used (key_exchange egress p) ->
    landed !! output blake2b (key_exchange egress p) i = Some b -> b <= blk.

(** The counters of an enclave continue the published sequences. *)
Definition continues (self : SgxIngestEnclave) (used : bytes -> Z) : Prop :=
  forall p, users p -> enclave_count self (key_exchange (ie_egress_key self) p)
                       = used (key_exchange (ie_egress_key self) p).

(** Only drawn keys were used. *)
Definition covered (rng : Rng) (used : bytes -> Z) : Prop :=
  forall e p, egresses e -> users p -> 0 < used (key_exchange e p) -> drawn_private rng e.

(** An enclave in step with what was published. *)
Record in_step (self : SgxIngestEnclave) (landed : gmap (list Z) Z) (used : bytes -> Z)
  (total blk : Z) : Prop := {
  step_init : initialised self;
  step_egress : egresses (ie_egress_key self);
  step_drawn : drawn_private (ie_rng self) (ie_egress_key self);
  step_seq : seq_inv landed used total;
  step_recent : recent (ie_egress_key self) landed used blk;
  step_continues : continues self used;
  step_covered : covered (ie_rng self) used;
}.

Context (Hplay : keys_in_play).

Lemma seq_inv_empty : seq_inv ∅ (fun _ => 0) 0.
Proof.
  split; try (intros; lia); [unfold u64_modulus; lia|intros; apply lookup_empty].
Qed.

(** Keys that belong to no secret in play change nothing. *)
Lemma seq_inv_ext landed landed' used total :
  (forall s i, secret_in_play s -> is_u64 i ->
     landed' !! output blake2b s i = landed !! output blake2b s i) ->
  seq_inv landed used total -> seq_inv landed' used total.
Proof.
  intros Heq [H1 H2 H3 H4 H5]; split; [done|done| | |]; unfold is_u64 in *.
  - intros s i Hs Hi; pose proof (H2 s); rewrite Heq by (done || lia); by apply H3.
  - intros s i j bi bj Hs Hij Hj; pose proof (H2 s); rewrite !Heq by (done || lia); by apply H4.
  - intros s i Hs Hi; pose proof (H2 s); rewrite Heq by (done || lia); by apply H5.
Qed.

(** One row: the next search key of a secret, in the latest block. *)
Lemma seq_inv_row landed used total blk egress p0 :
  seq_inv landed used total -> recent egress landed used blk ->
  egresses egress -> users p0 -> total + 1 < u64_modulus ->
  let s0 := key_exchange egress p0 in
  let landed' := <[output blake2b s0 (used s0) := blk]> landed in
  seq_inv landed' (bump s0 used) (total + 1) /\ recent egress landed' (bump s0 used) blk.
Proof.
  intros [H1 H2 H3 H4 H5] Hrec He Hp0 Ht s0 landed'.
  assert (Hs0 : secret_in_play s0) by (by exists egress, p0).
  assert (Hbump : bump s0 used s0 = used s0 + 1).
  { unfold bump; rewrite decide_True by done; specialize (H2 s0); apply u64_add_small;
      unfold is_u64; lia. }
  assert (Hu : forall s, s = s0 /\ bump s0 used s = used s0 + 1 \/ s <> s0 /\ bump s0 used s = used s).
  { intros s; destruct (decide (s = s0)) as [->|Hs]; [by left|right].
    unfold bump; by rewrite decide_False. }
  assert (Hdist : forall s i, secret_in_play s -> is_u64 i -> (s <> s0 \/ i <> used s0) ->
    output blake2b s0 (used s0) <> output blake2b s i).
  { intros s i Hs Hi Hne Heq; specialize (H2 s0).
    assert (Hu0 : is_u64 (used s0)) by (unfold is_u64; lia).
    destruct (in_play_distinct Hplay s0 s _ _ Hs0 Hs Hu0 Hi Heq) as [-> <-]; tauto. }
  assert (Hold : forall s i, secret_in_play s -> 0 <= i < used s ->
    landed' !! output blake2b s i = landed !! output blake2b s i).
  { intros s i Hs Hi; pose proof (H2 s); apply lookup_insert_ne, Hdist; [done|unfold is_u64; lia|].
    destruct (decide (s = s0)) as [->|]; [right; lia|by left]. }
  assert (Hnew : landed' !! output blake2b s0 (used s0) = Some blk) by apply lookup_insert_eq.
  split; [split; [lia| | | |]|].
  - intros s; specialize (H2 s); destruct (Hu s) as [[-> ->]|[_ ->]]; lia.
  - intros s i Hs Hi; destruct (decide (0 <= i < used s)) as [Hi'|Hi'].
    + rewrite Hold by done; by apply H3.
    + destruct (Hu s) as [[-> Hb]|[_ Hb]]; rewrite Hb in Hi; [|lia].
      replace i with (used s0) by lia; by rewrite Hnew.
  - intros s i j bi bj Hs Hij Hj; destruct (decide (j < used s)) as [Hj'|Hj'].
    + rewrite !Hold by (done || lia); by apply H4.
    + destruct (Hu s) as [[-> Hb]|[_ Hb]]; rewrite Hb in Hj; [|lia].
      replace j with (used s0) by lia; rewrite Hnew; intros Hbi [= <-].
      destruct (decide (i = used s0)) as [->|Hne]; [rewrite Hnew in Hbi; by simplify_eq|].
      rewrite Hold in Hbi by (done || lia); apply (Hrec p0 i bi Hp0); [fold s0; lia|exact Hbi].
  - intros s i Hs Hi; pose proof (H2 s); unfold landed'; rewrite lookup_insert_ne.
    + apply H5; [done|]; destruct (Hu s) as [[-> Hb]|[_ Hb]]; lia.
    + apply Hdist; [done|unfold is_u64; destruct (Hu s) as [[-> Hb]|[_ Hb]]; lia|].
      destruct (Hu s) as [[-> Hb]|[? _]]; [right; lia|by left].
  - intros p i b Hp Hi; set (s := key_exchange egress p) in *.
    assert (Hs : secret_in_play s) by (by exists egress, p).
    destruct (decide (0 <= i < used s)) as [Hi'|Hi']; [rewrite Hold by done; by apply Hrec|].
    destruct (Hu s) as [[Heq Hb]|[_ Hb]]; rewrite Hb in Hi; [|lia].
    rewrite Heq in *; replace i with (used s0) by lia; rewrite Hnew; intros [= <-]; lia.
Qed.

Lemma seq_inv_ingested chunk ingress egress idx txs cnt rows cnt' landed used total :
  ingested chunk ingress egress idx txs cnt rows cnt' -> egresses egress ->
  (forall p, users p -> cnt (key_exchange egress p) = used (key_exchange egress p)) ->
  seq_inv landed used total -> recent egress landed used (tfi_block_index chunk) ->
  total + Z.of_nat (length rows) < u64_modulus ->
  exists used', seq_inv (land (tfi_block_index chunk) rows landed) used'
      (total + Z.of_nat (length rows))
    /\ recent egress (land (tfi_block_index chunk) rows landed) used' (tfi_block_index chunk)
    /\ (forall p, users p -> cnt' (key_exchange egress p) = used' (key_exchange egress p))
    /\ forall s, used' s = used s \/ exists p, users p /\ s = key_exchange egress p.
Proof.
  intros Hin He; revert landed used total.
  induction Hin as [idx cnt|idx txo txs cnt rows cnt' fake e Herr Hin IH
    |idx txo txs cnt rows cnt' fake p row Hd Hp [Hkey _] Hin IH];
    intros landed used total Hcnt Hinv Hrec Ht.
  - exists used; rewrite Z.add_0_r; auto.
  - by apply (IH landed used total).
  - pose proof (in_play_user Hplay _ _ _ _ Hd Hp) as Hup.
    cbn [length] in Ht |- *; rewrite Nat2Z.inj_succ in Ht |- *.
    destruct (seq_inv_row landed used total _ egress p Hinv Hrec He Hup) as [Hinv1 Hrec1]; [lia|].
    destruct (IH (<[etr_search_key row := tfi_block_index chunk]> landed)
      (bump (key_exchange egress p) used) (total + 1)) as (used' & Hinv' & Hrec' & Hc' & Hd').
    + intros q Hq; unfold bump; case_decide; by rewrite Hcnt.
    + by rewrite Hkey, Hcnt.
    + by rewrite Hkey, Hcnt.
    + lia.
    + exists used'; split; [|split; [done|split; [done|]]].
      2:{ intros s; destruct (Hd' s) as [->|]; [|by right].
          unfold bump; case_decide; [right; eauto|by left]. }
      by replace (total + Z.succ (Z.of_nat (length rows)))
        with (total + 1 + Z.of_nat (length rows)) by lia.
Qed.

(** Nothing of a key that was not drawn before has been used. *)
Lemma undrawn_unused rng used e p :
  covered rng used -> (forall s, 0 <= used s) -> egresses e -> ~ drawn_private rng e -> users p ->
  used (key_exchange e p) = 0.
Proof.
  intros Hc Hpos He Hn Hp; specialize (Hpos (key_exchange e p)).
  destruct (Z.eq_dec (used (key_exchange e p)) 0) as [|Hne]; [done|].
  destruct Hn; apply (Hc e p); [done|done|lia].
Qed.

Lemma undrawn_recent rng used e landed blk :
  covered rng used -> (forall s, 0 <= used s) -> egresses e -> ~ drawn_private rng e ->
  recent e landed used blk.
Proof. intros Hc Hpos He Hn p i b Hp; rewrite (undrawn_unused rng used e p) by done; lia. Qed.

Lemma covered_mono rng rng' used :
  (forall x, drawn_private rng x -> drawn_private rng' x) -> covered rng used -> covered rng' used.
Proof. intros Hm Hc e p He Hp Hu; by apply Hm, (Hc e p). Qed.

Lemma recent_later egress landed used blk blk' :
  blk <= blk' -> recent egress landed used blk -> recent egress landed used blk'.
Proof. intros Hb Hrec p i b Hp Hi Hl; specialize (Hrec p i b Hp Hi Hl); lia. Qed.

Lemma drawn_steps rng rng' x :
  rtc rng_step rng rng' -> drawn_private rng x -> drawn_private rng' x.
Proof.
  induction 1 as [|r1 r2 r3 Hstep _ IH]; intros Hx; [done|].
  by apply IH, (drawn_private_step r1 r2).
Qed.

(** A key drawn from now on is new. *)
Lemma drawn_later rng r e r' :
  rtc rng_step rng r -> random_private r = (e, r') -> ~ drawn_private rng e /\ drawn_private r' e.
Proof.
  intros Hsteps Hr; destruct (drawn_private_fresh _ _ _ Hr) as [Hn Hd]; split; [|done].
  intros Hx; by apply Hn, (drawn_steps rng r).
Qed.

(** One successful call of the enclave, published under its block. *)
Lemma in_step_ingest_txs self chunk rows new self' landed used total blk :
  in_step self landed used total blk -> blk <= tfi_block_index chunk ->
  ingest_txs self chunk = Ret (Ok (rows, new), self') ->
  total + Z.of_nat (length rows) < u64_modulus ->
  exists used', in_step self' (land (tfi_block_index chunk) rows landed) used'
      (total + Z.of_nat (length rows)) (tfi_block_index chunk).
Proof.
  intros [Hi He Hdr Hinv Hrec Hc Hcov] Hblk Hcall Ht.
  destruct (ingest_txs_spec self chunk Hi) as (res & self1 & Hcall' & Hi1 & _ & Hrng & Heg & Hres).
  rewrite Hcall in Hcall'; injection Hcall' as <- <-.
  destruct Hres as (cnt0 & cnt' & Hin & Hc' & Hcase).
  assert (Hpos : forall s, 0 <= used s) by (intros s; apply (seq_used _ _ _ Hinv)).
  assert (Hdr' : drawn_private (ie_rng self') (ie_egress_key self')).
  { destruct Heg as [->|(r & r' & H1 & H2 & H3)]; [by eapply drawn_steps|].
    eapply drawn_steps; [exact H3|]; exact (proj2 (drawn_later _ _ _ _ H1 H2)). }
  assert (Hstart : egresses (ie_egress_key self')
    /\ recent (ie_egress_key self') landed used (tfi_block_index chunk)
    /\ forall p, users p -> cnt0 (key_exchange (ie_egress_key self') p)
                         = used (key_exchange (ie_egress_key self') p)).
  { destruct Hcase as [(_ & Heq & ->)|(_ & -> & r & r' & Hsteps & Hr)].
    - rewrite Heq; split; [done|]; split; [by eapply recent_later|done].
    - pose proof (in_play_egress Hplay _ _ _ Hr) as He1; split; [done|].
      destruct (drawn_later _ _ _ _ Hsteps Hr) as [Hn _].
      split; [by eapply undrawn_recent|intros p Hp; symmetry; by eapply undrawn_unused]. }
  destruct Hstart as (He1 & Hrec1 & Hcnt0).
  destruct (seq_inv_ingested _ _ _ _ _ _ _ _ landed used total Hin He1 Hcnt0 Hinv Hrec1 Ht)
    as (used' & Hinv' & Hrec' & Hc1 & Hd); exists used'; split; try done.
  - intros p Hp; rewrite <- Hc'; by apply Hc1.
  - intros e p Hee Hp Hu; destruct (Hd (key_exchange e p)) as [Heq|(q & Hq & Heq)].
    + eapply drawn_steps; [done|]; apply (Hcov e p); [done|done|by rewrite <- Heq].
    + by rewrite (in_play_key Hplay e (ie_egress_key self') p q).
Qed.

(** An enclave whose egress key is drawn anew and whose store is empty is in step with
    whatever was published before. *)
Lemma in_step_new_key self r r' landed used total blk rng :
  initialised self -> random_private r = (ie_egress_key self, r') -> ie_rng self = r' ->
  (forall s, enclave_count self s = 0) ->
  rtc rng_step rng r -> seq_inv landed used total -> covered rng used ->
  in_step self landed used total blk.
Proof.
  intros Hi Hr Hr' Hz Hsteps Hinv Hcov.
  destruct (drawn_later _ _ _ _ Hsteps Hr) as [Hn Hd].
  pose proof (in_play_egress Hplay _ _ _ Hr) as He.
  assert (Hpos : forall s, 0 <= used s) by (intros s; apply (seq_used _ _ _ Hinv)).
  split; try done; [by rewrite Hr'|by eapply undrawn_recent| |].
  - intros p Hp; rewrite Hz; symmetry; by eapply undrawn_unused.
  - intros e p Hee Hp Hu; rewrite Hr'; eapply drawn_steps; [|by eapply Hcov].
    eapply rtc_r; [exact Hsteps|left; by eexists].
Qed.

Lemma new_egress_key_spec self res self' :
  initialised self -> new_egress_key self = Ret (res, self') ->
  res = Ok tt /\ initialised self' /\ ie_ingress_key self' = ie_ingress_key self
  /\ random_private (ie_rng self) = (ie_egress_key self', ie_rng self')
  /\ forall s, enclave_count self' s = 0.
Proof.
  intros (st & Hst & Hom); unfold new_egress_key; rewrite Hst; simpl.
  destruct (random_private (ie_rng self)) as [e r] eqn:Hr; intros [= <- <-]; simpl.
  split; [done|]; split; [by exists (RngStore_clear st)|]; split; [done|]; split; [done|].
  intros s; apply count_clear.
Qed.

Lemma new_keys_spec self res self' :
  initialised self -> new_keys self = Ret (res, self') ->
  res = Ok tt /\ initialised self'
  /\ (exists r, rtc rng_step (ie_rng self) r
        /\ random_private r = (ie_egress_key self', ie_rng self'))
  /\ forall s, enclave_count self' s = 0.
Proof.
  intros (st & Hst & Hom); unfold new_keys; rewrite Hst; simpl.
  destruct (random_private (ie_rng self)) as [i r] eqn:Hr.
  destruct (random_private r) as [e r'] eqn:Hr'; intros [= <- <-]; simpl.
  split; [done|]; split; [by exists (RngStore_clear st)|]; split; [|intros s; apply count_clear].
  exists r; split; [|done]; apply rtc_once; left; by eexists.
Qed.

Lemma set_ingress_private_key_spec self msg res self' :
  set_ingress_private_key self msg = (res, self') ->
  ie_egress_key self' = ie_egress_key self /\ ie_rng_store self' = ie_rng_store self
  /\ ie_rng self' = ie_rng self.
Proof.
  unfold set_ingress_private_key; destruct (peer_decrypt (ie_ake self) msg) as [key ake].
  intros Hcall; repeat case_match; by simplify_eq.
Qed.

Lemma get_ingress_private_key_spec self peer res self' :
  get_ingress_private_key self peer = (res, self') ->
  ie_egress_key self' = ie_egress_key self /\ ie_rng_store self' = ie_rng_store self
  /\ ie_rng self' = ie_rng self /\ ie_ingress_key self' = ie_ingress_key self.
Proof.
  unfold get_ingress_private_key; destruct (is_peer_known (ie_ake self) peer) as [[]|];
    [destruct (peer_encrypt _ _ _ _) as [msg ake]| |]; by intros [= <- <-].
Qed.

Lemma in_step_same_egress self self' landed used total blk :
  ie_egress_key self' = ie_egress_key self -> ie_rng_store self' = ie_rng_store self ->
  ie_rng self' = ie_rng self ->
  in_step self landed used total blk -> in_step self' landed used total blk.
Proof.
  intros H1 H2 H3 [Hi He Hdr Hinv Hrec Hc Hcov].
  unfold initialised, continues, enclave_count in *.
  split; unfold initialised, continues, enclave_count; rewrite ?H1, ?H2, ?H3; done.
Qed.

Lemma history_in_step self landed total blk :
  history self landed total blk -> exists used, in_step self landed used total blk.
Proof.
  induction 1 as [self cap blk Hst He Hdr|self landed total blk chunk rows new self' _ IH Hblk Hcall Ht
    |self landed total blk res self' _ IH Hcall|self landed total blk res self' _ IH Hcall
    |self landed total blk msg res self' _ IH Hcall].
  - exists (fun _ => 0); split; [by exists (RngStore_new cap)|done|done|apply seq_inv_empty| | |].
    + intros p i b _ Hi; lia.
    + intros p _; unfold enclave_count; rewrite Hst; apply count_new.
    + intros e p _ _ Hu; lia.
  - destruct IH as (used & Hs); by eapply in_step_ingest_txs.
  - destruct IH as (used & Hs).
    destruct (new_egress_key_spec _ _ _ (step_init _ _ _ _ _ Hs) Hcall) as (_ & Hi & _ & Hr & Hz).
    exists used; eapply (in_step_new_key self' (ie_rng self)); try done; apply Hs.
  - destruct IH as (used & Hs).
    destruct (new_keys_spec _ _ _ (step_init _ _ _ _ _ Hs) Hcall) as (_ & Hi & (r & Hsteps & Hr) & Hz).
    exists used; eapply (in_step_new_key self' r); try done; apply Hs.
  - destruct IH as (used & Hs); exists used.
    destruct (set_ingress_private_key_spec _ _ _ _ Hcall) as (H1 & H2 & H3).
    by eapply in_step_same_egress.
Qed.

(** Published first outputs in block order are outputs used in order. *)
Lemma seq_inv_used_in_order landed used total s :
  seq_inv landed used total -> secret_in_play s -> used_in_order landed s.
Proof.
  intros Hinv Hs i j b Hij Hj Hl.
  assert (Hlt : j < used s).
  { destruct (Z.lt_ge_cases j (used s)); [done|].
    by rewrite (seq_unused _ _ _ Hinv) in Hl by (done || lia). }
  destruct (seq_landed _ _ _ Hinv s i Hs) as (b' & Hb'); [lia|].
  exists b'; split; [done|]; by eapply (seq_order _ _ _ Hinv s i j).
Qed.

End history.

(** ** A concrete history *)

Definition demo_users (p : Z) : Prop := 0 <= p < 256.
Definition demo_egresses (e : Z) : Prop := 256 <= e.

Lemma demo_key_exchange e p :
  demo_egresses e -> demo_users p ->
  key_exchange (Kex := demo_ingest_kex) e p = p :: e :: replicate 30 0.
Proof.
  unfold demo_egresses, demo_users; intros He Hp; cbn [key_exchange demo_ingest_kex].
  by rewrite Z.min_r, Z.max_l by lia.
Qed.

(** The hash keeps the counter and the start of the secret. *)
Lemma demo_ingest_output p e i :
  output demo_ingest_hash (p :: e :: replicate 30 0) i = to_le_bytes i ++ [p; e; 0; 0; 0; 0; 0; 0].
Proof.
  unfold output; cbn [prf KexRng20201124]; unfold demo_ingest_hash, to_le_bytes, ascii_20201124.
  cbn [le_split app drop take replicate]; reflexivity.
Qed.

Lemma demo_keys_in_play :
  keys_in_play (C := demo_ingest_crypto) demo_users demo_egresses.
Proof.
  assert (Hmod : forall z, demo_users (z mod 256))
    by (intros z; unfold demo_users; apply Z.mod_pos_bound; lia).
  split.
  - intros k txo fake p (r & r' & Hr) Hu; unfold user_of in Hu; simpl in Hr, Hu.
    injection Hr as <- _; repeat case_match; simpl in *; simplify_eq; apply Hmod.
  - intros r e r' Hr; simpl in Hr; injection Hr as <- _; unfold demo_egresses; lia.
  - intros e e' p p' He He' Hp Hp'; rewrite !demo_key_exchange by done; by intros [=].
  - intros s s' i j (e & p & He & Hp & ->) (e' & p' & He' & Hp' & ->) Hi Hj.
    rewrite !demo_key_exchange by done; cbn [blake2b demo_ingest_user]; rewrite !demo_ingest_output.
    intros [Hc Hk]%app_inj_1; [|done]; injection Hk as -> ->.
    split; [done|by apply to_le_bytes_inj].
Qed.

