(* ===== verification/ControllerState.v ===== *)
(** * The state of the ingest controller (src/fog/ingest/server/src/controller_state.rs)

    The mode, the next block to scan, the expiry window, the ingest invocation
    and the peers of an ingest server, with the rules on when they may change.
    Logging and metrics are left out. *)

From S2P Require Import Prelude.

Local Open Scope Z_scope.
Local Open Scope fog_scope.

Inductive IngestMode :=
| Idle
| Active.

#[export] Instance IngestMode_eq_dec : EqDecision IngestMode.
Proof. solve_decision. Defined.

Inductive StateChangeError :=
| CannotSetNextBlockIndex (mode : IngestMode)
| CannotReducePubkeyExpiry (mode : IngestMode) (old_val proposed : Z).

(** A peer is its uri; [peers] is the ordered set of them. *)
Abbreviation IngestPeerUri := (list Z).

Record IngestControllerState := mkIngestControllerState {
  ics_mode : IngestMode;
  ics_next_block_index : Z;
  ics_pubkey_expiry_window : Z;
  ics_ingest_invocation_id : option Z;
  ics_peers : gset (list Z);
}.

(** The part of the server configuration that the controller reads. *)
Record IngestServerConfig := mkIngestServerConfig {
  cfg_local_node_id : bytes;
  cfg_max_transactions : nat;
  cfg_pubkey_expiry_window : Z;
  cfg_peers : gset (list Z);
  cfg_fog_report_id : bytes;
  cfg_state_file : bool;
}.

Definition IngestControllerState_new (config : IngestServerConfig) : IngestControllerState :=
  mkIngestControllerState Idle 0 (cfg_pubkey_expiry_window config) None (cfg_peers config).

Definition is_idle (self : IngestControllerState) : bool :=
  bool_decide (ics_mode self = Idle).

Definition is_active (self : IngestControllerState) : bool :=
  bool_decide (ics_mode self = Active).

Definition set_mode (self : IngestControllerState) (mode : IngestMode) : IngestControllerState :=
  mkIngestControllerState mode (ics_next_block_index self) (ics_pubkey_expiry_window self)
    (ics_ingest_invocation_id self) (ics_peers self).

Definition set_active (self : IngestControllerState) : IngestControllerState :=
  set_mode self Active.

Definition set_idle (self : IngestControllerState) : IngestControllerState :=
  set_mode self Idle.

Definition get_next_block_index (self : IngestControllerState) : Z := ics_next_block_index self.

Definition increment_next_block_index (self : IngestControllerState) : run IngestControllerState :=
  _ ← rassert (negb (is_idle self));
  Ret (mkIngestControllerState (ics_mode self) (ics_next_block_index self +w 1)
         (ics_pubkey_expiry_window self) (ics_ingest_invocation_id self) (ics_peers self)).

Definition set_next_block_index (self : IngestControllerState) (new_val : Z)
  : result unit StateChangeError * IngestControllerState :=
  if bool_decide (ics_mode self = Idle)
  then (Ok tt, mkIngestControllerState (ics_mode self) new_val (ics_pubkey_expiry_window self)
                 (ics_ingest_invocation_id self) (ics_peers self))
  else (Err (CannotSetNextBlockIndex (ics_mode self)), self).

Definition get_pubkey_expiry_window (self : IngestControllerState) : Z :=
  ics_pubkey_expiry_window self.

Definition with_pubkey_expiry_window (self : IngestControllerState) (val : Z)
  : IngestControllerState :=
  mkIngestControllerState (ics_mode self) (ics_next_block_index self) val
    (ics_ingest_invocation_id self) (ics_peers self).

Definition set_pubkey_expiry_window (self : IngestControllerState) (val : Z)
  : result unit StateChangeError * IngestControllerState :=
  if bool_decide (ics_mode self = Idle)
  then (Ok tt, with_pubkey_expiry_window self val)
  else
    let old_val := ics_pubkey_expiry_window self in
    if val <? old_val then (Err (CannotReducePubkeyExpiry (ics_mode self) old_val val), self)
    else (Ok tt, with_pubkey_expiry_window self val).

Definition get_ingest_invocation_id (self : IngestControllerState) : option Z :=
  ics_ingest_invocation_id self.

Definition set_ingest_invocation_id (self : IngestControllerState) (val : option Z)
  : IngestControllerState :=
  mkIngestControllerState (ics_mode self) (ics_next_block_index self)
    (ics_pubkey_expiry_window self) val (ics_peers self).

Definition get_peers (self : IngestControllerState) : gset (list Z) := ics_peers self.

(** Replaced only when something was added or removed. *)
Definition set_peers (self : IngestControllerState) (new_peers : gset (list Z))
  : IngestControllerState :=
  let added := new_peers ∖ ics_peers self in
  let removed := ics_peers self ∖ new_peers in
  if negb (bool_decide (added = ∅)) || negb (bool_decide (removed = ∅))
  then mkIngestControllerState (ics_mode self) (ics_next_block_index self)
         (ics_pubkey_expiry_window self) (ics_ingest_invocation_id self) new_peers
  else self.

(** The summary sent to peers and written to the state file; the controller fills in
    the keys.  An absent invocation id is zero in the message. *)
Record IngestSummary := mkIngestSummary {
  sum_mode : IngestMode;
  sum_next_block_index : Z;
  sum_pubkey_expiry_window : Z;
  sum_ingress_pubkey : bytes;
  sum_egress_pubkey : bytes;
  sum_kex_rng_version : Z;
  sum_peers : list IngestPeerUri;
  sum_ingest_invocation_id : Z;
}.

Definition state_ingest_summary (peer_order : gset (list Z) -> list IngestPeerUri)
  (self : IngestControllerState) : IngestSummary :=
  mkIngestSummary (ics_mode self) (ics_next_block_index self) (ics_pubkey_expiry_window self)
    [] [] 0 (peer_order (ics_peers self)) (default 0 (ics_ingest_invocation_id self)).

Lemma set_peers_value self new_peers : ics_peers (set_peers self new_peers) = new_peers.
Proof.
  unfold set_peers; case_match eqn:Hc; [done|].
  apply orb_false_iff in Hc as [H1 H2]; rewrite negb_false_iff, bool_decide_eq_true in H1, H2.
  apply (anti_symm (⊆)); intros x Hx.
  - destruct (decide (x ∈ new_peers)) as [|Hn]; [done|].
    assert (Hd : x ∈ ics_peers self ∖ new_peers) by (by apply elem_of_difference).
    rewrite H2 in Hd; by apply elem_of_empty in Hd.
  - destruct (decide (x ∈ ics_peers self)) as [|Hn]; [done|].
    assert (Hd : x ∈ new_peers ∖ ics_peers self) by (by apply elem_of_difference).
    rewrite H1 in Hd; by apply elem_of_empty in Hd.
Qed.

(** One call of a mutating operation of the state. *)
Inductive state_call : IngestControllerState -> IngestControllerState -> Prop :=
| call_set_active s : state_call s (set_active s)
| call_set_idle s : state_call s (set_idle s)
| call_increment s s' : increment_next_block_index s = Ret s' -> state_call s s'
| call_set_next_block_index s v : state_call s (set_next_block_index s v).2
| call_set_pubkey_expiry_window s v : state_call s (set_pubkey_expiry_window s v).2
| call_set_ingest_invocation_id s v : state_call s (set_ingest_invocation_id s v)
| call_set_peers s v : state_call s (set_peers s v).

(** While the server stays active the scan position only moves by one block at a time and the
    expiry window never shrinks, whatever operations are called: blocks are neither skipped nor
    repeated and the promise published in reports is not withdrawn. *)
Theorem active_state_rules s s' :
  state_call s s' -> ics_mode s = Active -> ics_mode s' = Active ->
  (ics_next_block_index s' = ics_next_block_index s
   \/ ics_next_block_index s' = ics_next_block_index s +w 1)
  /\ ics_pubkey_expiry_window s <= ics_pubkey_expiry_window s'.
Proof.
  intros Hcall Ha Ha'; destruct Hcall as [s|s|s s' H|s v|s v|s v|s v]; simpl in *; try lia.
  - unfold increment_next_block_index, is_idle in H; rewrite Ha in H.
    simpl in H; injection H as <-; simpl; lia.
  - unfold set_next_block_index; rewrite bool_decide_false by congruence; simpl; lia.
  - unfold set_pubkey_expiry_window; rewrite bool_decide_false by congruence.
    destruct (Z.ltb_spec v (ics_pubkey_expiry_window s)); simpl; lia.
  - unfold set_peers; case_match; simpl; lia.
Qed.

Lemma active_state_rules_witness :
  let s := mkIngestControllerState Active 7 100 (Some 1) ∅ in
  ics_pubkey_expiry_window s <= ics_pubkey_expiry_window (set_pubkey_expiry_window s 50).2.
Proof.
  intros s; exact (proj2 (active_state_rules s (set_pubkey_expiry_window s 50).2
    (call_set_pubkey_expiry_window s 50) eq_refl eq_refl)).
Defined.
