(* ===== verification/EnclaveConnection.v ===== *)
(** * The attested channel of a client (src/fog/enclave_connection/src)

    [EnclaveConnection] keeps the cipher of a session with a remote enclave.  A
    request attests first if there is no session, encrypts the request, sends it
    and decrypts the answer.  The handshake, the cipher, the metadata of gRPC and
    the generator of the operating system are parameters; the gRPC channel is a
    class, as it is a trait in the source.  The client of the fog view service
    (view/connection/src/lib.rs) is one user of it. *)

From S2P Require Import Prelude FogTypes.

Local Open Scope Z_scope.
Local Open Scope fog_scope.

(** ** Messages and errors *)

(** The message of the attest api. *)
Record Message := mkMessage {
  msg_aad : bytes;
  msg_channel_id : bytes;
  msg_data : bytes;
}.

(** The error of the grpc library: the status of a failed call, or a failure on
    this side of the channel. *)
Inductive GrpcError :=
| RpcFailure (status : Z)
| OtherGrpcError (code : Z).

Inductive EnclaveConnectionError :=
| Rpc (e : GrpcError)
| EnclaveAke (code : Z)
| Cipher (code : Z)
| InvalidUri (code : Z)
| ProtoDecode (code : Z).

(** ** Foreign code *)

Class AttestClient := {
  Uri : Type;
  Metadata : Type;
  MetadataBuilder : Type;
  CallOption : Type;
  CookieJar : Type;
  Verifier : Type;
  VerificationReport : Type;
  CsRng : Type;
  Initiator : Type;
  Ready : Type;
  responder_id : Uri -> result bytes Z;
  uri_username : Uri -> bytes;
  uri_password : Uri -> bytes;
  authorization_header : bytes -> bytes -> bytes;
  MetadataBuilder_new : MetadataBuilder;
  add_authorization : MetadataBuilder -> bytes -> result MetadataBuilder Z;
  MetadataBuilder_build : MetadataBuilder -> Metadata;
  CallOption_headers : Metadata -> CallOption;
  CookieJar_default : CookieJar;
  to_client_metadata : CookieJar -> result MetadataBuilder Z;
  update_from_server_metadata : CookieJar -> option Metadata -> option Metadata ->
    result unit Z * CookieJar;
  (** [Start::new] and its first transition; the second transition. *)
  client_initiate : bytes -> CsRng -> result (Initiator * bytes) Z * CsRng;
  client_finish : Initiator -> bytes -> Verifier -> CsRng ->
    result (Ready * VerificationReport) Z * CsRng;
  binding : Ready -> bytes;
  ready_encrypt : Ready -> bytes -> bytes -> result bytes Z * Ready;
  ready_decrypt : Ready -> bytes -> bytes -> result bytes Z * Ready;
}.

(** The trait [EnclaveGrpcChannel]: an answer comes with headers and trailers. *)
Class EnclaveGrpcChannel `{AC : AttestClient} (G : Type) := {
  grpc_auth : G -> bytes -> CallOption ->
    result (option Metadata * bytes * option Metadata) GrpcError * G;
  grpc_enclave_request : G -> Message -> CallOption ->
    result (option Metadata * Message * option Metadata) GrpcError * G;
}.

(** ** The connection *)

Record BasicCredentials := mkBasicCredentials {
  creds_username : bytes;
  creds_password : bytes;
}.

Record EnclaveConnection `{AC : AttestClient} {G : Type} := mkEnclaveConnection {
  ec_uri : Uri;
  ec_grpc : G;
  attest_cipher : option Ready;
  ec_verifier : Verifier;
  ec_creds : BasicCredentials;
  ec_cookies : CookieJar;
  (** What [McRng] reads. *)
  ec_csprng : CsRng;
}.
Global Arguments EnclaveConnection {_} G.

Section connection.
Context `{AC : AttestClient} {G : Type} `{Ch : !EnclaveGrpcChannel G}.

Definition set_cipher (self : EnclaveConnection G) (cipher : option Ready) : EnclaveConnection G :=
  mkEnclaveConnection AC G (ec_uri self) (ec_grpc self) cipher (ec_verifier self) (ec_creds self)
    (ec_cookies self) (ec_csprng self).

Definition set_grpc (self : EnclaveConnection G) (grpc : G) : EnclaveConnection G :=
  mkEnclaveConnection AC G (ec_uri self) grpc (attest_cipher self) (ec_verifier self) (ec_creds self)
    (ec_cookies self) (ec_csprng self).

Definition set_csprng (self : EnclaveConnection G) (rng : CsRng) : EnclaveConnection G :=
  mkEnclaveConnection AC G (ec_uri self) (ec_grpc self) (attest_cipher self) (ec_verifier self)
    (ec_creds self) (ec_cookies self) rng.

Definition set_cookies (self : EnclaveConnection G) (cookies : CookieJar) : EnclaveConnection G :=
  mkEnclaveConnection AC G (ec_uri self) (ec_grpc self) (attest_cipher self) (ec_verifier self)
    (ec_creds self) cookies (ec_csprng self).

Definition EnclaveConnection_new (uri : Uri) (grpc : G) (verifier : Verifier) (rng : CsRng)
  : EnclaveConnection G :=
  mkEnclaveConnection AC G uri grpc None verifier
    (mkBasicCredentials (uri_username uri) (uri_password uri)) CookieJar_default rng.

Definition is_attested (self : EnclaveConnection G) : bool :=
  match attest_cipher self with Some _ => true | None => false end.

Definition deattest (self : EnclaveConnection G) : EnclaveConnection G :=
  if is_attested self then set_cookies (set_cipher self None) CookieJar_default else self.

Definition call_option (self : EnclaveConnection G) : run CallOption :=
  let metadata_builder :=
    match to_client_metadata (ec_cookies self) with Ok b => b | Err _ => MetadataBuilder_new end in
  let creds := ec_creds self in
  metadata_builder ←
    (if negb (bool_decide (creds_username creds = [])) && negb (bool_decide (creds_password creds = []))
     then match add_authorization metadata_builder
                  (authorization_header (creds_username creds) (creds_password creds)) with
          | Ok b => Ret b
          | Err _ => Panic
          end
     else Ret metadata_builder);
  Ret (CallOption_headers (MetadataBuilder_build metadata_builder)).

(** An error of the update is logged; the jar is as the update left it. *)
Definition update_cookies (self : EnclaveConnection G) (header trailer : option Metadata)
  : EnclaveConnection G :=
  set_cookies self (update_from_server_metadata (ec_cookies self) header trailer).2.

Definition attest (self : EnclaveConnection G)
  : run (EnclaveConnection G * result VerificationReport EnclaveConnectionError) :=
  let self := deattest self in
  match responder_id (ec_uri self) with
  | Err e => Ret (self, Err (InvalidUri e))
  | Ok responder =>
      let '(initiated, rng) := client_initiate responder (ec_csprng self) in
      let self := set_csprng self rng in
      match initiated with
      | Err e => Ret (self, Err (EnclaveAke e))
      | Ok (initiator, auth_request_output) =>
          call_opt ← call_option self;
          let '(response, grpc) := grpc_auth (ec_grpc self) auth_request_output call_opt in
          let self := set_grpc self grpc in
          match response with
          | Err e => Ret (self, Err (Rpc e))
          | Ok (header, auth_response_msg, trailer) =>
              let self := update_cookies self header trailer in
              let '(finished, rng) :=
                client_finish initiator auth_response_msg (ec_verifier self) (ec_csprng self) in
              let self := set_csprng self rng in
              match finished with
              | Err e => Ret (self, Err (EnclaveAke e))
              | Ok (initiator, verification_report) =>
                  Ret (set_cipher self (Some initiator), Ok verification_report)
              end
          end
      end
  end.

(** The call that [encrypted_enclave_request] hands to [attested_call]. *)
Definition send_message (msg : Message) (this : EnclaveConnection G)
  : run (EnclaveConnection G * result Message GrpcError) :=
  call_opt ← call_option this;
  let '(response, grpc) := grpc_enclave_request (ec_grpc this) msg call_opt in
  let this := set_grpc this grpc in
  Ret match response with
      | Err e => (this, Err e)
      | Ok (header, message, trailer) => (update_cookies this header trailer, Ok message)
      end.

(** [attested_call] is a method the trait [AttestedConnection] of the connection
    crate provides. *)
Context (attested_call :
  (EnclaveConnection G -> run (EnclaveConnection G * result Message GrpcError)) ->
  EnclaveConnection G -> run (EnclaveConnection G * result Message EnclaveConnectionError)).

Section request.
Context {RequestMessage ResponseMessage : Type}.
Context (encode : RequestMessage -> bytes) (decode : bytes -> result ResponseMessage Z).

(** The part after the session is there. *)
Definition request_in_session (self : EnclaveConnection G) (plaintext_request : RequestMessage)
    (aad : bytes) : run (EnclaveConnection G * result ResponseMessage EnclaveConnectionError) :=
  cipher ← unwrap (attest_cipher self);
  let channel_id := binding cipher in
  let '(request_ciphertext, cipher) := ready_encrypt cipher aad (encode plaintext_request) in
  let self := set_cipher self (Some cipher) in
  match request_ciphertext with
  | Err e => Ret (self, Err (Cipher e))
  | Ok data =>
      '(self, message) ← attested_call (send_message (mkMessage aad channel_id data)) self;
      match message with
      | Err e => Ret (self, Err e)
      | Ok message =>
          cipher ← unwrap (attest_cipher self);
          let '(plaintext_bytes, cipher) := ready_decrypt cipher (msg_aad message) (msg_data message) in
          let self := set_cipher self (Some cipher) in
          Ret (self,
               let? plaintext_bytes := map_err Cipher plaintext_bytes in
               map_err ProtoDecode (decode plaintext_bytes))
      end
  end.

Definition encrypted_enclave_request (self : EnclaveConnection G) (plaintext_request : RequestMessage)
    (aad : bytes) : run (EnclaveConnection G * result ResponseMessage EnclaveConnectionError) :=
  if is_attested self then request_in_session self plaintext_request aad
  else
    '(self, report) ← attest self;
    match report with
    | Err e => Ret (self, Err e)
    | Ok _ => request_in_session self plaintext_request aad
    end.
End request.

(** [FogViewGrpcClient::request]; the messages of the view service. *)
Definition view_client_request (encode_request : QueryRequest -> bytes)
    (encode_aad : QueryRequestAAD -> bytes) (decode_response : bytes -> result QueryResponse Z)
    (conn : EnclaveConnection G) (start_from_user_event_id start_from_block_index : Z)
    (search_keys : list bytes) : run (EnclaveConnection G * result QueryResponse EnclaveConnectionError) :=
  let req := mkQueryRequest search_keys in
  let req_aad := mkQueryRequestAAD start_from_user_event_id start_from_block_index in
  encrypted_enclave_request encode_request decode_response conn req (encode_aad req_aad).
End connection.
