(* ===== verification/PeerConnection.v ===== *)
(** * The connection between ingest servers (src/fog/ingest/server/src/connection.rs)

    A server reaches a peer through a [PeerConnection].  The status and the peer
    list are plain requests; the ingress private key is sent over a session
    between the two enclaves, which the connection sets up when it has none.
    What a call can reach is a [PeerWorld]: the fields of the connection, the
    local enclave it has a handle of, and the gRPC channel.  The channel is a
    parameter, and so is [attested_call], a method that the trait
    [AttestedConnection] of the connection crate provides. *)

From S2P Require Import Prelude FogTypes RecoveryTypes ObliviousMap.
From S2P Require Import KexRng UserRngSet EnclaveConnection IngestEnclave ControllerState.

Local Open Scope Z_scope.
Local Open Scope fog_scope.

(** ** Errors (connection_error.rs); payloads that no code looks at are numbers *)

Inductive PeerAttestationError (EnclaveError : Type) :=
| AttestationGrpc (e : GrpcError)
| AttestationEnclave (e : EnclaveError).
Global Arguments AttestationGrpc {EnclaveError} e.
Global Arguments AttestationEnclave {EnclaveError} e.

Inductive ConnectionError (EnclaveError : Type) :=
| ConnectionAttestation (e : PeerAttestationError EnclaveError)
| ChannelSend
| ConnectionGrpc (e : GrpcError)
| RetryInternal (e : Z)
| ConnectionSerialization
| ConnectionEnclave (e : EnclaveError)
| UnexpectedKeyInEnclave (key : bytes).
Global Arguments ConnectionAttestation {EnclaveError} e.
Global Arguments ChannelSend {EnclaveError}.
Global Arguments ConnectionGrpc {EnclaveError} e.
Global Arguments ConnectionEnclave {EnclaveError} e.
Global Arguments UnexpectedKeyInEnclave {EnclaveError} key.

(** ** Uris and the channel to a peer *)

Class PeerGrpc `{A : PeerAke} (G : Type) := {
  responder_id : IngestPeerUri -> result bytes Z;
  (** The order of a [BTreeSet] of uris. *)
  peer_order : gset (list Z) -> list IngestPeerUri;
  rpc_auth : G -> IngestPeerUri -> PeerAuthRequest -> result PeerAuthResponse GrpcError * G;
  rpc_get_status : G -> IngestPeerUri -> result IngestSummary GrpcError * G;
  rpc_set_peers : G -> IngestPeerUri -> list IngestPeerUri -> result IngestSummary GrpcError * G;
  rpc_get_ingress_private_key : G -> IngestPeerUri -> PeerSession -> result PeerMessage GrpcError * G;
  rpc_set_ingress_private_key : G -> IngestPeerUri -> PeerMessage -> result IngestSummary GrpcError * G;
}.

Record PeerConnection `{A : PeerAke} := mkPeerConnection {
  pc_channel_id : option PeerSession;
  pc_local_node_id : bytes;
  pc_remote_responder_id : bytes;
  pc_uri : IngestPeerUri;
}.

Section peer.
Context `{C : IngestCrypto} `{OM : ObliviousHashMap} `{A : PeerAke} {G : Type} `{PG : !PeerGrpc G}.
Abbreviation EnclaveError := (IngestEnclaveError SgxError PeerAkeError).

Record PeerWorld := mkPeerWorld {
  pw_conn : PeerConnection;
  pw_enclave : SgxIngestEnclave;
  pw_grpc : G;
}.

Definition PeerConnection_new (local_node_id : bytes) (uri : IngestPeerUri) : run PeerConnection :=
  match responder_id uri with
  | Ok remote_responder_id => Ret (mkPeerConnection A None local_node_id remote_responder_id uri)
  | Err _ => Panic
  end.

Definition PeerConnection_is_attested (self : PeerWorld) : bool :=
  match pc_channel_id (pw_conn self) with Some _ => true | None => false end.

Definition set_channel_id (self : PeerWorld) (channel_id : option PeerSession) : PeerWorld :=
  mkPeerWorld (mkPeerConnection A channel_id (pc_local_node_id (pw_conn self))
                 (pc_remote_responder_id (pw_conn self)) (pc_uri (pw_conn self)))
    (pw_enclave self) (pw_grpc self).

Definition PeerConnection_deattest (self : PeerWorld) : PeerWorld :=
  if PeerConnection_is_attested self then set_channel_id self None else self.

(** A call of the local enclave, a call over the channel. *)
Definition on_enclave {B} (f : SgxIngestEnclave -> B * SgxIngestEnclave) (self : PeerWorld)
  : PeerWorld * B :=
  let '(b, e) := f (pw_enclave self) in (mkPeerWorld (pw_conn self) e (pw_grpc self), b).

Definition on_channel {B} (f : G -> IngestPeerUri -> B * G) (self : PeerWorld) : PeerWorld * B :=
  let '(b, g) := f (pw_grpc self) (pc_uri (pw_conn self)) in
  (mkPeerWorld (pw_conn self) (pw_enclave self) g, b).

Definition PeerConnection_attest (self : PeerWorld)
  : PeerWorld * result PeerVerificationReport (PeerAttestationError EnclaveError) :=
  let self := PeerConnection_deattest self in
  let remote := pc_remote_responder_id (pw_conn self) in
  let '(self, req) := on_enclave (fun e => peer_init e remote) self in
  match req with
  | Err e => (self, Err (AttestationEnclave e))
  | Ok req =>
      let '(self, res) := on_channel (fun g uri => rpc_auth g uri req) self in
      match res with
      | Err e => (self, Err (AttestationGrpc e))
      | Ok res =>
          let '(self, connected) := on_enclave (fun e => peer_connect e remote res) self in
          match connected with
          | Err e => (self, Err (AttestationEnclave e))
          | Ok (peer_session, verification_report) =>
              (set_channel_id self (Some peer_session), Ok verification_report)
          end
      end
  end.

(** Attest unless there is a session. *)
Definition ensure_attested (self : PeerWorld)
  : PeerWorld * result unit (PeerAttestationError EnclaveError) :=
  match pc_channel_id (pw_conn self) with
  | Some _ => (self, Ok tt)
  | None =>
      let '(self, r) := PeerConnection_attest self in
      (self, let? _ := r in Ok tt)
  end.

Definition conn_get_status (self : PeerWorld)
  : PeerWorld * result IngestSummary (ConnectionError EnclaveError) :=
  let '(self, r) := on_channel rpc_get_status self in (self, map_err ConnectionGrpc r).

Definition conn_set_peers (peers : gset (list Z)) (self : PeerWorld)
  : PeerWorld * result IngestSummary (ConnectionError EnclaveError) :=
  let '(self, r) := on_channel (fun g uri => rpc_set_peers g uri (peer_order peers)) self in
  (self, map_err ConnectionGrpc r).

Context (attested_call : forall T, (PeerWorld -> PeerWorld * result T GrpcError) -> PeerWorld ->
  PeerWorld * result T (PeerAttestationError EnclaveError)).

Definition conn_get_ingress_private_key (self : PeerWorld)
  : PeerWorld * result PeerMessage (ConnectionError EnclaveError) :=
  let '(self, attested) := ensure_attested self in
  match attested with
  | Err e => (self, Err (ConnectionAttestation e))
  | Ok _ =>
      match pc_channel_id (pw_conn self) with
      | None => (self, Err ChannelSend)
      | Some peer_session =>
          let '(self, message) :=
            attested_call _ (on_channel (fun g uri => rpc_get_ingress_private_key g uri peer_session)) self in
          (self, map_err ConnectionAttestation message)
      end
  end.

Definition conn_set_ingress_private_key (current_ingress_public_key : bytes) (self : PeerWorld)
  : PeerWorld * result IngestSummary (ConnectionError EnclaveError) :=
  let '(self, attested) := ensure_attested self in
  match attested with
  | Err e => (self, Err (ConnectionAttestation e))
  | Ok _ =>
      match pc_channel_id (pw_conn self) with
      | None => (self, Err ChannelSend)
      | Some peer_session =>
          let '(self, key) := on_enclave (fun e => get_ingress_private_key e peer_session) self in
          match key with
          | Err e => (self, Err (ConnectionEnclave e))
          | Ok (msg, ingress_pubkey) =>
              if negb (bool_decide (ingress_pubkey = current_ingress_public_key))
              then (self, Err (UnexpectedKeyInEnclave ingress_pubkey))
              else
                let '(self, summary) :=
                  attested_call _ (on_channel (fun g uri => rpc_set_ingress_private_key g uri msg)) self in
                (self, map_err ConnectionAttestation summary)
          end
      end
  end.

(** ** What [attested_call] does *)

(** On a connection with a session it makes the call, and gives the session up when
    the call fails with a status. *)
Definition attested_call_in_session : Prop := forall T (func : PeerWorld -> PeerWorld * result T GrpcError) self,
  PeerConnection_is_attested self = true ->
  attested_call T func self =
    let '(self, r) := func self in
    match r with
    | Ok t => (self, Ok t)
    | Err (RpcFailure s) => (PeerConnection_deattest self, Err (AttestationGrpc (RpcFailure s)))
    | Err e => (self, Err (AttestationGrpc e))
    end.
Context (HAC : attested_call_in_session).

(** ** Calls leave the keys of the local enclave alone *)

Definition keeps_keys {B} (f : PeerWorld -> PeerWorld * B) : Prop :=
  forall p, same_keys (pw_enclave p) (pw_enclave (f p).1).

Lemma keys_deattest p : pw_enclave (PeerConnection_deattest p) = pw_enclave p.
Proof. unfold PeerConnection_deattest; by destruct (PeerConnection_is_attested p). Qed.

Lemma keys_on_channel {B} (f : G -> IngestPeerUri -> B * G) : keeps_keys (on_channel f).
Proof. intros p; unfold on_channel; by destruct (f _ _). Qed.

Lemma keys_on_enclave {B} (f : SgxIngestEnclave -> B * SgxIngestEnclave) :
  (forall e, same_keys e (f e).2) -> keeps_keys (on_enclave f).
Proof. intros Hf p; unfold on_enclave; specialize (Hf (pw_enclave p)); by destruct (f _). Qed.

Lemma keys_attest : keeps_keys PeerConnection_attest.
Proof.
  intros p; unfold PeerConnection_attest; rewrite <- (keys_deattest p).
  set (p0 := PeerConnection_deattest p); set (remote := pc_remote_responder_id (pw_conn p0)).
  pose proof (keys_on_enclave (fun e => peer_init e remote)
    (fun e => on_ake_same_keys (fun ake => ake_peer_init ake remote) e) p0) as H1.
  destruct (on_enclave _ p0) as [p1 [req|]]; [|done]; simpl in *.
  pose proof (keys_on_channel (fun g uri => rpc_auth g uri req) p1) as H2.
  destruct (on_channel _ p1) as [p2 [res|]]; [|by etrans]; simpl in *.
  pose proof (keys_on_enclave (fun e => peer_connect e remote res)
    (fun e => on_ake_same_keys (fun ake => ake_peer_connect ake remote res) e) p2) as H3.
  destruct (on_enclave _ p2) as [p3 [[session report]|]]; simpl in *;
    (etrans; [exact H1|]; etrans; [exact H2|exact H3]).
Qed.

Lemma keys_ensure_attested : keeps_keys ensure_attested.
Proof.
  intros p; unfold ensure_attested; destruct (pc_channel_id (pw_conn p)); [done|].
  pose proof (keys_attest p); by destruct (PeerConnection_attest p).
Qed.

Lemma keys_attested_call {B} (f : PeerWorld -> PeerWorld * result B GrpcError) p :
  PeerConnection_is_attested p = true -> same_keys (pw_enclave p) (pw_enclave (f p).1) ->
  same_keys (pw_enclave p) (pw_enclave (attested_call B f p).1).
Proof.
  intros Hp Hf; rewrite HAC by done; destruct (f p) as [p' [b|[]]]; simpl in *; by rewrite ?keys_deattest.
Qed.

Lemma keys_get_status : keeps_keys conn_get_status.
Proof.
  intros p; unfold conn_get_status; pose proof (keys_on_channel rpc_get_status p).
  by destruct (on_channel _ p).
Qed.

Lemma keys_set_peers peers : keeps_keys (conn_set_peers peers).
Proof.
  intros p; unfold conn_set_peers.
  pose proof (keys_on_channel (fun g uri => rpc_set_peers g uri (peer_order peers)) p).
  by destruct (on_channel _ p).
Qed.

Lemma session_attested p session :
  pc_channel_id (pw_conn p) = Some session -> PeerConnection_is_attested p = true.
Proof. unfold PeerConnection_is_attested; by intros ->. Qed.

Lemma keys_get_ingress_private_key : keeps_keys conn_get_ingress_private_key.
Proof.
  intros p; unfold conn_get_ingress_private_key; pose proof (keys_ensure_attested p) as H1.
  destruct (ensure_attested p) as [p1 [[]|]]; [|done]; simpl in *.
  destruct (pc_channel_id (pw_conn p1)) as [session|] eqn:Hs; [|done].
  set (call := on_channel (fun g uri => rpc_get_ingress_private_key g uri session)).
  pose proof (keys_attested_call call p1 (session_attested _ _ Hs) (keys_on_channel _ p1)) as H2.
  destruct (attested_call _ call p1); by etrans.
Qed.

Lemma keys_set_ingress_private_key key : keeps_keys (conn_set_ingress_private_key key).
Proof.
  intros p; unfold conn_set_ingress_private_key; pose proof (keys_ensure_attested p) as H1.
  destruct (ensure_attested p) as [p1 [[]|]]; [|done]; simpl in *.
  destruct (pc_channel_id (pw_conn p1)) as [session|] eqn:Hs; [|done].
  pose proof (keys_on_enclave (fun e => get_ingress_private_key e session)
    (fun e => give_key_same_keys e session) p1) as H2.
  assert (Hc : pw_conn (on_enclave (fun e => get_ingress_private_key e session) p1).1 = pw_conn p1)
    by (unfold on_enclave; by destruct (get_ingress_private_key _ _)).
  destruct (on_enclave _ p1) as [p2 [[msg pubkey]|]]; simpl in *; [|by etrans].
  case_bool_decide; simpl; [|by etrans].
  set (call := on_channel (fun g uri => rpc_set_ingress_private_key g uri msg)).
  assert (Hp2 : PeerConnection_is_attested p2 = true)
    by (eapply session_attested; rewrite Hc; exact Hs).
  pose proof (keys_attested_call call p2 Hp2 (keys_on_channel _ p2)) as H3.
  destruct (attested_call _ call p2); simpl in *; etrans; [exact H1|]; by etrans.
Qed.
End peer.
Global Arguments PeerWorld {K U C OM A} G.
