(* ===== verification/IngestController.v ===== *)
(** * The ingest controller (src/fog/ingest/server/src/controller.rs)

    The operations of an ingest server on its state, its enclave and the
    recovery database, which are the models of the other files.  A computation
    changes the server and ends in one of four ways: it is done, it panicked
    (an [expect] or [assert] failed), a retry loop used up its fuel, or it waits
    for a lock that it holds itself.  The server, and with it the database, is
    known in all four cases.

    The state is behind a mutex, which is not reentrant.  [with_guard] is the
    scope of a guard, [get_state] and [put_state] go through a guard that is
    held; [self.get_state()] as a temporary is [peek_state].

    [IngestEnv] is the outside world: whether the database pool gives a
    connection, the clock, the report cache, the channels to the peers and the
    state file; the requests to the peers are those of [PeerConnection].  Its state is threaded through the calls, so each call may answer
    differently. *)

From S2P Require Import Prelude FogTypes RecoveryTypes ObliviousMap.
From S2P Require Import KexRng UserRngSet IngestEnclave RecoveryDb ControllerState PeerConnection.

Local Open Scope Z_scope.
Local Open Scope fog_scope.

(** ** Errors (error.rs) *)

(** Payloads that no code looks at are numbers. *)
Inductive PeerBackupError (EnclaveError : Type) :=
| AnotherActivePeer (uri : IngestPeerUri)
| FailedRemoteKeyBackup (uri : IngestPeerUri)
| FailedRemoteSetPeers (uri : IngestPeerUri)
| BackupConnection (e : ConnectionError EnclaveError)
| PeerSentBadURI (e : Z)
| BackupConversion (e : KeyError)
| CreatingNewIngressKey.
Global Arguments AnotherActivePeer {EnclaveError} uri.
Global Arguments FailedRemoteKeyBackup {EnclaveError} uri.
Global Arguments FailedRemoteSetPeers {EnclaveError} uri.
Global Arguments BackupConnection {EnclaveError} e.
Global Arguments PeerSentBadURI {EnclaveError} e.
Global Arguments BackupConversion {EnclaveError} e.
Global Arguments CreatingNewIngressKey {EnclaveError}.

Inductive SetPeersError :=
| SetPeersResponderId (e : Z)
| MissingOurResponderId (id : bytes) (by_id : gmap (list Z) IngestPeerUri).

Inductive IngestServiceError (EnclaveError : Type) :=
| ServiceEnclave (e : EnclaveError)
| ServiceLedgerDb (e : Z)
| ServiceRecoveryDb (e : DbError)
| ServiceSerialization
| ServiceConnection (e : ConnectionError EnclaveError)
| ServiceReportCache (e : Z)
| ServiceReportableEnclave (e : Z)
| ServiceUriConversion (e : Z)
| ServiceBackup (e : PeerBackupError EnclaveError)
| ServerNotIdle
| KeyAlreadyRetired (key : bytes)
| PublishReport
| ServiceIo (e : Z)
| ServiceGrpc (e : Z).
Global Arguments ServiceEnclave {EnclaveError} e.
Global Arguments ServiceRecoveryDb {EnclaveError} e.
Global Arguments ServiceConnection {EnclaveError} e.
Global Arguments ServiceReportCache {EnclaveError} e.
Global Arguments ServiceReportableEnclave {EnclaveError} e.
Global Arguments ServiceBackup {EnclaveError} e.
Global Arguments ServerNotIdle {EnclaveError}.
Global Arguments KeyAlreadyRetired {EnclaveError} key.
Global Arguments PublishReport {EnclaveError}.

Inductive RestoreStateError (EnclaveError : Type) :=
| RestoreEnclave (e : EnclaveError)
| RestoreConnection (e : ConnectionError EnclaveError)
| RestoreReportCache (e : Z)
| RestoreBackup (e : PeerBackupError EnclaveError)
| IngressKeyMismatch (ours theirs : bytes)
| InvalidPeerUri (e : Z)
| RestoreResponderId (e : Z)
| RestoreSetPeers (e : SetPeersError)
| RestoreServerNotIdle
| RestoreConversion (e : KeyError).
Global Arguments RestoreReportCache {EnclaveError} e.
Global Arguments RestoreBackup {EnclaveError} e.
Global Arguments IngressKeyMismatch {EnclaveError} ours theirs.
Global Arguments InvalidPeerUri {EnclaveError} e.
Global Arguments RestoreSetPeers {EnclaveError} e.
Global Arguments RestoreServerNotIdle {EnclaveError}.
Global Arguments RestoreConversion {EnclaveError} e.

(** ** The outside world *)

Class IngestEnv `{C : IngestCrypto} `{OM : ObliviousHashMap} `{A : PeerAke} := {
  Env : Type;
  Report : Type;
  pool_get : Env -> result unit Z * Env;
  clock : Env -> Z * Env;
  encode_block_data : list ETxOutRecord -> result bytes Z;
  encode_report : Report -> result bytes Z;
  refresh_report_cache : Env -> result unit Z * Env;
  get_ias_report : Env -> result Report Z * Env;
  (** Uris and keys in messages. *)
  parse_uri : IngestPeerUri -> result IngestPeerUri Z;
  compressed_try_from : bytes -> result bytes KeyError;
  (** The channels to the peers. *)
  peer_grpc :: PeerGrpc Env;
  attested_call : forall T, (PeerWorld Env -> PeerWorld Env * result T EnclaveConnection.GrpcError) ->
    PeerWorld Env -> PeerWorld Env * result T (PeerAttestationError (IngestEnclaveError SgxError PeerAkeError));
  attested_call_ok : attested_call_in_session attested_call;
  (** Whether writing the state file succeeds. *)
  state_file_write : Env -> bool * Env;
}.

(** ** Computations *)

Inductive outcome (S A : Type) :=
| Done (a : A) (s : S)
| Panicked (s : S)
| OutOfFuel (s : S)
| Deadlocked (s : S).
Global Arguments Done {S A} a s.
Global Arguments Panicked {S A} s.
Global Arguments OutOfFuel {S A} s.
Global Arguments Deadlocked {S A} s.

Section controller.
Context `{C : IngestCrypto} `{OM : ObliviousHashMap} `{A : PeerAke} `{E : !IngestEnv}.
Abbreviation EnclaveError := (IngestEnclaveError SgxError PeerAkeError).
Abbreviation Error := (IngestServiceError EnclaveError).

(** The server: what the controller owns, the database it shares, and the world. *)
Record Server := mkServer {
  sv_state : IngestControllerState;
  sv_locked : bool;
  sv_enclave : SgxIngestEnclave;
  sv_db : Db;
  sv_last_sealed_key : option (bytes * bytes);
  sv_state_file : option (IngestSummary * bytes);
  sv_env : Env;
}.

Definition srv (B : Type) : Type := Server -> outcome Server B.

#[global] Instance srv_ret : MRet srv := fun B b s => Done b s.
#[global] Instance srv_bind : MBind srv := fun B D f m s =>
  match m s with
  | Done b s' => f b s'
  | Panicked s' => Panicked s'
  | OutOfFuel s' => OutOfFuel s'
  | Deadlocked s' => Deadlocked s'
  end.

Definition panic {B} : srv B := fun s => Panicked s.
Definition out_of_fuel {B} : srv B := fun s => OutOfFuel s.

(** The guard of the state. *)
Definition set_locked (b : bool) (s : Server) : Server :=
  mkServer (sv_state s) b (sv_enclave s) (sv_db s) (sv_last_sealed_key s) (sv_state_file s) (sv_env s).
Definition lock_state : srv IngestControllerState := fun s =>
  if sv_locked s then Deadlocked s else Done (sv_state s) (set_locked true s).
Definition unlock_state : srv unit := fun s => Done tt (set_locked false s).
Definition with_guard {B} (f : IngestControllerState -> srv B) : srv B :=
  state ← lock_state; b ← f state; unlock_state;; mret b.
Definition peek_state : srv IngestControllerState := with_guard mret.

Definition get_state : srv IngestControllerState := fun s => Done (sv_state s) s.
Definition put_state (st : IngestControllerState) : srv unit := fun s =>
  Done tt (mkServer st (sv_locked s) (sv_enclave s) (sv_db s) (sv_last_sealed_key s) (sv_state_file s) (sv_env s)).
Definition get_last_sealed_key : srv (option (bytes * bytes)) := fun s =>
  Done (sv_last_sealed_key s) s.
Definition put_last_sealed_key (k : option (bytes * bytes)) : srv unit := fun s =>
  Done tt (mkServer (sv_state s) (sv_locked s) (sv_enclave s) (sv_db s) k (sv_state_file s) (sv_env s)).
Definition put_state_file (f : IngestSummary * bytes) : srv unit := fun s =>
  Done tt (mkServer (sv_state s) (sv_locked s) (sv_enclave s) (sv_db s) (sv_last_sealed_key s) (Some f) (sv_env s)).

(** [expect]. *)
Definition expect {B X} (r : result B X) : srv B :=
  match r with Ok b => mret b | Err _ => panic end.

Definition assert (b : bool) : srv unit := if b then mret tt else panic.

(** The state in which a computation returned or stopped. *)
Definition after {B} (o : outcome Server B) : Server :=
  match o with Done _ s | Panicked s | OutOfFuel s | Deadlocked s => s end.

(** A call of the world. *)
Definition world {B} (f : Env -> B * Env) : srv B := fun s =>
  let '(b, env) := f (sv_env s) in
  Done b (mkServer (sv_state s) (sv_locked s) (sv_enclave s) (sv_db s) (sv_last_sealed_key s)
            (sv_state_file s) env).

(** A call of the recovery database, with a connection and the time. *)
Definition db_call {B} (op : result unit Z -> Z -> tx B) : srv (result B DbError) := fun s =>
  let '(pool, env) := pool_get (sv_env s) in
  let '(now, env) := clock env in
  let '(r, d) := op pool now (sv_db s) in
  Done r (mkServer (sv_state s) (sv_locked s) (sv_enclave s) d (sv_last_sealed_key s) (sv_state_file s) env).

(** A connection to a peer, and a call over it; the connection has a handle of the enclave. *)
Definition connect (local_node_id : bytes) (uri : IngestPeerUri) : srv PeerConnection :=
  match PeerConnection_new local_node_id uri with Ret conn => mret conn | Panic => panic end.

Definition on_connection {B} (conn : PeerConnection) (f : PeerWorld Env -> PeerWorld Env * B)
  : srv (PeerConnection * B) := fun s =>
  let '(p, b) := f (mkPeerWorld conn (sv_enclave s) (sv_env s)) in
  Done (pw_conn p, b) (mkServer (sv_state s) (sv_locked s) (pw_enclave p) (sv_db s) (sv_last_sealed_key s)
            (sv_state_file s) (pw_grpc p)).

(** A call of the enclave that may panic. *)
Definition enclave_call {B} (f : SgxIngestEnclave -> run (B * SgxIngestEnclave)) : srv B := fun s =>
  match f (sv_enclave s) with
  | Ret (b, e) => Done b (mkServer (sv_state s) (sv_locked s) e (sv_db s) (sv_last_sealed_key s)
                            (sv_state_file s) (sv_env s))
  | Panic => Panicked s
  end.

Definition enclave_read {B} (f : SgxIngestEnclave -> B) : srv B := fun s => Done (f (sv_enclave s)) s.

(** The compressed ingress key of the enclave, [expect]ed. *)
Definition ingress_pubkey_bytes : srv bytes :=
  r ← enclave_read get_ingress_pubkey;
  p ← expect r;
  mret (public_to_bytes p).

Definition kex_rng_pubkey_expect : srv KexRngPubkey :=
  r ← enclave_call (fun e => r ← get_kex_rng_pubkey e; Ret (r, e));
  expect r.

(** ** Summaries and the state file *)

Definition get_ingest_summary_inner : srv IngestSummary :=
  state ← get_state;
  let result := state_ingest_summary peer_order state in
  ingress_pubkey ← ingress_pubkey_bytes;
  kex_rng_pubkey ← kex_rng_pubkey_expect;
  mret (mkIngestSummary (sum_mode result) (sum_next_block_index result)
          (sum_pubkey_expiry_window result) ingress_pubkey (krp_public_key kex_rng_pubkey)
          (krp_version kex_rng_pubkey) (sum_peers result) (sum_ingest_invocation_id result)).

Definition get_ingest_summary : srv IngestSummary := with_guard (fun _ => get_ingest_summary_inner).

(** The loop that pairs the summary with the sealed key of the same ingress key.  The second
    pass asks the enclave again, so two passes are enough. *)
Fixpoint matching_sealed_key (fuel : nat) : srv (IngestSummary * bytes) :=
  match fuel with
  | O => out_of_fuel
  | S fuel =>
      summary ← get_ingest_summary_inner;
      ingress_pubkey ← expect (compressed_try_from (sum_ingress_pubkey summary));
      last_sealed ← get_last_sealed_key;
      sealed ← match last_sealed with
        | Some k => mret k
        | None =>
            r ← enclave_read get_sealed_ingress_private_key;
            k ← expect r;
            put_last_sealed_key (Some k);;
            mret k
        end;
      if bool_decide (sealed.2 = ingress_pubkey) then mret (summary, sealed.1)
      else put_last_sealed_key None;; matching_sealed_key fuel
  end.

Context (config : IngestServerConfig).

Definition write_state_file_inner : srv unit :=
  if cfg_state_file config then
    data ← matching_sealed_key 2;
    put_state_file data;;
    written ← world state_file_write;
    assert written
  else mret tt.

Definition write_state_file : srv unit := with_guard (fun _ => write_state_file_inner).

(** ** Keys *)

Definition decommission_ingest_invocation_id : srv unit :=
  state ← get_state;
  match get_ingest_invocation_id state with
  | None => mret tt
  | Some iid =>
      _ ← db_call (fun pool now => decommission_ingest_invocation pool now iid);
      put_state (set_ingest_invocation_id state None)
  end.

(** The common part of the two key changes, which are only allowed when idle. *)
Definition change_keys (f : SgxIngestEnclave -> run (result unit EnclaveError * SgxIngestEnclave))
  : srv (result unit Error) :=
  state ← get_state;
  if negb (is_idle state) then mret (Err ServerNotIdle)
  else
    decommission_ingest_invocation_id;;
    r ← enclave_call f;
    match r with
    | Err e => mret (Err (ServiceEnclave e))
    | Ok _ => put_last_sealed_key None;; write_state_file_inner;; mret (Ok tt)
    end.

Definition new_keys_inner : srv (result unit Error) := change_keys new_keys.

Definition controller_new_egress_key : srv (result unit Error) := change_keys new_egress_key.

(** The guard lives to the end of the method, where the summary takes the lock again. *)
Definition controller_new_keys : srv (result IngestSummary Error) :=
  with_guard (fun _ =>
    r ← new_keys_inner;
    match r with
    | Err e => mret (Err e)
    | Ok _ => write_state_file_inner;; summary ← get_ingest_summary; mret (Ok summary)
    end).

(** The handshake with a peer that connects. *)
Definition controller_peer_accept (req : PeerAuthRequest)
  : srv (result (PeerAuthResponse * PeerSession) EnclaveError) :=
  enclave_call (fun e => Ret (peer_accept e req)).

(** The ingress key for a peer, as the enclave encrypts it. *)
Definition controller_get_ingress_private_key (session : PeerSession)
  : srv (result (PeerMessage * bytes) EnclaveError) :=
  enclave_call (fun e => Ret (get_ingress_private_key e session)).

(** Take the ingress key a peer sent; only when idle. *)
Definition controller_set_ingress_private_key (msg : PeerMessage) : srv (result unit Error) :=
  state ← peek_state;
  if negb (is_idle state) then mret (Err ServerNotIdle)
  else
    r ← enclave_call (fun e => Ret (set_ingress_private_key e msg));
    match r with
    | Err e => mret (Err (ServiceEnclave e))
    | Ok _ => put_last_sealed_key None;; write_state_file;; mret (Ok tt)
    end.

(** ** Reports *)

Definition publish_report (ingress_public_key : bytes)
  : srv (result IngressPublicKeyStatus Error) :=
  state ← get_state;
  refreshed ← world refresh_report_cache;
  match refreshed with
  | Err e => mret (Err (ServiceReportCache e))
  | Ok _ =>
      report ← world get_ias_report;
      match report with
      | Err e => mret (Err (ServiceReportableEnclave e))
      | Ok report =>
          let report_data := mkReportData (get_ingest_invocation_id state) report
            (get_next_block_index state +w get_pubkey_expiry_window state) in
          r ← db_call (fun pool _ =>
            set_report pool encode_report ingress_public_key (cfg_fog_report_id config) report_data);
          mret (map_err (fun _ => PublishReport) r)
      end
  end.

(** ** Processing a block *)

(** [slice.chunks(n)], for [n] not zero; the length of the slice is enough fuel. *)
Fixpoint chunks_fuel {B} (fuel n : nat) (l : list B) : list (list B) :=
  match fuel, l with
  | S fuel, _ :: _ => take n l :: chunks_fuel fuel n (drop n l)
  | _, _ => []
  end.
Definition chunks {B} (n : nat) (l : list B) : list (list B) := chunks_fuel (length l) n l.

(** The part under the lock: publish a report, go idle when the key has expired, and make sure
    there is an ingest invocation.  [None] is the early return. *)
Definition begin_block (block : BlockHeader) (ingress_pubkey : bytes)
  (initial_kex_rng_pubkey : KexRngPubkey) : srv (option Z) := with_guard (fun state =>
  assert (bh_index block =? get_next_block_index state);;
  expired ←
    (if is_active state then
       published ← publish_report ingress_pubkey;
       match published with
       | Ok status => mret (ks_retired status && (ks_pubkey_expiry status <? bh_index block))
       | Err _ => mret false
       end
     else mret false);
  if (expired : bool) then
    state ← get_state;
    put_state (set_idle state);;
    r ← controller_new_egress_key;
    expect r;;
    mret None
  else
    state ← get_state;
    match get_ingest_invocation_id state with
    | Some iid => mret (Some iid)
    | None =>
        r ← db_call (fun pool now =>
          new_ingest_invocation pool now None ingress_pubkey initial_kex_rng_pubkey (bh_index block));
        iid ← expect r;
        put_state (set_ingest_invocation_id state (Some iid));;
        mret (Some iid)
    end).

(** Rotate the invocation, retrying until the database accepts it. *)
Fixpoint rotate_invocation (fuel : nat) (block : BlockHeader) (ingress_pubkey : bytes) (iid : Z)
  (new_kex_rng_pubkey : KexRngPubkey) : srv Z :=
  match fuel with
  | O => out_of_fuel
  | S fuel =>
      r ← db_call (fun pool now => new_ingest_invocation pool now (Some iid) ingress_pubkey
                                     new_kex_rng_pubkey (bh_index block));
      match r with
      | Ok new_iid => mret new_iid
      | Err _ => rotate_invocation fuel block ingress_pubkey iid new_kex_rng_pubkey
      end
  end.

(** The loop over the chunks: the invocation and the rows at its end, [None] when the enclave
    failed on a chunk. *)
Fixpoint ingest_chunks (fuel : nat) (block : BlockHeader) (timestamp : Z) (ingress_pubkey : bytes)
  (chunks : list (list TxOut)) (iid global_txo_index : Z) (tx_rows : list ETxOutRecord)
  : srv (option (Z * list ETxOutRecord)) :=
  match chunks with
  | [] => mret (Some (iid, tx_rows))
  | chunk :: chunks =>
      r ← enclave_call (fun e => ingest_txs e
            (mkTxsForIngest (bh_index block) global_txo_index chunk timestamp));
      match r with
      | Err _ => mret None
      | Ok (new_tx_rows, maybe_kex_rng_pubkey) =>
          iid ← match maybe_kex_rng_pubkey with
            | None => mret iid
            | Some new_kex_rng_pubkey =>
                new_iid ← rotate_invocation fuel block ingress_pubkey iid new_kex_rng_pubkey;
                with_guard (fun state => put_state (set_ingest_invocation_id state (Some new_iid)));;
                mret new_iid
            end;
          ingest_chunks fuel block timestamp ingress_pubkey chunks iid
            (global_txo_index +w Z.of_nat (length chunk)) (tx_rows ++ new_tx_rows)
      end
  end.

(** Publish the rows, retrying until the database answers. *)
Fixpoint publish_rows (fuel : nat) (block : BlockHeader) (timestamp iid : Z)
  (tx_rows : list ETxOutRecord) : srv unit :=
  match fuel with
  | O => out_of_fuel
  | S fuel =>
      r ← db_call (fun pool now =>
            add_block_data pool now encode_block_data iid block timestamp tx_rows);
      match r with
      | Ok add_blocks_result =>
          with_guard (fun state =>
            if block_already_scanned_with_this_key add_blocks_result then
              put_state (set_idle state);;
              r ← controller_new_egress_key;
              expect r
            else
              match increment_next_block_index state with
              | Ret state => put_state state
              | Panic => panic
              end)
      | Err _ => publish_rows fuel block timestamp iid tx_rows
      end
  end.

Definition process_next_block (fuel : nat) (block : BlockHeader) (outputs : list TxOut)
  (timestamp : Z) : srv unit :=
  ingress_pubkey ← ingress_pubkey_bytes;
  initial_kex_rng_pubkey ← kex_rng_pubkey_expect;
  started ← begin_block block ingress_pubkey initial_kex_rng_pubkey;
  match started with
  | None => mret tt
  | Some iid =>
      assert (Z.of_nat (length outputs) <=? bh_cumulative_txo_count block);;
      let global_txo_index := bh_cumulative_txo_count block -w Z.of_nat (length outputs) in
      assert (negb (cfg_max_transactions config =? 0)%nat);;
      ingested ← ingest_chunks fuel block timestamp ingress_pubkey
        (chunks (cfg_max_transactions config) outputs) iid global_txo_index [];
      match ingested with
      | None => mret tt
      | Some (iid, tx_rows) =>
          publish_rows fuel block timestamp iid tx_rows;;
          write_state_file
      end
  end.

(** ** Peers *)

(** [IngestSummary::get_sorted_peers]: parse the uris, stop at a bad one. *)
Fixpoint parse_peers (uris : list IngestPeerUri) : result (gset (list Z)) Z :=
  match uris with
  | [] => Ok ∅
  | u :: uris =>
      let? p := parse_uri u in
      let? rest := parse_peers uris in
      Ok ({[ p ]} ∪ rest)
  end.
Definition get_sorted_peers (summary : IngestSummary) : result (gset (list Z)) Z :=
  parse_peers (sum_peers summary).

(** The peers by responder id: the last uri of an id wins. *)
Fixpoint peers_by_responder_id (peers : list IngestPeerUri) (m : gmap (list Z) IngestPeerUri)
  : result (gmap (list Z) IngestPeerUri) SetPeersError :=
  match peers with
  | [] => Ok m
  | uri :: peers =>
      let? id := map_err SetPeersResponderId (responder_id uri) in
      peers_by_responder_id peers (<[id := uri]> m)
  end.

Definition set_peers_inner (peers : list IngestPeerUri) : srv (result unit SetPeersError) :=
  match peers_by_responder_id peers ∅ with
  | Err e => mret (Err e)
  | Ok by_id =>
      match by_id !! cfg_local_node_id config with
      | None => mret (Err (MissingOurResponderId (cfg_local_node_id config) by_id))
      | Some _ =>
          state ← get_state;
          put_state (set_peers state (list_to_set (snd <$> map_to_list by_id)));;
          mret (Ok tt)
      end
  end.

Definition controller_set_peers (peers : list IngestPeerUri) : srv (result unit SetPeersError) :=
  with_guard (fun _ => set_peers_inner peers).

(** Send our key to a peer whose key differs. *)
Definition update_peer_key (conn : PeerConnection) (our_pubkey : bytes)
  : srv (PeerConnection * result unit (PeerBackupError EnclaveError)) :=
  '(conn, sent) ← on_connection conn (conn_set_ingress_private_key attested_call our_pubkey);
  mret (conn,
    let? summary := map_err BackupConnection sent in
    let? peer_pubkey := map_err BackupConversion (compressed_try_from (sum_ingress_pubkey summary)) in
    if bool_decide (peer_pubkey = our_pubkey) then Ok tt
    else Err (FailedRemoteKeyBackup (pc_uri conn))).

(** Send our peers to a peer whose list differs. *)
Definition update_peer_peers (conn : PeerConnection) (our_peers : gset (list Z))
  : srv (result unit (PeerBackupError EnclaveError)) :=
  '(conn, sent) ← on_connection conn (conn_set_peers our_peers);
  mret (
    let? new_summary := map_err BackupConnection sent in
    let? new_peers := map_err PeerSentBadURI (get_sorted_peers new_summary) in
    if bool_decide (new_peers = our_peers) then Ok tt
    else Err (FailedRemoteSetPeers (pc_uri conn))).

(** The checks of a backup once its summary is known. *)
Definition check_backup (conn : PeerConnection) (summary : IngestSummary) (our_pubkey : bytes)
  (our_peers : gset (list Z)) (update_if_wrong : bool) : srv (result unit (PeerBackupError EnclaveError)) :=
  match compressed_try_from (sum_ingress_pubkey summary) with
  | Err e => mret (Err (BackupConversion e))
  | Ok peer_pubkey =>
      '(conn, key_ok) ← (if negb (bool_decide (peer_pubkey = our_pubkey)) && update_if_wrong
                         then update_peer_key conn our_pubkey else mret (conn, Ok tt));
      match key_ok with
      | Err e => mret (Err e)
      | Ok _ =>
          match get_sorted_peers summary with
          | Err e => mret (Err (PeerSentBadURI e))
          | Ok remote_peers =>
              if negb (bool_decide (our_peers = remote_peers)) && update_if_wrong
              then update_peer_peers conn our_peers else mret (Ok tt)
          end
      end
  end.

Definition confirm_backup (conn : PeerConnection) (cached_summary : option IngestSummary)
  (cached_our_pubkey : option bytes) (cached_our_peers : option (gset (list Z)))
  (update_if_wrong : bool) : srv (result unit (PeerBackupError EnclaveError)) :=
  '(conn, summary) ← match cached_summary with
    | Some summary => mret (conn, Ok summary)
    | None => on_connection conn conn_get_status
    end;
  match summary with
  | Err e => mret (Err (BackupConnection e))
  | Ok summary =>
      match sum_mode summary with
      | Active => mret (Err (AnotherActivePeer (pc_uri conn)))
      | Idle =>
          our_pubkey ← match cached_our_pubkey with
            | Some k => mret k
            | None => ingress_pubkey_bytes
            end;
          our_peers ← match cached_our_peers with
            | Some peers => mret peers
            | None => state ← peek_state; mret (get_peers state)
            end;
          check_backup conn summary our_pubkey our_peers update_if_wrong
      end
  end.

(** The loop of [peer_checkup]; it stops when our own key changed meanwhile. *)
Fixpoint checkup_peers (peers : list IngestPeerUri) : srv unit :=
  match peers with
  | [] => mret tt
  | peer_uri :: peers =>
      match responder_id peer_uri with
      | Err _ => checkup_peers peers
      | Ok id =>
          if bool_decide (id = cfg_local_node_id config) then checkup_peers peers
          else
            conn ← connect (cfg_local_node_id config) peer_uri;
            confirmed ← confirm_backup conn None None None true;
            match confirmed with
            | Err (BackupConnection (UnexpectedKeyInEnclave _)) => mret tt
            | _ => checkup_peers peers
            end
      end
  end.

Definition peer_checkup : srv unit :=
  state ← peek_state;
  if is_idle state then mret tt
  else if bool_decide (get_peers state = ∅) then mret tt
  else
    _ ← world refresh_report_cache;
    checkup_peers (peer_order (get_peers state)).

(** ** Activation *)

(** Connections to the peers other than ourselves; a peer without a responder id is a panic. *)
Fixpoint peer_connections (peers : list IngestPeerUri) : srv (list PeerConnection) :=
  match peers with
  | [] => mret []
  | peer :: peers =>
      id ← expect (responder_id peer);
      if bool_decide (id = cfg_local_node_id config) then peer_connections peers
      else
        conn ← connect (cfg_local_node_id config) peer;
        rest ← peer_connections peers;
        mret (conn :: rest)
  end.

(** The summaries of the peers, unless one of them is active or unreachable. *)
Fixpoint peer_summaries (conns : list PeerConnection)
  : srv (result (list (PeerConnection * IngestSummary)) (PeerBackupError EnclaveError)) :=
  match conns with
  | [] => mret (Ok [])
  | conn :: conns =>
      '(conn, status) ← on_connection conn conn_get_status;
      match status with
      | Err e => mret (Err (BackupConnection e))
      | Ok summary =>
          match sum_mode summary with
          | Active => mret (Err (AnotherActivePeer (pc_uri conn)))
          | Idle =>
              rest ← peer_summaries conns;
              mret (let? rest := rest in Ok ((conn, summary) :: rest))
          end
      end
  end.

Fixpoint confirm_backups (conns : list (PeerConnection * IngestSummary)) (our_pubkey : bytes)
  (peers : gset (list Z)) : srv (result unit (PeerBackupError EnclaveError)) :=
  match conns with
  | [] => mret (Ok tt)
  | (conn, summary) :: conns =>
      r ← confirm_backup conn (Some summary) (Some our_pubkey) (Some peers) true;
      match r with
      | Err e => mret (Err e)
      | Ok _ => confirm_backups conns our_pubkey peers
      end
  end.

(** Where to start: after the last block scanned with the key, or where the key starts; a new
    key starts at the latest known block and is recorded. *)
Definition find_start_block (our_pubkey : bytes) (ledger_num_blocks : Z) : srv (result Z Error) :=
  status ← db_call (fun pool _ => get_ingress_key_status pool our_pubkey);
  match status with
  | Err e => mret (Err (ServiceRecoveryDb e))
  | Ok (Some status) =>
      last ← db_call (fun pool _ => get_last_scanned_block_index pool our_pubkey);
      mret (let? last := map_err ServiceRecoveryDb last in
            Ok (default (ks_start_block status) ((fun val => val +w 1) <$> last)))
  | Ok None =>
      highest ← db_call (fun pool _ => get_highest_known_block_index pool);
      match highest with
      | Err e => mret (Err (ServiceRecoveryDb e))
      | Ok highest =>
          let start_block :=
            Z.max ledger_num_blocks (default 0 ((fun x => x +w 1) <$> highest)) in
          created ← db_call (fun pool _ => new_ingress_key pool our_pubkey start_block);
          mret (let? created := map_err ServiceRecoveryDb created in
                if (created : bool) then Ok start_block
                else Err (ServiceBackup CreatingNewIngressKey))
      end
  end.

(** The last steps under the lock, once the start block is known. *)
Definition finish_activation (our_pubkey : bytes) (start_block : Z) : srv (result unit Error) :=
  state ← get_state;
  let '(r, state) := set_next_block_index state start_block in
  expect r;;
  put_state state;;
  published ← publish_report our_pubkey;
  match published with
  | Err e => mret (Err e)
  | Ok key_status =>
      if ks_retired key_status && (ks_pubkey_expiry key_status <? start_block)
      then mret (Err (KeyAlreadyRetired our_pubkey))
      else
        state ← get_state;
        put_state (set_active state);;
        mret (Ok tt)
  end.

(** The part under the lock: a summary when the server was active already. *)
Definition try_activate (ledger_num_blocks : Z) : srv (result (option IngestSummary) Error) :=
  with_guard (fun state =>
  if is_active state then summary ← get_ingest_summary_inner; mret (Ok (Some summary))
  else
    refreshed ← world refresh_report_cache;
    match refreshed with
    | Err e => mret (Err (ServiceReportCache e))
    | Ok _ =>
        let peers := get_peers state in
        conns ← peer_connections (peer_order peers);
        summaries ← peer_summaries conns;
        match summaries with
        | Err e => mret (Err (ServiceBackup e))
        | Ok summaries =>
            our_pubkey ← ingress_pubkey_bytes;
            confirmed ← confirm_backups summaries our_pubkey peers;
            match confirmed with
            | Err e => mret (Err (ServiceBackup e))
            | Ok _ =>
                start ← find_start_block our_pubkey ledger_num_blocks;
                match start with
                | Err e => mret (Err e)
                | Ok start_block =>
                    r ← finish_activation our_pubkey start_block;
                    mret (let? _ := r in Ok None)
                end
            end
        end
    end).

Definition activate (ledger_num_blocks : Z) : srv (result IngestSummary Error) :=
  r ← try_activate ledger_num_blocks;
  match r with
  | Err e => mret (Err e)
  | Ok (Some summary) => mret (Ok summary)
  | Ok None => write_state_file;; summary ← get_ingest_summary; mret (Ok summary)
  end.

(** [retire] and [unretire]. *)
Definition set_retired (b : bool) : srv (result IngestSummary Error) :=
  ingress_pubkey ← ingress_pubkey_bytes;
  r ← db_call (fun pool _ => retire_ingress_key pool ingress_pubkey b);
  match r with
  | Err e => mret (Err (ServiceRecoveryDb e))
  | Ok _ => summary ← get_ingest_summary; mret (Ok summary)
  end.
Definition retire : srv (result IngestSummary Error) := set_retired true.
Definition unretire : srv (result IngestSummary Error) := set_retired false.

Definition sync_keys_from_remote (remote : IngestPeerUri) : srv (result IngestSummary Error) :=
  state ← peek_state;
  if negb (is_idle state) then mret (Err ServerNotIdle)
  else
    refreshed ← world refresh_report_cache;
    match refreshed with
    | Err e => mret (Err (ServiceReportCache e))
    | Ok _ =>
        connection ← connect (cfg_local_node_id config) remote;
        '(connection, msg) ← on_connection connection (conn_get_ingress_private_key attested_call);
        match msg with
        | Err e => mret (Err (ServiceConnection e))
        | Ok msg =>
            r ← enclave_call (fun e => Ret (set_ingress_private_key e msg));
            match r with
            | Err e => mret (Err (ServiceEnclave e))
            | Ok _ =>
                put_last_sealed_key None;;
                write_state_file;;
                summary ← get_ingest_summary;
                mret (Ok summary)
            end
        end
    end.

Definition controller_set_pubkey_expiry_window (v : Z) : srv (result unit StateChangeError) :=
  with_guard (fun state =>
    let '(r, state) := set_pubkey_expiry_window state v in
    put_state state;;
    mret r).

Definition controller_report_lost_ingress_key (key : bytes) : srv (result unit DbError) :=
  db_call (fun pool _ => report_lost_ingress_key pool key).

Definition controller_get_missed_block_ranges : srv (result (list BlockRange) DbError) :=
  db_call (fun pool _ => get_missed_block_ranges pool).

(** ** Restoring the state file *)

(** The peers of an active server's state file must be its backups. *)
Fixpoint check_stored_peers (uris : list IngestPeerUri) (ingress_pubkey : bytes)
  (new_peers : gset (list Z)) : srv (result unit (RestoreStateError EnclaveError)) :=
  match uris with
  | [] => mret (Ok tt)
  | uri :: uris =>
      match responder_id uri with
      | Err e => mret (Err (RestoreSetPeers (SetPeersResponderId e)))
      | Ok id =>
          if bool_decide (id = cfg_local_node_id config)
          then check_stored_peers uris ingress_pubkey new_peers
          else
            conn ← connect (cfg_local_node_id config) uri;
            r ← confirm_backup conn None (Some ingress_pubkey) (Some new_peers) false;
            match r with
            | Err e => mret (Err (RestoreBackup e))
            | Ok _ => check_stored_peers uris ingress_pubkey new_peers
            end
      end
  end.

Definition check_stored_state (data : IngestSummary) (new_peers : gset (list Z))
  : srv (result unit (RestoreStateError EnclaveError)) :=
  match sum_mode data with
  | Idle => mret (Ok tt)
  | Active =>
      ingress_pubkey ← ingress_pubkey_bytes;
      match compressed_try_from (sum_ingress_pubkey data) with
      | Err e => mret (Err (RestoreConversion e))
      | Ok stored =>
          if negb (bool_decide (stored = ingress_pubkey))
          then mret (Err (IngressKeyMismatch ingress_pubkey stored))
          else
            refreshed ← world refresh_report_cache;
            match refreshed with
            | Err e => mret (Err (RestoreReportCache e))
            | Ok _ => check_stored_peers (peer_order new_peers) ingress_pubkey new_peers
            end
      end
  end.

Definition restore_state_from_summary (data : IngestSummary) : srv (result unit (RestoreStateError EnclaveError)) :=
  with_guard (fun state =>
  if negb (is_idle state) then mret (Err RestoreServerNotIdle)
  else
    match get_sorted_peers data with
    | Err e => mret (Err (InvalidPeerUri e))
    | Ok new_peers =>
        checked ← check_stored_state data new_peers;
        match checked with
        | Err e => mret (Err e)
        | Ok _ =>
            r ← set_peers_inner (peer_order new_peers);
            match r with
            | Err e => mret (Err (RestoreSetPeers e))
            | Ok _ =>
                state ← get_state;
                let '(r1, state) := set_pubkey_expiry_window state (sum_pubkey_expiry_window data) in
                expect r1;;
                let '(r2, state) := set_next_block_index state (sum_next_block_index data) in
                expect r2;;
                put_state (match sum_mode data with
                  | Idle => state
                  | Active => set_active state
                  end);;
                mret (Ok tt)
            end
        end
    end).

(** The end of [IngestController::new], with what was read from the state file. *)
Definition start_controller (state_file_data : option (IngestSummary * bytes)) : srv unit :=
  match state_file_data with
  | Some (summary, _) => r ← restore_state_from_summary summary; expect r
  | None => mret tt
  end;;
  write_state_file;;
  _ ← peek_state;
  mret tt.
End controller.

(** ** A concrete server *)

Definition demo_encode_rows (rows : list ETxOutRecord) : bytes :=
  [Zpos (encode ((fun r => (etr_search_key r, etr_payload r)) <$> rows))].

Definition demo_decode_rows (bs : bytes) : result (list ETxOutRecord) Z :=
  match bs with
  | [Zpos p] =>
      match (countable.decode p : option (list (list Z * list Z))) with
      | Some rows => Ok ((fun '(k, v) => mkETxOutRecord k v) <$> rows)
      | None => Err 1
      end
  | _ => Err 2
  end.

Lemma demo_rows_roundtrip rows : demo_decode_rows (demo_encode_rows rows) = Ok rows.
Proof.
  unfold demo_decode_rows, demo_encode_rows; rewrite decode_encode; f_equal.
  rewrite <- list_fmap_compose; transitivity (id <$> rows); [|apply list_fmap_id].
  apply list_fmap_ext; by intros i [k v] _.
Qed.

(** Peers do not answer; [attested_call] is the method of the connection crate. *)
#[export] Instance demo_peer_grpc : PeerGrpc (A := demo_peer_ake) unit := {|
  responder_id := fun uri => Ok uri;
  peer_order := elements;
  rpc_auth := fun g _ _ => (Err (EnclaveConnection.OtherGrpcError 1), g);
  rpc_get_status := fun g _ => (Err (EnclaveConnection.OtherGrpcError 1), g);
  rpc_set_peers := fun g _ _ => (Err (EnclaveConnection.OtherGrpcError 1), g);
  rpc_get_ingress_private_key := fun g _ _ => (Err (EnclaveConnection.OtherGrpcError 1), g);
  rpc_set_ingress_private_key := fun g _ _ => (Err (EnclaveConnection.OtherGrpcError 1), g);
|}.

Section attested_call.
Context `{C : IngestCrypto} `{OM : ObliviousHashMap} `{A : PeerAke} {G : Type} `{PG : !PeerGrpc G}.
Abbreviation EnclaveError := (IngestEnclaveError SgxError PeerAkeError).

Definition demo_call (T : Type) (func : PeerWorld G -> PeerWorld G * result T EnclaveConnection.GrpcError)
    (self : PeerWorld G) : PeerWorld G * result T (PeerAttestationError EnclaveError) :=
  let '(self, attested) := ensure_attested self in
  match attested with
  | Err e => (self, Err e)
  | Ok _ =>
      let '(self, r) := func self in
      match r with
      | Ok t => (self, Ok t)
      | Err (EnclaveConnection.RpcFailure s) =>
          (PeerConnection_deattest self, Err (AttestationGrpc (EnclaveConnection.RpcFailure s)))
      | Err e => (self, Err (AttestationGrpc e))
      end
  end.

Lemma demo_call_ok : attested_call_in_session demo_call.
Proof.
  intros T func self; unfold PeerConnection_is_attested, demo_call, ensure_attested.
  by destruct (pc_channel_id (pw_conn self)).
Qed.
End attested_call.

#[export] Instance demo_env : IngestEnv (C := demo_ingest_crypto) (OM := demo_omap) (A := demo_peer_ake) := {|
  Env := unit;
  Report := Z;
  pool_get := fun env => (Ok tt, env);
  clock := fun env => (1600000000, env);
  encode_block_data := fun rows => Ok (demo_encode_rows rows);
  encode_report := fun r => Ok [r];
  refresh_report_cache := fun env => (Ok tt, env);
  get_ias_report := fun env => (Ok 3, env);
  parse_uri := fun uri => Ok uri;
  compressed_try_from := fun bs => Ok bs;
  peer_grpc := demo_peer_grpc;
  attested_call := demo_call;
  attested_call_ok := demo_call_ok;
  state_file_write := fun env => (true, env);
|}.

Definition demo_config : IngestServerConfig :=
  mkIngestServerConfig [1] 2 10 {[ [1] ]} [] true.

Definition demo_server_enclave :
  SgxIngestEnclave (C := demo_ingest_crypto) (OM := demo_omap) (A := demo_peer_ake) :=
  @mkSgxIngestEnclave _ _ demo_ingest_crypto demo_omap demo_peer_ake tt 900 1000 None 1%nat.

Definition demo_server0 : Server (OM := demo_omap) (E := demo_env) :=
  mkServer (OM := demo_omap) (E := demo_env) (IngestControllerState_new demo_config)
    false (enclave_init demo_server_enclave [1] None 8).2 db_empty None None tt.

(** It is activated at block 5 and processes that block, with three outputs in two chunks. *)
Definition demo_server1 : Server (OM := demo_omap) (E := demo_env) :=
  after (activate demo_config 5 demo_server0).
Definition demo_block : BlockHeader := mkBlockHeader 5 100.
Definition demo_process (s : Server (OM := demo_omap) (E := demo_env)) :=
  process_next_block demo_config 1 demo_block (demo_tx <$> [10; 20; 10]) 55 s.
Definition demo_server2 : Server (OM := demo_omap) (E := demo_env) :=
  after (demo_process demo_server1).

Definition is_done {S B} (o : outcome S B) : bool :=
  match o with Done _ _ => true | _ => false end.
