(* ===== verification/ControllerLock.v ===== *)
(** * The lock of the ingest controller

    The controller's state is behind one mutex that is not reentrant.  A call
    is in order when, started with the lock free, it never waits for a lock it
    holds and leaves the lock free.  All calls of the services and threads are,
    except [new_keys], which takes the lock twice once it has changed the
    keys. *)

From S2P Require Import Prelude FogTypes RecoveryTypes ObliviousMap KexRng.
From S2P Require Import UserRngSet IngestEnclave RecoveryDb ControllerState PeerConnection IngestController.

Local Open Scope Z_scope.
Local Open Scope fog_scope.

Section lock.
Context `{C : IngestCrypto} `{OM : ObliviousHashMap} `{A : PeerAke} `{E : !IngestEnv}.
Context (config : IngestServerConfig).

(** The computation keeps the lock as it is and never blocks on it. *)
Definition lock_ok (b : bool) {B} (m : srv B) : Prop := forall s, sv_locked s = b ->
  match m s with
  | Done _ s' => sv_locked s' = b
  | Deadlocked _ => False
  | Panicked _ | OutOfFuel _ => True
  end.

Lemma lock_bind {B D} b (m : srv B) (f : B -> srv D) :
  lock_ok b m -> (forall x, lock_ok b (f x)) -> lock_ok b (m ≫= f).
Proof.
  intros Hm Hf s Hs; specialize (Hm s Hs); unfold mbind, srv_bind.
  destruct (m s) as [x s'|s'|s'|s']; [by apply Hf|done..].
Qed.

Lemma lock_guard {B} (f : IngestControllerState -> srv B) :
  (forall st, lock_ok true (f st)) -> lock_ok false (with_guard f).
Proof.
  intros Hf s Hs; unfold with_guard, mbind, srv_bind, lock_state; rewrite Hs.
  specialize (Hf (sv_state s) (set_locked true s) eq_refl).
  by destruct (f (sv_state s) (set_locked true s)) as [x s'|s'|s'|s'].
Qed.

(** ** Steps that leave the lock alone *)

Lemma lock_ret {B} b (x : B) : lock_ok b (mret x).
Proof. by intros s Hs. Qed.
Lemma lock_world {B} b (f : Env -> B * Env) : lock_ok b (world f).
Proof. intros s Hs; unfold world; by destruct (f (sv_env s)). Qed.
Lemma lock_expect {B X} b (r : result B X) : lock_ok b (expect r).
Proof. intros s Hs; by destruct r. Qed.
Lemma lock_assert b x : lock_ok b (assert x).
Proof. intros s Hs; by destruct x. Qed.
Lemma lock_enclave_read {B} b (f : SgxIngestEnclave -> B) : lock_ok b (enclave_read f).
Proof. by intros s Hs. Qed.
Lemma lock_enclave_call {B} b (f : SgxIngestEnclave -> run (B * SgxIngestEnclave)) :
  lock_ok b (enclave_call f).
Proof. intros s Hs; unfold enclave_call; by destruct (f (sv_enclave s)) as [[x e]|]. Qed.
Lemma lock_db_call {B} b (op : result unit Z -> Z -> tx B) : lock_ok b (db_call op).
Proof.
  intros s Hs; unfold db_call; destruct (pool_get (sv_env s)) as [pool env].
  by destruct (clock env) as [now env'], (op pool now (sv_db s)).
Qed.
Lemma lock_get_state b : lock_ok b get_state.
Proof. by intros s Hs. Qed.
Lemma lock_put_state b st : lock_ok b (put_state st).
Proof. by intros s Hs. Qed.
Lemma lock_get_last_sealed_key b : lock_ok b get_last_sealed_key.
Proof. by intros s Hs. Qed.
Lemma lock_put_last_sealed_key b k : lock_ok b (put_last_sealed_key k).
Proof. by intros s Hs. Qed.
Lemma lock_put_state_file b f : lock_ok b (put_state_file f).
Proof. by intros s Hs. Qed.
Lemma lock_panic {B} b : lock_ok b (@panic _ _ _ _ _ _ B).
Proof. by intros s Hs. Qed.
Lemma lock_connect b id uri : lock_ok b (connect id uri).
Proof. intros s Hs; unfold connect; by destruct (PeerConnection_new id uri). Qed.
Lemma lock_on_connection {B} b conn (f : PeerWorld Env -> PeerWorld Env * B) : lock_ok b (on_connection conn f).
Proof. intros s Hs; unfold on_connection; by destruct (f _). Qed.
Lemma lock_out_of_fuel {B} b : lock_ok b (@out_of_fuel _ _ _ _ _ _ B).
Proof. by intros s Hs. Qed.

Create HintDb lock.
Hint Resolve lock_ret lock_world lock_expect lock_assert lock_enclave_read lock_enclave_call
  lock_db_call lock_get_state lock_put_state lock_get_last_sealed_key lock_put_last_sealed_key
  lock_put_state_file lock_panic lock_connect lock_on_connection lock_out_of_fuel : lock.
Ltac solve_lock :=
  repeat first [ solve [eauto with lock] | apply lock_guard; intros ?
               | apply lock_bind; [|intros ?] | case_match ].

(** ** Methods, with the guard held or not *)

Lemma lock_ingress_pubkey b : lock_ok b ingress_pubkey_bytes.
Proof. unfold ingress_pubkey_bytes; solve_lock. Qed.
Lemma lock_kex_rng_pubkey b : lock_ok b kex_rng_pubkey_expect.
Proof. unfold kex_rng_pubkey_expect; solve_lock. Qed.
Hint Resolve lock_ingress_pubkey lock_kex_rng_pubkey : lock.
Lemma lock_summary_inner b : lock_ok b get_ingest_summary_inner.
Proof. unfold get_ingest_summary_inner; solve_lock. Qed.
Hint Resolve lock_summary_inner : lock.
Lemma lock_matching_sealed_key b n : lock_ok b (matching_sealed_key n).
Proof. induction n as [|n IH]; simpl; solve_lock. Qed.
Hint Resolve lock_matching_sealed_key : lock.
Lemma lock_write_state_file_inner b : lock_ok b (write_state_file_inner config).
Proof. unfold write_state_file_inner; solve_lock. Qed.
Lemma lock_decommission b : lock_ok b decommission_ingest_invocation_id.
Proof. unfold decommission_ingest_invocation_id; solve_lock. Qed.
Hint Resolve lock_write_state_file_inner lock_decommission : lock.
Lemma lock_change_keys b f : lock_ok b (change_keys config f).
Proof. unfold change_keys; solve_lock. Qed.
Lemma lock_publish_report b key : lock_ok b (publish_report config key).
Proof. unfold publish_report; solve_lock. Qed.
Lemma lock_set_peers_inner b peers : lock_ok b (set_peers_inner config peers).
Proof. unfold set_peers_inner; solve_lock. Qed.
Hint Resolve lock_change_keys lock_publish_report lock_set_peers_inner : lock.

Lemma lock_peek_state : lock_ok false peek_state.
Proof. unfold peek_state; solve_lock. Qed.
Lemma lock_summary : lock_ok false get_ingest_summary.
Proof. unfold get_ingest_summary; solve_lock. Qed.
Lemma lock_write_state_file : lock_ok false (write_state_file config).
Proof. unfold write_state_file; solve_lock. Qed.
Hint Resolve lock_peek_state lock_summary lock_write_state_file : lock.

(** A backup is confirmed under the lock only with the peers at hand. *)
Lemma lock_confirm_backup b conn summary key peers update :
  (peers = None -> b = false) -> lock_ok b (confirm_backup conn summary key peers update).
Proof.
  intros Hb; unfold confirm_backup, check_backup, update_peer_key, update_peer_peers.
  destruct peers as [peers|]; [solve_lock|rewrite Hb by done; solve_lock].
Qed.
Hint Resolve lock_confirm_backup : lock.
Lemma lock_checkup_peers peers : lock_ok false (checkup_peers config peers).
Proof. induction peers as [|p peers IH]; simpl; solve_lock. Qed.
Lemma lock_peer_connections b peers : lock_ok b (peer_connections config peers).
Proof. induction peers as [|p peers IH]; simpl; solve_lock. Qed.
Lemma lock_peer_summaries b uris : lock_ok b (peer_summaries uris).
Proof. induction uris as [|u uris IH]; simpl; solve_lock. Qed.
Lemma lock_confirm_backups b conns key peers : lock_ok b (confirm_backups conns key peers).
Proof.
  induction conns as [|[u sm] conns IH]; simpl; [solve_lock|].
  apply lock_bind; [by apply lock_confirm_backup|intros r; solve_lock].
Qed.
Lemma lock_check_stored_peers b uris key peers :
  lock_ok b (check_stored_peers config uris key peers).
Proof.
  induction uris as [|u uris IH]; simpl; [solve_lock|]; case_match; [|solve_lock].
  case_match; [done|]; apply lock_bind; [solve_lock|intros conn].
  apply lock_bind; [by apply lock_confirm_backup|intros r; solve_lock].
Qed.
Lemma lock_find_start_block b key n : lock_ok b (find_start_block key n).
Proof. unfold find_start_block; solve_lock. Qed.
Lemma lock_finish_activation b key start : lock_ok b (finish_activation config key start).
Proof. unfold finish_activation; solve_lock. Qed.
Hint Resolve lock_checkup_peers lock_peer_connections lock_peer_summaries lock_confirm_backups
  lock_check_stored_peers lock_find_start_block lock_finish_activation : lock.
Lemma lock_rotate_invocation b fuel block key iid k :
  lock_ok b (rotate_invocation fuel block key iid k).
Proof. induction fuel as [|fuel IH]; simpl; solve_lock. Qed.
Hint Resolve lock_rotate_invocation : lock.
Lemma lock_ingest_chunks fuel block ts key txss : forall iid idx rows,
  lock_ok false (ingest_chunks fuel block ts key txss iid idx rows).
Proof. induction txss as [|txs txss IH]; intros iid idx rows; simpl; solve_lock. Qed.
Lemma lock_publish_rows fuel block ts iid rows :
  lock_ok false (publish_rows config fuel block ts iid rows).
Proof.
  induction fuel as [|fuel IH]; simpl; unfold controller_new_egress_key; solve_lock.
Qed.
Lemma lock_begin_block block key k : lock_ok false (begin_block config block key k).
Proof. unfold begin_block, controller_new_egress_key; solve_lock. Qed.
Hint Resolve lock_ingest_chunks lock_publish_rows lock_begin_block : lock.
Lemma lock_restore data : lock_ok false (restore_state_from_summary config data).
Proof. unfold restore_state_from_summary, check_stored_state; solve_lock. Qed.
Lemma lock_try_activate n : lock_ok false (try_activate config n).
Proof. unfold try_activate; solve_lock. Qed.
Hint Resolve lock_restore lock_try_activate : lock.

(** ** The calls *)

(** What the ingest service, the peer service and the threads call, except [new_keys]. *)
Inductive service_call : forall B, srv B -> Prop :=
| call_set_ingress_private_key msg : service_call _ (controller_set_ingress_private_key config msg)
| call_process_next_block fuel block outputs ts :
    service_call _ (process_next_block config fuel block outputs ts)
| call_peer_checkup : service_call _ (peer_checkup config)
| call_activate n : service_call _ (activate config n)
| call_retire : service_call _ retire
| call_unretire : service_call _ unretire
| call_sync_keys_from_remote uri : service_call _ (sync_keys_from_remote config uri)
| call_set_pubkey_expiry_window v : service_call _ (controller_set_pubkey_expiry_window v)
| call_set_peers peers : service_call _ (controller_set_peers config peers)
| call_report_lost_ingress_key key : service_call _ (controller_report_lost_ingress_key key)
| call_get_missed_block_ranges : service_call _ controller_get_missed_block_ranges
| call_get_ingest_summary : service_call _ get_ingest_summary
| call_start_controller data : service_call _ (start_controller config data).

Lemma service_call_lock B (m : srv B) : service_call B m -> lock_ok false m.
Proof.
  intros []; [unfold controller_set_ingress_private_key|unfold process_next_block|unfold peer_checkup
    |unfold activate|unfold retire, set_retired|unfold unretire, set_retired
    |unfold sync_keys_from_remote|unfold controller_set_pubkey_expiry_window
    |unfold controller_set_peers|unfold controller_report_lost_ingress_key
    |unfold controller_get_missed_block_ranges| |unfold start_controller]; solve_lock.
Qed.

(** C32: No call of the controller other than [new_keys] deadlocks on the lock of the state, and
    each returns with the lock free, so the next call can start. *)
Theorem service_calls_release_lock B (m : srv B) s :
  service_call B m -> sv_locked s = false ->
  match m s with
  | Done _ s' => sv_locked s' = false
  | Deadlocked _ => False
  | Panicked _ | OutOfFuel _ => True
  end.
Proof. intros Hm Hs; by apply (service_call_lock B m Hm). Qed.

(** C36: [new_keys] never returns a summary: the guard of the state is alive when
    [get_ingest_summary] takes the lock again. *)
Theorem new_keys_never_succeeds s summary s' :
  controller_new_keys config s <> Done (Ok summary) s'.
Proof.
  unfold controller_new_keys, with_guard, lock_state, mbind, srv_bind.
  destruct (sv_locked s); [done|].
  pose proof (lock_change_keys true new_keys (set_locked true s) eq_refl) as Hl.
  unfold new_keys_inner; destruct (change_keys config new_keys (set_locked true s))
    as [[[]|err] s1|s1|s1|s1]; [|done..].
  pose proof (lock_write_state_file_inner true s1 Hl) as Hl2.
  destruct (write_state_file_inner config s1) as [[] s2|s2|s2|s2]; [|done..].
  by unfold get_ingest_summary, with_guard, lock_state, mbind, srv_bind; rewrite Hl2.
Qed.
End lock.

(** Activating the server of the example, and the deadlock. *)
Lemma service_calls_release_lock_witness :
  sv_locked (after (activate demo_config 5 demo_server0)) = false.
Proof.
  pose proof (service_calls_release_lock (E := demo_env) demo_config _ (activate demo_config 5)
    demo_server0 (call_activate demo_config 5) eq_refl) as H.
  assert (Hd : is_done (activate demo_config 5 demo_server0) = true) by (vm_compute; reflexivity).
  destruct (activate demo_config 5 demo_server0); [exact H|discriminate Hd..].
Defined.

Definition is_deadlocked {S B} (o : outcome S B) : bool :=
  match o with Deadlocked _ => true | _ => false end.

Lemma new_keys_deadlocks : is_deadlocked (controller_new_keys demo_config demo_server0) = true.
Proof. vm_compute; reflexivity. Qed.
