(* ===== verification/IngestServerSpec.v ===== *)
(** * The ingest server keeps the search keys in the database in order

    The invariant that [process_next_block] documents: an ingest invocation
    starts with a fresh egress key, and rows that went through the enclave
    either reach the database or the egress key is replaced.  It is kept by
    every operation of the controller and by other users of the database, and
    it gives users what polling relies on.  [landed_db] are the search keys in
    the database with their blocks. *)

From S2P Require Import Prelude FogTypes RecoveryTypes ObliviousMap KexRng UserRngSet.
From S2P Require Import Polling IngestEnclave IngestHistory RecoveryDb RecoveryDbWf ControllerState PeerConnection IngestController.

Local Open Scope Z_scope.
Local Open Scope fog_scope.

Section server.
Context `{C : IngestCrypto} `{OM : ObliviousHashMap} `{A : PeerAke} `{E : !IngestEnv}.
Context `{HOM : !ObliviousHashMapLaws OM} `{HIL : !IngestLaws} `{HFR : !FreshRng}.
Context (config : IngestServerConfig).
Context (users : Public -> Prop) (egresses : Private -> Prop).
Context (Hplay : keys_in_play users egresses).

(** The codec of stored block data round trips. *)
Context (decode : bytes -> result (list ETxOutRecord) Z).
Definition codec_ok : Prop :=
  forall rows data, encode_block_data rows = Ok data -> decode data = Ok rows.
Context (Hcodec : codec_ok).

(** ** What the database holds *)

Definition block_rows (b : IngestedBlock) : list ETxOutRecord :=
  default [] (ok (decode (ib_proto_ingested_block_data b))).

Definition land_block (m : gmap (list Z) Z) (b : IngestedBlock) : gmap (list Z) Z :=
  land (as_u64 (ib_block_number b)) (block_rows b) m.

Definition landed_db (d : Db) : gmap (list Z) Z := foldl land_block ∅ (db_ingested_blocks d).

Definition rows_total (d : Db) : Z :=
  Z.of_nat (sum_list_with (fun b => length (block_rows b)) (db_ingested_blocks d)).

Lemma landed_same d d' :
  db_ingested_blocks d' = db_ingested_blocks d ->
  landed_db d' = landed_db d /\ rows_total d' = rows_total d.
Proof. unfold landed_db, rows_total; by intros ->. Qed.

Lemma landed_append d d' b rows :
  db_ingested_blocks d' = db_ingested_blocks d ++ [b] ->
  decode (ib_proto_ingested_block_data b) = Ok rows ->
  landed_db d' = land (as_u64 (ib_block_number b)) rows (landed_db d)
  /\ rows_total d' = rows_total d + Z.of_nat (length rows).
Proof.
  unfold landed_db, rows_total; intros -> Hdec; rewrite foldl_app, sum_list_with_app; simpl.
  unfold land_block, block_rows; rewrite Hdec; simpl; split; [done|lia].
Qed.

(** ** Predicates on the server *)

Definition pred : Type := IngestControllerState -> SgxIngestEnclave -> Db -> Prop.
Definition holds (P : pred) (s : Server) : Prop := P (sv_state s) (sv_enclave s) (sv_db s).

(** What must hold of the database at any time, also after a crash. *)
Definition stored (d : Db) : Prop :=
  db_wf d /\ exists used, seq_inv users egresses (landed_db d) used (rows_total d).

(** The invocation is in the database with the enclave's egress key. *)
Definition announced (e : SgxIngestEnclave) (d : Db) (iid : Z) : Prop :=
  exists r, r ∈ db_ingest_invocations d /\ ii_id r = iid
    /\ ii_egress_public_key r = public_to_bytes (public_from (ie_egress_key e)).

(** The invariant between calls. *)
Definition server_inv : pred := fun st e d =>
  db_wf d /\ is_u64 (ics_next_block_index st)
  /\ (ics_mode st = Idle -> ics_ingest_invocation_id st = None)
  /\ (forall i, ics_ingest_invocation_id st = Some i -> announced e d i)
  /\ exists used,
       in_step users egresses e (landed_db d) used (rows_total d) (ics_next_block_index st - 1)
       /\ (ics_ingest_invocation_id st = None ->
           forall p, users p -> used (key_exchange (ie_egress_key e) p) = 0).

(** The enclave may be out of step with the database: a new egress key is needed. *)
Definition needs_key : pred := fun st e d =>
  db_wf d /\ is_u64 (ics_next_block_index st) /\ ics_mode st = Idle /\ initialised e
  /\ exists used, seq_inv users egresses (landed_db d) used (rows_total d)
       /\ covered users egresses (ie_rng e) used.

Lemma server_inv_stored st e d : server_inv st e d -> stored d.
Proof.
  intros (Hd & _ & _ & _ & used & Hs & _); split; [done|]; exists used; apply Hs.
Qed.

Lemma needs_key_stored st e d : needs_key st e d -> stored d.
Proof. intros (Hd & _ & _ & _ & used & Hs & _); split; [done|]; by exists used. Qed.

(** ** Hoare triples

    A computation from [P] ends in [Q], or stops with a database that is in order. *)
Definition hoare {B} (P : pred) (m : srv B) (Q : B -> pred) : Prop := forall s, holds P s ->
  match m s with
  | Done b s' => holds (Q b) s'
  | Panicked s' | OutOfFuel s' | Deadlocked s' => stored (sv_db s')
  end.

Lemma hoare_ret {B} (P : pred) (Q : B -> pred) b :
  (forall st e d, P st e d -> Q b st e d) -> hoare P (mret b) Q.
Proof. intros H s Hs; by apply H. Qed.

Lemma hoare_bind {B D} (P : pred) (m : srv B) (Q : B -> pred) (f : B -> srv D) (R : D -> pred) :
  hoare P m Q -> (forall b, hoare (Q b) (f b) R) -> hoare P (m ≫= f) R.
Proof.
  intros Hm Hf s Hs; specialize (Hm s Hs); unfold mbind, srv_bind.
  destruct (m s) as [b s'|s'|s'|s']; [by apply Hf|done..].
Qed.

Lemma hoare_weaken {B} (P P' : pred) (m : srv B) (Q Q' : B -> pred) :
  hoare P m Q -> (forall st e d, P' st e d -> P st e d) ->
  (forall b st e d, Q b st e d -> Q' b st e d) -> hoare P' m Q'.
Proof.
  intros Hm HP HQ s Hs; specialize (Hm s (HP _ _ _ Hs)).
  destruct (m s) as [b s'|s'|s'|s']; [by apply HQ|done..].
Qed.

Lemma hoare_pure {B} (P : pred) (X : Prop) (m : srv B) (Q : B -> pred) :
  (forall st e d, P st e d -> X) -> (X -> hoare P m Q) -> hoare P m Q.
Proof. intros HX Hm s Hs; exact (Hm (HX _ _ _ Hs) s Hs). Qed.

(** A computation that leaves the state, the enclave and the database alone. *)
Definition quiet {B} (m : srv B) : Prop := forall s,
  match m s with
  | Done _ s' | Panicked s' | OutOfFuel s' | Deadlocked s' =>
      sv_state s' = sv_state s /\ sv_enclave s' = sv_enclave s /\ sv_db s' = sv_db s
  end.

Lemma hoare_quiet {B} (P : pred) (m : srv B) :
  quiet m -> (forall st e d, P st e d -> stored d) -> hoare P m (fun _ => P).
Proof.
  intros Hm HP s Hs; specialize (Hm s); unfold holds in *.
  destruct (m s) as [b s'|s'|s'|s']; destruct Hm as (H1 & H2 & H3); rewrite ?H1, ?H2, ?H3; eauto.
Qed.

Lemma quiet_ret {B} (b : B) : quiet (mret b).
Proof. done. Qed.

Lemma quiet_bind {B D} (m : srv B) (f : B -> srv D) :
  quiet m -> (forall b, quiet (f b)) -> quiet (m ≫= f).
Proof.
  intros Hm Hf s; specialize (Hm s); unfold mbind, srv_bind.
  destruct (m s) as [b s'|s'|s'|s']; [|done..]; specialize (Hf b s').
  destruct (f b s') as [x s''|s''|s''|s'']; intuition congruence.
Qed.

Lemma quiet_world {B} (f : Env -> B * Env) : quiet (world f).
Proof. intros s; unfold world; by destruct (f (sv_env s)). Qed.

Lemma quiet_expect {B X} (r : result B X) : quiet (expect r).
Proof. by destruct r. Qed.

Lemma quiet_assert b : quiet (assert b).
Proof. by destruct b. Qed.

Lemma quiet_enclave_read {B} (f : SgxIngestEnclave -> B) : quiet (enclave_read f).
Proof. done. Qed.

Lemma quiet_kex_rng_pubkey : quiet kex_rng_pubkey_expect.
Proof.
  apply quiet_bind; [|intros r; apply quiet_expect].
  intros s; unfold enclave_call; destruct (get_kex_rng_pubkey (sv_enclave s)) as [r|]; done.
Qed.

Lemma quiet_get_state : quiet get_state.
Proof. done. Qed.
Lemma quiet_lock_state : quiet lock_state.
Proof. intros s; unfold lock_state; by destruct (sv_locked s). Qed.
Lemma quiet_unlock_state : quiet unlock_state.
Proof. done. Qed.
Lemma quiet_get_last_sealed_key : quiet get_last_sealed_key.
Proof. done. Qed.
Lemma quiet_put_last_sealed_key k : quiet (put_last_sealed_key k).
Proof. done. Qed.
Lemma quiet_put_state_file f : quiet (put_state_file f).
Proof. done. Qed.
Lemma quiet_out_of_fuel {B} : quiet (@out_of_fuel _ _ _ _ _ _ B).
Proof. done. Qed.

Create HintDb quiet.
Hint Resolve quiet_lock_state quiet_unlock_state quiet_ret quiet_world quiet_expect quiet_assert quiet_enclave_read
  quiet_kex_rng_pubkey quiet_get_state quiet_get_last_sealed_key quiet_put_last_sealed_key
  quiet_put_state_file quiet_out_of_fuel : quiet.
Ltac solve_quiet :=
  repeat first [ solve [eauto with quiet] | apply quiet_bind; [|intros ?] | case_match ].

Lemma quiet_with_guard {B} (f : IngestControllerState -> srv B) :
  (forall st, quiet (f st)) -> quiet (with_guard f).
Proof. intros Hf; unfold with_guard; solve_quiet. Qed.
Hint Resolve quiet_with_guard : quiet.
Lemma quiet_peek_state : quiet peek_state.
Proof. apply quiet_with_guard; solve_quiet. Qed.
Hint Resolve quiet_peek_state : quiet.

Lemma quiet_ingress_pubkey : quiet ingress_pubkey_bytes.
Proof. unfold ingress_pubkey_bytes; solve_quiet. Qed.
Hint Resolve quiet_ingress_pubkey : quiet.
Lemma quiet_summary_inner : quiet get_ingest_summary_inner.
Proof. unfold get_ingest_summary_inner; solve_quiet. Qed.
Hint Resolve quiet_summary_inner : quiet.
Lemma quiet_summary : quiet get_ingest_summary.
Proof. apply quiet_with_guard; solve_quiet. Qed.
Hint Resolve quiet_summary : quiet.
Lemma quiet_matching_sealed_key n : quiet (matching_sealed_key n).
Proof. induction n as [|n IH]; simpl; solve_quiet. Qed.
Hint Resolve quiet_matching_sealed_key : quiet.
Lemma quiet_write_state_file_inner : quiet (write_state_file_inner config).
Proof. unfold write_state_file_inner; solve_quiet. Qed.
Hint Resolve quiet_write_state_file_inner : quiet.
Lemma quiet_write_state_file : quiet (write_state_file config).
Proof. apply quiet_with_guard; solve_quiet. Qed.
Hint Resolve quiet_write_state_file : quiet.
Lemma quiet_connect id uri : quiet (connect id uri).
Proof. intros s; unfold connect; by destruct (PeerConnection_new id uri). Qed.
Hint Resolve quiet_connect : quiet.
Lemma quiet_peer_connections peers : quiet (peer_connections config peers).
Proof. induction peers as [|p peers IH]; simpl; solve_quiet. Qed.
Hint Resolve quiet_peer_connections : quiet.

(** Calls of the peers use the sessions of the enclave, and leave the rest alone. *)
Definition calm {B} (m : srv B) : Prop := forall s,
  sv_state (after (m s)) = sv_state s /\ same_keys (sv_enclave s) (sv_enclave (after (m s)))
  /\ sv_db (after (m s)) = sv_db s.

Lemma calm_quiet {B} (m : srv B) : quiet m -> calm m.
Proof. intros Hm s; specialize (Hm s); destruct (m s); destruct Hm as (H1 & H2 & H3); simpl; by rewrite H1, H2, H3. Qed.

Lemma calm_bind {B D} (m : srv B) (f : B -> srv D) : calm m -> (forall b, calm (f b)) -> calm (m ≫= f).
Proof.
  intros Hm Hf s; specialize (Hm s); unfold mbind, srv_bind.
  destruct (m s) as [b s'|s'|s'|s']; [|done..]; simpl in *; destruct Hm as (H1 & H2 & H3).
  destruct (Hf b s') as (H4 & H5 & H6); split_and!; [congruence|by etrans|congruence].
Qed.

Lemma calm_on_connection {B} conn (f : PeerWorld Env -> PeerWorld Env * B) :
  keeps_keys f -> calm (on_connection conn f).
Proof.
  intros Hf s; unfold on_connection; specialize (Hf (mkPeerWorld conn (sv_enclave s) (sv_env s))).
  by destruct (f _) as [p b].
Qed.

Create HintDb calm.
Hint Resolve keys_get_status keys_set_peers keys_get_ingress_private_key keys_set_ingress_private_key
  attested_call_ok calm_on_connection : calm.
Ltac solve_calm :=
  repeat first [ solve [eauto with calm] | solve [apply calm_quiet; solve_quiet]
               | apply calm_bind; [|intros ?] | case_match ].

Lemma calm_confirm_backup conn a b c u : calm (confirm_backup conn a b c u).
Proof.
  unfold confirm_backup, check_backup, update_peer_key, update_peer_peers; solve_calm.
Qed.
Hint Resolve calm_confirm_backup : calm.
Lemma calm_checkup_peers peers : calm (checkup_peers config peers).
Proof. induction peers as [|p peers IH]; simpl; solve_calm. Qed.
Hint Resolve calm_checkup_peers : calm.
Lemma calm_peer_checkup : calm (peer_checkup config).
Proof. unfold peer_checkup; solve_calm. Qed.
Lemma calm_peer_summaries conns : calm (peer_summaries conns).
Proof. induction conns as [|c conns IH]; simpl; solve_calm. Qed.
Lemma calm_confirm_backups conns k peers : calm (confirm_backups conns k peers).
Proof. induction conns as [|[c sm] conns IH]; simpl; solve_calm. Qed.
Lemma calm_check_stored_peers uris k peers : calm (check_stored_peers config uris k peers).
Proof. induction uris as [|u uris IH]; simpl; solve_calm. Qed.
Hint Resolve calm_peer_checkup calm_peer_summaries calm_confirm_backups calm_check_stored_peers : calm.
Lemma calm_check_stored_state data peers : calm (check_stored_state config data peers).
Proof. unfold check_stored_state; solve_calm. Qed.
Hint Resolve calm_check_stored_state : calm.

Definition session_free (P : pred) : Prop := forall st e e' d, same_keys e e' -> P st e d -> P st e' d.

Lemma hoare_calm {B} (P : pred) (m : srv B) :
  calm m -> session_free P -> (forall st e d, P st e d -> stored d) -> hoare P m (fun _ => P).
Proof.
  intros Hm HP Hst s Hs; specialize (Hm s); unfold holds in *.
  destruct (m s) as [b s'|s'|s'|s']; destruct Hm as (H1 & H2 & H3); simpl in *; rewrite ?H3; eauto.
  rewrite H1; eauto.
Qed.

(** ** Database calls *)

Lemma hoare_db {B} (P : pred) (op : result unit Z -> Z -> tx B) (Q : result B DbError -> pred) :
  (forall st e d pool now, P st e d -> Q (op pool now d).1 st e (op pool now d).2) ->
  hoare P (db_call op) Q.
Proof.
  intros HQ s Hs; unfold db_call; destruct (pool_get (sv_env s)) as [pool env].
  destruct (clock env) as [now env']; specialize (HQ _ _ _ pool now Hs).
  destruct (op pool now (sv_db s)) as [r d]; exact HQ.
Qed.

Lemma announced_step e d d' iid : db_step d d' -> announced e d iid -> announced e d' iid.
Proof.
  intros Hstep (r & Hr & Hid & Heg).
  destruct (mono_invs _ _ (db_step_mono _ _ Hstep) r Hr) as (r' & Hr' & Hid' & _ & Heg' & _).
  exists r'; split_and!; [done|congruence|congruence].
Qed.

Lemma server_inv_db st e d d' :
  db_step d d' -> db_ingested_blocks d' = db_ingested_blocks d ->
  server_inv st e d -> server_inv st e d'.
Proof.
  intros Hstep Hb (Hd & Hn & Hidle & Ha & Hs); destruct (landed_same d d' Hb) as [Hl Ht].
  split; [by eapply db_step_wf|]; split; [done|]; split; [done|].
  split; [intros i Hi; eapply announced_step; eauto|by rewrite Hl, Ht].
Qed.

Lemma needs_key_db st e d d' :
  db_step d d' -> db_ingested_blocks d' = db_ingested_blocks d ->
  needs_key st e d -> needs_key st e d'.
Proof.
  intros Hstep Hb (Hd & Hn & Hidle & Hi & Hs); destruct (landed_same d d' Hb) as [Hl Ht].
  split; [by eapply db_step_wf|]; split; [done|]; split; [done|]; split; [done|by rewrite Hl, Ht].
Qed.

(** ** New keys *)

(** What a key change of the enclave gives. *)
Definition rekeys (f : SgxIngestEnclave -> run (result unit (IngestEnclaveError SgxError PeerAkeError)
    * SgxIngestEnclave)) : Prop :=
  forall e res e', initialised e -> f e = Ret (res, e') ->
    res = Ok tt /\ initialised e'
    /\ (exists r, rtc rng_step (ie_rng e) r /\ random_private r = (ie_egress_key e', ie_rng e'))
    /\ forall s, enclave_count e' s = 0.

Lemma rekeys_new_keys : rekeys new_keys.
Proof. intros e res e' Hi Hcall; by apply new_keys_spec. Qed.

Lemma rekeys_new_egress_key : rekeys new_egress_key.
Proof.
  intros e res e' Hi Hcall; destruct (new_egress_key_spec _ _ _ Hi Hcall) as (H1 & H2 & _ & H3 & H4).
  split; [done|]; split; [done|]; split; [by exists (ie_rng e)|done].
Qed.

(** An idle server with new keys and no invocation is in order. *)
Lemma rekeyed_inv st e e' d f res :
  rekeys f -> f e = Ret (res, e') -> needs_key st e d -> ics_ingest_invocation_id st = None ->
  res = Ok tt /\ server_inv st e' d.
Proof.
  intros Hf Hcall (Hd & Hn & Hidle & Hi & used & Hseq & Hcov) Hnone.
  destruct (Hf _ _ _ Hi Hcall) as (-> & Hi' & (r & Hsteps & Hr) & Hz); split; [done|].
  split; [done|]; split; [done|]; split; [done|]; split; [by rewrite Hnone|].
  pose proof (in_step_new_key users egresses Hplay e' r _ (landed_db d) used (rows_total d)
    (ics_next_block_index st - 1) (ie_rng e) Hi' Hr eq_refl Hz Hsteps Hseq Hcov) as Hstep.
  exists used; split; [done|]; intros _ p Hp.
  rewrite <- (step_continues _ _ _ _ _ _ _ Hstep p Hp); apply Hz.
Qed.

(** Reading and writing the state. *)
Lemma hoare_get_state {B} (P : pred) (f : IngestControllerState -> srv B) (Q : B -> pred) :
  (forall st0, hoare (fun st e d => P st e d /\ st = st0) (f st0) Q) ->
  hoare P (get_state ≫= f) Q.
Proof. intros Hf s Hs; unfold mbind, srv_bind, get_state; by apply Hf. Qed.

Lemma hoare_with_guard {B} (P : pred) (f : IngestControllerState -> srv B) (Q : B -> pred) :
  (forall st e d, P st e d -> stored d) ->
  (forall st0, hoare (fun st e d => P st e d /\ st = st0) (f st0) Q) -> hoare P (with_guard f) Q.
Proof.
  intros HP Hf s Hs; unfold with_guard, mbind, srv_bind, lock_state.
  destruct (sv_locked s); [by eapply HP|]; specialize (Hf (sv_state s) (set_locked true s)).
  destruct (f (sv_state s) (set_locked true s)) as [b s'|s'|s'|s']; by apply Hf.
Qed.

Lemma hoare_put_state (P : pred) st' (Q : pred) :
  (forall st e d, P st e d -> Q st' e d) -> hoare P (put_state st') (fun _ => Q).
Proof. intros HQ s Hs; unfold put_state; by eapply HQ. Qed.

Lemma hoare_enclave {B} (P : pred) (f : SgxIngestEnclave -> run (B * SgxIngestEnclave))
    (Q : B -> pred) :
  (forall st e d, P st e d -> stored d) ->
  (forall st e d b e', P st e d -> f e = Ret (b, e') -> Q b st e' d) ->
  hoare P (enclave_call f) Q.
Proof.
  intros HP HQ s Hs; unfold enclave_call.
  destruct (f (sv_enclave s)) as [[b e']|] eqn:Hf; [by eapply HQ|by eapply HP].
Qed.

Lemma hoare_expect {B X} (P : pred) (r : result B X) (Q : B -> pred) :
  (forall st e d, P st e d -> stored d) ->
  (forall b st e d, r = Ok b -> P st e d -> Q b st e d) -> hoare P (expect r) Q.
Proof. intros HP HQ s Hs; destruct r as [b|x]; [by apply HQ|by eapply HP]. Qed.

Lemma hoare_decommission :
  hoare needs_key decommission_ingest_invocation_id
    (fun _ st e d => needs_key st e d /\ ics_ingest_invocation_id st = None).
Proof.
  apply hoare_get_state; intros st0; destruct (get_ingest_invocation_id st0) as [iid|] eqn:Hiid.
  - eapply hoare_bind.
    + apply (hoare_db _ _ (fun _ st e d => needs_key st e d /\ st = st0)).
      intros st e d pool now [Hk Hst]; split; [|done].
      eapply needs_key_db; [apply step_decommission_ingest_invocation|
        apply decommission_ingest_invocation_keeps|done].
    + intros r; apply hoare_put_state; intros st e d [Hk ->]; split; [exact Hk|done].
  - apply hoare_ret; intros st e d [Hk ->]; split; [done|exact Hiid].
Qed.

(** A key change on an idle server succeeds and leaves it in order. *)
Lemma hoare_change_keys f :
  rekeys f -> hoare needs_key (change_keys config f)
    (fun r st e d => r = Ok tt /\ server_inv st e d /\ ics_mode st = Idle).
Proof.
  intros Hf; apply hoare_get_state; intros st0.
  apply (hoare_pure _ (ics_mode st0 = Idle));
    [by intros st e d [(_ & _ & Hidle & _) ->]|intros Hidle].
  unfold is_idle; rewrite bool_decide_true by done; simpl.
  eapply hoare_bind; [eapply hoare_weaken; [apply hoare_decommission|by intros st e d []|]|].
  { intros b st e d Hk; exact Hk. }
  intros u; eapply hoare_bind.
  - apply (hoare_enclave _ _ (fun r st e d => r = Ok tt /\ server_inv st e d /\ ics_mode st = Idle)).
    + intros st e d [Hk _]; by eapply needs_key_stored.
    + intros st e d r e' [Hk Hnone] Hcall.
      destruct (rekeyed_inv st e e' d f r Hf Hcall Hk Hnone) as [-> Hinv].
      split; [done|]; split; [done|]; apply Hk.
  - intros [[]|err]; [|apply (hoare_pure _ False); [by intros st e d []|done]].
    eapply hoare_bind; [apply hoare_quiet; [solve_quiet|]|intros ?].
    { intros st e d (_ & Hinv & _); by eapply server_inv_stored. }
    eapply hoare_bind; [apply hoare_quiet; [solve_quiet|]|intros ?].
    { intros st e d (_ & Hinv & _); by eapply server_inv_stored. }
    apply hoare_ret; intros st e d (_ & Hinv); split; [done|exact Hinv].
Qed.

Lemma server_inv_needs_key st e d : server_inv st e d -> ics_mode st = Idle -> needs_key st e d.
Proof.
  intros (Hd & Hn & _ & _ & used & Hs & _) Hidle; destruct Hs.
  split; [done|]; split; [done|]; split; [done|]; split; [done|]; eauto.
Qed.

(** ** Reports *)

(** Publishing keeps whatever other users of the database keep. *)
Lemma hoare_publish_report (P : pred) key :
  (forall st e d, P st e d -> stored d) ->
  (forall st e d d', db_step d d' -> db_ingested_blocks d' = db_ingested_blocks d ->
     P st e d -> P st e d') ->
  hoare P (publish_report config key) (fun _ => P).
Proof.
  intros HP Hstep; apply hoare_get_state; intros st0.
  assert (HP' : forall st e d, P st e d /\ st = st0 -> stored d) by (intros st e d []; eauto).
  eapply hoare_bind; [apply hoare_quiet; [apply quiet_world|done]|intros [[]|err]].
  2:{ apply hoare_ret; by intros st e d []. }
  eapply hoare_bind; [apply hoare_quiet; [apply quiet_world|done]|intros [report|err]].
  2:{ apply hoare_ret; by intros st e d []. }
  eapply hoare_bind; [apply (hoare_db _ _ (fun _ => P))|intros r; by apply hoare_ret].
  intros st e d pool now [Hp _]; eapply Hstep; [apply step_set_report|apply set_report_keeps|done].
Qed.

(** ** A block in progress

    The rows [pend] went through the enclave and are not in the database yet; without them the
    database is in order. *)
Definition midblock (blk : Z) (pend : list ETxOutRecord) (left : Z) : pred := fun st e d =>
  db_wf d /\ is_u64 blk /\ ics_next_block_index st = blk /\ ics_mode st = Active
  /\ rows_total d + Z.of_nat (length pend) + left < u64_modulus
  /\ (exists used0, seq_inv users egresses (landed_db d) used0 (rows_total d)
        /\ covered users egresses (ie_rng e) used0)
  /\ exists used, in_step users egresses e (land blk pend (landed_db d)) used
       (rows_total d + Z.of_nat (length pend)) blk.

Definition under (iid : Z) (P : pred) : pred := fun st e d =>
  P st e d /\ ics_ingest_invocation_id st = Some iid /\ announced e d iid.

(** The enclave gave up on a chunk: its counters no longer match the database. *)
Definition gave_up (blk : Z) : pred := fun st e d =>
  stored d /\ ics_mode st = Active /\ ics_next_block_index st = blk.

Lemma midblock_stored blk pend left st e d : midblock blk pend left st e d -> stored d.
Proof. intros (Hd & _ & _ & _ & _ & (used & Hs & _) & _); split; [done|eauto]. Qed.

Lemma under_stored iid blk pend left st e d : under iid (midblock blk pend left) st e d -> stored d.
Proof. intros [Hm _]; by eapply midblock_stored. Qed.

Lemma midblock_db blk pend left st e d d' :
  db_step d d' -> db_ingested_blocks d' = db_ingested_blocks d ->
  midblock blk pend left st e d -> midblock blk pend left st e d'.
Proof.
  intros Hstep Hb (Hd & H1 & H2 & H3 & H4 & H5 & H6); destruct (landed_same d d' Hb) as [Hl Ht].
  unfold midblock; rewrite Hl, Ht; split; [by eapply db_step_wf|done].
Qed.

Lemma land_app blk rows rows' m : land blk (rows ++ rows') m = land blk rows' (land blk rows m).
Proof. apply foldl_app. Qed.

(** One chunk: its rows are pending too, under the same invocation or a key to announce. *)
Lemma midblock_ingest blk pend left st e d chunk rows new e' :
  midblock blk pend (left + Z.of_nat (length (tfi_redacted_txs chunk))) st e d -> 0 <= left ->
  tfi_block_index chunk = blk -> ingest_txs e chunk = Ret (Ok (rows, new), e') ->
  midblock blk (pend ++ rows) left st e' d
  /\ (new = None /\ ie_egress_key e' = ie_egress_key e \/ new = Some (kex_pubkey e')).
Proof.
  intros (Hd & H1 & H2 & H3 & H4 & (used0 & Hseq0 & Hcov0) & used & Hs) Hleft Hblk Hcall.
  destruct (ingest_txs_spec e chunk (step_init _ _ _ _ _ _ _ Hs))
    as (res & e1 & Hcall' & _ & _ & Hrng & _ & Hres).
  rewrite Hcall in Hcall'; injection Hcall' as <- <-.
  destruct Hres as (cnt0 & cnt' & Hin & _ & Hcase); apply ingested_length in Hin.
  destruct (in_step_ingest_txs users egresses Hplay e chunk rows new e' _ used _ blk Hs)
    as (used' & Hs'); [lia|done|lia|].
  split; [|destruct Hcase as [(-> & -> & _)|(-> & _)]; auto].
  split; [done|]; split; [done|]; split; [done|]; split; [done|].
  rewrite length_app, Nat2Z.inj_add; split; [lia|]; split.
  - exists used0; split; [done|]; intros x p Hx Hp Hu; eapply drawn_steps; [done|by eapply Hcov0].
  - exists used'; rewrite land_app, <- Hblk at 1.
    rewrite Hblk in Hs' |- *; by rewrite Z.add_assoc.
Qed.

Lemma hoare_kex_rng_pubkey (P : pred) :
  (forall st e d, P st e d -> stored d) ->
  hoare P kex_rng_pubkey_expect (fun k st e d => P st e d /\ k = kex_pubkey e).
Proof.
  intros HP s Hs; unfold kex_rng_pubkey_expect, mbind, srv_bind, enclave_call, get_kex_rng_pubkey.
  destruct (ie_rng_store (sv_enclave s)) as [st|]; simpl; [by split|by eapply HP].
Qed.

Lemma new_invocation_announced pool now prev key e d blk i :
  (new_ingest_invocation pool now prev key (kex_pubkey e) blk d).1 = Ok i ->
  announced e (new_ingest_invocation pool now prev key (kex_pubkey e) blk d).2 i.
Proof.
  destruct (new_ingest_invocation _ _ _ _ _ _ d) as [r d'] eqn:Hcall; simpl; intros ->.
  destruct (new_ingest_invocation_row _ _ _ _ _ _ _ _ _ Hcall) as (r & Hr & Hid & _ & Heg).
  by exists r.
Qed.

(** Rotation ends with the new key announced. *)
Lemma hoare_rotate_invocation fuel block key iid k blk pend left :
  hoare (fun st e d => midblock blk pend left st e d /\ k = kex_pubkey e)
    (rotate_invocation fuel block key iid k)
    (fun new_iid st e d => midblock blk pend left st e d /\ announced e d new_iid).
Proof.
  induction fuel as [|fuel IH]; simpl.
  { intros s [Hs _]; by eapply midblock_stored. }
  eapply hoare_bind.
  - apply (hoare_db _ _ (fun r st e d => midblock blk pend left st e d /\ k = kex_pubkey e
      /\ forall i, r = Ok i -> announced e d i)).
    intros st e d pool now [Hm ->]; split.
    + eapply midblock_db; [apply step_new_ingest_invocation|apply new_ingest_invocation_keeps|done].
    + split; [done|]; intros i; apply new_invocation_announced.
  - intros [new_iid|err].
    + apply hoare_ret; intros st e d (Hm & _ & Ha); auto.
    + eapply hoare_weaken; [apply IH|by intros st e d (Hm & Hk & _)|done].
Qed.
Definition total_length {B} (l : list (list B)) : Z := Z.of_nat (sum_list_with length l).

Lemma chunks_length {B} n (l : list B) : total_length (chunks n l) <= Z.of_nat (length l).
Proof.
  unfold total_length, chunks; apply Nat2Z.inj_le.
  enough (H : forall fuel (l : list B), (sum_list_with length (chunks_fuel fuel n l) <= length l)%nat)
    by apply H.
  induction fuel as [|fuel IH]; intros [|b bs]; try (simpl; lia).
  change (length (take n (b :: bs)) + sum_list_with length (chunks_fuel fuel n (drop n (b :: bs)))
    <= length (b :: bs))%nat.
  specialize (IH (drop n (b :: bs))); rewrite length_drop in IH; rewrite length_take; lia.
Qed.

(** The loop over the chunks ends with every row pending under an announced invocation. *)
Lemma hoare_ingest_chunks fuel block ts key txss : forall iid idx pend,
  hoare (under iid (midblock (bh_index block) pend (total_length txss)))
    (ingest_chunks fuel block ts key txss iid idx pend)
    (fun r => match r with
       | Some (iid', rows) => under iid' (midblock (bh_index block) rows 0)
       | None => gave_up (bh_index block)
       end).
Proof.
  induction txss as [|txs txss IH]; intros iid idx pend; simpl.
  { by apply hoare_ret. }
  set (chunk := mkTxsForIngest (bh_index block) idx txs ts).
  set (mid := midblock (bh_index block)).
  eapply hoare_bind; [apply (hoare_enclave _ _ (fun r => match r with
    | Ok (rows, None) => under iid (mid (pend ++ rows) (total_length txss))
    | Ok (rows, Some k) => fun st e d => mid (pend ++ rows) (total_length txss) st e d /\ k = kex_pubkey e
    | Err _ => gave_up (bh_index block)
    end))|].
  - intros st e d; apply under_stored.
  - intros st e d r e' (Hm & Hiid & Ha) Hcall; destruct r as [[rows new]|err].
    2:{ pose proof (midblock_stored _ _ _ _ _ _ Hm); destruct Hm as (_ & _ & Hn & Hact & _).
        by split. }
    destruct (midblock_ingest (bh_index block) pend (total_length txss) st e d chunk rows new e')
      as [Hm' [[-> Heg] | -> ]]; try done.
    + unfold total_length in *; simpl in *.
      rewrite Nat2Z.inj_add, Z.add_comm in Hm; exact Hm.
    + unfold total_length; lia.
    + split; [done|]; split; [done|]; unfold announced; by rewrite Heg.
  - intros [[rows [k|]]|err]; [| |by apply hoare_ret].
    + apply (hoare_bind _ _ (fun i => under i (mid (pend ++ rows) (total_length txss))));
        [|intros new_iid; apply IH].
      eapply hoare_bind; [apply hoare_rotate_invocation|intros new_iid; simpl].
      eapply hoare_bind; [apply (hoare_with_guard _ _
        (fun _ => under new_iid (mid (pend ++ rows) (total_length txss))))|intros u; by apply hoare_ret].
      { intros st e d [Hm _]; by eapply midblock_stored. }
      intros st0; apply hoare_put_state; intros st e d [[Hm Ha] ->]; split; [exact Hm|by split].
    + apply (hoare_bind _ _ (fun i => under i (mid (pend ++ rows) (total_length txss))));
        [|intros new_iid; apply IH].
      by apply hoare_ret.
Qed.
(** ** The start of a block *)

Definition starting (left : Z) (k : KexRngPubkey) : pred := fun st e d =>
  (server_inv st e d /\ ics_mode st = Active /\ rows_total d + left < u64_modulus)
  /\ k = kex_pubkey e.

Lemma starting_stored left k st e d : starting left k st e d -> stored d.
Proof. intros [(Hinv & _) _]; by eapply server_inv_stored. Qed.

Lemma starting_db left k st e d d' :
  db_step d d' -> db_ingested_blocks d' = db_ingested_blocks d ->
  starting left k st e d -> starting left k st e d'.
Proof.
  intros Hstep Hb [(Hinv & Hact & Hroom) Hk]; destruct (landed_same d d' Hb) as [_ Ht].
  split; [|done]; rewrite Ht; split; [by eapply server_inv_db|done].
Qed.

Lemma server_inv_set_idle st e d : server_inv st e d -> needs_key (set_idle st) e d.
Proof.
  intros (Hd & Hn & _ & _ & used & Hs & _); destruct Hs.
  split; [done|]; split; [done|]; split; [done|]; split; [done|]; eauto.
Qed.

Lemma midblock_set_idle blk pend left st e d :
  midblock blk pend left st e d -> needs_key (set_idle st) e d.
Proof.
  intros (Hd & Hb & <- & _ & _ & Hu & used & Hs).
  split; [done|]; split; [done|]; split; [done|]; split; [apply Hs|done].
Qed.

Lemma starting_midblock left k st e d :
  starting left k st e d -> midblock (ics_next_block_index st) [] left st e d.
Proof.
  intros [((Hd & Hn & _ & _ & used & Hs & _) & Hact & Hroom) _].
  split; [done|]; split; [done|]; split; [done|]; split; [done|]; simpl; rewrite Z.add_0_r.
  split; [done|]; split; [exists used; split; apply Hs|]; exists used.
  destruct Hs; split; try done; eapply recent_later; [|eassumption]; lia.
Qed.

Lemma hoare_assert {B} (P : pred) b (m : srv B) (Q : B -> pred) :
  (forall st e d, P st e d -> stored d) -> (b = true -> hoare P m Q) ->
  hoare P (assert b;; m) Q.
Proof.
  intros HP Hm s Hs; unfold mbind, srv_bind, assert.
  destruct b; [by apply Hm|by eapply HP].
Qed.

(** An idle server in order. *)
Definition idle : pred := fun st e d => server_inv st e d /\ ics_mode st = Idle.

(** Replacing the egress key of a server that just went idle. *)
Lemma hoare_replace_key {B} (P : pred) st' (f : result unit _ -> srv B) (Q : B -> pred) :
  (forall st e d, P st e d -> needs_key st' e d) -> hoare idle (f (Ok tt)) Q ->
  hoare P (put_state st';; r ← controller_new_egress_key config; f r) Q.
Proof.
  intros HP Hf; eapply hoare_bind; [apply (hoare_put_state _ _ needs_key), HP|intros u].
  eapply hoare_bind; [apply hoare_change_keys, rekeys_new_egress_key|intros r].
  apply (hoare_pure _ (r = Ok tt)); [by intros st e d []|intros ->].
  eapply hoare_weaken; [exact Hf|by intros st e d []|done].
Qed.

Lemma hoare_begin_block block key left k :
  hoare (starting left k) (begin_block config block key k)
    (fun r => match r with
       | Some iid => under iid (midblock (bh_index block) [] left)
       | None => idle
       end).
Proof.
  apply hoare_with_guard; [apply starting_stored|intros st0; apply hoare_assert].
  { intros st e d [H _]; by eapply starting_stored. }
  intros Hblk%Z.eqb_eq.
  set (P := fun st e d => starting left k st e d /\ ics_next_block_index st = bh_index block).
  assert (HP : forall st e d, P st e d -> stored d) by (intros st e d [H _]; by eapply starting_stored).
  apply (hoare_bind _ _ (fun _ => P)).
  { apply (hoare_weaken P _ _ (fun _ => P)); [|by intros st e d [H ->]|done].
    destruct (is_active st0); [|by apply hoare_ret].
    eapply hoare_bind; [apply hoare_publish_report; [done|]|intros [status|err]; by apply hoare_ret].
    intros st e d d' H1 H2 [H3 H4]; split; [by eapply starting_db|done]. }
  intros [|]; apply hoare_get_state; intros st1.
  { apply hoare_replace_key; [|simpl].
    - intros st e d [[[(H & _) _] _] ->]; by apply server_inv_set_idle.
    - by intros s Hs. }
  destruct (get_ingest_invocation_id st1) as [iid|] eqn:Hiid.
  { apply hoare_ret; intros st e d [[H Hb] ->]; split; [rewrite <- Hb; by eapply starting_midblock|].
    split; [done|]; by apply H. }
  eapply hoare_bind; [apply (hoare_db _ _ (fun r st e d => P st e d /\ st = st1
    /\ forall i, r = Ok i -> announced e d i))|].
  - intros st e d pool now [[H Hb] ->]; split.
    + split; [|done]; eapply starting_db;
        [apply step_new_ingest_invocation|apply new_ingest_invocation_keeps|done].
    + split; [done|]; intros i; destruct H as [_ ->]; apply new_invocation_announced.
  - intros r; eapply hoare_bind; [apply (hoare_expect _ _ (fun i st e d => P st e d /\ st = st1
      /\ announced e d i))|intros i].
    + intros st e d (H & _); by eapply HP.
    + intros i st e d -> (H1 & H2 & H3); auto.
    + eapply hoare_bind; [apply (hoare_put_state _ _
        (under i (midblock (bh_index block) [] left)))|intros u; by apply hoare_ret].
      intros st e d ([H <-] & -> & Ha); split; [exact (starting_midblock _ _ _ _ _ H)|by split].
Qed.

(** ** Publishing the rows *)

(** After a block the server is idle, or it moved on to the next block. *)
Definition finished (blk : Z) : pred := fun st e d =>
  server_inv st e d /\ (ics_mode st = Idle \/ ics_next_block_index st = blk + 1).

Lemma finished_stored blk st e d : finished blk st e d -> stored d.
Proof. intros [H _]; by eapply server_inv_stored. Qed.

(** The rows that are added are those that were pending. *)
Lemma published_inv iid blk rows st e d d' b :
  under iid (midblock blk rows 0) st e d -> is_u64 (blk + 1) -> db_step d d' ->
  db_ingested_blocks d' = db_ingested_blocks d ++ [b] -> ib_block_number b = as_i64 blk ->
  encode_block_data rows = Ok (ib_proto_ingested_block_data b) ->
  forall st', increment_next_block_index st = Ret st' -> finished blk st' e d'.
Proof.
  intros [(Hd & Hb & Hn & Hact & Hroom & _ & used & Hs) [Hiid Ha]] Hb' Hstep Hblocks Hnum Henc st'.
  unfold increment_next_block_index, is_idle; rewrite bool_decide_false by congruence.
  intros [= <-]; destruct (landed_append d d' b rows Hblocks (Hcodec _ _ Henc)) as [Hl Ht].
  rewrite Hnum, as_u64_as_i64 in Hl by done.
  assert (Hw : blk +w 1 = blk + 1) by (by apply u64_add_small).
  unfold finished, server_inv; simpl; rewrite Hn, Hw; split; [|by right].
  split; [by eapply db_step_wf|]; split; [done|]; split; [congruence|].
  split; [intros i [= <-]%(eq_trans (eq_sym Hiid)); by eapply announced_step|].
  exists used; split; [|congruence].
  rewrite Hl, Ht; replace (blk + 1 - 1) with blk by lia; done.
Qed.

Lemma hoare_publish_rows fuel block ts iid rows :
  is_u64 (bh_index block + 1) ->
  hoare (under iid (midblock (bh_index block) rows 0)) (publish_rows config fuel block ts iid rows)
    (fun _ => finished (bh_index block)).
Proof.
  intros Hu; induction fuel as [|fuel IH]; simpl; [intros s; apply under_stored|].
  set (mid := under iid (midblock (bh_index block) rows 0)) in *.
  eapply hoare_bind; [apply (hoare_db _ _ (fun r st e d => match r with
    | Ok status => if block_already_scanned_with_this_key status then mid st e d
        else stored d /\ ics_mode st = Active /\
             forall st', increment_next_block_index st = Ret st' -> finished (bh_index block) st' e d
    | Err _ => mid st e d
    end))|].
  - intros st e d pool now Hm.
    pose proof (step_add_block_data d pool now encode_block_data iid block ts rows) as Hstep.
    destruct (add_block_data _ _ _ _ _ _ _ d) as [r d'] eqn:Hcall; simpl in *.
    apply add_block_data_blocks in Hcall.
    assert (Hkeep : db_ingested_blocks d' = db_ingested_blocks d -> mid st e d').
    { destruct Hm as (Hm & Hiid & Ha); intros Hk; split; [by eapply midblock_db|].
      split; [done|by eapply announced_step]. }
    destruct r as [status|err]; [|auto].
    destruct (block_already_scanned_with_this_key status); [auto|].
    destruct Hcall as (data & b & Henc & Hblocks & Hnum & <- & _).
    assert (Hfin := published_inv iid (bh_index block) rows st e d d' b Hm Hu Hstep Hblocks Hnum Henc).
    destruct Hm as [(_ & _ & _ & Hact & _) _]; split; [|by split].
    unfold increment_next_block_index, is_idle in Hfin; rewrite bool_decide_false in Hfin by congruence.
    eapply finished_stored, Hfin; done.
  - intros [status|err]; [|exact IH].
    apply hoare_with_guard; [|intros st0; destruct (block_already_scanned_with_this_key status)].
    + intros st e d H; destruct (block_already_scanned_with_this_key status);
        [by eapply under_stored|by destruct H].
    + apply hoare_replace_key; [intros st e d [[H _] ->]; by eapply midblock_set_idle|].
      intros s [Hs1 Hs2]; split; [exact Hs1|by left].
    + destruct (increment_next_block_index st0) as [st1|] eqn:Hinc.
      * apply hoare_put_state; intros st e d [(_ & _ & H) ->]; by apply H.
      * intros s [(H & _) _]; exact H.
Qed.

(** Processing a block keeps the server in order, unless the enclave gave up on a chunk. *)
Lemma hoare_process_next_block fuel block outputs ts :
  is_u64 (bh_index block + 1) ->
  hoare (fun st e d => server_inv st e d /\ ics_mode st = Active
           /\ rows_total d + Z.of_nat (length outputs) < u64_modulus)
    (process_next_block config fuel block outputs ts)
    (fun _ st e d => finished (bh_index block) st e d \/ gave_up (bh_index block) st e d).
Proof.
  intros Hu; set (left := Z.of_nat (length outputs)).
  eapply hoare_bind; [apply hoare_quiet; [apply quiet_ingress_pubkey|]|intros key].
  { intros st e d [H _]; by eapply server_inv_stored. }
  eapply hoare_bind; [apply hoare_kex_rng_pubkey|intros k].
  { intros st e d [H _]; by eapply server_inv_stored. }
  eapply hoare_bind; [apply (hoare_begin_block block key left k)|intros [iid|]].
  2:{ apply hoare_ret; intros st e d [H1 H2]; left; split; auto. }
  apply hoare_assert; [apply under_stored|intros _].
  apply hoare_assert; [apply under_stored|intros _].
  eapply hoare_bind; [eapply hoare_weaken; [apply hoare_ingest_chunks| |]|].
  - intros st e d [Hm H]; split; [|exact H].
    destruct Hm as (H1 & H2 & H3 & H4 & H5 & H6); split; [done|]; split; [done|]; split; [done|].
    split; [done|]; split; [|done]; simpl in *.
    pose proof (chunks_length (cfg_max_transactions config) outputs); lia.
  - intros r st e d H; exact H.
  - intros [[iid' rows]|]; [|apply hoare_ret; by right].
    eapply hoare_bind; [by apply hoare_publish_rows|intros u].
    eapply hoare_weaken; [apply hoare_quiet; [apply quiet_write_state_file|]| |].
    + intros st e d; apply finished_stored.
    + done.
    + intros b st e d H; by left.
Qed.

(** ** The other operations of the controller *)

Definition keeps_order {B} (m : srv B) : Prop := hoare server_inv m (fun _ => server_inv).

Lemma keeps_quiet {B} (m : srv B) : quiet m -> keeps_order m.
Proof. intros Hm; apply hoare_quiet; [done|apply server_inv_stored]. Qed.

Lemma server_inv_sessions : session_free server_inv.
Proof.
  intros st e e' d (_ & H1 & H2 & H3) (Hd & Hn & Hi & Ha & used & Hs & Hz).
  split; [done|]; split; [done|]; split; [done|]; unfold announced; rewrite H1.
  split; [done|]; exists used; split; [by eapply in_step_same_egress|done].
Qed.

Lemma idle_sessions : session_free idle.
Proof. intros st e e' d He [H1 H2]; split; [by eapply server_inv_sessions|done]. Qed.

Lemma keeps_calm {B} (m : srv B) : calm m -> keeps_order m.
Proof. intros Hm; by apply hoare_calm; [|apply server_inv_sessions|apply server_inv_stored]. Qed.

Lemma keeps_bind {B D} (m : srv B) (f : B -> srv D) :
  keeps_order m -> (forall b, keeps_order (f b)) -> keeps_order (m ≫= f).
Proof. intros Hm Hf; eapply hoare_bind; [exact Hm|exact Hf]. Qed.

Lemma keeps_db {B} (op : result unit Z -> Z -> tx B) :
  (forall pool now d, (op pool now d).2 = d \/ db_step d (op pool now d).2
     /\ db_ingested_blocks (op pool now d).2 = db_ingested_blocks d) ->
  keeps_order (db_call op).
Proof.
  intros Hop; apply hoare_db; intros st e d pool now Hs.
  destruct (Hop pool now d) as [->|[H1 H2]]; [done|by eapply server_inv_db].
Qed.

(** A state that differs in the peers and the expiry window only; the index also when idle. *)
Lemma server_inv_same st st' e d :
  ics_mode st' = ics_mode st -> ics_ingest_invocation_id st' = ics_ingest_invocation_id st ->
  ics_next_block_index st' = ics_next_block_index st ->
  server_inv st e d -> server_inv st' e d.
Proof. unfold server_inv; by intros -> -> ->. Qed.

(** Without an invocation nothing was published under the egress key: any block may be next. *)
Lemma server_inv_restart st st' e d :
  ics_ingest_invocation_id st = None -> ics_ingest_invocation_id st' = None ->
  is_u64 (ics_next_block_index st') -> server_inv st e d -> server_inv st' e d.
Proof.
  intros Hnone Hnone' Hu (Hd & _ & _ & _ & used & Hs & Hz); specialize (Hz Hnone).
  split; [done|]; split; [done|]; split; [done|]; split; [by rewrite Hnone'|].
  exists used; split; [|done]; destruct Hs; split; try done.
  intros p i b Hp Hi; specialize (Hz p Hp); lia.
Qed.

Lemma keeps_change_keys f : rekeys f -> keeps_order (change_keys config f).
Proof.
  intros Hf s Hs; destruct (is_idle (sv_state s)) eqn:Hidle.
  - unfold is_idle in Hidle; apply bool_decide_eq_true in Hidle.
    pose proof (hoare_change_keys f Hf s (server_inv_needs_key _ _ _ Hs Hidle)) as H.
    destruct (change_keys config f s); [apply H|done..].
  - unfold change_keys, mbind, srv_bind, get_state; by rewrite Hidle.
Qed.

Lemma keeps_take_key msg :
  keeps_order (enclave_call (fun e => Ret (set_ingress_private_key e msg))).
Proof.
  apply hoare_enclave; [apply server_inv_stored|].
  intros st e d b e' (Hd & Hn & Hi & Ha & used & Hs & Hz) [= Hcall].
  destruct (set_ingress_private_key_spec _ _ _ _ Hcall) as (H1 & H2 & H3).
  split; [done|]; split; [done|]; split; [done|]; unfold announced; rewrite H1.
  split; [done|]; exists used; split; [by eapply in_step_same_egress|done].
Qed.

Lemma keeps_session_call {B} (f : SgxIngestEnclave -> B * SgxIngestEnclave) :
  (forall e, same_keys e (f e).2) -> keeps_order (enclave_call (fun e => Ret (f e))).
Proof.
  intros Hf; apply hoare_enclave; [apply server_inv_stored|]; intros st e d b e' Hs [= Hcall].
  eapply server_inv_sessions; [|exact Hs]; specialize (Hf e); by rewrite Hcall in Hf.
Qed.

Lemma keeps_give_key session : keeps_order (controller_get_ingress_private_key session).
Proof. apply keeps_session_call; intros e; apply give_key_same_keys. Qed.

Lemma keeps_peer_accept req : keeps_order (controller_peer_accept req).
Proof. apply keeps_session_call; intros e; apply on_ake_same_keys. Qed.

Lemma keeps_publish_report key : keeps_order (publish_report config key).
Proof. apply hoare_publish_report; [apply server_inv_stored|apply server_inv_db]. Qed.

Lemma keeps_with_guard {B} (f : IngestControllerState -> srv B) :
  (forall st0, hoare (fun st e d => server_inv st e d /\ st = st0) (f st0) (fun _ => server_inv)) ->
  keeps_order (with_guard f).
Proof. apply hoare_with_guard, server_inv_stored. Qed.

Lemma keeps_guard {B} (f : IngestControllerState -> srv B) :
  (forall st0, keeps_order (f st0)) -> keeps_order (with_guard f).
Proof.
  intros Hf; apply keeps_with_guard; intros st0.
  eapply hoare_weaken; [apply Hf|by intros st e d []|done].
Qed.

Create HintDb keeps.
Hint Resolve keeps_guard keeps_quiet keeps_publish_report keeps_take_key keeps_change_keys rekeys_new_keys
  rekeys_new_egress_key : keeps.
Ltac solve_keeps :=
  repeat first [ solve [eauto with keeps] | solve [apply keeps_quiet; solve_quiet]
               | solve [apply keeps_calm; solve_calm]
               | apply keeps_bind; [|intros ?] | apply keeps_guard; intros ? | case_match ].

Lemma keeps_controller_new_keys : keeps_order (controller_new_keys config).
Proof. unfold controller_new_keys, new_keys_inner; solve_keeps. Qed.

Lemma keeps_controller_set_ingress_private_key msg :
  keeps_order (controller_set_ingress_private_key config msg).
Proof. unfold controller_set_ingress_private_key; solve_keeps. Qed.

Lemma keeps_sync_keys_from_remote remote : keeps_order (sync_keys_from_remote config remote).
Proof. unfold sync_keys_from_remote; solve_keeps. Qed.

Lemma keeps_set_retired b : keeps_order (set_retired b).
Proof.
  unfold set_retired; solve_keeps; apply keeps_db; intros pool now d; right.
  split; [apply step_retire_ingress_key|apply retire_ingress_key_keeps].
Qed.

Lemma keeps_report_lost key : keeps_order (controller_report_lost_ingress_key key).
Proof.
  apply keeps_db; intros pool now d; right.
  split; [apply step_report_lost_ingress_key|apply report_lost_ingress_key_keeps].
Qed.

Lemma set_peers_same st peers :
  ics_mode (set_peers st peers) = ics_mode st
  /\ ics_ingest_invocation_id (set_peers st peers) = ics_ingest_invocation_id st
  /\ ics_next_block_index (set_peers st peers) = ics_next_block_index st.
Proof. unfold set_peers; by case_match. Qed.

Lemma hoare_set_peers_inner (P : pred) peers :
  (forall st e d, P st e d -> stored d) ->
  (forall st e d peers, P st e d -> P (set_peers st peers) e d) ->
  hoare P (set_peers_inner config peers) (fun _ => P).
Proof.
  intros HP Hset; unfold set_peers_inner.
  destruct (peers_by_responder_id peers ∅) as [m|err]; [|by apply hoare_ret].
  destruct (m !! cfg_local_node_id config); [|by apply hoare_ret].
  apply hoare_get_state; intros st0.
  eapply hoare_bind; [apply (hoare_put_state _ _ P)|intros u; by apply hoare_ret].
  intros st e d [H ->]; by apply Hset.
Qed.

Lemma server_inv_set_peers st e d peers : server_inv st e d -> server_inv (set_peers st peers) e d.
Proof.
  destruct (set_peers_same st peers) as (H1 & H2 & H3); by apply (server_inv_same st).
Qed.

Lemma keeps_set_peers peers : keeps_order (controller_set_peers config peers).
Proof.
  apply keeps_guard; intros st0.
  apply hoare_set_peers_inner; [apply server_inv_stored|apply server_inv_set_peers].
Qed.

Lemma set_window_same st v r st' :
  set_pubkey_expiry_window st v = (r, st') ->
  ics_mode st' = ics_mode st /\ ics_ingest_invocation_id st' = ics_ingest_invocation_id st
  /\ ics_next_block_index st' = ics_next_block_index st.
Proof. unfold set_pubkey_expiry_window; intros H; repeat case_match; by simplify_eq. Qed.

Lemma keeps_set_window v : keeps_order (controller_set_pubkey_expiry_window v).
Proof.
  apply keeps_with_guard; intros st0; destruct (set_pubkey_expiry_window st0 v) as [r st1] eqn:Hset.
  apply set_window_same in Hset as (H1 & H2 & H3).
  eapply hoare_bind; [apply (hoare_put_state _ _ server_inv)|intros u; by apply hoare_ret].
  intros st e d [H ->]; by apply (server_inv_same st0).
Qed.

(** ** Activation and restoring *)

Lemma idle_stored st e d : idle st e d -> stored d.
Proof. intros [H _]; by eapply server_inv_stored. Qed.

Lemma idle_db st e d d' :
  db_step d d' -> db_ingested_blocks d' = db_ingested_blocks d -> idle st e d -> idle st e d'.
Proof. intros H1 H2 [H3 H4]; split; [by eapply server_inv_db|done]. Qed.

Lemma is_u64_wrap z : is_u64 (wrap64 z).
Proof. apply Z.mod_pos_bound; unfold u64_modulus; lia. Qed.

Lemma is_u64_next (o : option Z) v : is_u64 v -> is_u64 (default v ((fun x => x +w 1) <$> o)).
Proof. destruct o; intros Hv; [apply is_u64_wrap|exact Hv]. Qed.

(** Reads of the database with what they give. *)
Lemma hoare_read {B} (P : pred) (op : result unit Z -> Z -> tx B) (X : B -> Prop) :
  (forall pool now d, (op pool now d).2 = d /\ forall b, (op pool now d).1 = Ok b -> X b) ->
  hoare P (db_call op) (fun r st e d => P st e d /\ forall b, r = Ok b -> X b).
Proof.
  intros Hop; apply hoare_db; intros st e d pool now Hs; destruct (Hop pool now d) as [-> HX]; auto.
Qed.

Lemma get_ingress_key_status_reads key pool d :
  (get_ingress_key_status pool key d).2 = d
  /\ forall s, (get_ingress_key_status pool key d).1 = Ok (Some s) -> is_u64 (ks_start_block s).
Proof.
  unfold get_ingress_key_status, with_conn; destruct pool as [[]|]; [|done].
  unfold get_ingress_key_status_impl, mbind, tx_bind, tx_get; simpl; split; [done|].
  intros s [= H]; destruct (db_ingress_keys d !! key) as [k|]; [|done].
  injection H as <-; apply is_u64_wrap.
Qed.

Lemma hoare_find_start_block key n :
  is_u64 n ->
  hoare idle (find_start_block key n)
    (fun r st e d => idle st e d /\ forall start, r = Ok start -> is_u64 start).
Proof.
  intros Hn; eapply hoare_bind; [apply (hoare_read _ _ (fun o =>
    forall s, o = Some s -> is_u64 (ks_start_block s)))|].
  { intros pool now d; destruct (get_ingress_key_status_reads key pool d) as [H1 H2].
    split; [exact H1|by intros b H s ->; apply H2]. }
  intros [[status|]|err]; [| |by apply hoare_ret; intros st e d [H _]].
  - eapply hoare_bind; [apply (hoare_read _ _ (fun _ => True))|].
    { intros pool now d; by destruct pool as [[]|]. }
    intros [last|err]; apply hoare_ret; [|by intros st e d [[H _] _]].
    intros st e d [[H Hs] _]; split; [done|]; intros start [= <-]; apply is_u64_next; eauto.
  - eapply hoare_bind; [apply (hoare_read _ _ (fun _ => True))|].
    { intros pool now d; by destruct pool as [[]|]. }
    intros [highest|err]; [|by apply hoare_ret; intros st e d [[H _] _]].
    eapply hoare_bind; [apply (hoare_db _ _ (fun _ => idle))|].
    { intros st e d pool now [[H _] _]; eapply idle_db;
        [apply step_new_ingress_key|apply new_ingress_key_keeps|done]. }
    intros r; apply hoare_ret; intros st e d H; split; [done|]; intros start Hst.
    destruct r as [[|]|err]; simplify_eq/=.
    pose proof (is_u64_next highest 0 ltac:(done)); unfold is_u64 in *; lia.
Qed.

(** An idle server may be moved to any block, and activated there. *)
Lemma idle_restart st st' e d :
  idle st e d -> ics_ingest_invocation_id st' = ics_ingest_invocation_id st ->
  is_u64 (ics_next_block_index st') -> server_inv st' e d.
Proof.
  intros [Hinv Hidle] Hiid Hu; pose proof Hinv as (_ & _ & Hnone & _).
  specialize (Hnone Hidle); apply (server_inv_restart st); congruence.
Qed.

Lemma set_next_idle st n r st' :
  ics_mode st = Idle -> set_next_block_index st n = (r, st') ->
  ics_mode st' = Idle /\ ics_ingest_invocation_id st' = ics_ingest_invocation_id st
  /\ ics_next_block_index st' = n.
Proof.
  unfold set_next_block_index; intros Hidle; rewrite bool_decide_true by done; by intros [= <- <-].
Qed.

Lemma hoare_finish_activation key start :
  is_u64 start -> hoare idle (finish_activation config key start) (fun _ => server_inv).
Proof.
  intros Hu; set (P := fun st e d => idle st e d /\ is_u64 (ics_next_block_index st)).
  assert (HP : forall st e d, P st e d -> stored d) by (intros st e d [H _]; by eapply idle_stored).
  apply hoare_get_state; intros st0; destruct (set_next_block_index st0 start) as [r st1] eqn:Hset.
  eapply hoare_bind; [apply hoare_quiet; [apply quiet_expect|]|intros u].
  { intros st e d [H _]; by eapply idle_stored. }
  eapply hoare_bind; [apply (hoare_put_state _ _ P)|intros u'].
  { intros st e d [H ->]; destruct (set_next_idle _ _ _ _ (proj2 H) Hset) as (H1 & H2 & H3).
    unfold P; rewrite H3; split; [|done]; split; [|done].
    by apply (idle_restart st0); [|done|rewrite H3]. }
  eapply hoare_bind; [apply (hoare_publish_report P key HP)|intros [status|err]].
  { intros st e d d' H1 H2 [H3 H4]; split; [by eapply idle_db|done]. }
  2:{ by apply hoare_ret; intros st e d [[H _] _]. }
  destruct (_ && _); [by apply hoare_ret; intros st e d [[H _] _]|].
  apply hoare_get_state; intros st2.
  eapply hoare_bind; [apply (hoare_put_state _ _ server_inv)|intros u2; by apply hoare_ret].
  intros st e d [[H Hn] ->]; by apply (idle_restart st2).
Qed.

Lemma hoare_on_idle {B} (m : IngestControllerState -> srv B) (Q : B -> pred) :
  (forall st0, ics_mode st0 = Idle -> hoare (fun st e d => idle st e d /\ st = st0) (m st0) Q) ->
  (forall st0, ics_mode st0 = Active -> hoare server_inv (m st0) Q) ->
  hoare server_inv (with_guard m) Q.
Proof.
  intros H1 H2; apply hoare_with_guard; [apply server_inv_stored|intros st0].
  destruct (ics_mode st0) eqn:Hm.
  - eapply hoare_weaken; [by apply H1| |done]; intros st e d [H ->]; by split; [split|].
  - eapply hoare_weaken; [by apply H2| |done]; by intros st e d [H ->].
Qed.

Lemma keeps_try_activate n : is_u64 n -> keeps_order (try_activate config n).
Proof.
  intros Hn; apply hoare_on_idle; intros st0 Hmode; unfold is_active; rewrite Hmode.
  2:{ rewrite bool_decide_true by done; solve_keeps. }
  rewrite bool_decide_false by done.
  eapply hoare_weaken with (P := idle) (Q := fun _ => server_inv); [|by intros st e d [H _]|done].
  eapply hoare_bind; [apply hoare_quiet; [solve_quiet|apply idle_stored]|intros [[]|err]].
  2:{ by apply hoare_ret; intros st e d [H _]. }
  eapply hoare_bind; [apply hoare_quiet; [solve_quiet|apply idle_stored]|intros conns].
  eapply hoare_bind; [apply hoare_calm; [solve_calm|apply idle_sessions|apply idle_stored]|intros [sums|err]].
  2:{ by apply hoare_ret; intros st e d [H _]. }
  eapply hoare_bind; [apply hoare_quiet; [solve_quiet|apply idle_stored]|intros key].
  eapply hoare_bind; [apply hoare_calm; [solve_calm|apply idle_sessions|apply idle_stored]|intros [[]|err]].
  2:{ by apply hoare_ret; intros st e d [H _]. }
  eapply hoare_bind; [by apply hoare_find_start_block|intros [start|err]].
  2:{ by apply hoare_ret; intros st e d [[H _] _]. }
  apply (hoare_pure _ (is_u64 start)); [intros st e d [_ H]; by apply H|intros Hu].
  eapply hoare_bind; [eapply hoare_weaken; [by apply (hoare_finish_activation key start)| |done]|].
  - by intros st e d [H _].
  - intros r; by apply hoare_ret.
Qed.

Lemma keeps_activate n : is_u64 n -> keeps_order (activate config n).
Proof. intros Hn; pose proof (keeps_try_activate n Hn); unfold activate; solve_keeps. Qed.

Lemma hoare_expect_bind {B D X} (P : pred) (r : result B X) (f : B -> srv D) (Q : D -> pred) :
  (forall st e d, P st e d -> stored d) -> (forall b, r = Ok b -> hoare P (f b) Q) ->
  hoare P (expect r ≫= f) Q.
Proof.
  intros HP Hf s Hs; unfold mbind, srv_bind.
  destruct r as [b|x]; [by apply (Hf b)|by eapply HP].
Qed.

Lemma keeps_restore_state data :
  is_u64 (sum_next_block_index data) -> keeps_order (restore_state_from_summary config data).
Proof.
  intros Hu; apply hoare_on_idle; intros st0 Hmode; unfold is_idle; rewrite Hmode.
  2:{ rewrite bool_decide_false by done; solve_keeps. }
  rewrite bool_decide_true by done; cbn [negb].
  eapply hoare_weaken with (P := idle) (Q := fun _ => server_inv); [|by intros st e d [H _]|done].
  destruct (get_sorted_peers data) as [peers|err]; [|by apply hoare_ret; intros st e d [H _]].
  eapply hoare_bind; [apply hoare_calm; [solve_calm|apply idle_sessions|apply idle_stored]|intros [[]|err]].
  2:{ by apply hoare_ret; intros st e d [H _]. }
  eapply hoare_bind; [apply (hoare_set_peers_inner idle); [apply idle_stored|]|intros [[]|err]].
  { intros st e d ps [H1 H2]; split; [by apply server_inv_set_peers|].
    by rewrite (proj1 (set_peers_same st ps)). }
  2:{ by apply hoare_ret; intros st e d [H _]. }
  apply hoare_get_state; intros st1.
  destruct (set_pubkey_expiry_window st1 _) as [r1 st2] eqn:Hwin.
  apply hoare_expect_bind; [intros st e d [H _]; by eapply idle_stored|intros u1 Hr1].
  destruct (set_next_block_index st2 _) as [r2 st3] eqn:Hnext.
  apply hoare_expect_bind; [intros st e d [H _]; by eapply idle_stored|intros u2 Hr2].
  eapply hoare_bind; [apply (hoare_put_state _ _ server_inv)|intros u; by apply hoare_ret].
  intros st e d [H ->]; apply set_window_same in Hwin as (W1 & W2 & W3).
  destruct (set_next_idle st2 _ _ _ (eq_trans W1 (proj2 H)) Hnext) as (N1 & N2 & N3).
  destruct (sum_mode data); apply (idle_restart st1); simpl; congruence.
Qed.

(** ** Histories of a server *)

(** Another user of the database: rows for keys that are not in play may appear. *)
Record foreign (d d' : Db) : Prop := {
  foreign_step : db_step d d';
  foreign_room : rows_total d' < u64_modulus;
  foreign_landed : forall s i, secret_in_play users egresses s -> is_u64 i ->
    landed_db d' !! output blake2b s i = landed_db d !! output blake2b s i;
}.

(** The calls of the controller's services and of its peer checkup thread. *)
Inductive operation : forall B, srv B -> Prop :=
| op_new_keys : operation _ (controller_new_keys config)
| op_peer_accept req : operation _ (controller_peer_accept req)
| op_get_ingress_private_key session : operation _ (controller_get_ingress_private_key session)
| op_set_ingress_private_key msg : operation _ (controller_set_ingress_private_key config msg)
| op_peer_checkup : operation _ (peer_checkup config)
| op_activate n : is_u64 n -> operation _ (activate config n)
| op_retire : operation _ retire
| op_unretire : operation _ unretire
| op_sync_keys_from_remote uri : operation _ (sync_keys_from_remote config uri)
| op_set_pubkey_expiry_window v : operation _ (controller_set_pubkey_expiry_window v)
| op_set_peers peers : operation _ (controller_set_peers config peers)
| op_report_lost_ingress_key key : operation _ (controller_report_lost_ingress_key key)
| op_get_ingest_summary : operation _ get_ingest_summary
| op_get_missed_block_ranges : operation _ controller_get_missed_block_ranges
| op_start_controller data :
    (forall f, data = Some f -> is_u64 (sum_next_block_index f.1)) ->
    operation _ (start_controller config data).

(** The worker calls [process_next_block] on an active server. *)
Definition block_room (s : Server) (block : BlockHeader) (outputs : list TxOut) : Prop :=
  ics_mode (sv_state s) = Active /\ is_u64 (bh_index block + 1)
  /\ rows_total (sv_db s) + Z.of_nat (length outputs) < u64_modulus.

(** The enclave gave up: the server is active and still at the block. *)
Definition stuck (s : Server) (block : BlockHeader) : Prop :=
  ics_mode (sv_state s) = Active /\ ics_next_block_index (sv_state s) = bh_index block.

Definition with_db (s : Server) (d : Db) : Server :=
  mkServer (sv_state s) (sv_locked s) (sv_enclave s) d (sv_last_sealed_key s) (sv_state_file s) (sv_env s).

Inductive server_reach : Server -> Prop :=
| reach_start s r e0 id sealed cap :
    sv_state s = IngestControllerState_new config ->
    enclave_init e0 id sealed cap = (Ok tt, sv_enclave s) ->
    random_private r = (ie_egress_key e0, ie_rng e0) ->
    db_reachable (sv_db s) -> rows_total (sv_db s) < u64_modulus ->
    (forall x i, secret_in_play users egresses x -> is_u64 i ->
       landed_db (sv_db s) !! output blake2b x i = None) ->
    server_reach s
| reach_op B (m : srv B) s b s' :
    server_reach s -> operation B m -> m s = Done b s' -> server_reach s'
| reach_block fuel block outputs ts s s' :
    server_reach s -> block_room s block outputs ->
    process_next_block config fuel block outputs ts s = Done tt s' -> ~ stuck s' block ->
    server_reach s'
| reach_foreign s d' :
    server_reach s -> foreign (sv_db s) d' -> server_reach (with_db s d').

(** The states in which a call from a reachable state returns or stops. *)
Inductive server_seen : Server -> Prop :=
| seen_reach s : server_reach s -> server_seen s
| seen_op B (m : srv B) s : server_reach s -> operation B m -> server_seen (after (m s))
| seen_block fuel block outputs ts s :
    server_reach s -> block_room s block outputs ->
    server_seen (after (process_next_block config fuel block outputs ts s)).

Lemma keeps_get_missed : keeps_order controller_get_missed_block_ranges.
Proof.
  apply keeps_db; intros pool now d; left; unfold get_missed_block_ranges, with_conn.
  destruct pool as [[]|]; [|done]; unfold get_missed_block_ranges_impl, mbind, tx_bind, tx_get, tx_lift.
  by destruct (missed_ranges _).
Qed.

Lemma keeps_start_controller data :
  (forall f, data = Some f -> is_u64 (sum_next_block_index f.1)) ->
  keeps_order (start_controller config data).
Proof.
  intros Hu; apply keeps_bind; [|intros u; solve_keeps].
  destruct data as [[summary key]|]; [|solve_keeps].
  pose proof (keeps_restore_state summary (Hu _ eq_refl)); solve_keeps.
Qed.

Lemma operation_keeps B (m : srv B) : operation B m -> keeps_order m.
Proof.
  intros []; [apply keeps_controller_new_keys|apply keeps_peer_accept|apply keeps_give_key|apply keeps_controller_set_ingress_private_key
    |apply keeps_calm, calm_peer_checkup|by apply keeps_activate|apply keeps_set_retired
    |apply keeps_set_retired|apply keeps_sync_keys_from_remote|apply keeps_set_window
    |apply keeps_set_peers|apply keeps_report_lost|apply keeps_quiet, quiet_summary
    |apply keeps_get_missed|by apply keeps_start_controller].
Qed.

Lemma start_inv st e d r e0 id sealed cap :
  st = IngestControllerState_new config -> enclave_init e0 id sealed cap = (Ok tt, e) ->
  random_private r = (ie_egress_key e0, ie_rng e0) -> db_wf d -> rows_total d < u64_modulus ->
  (forall x i, secret_in_play users egresses x -> is_u64 i ->
     landed_db d !! output blake2b x i = None) -> server_inv st e d.
Proof.
  intros -> Hinit Hr Hd Hroom Hnone.
  assert (He : ie_egress_key e = ie_egress_key e0 /\ ie_rng e = ie_rng e0
    /\ ie_rng_store e = Some (RngStore_new cap)).
  { unfold enclave_init in Hinit; repeat case_match; by simplify_eq/=. }
  destruct He as (H1 & H2 & H3).
  split; [done|]; split; [by vm_compute|]; split; [done|]; split; [done|].
  exists (fun _ => 0); split; [|done]; rewrite <- H1, <- H2 in Hr; split.
  - by exists (RngStore_new cap).
  - by eapply in_play_egress.
  - by eapply drawn_private_fresh.
  - split; try (intros; lia); [|intros s; unfold rows_total; lia|auto].
    unfold rows_total in *; lia.
  - intros p i b _ Hi; lia.
  - intros p _; unfold enclave_count; rewrite H3; apply count_new.
  - intros x p _ _ Hu; lia.
Qed.

Lemma rows_total_mono d d' : db_step d d' -> rows_total d <= rows_total d'.
Proof.
  intros Hstep; destruct (mono_blocks _ _ (db_step_mono _ _ Hstep)) as (new & Hb).
  unfold rows_total; rewrite Hb, sum_list_with_app; lia.
Qed.

Lemma foreign_inv st e d d' : foreign d d' -> server_inv st e d -> server_inv st e d'.
Proof.
  intros [Hstep Hroom Hl] (Hd & Hn & Hidle & Ha & used & Hs & Hz).
  split; [by eapply db_step_wf|]; split; [done|]; split; [done|].
  split; [intros i Hi; eapply announced_step; eauto|].
  exists used; split; [|done]; apply rows_total_mono in Hstep; destruct Hs as [S1 S2 S3 S4 S5 S6 S7].
  split; try done.
  - apply (seq_inv_ext users egresses (landed_db d)); [done|]; destruct S4 as [T1 T2 T3 T4 T5].
    split; try done; [lia|]; intros s; specialize (T2 s); lia.
  - intros p i b Hp Hi; pose proof (seq_used _ _ _ _ _ S4 (key_exchange (ie_egress_key e) p)).
    rewrite Hl; [by apply S5|by exists (ie_egress_key e), p|].
    pose proof (seq_total _ _ _ _ _ S4); unfold is_u64; lia.
Qed.

Lemma reach_inv s : server_reach s -> holds server_inv s.
Proof.
  induction 1 as [s r e0 id sealed cap H1 H2 H3 H4 H5 H6|B m s b s' _ IH Hop Hm
    |fuel block outputs ts s s' _ IH (R1 & R2 & R3) Hm Hstuck|s d' _ IH Hf].
  - eapply start_inv; eauto using db_reachable_wf.
  - pose proof (operation_keeps B m Hop s IH) as H; by rewrite Hm in H.
  - pose proof (hoare_process_next_block fuel block outputs ts R2 s
      ltac:(split; [exact IH|by split])) as H; rewrite Hm in H.
    destruct H as [[H _]|(_ & H1 & H2)]; [done|by destruct Hstuck].
  - by eapply foreign_inv.
Qed.

Lemma seen_stored s : server_seen s -> stored (sv_db s).
Proof.
  destruct 1 as [s Hs|B m s Hs Hop|fuel block outputs ts s Hs (R1 & R2 & R3)];
    apply reach_inv in Hs.
  - by eapply server_inv_stored.
  - pose proof (operation_keeps B m Hop s Hs) as H.
    destruct (m s); [by eapply server_inv_stored|done..].
  - pose proof (hoare_process_next_block fuel block outputs ts R2 s
      ltac:(split; [exact Hs|by split])) as H.
    destruct (process_next_block config fuel block outputs ts s); [|done..].
    destruct H as [H|[H _]]; [by eapply finished_stored|done].
Qed.

(** The search keys an ingest server leaves in the recovery database are in order at any time:
    whatever the calls of the controller, the blocks it processes and the other users of the
    database do, and also when a call panics, keeps retrying or blocks, or the enclave gives up,
    an rng output is in the database only if all earlier outputs of the same egress key and user
    are there too, in the same or an earlier block, which is what polling users rely on. *)
Theorem server_keys_in_order s e p :
  server_seen s -> egresses e -> users p ->
  used_in_order (landed_db (sv_db s)) (key_exchange e p).
Proof.
  intros Hs He Hp; destruct (seen_stored s Hs) as (_ & used & Hseq).
  eapply seq_inv_used_in_order; [exact Hseq|by exists e, p].
Qed.

(** The invocation of a running server is announced with the egress key its enclave uses, and
    an idle server has none: rows are published only under the key that users are told about. *)
Theorem server_invocation_announced s :
  server_reach s ->
  match ics_ingest_invocation_id (sv_state s) with
  | None => True
  | Some iid => ics_mode (sv_state s) = Active
      /\ exists row, row ∈ db_ingest_invocations (sv_db s) /\ ii_id row = iid
           /\ ii_egress_public_key row = public_to_bytes (public_from (ie_egress_key (sv_enclave s)))
  end.
Proof.
  intros Hs; apply reach_inv in Hs as (_ & _ & Hidle & Ha & _).
  destruct (ics_ingest_invocation_id (sv_state s)) as [iid|]; [|done]; split; [|by apply Ha].
  destruct (ics_mode (sv_state s)); [by specialize (Hidle eq_refl)|done].
Qed.
End server.

(** ** A concrete server *)

Lemma demo_codec_ok : codec_ok (E := demo_env) demo_decode_rows.
Proof. intros rows data [= <-]; apply demo_rows_roundtrip. Qed.

Lemma is_done_after {OM' E'} {B} (o : outcome (Server (OM := OM') (E := E')) B) :
  is_done o = true -> exists b, o = Done b (after o).
Proof. destruct o as [b s|s|s|s]; [by exists b|done..]. Qed.

Definition demo_reach := server_reach (E := demo_env) demo_config demo_users demo_egresses
  demo_decode_rows.

Lemma demo_server0_reach : demo_reach demo_server0.
Proof.
  apply (reach_start (E := demo_env) _ _ _ _ _ 0%nat demo_server_enclave [1] None 8);
    [exact eq_refl|exact eq_refl|exact eq_refl|apply rtc_refl|exact eq_refl|].
  intros x i _ _; apply lookup_empty.
Qed.

Lemma demo_activated : exists b, activate demo_config 5 demo_server0 = Done b demo_server1.
Proof.
  destruct (is_done_after (activate demo_config 5 demo_server0)) as [b Hb]; [vm_compute; reflexivity|].
  exists b; unfold demo_server1; exact Hb.
Qed.

Lemma demo_server1_reach : demo_reach demo_server1.
Proof.
  assert (H5 : is_u64 5) by (by vm_compute); destruct demo_activated as [b Hb].
  exact (reach_op (E := demo_env) demo_config demo_users demo_egresses demo_decode_rows _
    (activate demo_config 5) demo_server0 b demo_server1 demo_server0_reach
    (op_activate (E := demo_env) demo_config 5 H5) Hb).
Qed.

Lemma demo_block_room :
  block_room (E := demo_env) demo_decode_rows demo_server1 demo_block (demo_tx <$> [10; 20; 10]).
Proof. split; [vm_compute; reflexivity|]; split; [by vm_compute|]; vm_compute; reflexivity. Qed.

Lemma demo_processed : exists b, demo_process demo_server1 = Done b demo_server2.
Proof.
  destruct (is_done_after (demo_process demo_server1)) as [b Hb]; [vm_compute; reflexivity|].
  exists b; unfold demo_server2; exact Hb.
Qed.

Lemma demo_not_stuck : ~ stuck (E := demo_env) demo_server2 demo_block.
Proof. intros [_ H]; vm_compute in H; discriminate. Qed.

Lemma demo_server2_reach : demo_reach demo_server2.
Proof.
  destruct demo_processed as [[] Hb].
  exact (reach_block (E := demo_env) demo_config demo_users demo_egresses demo_decode_rows 1
    demo_block (demo_tx <$> [10; 20; 10]) 55 demo_server1 demo_server2 demo_server1_reach
    demo_block_room Hb demo_not_stuck).
Qed.

(** The rows of the block are in the database, in order. *)
Lemma server_keys_in_order_witness :
  rows_total demo_decode_rows (sv_db demo_server2) = 3
  /\ used_in_order (U := demo_ingest_user) (landed_db demo_decode_rows (sv_db demo_server2))
       (key_exchange (Kex := demo_ingest_kex) 1000 10).
Proof.
  split; [vm_compute; reflexivity|].
  apply (server_keys_in_order (E := demo_env) demo_config demo_users demo_egresses demo_keys_in_play
    demo_decode_rows demo_codec_ok demo_server2 1000 10).
  - exact (seen_block (E := demo_env) demo_config demo_users demo_egresses demo_decode_rows 1
      demo_block (demo_tx <$> [10; 20; 10]) 55 demo_server1 demo_server1_reach demo_block_room).
  - unfold demo_egresses; lia.
  - unfold demo_users; lia.
Defined.

Lemma server_invocation_announced_witness :
  ics_ingest_invocation_id (sv_state demo_server2) = Some 1
  /\ exists row, row ∈ db_ingest_invocations (sv_db demo_server2) /\ ii_id row = 1
       /\ ii_egress_public_key row = [1000].
Proof.
  assert (Hiid : ics_ingest_invocation_id (sv_state demo_server2) = Some 1)
    by (vm_compute; reflexivity).
  split; [exact Hiid|].
  pose proof (server_invocation_announced (E := demo_env) demo_config demo_users demo_egresses
    demo_keys_in_play demo_decode_rows demo_codec_ok demo_server2 demo_server2_reach) as H.
  rewrite Hiid in H; destruct H as [_ (row & H1 & H2 & H3)]; exists row; split; [exact H1|].
  split; [exact H2|]; rewrite H3; vm_compute; reflexivity.
Defined.
