(* ===== verification/ControllerProgress.v ===== *)
(** * The loops of the ingest controller end

    Two loops of controller.rs have no bound of their own: the one that pairs
    the state file's summary with a sealed key, and the one that stores the
    rows of a block until the database answers.  The first ends in its second
    pass; the second ends with the first connection to the database. *)

From S2P Require Import Prelude FogTypes RecoveryTypes ObliviousMap KexRng UserRngSet IngestEnclave.
From S2P Require Import RecoveryDb RecoveryDbWf ControllerState IngestController.
From S2P Require Import IngestHistory IngestServerSpec.

Local Open Scope Z_scope.
Local Open Scope fog_scope.

Section progress.
Context `{C : IngestCrypto} `{OM : ObliviousHashMap} `{A : PeerAke} `{E : !IngestEnv}.
Context (config : IngestServerConfig).

(** A compressed key is read back from its bytes. *)
Definition compressed_ok : Prop :=
  forall p, compressed_try_from (public_to_bytes p) = Ok (public_to_bytes p).
Context (Hcompressed : compressed_ok).

(** ** The state file *)

Definition in_fuel {B} (o : outcome Server B) : Prop :=
  match o with OutOfFuel _ => False | _ => True end.

(** The summary is computed from the enclave, which stays as it is. *)
Lemma summary_inner_spec s :
  in_fuel (get_ingest_summary_inner s)
  /\ forall sm s', get_ingest_summary_inner s = Done sm s' ->
       s' = s /\ sum_ingress_pubkey sm
                 = public_to_bytes (public_from (ie_ingress_key (sv_enclave s))).
Proof.
  unfold get_ingest_summary_inner, ingress_pubkey_bytes, kex_rng_pubkey_expect, get_state,
    enclave_read, enclave_call, get_ingress_pubkey, mbind, srv_bind.
  destruct s as [st l e d k f env]; simpl; destruct (get_kex_rng_pubkey e) as [[k'|err]|]; simpl;
    unfold mbind, run_bind; simpl; [|done..].
  split; [done|]; by intros sm s' [= <- <-].
Qed.

(** A pass of the loop ends it, or drops a sealed key that was there before. *)
Lemma matching_sealed_key_pass n s :
  in_fuel (matching_sealed_key (S n) s)
  \/ sv_last_sealed_key s <> None /\ exists s', sv_last_sealed_key s' = None
       /\ matching_sealed_key (S n) s = matching_sealed_key n s'.
Proof.
  destruct (summary_inner_spec s) as [Hfuel Hsm]; cbn [matching_sealed_key].
  unfold mbind, srv_bind; destruct (get_ingest_summary_inner s) as [sm s'|s'|s'|s'];
    [|left; done..].
  destruct (Hsm sm s' eq_refl) as [-> ->]; rewrite Hcompressed; cbn [expect mret srv_ret].
  unfold get_last_sealed_key; destruct (sv_last_sealed_key s) as [sealed|]; cbn [mret srv_ret].
  - case_bool_decide; [by left|]; right; split; [done|].
    unfold put_last_sealed_key.
    exists (mkServer (sv_state s) (sv_locked s) (sv_enclave s) (sv_db s) None (sv_state_file s)
      (sv_env s)); done.
  - left; unfold enclave_read, get_sealed_ingress_private_key.
    destruct (seal_private_key _) as [k|err]; [|done]; simpl; by rewrite bool_decide_true.
Qed.

(** Two passes of the loop that pairs the summary with the sealed key are enough: the key sealed
    in the second pass is the enclave's. *)
Lemma matching_sealed_key_enough s : in_fuel (matching_sealed_key 2 s).
Proof.
  destruct (matching_sealed_key_pass 1 s) as [H|(_ & s1 & H1 & ->)]; [done|].
  by destruct (matching_sealed_key_pass 0 s1) as [H|(H & _)].
Qed.

(** ** Computations that use no fuel *)

Definition ends {B} (m : srv B) : Prop := forall s, in_fuel (m s).

Lemma ends_bind {B D} (m : srv B) (f : B -> srv D) : ends m -> (forall b, ends (f b)) -> ends (m ≫= f).
Proof.
  intros Hm Hf s; specialize (Hm s); unfold mbind, srv_bind.
  destruct (m s) as [b s'|s'|s'|s']; [apply Hf|done..].
Qed.

Lemma ends_ret {B} (b : B) : ends (mret b).
Proof. done. Qed.
Lemma ends_get_state : ends get_state.
Proof. done. Qed.
Lemma ends_put_state st : ends (put_state st).
Proof. done. Qed.
Lemma ends_lock_state : ends lock_state.
Proof. intros s; unfold lock_state; by destruct (sv_locked s). Qed.
Lemma ends_unlock_state : ends unlock_state.
Proof. done. Qed.
Lemma ends_panic {B} : ends (@panic _ _ _ _ _ _ B).
Proof. done. Qed.
Lemma ends_put_last_sealed_key k : ends (put_last_sealed_key k).
Proof. done. Qed.
Lemma ends_put_state_file f : ends (put_state_file f).
Proof. done. Qed.
Lemma ends_world {B} (f : Env -> B * Env) : ends (world f).
Proof. intros s; unfold world; by destruct (f (sv_env s)). Qed.
Lemma ends_assert b : ends (assert b).
Proof. by destruct b. Qed.
Lemma ends_expect {B X} (r : result B X) : ends (expect r).
Proof. by destruct r. Qed.
Lemma ends_db_call {B} (op : result unit Z -> Z -> tx B) : ends (db_call op).
Proof.
  intros s; unfold db_call; destruct (pool_get (sv_env s)) as [pool env].
  by destruct (clock env) as [now env'], (op pool now (sv_db s)).
Qed.
Lemma ends_enclave_call {B} (f : SgxIngestEnclave -> run (B * SgxIngestEnclave)) :
  ends (enclave_call f).
Proof. intros s; unfold enclave_call; by destruct (f (sv_enclave s)) as [[b e]|]. Qed.

Lemma ends_matching_sealed_key : ends (matching_sealed_key 2).
Proof. exact matching_sealed_key_enough. Qed.

Create HintDb ends.
Hint Resolve ends_ret ends_get_state ends_put_state ends_lock_state ends_unlock_state ends_panic
  ends_put_last_sealed_key ends_put_state_file ends_world ends_assert ends_expect ends_db_call
  ends_enclave_call ends_matching_sealed_key : ends.
Ltac solve_ends :=
  repeat first [ solve [eauto with ends] | apply ends_bind; [|intros ?] | case_match ].

Lemma ends_with_guard {B} (f : IngestControllerState -> srv B) :
  (forall st, ends (f st)) -> ends (with_guard f).
Proof. intros Hf; unfold with_guard; solve_ends. Qed.
Lemma ends_change_keys f : ends (change_keys config f).
Proof.
  unfold change_keys, decommission_ingest_invocation_id, write_state_file_inner; solve_ends.
Qed.
Hint Resolve ends_with_guard ends_change_keys : ends.

(** ** Storing the rows of a block *)

(** With a connection, the database answers for an invocation it knows. *)
Lemma add_block_data_answers now encode iid block ts txs d :
  db_wf d -> (exists r, r ∈ db_ingest_invocations d /\ ii_id r = iid) -> is_ok (encode txs) = true ->
  exists status, (add_block_data (Ok tt) now encode iid block ts txs d).1 = Ok status.
Proof.
  intros Hd (r & Hr & Hid) Henc.
  unfold add_block_data, with_conn, transaction, add_block_data_tx, mbind, tx_bind, tx_get, tx_lift.
  destruct (head (filter _ (db_ingest_invocations d))) as [r1|] eqn:Hhd.
  2:{ destruct (filter _ _) as [|x l] eqn:Hf; [|done]; exfalso.
      assert (Hin : r ∈ filter (fun r => ii_id r = iid) (db_ingest_invocations d))
        by (by apply list_elem_of_filter).
      rewrite Hf in Hin; by apply elem_of_nil in Hin. }
  apply head_Some_elem_of, list_elem_of_filter in Hhd as [Hid1 Hr1].
  destruct (encode txs) as [data|e]; [|done]; simpl; unfold insert_ingested_block.
  destruct (existsb _ _ || existsb _ _); [by eexists|].
  assert (Hinv : has_invocation d iid = true).
  { apply existsb_exists; exists r1; split; [by apply list_elem_of_In|by apply Z.eqb_eq]. }
  pose proof (proj1 (Forall_forall _ _) (wf_inv_keys d Hd) r1 Hr1) as [k Hk].
  rewrite Hinv, bool_decide_false by (by rewrite Hk); simpl; by eexists.
Qed.

(** The world after a try to reach the database. *)
Definition retry_env (env : Env) : Env := (clock (pool_get env).2).2.

(** Storing the rows of a block ends as soon as the database gives a connection: when the
    n-th retry gets one, the loop stops there, for rows that can be encoded and an invocation the
    database knows. *)
Theorem publish_rows_ends n fuel block ts iid rows s :
  db_wf (sv_db s) -> (exists r, r ∈ db_ingest_invocations (sv_db s) /\ ii_id r = iid) ->
  is_ok (encode_block_data rows) = true ->
  (pool_get (Nat.iter n retry_env (sv_env s))).1 = Ok tt -> (n < fuel)%nat ->
  in_fuel (publish_rows config fuel block ts iid rows s).
Proof.
  revert n s; induction fuel as [|fuel IH]; intros n s Hd Hiid Henc Hpool Hn; [lia|].
  cbn [publish_rows]; unfold mbind at 1, srv_bind, db_call.
  destruct (pool_get (sv_env s)) as [[[]|err] env] eqn:Hget; destruct (clock env) as [now env'] eqn:Hc.
  - destruct (add_block_data_answers now encode_block_data iid block ts rows (sv_db s) Hd Hiid Henc)
      as [status Hst].
    destruct (add_block_data _ _ _ _ _ _ _ (sv_db s)) as [r d']; simpl in Hst; subst r.
    apply ends_with_guard; intros st; unfold controller_new_egress_key; solve_ends.
  - destruct n as [|n]; [simpl in Hpool; by rewrite Hget in Hpool|].
    apply (IH n); [done..| |lia]; simpl.
    rewrite <- Hpool, Nat.iter_succ_r; do 3 f_equal; unfold retry_env.
    by rewrite Hget; simpl; rewrite Hc.
Qed.
End progress.

(** The server of the example, with its invocation in the database. *)
Lemma demo_server2_wf : db_wf (sv_db demo_server2).
Proof.
  exact (proj1 (reach_inv (E := demo_env) demo_config demo_users demo_egresses demo_keys_in_play
    demo_decode_rows demo_codec_ok demo_server2 demo_server2_reach)).
Qed.

Lemma demo_server2_invocation :
  exists r, r ∈ db_ingest_invocations (sv_db demo_server2) /\ ii_id r = 1.
Proof. vm_compute; eexists; split; [by left|reflexivity]. Qed.

Lemma publish_rows_ends_witness :
  in_fuel (publish_rows demo_config 1 (mkBlockHeader 6 200) 55 1 [] demo_server2).
Proof.
  apply (publish_rows_ends (E := demo_env) demo_config (fun p => eq_refl) 0 1 (mkBlockHeader 6 200)
    55 1 [] demo_server2 demo_server2_wf demo_server2_invocation).
  - reflexivity.
  - reflexivity.
  - lia.
Defined.
