(* ===== verification/ReportServer.v ===== *)
(** * The report server (src/fog/report/server/src)

    Clients take the ingress key of a fog service from a signed list of reports.
    The server loads its certificate chain and key (config.rs), and answers each
    request with the reports of the recovery database and a signature
    (service.rs).  Certificates, keys and signatures are parameters.  The theorem
    follows a report from the ingest server that publishes it, through the
    database, to a client that checks the signature against the chain. *)

From S2P Require Import Prelude FogTypes RecoveryTypes ObliviousMap.
From S2P Require Import KexRng UserRngSet IngestEnclave RecoveryDb RecoveryDbWf RecoveryDbSpec.
From S2P Require Import ControllerState PeerConnection IngestController.

Local Open Scope Z_scope.
Local Open Scope fog_scope.

(** ** Data *)

Record FogReport (Report : Type) := mkFogReport {
  fr_fog_report_id : bytes;
  fr_report : Report;
  fr_pubkey_expiry : Z;
}.
Global Arguments mkFogReport {Report}.
Global Arguments fr_fog_report_id {Report}.
Global Arguments fr_report {Report}.
Global Arguments fr_pubkey_expiry {Report}.

Record ReportResponse (Report : Type) := mkReportResponse {
  rr_reports : list (FogReport Report);
  rr_chain : list bytes;
  rr_signature : bytes;
}.
Global Arguments mkReportResponse {Report}.
Global Arguments rr_reports {Report}.
Global Arguments rr_chain {Report}.
Global Arguments rr_signature {Report}.

(** Certificates, keys and signatures. *)
Class ReportCrypto (Report : Type) := {
  Ed25519Pair : Type;
  Ed25519Public : Type;
  X509Certificate : Type;
  ed25519_eq_dec :: EqDecision Ed25519Public;
  pem_parse : bytes -> result bytes Z;
  pem_parse_many : bytes -> list bytes;
  ed25519_private_try_from_der : bytes -> result Ed25519Pair Z;
  ed25519_public_try_from_der : bytes -> result Ed25519Public Z;
  public_key_of : Ed25519Pair -> Ed25519Public;
  x509_iter : list bytes -> list X509Certificate;
  verify_chain : list X509Certificate -> result nat Z;
  x509_leaf : list X509Certificate -> result X509Certificate Z;
  spki : X509Certificate -> bytes;
  sign_reports : Ed25519Pair -> list (FogReport Report) -> result bytes unit;
}.

(** ** config.rs *)

Inductive MaterialsError :=
| MaterialsIo (e : Z)
| MaterialsPem (e : Z)
| MaterialsChain (e : Z)
| MaterialsKey (e : Z)
| ChainKeyMismatch.

Record Materials {R : Type} `{RC : ReportCrypto R} := mkMaterials {
  mat_chain : list bytes;
  mat_signing_keypair : Ed25519Pair;
}.

(** The errors of the service, and the status helpers they are turned into. *)
Inductive ReportServiceError :=
| ReportDbError (e : DbError)
| ReportDecode (e : Z)
| ReportSignature.

Inductive ReportRpcStatus := ReportRpcDatabase | ReportRpcInternal.

Section server.
Context {Report : Type} `{RC : !ReportCrypto Report}.
Context (decode_report : bytes -> result Report Z).

Definition from_ders_keypair (chain : list bytes) (signing_keypair : Ed25519Pair)
  : result Materials MaterialsError :=
  let x509_chain := x509_iter chain in
  let? _ := map_err MaterialsChain (verify_chain x509_chain) in
  let? leaf := map_err MaterialsChain (x509_leaf x509_chain) in
  let? chain_pubkey := map_err MaterialsKey (ed25519_public_try_from_der (spki leaf)) in
  if negb (bool_decide (public_key_of signing_keypair = chain_pubkey)) then Err ChainKeyMismatch
  else Ok (mkMaterials _ _ chain signing_keypair).

Definition from_pem_keypair (pem_chain : bytes) (signing_keypair : Ed25519Pair)
  : result Materials MaterialsError :=
  from_ders_keypair (pem_parse_many pem_chain) signing_keypair.

Definition from_pems (pem_chain pem_privkey : bytes) : result Materials MaterialsError :=
  let? contents := map_err MaterialsPem (pem_parse pem_privkey) in
  let? signing_keypair := map_err MaterialsKey (ed25519_private_try_from_der contents) in
  from_pem_keypair pem_chain signing_keypair.

(** From the two files of the configuration, which are read in this order. *)
Definition materials_try_from (signing_chain signing_key : result bytes Z)
  : result Materials MaterialsError :=
  let? chain := map_err MaterialsIo signing_chain in
  let? key := map_err MaterialsIo signing_key in
  from_pems chain key.

(** ** service.rs *)

Definition into_rpc_status (e : ReportServiceError) : ReportRpcStatus :=
  match e with
  | ReportDbError _ | ReportDecode _ => ReportRpcDatabase
  | ReportSignature => ReportRpcInternal
  end.

Definition build_response (pool : result unit Z) (materials : Materials) (d : Db)
  : result (ReportResponse Report) ReportServiceError * Db :=
  let '(rows, d) := get_all_reports pool decode_report d in
  (let? rows := map_err ReportDbError rows in
   let reports := (fun '(fog_report_id, report_data) =>
     mkFogReport fog_report_id (rd_report report_data) (rd_pubkey_expiry report_data)) <$> rows in
   let? signature := map_err (fun _ => ReportSignature) (sign_reports (mat_signing_keypair materials) reports) in
   Ok (mkReportResponse reports (mat_chain materials) signature), d).

Definition get_reports (pool : result unit Z) (materials : Materials) (d : Db)
  : result (ReportResponse Report) ReportRpcStatus * Db :=
  let '(response, d) := build_response pool materials d in
  (map_err into_rpc_status response, d).
End server.

(** ** What a client sees *)

(** A signature is accepted under the key of its signer. *)
Class SignatureLaws {R : Type} `{RC : ReportCrypto R}
  (verify_reports : Ed25519Public -> list (FogReport R) -> bytes -> bool) : Prop :=
  sign_verifies : forall pair reports signature, sign_reports pair reports = Ok signature ->
    verify_reports (public_key_of pair) reports signature = true.

Section client.
Context {Report : Type} `{RC : !ReportCrypto Report}.
Context (verify_reports : Ed25519Public -> list (FogReport Report) -> bytes -> bool).
Context `{SL : !SignatureLaws verify_reports}.
Context (decode_report : bytes -> result Report Z).

(** The chain of the response is valid and its leaf has signed the reports. *)
Definition authentic (response : ReportResponse Report) : Prop :=
  exists n leaf pubkey, verify_chain (x509_iter (rr_chain response)) = Ok n
    /\ x509_leaf (x509_iter (rr_chain response)) = Ok leaf
    /\ ed25519_public_try_from_der (spki leaf) = Ok pubkey
    /\ verify_reports pubkey (rr_reports response) (rr_signature response) = true.

Definition loaded (materials : Materials) : Prop :=
  exists chain key, materials_try_from chain key = Ok materials.

Lemma loaded_key materials : loaded materials -> exists n leaf,
  verify_chain (x509_iter (mat_chain materials)) = Ok n
  /\ x509_leaf (x509_iter (mat_chain materials)) = Ok leaf
  /\ ed25519_public_try_from_der (spki leaf) = Ok (public_key_of (mat_signing_keypair materials)).
Proof.
  intros (chain & key & H); revert H; unfold materials_try_from, from_pems, from_pem_keypair, from_ders_keypair, and_then.
  destruct chain as [chain|e]; simpl; [|done]; destruct key as [key|e]; simpl; [|done].
  destruct (pem_parse key) as [contents|e]; simpl; [|done].
  destruct (ed25519_private_try_from_der contents) as [pair|e]; simpl; [|done].
  set (ders := pem_parse_many chain).
  destruct (verify_chain (x509_iter ders)) as [n|e] eqn:H1; simpl; [|done].
  destruct (x509_leaf (x509_iter ders)) as [leaf|e] eqn:H2; simpl; [|done].
  destruct (ed25519_public_try_from_der (spki leaf)) as [pk|e] eqn:H3; simpl; [|done].
  case_bool_decide as Heq; simpl; [|done]; intros [= <-]; simpl; exists n, leaf; by rewrite H3, Heq.
Qed.

Definition entry_of (row : ReportRow) (report : Report) : FogReport Report :=
  mkFogReport (rp_fog_report_id row) report (as_u64 (rp_pubkey_expiry row)).

Definition entry (x : bytes * ReportData Report) : FogReport Report :=
  let '(fog_report_id, report_data) := x in
  mkFogReport fog_report_id (rd_report report_data) (rd_pubkey_expiry report_data).

(** The reports that come back for an id are those of the rows with this id. *)
Lemma decode_reports_id rows id l :
  decode_reports decode_report rows = Ok l ->
  forall row report, filter (fun r => rp_fog_report_id r = id) rows = [row] ->
    decode_report (rp_report row) = Ok report ->
    filter (fun r => fr_fog_report_id r = id) (entry <$> l) = [entry_of row report].
Proof.
  assert (Hnone : forall rows l, decode_reports decode_report rows = Ok l ->
    filter (fun r => rp_fog_report_id r = id) rows = [] ->
    filter (fun r => fr_fog_report_id r = id) (entry <$> l) = []).
  { clear; induction rows as [|r rows IH]; intros l; simpl; [by intros [= <-]|].
    destruct (decode_report (rp_report r)); [|done]; simpl.
    destruct (decode_reports decode_report rows) as [rest|]; [|done]; simpl; intros [= <-]; simpl.
    rewrite !filter_cons; simpl; destruct (decide (rp_fog_report_id r = id)); [done|by apply IH]. }
  revert l; induction rows as [|r rows IH]; intros l; simpl; [done|].
  destruct (decode_report (rp_report r)) as [rep|] eqn:Hdec; [|done]; simpl.
  destruct (decode_reports decode_report rows) as [rest|] eqn:Hrest; [|done]; simpl; intros [= <-] row report; simpl.
  rewrite !filter_cons; simpl; destruct (decide (rp_fog_report_id r = id)); [|by apply IH].
  intros [= <- Hnil] Hrow; f_equal; [unfold entry_of; congruence|exact (Hnone rows rest Hrest Hnil)].
Qed.

Lemma decode_reports_total rows :
  Forall (fun r => is_ok (decode_report (rp_report r)) = true) rows ->
  exists l, decode_reports decode_report rows = Ok l.
Proof.
  induction 1 as [|r rows Hr _ [l Hl]]; simpl; [by eexists|].
  destruct (decode_report (rp_report r)); [|done]; rewrite Hl; by eexists.
Qed.

(** A response to a client: it is authentic, and each id that has a row has one report. *)
Lemma build_response_ok materials d :
  loaded materials -> Forall (fun r => is_ok (decode_report (rp_report r)) = true) (db_reports d) ->
  (forall reports, is_ok (sign_reports (mat_signing_keypair materials) reports) = true) ->
  exists response, get_reports decode_report (Ok tt) materials d = (Ok response, d) /\ authentic response
    /\ forall id row report, filter (fun r => rp_fog_report_id r = id) (db_reports d) = [row] ->
         decode_report (rp_report row) = Ok report ->
         filter (fun r => fr_fog_report_id r = id) (rr_reports response) = [entry_of row report].
Proof.
  intros (n & leaf & H1 & H2 & H3)%loaded_key Hdec Hsign.
  set (rows := merge_sort report_le (db_reports d)).
  assert (Hperm : rows ≡ₚ db_reports d) by apply merge_sort_Permutation.
  destruct (decode_reports_total rows) as [l Hl]; [by rewrite Hperm|].
  specialize (Hsign (entry <$> l)); destruct (sign_reports _ (entry <$> l)) as [signature|] eqn:Hsig; [|done].
  exists (mkReportResponse (entry <$> l) (mat_chain materials) signature); split_and!.
  - unfold get_reports, build_response, get_all_reports, with_conn, mbind, tx_bind, tx_get, tx_lift.
    fold rows; rewrite Hl; simpl; fold entry; by rewrite Hsig.
  - exists n, leaf, (public_key_of (mat_signing_keypair materials)); split_and!; [done..|]; simpl.
    by apply sign_verifies.
  - intros id row report Hrow Hrep; eapply decode_reports_id; [exact Hl| |done].
    apply Permutation_length_1_inv; by rewrite <- Hrow, Hperm.
Qed.
End client.

(** ** From the ingest server to the client *)

Lemma set_report_row {R} (encode : R -> result bytes Z) pool d key id (data : ReportData R) status d' :
  db_wf d -> set_report pool encode key id data d = (Ok status, d') -> ks_retired status = false ->
  exists report row, encode (rd_report data) = Ok report
    /\ filter (fun r => rp_fog_report_id r = id) (db_reports d') = [row]
    /\ row = mkReportRow (rp_id row) key (rd_ingest_invocation_id data) id report (as_i64 (rd_pubkey_expiry data)).
Proof.
  intros Hd Hset Hret; revert Hset; unfold set_report, with_conn, transaction, set_report_tx, mbind, tx_bind, tx_lift.
  destruct pool as [[]|]; [|done]; destruct (db_ingress_keys d !! key) as [k|] eqn:Hk.
  2:{ unfold raised_key_status, raise_pubkey_expiry, get_ingress_key_status_impl, mbind, tx_bind, tx_get, tx_lift.
      rewrite Hk; simpl; by rewrite Hk. }
  destruct (ik_retired k) eqn:Hr.
  { rewrite (raised_key_status_retired d key k) by done; simpl; rewrite Hr; intros [= <- <-]; simpl in Hret; congruence. }
  rewrite (raised_key_status_ok d key k) by done; set (k' := raised k _).
  replace (ks_retired (status_of k')) with false by done.
  destruct (encode (rd_report data)) as [report|] eqn:Henc; [|done]; simpl; set (d1 := set_keys _ d).
  assert (Hd1 : db_wf d1).
  { apply (preserves_keys (insert key k')); [|done]; intros m key' ?.
    destruct (decide (key' = key)) as [->|]; [rewrite lookup_insert_eq; eauto|by rewrite lookup_insert_ne]. }
  assert (Hkey : is_Some (db_ingress_keys d1 !! key)) by (simpl; rewrite lookup_insert_eq; eauto).
  destruct (rd_ingest_invocation_id data) as [i|] eqn:Hi; [destruct (has_invocation d1 i) eqn:Hinv|].
  2:{ unfold upsert_report; by rewrite Hinv, orb_true_r. }
  all: destruct (upsert_report_ok d1 key (rd_ingest_invocation_id data) id report
      (as_i64 (rd_pubkey_expiry data)) Hd1 Hkey) as (rows & n & row & Hup & Hf & Hrow & _);
    [rewrite Hi; congruence|]; rewrite Hi in Hup, Hrow; rewrite Hup; intros [= _ <-]; by exists report, row.
Qed.

Section published.
Context `{C : IngestCrypto} `{OM : ObliviousHashMap} `{A : PeerAke} `{E : !IngestEnv}.
Context `{RC : !ReportCrypto Report} (verify_reports : Ed25519Public -> list (FogReport Report) -> bytes -> bool).
Context `{SL : !SignatureLaws verify_reports}.
Context (decode_report : bytes -> result Report Z).
Context (Hcodec : forall r b, encode_report r = Ok b -> decode_report b = Ok r).
Context (config : IngestServerConfig).

(** The report of the enclave at the time it is published. *)
Definition current_report (s : Server) : result Report Z :=
  (get_ias_report (refresh_report_cache (sv_env s)).2).1.

(** C11: a report that an ingest server publishes reaches the clients.  The report
    server, started from its two files, answers with a response whose chain is
    valid and has signed the reports; there is exactly one report with the report
    id of the ingest server, it is the one of its enclave, and it expires at the
    block the ingest server promised; as long as no other report was published
    under that id. *)
Theorem published_report_served materials key s status s' d :
  db_reachable (sv_db s) -> publish_report config key s = Done (Ok status) s' -> ks_retired status = false ->
  loaded materials -> (forall reports, is_ok (sign_reports (mat_signing_keypair materials) reports) = true) ->
  Forall (fun r => is_ok (decode_report (rp_report r)) = true) (db_reports d) ->
  filter (fun r => rp_fog_report_id r = cfg_fog_report_id config) (db_reports d)
    = filter (fun r => rp_fog_report_id r = cfg_fog_report_id config) (db_reports (sv_db s')) ->
  exists response report, get_reports decode_report (Ok tt) materials d = (Ok response, d)
    /\ authentic verify_reports response /\ current_report s = Ok report
    /\ filter (fun r => fr_fog_report_id r = cfg_fog_report_id config) (rr_reports response)
       = [mkFogReport (cfg_fog_report_id config) report
            (get_next_block_index (sv_state s) +w get_pubkey_expiry_window (sv_state s))].
Proof.
  intros Hd Hpub Hret Hmat Hsign Hdec Hsame; revert Hpub.
  unfold publish_report, current_report, mbind, srv_bind, get_state, world.
  destruct (refresh_report_cache (sv_env s)) as [[[]|e] env1]; [|done]; simpl.
  destruct (get_ias_report env1) as [[report|e] env2]; [|done]; simpl; unfold db_call; simpl.
  destruct (pool_get env2) as [pool env3], (clock env3) as [now env4].
  destruct (set_report _ _ _ _ _ _) as [[st|e] d'] eqn:Hset; [|done]; simpl; intros [= -> <-]; simpl in Hsame.
  destruct (set_report_row _ _ _ _ _ _ _ _ (db_reachable_wf _ Hd) Hset Hret) as (b & row & Henc & Hf & Hrow).
  destruct (build_response_ok verify_reports decode_report materials d Hmat Hdec Hsign) as (response & Hresp & Hauth & Hid).
  exists response, report; split; [done|]; split; [done|]; split; [done|].
  rewrite (Hid _ row report); [|by rewrite Hsame|rewrite Hrow; by apply Hcodec].
  rewrite Hrow; unfold entry_of; simpl; rewrite as_u64_as_i64; [done|apply wrap64_range].
Qed.
End published.

(** ** A concrete report server

    The key 5 signs with its number and the count of the reports; the chain is one
    certificate, which is its own key. *)

#[local] Instance demo_report_crypto : ReportCrypto (Report (IngestEnv := demo_env)) := {|
  Ed25519Pair := Z;
  Ed25519Public := Z;
  X509Certificate := bytes;
  pem_parse := fun pem => Ok pem;
  pem_parse_many := fun pem => [pem];
  ed25519_private_try_from_der := fun der => match der with [k] => Ok k | _ => Err 1 end;
  ed25519_public_try_from_der := fun der => match der with [k] => Ok k | _ => Err 1 end;
  public_key_of := fun k => k;
  x509_iter := fun ders => ders;
  verify_chain := fun certs => match certs with [] => Err 1 | _ => Ok (length certs) end;
  x509_leaf := fun certs => match last certs with Some c => Ok c | None => Err 2 end;
  spki := fun c => c;
  sign_reports := fun k reports => Ok [k; Z.of_nat (length reports)];
|}.

Definition demo_verify (k : Z) (reports : list (FogReport (Report (IngestEnv := demo_env)))) (signature : bytes) : bool :=
  bool_decide (signature = [k; Z.of_nat (length reports)]).

#[local] Instance demo_signature_laws : SignatureLaws demo_verify.
Proof. intros pair reports signature [= <-]; by apply bool_decide_eq_true. Qed.

Definition demo_decode_report (b : bytes) : result (Report (IngestEnv := demo_env)) Z :=
  match b with [r] => Ok r | _ => Err 1 end.

(** The server has registered its key and publishes a report. *)
Definition demo_reporter : Server (OM := demo_omap) (E := demo_env) :=
  mkServer (OM := demo_omap) (E := demo_env) (IngestControllerState_new demo_config)
    false (enclave_init demo_server_enclave [1] None 8).2 (new_ingress_key (Ok tt) [900] 0 db_empty).2 None None tt.
Definition demo_reporter' : Server (OM := demo_omap) (E := demo_env) :=
  after (publish_report demo_config [900] demo_reporter).

Lemma filter_singleton_elem {B} (P : B -> Prop) `{!forall x, Decision (P x)} (l : list B) x :
  filter P l = [x] -> x ∈ l.
Proof. intros Hf; eapply list_elem_of_filter; rewrite Hf; by apply list_elem_of_singleton. Qed.

Lemma demo_reporter_published : exists status,
  publish_report demo_config [900] demo_reporter = Done (Ok status) demo_reporter' /\ ks_retired status = false.
Proof.
  assert (H : match publish_report demo_config [900] demo_reporter with
    | Done (Ok status) _ => negb (ks_retired status) | _ => false end = true) by (vm_compute; reflexivity).
  unfold demo_reporter'; destruct (publish_report demo_config [900] demo_reporter) as [[status|e] s|s|s|s]; try done.
  exists status; split; [done|by apply negb_true_iff].
Qed.

Lemma demo_reporter_rows :
  forallb (fun r => is_ok (demo_decode_report (rp_report r))) (db_reports (sv_db demo_reporter')) = true.
Proof. vm_compute; reflexivity. Qed.

Lemma published_report_served_witness :
  exists response, get_reports demo_decode_report (Ok tt) (mkMaterials _ demo_report_crypto [[5]] 5) (sv_db demo_reporter')
      = (Ok response, sv_db demo_reporter')
    /\ authentic demo_verify response
    /\ mkFogReport [] 3 10 ∈ rr_reports response.
Proof.
  destruct demo_reporter_published as (status & Hpub & Hret).
  destruct (published_report_served (E := demo_env) (RC := demo_report_crypto) demo_verify demo_decode_report
    ltac:(by intros r b [= <-]) demo_config (mkMaterials _ demo_report_crypto [[5]] 5) [900] demo_reporter
    status demo_reporter' (sv_db demo_reporter'))
    as (response & report & H1 & H2 & H3 & H4).
  - apply rtc_once, step_new_ingress_key.
  - exact Hpub.
  - exact Hret.
  - exists (Ok [5]), (Ok [5]); reflexivity.
  - intros reports; reflexivity.
  - apply Forall_forall; intros r Hr%list_elem_of_In; exact (proj1 (forallb_forall _ _) demo_reporter_rows r Hr).
  - reflexivity.
  - assert (Hr : current_report demo_reporter = Ok 3) by reflexivity.
    rewrite Hr in H3; injection H3 as <-; exists response; split; [exact H1|]; split; [exact H2|].
    exact (filter_singleton_elem _ _ _ H4).
Defined.
