(* ===== verification/IngestServer.v ===== *)
(** * The services and worker threads of the ingest server (src/fog/ingest/server/src)

    The handlers of the gRPC services (ingest_service.rs,
    ingest_peer_service.rs, attested_api_service.rs) around the controller, and the two threads of
    worker.rs.  The worker is a step function between its accesses to what it
    shares: it asks the controller for its position, loads the block from the
    ledger, waits for the timestamp of the watcher and has the block processed.
    The status of a failed request is named by the helper that builds it. *)

From S2P Require Import Prelude FogTypes RecoveryTypes ObliviousMap.
From S2P Require Import KexRng UserRngSet IngestEnclave RecoveryDb ControllerState PeerConnection IngestController.

Local Open Scope Z_scope.
Local Open Scope fog_scope.

(** ** The ledger and watcher databases *)

Inductive TimestampResultCode :=
| TimestampFound
| WatcherBehind
| Unavailable
| WatcherDatabaseError
| BlockIndexOutOfBounds.

Class IngestLedger `{E : IngestEnv} := {
  ledger_num_blocks : Env -> result Z Z * Env;
  get_block_data : Env -> Z -> result (BlockHeader * list TxOut) Z * Env;
  get_block_timestamp : Env -> Z -> result (Z * TimestampResultCode) Z * Env;
}.

Inductive IngestRpcError :=
| PreconditionError
| InvalidArgError
| DatabaseRpcError
| EnclaveRpcError
| PermissionsError.

Section services.
Context `{C : IngestCrypto} `{OM : ObliviousHashMap} `{A : PeerAke} `{E : !IngestEnv} `{IL : !IngestLedger}.
Context (config : IngestServerConfig).
Abbreviation EnclaveError := (IngestEnclaveError SgxError PeerAkeError).

(** ** ingest_service.rs *)

Definition get_status_impl : srv (result IngestSummary IngestRpcError) :=
  summary ← get_ingest_summary; mret (Ok summary).

(** A call of the controller, then the summary. *)
Definition then_summary {B X} (m : srv (result B X)) (status : IngestRpcError)
  : srv (result IngestSummary IngestRpcError) :=
  r ← m;
  match r with
  | Err _ => mret (Err status)
  | Ok _ => summary ← get_ingest_summary; mret (Ok summary)
  end.

Definition new_keys_impl : srv (result IngestSummary IngestRpcError) :=
  then_summary (controller_new_keys config) PreconditionError.

Definition set_pubkey_expiry_window_impl (pubkey_expiry_window : Z)
  : srv (result IngestSummary IngestRpcError) :=
  then_summary (controller_set_pubkey_expiry_window pubkey_expiry_window) PreconditionError.

(** [from_str] on every uri, the first error wins. *)
Fixpoint parse_uris (uris : list IngestPeerUri) : result (list IngestPeerUri) Z :=
  match uris with
  | [] => Ok []
  | uri :: uris =>
      let? peer := parse_uri uri in
      let? peers := parse_uris uris in
      Ok (peer :: peers)
  end.

(** [set_peers_impl] of both services. *)
Definition set_peers_impl (ingest_peer_uris : list IngestPeerUri)
  : srv (result IngestSummary IngestRpcError) :=
  match parse_uris ingest_peer_uris with
  | Err _ => mret (Err InvalidArgError)
  | Ok peers => then_summary (controller_set_peers config peers) InvalidArgError
  end.

Definition activate_impl : srv (result IngestSummary IngestRpcError) :=
  num_blocks ← world ledger_num_blocks;
  match num_blocks with
  | Err _ => mret (Err DatabaseRpcError)
  | Ok num_blocks => then_summary (activate config num_blocks) PreconditionError
  end.

Definition retire_impl : srv (result IngestSummary IngestRpcError) :=
  r ← retire; mret (map_err (fun _ => DatabaseRpcError) r).

Definition unretire_impl : srv (result IngestSummary IngestRpcError) :=
  r ← unretire; mret (map_err (fun _ => DatabaseRpcError) r).

Definition report_lost_ingress_key_impl (key : bytes) : srv (result unit IngestRpcError) :=
  match compressed_try_from key with
  | Err _ => mret (Err InvalidArgError)
  | Ok key =>
      r ← controller_report_lost_ingress_key key;
      mret (map_err (fun _ => DatabaseRpcError) r)
  end.

Definition get_missed_block_ranges_impl : srv (result (list BlockRange) IngestRpcError) :=
  r ← controller_get_missed_block_ranges;
  mret (map_err (fun _ => DatabaseRpcError) r).

(** ** ingest_peer_service.rs *)

Definition get_ingress_private_key_impl (peer_session : PeerSession)
  : srv (result PeerMessage IngestRpcError) :=
  r ← controller_get_ingress_private_key peer_session;
  mret match r with Ok (private_key, _) => Ok private_key | Err _ => Err EnclaveRpcError end.

Definition set_ingress_private_key_impl (msg : PeerMessage)
  : srv (result IngestSummary IngestRpcError) :=
  then_summary (controller_set_ingress_private_key config msg) EnclaveRpcError.

(** ** attested_api_service.rs *)

Definition auth_impl (request : PeerAuthRequest) : srv (result PeerAuthResponse IngestRpcError) :=
  r ← controller_peer_accept request;
  mret match r with Ok (response, _) => Ok response | Err _ => Err PermissionsError end.

(** ** worker.rs: the ingest worker *)

(** The loop waits until the watcher has the timestamp. *)
Fixpoint get_watcher_timestamp (fuel : nat) (block_index : Z) : srv Z :=
  match fuel with
  | O => out_of_fuel
  | S fuel =>
      r ← world (fun env => get_block_timestamp env block_index);
      match r with
      | Ok (ts, TimestampFound) => mret ts
      | Ok (_, BlockIndexOutOfBounds) => mret u64_max
      | Ok (_, (WatcherBehind | Unavailable | WatcherDatabaseError)) | Err _ =>
          get_watcher_timestamp fuel block_index
      end
  end.

(** Where the worker is in its loop. *)
Inductive IngestWorkerPc :=
| WorkerTop
| WorkerPolled (next_block_index : Z) (idle : bool)
| WorkerLoaded (next_block_index : Z) (block : BlockHeader) (outputs : list TxOut)
| WorkerStamped (block : BlockHeader) (outputs : list TxOut) (timestamp : Z)
| WorkerStopped.

(** One step; a block that is not there yet, or an error, starts over. *)
Definition ingest_worker_step (fuel : nat) (stop_requested : bool) (pc : IngestWorkerPc) : srv IngestWorkerPc :=
  match pc with
  | WorkerTop =>
      state ← peek_state;
      mret (WorkerPolled (get_next_block_index state) (is_idle state))
  | WorkerPolled next_block_index idle =>
      if stop_requested then mret WorkerStopped
      else if (idle : bool) then mret WorkerTop
      else
        r ← world (fun env => get_block_data env next_block_index);
        mret match r with
             | Err _ => WorkerTop
             | Ok (block, outputs) => WorkerLoaded next_block_index block outputs
             end
  | WorkerLoaded next_block_index block outputs =>
      timestamp ← get_watcher_timestamp fuel next_block_index;
      mret (WorkerStamped block outputs timestamp)
  | WorkerStamped block outputs timestamp =>
      process_next_block config fuel block outputs timestamp;;
      mret WorkerTop
  | WorkerStopped => mret WorkerStopped
  end.

(** ** worker.rs: the peer checkup worker; [true] as long as the thread runs *)

Definition checkup_worker_step (stop_requested running : bool) : srv bool :=
  if (running : bool) then
    if (stop_requested : bool) then mret false
    else peer_checkup config;; mret true
  else mret false.

(** A stop request does not reach a worker that waits for the watcher: as long as
    the watcher is behind, the thread that stops the server waits with it. *)
Theorem stop_waits_for_watcher fuel stop_requested i block outputs s :
  (forall env, get_block_timestamp env i = (Ok (0, WatcherBehind), env)) ->
  ingest_worker_step fuel stop_requested (WorkerLoaded i block outputs) s = OutOfFuel s.
Proof.
  intros H; cbn [ingest_worker_step].
  assert (Hw : get_watcher_timestamp fuel i s = OutOfFuel s).
  { induction fuel as [|fuel IH]; [done|]. cbn [get_watcher_timestamp]; unfold world, mbind, srv_bind in *.
    rewrite H. destruct s; exact IH. }
  unfold mbind, srv_bind; by rewrite Hw.
Qed.
End services.
