(* ===== verification/IngestProcess.v ===== *)
(** * The ingest server as a process

    The services, the peer checkup thread and the worker thread act on one
    controller, in any order.  An active server is moved only by its worker
    ([operation_inert]), so what the worker read of the controller is still true
    when it hands the block over, and the histories of the process are histories
    of [IngestServerSpec]. *)

From S2P Require Import Prelude FogTypes RecoveryTypes ObliviousMap.
From S2P Require Import KexRng UserRngSet Polling IngestEnclave IngestHistory RecoveryDb RecoveryDbWf ControllerState PeerConnection IngestController IngestServerSpec IngestServer.

Local Open Scope Z_scope.
Local Open Scope fog_scope.

(** ** What leaves an active server alone *)

Section inert.
Context `{C : IngestCrypto} `{OM : ObliviousHashMap} `{A : PeerAke} `{E : !IngestEnv} `{IL : !IngestLedger}.
Context (config : IngestServerConfig).

(** The position of the server, its invocation and the keys it works with. *)
Record same_scan (s s' : Server) : Prop := {
  sc_mode : ics_mode (sv_state s') = ics_mode (sv_state s);
  sc_next : ics_next_block_index (sv_state s') = ics_next_block_index (sv_state s);
  sc_invocation : ics_ingest_invocation_id (sv_state s') = ics_ingest_invocation_id (sv_state s);
  sc_ingress : ie_ingress_key (sv_enclave s') = ie_ingress_key (sv_enclave s);
  sc_egress : ie_egress_key (sv_enclave s') = ie_egress_key (sv_enclave s);
  sc_store : ie_rng_store (sv_enclave s') = ie_rng_store (sv_enclave s);
}.

#[global] Instance same_scan_trans : Transitive same_scan.
Proof. intros s1 s2 s3 [] []; split; congruence. Qed.

Definition inert {B} (m : srv B) : Prop := forall s, ics_mode (sv_state s) = Active -> same_scan s (after (m s)).

Lemma inert_quiet {B} (m : srv B) : quiet m -> inert m.
Proof.
  intros Hm s Hs; specialize (Hm s).
  destruct (m s); destruct Hm as (H1 & H2 & _); simpl; split; by rewrite ?H1, ?H2.
Qed.

Lemma inert_calm {B} (m : srv B) : calm m -> inert m.
Proof. intros Hm s Hs; destruct (Hm s) as (H1 & (H2 & H3 & H4 & _) & _); split; by rewrite ?H1. Qed.

Lemma inert_bind {B D} (m : srv B) (f : B -> srv D) : inert m -> (forall b, inert (f b)) -> inert (m ≫= f).
Proof.
  intros Hm Hf s Hs; specialize (Hm s Hs); unfold mbind, srv_bind.
  destruct (m s) as [b s'|s'|s'|s']; simpl in *; [|done..].
  etrans; [exact Hm|]; apply Hf; by rewrite (sc_mode _ _ Hm).
Qed.

Lemma inert_db {B} (op : result unit Z -> Z -> tx B) : inert (db_call op).
Proof.
  intros s Hs; unfold db_call; destruct (pool_get (sv_env s)) as [pool env].
  by destruct (clock env) as [now env'], (op pool now (sv_db s)).
Qed.

(** The state that a guard shows is the one of the server, which is active. *)
Lemma inert_guard_at {B} (f : IngestControllerState -> srv B) :
  (forall s, ics_mode (sv_state s) = Active -> same_scan s (after (f (sv_state s) s))) ->
  inert (with_guard f).
Proof.
  intros Hf s Hs; unfold with_guard, mbind, srv_bind, lock_state.
  destruct (sv_locked s); [done|].
  specialize (Hf (set_locked true s) Hs); simpl in Hf.
  destruct (f (sv_state s) (set_locked true s)) as [b s'|s'|s'|s']; simpl in *;
    destruct Hf as [H1 H2 H3 H4 H5 H6]; simpl in *; by split.
Qed.

Lemma inert_guard {B} (f : IngestControllerState -> srv B) :
  (forall st, ics_mode st = Active -> inert (f st)) -> inert (with_guard f).
Proof. intros Hf; apply inert_guard_at; intros s Hs; by apply Hf. Qed.

Lemma inert_peek {B} (f : IngestControllerState -> srv B) :
  (forall st, ics_mode st = Active -> inert (f st)) -> inert (peek_state ≫= f).
Proof.
  intros Hf s Hs; unfold peek_state, with_guard, mbind, srv_bind, lock_state, unlock_state.
  destruct (sv_locked s); [done|]; simpl.
  specialize (Hf (sv_state s) Hs (set_locked false s) Hs); simpl in Hf.
  destruct Hf as [H1 H2 H3 H4 H5 H6]; by split.
Qed.

Lemma active_not_idle st : ics_mode st = Active -> is_idle st = false.
Proof. unfold is_idle; intros ->; done. Qed.

Create HintDb inert.
Hint Resolve quiet_ret quiet_world quiet_expect quiet_put_last_sealed_key quiet_summary
  quiet_write_state_file quiet_ingress_pubkey quiet_out_of_fuel quiet_peek_state : inert.
Hint Resolve inert_quiet inert_db : inert.
Ltac solve_inert :=
  repeat first [ solve [eauto with inert] | apply inert_bind; [|intros ?] | case_match ].

Lemma inert_get_state {B} (f : IngestControllerState -> srv B) :
  (forall st, ics_mode st = Active -> inert (f st)) -> inert (get_state ≫= f).
Proof. intros Hf s Hs; apply (Hf (sv_state s) Hs s Hs). Qed.

Lemma inert_change_keys f : inert (change_keys config f).
Proof.
  apply inert_get_state; intros st Hst; rewrite active_not_idle by done; simpl; solve_inert.
Qed.

Lemma inert_new_keys : inert (controller_new_keys config).
Proof.
  apply inert_guard; intros st Hst s Hs; unfold new_keys_inner, change_keys, mbind, srv_bind, get_state; simpl.
  by rewrite active_not_idle.
Qed.

Lemma inert_set_ingress_private_key msg : inert (controller_set_ingress_private_key config msg).
Proof. apply inert_peek; intros st Hst; rewrite active_not_idle by done; simpl; solve_inert. Qed.

Lemma inert_sync_keys uri : inert (sync_keys_from_remote config uri).
Proof. apply inert_peek; intros st Hst; rewrite active_not_idle by done; simpl; solve_inert. Qed.

Lemma inert_activate n : inert (activate config n).
Proof.
  intros s Hs; unfold activate, try_activate, with_guard, mbind, srv_bind, lock_state.
  destruct (sv_locked s); [done|]; simpl; unfold is_active; rewrite Hs.
  rewrite bool_decide_eq_true_2 by done.
  pose proof (inert_quiet _ quiet_summary_inner (set_locked true s) Hs) as Hq.
  destruct (get_ingest_summary_inner (set_locked true s)) as [b s'|s'|s'|s']; simpl in *;
    destruct Hq as [H1 H2 H3 H4 H5 H6]; by split.
Qed.

Lemma inert_retired b : inert (set_retired b).
Proof. unfold set_retired; solve_inert. Qed.

Lemma inert_set_window v : inert (controller_set_pubkey_expiry_window v).
Proof.
  apply inert_guard_at; intros s Hs; unfold set_pubkey_expiry_window.
  repeat case_match; simplify_eq/=; by split.
Qed.

Lemma inert_set_peers peers : inert (controller_set_peers config peers).
Proof.
  apply inert_guard_at; intros s Hs; unfold set_peers_inner, mbind, srv_bind, get_state.
  destruct (peers_by_responder_id peers ∅) as [m|e]; [|by split].
  destruct (m !! cfg_local_node_id config); [|by split].
  unfold set_peers; simpl; destruct (_ || _); by split.
Qed.

(** A guarded restore finds the server active and gives up. *)
Lemma inert_start_controller data : inert (start_controller config data).
Proof.
  unfold start_controller; apply inert_bind; [|intros []; solve_inert].
  destruct data as [[summary key]|]; [|solve_inert]; apply inert_bind; [|solve_inert].
  apply inert_guard; intros st Hst; rewrite active_not_idle by done; simpl; solve_inert.
Qed.

Lemma calm_session_call {B} (f : SgxIngestEnclave -> B * SgxIngestEnclave) :
  (forall e, same_keys e (f e).2) -> calm (enclave_call (fun e => Ret (f e))).
Proof. intros Hf s; unfold enclave_call; specialize (Hf (sv_enclave s)); by destruct (f _). Qed.

Lemma inert_give_key session : inert (controller_get_ingress_private_key session).
Proof. apply inert_calm, calm_session_call; intros e; apply give_key_same_keys. Qed.

Lemma inert_peer_accept req : inert (controller_peer_accept req).
Proof. apply inert_calm, calm_session_call; intros e; apply on_ake_same_keys. Qed.

Lemma operation_inert B (m : srv B) : operation config B m -> inert m.
Proof.
  intros []; [apply inert_new_keys|apply inert_peer_accept|apply inert_give_key|apply inert_set_ingress_private_key
    |apply inert_calm, calm_peer_checkup
    |apply inert_activate|apply inert_retired|apply inert_retired|apply inert_sync_keys|apply inert_set_window
    |apply inert_set_peers|apply inert_db|apply inert_quiet, quiet_summary|apply inert_db
    |apply inert_start_controller].
Qed.
End inert.

(** ** The process *)

(** The blocks of the ledger are the ones asked for. *)
Class IngestLedgerLaws `{IL : IngestLedger} : Prop := {
  num_blocks_u64 : forall env n env', ledger_num_blocks env = (Ok n, env') -> is_u64 n;
  block_index : forall env i block outputs env',
    get_block_data env i = (Ok (block, outputs), env') -> bh_index block = i;
}.

Section process.
Context `{C : IngestCrypto} `{OM : ObliviousHashMap} `{A : PeerAke} `{E : !IngestEnv} `{IL : !IngestLedger}.
Context `{HOM : !ObliviousHashMapLaws OM} `{HIL : !IngestLaws} `{HFR : !FreshRng} `{HLL : !IngestLedgerLaws}.
Context (config : IngestServerConfig).
Context (users : Public -> Prop) (egresses : Private -> Prop) (Hplay : keys_in_play users egresses).
Context (decode : bytes -> result (list ETxOutRecord) Z) (Hcodec : codec_ok decode).

(** The handlers of the services. *)
Inductive handler : forall B, srv B -> Prop :=
| h_get_status : handler _ get_status_impl
| h_new_keys : handler _ (new_keys_impl config)
| h_set_pubkey_expiry_window v : handler _ (set_pubkey_expiry_window_impl v)
| h_set_peers uris : handler _ (set_peers_impl config uris)
| h_activate : handler _ (activate_impl config)
| h_retire : handler _ retire_impl
| h_unretire : handler _ unretire_impl
| h_report_lost_ingress_key key : handler _ (report_lost_ingress_key_impl key)
| h_get_missed_block_ranges : handler _ get_missed_block_ranges_impl
| h_get_ingress_private_key session : handler _ (get_ingress_private_key_impl session)
| h_auth request : handler _ (auth_impl request)
| h_set_ingress_private_key msg : handler _ (set_ingress_private_key_impl config msg).

Record ServerProcess := mkServerProcess {
  pr_server : Server;
  pr_worker : IngestWorkerPc;
  pr_worker_stop : bool;
  pr_checkup : bool;
  pr_checkup_stop : bool;
}.

(** What a thread runs when it is scheduled; for the worker, the room in the
    counters, and that the enclave does not give up on the block. *)
Definition worker_room (p : ServerProcess) : Prop :=
  match pr_worker p with
  | WorkerStamped block outputs _ => is_u64 (bh_index block + 1)
      /\ rows_total decode (sv_db (pr_server p)) + Z.of_nat (length outputs) < u64_modulus
  | _ => True
  end.

Definition worker_unstuck (pc : IngestWorkerPc) (s' : Server) : Prop :=
  match pc with
  | WorkerStamped block _ _ => ~ stuck s' block
  | _ => True
  end.

Definition with_server (p : ServerProcess) (s : Server) : ServerProcess :=
  mkServerProcess s (pr_worker p) (pr_worker_stop p) (pr_checkup p) (pr_checkup_stop p).

Inductive process_step : ServerProcess -> ServerProcess -> Prop :=
| ps_service B (m : srv B) p b s' : handler B m -> m (pr_server p) = Done b s' ->
    process_step p (with_server p s')
| ps_checkup p running s' :
    checkup_worker_step config (pr_checkup_stop p) (pr_checkup p) (pr_server p) = Done running s' ->
    process_step p (mkServerProcess s' (pr_worker p) (pr_worker_stop p) running (pr_checkup_stop p))
| ps_worker fuel p pc s' : worker_room p ->
    ingest_worker_step config fuel (pr_worker_stop p) (pr_worker p) (pr_server p) = Done pc s' ->
    worker_unstuck (pr_worker p) s' ->
    process_step p (mkServerProcess s' pc (pr_worker_stop p) (pr_checkup p) (pr_checkup_stop p))
| ps_foreign p d' : foreign users egresses decode (sv_db (pr_server p)) d' ->
    process_step p (with_server p (with_db (pr_server p) d'))
| ps_stop p a b :
    process_step p (mkServerProcess (pr_server p) (pr_worker p) (pr_worker_stop p || a) (pr_checkup p)
                      (pr_checkup_stop p || b)).

(** The worker starts at the top of its loop, on a server that was started. *)
Definition process_reach (p : ServerProcess) : Prop :=
  exists s, server_reach config users egresses decode s
    /\ rtc process_step (mkServerProcess s WorkerTop false true false) p.

(** What the worker knows of the controller. *)
Definition worker_ok (p : ServerProcess) : Prop :=
  let at_block i := ics_mode (sv_state (pr_server p)) = Active
    /\ ics_next_block_index (sv_state (pr_server p)) = i in
  match pr_worker p with
  | WorkerPolled i false => at_block i
  | WorkerLoaded i block _ => bh_index block = i /\ at_block i
  | WorkerStamped block _ _ => at_block (bh_index block)
  | _ => True
  end.

Abbreviation keeps := (keeps_order users egresses decode).
Abbreviation inv := (holds (server_inv users egresses decode)).

(** *** The handlers are sequences of controller calls *)

Lemma keeps_op B (m : srv B) : operation config B m -> keeps m.
Proof. by apply operation_keeps. Qed.

(** The values a computation can return. *)
Definition returns {B} (m : srv B) (b : B) : Prop := exists s s', m s = Done b s'.

Lemma keeps_then B D (m : srv B) (f : B -> srv D) :
  keeps m -> (forall b, returns m b -> keeps (f b)) -> keeps (m ≫= f).
Proof.
  intros Hm Hf s Hs; specialize (Hm s Hs); unfold mbind, srv_bind.
  destruct (m s) as [b s'|s'|s'|s'] eqn:Hr; [|done..]; apply Hf; [by exists s, s'|done].
Qed.

Lemma inert_then B D (m : srv B) (f : B -> srv D) :
  inert m -> (forall b, returns m b -> inert (f b)) -> inert (m ≫= f).
Proof.
  intros Hm Hf s Hs; specialize (Hm s Hs); unfold mbind, srv_bind.
  destruct (m s) as [b s'|s'|s'|s'] eqn:Hr; simpl in *; [|done..].
  etrans; [exact Hm|]; apply Hf; [by exists s, s'|by rewrite (sc_mode _ _ Hm)].
Qed.

(** A property of computations that the handlers inherit from the calls they make. *)
Record inherited (P : forall B, srv B -> Prop) : Prop := {
  inh_operation : forall B (m : srv B), operation config B m -> P B m;
  inh_quiet : forall B (m : srv B), quiet m -> P B m;
  inh_bind : forall B D (m : srv B) (f : B -> srv D),
    P B m -> (forall b, returns m b -> P D (f b)) -> P D (m ≫= f);
}.

Lemma keeps_inherited : inherited (fun B m => keeps m).
Proof. split; [by apply operation_keeps|apply @keeps_quiet|apply keeps_then]. Qed.

Lemma inert_inherited : inherited (fun B m => inert m).
Proof. split; [apply operation_inert|apply @inert_quiet|apply inert_then]. Qed.

Section inherit.
Context (P : forall B, srv B -> Prop) (HP : inherited P).

Lemma inherit_ret {B} (b : B) : P B (mret b).
Proof. apply (inh_quiet _ HP), quiet_ret. Qed.

Lemma inherit_then_summary {B X} (m : srv (result B X)) status :
  P _ m -> P _ (then_summary m status).
Proof.
  intros Hm; apply (inh_bind _ HP); [done|]; intros [b|e] _; [|apply inherit_ret].
  apply (inh_bind _ HP); [apply (inh_quiet _ HP), quiet_summary|]; intros summary _; apply inherit_ret.
Qed.

Lemma inherit_map {B D} (m : srv B) (f : B -> D) : P _ m -> P _ (m ≫= (fun r => mret (f r))).
Proof. intros Hm; apply (inh_bind _ HP); [done|]; intros b _; apply inherit_ret. Qed.

Lemma returns_ledger n : returns (world ledger_num_blocks) (Ok n) -> is_u64 n.
Proof.
  intros (s & s' & Hw); unfold world in Hw; destruct (ledger_num_blocks (sv_env s)) as [r env] eqn:Hr.
  injection Hw as -> _; by eapply num_blocks_u64.
Qed.

Lemma handler_inherits B (m : srv B) : handler B m -> P B m.
Proof.
  pose proof (inh_operation _ HP) as Hop.
  intros []; try (apply inherit_then_summary; apply Hop; constructor);
    try (apply inherit_map; apply Hop; constructor).
  - unfold set_peers_impl; destruct (parse_uris uris) as [peers|e]; [|apply inherit_ret].
    apply inherit_then_summary, Hop; constructor.
  - apply (inh_bind _ HP); [apply (inh_quiet _ HP), quiet_world|]; intros [n|e] Hn; [|apply inherit_ret].
    apply inherit_then_summary, Hop; constructor; by apply returns_ledger.
  - unfold report_lost_ingress_key_impl; destruct (compressed_try_from key); [|apply inherit_ret].
    apply inherit_map, Hop; constructor.
Qed.
End inherit.

(** *** The worker *)

Lemma worker_ok_kept p s' : worker_ok p ->
  (ics_mode (sv_state (pr_server p)) = Active -> same_scan (pr_server p) s') ->
  worker_ok (with_server p s').
Proof.
  unfold worker_ok; simpl; intros Hok Hs; destruct (pr_worker p) as [|i []|i block outputs|block outputs ts|]; try done.
  - destruct Hok as [Ha Hi]; destruct (Hs Ha) as [H1 H2 _ _ _ _]; by rewrite H1, H2.
  - destruct Hok as (Hb & Ha & Hi); destruct (Hs Ha) as [H1 H2 _ _ _ _]; by rewrite H1, H2.
  - destruct Hok as [Ha Hi]; destruct (Hs Ha) as [H1 H2 _ _ _ _]; by rewrite H1, H2.
Qed.

Lemma quiet_watcher_timestamp fuel i : quiet (get_watcher_timestamp fuel i).
Proof.
  induction fuel as [|fuel IH]; simpl; [apply quiet_out_of_fuel|].
  apply quiet_bind; [apply quiet_world|]; intros [[ts []]|e]; try done; apply quiet_ret.
Qed.

Definition process_inv (p : ServerProcess) : Prop := inv (pr_server p) /\ worker_ok p.

Lemma quiet_done {B} (m : srv B) s b s' : quiet m -> m s = Done b s' ->
  sv_state s' = sv_state s /\ sv_enclave s' = sv_enclave s /\ sv_db s' = sv_db s.
Proof. intros Hm Hr; specialize (Hm s); by rewrite Hr in Hm. Qed.

Lemma quiet_inv {B} (m : srv B) s b s' : quiet m -> m s = Done b s' -> inv s -> inv s'.
Proof.
  intros Hm Hr; destruct (quiet_done m s b s' Hm Hr) as (H1 & H2 & H3); unfold holds.
  by rewrite H1, H2, H3.
Qed.

Lemma calm_done {B} (m : srv B) s b s' : calm m -> m s = Done b s' ->
  sv_state s' = sv_state s /\ same_keys (sv_enclave s) (sv_enclave s') /\ sv_db s' = sv_db s.
Proof. intros Hm Hr; specialize (Hm s); by rewrite Hr in Hm. Qed.

Lemma calm_inv {B} (m : srv B) s b s' : calm m -> m s = Done b s' -> inv s -> inv s'.
Proof.
  intros Hm Hr; destruct (calm_done m s b s' Hm Hr) as (H1 & H2 & H3); unfold holds.
  rewrite H1, H3; by apply server_inv_sessions.
Qed.

Lemma worker_step_inv fuel p pc s' : process_inv p -> worker_room p ->
  ingest_worker_step config fuel (pr_worker_stop p) (pr_worker p) (pr_server p) = Done pc s' ->
  worker_unstuck (pr_worker p) s' ->
  process_inv (mkServerProcess s' pc (pr_worker_stop p) (pr_checkup p) (pr_checkup_stop p)).
Proof.
  intros [Hinv Hok] Hroom Hstep Hun; unfold worker_ok, worker_room, worker_unstuck in *; simpl.
  destruct (pr_worker p) as [|i idle|i block outputs|block outputs ts|]; simpl in Hstep.
  - unfold mbind, srv_bind, peek_state, with_guard, mbind, srv_bind, lock_state in Hstep.
    destruct (sv_locked (pr_server p)); [done|]; injection Hstep as <- <-; split; [exact Hinv|].
    unfold worker_ok; simpl; destruct (is_idle (sv_state (pr_server p))) eqn:Hidle; [done|].
    split; [|done]; unfold is_idle in Hidle; apply bool_decide_eq_false in Hidle.
    by destruct (ics_mode (sv_state (pr_server p))).
  - destruct (pr_worker_stop p); [by injection Hstep as <- <-|].
    destruct idle; [by injection Hstep as <- <-|].
    unfold mbind, srv_bind, world in Hstep; destruct (get_block_data _ _) as [r env] eqn:Hr.
    injection Hstep as <- <-; split; [exact Hinv|]; unfold worker_ok; simpl.
    destruct r as [[block outputs]|e]; [|done]; split; [by eapply block_index|done].
  - unfold mbind, srv_bind in Hstep.
    destruct (get_watcher_timestamp fuel i (pr_server p)) as [ts s1|s1|s1|s1] eqn:Ht; try done.
    injection Hstep as <- <-; split; [by eapply quiet_inv, Hinv; [apply quiet_watcher_timestamp|]|].
    destruct (quiet_done _ _ _ _ (quiet_watcher_timestamp fuel i) Ht) as (H1 & _ & _).
    unfold worker_ok; simpl; rewrite H1; destruct Hok as [-> Hok]; exact Hok.
  - unfold mbind, srv_bind in Hstep.
    destruct (process_next_block config fuel block outputs ts (pr_server p)) as [[] s1|s1|s1|s1] eqn:Hp; try done.
    injection Hstep as <- <-; destruct Hroom as [R1 R2]; split; [|done].
    pose proof (hoare_process_next_block config users egresses Hplay decode Hcodec fuel block outputs ts R1
      (pr_server p) ltac:(split; [exact Hinv|split; [apply Hok|exact R2]])) as H; rewrite Hp in H.
    destruct H as [[H _]|(_ & H1 & H2)]; [done|by destruct Hun].
  - by injection Hstep as <- <-.
Qed.

Lemma checkup_calm stop running : calm (checkup_worker_step config stop running).
Proof.
  unfold checkup_worker_step; destruct running, stop; try apply calm_quiet, quiet_ret.
  apply calm_bind; [apply calm_peer_checkup|]; intros []; apply calm_quiet, quiet_ret.
Qed.

Lemma process_step_inv p p' : process_step p p' -> process_inv p -> process_inv p'.
Proof.
  destruct 1 as [B m p b s' Hh Hm|p running s' Hm|fuel p pc s' Hroom Hstep Hun|p d' Hf|p a b];
    intros [Hinv Hok].
  - pose proof (handler_inherits _ keeps_inherited B m Hh (pr_server p) Hinv) as Hk; rewrite Hm in Hk.
    split; [done|]; apply worker_ok_kept; [done|]; intros Ha.
    pose proof (handler_inherits _ inert_inherited B m Hh (pr_server p) Ha) as Hs; by rewrite Hm in Hs.
  - pose proof (checkup_calm (pr_checkup_stop p) (pr_checkup p)) as Hq.
    split; [by eapply calm_inv, Hinv|]; destruct (calm_done _ _ _ _ Hq Hm) as (H1 & _ & _).
    unfold worker_ok in *; simpl; by rewrite H1.
  - by eapply worker_step_inv.
  - split; [by eapply foreign_inv|done].
  - by split.
Qed.

Lemma process_reach_inv p : process_reach p -> process_inv p.
Proof.
  intros (s & Hs & Hr); assert (H0 : process_inv (mkServerProcess s WorkerTop false true false))
    by (split; [by eapply reach_inv|done]).
  revert H0; induction Hr as [|x y z Hstep _ IH]; [done|]; intros H; by apply IH, (process_step_inv x).
Qed.

(** The servers that are seen: between the steps of the threads, and where a step
    that does not return has stopped. *)
Inductive process_seen (p : ServerProcess) : Server -> Prop :=
| seen_between : process_seen p (pr_server p)
| seen_service B (m : srv B) : handler B m -> process_seen p (after (m (pr_server p)))
| seen_checkup :
    process_seen p (after (checkup_worker_step config (pr_checkup_stop p) (pr_checkup p) (pr_server p)))
| seen_worker fuel : worker_room p ->
    process_seen p (after (ingest_worker_step config fuel (pr_worker_stop p) (pr_worker p) (pr_server p))).

Lemma keeps_after {B} (m : srv B) s : keeps m -> inv s -> stored users egresses decode (sv_db (after (m s))).
Proof.
  intros Hm Hs; specialize (Hm s Hs); destruct (m s); [by eapply server_inv_stored|done..].
Qed.

Lemma quiet_keeps_stored {B} (m : srv B) s : quiet m -> inv s ->
  stored users egresses decode (sv_db (after (m s))).
Proof. intros Hm; apply keeps_after; by apply keeps_quiet. Qed.

Lemma worker_after_stored fuel p : process_inv p -> worker_room p ->
  stored users egresses decode
    (sv_db (after (ingest_worker_step config fuel (pr_worker_stop p) (pr_worker p) (pr_server p)))).
Proof.
  intros [Hinv Hok] Hroom; unfold worker_ok, worker_room in *.
  destruct (pr_worker p) as [|i idle|i block outputs|block outputs ts|]; simpl.
  - apply quiet_keeps_stored; [|done]; apply quiet_bind; [apply quiet_peek_state|]; intros st; apply quiet_ret.
  - apply quiet_keeps_stored; [|done]; destruct (pr_worker_stop p), idle; try apply quiet_ret.
    apply quiet_bind; [apply quiet_world|]; intros r; apply quiet_ret.
  - apply quiet_keeps_stored; [|done].
    apply quiet_bind; [apply quiet_watcher_timestamp|]; intros ts; apply quiet_ret.
  - destruct Hroom as [R1 R2].
    pose proof (hoare_process_next_block config users egresses Hplay decode Hcodec fuel block outputs ts R1
      (pr_server p) ltac:(split; [exact Hinv|split; [apply Hok|exact R2]])) as H.
    unfold mbind, srv_bind; destruct (process_next_block config fuel block outputs ts (pr_server p)); [|done..].
    destruct H as [H|[H _]]; [by eapply finished_stored|done].
  - by eapply server_inv_stored.
Qed.

(** The worker is about to hand over the next block of an active server. *)
Definition hands_over_next (p : ServerProcess) : Prop :=
  match pr_worker p with
  | WorkerStamped block _ _ => ics_mode (sv_state (pr_server p)) = Active
      /\ ics_next_block_index (sv_state (pr_server p)) = bh_index block
  | _ => True
  end.

(** C2: the whole ingest server keeps the search keys in the database in order.
    Its worker thread, its peer checkup thread and any calls of its two services
    run in any order, other servers write to the database, and a step may panic,
    block or retry.  As long as the enclave does not give up on a block, an rng
    output is in the database only if all earlier outputs of the same egress key
    and user are there, in the same or an earlier block; and the worker never
    hands the controller a block other than the next one of an active server. *)
Theorem process_keys_in_order p s e u :
  process_reach p -> process_seen p s -> egresses e -> users u ->
  used_in_order (landed_db decode (sv_db s)) (key_exchange e u) /\ hands_over_next p.
Proof.
  intros Hp Hs He Hu; apply process_reach_inv in Hp as [Hinv Hok]; split.
  - assert (Hst : stored users egresses decode (sv_db s)).
    { destruct Hs as [|B m Hh| |fuel Hroom]; [by eapply server_inv_stored| | |by apply worker_after_stored].
      - by apply keeps_after; [apply (handler_inherits _ keeps_inherited)|].
      - by apply keeps_after; [apply keeps_calm, checkup_calm|]. }
    destruct Hst as (_ & used & Hseq); eapply seq_inv_used_in_order; [exact Hseq|by exists e, u].
  - unfold hands_over_next; unfold worker_ok in Hok; by destruct (pr_worker p).
Qed.
End process.
