(* ===== verification/IngestExamples.v ===== *)
(** * The ingest server process, concretely

    The server of [IngestServerSpec] with a ledger; a run of its worker up to the
    block it hands over, and a race between two services. *)

From S2P Require Import Prelude FogTypes RecoveryTypes ObliviousMap.
From S2P Require Import KexRng UserRngSet Polling IngestEnclave IngestHistory RecoveryDb RecoveryDbWf ControllerState IngestController IngestServerSpec IngestServer IngestProcess.

Local Open Scope Z_scope.
Local Open Scope fog_scope.

Abbreviation DemoServer := (Server (OM := demo_omap) (E := demo_env)).
Abbreviation demo_srv := (srv (OM := demo_omap) (E := demo_env)).

(** ** The worker *)

#[local] Instance demo_ingest_ledger : IngestLedger (E := demo_env) := {|
  ledger_num_blocks := fun env => (Ok 5, env);
  get_block_data := fun env i => (Ok (mkBlockHeader i 100, demo_tx <$> [10; 20; 10]), env);
  get_block_timestamp := fun env i => (Ok (55, TimestampFound), env);
|}.

#[local] Instance demo_ingest_ledger_laws : IngestLedgerLaws (IL := demo_ingest_ledger).
Proof.
  split; [intros env n env' [= <- <-]; by vm_compute|by intros env i block outputs env' [= <- _ _]].
Qed.

Abbreviation DemoProcess := (ServerProcess (OM := demo_omap) (E := demo_env)).

Local Abbreviation demo_worker_step p :=
  (ingest_worker_step (OM := demo_omap) (E := demo_env) demo_config 1 (pr_worker_stop p) (pr_worker p) (pr_server p)).

Definition demo_advance (p : DemoProcess) : DemoProcess :=
  match demo_worker_step p with
  | Done pc s => mkServerProcess s pc (pr_worker_stop p) (pr_checkup p) (pr_checkup_stop p)
  | _ => p
  end.

Definition demo_process0 : DemoProcess := mkServerProcess demo_server1 WorkerTop false true false.
Definition demo_process3 : DemoProcess := demo_advance (demo_advance (demo_advance demo_process0)).

Definition demo_process_step := process_step (OM := demo_omap) (E := demo_env) (IL := demo_ingest_ledger)
  demo_config demo_users demo_egresses demo_decode_rows.

Lemma demo_advance_step p : (forall block outputs ts, pr_worker p <> WorkerStamped block outputs ts) ->
  rtc demo_process_step p (demo_advance p).
Proof.
  intros Hp; unfold demo_advance; destruct (ingest_worker_step _ _ _ _ _) as [pc s|s|s|s] eqn:Hs; try apply rtc_refl.
  apply rtc_once; eapply (ps_worker _ _ _ _ 1); [|exact Hs|].
  - unfold worker_room; destruct (pr_worker p); try done; by destruct (Hp block outputs timestamp).
  - unfold worker_unstuck; destruct (pr_worker p); try done; by destruct (Hp block outputs timestamp).
Qed.

Lemma demo_process3_worker :
  pr_worker demo_process3 = WorkerStamped demo_block (demo_tx <$> [10; 20; 10]) 55.
Proof. vm_compute; reflexivity. Qed.

Lemma demo_process3_run : rtc demo_process_step demo_process0 demo_process3.
Proof.
  unfold demo_process3; etrans; [apply demo_advance_step|].
  { intros ? ? ?; vm_compute; discriminate. }
  etrans; apply demo_advance_step; intros ? ? ?; vm_compute; discriminate.
Qed.

Lemma demo_process3_room : worker_room demo_decode_rows demo_process3.
Proof. unfold worker_room; rewrite demo_process3_worker; split; vm_compute; [by split|reflexivity]. Qed.

Lemma demo_process3_reach : process_reach (IL := demo_ingest_ledger) demo_config demo_users demo_egresses
  demo_decode_rows demo_process3.
Proof. exists demo_server1; split; [apply demo_server1_reach|apply demo_process3_run]. Qed.

Lemma demo_process3_rows :
  rows_total demo_decode_rows (sv_db (after (demo_worker_step demo_process3))) = 3.
Proof. vm_compute; reflexivity. Qed.

(** The three rows of the block are there after the step of the worker. *)
Lemma process_keys_in_order_witness :
  exists s, process_seen (IL := demo_ingest_ledger) demo_config demo_decode_rows demo_process3 s
    /\ rows_total demo_decode_rows (sv_db s) = 3
    /\ used_in_order (U := demo_ingest_user) (landed_db demo_decode_rows (sv_db s))
         (key_exchange (Kex := demo_ingest_kex) 1000 10).
Proof.
  pose proof (seen_worker (E := demo_env) (IL := demo_ingest_ledger) demo_config demo_decode_rows
    demo_process3 1 demo_process3_room) as Hseen.
  exists (after (demo_worker_step demo_process3)).
  split; [exact Hseen|]; split; [exact demo_process3_rows|].
  refine (proj1 (process_keys_in_order (E := demo_env) (IL := demo_ingest_ledger) demo_config demo_users
    demo_egresses demo_keys_in_play demo_decode_rows demo_codec_ok demo_process3
    (after (demo_worker_step demo_process3)) 1000 10 demo_process3_reach Hseen _ _)).
  - unfold demo_egresses; lia.
  - unfold demo_users; lia.
Defined.

(** ** A race *)

(** The two parts of [set_ingress_private_key]: the guard that looks at the mode
    is a temporary and is gone when the key is replaced. *)
Definition key_change_allowed : demo_srv bool := state ← peek_state; mret (is_idle state).

Definition replace_key (msg : list Z) : demo_srv (result unit _) :=
  r ← enclave_call (fun e => Ret (set_ingress_private_key e msg));
  match r with
  | Err e => mret (Err (ServiceEnclave e))
  | Ok _ => put_last_sealed_key None;; write_state_file demo_config;; mret (Ok tt)
  end.

Lemma set_ingress_private_key_parts msg s :
  controller_set_ingress_private_key demo_config msg s
    = (allowed ← key_change_allowed; if (allowed : bool) then replace_key msg else mret (Err ServerNotIdle)) s.
Proof.
  unfold controller_set_ingress_private_key, key_change_allowed, mbind, srv_bind, peek_state, with_guard, mbind,
    srv_bind, lock_state; destruct (sv_locked s); [done|]; simpl.
  by destruct (is_idle (sv_state s)).
Qed.

Lemma done_value {S B} (o : outcome S B) b s (Q : B -> Prop) :
  o = Done b s -> match o with Done b _ => Q b | _ => False end -> Q b.
Proof. by intros ->. Qed.

Definition summary_key {X} (r : result IngestSummary X) : Prop :=
  match r with Ok summary => sum_ingress_pubkey summary = [900] | Err _ => False end.

Lemma demo_summary_key :
  match activate demo_config 5 demo_server0 with Done r _ => summary_key r | _ => False end.
Proof. vm_compute; reflexivity. Qed.

(** What is left of the server when the key is replaced after the activation. *)
Definition raced {X} (o : outcome DemoServer (result unit X)) : Prop :=
  match o with
  | Done (Ok _) s =>
      ics_mode (sv_state s) = Active
      /\ get_ingress_pubkey (sv_enclave s) = Ok 901
      /\ db_ingress_keys (sv_db s) !! [901] = None
      /\ match demo_process s with Panicked _ => True | _ => False end
  | _ => False
  end.

Lemma demo_race : raced (replace_key [901] demo_server1).
Proof. vm_compute; repeat split. Qed.

(** The check that the server is idle and the replacement of its ingress key
    are two steps.  A peer's key that passes the check, while a call that
    activates the server finishes before the key is replaced, leaves an active
    server with a key that the database does not know, although the key may only
    be set when the server is idle; the worker panics on its next block. *)
Theorem set_key_races_activation :
  (forall msg s, controller_set_ingress_private_key demo_config msg s
     = (allowed ← key_change_allowed; if (allowed : bool) then replace_key msg else mret (Err ServerNotIdle)) s)
  /\ exists s0 summary,
    key_change_allowed demo_server0 = Done true s0
    /\ activate demo_config 5 s0 = Done (Ok summary) demo_server1
    /\ sum_ingress_pubkey summary = [900]
    /\ raced (replace_key [901] demo_server1).
Proof.
  split; [exact set_ingress_private_key_parts|].
  assert (Hs0 : key_change_allowed demo_server0 = Done true demo_server0) by reflexivity.
  destruct demo_activated as [b Hb]; pose proof (done_value _ _ _ summary_key Hb demo_summary_key) as Hsum.
  destruct b as [summary|e]; [|destruct Hsum]; exists demo_server0, summary.
  split; [exact Hs0|]; split; [exact Hb|]; split; [exact Hsum|exact demo_race].
Qed.
