(* ===== verification/PeerBackup.v ===== *)
(** * An active server and its backups

    A server that is activated first makes sure that every other peer is idle
    and holds its ingress key and its list of peers.  Here the peers are servers
    themselves: their side of a connection is the handlers of [IngestServer],
    behind a network that may lose a request or its answer.  The theorem is that
    a successful activation leaves every peer as such a backup. *)

From S2P Require Import Prelude FogTypes RecoveryTypes ObliviousMap.
From S2P Require Import KexRng UserRngSet IngestEnclave RecoveryDb ControllerState PeerConnection IngestController.
From S2P Require Import ControllerLock IngestServerSpec IngestServer.

Local Open Scope Z_scope.
Local Open Scope fog_scope.

(** ** What an answer says about the server that gave it *)

Section answers.
Context `{C : IngestCrypto} `{OM : ObliviousHashMap} `{A : PeerAke} `{E : !IngestEnv} `{IL : !IngestLedger}.
Context (config : IngestServerConfig).

Definition ingress_key_bytes (s : Server) : bytes :=
  public_to_bytes (public_from (ie_ingress_key (sv_enclave s))).

(** The summary shows the mode, the key and the peers of the server. *)
Record describes (s : Server) (summary : IngestSummary) : Prop := {
  desc_mode : sum_mode summary = ics_mode (sv_state s);
  desc_key : sum_ingress_pubkey summary = ingress_key_bytes s;
  desc_peers : sum_peers summary = peer_order (ics_peers (sv_state s));
}.

Lemma summary_describes s summary s' :
  get_ingest_summary s = Done summary s' ->
  describes s' summary /\ sv_state s' = sv_state s /\ sv_enclave s' = sv_enclave s.
Proof.
  intros Hs; pose proof (quiet_summary s) as Hq; rewrite Hs in Hq; destruct Hq as (H1 & H2 & _).
  split; [|done]; revert Hs; unfold get_ingest_summary, with_guard, mbind, srv_bind, lock_state.
  destruct (sv_locked s); [done|]; unfold get_ingest_summary_inner, kex_rng_pubkey_expect, mbind, srv_bind.
  simpl; unfold enclave_call; simpl; destruct (get_kex_rng_pubkey (sv_enclave s)) as [[k|err]|]; try done.
  simpl; intros [= <- <-]; by split.
Qed.

Lemma then_summary_inv {B X} (m : srv (result B X)) status s summary s' :
  then_summary m status s = Done (Ok summary) s' ->
  exists b s1, m s = Done (Ok b) s1 /\ get_ingest_summary s1 = Done summary s'.
Proof.
  unfold then_summary, mbind, srv_bind; destruct (m s) as [[b|e] s1|s1|s1|s1]; try done.
  destruct (get_ingest_summary s1) as [sm s2|s2|s2|s2] eqn:Hs; try done.
  intros [= <- <-]; by exists b, s1.
Qed.

(** The three answers that are summaries. *)
Lemma status_answer s summary s' :
  get_status_impl s = Done (Ok summary) s' ->
  describes s' summary /\ sv_state s' = sv_state s /\ sv_enclave s' = sv_enclave s.
Proof.
  unfold get_status_impl, mbind, srv_bind; destruct (get_ingest_summary s) as [sm s1|s1|s1|s1] eqn:Hs; try done.
  intros [= -> ->]; by apply summary_describes.
Qed.

Lemma set_key_state msg s b s' :
  controller_set_ingress_private_key config msg s = Done b s' -> sv_state s' = sv_state s.
Proof.
  unfold controller_set_ingress_private_key, peek_state, with_guard, mbind, srv_bind, lock_state.
  destruct (sv_locked s); [done|]; simpl; destruct (is_idle (sv_state s)); simpl; [|by intros [= <- <-]].
  unfold enclave_call; simpl; destruct (set_ingress_private_key (sv_enclave s) msg) as [[k|e] e']; [|by intros [= <- <-]].
  set (s1 := mkServer _ _ _ _ _ _ _).
  pose proof (quiet_write_state_file config s1) as Hq.
  destruct (write_state_file config s1) as [u s2|s2|s2|s2] eqn:Hw; try done.
  intros [= <- <-]; by destruct Hq as (-> & _).
Qed.

Lemma set_key_answer msg s summary s' :
  set_ingress_private_key_impl config msg s = Done (Ok summary) s' ->
  describes s' summary /\ sv_state s' = sv_state s.
Proof.
  intros (b & s1 & Hm & Hs)%then_summary_inv; apply set_key_state in Hm.
  apply summary_describes in Hs as (Hd & H1 & _); split; [done|congruence].
Qed.

Lemma set_peers_answer uris s summary s' :
  set_peers_impl config uris s = Done (Ok summary) s' ->
  describes s' summary /\ ics_mode (sv_state s') = ics_mode (sv_state s) /\ sv_enclave s' = sv_enclave s.
Proof.
  unfold set_peers_impl; destruct (parse_uris uris) as [peers|e]; [|done].
  intros (b & s1 & Hm & Hs)%then_summary_inv; apply summary_describes in Hs as (Hd & H1 & H2).
  split; [done|]; rewrite H1, H2; revert Hm.
  unfold controller_set_peers, set_peers_inner, with_guard, mbind, srv_bind, lock_state.
  destruct (sv_locked s); [done|]; destruct (peers_by_responder_id peers ∅) as [by_id|e]; [|done].
  destruct (by_id !! cfg_local_node_id config); [|done]; simpl; intros [= _ <-]; simpl.
  split; [|done]; unfold set_peers; by destruct (_ || _).
Qed.

Lemma auth_answer req s b s' :
  auth_impl req s = Done b s' -> sv_state s' = sv_state s /\ same_keys (sv_enclave s) (sv_enclave s').
Proof.
  unfold auth_impl, controller_peer_accept, mbind, srv_bind, enclave_call.
  pose proof (on_ake_same_keys (fun ake => ake_peer_accept ake req) (sv_enclave s)) as Hk; fold (peer_accept (sv_enclave s) req) in Hk.
  destruct (peer_accept (sv_enclave s) req) as [r e]; by intros [= <- <-].
Qed.
End answers.

(** ** A server and its peers *)

Inductive Fate := Delivered | RequestLost | AnswerLost.

(** Uris and compressed keys are compared by their bytes. *)
Class PeerUriLaws `{E : IngestEnv} : Prop := {
  parse_uri_same : forall u u', parse_uri u = Ok u' -> u' = u;
  compressed_same : forall b k, compressed_try_from b = Ok k -> k = b;
  elem_of_peer_order : forall u (peers : gset (list Z)), u ∈ peer_order peers <-> u ∈ peers;
  NoDup_peer_order : forall peers, NoDup (peer_order peers);
}.

Section network.
Context `{C : IngestCrypto} `{OM : ObliviousHashMap} `{A : PeerAke} (E0 : IngestEnv).
Context (peer_config : IngestPeerUri -> IngestServerConfig) (status_code : IngestRpcError -> Z).
Abbreviation Peer := (Server (E := E0)).
Abbreviation EnclaveError := (IngestEnclaveError SgxError PeerAkeError).

(** The peers by uri, and what becomes of the next messages. *)
Record Network := mkNetwork {
  net_peers : gmap (list Z) Peer;
  net_fates : list Fate;
}.

Definition unavailable : EnclaveConnection.GrpcError := EnclaveConnection.OtherGrpcError 14.

(** A request is handled by the peer.  A handler that does not return gives no answer. *)
Definition serve {B} (handler : srv (E := E0) (result B IngestRpcError)) (uri : IngestPeerUri) (net : Network)
  : result B EnclaveConnection.GrpcError * Network :=
  let fate := default Delivered (head (net_fates net)) in
  let fates := tail (net_fates net) in
  match fate, net_peers net !! uri with
  | RequestLost, _ | _, None => (Err unavailable, mkNetwork (net_peers net) fates)
  | _, Some r =>
      let net' := mkNetwork (<[uri := after (handler r)]> (net_peers net)) fates in
      match fate, handler r with
      | Delivered, Done (Ok b) _ => (Ok b, net')
      | Delivered, Done (Err e) _ => (Err (EnclaveConnection.RpcFailure (status_code e)), net')
      | _, _ => (Err unavailable, net')
      end
  end.

Abbreviation World := (Env (IngestEnv := E0) * Network)%type.

Definition on_base {B} (f : Env (IngestEnv := E0) -> B * Env (IngestEnv := E0)) (w : World) : B * World :=
  let '(b, env) := f w.1 in (b, (env, w.2)).

Definition on_net {B} (f : Network -> B * Network) (w : World) : B * World :=
  let '(b, net) := f w.2 in (b, (w.1, net)).

#[local] Instance network_grpc : PeerGrpc World := {|
  responder_id := @responder_id _ _ (peer_grpc (IngestEnv := E0));
  peer_order := @peer_order _ _ (peer_grpc (IngestEnv := E0));
  rpc_auth := fun w uri req => on_net (serve (auth_impl (E := E0) req) uri) w;
  rpc_get_status := fun w uri => on_net (serve (get_status_impl (E := E0)) uri) w;
  rpc_set_peers := fun w uri peers =>
    on_net (serve (set_peers_impl (E := E0) (peer_config uri) peers) uri) w;
  rpc_get_ingress_private_key := fun w uri session =>
    on_net (serve (get_ingress_private_key_impl (E := E0) session) uri) w;
  rpc_set_ingress_private_key := fun w uri msg =>
    on_net (serve (set_ingress_private_key_impl (E := E0) (peer_config uri) msg) uri) w;
|}.

Context (call : forall T, (PeerWorld World -> PeerWorld World * result T EnclaveConnection.GrpcError) ->
  PeerWorld World -> PeerWorld World * result T (PeerAttestationError EnclaveError)).
Context (Hcall : attested_call_in_session call).

(** The world of the server that has these peers. *)
Definition paired : IngestEnv := {|
  Env := World;
  Report := Report (IngestEnv := E0);
  pool_get := on_base (pool_get (IngestEnv := E0));
  clock := on_base (clock (IngestEnv := E0));
  encode_block_data := encode_block_data (IngestEnv := E0);
  encode_report := encode_report (IngestEnv := E0);
  refresh_report_cache := on_base (refresh_report_cache (IngestEnv := E0));
  get_ias_report := on_base (get_ias_report (IngestEnv := E0));
  parse_uri := parse_uri (IngestEnv := E0);
  compressed_try_from := compressed_try_from (IngestEnv := E0);
  peer_grpc := network_grpc;
  attested_call := call;
  attested_call_ok := Hcall;
  state_file_write := on_base (state_file_write (IngestEnv := E0));
|}.
Abbreviation Local := (Server (E := paired)).
Implicit Types (s : Local) (r : Peer) (p : PeerWorld World).

(** *** Requests *)

(** A request changes nothing but the peer it goes to. *)
Definition others_same (uri : IngestPeerUri) (m m' : gmap (list Z) Peer) : Prop :=
  forall u, u <> uri -> m' !! u = m !! u.

Lemma others_same_trans uri m1 m2 m3 : others_same uri m1 m2 -> others_same uri m2 m3 -> others_same uri m1 m3.
Proof. intros H1 H2 u Hu; rewrite H2, H1; done. Qed.

Lemma serve_others {B} (h : srv (E := E0) (result B IngestRpcError)) uri net :
  others_same uri (net_peers net) (net_peers (serve h uri net).2).
Proof.
  intros u Hu; unfold serve; destruct (default Delivered _), (net_peers net !! uri) as [r|]; try done;
    destruct (h r) as [[]| | |]; simpl; by rewrite lookup_insert_ne.
Qed.

Lemma serve_ok {B} (h : srv (E := E0) (result B IngestRpcError)) uri net b net' :
  serve h uri net = (Ok b, net') ->
  exists r r', net_peers net !! uri = Some r /\ h r = Done (Ok b) r' /\ net_peers net' !! uri = Some r'.
Proof.
  unfold serve; destruct (default Delivered _), (net_peers net !! uri) as [r|] eqn:Hr; try done;
    destruct (h r) as [[x|e] r'|r'|r'|r'] eqn:Hh; try done.
  intros [= -> <-]; exists r, r'; split_and!; [done|done|]; simpl; by rewrite lookup_insert_eq.
Qed.

Definition peers_of p : gmap (list Z) Peer := net_peers (pw_grpc p).2.

Lemma on_channel_ok {B} (f : IngestPeerUri -> srv (E := E0) (result B IngestRpcError)) p p' b :
  on_channel (fun g uri => on_net (serve (f uri) uri) g) p = (p', Ok b) ->
  pw_conn p' = pw_conn p /\ others_same (pc_uri (pw_conn p)) (peers_of p) (peers_of p')
  /\ exists r r', peers_of p !! pc_uri (pw_conn p) = Some r /\ f (pc_uri (pw_conn p)) r = Done (Ok b) r'
       /\ peers_of p' !! pc_uri (pw_conn p) = Some r'.
Proof.
  unfold on_channel, on_net; set (uri := pc_uri (pw_conn p)).
  pose proof (serve_others (f uri) uri (pw_grpc p).2) as Ho.
  destruct (serve (f uri) uri (pw_grpc p).2) as [x net'] eqn:Hs; intros [= <- ->].
  split; [done|]; split; [exact Ho|]; by apply serve_ok in Hs.
Qed.

(** What a completed call over the connection leaves: the same connection but for its
    session, the other peers as they were, and the peer [r] as [r']. *)
Definition answered p p' (r r' : Peer) : Prop :=
  pc_uri (pw_conn p') = pc_uri (pw_conn p)
  /\ others_same (pc_uri (pw_conn p)) (peers_of p) (peers_of p')
  /\ peers_of p !! pc_uri (pw_conn p) = Some r /\ peers_of p' !! pc_uri (pw_conn p) = Some r'.

Lemma conn_status_ok p p' summary :
  conn_get_status p = (p', Ok summary) ->
  exists r r', answered p p' r r' /\ describes r' summary /\ sv_state r' = sv_state r
    /\ same_keys (sv_enclave r) (sv_enclave r').
Proof.
  unfold conn_get_status; destruct (on_channel rpc_get_status p) as [p1 [sm|e]] eqn:Hc; [|done].
  intros [= <- <-]; apply (on_channel_ok (fun _ => get_status_impl)) in Hc as (H1 & H2 & r & r' & H3 & H4 & H5).
  apply status_answer in H4 as (Hd & Hs & He); exists r, r'; split; [unfold answered; by rewrite H1|]; by rewrite He.
Qed.

Lemma conn_set_peers_ok peers p p' summary :
  conn_set_peers peers p = (p', Ok summary) ->
  exists r r', answered p p' r r' /\ describes r' summary
    /\ ics_mode (sv_state r') = ics_mode (sv_state r) /\ sv_enclave r' = sv_enclave r.
Proof.
  unfold conn_set_peers; destruct (on_channel _ p) as [p1 [sm|e]] eqn:Hc; [|done]; intros [= <- <-].
  apply (on_channel_ok (fun uri => set_peers_impl (peer_config uri) (peer_order peers))) in Hc
    as (H1 & H2 & r & r' & H3 & H4 & H5).
  apply set_peers_answer in H4 as (Hd & Hs & He); exists r, r'; split; [unfold answered; by rewrite H1|done].
Qed.

(** A session is there, or a new one is made, which leaves the state of the peer alone. *)
Lemma ensure_attested_ok p p' :
  ensure_attested p = (p', Ok tt) ->
  pc_uri (pw_conn p') = pc_uri (pw_conn p) /\ others_same (pc_uri (pw_conn p)) (peers_of p) (peers_of p')
  /\ (peers_of p' = peers_of p
      \/ exists r r', peers_of p !! pc_uri (pw_conn p) = Some r /\ peers_of p' !! pc_uri (pw_conn p) = Some r'
           /\ sv_state r' = sv_state r).
Proof.
  unfold ensure_attested; destruct (pc_channel_id (pw_conn p)) as [session|] eqn:Hs.
  { intros [= <-]; split; [done|]; split; [by intros u|by left]. }
  unfold PeerConnection_attest, PeerConnection_deattest, PeerConnection_is_attested; rewrite Hs.
  unfold on_enclave; destruct (peer_init _ _) as [[req|e] e1]; [|done].
  set (p1 := mkPeerWorld _ _ _); destruct (on_channel _ p1) as [p2 [res|e]] eqn:Hc; [|done].
  apply (on_channel_ok (fun _ => auth_impl req)) in Hc as (H1 & H2 & r & r' & H3 & H4 & H5).
  destruct (peer_connect _ _ _) as [[[session report]|e] e2]; [|done]; simpl; intros [= <-].
  apply auth_answer in H4 as [H4 _]; split; [simpl; by rewrite H1|]; split; [exact H2|right].
  by exists r, r'.
Qed.

Lemma attested_call_ok_inv {T} (f : PeerWorld World -> PeerWorld World * result T EnclaveConnection.GrpcError) p p' t :
  PeerConnection_is_attested p = true -> call T f p = (p', Ok t) -> f p = (p', Ok t).
Proof. intros Hp; rewrite Hcall by done; destruct (f p) as [p1 [x|[]]]; congruence. Qed.

Lemma conn_set_key_ok key p p' summary :
  conn_set_ingress_private_key call key p = (p', Ok summary) ->
  exists r r', answered p p' r r' /\ describes r' summary /\ sv_state r' = sv_state r.
Proof.
  unfold conn_set_ingress_private_key; destruct (ensure_attested p) as [p1 [[]|e]] eqn:Ha; [|done].
  apply ensure_attested_ok in Ha as (Hu & Ho & Hr).
  destruct (pc_channel_id (pw_conn p1)) as [session|] eqn:Hs; [|done].
  unfold on_enclave; destruct (get_ingress_private_key _ session) as [[[msg pubkey]|e] e1]; [|done].
  case_bool_decide; [|done]; simpl; set (p2 := mkPeerWorld _ _ _).
  destruct (call _ _ p2) as [p3 [sm|e]] eqn:Hc; [|done]; intros [= <- <-].
  apply attested_call_ok_inv in Hc; [|unfold PeerConnection_is_attested; simpl; by rewrite Hs].
  apply (on_channel_ok (fun uri => set_ingress_private_key_impl (peer_config uri) msg)) in Hc
    as (H1 & H2 & r & r' & H3 & H4 & H5).
  apply set_key_answer in H4 as [Hd Hst]; simpl in H2, H3, H5; rewrite Hu in H2, H3, H5.
  assert (Hr0 : exists r0, peers_of p !! pc_uri (pw_conn p) = Some r0 /\ sv_state r = sv_state r0).
  { unfold peers_of in H3; simpl in H3; fold (peers_of p1) in H3.
    destruct Hr as [Hr|(r0 & r1 & Hr0 & Hr1 & Heq)]; [rewrite Hr in H3; eauto|].
    exists r0; split; [done|]; congruence. }
  destruct Hr0 as (r0 & Hr0 & Heq); exists r0, r'; split; [|split; [done|congruence]].
  split; [by rewrite H1|]; split; [by eapply others_same_trans|done].
Qed.

(** *** The controller *)

Context `{UL : !PeerUriLaws (E := E0)}.
Context (config : IngestServerConfig).

Definition local_peers s : gmap (list Z) Peer := net_peers (sv_env s).2.

(** The peer is an idle backup of the key, with the list of peers. *)
Definition backs_up (r : Peer) (key : bytes) (peers : gset (list Z)) : Prop :=
  ics_mode (sv_state r) = Idle /\ ingress_key_bytes r = key /\ ics_peers (sv_state r) = peers.

Lemma on_connection_ok {B X} conn (f : PeerWorld World -> PeerWorld World * result B X) s conn' b s' :
  on_connection (E := paired) conn f s = Done (conn', Ok b) s' ->
  exists p', f (mkPeerWorld conn (sv_enclave s) (sv_env s)) = (p', Ok b)
    /\ conn' = pw_conn p' /\ local_peers s' = peers_of p'.
Proof.
  unfold on_connection; destruct (f _) as [p' r]; intros [= <- -> <-]; by exists p'.
Qed.

Lemma parse_peers_set uris ps : parse_peers (E := paired) uris = Ok ps -> ps = list_to_set uris.
Proof.
  revert ps; induction uris as [|u uris IH]; intros ps; simpl; [by intros [= <-]|].
  destruct (parse_uri u) as [u'|] eqn:Hu; [|done]; apply parse_uri_same in Hu as ->; simpl.
  destruct (parse_peers uris) as [rest|]; [|done]; simpl; intros [= <-]; by rewrite (IH rest eq_refl).
Qed.

Lemma described_peers r summary ps :
  describes r summary -> get_sorted_peers (E := paired) summary = Ok ps -> ps = ics_peers (sv_state r).
Proof.
  intros [_ _ Hp] ->%parse_peers_set; rewrite Hp; apply set_eq; intros u.
  rewrite elem_of_list_to_set; apply elem_of_peer_order.
Qed.

Lemma described_key r summary k :
  describes r summary -> compressed_try_from (sum_ingress_pubkey summary) = Ok k -> k = ingress_key_bytes r.
Proof. intros [_ Hk _] ->%compressed_same; exact Hk. Qed.

(** Sending the key, if it has to be sent. *)
Lemma update_key_ok conn key s conn' s' r :
  local_peers s !! pc_uri conn = Some r ->
  update_peer_key (E := paired) conn key s = Done (conn', Ok tt) s' ->
  pc_uri conn' = pc_uri conn /\ others_same (pc_uri conn) (local_peers s) (local_peers s')
  /\ exists r', local_peers s' !! pc_uri conn = Some r' /\ sv_state r' = sv_state r /\ ingress_key_bytes r' = key.
Proof.
  intros Hr; unfold update_peer_key, mbind, srv_bind.
  destruct (on_connection _ _ s) as [[conn1 [summary|e]] s1|s1|s1|s1] eqn:Hc; try done; simpl.
  apply on_connection_ok in Hc as (p' & Hc & -> & Hs1); apply conn_set_key_ok in Hc as (r0 & r' & Ha & Hd & Hst).
  destruct (compressed_try_from _) as [k|] eqn:Hk; [|done]; simpl; case_bool_decide as Heq; [|done].
  apply (described_key r') in Hk; [|done]; intros [= <- <-]; destruct Ha as (H1 & H2 & H3 & H4); simpl in *.
  rewrite <- Hs1 in H2, H4; split; [done|]; split; [done|]; exists r'; split; [done|].
  split; [|congruence]; unfold local_peers in Hr; unfold peers_of in H3; simpl in H3; congruence.
Qed.

Lemma update_peers_ok conn peers s s' r :
  local_peers s !! pc_uri conn = Some r ->
  update_peer_peers (E := paired) conn peers s = Done (Ok tt) s' ->
  others_same (pc_uri conn) (local_peers s) (local_peers s')
  /\ exists r', local_peers s' !! pc_uri conn = Some r' /\ ics_mode (sv_state r') = ics_mode (sv_state r)
       /\ sv_enclave r' = sv_enclave r /\ ics_peers (sv_state r') = peers.
Proof.
  intros Hr; unfold update_peer_peers, mbind, srv_bind.
  destruct (on_connection _ _ s) as [[conn1 [summary|e]] s1|s1|s1|s1] eqn:Hc; try done; simpl.
  apply on_connection_ok in Hc as (p' & Hc & -> & Hs1); apply conn_set_peers_ok in Hc as (r0 & r' & Ha & Hd & Hm & He).
  destruct (get_sorted_peers summary) as [ps|] eqn:Hps; [|done]; simpl; case_bool_decide as Heq; [|done].
  apply (described_peers r') in Hps; [|done]; intros [= <-]; destruct Ha as (H1 & H2 & H3 & H4); simpl in *.
  rewrite <- Hs1 in H2, H4; split; [done|]; exists r'; split; [done|].
  assert (r0 = r) as -> by (unfold local_peers in Hr; unfold peers_of in H3; simpl in H3; congruence).
  split; [done|]; split; [done|congruence].
Qed.

Lemma check_backup_ok conn summary key peers s s' r :
  local_peers s !! pc_uri conn = Some r -> describes r summary -> ics_mode (sv_state r) = Idle ->
  check_backup (E := paired) conn summary key peers true s = Done (Ok tt) s' ->
  others_same (pc_uri conn) (local_peers s) (local_peers s')
  /\ exists r', local_peers s' !! pc_uri conn = Some r' /\ backs_up r' key peers.
Proof.
  intros Hr Hd Hidle; unfold check_backup, mbind, srv_bind.
  destruct (compressed_try_from _) as [k|] eqn:Hk; [|done]; apply (described_key r) in Hk; [|done].
  set (step := if _ && _ then _ else _).
  assert (Hstep : forall conn' s1, step s = Done (conn', Ok tt) s1 ->
    pc_uri conn' = pc_uri conn /\ others_same (pc_uri conn) (local_peers s) (local_peers s1)
    /\ exists r', local_peers s1 !! pc_uri conn = Some r' /\ sv_state r' = sv_state r /\ ingress_key_bytes r' = key).
  { intros conn' s1; unfold step; case_bool_decide as Heq; simpl; [|by apply update_key_ok].
    intros [= <- <-]; split; [done|]; split; [by intros u|]; exists r; split_and!; congruence. }
  destruct (step s) as [[conn1 [[]|e]] s1|s1|s1|s1]; try done.
  destruct (Hstep conn1 s1 eq_refl) as (Hu & Ho & r1 & Hr1 & Hst & Hkey).
  destruct (get_sorted_peers summary) as [ps|] eqn:Hps; [|done]; apply (described_peers r) in Hps; [|done].
  case_bool_decide as Heq; simpl.
  - intros [= <-]; split; [done|]; exists r1; split; [done|]; unfold backs_up; rewrite Hst; split_and!; congruence.
  - rewrite <- Hu in Hr1; intros Hup; destruct (update_peers_ok _ _ _ _ _ Hr1 Hup) as (Ho' & r2 & Hr2 & Hm & He & Hp).
    rewrite Hu in Ho', Hr2; split; [by eapply others_same_trans|]; exists r2; split; [done|].
    unfold backs_up, ingress_key_bytes in *; rewrite Hm, He, Hst; split_and!; congruence.
Qed.

(** *** All peers *)

Definition uris_of (conns : list (PeerConnection * IngestSummary)) : list IngestPeerUri := pc_uri ∘ fst <$> conns.

Definition same_outside (uris : list IngestPeerUri) (m m' : gmap (list Z) Peer) : Prop :=
  forall u, u ∉ uris -> m' !! u = m !! u.

Lemma same_outside_cons uri uris m1 m2 m3 :
  others_same uri m1 m2 -> same_outside uris m2 m3 -> same_outside (uri :: uris) m1 m3.
Proof. intros H1 H2 u [Hu1 Hu2]%not_elem_of_cons; by rewrite H2, H1. Qed.

Lemma connect_ok id uri s conn s' : connect (E := paired) id uri s = Done conn s' -> s' = s /\ pc_uri conn = uri.
Proof.
  unfold connect, PeerConnection_new; destruct (responder_id uri); [|done]; by intros [= <- <-].
Qed.

(** A connection to each peer but ourselves. *)
Lemma peer_connections_ok peers s conns s' :
  peer_connections (E := paired) config peers s = Done conns s' ->
  s' = s /\ pc_uri <$> conns `sublist_of` peers
  /\ forall uri id, uri ∈ peers -> responder_id uri = Ok id -> id <> cfg_local_node_id config ->
       uri ∈ pc_uri <$> conns.
Proof.
  revert conns s'; induction peers as [|peer peers IH]; intros conns s'; simpl.
  { intros [= <- <-]; split; [done|]; split; [done|]; intros uri id Hin; by apply elem_of_nil in Hin. }
  unfold mbind, srv_bind; destruct (responder_id peer) as [id|e] eqn:Hid; [|done]; simpl; case_bool_decide as Hown.
  - intros (-> & H1 & H2)%IH; split; [done|]; split; [by apply sublist_cons|].
    intros uri id' [->|Hin]%elem_of_cons Hid' Hne; [congruence|by eapply H2].
  - destruct (connect _ peer s) as [conn s0|s0|s0|s0] eqn:Hconn; try done; apply connect_ok in Hconn as [-> Huri].
    destruct (peer_connections config peers s) as [rest s1|s1|s1|s1]; try done.
    destruct (IH rest s1 eq_refl) as (-> & H1 & H2); intros [= <- <-]; split; [done|]; simpl; rewrite Huri.
    split; [by apply sublist_skip|]; intros uri id' [->|Hin]%elem_of_cons Hid' Hne;
      [by apply elem_of_cons; left|apply elem_of_cons; right; by eapply H2].
Qed.

(** The peer gave this summary and is idle. *)
Definition asked (m : gmap (list Z) Peer) (c : PeerConnection * IngestSummary) : Prop :=
  exists r, m !! pc_uri c.1 = Some r /\ describes r c.2 /\ ics_mode (sv_state r) = Idle.

Lemma asked_same m m' uris l : same_outside uris m m' -> (forall c, c ∈ l -> pc_uri c.1 ∉ uris) ->
  Forall (asked m) l -> Forall (asked m') l.
Proof.
  intros Hm Hout; rewrite !Forall_forall; intros H c Hc; destruct (H c Hc) as (r & Hr & Hd).
  exists r; rewrite (Hm _ (Hout c Hc)); done.
Qed.

Lemma peer_summaries_ok conns s l s' :
  NoDup (pc_uri <$> conns) -> peer_summaries (E := paired) conns s = Done (Ok l) s' ->
  uris_of l = pc_uri <$> conns /\ Forall (asked (local_peers s')) l
  /\ same_outside (pc_uri <$> conns) (local_peers s) (local_peers s').
Proof.
  revert s l s'; induction conns as [|conn conns IH]; intros s l s' Hnd; simpl.
  { by intros [= <- <-]. }
  apply NoDup_cons in Hnd as [Hnew Hnd]; unfold mbind, srv_bind.
  destruct (on_connection conn _ s) as [[conn1 [summary|e]] s1|s1|s1|s1] eqn:Hc; try done.
  apply on_connection_ok in Hc as (p' & Hc & -> & Hs1); apply conn_status_ok in Hc as (r & r' & Ha & Hd & Hst & _).
  destruct Ha as (H1 & H2 & _ & H4); simpl in *; rewrite <- Hs1 in H2, H4.
  destruct (sum_mode summary) eqn:Hmode; [|done].
  destruct (peer_summaries conns s1) as [[rest|e] s2|s2|s2|s2] eqn:Hrest; try done; simpl; intros [= <- <-].
  destruct (IH s1 rest s2 Hnd Hrest) as (Hu & Hall & Hout).
  split; [change (pc_uri (pw_conn p') :: uris_of rest = pc_uri conn :: (pc_uri <$> conns)); by rewrite H1, Hu|]; split; [constructor; [|done]|by eapply same_outside_cons].
  exists r'; simpl; rewrite H1, (Hout _ Hnew); split; [done|]; split; [done|].
  by rewrite <- (desc_mode _ _ Hd), Hmode.
Qed.

Lemma confirm_backups_ok l key peers s s' :
  NoDup (uris_of l) -> Forall (asked (local_peers s)) l ->
  confirm_backups (E := paired) l key peers s = Done (Ok tt) s' ->
  same_outside (uris_of l) (local_peers s) (local_peers s')
  /\ forall uri, uri ∈ uris_of l -> exists r, local_peers s' !! uri = Some r /\ backs_up r key peers.
Proof.
  revert s s'; induction l as [|[conn summary] l IH]; intros s s' Hnd Hall; simpl.
  { intros [= <-]; split; [by intros u|]; intros u Hu; by apply elem_of_nil in Hu. }
  apply NoDup_cons in Hnd as [Hnew Hnd]; apply Forall_cons in Hall as [(r & Hr & Hd & Hidle) Hall]; simpl in *.
  unfold mbind, srv_bind; unfold confirm_backup at 1; unfold mbind, srv_bind, mret, srv_ret.
  destruct (sum_mode summary) eqn:Hmode; [|done].
  destruct (check_backup conn summary key peers true s) as [[[]|e] s1|s1|s1|s1] eqn:Hc; try done; intros Hrest.
  destruct (check_backup_ok _ _ _ _ _ _ _ Hr Hd Hidle Hc) as (Ho & r1 & Hr1 & Hb).
  assert (Hall1 : Forall (asked (local_peers s1)) l).
  { eapply (asked_same _ _ [pc_uri conn]); [|intros c Hin Heq%list_elem_of_singleton|done].
    - intros u Hu; apply Ho; intros ->; apply Hu, list_elem_of_singleton; done.
    - apply Hnew; rewrite <- Heq; apply (list_elem_of_fmap_2 (pc_uri ∘ fst)), Hin. }
  destruct (IH s1 s' Hnd Hall1 Hrest) as (Hout & Hup); split; [by eapply same_outside_cons|].
  intros uri [->|Hin]%elem_of_cons; [|by apply Hup]; exists r1; by rewrite (Hout _ Hnew).
Qed.

(** *** The steps that do not reach the peers *)

Record settled (s s' : Local) : Prop := {
  set_net : local_peers s' = local_peers s;
  set_keys : same_keys (sv_enclave s) (sv_enclave s');
  set_list : ics_peers (sv_state s') = ics_peers (sv_state s);
}.

#[local] Instance settled_preorder : PreOrder settled.
Proof.
  split; [by intros s|]; intros s1 s2 s3 [A1 A2 A3] [B1 B2 B3].
  split; [congruence|by etrans|congruence].
Qed.

Definition settles {B} (m : srv (E := paired) B) : Prop := forall s b s', m s = Done b s' -> settled s s'.

Lemma settles_bind {B D} (m : srv (E := paired) B) (f : B -> srv (E := paired) D) :
  settles m -> (forall b, settles (f b)) -> settles (m ≫= f).
Proof.
  intros Hm Hf s d s'; unfold mbind, srv_bind; destruct (m s) as [b s1|s1|s1|s1] eqn:H1; try done.
  intros H2; etrans; [by eapply Hm|by eapply Hf].
Qed.

Lemma settles_still {B} (m : srv (E := paired) B) :
  (forall s b s', m s = Done b s' -> s' = s) -> settles m.
Proof. intros Hm s b s' ->%Hm; done. Qed.

Lemma settles_ret {B} (b : B) : settles (mret b).
Proof. apply settles_still; by intros s b' s' [= _ <-]. Qed.
Lemma settles_expect {B X} (r : result B X) : settles (expect r).
Proof. destruct r; [apply settles_ret|by intros s b s']. Qed.
Lemma settles_assert b : settles (assert b).
Proof. destruct b; [apply settles_ret|by intros s x s']. Qed.
Lemma settles_enclave_read {B} (f : SgxIngestEnclave -> B) : settles (enclave_read f).
Proof. apply settles_still; by intros s b s' [= _ <-]. Qed.
Lemma settles_get_state : settles get_state.
Proof. apply settles_still; by intros s b s' [= _ <-]. Qed.
Lemma settles_out_of_fuel {B} : settles (@out_of_fuel _ _ _ _ _ paired B).
Proof. by intros s b s'. Qed.
Lemma settles_lock_state : settles lock_state.
Proof. intros s b s'; unfold lock_state; destruct (sv_locked s); [done|]; by intros [= _ <-]. Qed.
Lemma settles_unlock_state : settles unlock_state.
Proof. by intros s b s' [= _ <-]. Qed.
Lemma settles_get_last_sealed_key : settles get_last_sealed_key.
Proof. by intros s b s' [= _ <-]. Qed.
Lemma settles_put_last_sealed_key k : settles (put_last_sealed_key k).
Proof. by intros s b s' [= _ <-]. Qed.
Lemma settles_put_state_file f : settles (put_state_file f).
Proof. by intros s b s' [= _ <-]. Qed.
Lemma settles_base {B} (f : Env (IngestEnv := E0) -> B * Env (IngestEnv := E0)) :
  settles (world (E := paired) (on_base f)).
Proof. intros s b s'; unfold world, on_base; destruct (f _); by intros [= _ <-]. Qed.
Lemma settles_kex_rng_pubkey : settles kex_rng_pubkey_expect.
Proof.
  apply settles_bind; [|intros r; apply settles_expect].
  intros s b s'; unfold enclave_call; destruct (get_kex_rng_pubkey _); [|done]; by intros [= _ <-].
Qed.
Lemma settles_db_call {B} (op : result unit Z -> Z -> tx B) : settles (db_call (E := paired) op).
Proof.
  intros s b s'; unfold db_call; simpl; unfold on_base.
  destruct (pool_get (sv_env s).1) as [pool env], (clock env) as [now env'] eqn:Hc; simpl; rewrite Hc.
  destruct (op pool now (sv_db s)); by intros [= _ <-].
Qed.

Create HintDb settles.
Hint Resolve settles_ret settles_expect settles_assert settles_enclave_read settles_get_state settles_out_of_fuel
  settles_lock_state settles_unlock_state settles_get_last_sealed_key settles_put_last_sealed_key
  settles_put_state_file settles_kex_rng_pubkey settles_db_call : settles.
Hint Extern 1 (settles (world _)) => apply settles_base : settles.
Ltac solve_settles :=
  repeat first [ solve [eauto with settles] | apply settles_bind; [|intros ?] | case_match ].

Lemma settles_with_guard {B} (f : IngestControllerState -> srv (E := paired) B) :
  (forall st, settles (f st)) -> settles (with_guard f).
Proof. intros Hf; unfold with_guard; solve_settles. Qed.
Lemma settles_ingress_pubkey : settles ingress_pubkey_bytes.
Proof. unfold ingress_pubkey_bytes; solve_settles. Qed.
Hint Resolve settles_with_guard settles_ingress_pubkey : settles.
Lemma settles_summary_inner : settles get_ingest_summary_inner.
Proof. unfold get_ingest_summary_inner; solve_settles. Qed.
Hint Resolve settles_summary_inner : settles.
Lemma settles_matching_sealed_key n : settles (matching_sealed_key n).
Proof. induction n as [|n IH]; simpl; solve_settles. Qed.
Hint Resolve settles_matching_sealed_key : settles.
Lemma settles_write_state_file : settles (write_state_file config).
Proof. unfold write_state_file, write_state_file_inner; solve_settles. Qed.
Lemma settles_summary : settles get_ingest_summary.
Proof. unfold get_ingest_summary; solve_settles. Qed.
Lemma settles_find_start_block key n : settles (find_start_block key n).
Proof. unfold find_start_block; solve_settles. Qed.
Lemma settles_publish_report key : settles (publish_report config key).
Proof. unfold publish_report; solve_settles. Qed.

(** *** Activation *)

Lemma finish_activation_ok key start s s' :
  finish_activation (E := paired) config key start s = Done (Ok tt) s' ->
  settled s s' /\ ics_mode (sv_state s') = Active.
Proof.
  unfold finish_activation, mbind, srv_bind, get_state at 1.
  unfold set_next_block_index; case_bool_decide; [|done]; simpl; set (s1 := mkServer _ _ _ _ _ _ _).
  assert (H1 : settled s s1) by done.
  destruct (publish_report config key s1) as [[status|e] s2|s2|s2|s2] eqn:Hp; try done.
  apply settles_publish_report in Hp as H2; destruct (_ && _); [done|]; simpl; intros [= <-].
  split; [|done]; etrans; [exact H1|]; by destruct H2.
Qed.

Lemma calm_settled {B} (m : srv (E := paired) B) s b s' : calm m -> m s = Done b s' ->
  sv_state s' = sv_state s /\ same_keys (sv_enclave s) (sv_enclave s').
Proof. intros Hm Hs; specialize (Hm s); rewrite Hs in Hm; destruct Hm as (H1 & H2 & _); done. Qed.

Lemma same_keys_bytes (s s' : Local) : same_keys (sv_enclave s) (sv_enclave s') ->
  ingress_key_bytes s' = ingress_key_bytes s.
Proof. intros (H & _); unfold ingress_key_bytes; by rewrite H. Qed.

(** Every peer of the server other than itself is an idle backup of its key and its peers. *)
Definition backed_up s : Prop := forall uri id,
  uri ∈ ics_peers (sv_state s) -> responder_id uri = Ok id -> id <> cfg_local_node_id config ->
  exists r, local_peers s !! uri = Some r /\ backs_up r (ingress_key_bytes s) (ics_peers (sv_state s)).

Lemma backed_up_settled s s' : settled s s' -> backed_up s -> backed_up s'.
Proof.
  intros [Hn Hk Hp] Hb uri id; rewrite Hp, Hn, (same_keys_bytes _ _ Hk); apply Hb.
Qed.

(** Asking all peers and bringing them up to date. *)
Lemma peers_confirmed s conns s1 l s2 s3 :
  peer_connections (E := paired) config (peer_order (ics_peers (sv_state s))) s = Done conns s1 ->
  peer_summaries (E := paired) conns s1 = Done (Ok l) s2 ->
  confirm_backups (E := paired) l (ingress_key_bytes s2) (ics_peers (sv_state s)) s2 = Done (Ok tt) s3 ->
  backed_up s3 /\ sv_state s3 = sv_state s.
Proof.
  intros (-> & Hsub & Hall)%peer_connections_ok Hsum Hconf.
  assert (Hnd : NoDup (pc_uri <$> conns)) by (eapply sublist_NoDup; [apply NoDup_peer_order|exact Hsub]).
  destruct (calm_settled _ _ _ _ (calm_peer_summaries _) Hsum) as [S1 K1].
  destruct (calm_settled _ _ _ _ (calm_confirm_backups _ _ _) Hconf) as [S2 K2].
  apply (peer_summaries_ok conns s l s2 Hnd) in Hsum as (Hu & Hasked & _).
  apply (confirm_backups_ok l) in Hconf as (_ & Hup); [|by rewrite Hu|done].
  split; [|congruence]; intros uri id; rewrite S2, S1; intros Hin Hid Hne.
  destruct (Hup uri) as (r & Hr & Hb); [rewrite Hu; eapply Hall; [by apply elem_of_peer_order|done..]|].
  exists r; split; [done|]; by rewrite (same_keys_bytes _ _ K2).
Qed.

Lemma try_activate_ok n s already s' :
  ics_mode (sv_state s) = Idle -> try_activate (E := paired) config n s = Done (Ok already) s' ->
  already = None /\ backed_up s' /\ ics_mode (sv_state s') = Active.
Proof.
  intros Hidle; unfold try_activate, with_guard, mbind, srv_bind, lock_state.
  destruct (sv_locked s); [done|]; unfold is_active; simpl; rewrite bool_decide_false by congruence.
  set (s0 := set_locked true s).
  destruct (world (E := paired) (on_base refresh_report_cache) s0) as [[[]|e] s1|s1|s1|s1] eqn:H1; try done.
  assert (Hst : sv_state s1 = sv_state s)
    by (revert H1; unfold world, on_base; destruct (refresh_report_cache _); by intros [= _ <-]).
  unfold get_peers; rewrite <- Hst.
  destruct (peer_connections (E := paired) config (peer_order (ics_peers (sv_state s1))) s1) as [conns s2|s2|s2|s2] eqn:H2; try done.
  destruct (peer_summaries conns s2) as [[l|e] s3|s3|s3|s3] eqn:H3; try done.
  change (public_to_bytes _) with (ingress_key_bytes s3); set (key := ingress_key_bytes s3).
  destruct (confirm_backups l key (ics_peers (sv_state s1)) s3) as [[[]|e] s5|s5|s5|s5] eqn:H5; try done.
  destruct (peers_confirmed _ _ _ _ _ _ H2 H3 H5) as [Hb _].
  destruct (find_start_block key n s5) as [[start|e] s6|s6|s6|s6] eqn:H6; try done.
  apply settles_find_start_block in H6.
  destruct (finish_activation config key start s6) as [[[]|e] s7|s7|s7|s7] eqn:H7; try done; simpl.
  apply finish_activation_ok in H7 as [H7 Hact]; intros [= <- <-]; split; [done|]; split; [|done].
  apply (backed_up_settled s7); [done|]; eapply backed_up_settled, Hb; by etrans.
Qed.

(** C5: a server that reports a successful activation is backed up.  Every other
    peer on its list is idle at that moment, its enclave holds the ingress key of
    the server, and its list of peers is the same; whichever messages were lost
    on the way. *)
Theorem activation_backed_up n s summary s' :
  ics_mode (sv_state s) = Idle -> activate (E := paired) config n s = Done (Ok summary) s' ->
  ics_mode (sv_state s') = Active /\ backed_up s'.
Proof.
  intros Hidle; unfold activate, mbind, srv_bind.
  destruct (try_activate config n s) as [[already|e] s1|s1|s1|s1] eqn:H1; try done.
  apply try_activate_ok in H1 as (-> & Hb & Hact); [|done].
  destruct (write_state_file config s1) as [[] s2|s2|s2|s2] eqn:H2; try done.
  destruct (get_ingest_summary s2) as [sm s3|s3|s3|s3] eqn:H3; try done; intros [= <- <-].
  pose proof (quiet_write_state_file config s1) as Q2; rewrite H2 in Q2; destruct Q2 as [Q2 _].
  pose proof (quiet_summary s2) as Q3; rewrite H3 in Q3; destruct Q3 as [Q3 _].
  apply settles_write_state_file in H2; apply settles_summary in H3; split; [by rewrite Q3, Q2|].
  eapply backed_up_settled, Hb; by etrans.
Qed.
End network.
