(* ===== verification/PeerExamples.v ===== *)
(** * Ingest servers as peers, concretely

    A server that takes a peer with another key as its backup when it is
    activated, and two servers that are activated at the same time. *)

From S2P Require Import Prelude FogTypes RecoveryTypes ObliviousMap.
From S2P Require Import KexRng UserRngSet IngestEnclave RecoveryDb ControllerState PeerConnection IngestController.
From S2P Require Import IngestServer PeerBackup.

Local Open Scope Z_scope.
Local Open Scope fog_scope.

#[local] Instance demo_uri_laws : PeerUriLaws (E := demo_env).
Proof.
  split; [by intros u u' [= <-]|by intros b k [= <-]| |].
  - intros u peers; apply elem_of_elements.
  - intros peers; apply NoDup_elements.
Qed.

(** ** Two servers with each other as peers *)

Definition pair_config (id : Z) : IngestServerConfig := mkIngestServerConfig [id] 2 10 {[ [1]; [2] ]} [] true.

(** A server with the ingress key [key], which has not been told its peers if [alone]. *)
Definition pair_enclave (key : Z) :
  SgxIngestEnclave (C := demo_ingest_crypto) (OM := demo_omap) (A := demo_peer_ake) :=
  (enclave_init (@mkSgxIngestEnclave _ _ demo_ingest_crypto demo_omap demo_peer_ake tt key 1000 None 1%nat)
     [1] None 8).2.

Definition demo_backup : Server (OM := demo_omap) (E := demo_env) :=
  mkServer (OM := demo_omap) (E := demo_env)
    (IngestControllerState_new (mkIngestServerConfig [2] 2 10 {[ [2] ]} [] true))
    false (pair_enclave 777) db_empty None None tt.

Definition demo_network : Network demo_env := mkNetwork demo_env {[ [2] := demo_backup ]} [].

Definition pair_peer_config (uri : list Z) : IngestServerConfig := pair_config 2.
Definition pair_status (e : IngestRpcError) : Z := 13.

Abbreviation demo_pair :=
  (paired demo_env pair_peer_config pair_status (demo_call (PG := network_grpc demo_env pair_peer_config pair_status))
    demo_call_ok).

Definition demo_primary : Server (OM := demo_omap) (E := demo_pair) :=
  mkServer (OM := demo_omap) (E := demo_pair) (IngestControllerState_new (pair_config 1))
    false (pair_enclave 900) db_empty None None (tt, demo_network).

Definition demo_primary' : Server (OM := demo_omap) (E := demo_pair) :=
  after (activate (E := demo_pair) (pair_config 1) 5 demo_primary).

Definition done_ok {S B X} (o : outcome S (result B X)) : bool :=
  match o with Done (Ok _) _ => true | _ => false end.

Lemma done_ok_after `{E : IngestEnv} {B X} (o : outcome Server (result B X)) :
  done_ok o = true -> exists b, o = Done (Ok b) (after o).
Proof. destruct o as [[b|e] s|s|s|s]; try done; by exists b. Qed.

Lemma demo_primary_activated : exists summary,
  activate (E := demo_pair) (pair_config 1) 5 demo_primary = Done (Ok summary) demo_primary'.
Proof.
  assert (H : done_ok (activate (E := demo_pair) (pair_config 1) 5 demo_primary) = true) by (vm_compute; reflexivity).
  exact (done_ok_after _ H).
Qed.

(** The backup had the key 777 and did not know its peer. *)
Lemma activation_backed_up_witness :
  ingress_key_bytes demo_backup = [777] /\ ingress_key_bytes demo_primary' = [900]
  /\ ics_mode (sv_state demo_primary') = Active
  /\ backed_up demo_env pair_peer_config pair_status demo_call demo_call_ok (pair_config 1) demo_primary'.
Proof.
  split; [reflexivity|]; split; [vm_compute; reflexivity|]; destruct demo_primary_activated as [summary H].
  exact (activation_backed_up demo_env pair_peer_config pair_status demo_call demo_call_ok (pair_config 1) 5
    demo_primary summary demo_primary' eq_refl H).
Defined.

(** ** Two activations at the same time *)

Section parts.
Context `{C : IngestCrypto} `{OM : ObliviousHashMap} `{A : PeerAke} `{E : !IngestEnv}.
Context (config : IngestServerConfig).
Abbreviation EnclaveError := (IngestEnclaveError SgxError PeerAkeError).

(** [activate] on an idle server up to the requests for the status of the peers, and what
    follows; the guard of the state is released at the end of the second part. *)
Definition activation_begin : srv (result (list PeerConnection) (IngestServiceError EnclaveError)) :=
  state ← lock_state;
  refreshed ← world refresh_report_cache;
  match refreshed with
  | Err e => mret (Err (ServiceReportCache e))
  | Ok _ => conns ← peer_connections config (peer_order (get_peers state)); mret (Ok conns)
  end.

Definition activation_rest (ledger_num_blocks : Z) (peers : gset (list Z))
    (begun : result (list PeerConnection) (IngestServiceError EnclaveError))
  : srv (result (option IngestSummary) (IngestServiceError EnclaveError)) :=
  r ← match begun with
    | Err e => mret (Err e)
    | Ok conns =>
        summaries ← peer_summaries conns;
        match summaries with
        | Err e => mret (Err (ServiceBackup e))
        | Ok summaries =>
            our_pubkey ← ingress_pubkey_bytes;
            confirmed ← confirm_backups summaries our_pubkey peers;
            match confirmed with
            | Err e => mret (Err (ServiceBackup e))
            | Ok _ =>
                start ← find_start_block our_pubkey ledger_num_blocks;
                match start with
                | Err e => mret (Err e)
                | Ok start_block =>
                    r ← finish_activation config our_pubkey start_block;
                    mret (let? _ := r in Ok None)
                end
            end
        end
    end;
  unlock_state;; mret r.

Lemma try_activate_parts n s :
  ics_mode (sv_state s) = Idle ->
  try_activate config n s = (activation_begin ≫= activation_rest n (get_peers (sv_state s))) s.
Proof.
  intros Hidle; unfold try_activate, activation_begin, activation_rest, with_guard, mbind, srv_bind, lock_state.
  destruct (sv_locked s); [done|]; unfold is_active; simpl; rewrite bool_decide_false by congruence.
  destruct (world refresh_report_cache _) as [[[]|e] s1|s1|s1|s1]; try done.
  by destruct (peer_connections config _ s1).
Qed.

(** The handler of a status request waits for the lock of the state. *)
Lemma status_waits s : sv_locked s = true -> get_status_impl s = Deadlocked s.
Proof.
  intros Hs; unfold get_status_impl, get_ingest_summary, with_guard, mbind, srv_bind, lock_state; by rewrite Hs.
Qed.

(** The activation asks the peer at [uri] for its status while it holds the lock. *)
Definition asks_under_lock (s : Server) (uri : list Z) : Prop :=
  exists conns s', activation_begin s = Done (Ok conns) s'
    /\ head (pc_uri <$> conns) = Some uri /\ get_status_impl s' = Deadlocked s'.

Lemma asks_under_lock_intro s uri :
  match activation_begin s with
  | Done (Ok conns) s' => head (pc_uri <$> conns) = Some uri /\ sv_locked s' = true
  | _ => False
  end -> asks_under_lock s uri.
Proof.
  destruct (activation_begin s) as [[conns|e] s'|s'|s'|s'] eqn:H; try done; intros [Hu Hl].
  exists conns, s'; split; [done|]; split; [done|by apply status_waits].
Qed.
End parts.

Definition demo_pair_server (id key : Z) : Server (OM := demo_omap) (E := demo_env) :=
  mkServer (OM := demo_omap) (E := demo_env) (IngestControllerState_new (pair_config id))
    false (pair_enclave key) db_empty None None tt.

