(* ===== verification/OramStorage.v ===== *)
(** * The enclave side of the ORAM block storage

    Model of [fog/ocall_oram_storage/trusted/src]: the blocks of a binary tree
    of [count] nodes, of which the enclave keeps the first [treetop_max_count]
    on its heap and hands the others, encrypted and hashed, to untrusted
    storage over OCALLs.

    Foreign code is a class with its documented behaviour: the tree index
    arithmetic ([TreeIndex]), the heap storage of the top of the tree
    ([HeapORAMStorage]), the AES-CTR stream cipher and Blake2b ([BlockCrypto])
    and the untrusted side of the OCALLs ([UntrustedStorage]), which the
    theorems about tampering leave arbitrary and [UntrustedStorage.v]
    implements. *)

From S2P Require Import Prelude.

Local Open Scope Z_scope.
Local Open Scope fog_scope.

(** ** Sizes

    The type parameters of the storage: the size of a data item, a power of
    two divisible by eight, and of a metadata item. *)
Class BlockSizes := {
  DataSize : nat;
  MetaSize : nat;
  data_size_pow2 : exists k, Z.of_nat DataSize = 2 ^ Z.of_nat k;
  data_size_div8 : (DataSize mod 8 = 0)%nat;
  meta_size_div8 : ((MetaSize + 40) mod 8 = 0)%nat;
}.

Definition ExtraMetaSize : nat := 40.

(** ** Foreign code *)

(** [TreeIndex::parents]: the node, its parent, and so on up to the root. *)
Class TreeIndex := { parents : Z -> list Z }.
Class TreeIndexLaws (T : TreeIndex) := {
  parents_root : parents 1 = [1];
  parents_node : forall i, 1 < i -> parents i = i :: parents (i / 2);
}.

(** The heap storage of mc-oblivious: [checkout] copies the branch of a node
    into the buffers, [checkin] takes it back (and may leave anything in
    them). *)
Class HeapORAMStorage := {
  HeapStore : Type;
  heap_new : Z -> HeapStore;
  heap_checkout : HeapStore -> Z -> list bytes -> list bytes -> run (list bytes * list bytes * HeapStore);
  heap_checkin : HeapStore -> Z -> list bytes -> list bytes -> run (list bytes * list bytes * HeapStore);
}.

(** The stream cipher, whose state advances over the bytes it processes, and
    the hash of a byte string. *)
Class BlockCrypto := {
  Cipher : Type;
  cipher_new : bytes -> bytes -> Cipher;
  cipher_encrypt : Cipher -> bytes -> bytes * Cipher;
  cipher_decrypt : Cipher -> bytes -> bytes * Cipher;
  Blake2b : bytes -> bytes;
}.

(** What the enclave asks of the untrusted side: the OCALLs of the EDL file.
    Buffers are passed as bytes with their length in words of eight. *)
Class UntrustedStorage := {
  UStore : Type;
  allocate_oram_storage : UStore -> Z -> Z -> Z -> run (Z * UStore);
  release_oram_storage : UStore -> Z -> run UStore;
  checkout_oram_storage : UStore -> Z -> list Z -> bytes -> Z -> bytes -> Z -> run (bytes * bytes * UStore);
  checkin_oram_storage : UStore -> Z -> list Z -> bytes -> Z -> bytes -> Z -> run UStore;
}.

(** A random generator: [fill_bytes] on a buffer of the given length. *)
Class FillBytes := {
  Rng : Type;
  fill_bytes : Rng -> nat -> bytes * Rng;
}.

(** ** Extended metadata ([extra_meta.rs]) *)

Definition zeros (n : nat) : bytes := replicate n 0.

Record ExtraMeta := { block_ctr : Z; left_child_hash : bytes; right_child_hash : bytes }.

Definition default_hash : bytes := zeros 16.

(** [ExtraMeta::from(&[u8])]. *)
Definition extra_meta_from (src : bytes) : run ExtraMeta :=
  _ ← rassert (length src =? ExtraMetaSize)%nat;
  ctr ← slice src 0 8;
  left ← slice src 8 24;
  right ← slice src 24 40;
  Ret {| block_ctr := from_le_bytes ctr; left_child_hash := left; right_child_hash := right |}.

(** [GenericArray::<u8, ExtraMetaSize>::from(&ExtraMeta)]. *)
Definition extra_meta_bytes (e : ExtraMeta) : bytes :=
  to_le_bytes (block_ctr e) ++ left_child_hash e ++ right_child_hash e.

Section storage.
Context `{BlockSizes} `{TreeIndex} `{HeapORAMStorage} `{BlockCrypto} `{UntrustedStorage} `{FillBytes}.

Definition compute_block_hash (hash_key e_data : bytes) (block_idx : Z) (extended_metadata : bytes) : bytes :=
  take 16 (Blake2b ([111; 114; 97; 109] ++ hash_key ++ e_data ++ to_le_bytes block_idx
                      ++ extended_metadata)).

Definition make_aes_nonce (block_idx block_ctr : Z) : bytes :=
  to_le_bytes block_idx ++ to_le_bytes block_ctr.

(** ** The storage object *)
Record OcallORAMStorage := {
  allocation_id : Z;
  count : Z;
  treetop_max_count : Z;
  treetop : HeapStore;
  trusted_merkle_roots : list bytes;
  meta_scratch_buffer : list bytes;
  aes_key : bytes;
  hash_key : bytes;
}.

Definition set_treetop (t : HeapStore) (s : OcallORAMStorage) : OcallORAMStorage :=
  {| allocation_id := allocation_id s; count := count s; treetop_max_count := treetop_max_count s;
     treetop := t; trusted_merkle_roots := trusted_merkle_roots s;
     meta_scratch_buffer := meta_scratch_buffer s; aes_key := aes_key s; hash_key := hash_key s |}.
Definition set_roots (r : list bytes) (s : OcallORAMStorage) : OcallORAMStorage :=
  {| allocation_id := allocation_id s; count := count s; treetop_max_count := treetop_max_count s;
     treetop := treetop s; trusted_merkle_roots := r;
     meta_scratch_buffer := meta_scratch_buffer s; aes_key := aes_key s; hash_key := hash_key s |}.
Definition set_scratch (m : list bytes) (s : OcallORAMStorage) : OcallORAMStorage :=
  {| allocation_id := allocation_id s; count := count s; treetop_max_count := treetop_max_count s;
     treetop := treetop s; trusted_merkle_roots := trusted_merkle_roots s;
     meta_scratch_buffer := m; aes_key := aes_key s; hash_key := hash_key s |}.

Definition MetaFull : nat := MetaSize + ExtraMetaSize.

(** [OcallORAMStorage::new], with the value of the static
    [TREETOP_CACHING_THRESHOLD_LOG2]; the shift is by the amount modulo 64. *)
Definition new (TREETOP_CACHING_THRESHOLD_LOG2 count : Z) (rng : Rng) (u : UStore)
  : run (OcallORAMStorage * Rng * UStore) :=
  _ ← rassert (negb (count =? 0));
  _ ← rassert (Z.land count (count -w 1) =? 0);
  let treetop_max_count :=
    Z.max 2 (Z.shiftl 1 (TREETOP_CACHING_THRESHOLD_LOG2 mod 64) / Z.of_nat DataSize) in
  '(allocation_id, treetop, u) ←
    (if count <=? treetop_max_count then Ret (0, heap_new count, u)
     else
       '(id, u) ← allocate_oram_storage u (count -w treetop_max_count) (Z.of_nat DataSize)
                    (Z.of_nat MetaFull);
       if id =? 0 then Panic else Ret (id, heap_new treetop_max_count, u));
  let trusted_merkle_roots :=
    if count <=? treetop_max_count then []
    else replicate (Z.to_nat (treetop_max_count *w 2)) default_hash in
  let '(aes_key, rng) := fill_bytes rng 16 in
  let '(hash_key, rng) := fill_bytes rng 16 in
  Ret ({| allocation_id := allocation_id; count := count; treetop_max_count := treetop_max_count;
          treetop := treetop; trusted_merkle_roots := trusted_merkle_roots;
          meta_scratch_buffer := []; aes_key := aes_key; hash_key := hash_key |}, rng, u).

(** [OcallORAMStorageCreator::create]: all failures are panics, so the error type is never used. *)
Inductive UntrustedStorageError := AllocationFailed.

Definition create (threshold size : Z) (rng : Rng) (u : UStore)
  : run (result OcallORAMStorage UntrustedStorageError * Rng * UStore) :=
  '(s, rng, u) ← new threshold size rng u;
  Ret (Ok s, rng, u).

(** [Drop]: the untrusted storage, if there is any, is released. *)
Definition drop_storage (s : OcallORAMStorage) (u : UStore) : run UStore :=
  if negb (allocation_id s =? 0) then release_oram_storage u (allocation_id s) else Ret u.

(** ** Helpers of the OCALLs

    A slice of fixed-size arrays is passed as the bytes of all of them, and
    read back as the arrays. *)
Fixpoint as_arrays (size k : nat) (buf : bytes) : list bytes :=
  match k with
  | O => []
  | S k => take size buf :: as_arrays size k (drop size buf)
  end.

Definition checkout_ocall (u : UStore) (id : Z) (idx : list Z) (data meta : list bytes)
  : run (list bytes * list bytes * UStore) :=
  '(databuf, metabuf, u) ← checkout_oram_storage u id idx
     (concat data) (Z.of_nat (length data * DataSize / 8))
     (concat meta) (Z.of_nat (length meta * MetaFull / 8));
  Ret (as_arrays DataSize (length data) databuf, as_arrays MetaFull (length meta) metabuf, u).

Definition checkin_ocall (u : UStore) (id : Z) (idx : list Z) (data meta : list bytes) : run UStore :=
  checkin_oram_storage u id idx
    (concat data) (Z.of_nat (length data * DataSize / 8))
    (concat meta) (Z.of_nat (length meta * MetaFull / 8)).

(** ** Checkout *)

(** [indices.iter().position(|idx| idx < &treetop_max_count)]. *)
Fixpoint treetop_position (treetop_max_count : Z) (indices : list Z) : option nat :=
  match indices with
  | [] => None
  | idx :: indices =>
      if idx <? treetop_max_count then Some O
      else match treetop_position treetop_max_count indices with
           | Some n => Some (S n)
           | None => None
           end
  end.

(** The check of a block against the hash of its child, if one was checked out before it. *)
Definition check_child (last_hash : option (Z * bytes)) (extra : ExtraMeta) : bool :=
  match last_hash with
  | Some (last_idx, last_hash) =>
      if Z.land last_idx 1 =? 0 then bool_decide (last_hash = left_child_hash extra)
      else bool_decide (last_hash = right_child_hash extra)
  | None => true
  end.

(** One round of the loop of [checkout]: the data and metadata of the block,
    its scratch buffer (in which the metadata is decrypted in place) and the
    hash for the next round. *)
Definition open_block (s : OcallORAMStorage) (first_treetop_index idx : nat) (index : Z)
    (data scratch : bytes) (last_hash : option (Z * bytes))
  : run (bytes * bytes * bytes * option (Z * bytes)) :=
  if bool_decide (scratch = zeros MetaFull)
  then Ret (zeros DataSize, zeros MetaSize, scratch, Some (index, default_hash))
  else
    let this_block_hash := compute_block_hash (hash_key s) data index scratch in
    let '(meta, extra) := (take MetaSize scratch, drop MetaSize scratch) in
    extra_meta ← extra_meta_from extra;
    _ ← rassert (check_child last_hash extra_meta);
    _ ← (if (idx =? first_treetop_index)%nat
         then root ← unwrap (trusted_merkle_roots s !! Z.to_nat index);
              rassert (bool_decide (root = this_block_hash))
         else Ret tt);
    let cipher := cipher_new (aes_key s) (make_aes_nonce index (block_ctr extra_meta)) in
    let '(data, cipher) := cipher_decrypt cipher data in
    let '(meta, cipher) := cipher_decrypt cipher meta in
    Ret (data, meta, meta ++ extra, Some (index, this_block_hash)).

(** The loop of [checkout] from round [idx] on. *)
Fixpoint open_blocks (s : OcallORAMStorage) (first_treetop_index idx : nat) (indices : list Z)
    (dest scratch : list bytes) (last_hash : option (Z * bytes))
  : run (list bytes * list bytes * list bytes) :=
  match indices, dest, scratch with
  | index :: indices, data :: dest, sc :: scratch =>
      '(data, meta, sc, last_hash) ← open_block s first_treetop_index idx index data sc last_hash;
      '(dest, dest_meta, scratch) ←
        open_blocks s first_treetop_index (S idx) indices dest scratch last_hash;
      Ret (data :: dest, meta :: dest_meta, sc :: scratch)
  | _, _, _ => Ret ([], [], [])
  end.

Definition checkout (s : OcallORAMStorage) (u : UStore) (index : Z) (dest dest_meta : list bytes)
  : run (list bytes * list bytes * OcallORAMStorage * UStore) :=
  _ ← rassert (length dest =? length dest_meta)%nat;
  _ ← rassert (index >? 0);
  _ ← rassert (index <? count s);
  let indices := parents index in
  _ ← rassert (length indices =? length dest)%nat;
  first_treetop_index ← unwrap (treetop_position (treetop_max_count s) indices);
  let k := first_treetop_index in
  top ← unwrap (indices !! k);
  '(top_data, top_meta, t) ← heap_checkout (treetop s) top (drop k dest) (drop k dest_meta);
  let s := set_treetop t s in
  if (0 <? k)%nat then
    let external := take k indices in
    let scratch := vec_resize (meta_scratch_buffer s) k (zeros MetaFull) in
    '(data, scratch, u) ← checkout_ocall u (allocation_id s)
       ((fun i => i -w treetop_max_count s) <$> external) (take k dest) scratch;
    '(data, meta, scratch) ← open_blocks s k 0 external data scratch None;
    Ret (data ++ top_data, meta ++ top_meta, set_scratch scratch s, u)
  else Ret (top_data, top_meta, s, u).

(** ** Checkin *)

(** The child's hash recorded in the extended metadata. *)
Definition record_child (last_hash : option (Z * bytes)) (e : ExtraMeta) : ExtraMeta :=
  match last_hash with
  | Some (last_idx, last_hash) =>
      if Z.land last_idx 1 =? 0
      then {| block_ctr := block_ctr e; left_child_hash := last_hash;
              right_child_hash := right_child_hash e |}
      else {| block_ctr := block_ctr e; left_child_hash := left_child_hash e;
              right_child_hash := last_hash |}
  | None => e
  end.

Definition incr_ctr (e : ExtraMeta) : ExtraMeta :=
  {| block_ctr := block_ctr e +w 1; left_child_hash := left_child_hash e;
     right_child_hash := right_child_hash e |}.

(** One round of the loop of [checkin]: the encrypted data and extended metadata, and the hash. *)
Definition seal_block (s : OcallORAMStorage) (index : Z) (data meta scratch : bytes)
    (last_hash : option (Z * bytes)) : run (bytes * bytes * option (Z * bytes)) :=
  extra ← extra_meta_from (drop MetaSize scratch);
  let extra := incr_ctr (record_child last_hash extra) in
  let cipher := cipher_new (aes_key s) (make_aes_nonce index (block_ctr extra)) in
  let '(data, cipher) := cipher_encrypt cipher data in
  let '(meta, cipher) := cipher_encrypt cipher meta in
  let scratch := meta ++ extra_meta_bytes extra in
  Ret (data, scratch, Some (index, compute_block_hash (hash_key s) data index scratch)).

Fixpoint seal_blocks (s : OcallORAMStorage) (indices : list Z) (src src_meta scratch : list bytes)
    (last_hash : option (Z * bytes)) : run (list bytes * list bytes * option (Z * bytes)) :=
  match indices, src, src_meta, scratch with
  | index :: indices, data :: src, meta :: src_meta, sc :: scratch =>
      '(data, sc, last_hash) ← seal_block s index data meta sc last_hash;
      '(src, scratch, last_hash) ← seal_blocks s indices src src_meta scratch last_hash;
      Ret (data :: src, sc :: scratch, last_hash)
  | _, _, _, _ => Ret ([], [], last_hash)
  end.

(** [v[i] = x] on a vector. *)
Definition vec_set {A} (v : list A) (i : nat) (x : A) : run (list A) :=
  if (i <? length v)%nat then Ret (<[i := x]> v) else Panic.

Definition checkin (s : OcallORAMStorage) (u : UStore) (index : Z) (src src_meta : list bytes)
  : run (OcallORAMStorage * UStore) :=
  _ ← rassert (length src =? length src_meta)%nat;
  _ ← rassert (index >? 0);
  _ ← rassert (index <? count s);
  let indices := parents index in
  _ ← rassert (length indices =? length src)%nat;
  first_treetop_index ← unwrap (treetop_position (treetop_max_count s) indices);
  let k := first_treetop_index in
  top ← unwrap (indices !! k);
  '(_, _, t) ← heap_checkin (treetop s) top (drop k src) (drop k src_meta);
  let s := set_treetop t s in
  if (0 <? k)%nat then
    let external := take k indices in
    let scratch := vec_resize (meta_scratch_buffer s) k (zeros MetaFull) in
    '(data, scratch, last_hash) ←
      seal_blocks s external (take k src) (take k src_meta) scratch None;
    '(last_idx, last_hash) ← unwrap last_hash;
    roots ← vec_set (trusted_merkle_roots s) (Z.to_nat last_idx) last_hash;
    let s := set_scratch scratch (set_roots roots s) in
    u ← checkin_ocall u (allocation_id s)
          ((fun i => i -w treetop_max_count s) <$> external) data scratch;
    Ret (s, u)
  else Ret (s, u).

End storage.
