(* ===== verification/OramStorageSpec.v ===== *)
(** * What the ORAM block storage promises

    The abstract specification of the storage is a memory of blocks indexed
    by tree nodes: [checkout] reads the blocks of a branch, [checkin] writes
    them.  With an untrusted side that keeps what it is given
    ([UntrustedStorageLaws]) the encrypted and hashed storage of
    [OramStorage.v] implements this memory without ever panicking; with an
    arbitrary untrusted side the hashes bind every block below the topmost
    one that left the enclave. *)

From S2P Require Import Prelude.
From S2P Require Import OramStorage.

Local Open Scope Z_scope.
Local Open Scope fog_scope.

(** ** Memories of blocks *)

(** The data and metadata of each tree node. *)
Abbreviation memory := (Z -> bytes * bytes).

Definition mem_write (mem : memory) (i : Z) (b : bytes * bytes) : memory :=
  fun j => if decide (j = i) then b else mem j.

(** The blocks of a branch written node by node. *)
Fixpoint write_branch (mem : memory) (branch : list Z) (data meta : list bytes) : memory :=
  match branch, data, meta with
  | i :: branch, d :: data, m :: meta => write_branch (mem_write mem i (d, m)) branch data meta
  | _, _, _ => mem
  end.

Definition read_data (mem : memory) (branch : list Z) : list bytes := (fun i => (mem i).1) <$> branch.
Definition read_meta (mem : memory) (branch : list Z) : list bytes := (fun i => (mem i).2) <$> branch.

(** Items of a vector written one after the other. *)
Fixpoint write_items (items : list bytes) (idx : list Z) (values : list bytes) : list bytes :=
  match idx, values with
  | j :: idx, v :: values => write_items (<[Z.to_nat j := v]> items) idx values
  | _, _ => items
  end.

(** ** Documented behaviour of the foreign code *)

Class HeapORAMStorageLaws `{BlockSizes} (T : TreeIndex) (HS : HeapORAMStorage) := {
  heap_len : HeapStore -> Z;
  heap_block : HeapStore -> memory;
  heap_new_spec : forall c, 0 < c ->
    heap_len (heap_new c) = c
    /\ forall i, heap_block (heap_new c) i = (zeros DataSize, zeros MetaSize);
  heap_checkout_spec : forall h i d m, 0 < i < heap_len h ->
    length d = length (parents i) -> length m = length (parents i) ->
    exists h', heap_checkout h i d m
        = Ret (read_data (heap_block h) (parents i), read_meta (heap_block h) (parents i), h')
      /\ heap_len h' = heap_len h /\ forall j, heap_block h' j = heap_block h j;
  heap_checkin_spec : forall h i d m, 0 < i < heap_len h ->
    length d = length (parents i) -> length m = length (parents i) ->
    exists d' m' h', heap_checkin h i d m = Ret (d', m', h')
      /\ heap_len h' = heap_len h
      /\ forall j, heap_block h' j = write_branch (heap_block h) (parents i) d m j;
}.

Class BlockCryptoLaws (C : BlockCrypto) := {
  cipher_roundtrip : forall c bs,
    cipher_decrypt c (cipher_encrypt c bs).1 = (bs, (cipher_encrypt c bs).2);
  cipher_encrypt_length : forall c bs, length (cipher_encrypt c bs).1 = length bs;
  Blake2b_length : forall bs, length (Blake2b bs) = 64%nat;
}.

(** What the untrusted side holds under an id. *)
Record Allocation := {
  al_count : Z;
  al_data_size : nat;
  al_meta_size : nat;
  al_checked_out : bool;
  al_data : list bytes;
  al_meta : list bytes;
}.

Definition al_wf (a : Allocation) : Prop :=
  0 < al_count a
  /\ length (al_data a) = Z.to_nat (al_count a) /\ length (al_meta a) = Z.to_nat (al_count a)
  /\ Forall (fun d => length d = al_data_size a) (al_data a)
  /\ Forall (fun m => length m = al_meta_size a) (al_meta a).

Definition al_set (out : bool) (data meta : list bytes) (a : Allocation) : Allocation :=
  {| al_count := al_count a; al_data_size := al_data_size a; al_meta_size := al_meta_size a;
     al_checked_out := out; al_data := data; al_meta := meta |}.

(** An untrusted side that keeps what it is given; checkouts and checkins alternate. *)
Class UntrustedStorageLaws (US : UntrustedStorage) := {
  u_alloc : UStore -> Z -> option Allocation;
  u_alloc_wf : forall u id a, u_alloc u id = Some a -> al_wf a;
  u_allocate : forall u c ds ms id u',
    0 < c -> (ds mod 8 = 0)%nat -> (ms mod 8 = 0)%nat -> (0 < ds)%nat -> (0 < ms)%nat ->
    is_u64 (c * Z.of_nat ds) -> is_u64 (c * Z.of_nat ms) ->
    allocate_oram_storage u c (Z.of_nat ds) (Z.of_nat ms) = Ret (id, u') ->
    exists a, u_alloc u' id = Some a /\ al_checked_out a = false /\ al_count a = c
      /\ al_data_size a = ds /\ al_meta_size a = ms
      /\ al_meta a = replicate (Z.to_nat c) (zeros ms);
  u_checkout : forall u id a idx databuf metabuf,
    u_alloc u id = Some a -> al_checked_out a = false ->
    NoDup idx -> Forall (fun j => 0 <= j < al_count a) idx ->
    length databuf = (length idx * al_data_size a)%nat ->
    length metabuf = (length idx * al_meta_size a)%nat ->
    exists u', checkout_oram_storage u id idx
        databuf (Z.of_nat (length idx * al_data_size a / 8))
        metabuf (Z.of_nat (length idx * al_meta_size a / 8))
      = Ret (concat ((fun j => al_data a !!! Z.to_nat j) <$> idx),
             concat ((fun j => al_meta a !!! Z.to_nat j) <$> idx), u')
      /\ u_alloc u' id = Some (al_set true (al_data a) (al_meta a) a);
  u_checkin : forall u id a idx data meta,
    u_alloc u id = Some a -> al_checked_out a = true ->
    NoDup idx -> Forall (fun j => 0 <= j < al_count a) idx ->
    length data = length idx -> Forall (fun d => length d = al_data_size a) data ->
    length meta = length idx -> Forall (fun m => length m = al_meta_size a) meta ->
    exists u', checkin_oram_storage u id idx
        (concat data) (Z.of_nat (length idx * al_data_size a / 8))
        (concat meta) (Z.of_nat (length idx * al_meta_size a / 8))
      = Ret u'
      /\ u_alloc u' id
         = Some (al_set false (write_items (al_data a) idx data) (write_items (al_meta a) idx meta) a);
}.

(** ** Branches *)

(** The part of the branch of a node that is outside the top of the tree. *)
Inductive external_branch (T : Z) : Z -> list Z -> Prop :=
| eb_top i : i < T -> external_branch T i []
| eb_node i l : T <= i -> external_branch T (i / 2) l -> external_branch T i (i :: l).

Lemma half_bounds i T : 2 <= T -> T <= i -> 0 < i / 2 < i.
Proof. intros; split; [apply Z.div_str_pos; lia | apply Z.div_lt; lia]. Qed.

Lemma external_branch_range T i l :
  2 <= T -> external_branch T i l -> Forall (fun j => T <= j <= i) l.
Proof.
  intros HT Hl; induction Hl as [|i l Hi Hl IH]; constructor; [lia|].
  pose proof (half_bounds i T HT Hi).
  eapply Forall_impl; [exact IH|]; simpl; lia.
Qed.

Lemma external_branch_det T i l l' : external_branch T i l -> external_branch T i l' -> l = l'.
Proof.
  intros Hl; revert l'; induction Hl as [|i l Hi Hl IH]; intros l' Hl'; inversion Hl'; subst; try lia; [done|].
  f_equal; by apply IH.
Qed.

Lemma external_branch_NoDup T i l : 2 <= T -> external_branch T i l -> NoDup l.
Proof.
  intros HT Hl; induction Hl as [|i l Hi Hl IH]; constructor; [|done].
  intros Hin; pose proof (half_bounds i T HT Hi).
  eapply Forall_forall in Hin; [|exact (external_branch_range _ _ _ HT Hl)]; simpl in Hin; lia.
Qed.

Section branches.
Context {TI : TreeIndex} {TIL : TreeIndexLaws TI}.

Lemma parents_split T i : 2 <= T -> 0 < i ->
  exists ext top, parents i = ext ++ parents top /\ external_branch T i ext /\ 0 < top < T
    /\ top <= i /\ treetop_position T (parents i) = Some (length ext)
    /\ parents i !! length ext = Some top.
Proof.
  intros HT; induction i as [i IH] using (well_founded_induction (Z.lt_wf 0)); intros Hi.
  assert (parents i = i :: if decide (i = 1) then [] else parents (i / 2)) as Hp.
  { case_decide as Hd; [subst; apply parents_root | apply parents_node; lia]. }
  destruct (decide (i < T)) as [Hlt|Hge].
  - exists [], i; rewrite Hp; simpl.
    rewrite (proj2 (Z.ltb_lt _ _) Hlt); repeat split; try lia; by constructor.
  - pose proof (half_bounds i T HT ltac:(lia)) as Hb.
    destruct (IH (i / 2)) as (ext & top & Hsp & Hext & Htop & Hle & Hpos & Hget); [lia|lia|].
    rewrite decide_False in Hp by lia.
    exists (i :: ext), top; rewrite Hp; simpl.
    rewrite (proj2 (Z.ltb_ge _ _)), Hpos by lia.
    rewrite Hsp; repeat split; try lia; [constructor; [lia|done] | by rewrite <- Hsp].
Qed.

Lemma parents_range i : 0 < i -> Forall (fun j => 0 < j <= i) (parents i).
Proof.
  induction i as [i IH] using (well_founded_induction (Z.lt_wf 0)); intros Hi.
  destruct (decide (i = 1)) as [->|Hne].
  { rewrite parents_root; repeat constructor; lia. }
  rewrite parents_node by lia; pose proof (half_bounds i 2 ltac:(lia) ltac:(lia)).
  constructor; [lia|]; eapply Forall_impl; [apply IH; lia|]; simpl; lia.
Qed.
End branches.

(** ** Writing *)

Lemma write_branch_notin mem branch d m j :
  j ∉ branch -> write_branch mem branch d m j = mem j.
Proof.
  revert mem d m; induction branch as [|i branch IH]; intros mem [|x d] [|y m] Hj; try done.
  apply not_elem_of_cons in Hj as [Hne Hj]; simpl; rewrite IH by done.
  unfold mem_write; by rewrite decide_False.
Qed.

Lemma write_branch_ext mem mem' branch d m j :
  mem j = mem' j -> write_branch mem branch d m j = write_branch mem' branch d m j.
Proof.
  revert mem mem' d m; induction branch as [|i branch IH]; intros mem mem' [|x d] [|y m] Hj; try done.
  simpl; apply IH; unfold mem_write; by case_decide.
Qed.

Lemma write_branch_app mem b1 b2 d1 d2 m1 m2 :
  length d1 = length b1 -> length m1 = length b1 ->
  write_branch mem (b1 ++ b2) (d1 ++ d2) (m1 ++ m2)
  = write_branch (write_branch mem b1 d1 m1) b2 d2 m2.
Proof.
  revert mem d1 m1; induction b1 as [|i b1 IH]; intros mem [|x d1] [|y m1] Hd Hm; try done.
  apply IH; simpl in *; lia.
Qed.

Lemma write_items_length items idx values : length (write_items items idx values) = length items.
Proof.
  revert items values; induction idx as [|j idx IH]; intros items [|v values]; try done.
  simpl; by rewrite IH, length_insert.
Qed.

Lemma insert_lookup_total (items : list bytes) i j v : (i < length items)%nat ->
  <[i := v]> items !!! j = if decide (j = i) then v else items !!! j.
Proof.
  intros Hi; case_decide as Hd; [subst; by apply list_lookup_total_insert_eq|].
  by apply list_lookup_total_insert_ne.
Qed.

(** ** Extended metadata *)

Section blocks.
Context {BS : BlockSizes} {HS : HeapORAMStorage} {C : BlockCrypto} {CL : BlockCryptoLaws C}.

(** The extended metadata at the end of a metadata item. *)
Definition extra_of (m : bytes) : ExtraMeta :=
  {| block_ctr := from_le_bytes (take 8 (drop MetaSize m));
     left_child_hash := take 16 (drop 8 (drop MetaSize m));
     right_child_hash := take 16 (drop 24 (drop MetaSize m)) |}.

Definition child_hash (e : ExtraMeta) (c : Z) : bytes :=
  if Z.land c 1 =? 0 then left_child_hash e else right_child_hash e.

Lemma extra_of_eq m m' : drop MetaSize m = drop MetaSize m' -> extra_of m = extra_of m'.
Proof. intros Hm; unfold extra_of; by rewrite Hm. Qed.

Lemma extra_meta_from_ret m : length m = MetaFull -> extra_meta_from (drop MetaSize m) = Ret (extra_of m).
Proof.
  intros Hm; unfold extra_meta_from.
  assert (length (drop MetaSize m) = ExtraMetaSize) as Hl
    by (rewrite length_drop, Hm; unfold MetaFull, ExtraMetaSize; lia).
  rewrite Hl; simpl.
  rewrite !slice_ret by (rewrite ?Hl; unfold ExtraMetaSize; lia); reflexivity.
Qed.

Definition extra_wf (e : ExtraMeta) : Prop :=
  is_u64 (block_ctr e) /\ length (left_child_hash e) = 16%nat /\ length (right_child_hash e) = 16%nat.

Lemma extra_meta_bytes_length e : extra_wf e -> length (extra_meta_bytes e) = ExtraMetaSize.
Proof.
  intros (_ & Hl & Hr); unfold extra_meta_bytes, to_le_bytes.
  by rewrite !length_app, le_split_length, Hl, Hr.
Qed.

Lemma extra_of_bytes m e : length m = MetaSize -> extra_wf e -> extra_of (m ++ extra_meta_bytes e) = e.
Proof.
  intros Hm (Hc & Hl & Hr); unfold extra_of, extra_meta_bytes.
  pose proof (le_split_length 8 (block_ctr e)) as H8; fold (to_le_bytes (block_ctr e)) in H8.
  rewrite !(drop_app_length' m) by done.
  rewrite (take_app_length' (to_le_bytes _)), (drop_app_length' (to_le_bytes _)), from_to_le_bytes by done.
  rewrite (take_app_length' (left_child_hash e)) by done.
  rewrite (app_assoc (to_le_bytes _)), drop_app_length' by (rewrite length_app; lia).
  rewrite take_ge by lia; by destruct e.
Qed.

Lemma extra_of_zeros : extra_of (zeros MetaFull)
  = {| block_ctr := 0; left_child_hash := default_hash; right_child_hash := default_hash |}.
Proof.
  unfold extra_of, zeros, MetaFull.
  rewrite drop_replicate; replace (MetaSize + ExtraMetaSize - MetaSize)%nat with ExtraMetaSize by lia.
  reflexivity.
Qed.

Lemma extra_of_wf m : length m = MetaFull -> is_u64 (block_ctr (extra_of m)) -> extra_wf (extra_of m).
Proof.
  intros Hm Hc; split; [done|]; simpl.
  rewrite !length_take, !length_drop, Hm; unfold MetaFull, ExtraMetaSize; lia.
Qed.

(** ** Blocks outside the enclave *)

Variable s : OcallORAMStorage.

(** The hash of a stored block, the default for one never written. *)
Definition block_hash (i : Z) (d m : bytes) : bytes :=
  if bool_decide (m = zeros MetaFull) then default_hash else compute_block_hash (hash_key s) d i m.

(** The contents a stored block decrypts to, zeros for one never written. *)
Definition block_plain (i : Z) (d m : bytes) : bytes * bytes :=
  if bool_decide (m = zeros MetaFull) then (zeros DataSize, zeros MetaSize)
  else
    let cipher := cipher_new (aes_key s) (make_aes_nonce i (block_ctr (extra_of m))) in
    let '(d, cipher) := cipher_decrypt cipher d in
    (d, (cipher_decrypt cipher (take MetaSize m)).1).

Abbreviation T := (treetop_max_count s).

(** The position of an external node in the storage outside. *)
Definition slot (i : Z) : nat := Z.to_nat (i - T).

Definition hash_at (D M : list bytes) (i : Z) : bytes := block_hash i (D !!! slot i) (M !!! slot i).

Definition external (i : Z) : Prop := T <= i < count s.

(** The storage outside holds the memory [mem] below the top of the tree.
    Every block has the hash that its parent, or the enclave for the topmost
    ones, records for it, except that of the node [x]; no block was written
    more than [n] times. *)
Record ext_inv (D M : list bytes) (mem : memory) (n : Z) (roots : list bytes) (x : option Z) : Prop := {
  ei_top : 2 <= T;
  ei_length : length D = Z.to_nat (count s - T) /\ length M = Z.to_nat (count s - T);
  ei_size : forall i, external i -> length (D !!! slot i) = DataSize /\ length (M !!! slot i) = MetaFull;
  ei_mem : forall i, external i -> length (mem i).1 = DataSize /\ length (mem i).2 = MetaSize;
  ei_plain : forall i, external i -> block_plain i (D !!! slot i) (M !!! slot i) = mem i;
  ei_child : forall c, external c -> T <= c / 2 -> x <> Some c ->
    child_hash (extra_of (M !!! slot (c / 2))) c = hash_at D M c;
  ei_roots : forall i, external i -> i / 2 < T -> x <> Some i ->
    roots !! Z.to_nat i = Some (hash_at D M i);
  ei_ctr : forall i, external i -> 0 <= block_ctr (extra_of (M !!! slot i)) <= n;
}.

Lemma slot_bound i : external i -> (slot i < Z.to_nat (count s - T))%nat.
Proof. unfold external, slot; lia. Qed.

Lemma slot_inj i j : external i -> external j -> slot i = slot j -> i = j.
Proof. unfold external, slot; lia. Qed.

(** The hash of the previous round is that of the child of [i] on the branch. *)
Definition last_ok (D M : list bytes) (i : Z) (last : option (Z * bytes)) : Prop :=
  match last with
  | None => True
  | Some (c, h) => external c /\ c / 2 = i /\ h = hash_at D M c
  end.

Lemma check_child_ok D M mem n roots i last :
  ext_inv D M mem n roots None -> T <= i -> last_ok D M i last ->
  check_child last (extra_of (M !!! slot i)) = true.
Proof.
  intros Hinv Hi Hlast; destruct last as [[c h]|]; [|done]; destruct Hlast as (Hc & <- & ->).
  pose proof (ei_child _ _ _ _ _ _ Hinv c Hc Hi ltac:(done)) as Hch.
  unfold child_hash in Hch; unfold check_child; case_match; by rewrite Hch, bool_decide_eq_true_2.
Qed.

(** Opening a stored block gives the memory's contents. *)
Lemma open_block_ok D M mem n roots k idx i last :
  ext_inv D M mem n roots None -> external i -> last_ok D M i last -> idx <> k ->
  exists sc, open_block s k idx i (D !!! slot i) (M !!! slot i) last
      = Ret ((mem i).1, (mem i).2, sc, Some (i, hash_at D M i))
    /\ length sc = MetaFull /\ drop MetaSize sc = drop MetaSize (M !!! slot i).
Proof.
  intros Hinv Hi Hlast Hk; unfold open_block, hash_at, block_hash.
  pose proof (ei_plain _ _ _ _ _ _ Hinv i Hi) as Hp; unfold block_plain in Hp.
  destruct (ei_size _ _ _ _ _ _ Hinv i Hi) as [_ Hm].
  destruct (ei_mem _ _ _ _ _ _ Hinv i Hi) as [_ Hml].
  case_bool_decide as Hz; [rewrite <- Hp; eauto|].
  rewrite extra_meta_from_ret by done; simpl.
  rewrite (check_child_ok D M mem n roots) by (done || apply Hi); simpl.
  rewrite (proj2 (Nat.eqb_neq _ _) Hk); simpl.
  destruct (cipher_decrypt _ _) as [d c] eqn:Hd.
  destruct (cipher_decrypt c _) as [m c'] eqn:Hc; simpl in Hp.
  rewrite <- Hp in *; simpl in Hml |- *.
  eexists; split; [reflexivity|]; rewrite length_app, length_drop, drop_app_length' by done.
  rewrite Hm, Hml; unfold MetaFull; split; [lia|done].
Qed.

Definition scratch_ok (M : list bytes) (n : Z) (i : Z) (sc : bytes) : Prop :=
  length sc = MetaFull /\ drop MetaSize sc = drop MetaSize (M !!! slot i)
  /\ 0 <= block_ctr (extra_of sc) <= n.

Lemma open_blocks_ok D M mem n roots k idx i last l :
  external_branch T i l -> ext_inv D M mem n roots None -> i < count s ->
  last_ok D M i last -> (idx + length l <= k)%nat ->
  exists scratch, open_blocks s k idx l ((fun j => D !!! slot j) <$> l) ((fun j => M !!! slot j) <$> l) last
      = Ret (read_data mem l, read_meta mem l, scratch)
    /\ Forall2 (scratch_ok M n) l scratch.
Proof.
  intros Hl Hinv; pose proof (ei_top _ _ _ _ _ _ Hinv) as HT; revert idx last; induction Hl as [|i l Hi Hl IH]; intros idx last Hc Hlast Hk.
  { exists []; split; [done|constructor]. }
  rewrite !fmap_cons; cbn [open_blocks length] in Hk |- *; pose proof (half_bounds i _ HT Hi).
  destruct (open_block_ok D M mem n roots k idx i last) as (sc & -> & Hlen & Hdrop);
    [done|done|done|lia|]; cbn [mbind run_bind].
  destruct (IH (S idx) (Some (i, hash_at D M i))) as (scratch & -> & Hsc);
    [lia|repeat split; try done; lia|lia|]; simpl.
  eexists; split; [reflexivity|]; constructor; [|done].
  split; [done|]; split; [done|].
  rewrite (extra_of_eq _ _ Hdrop); by apply (ei_ctr _ _ _ _ _ _ Hinv).
Qed.

(** *** Sealing *)

Lemma land_1 c : Z.land c 1 = c mod 2.
Proof. apply (Z.land_ones c 1); lia. Qed.

Lemma record_child_same c h e : child_hash (record_child (Some (c, h)) e) c = h.
Proof. unfold child_hash; simpl; by destruct (Z.land c 1 =? 0). Qed.

Lemma record_child_other c c' h e :
  c <> c' -> c / 2 = c' / 2 -> child_hash (record_child (Some (c', h)) e) c = child_hash e c.
Proof.
  intros Hne Hh; unfold child_hash; simpl; rewrite !land_1.
  destruct (c mod 2 =? 0) eqn:E, (c' mod 2 =? 0) eqn:E'; simpl; try done; bool_to_prop;
    exfalso; apply Hne; Z.to_euclidean_division_equations; lia.
Qed.

Lemma child_hash_incr e c : child_hash (incr_ctr e) c = child_hash e c.
Proof. done. Qed.

Lemma block_ctr_record last e : block_ctr (record_child last e) = block_ctr e.
Proof. destruct last as [[c h]|]; simpl; [by case_match|done]. Qed.

Lemma hash_at_length D M i : length (hash_at D M i) = 16%nat.
Proof.
  unfold hash_at, block_hash, compute_block_hash; case_bool_decide; [done|].
  rewrite length_take, Blake2b_length; lia.
Qed.

Lemma record_child_wf D M i last e :
  last_ok D M i last -> extra_wf e -> block_ctr e < u64_max -> extra_wf (incr_ctr (record_child last e)).
Proof.
  intros Hlast (Hc & Hl & Hr) Hmax; unfold extra_wf; simpl.
  rewrite block_ctr_record, u64_add_small by (unfold_u64; lia).
  split; [unfold_u64; lia|].
  destruct last as [[c h]|]; simpl; [|done].
  destruct Hlast as (_ & _ & ->); case_match; simpl; by rewrite hash_at_length.
Qed.

(** A sealed block is told apart from one never written by its counter. *)
Lemma sealed_nonzero m e : length m = MetaSize -> extra_wf e -> block_ctr e <> 0 ->
  m ++ extra_meta_bytes e <> zeros MetaFull.
Proof.
  intros Hm He Hc Hz; apply Hc.
  by rewrite <- (extra_of_bytes m e Hm He), Hz, extra_of_zeros.
Qed.

Lemma sealed_plain i c d m e :
  c = cipher_new (aes_key s) (make_aes_nonce i (block_ctr e)) ->
  length m = MetaSize -> extra_wf e -> block_ctr e <> 0 ->
  block_plain i (cipher_encrypt c d).1
    ((cipher_encrypt (cipher_encrypt c d).2 m).1 ++ extra_meta_bytes e) = (d, m).
Proof.
  intros -> Hm He Hc; unfold block_plain.
  pose proof (cipher_encrypt_length (cipher_encrypt
    (cipher_new (aes_key s) (make_aes_nonce i (block_ctr e))) d).2 m) as Hl; rewrite Hm in Hl.
  rewrite bool_decide_eq_false_2 by by apply sealed_nonzero.
  by rewrite extra_of_bytes, cipher_roundtrip, take_app_length', cipher_roundtrip.
Qed.

Lemma ext_inv_write D M mem n roots x i ed em b :
  ext_inv D M mem n roots x -> external i -> (forall c, x = Some c -> c / 2 = i) ->
  length ed = DataSize -> length em = MetaFull -> length b.1 = DataSize -> length b.2 = MetaSize ->
  block_plain i ed em = b -> 0 <= block_ctr (extra_of em) <= n ->
  (forall c, external c -> c / 2 = i -> c <> i -> child_hash (extra_of em) c = hash_at D M c) ->
  ext_inv (<[slot i := ed]> D) (<[slot i := em]> M) (mem_write mem i b) n roots (Some i).
Proof.
  intros [HT [HD HM] Hsize Hmem Hplain Hchild Hroots Hctr] Hi Hx Hed Hem Hb1 Hb2 Hb Hctr' Hnew.
  pose proof (slot_bound i Hi) as Hs.
  assert (forall (l : list bytes) v j, length l = Z.to_nat (count s - T) -> external j ->
    <[slot i := v]> l !!! slot j = if decide (j = i) then v else l !!! slot j) as Hget.
  { intros l v j Hl Hj; rewrite insert_lookup_total by lia.
    destruct (decide (j = i)) as [->|Hne]; [by rewrite !decide_True|].
    rewrite decide_False; [done|]; intros E; by apply Hne, slot_inj. }
  assert (forall j, external j -> j <> i -> hash_at (<[slot i := ed]> D) (<[slot i := em]> M) j
    = hash_at D M j) as Hhash.
  { intros j Hj Hne; unfold hash_at; by rewrite !Hget, !decide_False. }
  split; [done|..].
  - by rewrite !length_insert.
  - intros j Hj; rewrite !Hget by done; case_decide; auto.
  - intros j Hj; unfold mem_write; case_decide; auto.
  - intros j Hj; rewrite !Hget by done; unfold mem_write; case_decide; [by subst|auto].
  - intros c Hc HTc Hne.
    assert (external (c / 2)) as Hp
      by (unfold external in *; split; [lia|]; Z.to_euclidean_division_equations; lia).
    assert (c <> i) as Hci by congruence.
    rewrite Hhash, Hget by done; case_decide as Hd; [by apply Hnew|].
    apply Hchild; [done|done|]; intros E; by apply Hd, Hx.
  - intros j Hj Hr Hne; rewrite Hhash by (done || congruence).
    apply Hroots; [done|done|]; intros E; apply Hx in E; unfold external in *; lia.
  - intros j Hj; rewrite Hget by done; case_decide; auto.
Qed.

Lemma seal_block_ok D M mem n n' roots i last d m sc :
  ext_inv D M mem n' roots (fst <$> last) -> external i -> last_ok D M i last ->
  scratch_ok M n i sc -> n < n' -> n' < u64_modulus ->
  length d = DataSize -> length m = MetaSize ->
  exists ed em, let D' := <[slot i := ed]> D in let M' := <[slot i := em]> M in
    seal_block s i d m sc last = Ret (ed, em, Some (i, hash_at D' M' i))
    /\ length ed = DataSize /\ length em = MetaFull
    /\ ext_inv D' M' (mem_write mem i (d, m)) n' roots (Some i).
Proof.
  intros Hinv Hi Hlast (Hlen & Hdrop & Hctr) Hn Hn' Hd Hm; unfold seal_block.
  rewrite extra_meta_from_ret by done; cbn [mbind run_bind].
  pose proof (extra_of_wf sc Hlen ltac:(unfold_u64; lia)) as Hwf.
  set (e := incr_ctr (record_child last (extra_of sc))).
  assert (extra_wf e) as He by (eapply record_child_wf; [done|done|unfold_u64; lia]).
  assert (block_ctr e = block_ctr (extra_of sc) + 1) as Hce.
  { unfold e; simpl; rewrite block_ctr_record, u64_add_small; [done|unfold_u64; lia]. }
  set (c := cipher_new _ _).
  pose proof (cipher_encrypt_length c d) as Hed.
  pose proof (sealed_plain i c d m e eq_refl Hm He ltac:(lia)) as Hplain.
  destruct (cipher_encrypt c d) as [ed c1]; simpl in Hed, Hplain.
  pose proof (cipher_encrypt_length c1 m) as Hem.
  destruct (cipher_encrypt c1 m) as [em c2]; simpl in Hem, Hplain.
  destruct (ei_length _ _ _ _ _ _ Hinv) as [HD HM]; pose proof (slot_bound i Hi).
  exists ed, (em ++ extra_meta_bytes e); split.
  { unfold hash_at, block_hash; rewrite !list_lookup_total_insert_eq by lia.
    by rewrite bool_decide_eq_false_2 by (apply sealed_nonzero; [lia|done|lia]). }
  split; [lia|]; split.
  { rewrite length_app, extra_meta_bytes_length by done; unfold MetaFull; lia. }
  eapply ext_inv_write; try done; try lia.
  - intros k Hk; destruct last as [[c' h]|]; simplify_eq/=; apply Hlast.
  - rewrite length_app, extra_meta_bytes_length by done; unfold MetaFull; lia.
  - rewrite extra_of_bytes by (done || lia); lia.
  - intros k Hk Hki Hne; rewrite extra_of_bytes by (done || lia).
    unfold e; rewrite child_hash_incr, (extra_of_eq _ _ Hdrop).
    assert (T <= k / 2) as HTk by (unfold external in *; lia).
    destruct last as [[c' h]|].
    + destruct Hlast as (Hc' & Hc'i & ->); destruct (decide (k = c')) as [->|Hkc];
        [apply record_child_same|].
      rewrite record_child_other by (done || lia); rewrite <- Hki.
      apply (ei_child _ _ _ _ _ _ Hinv); simpl; congruence.
    + rewrite <- Hki; by apply (ei_child _ _ _ _ _ _ Hinv).
Qed.

(** The items of a list all have the size [n], one for each node of a branch. *)
Definition items_ok (n : nat) (l : list Z) (items : list bytes) : Prop :=
  length items = length l /\ Forall (fun b => length b = n) items.

Lemma items_ok_cons n i l items : items_ok n (i :: l) items ->
  exists b items', items = b :: items' /\ length b = n /\ items_ok n l items'.
Proof.
  intros [Hl Hf]; destruct items as [|b items]; [done|].
  apply Forall_cons in Hf as [Hb Hf]; exists b, items; repeat split; try done; simpl in Hl; lia.
Qed.

Lemma items_ok_intro n i l b items : length b = n -> items_ok n l items -> items_ok n (i :: l) (b :: items).
Proof. intros Hb [Hl Hf]; split; [simpl; lia | by constructor]. Qed.

Lemma scratch_ok_insert M n i em l scratch :
  external i -> length M = Z.to_nat (count s - T) -> Forall (fun j => T <= j < i) l ->
  Forall2 (scratch_ok M n) l scratch -> Forall2 (scratch_ok (<[slot i := em]> M) n) l scratch.
Proof.
  intros Hi HM Hl Hsc; induction Hsc as [|j sc l scratch (Hlen & Hdrop & Hctr) Hsc IH]; constructor.
  - apply Forall_cons in Hl as [Hj _]; pose proof (slot_bound i Hi).
    split; [done|]; split; [|done].
    rewrite insert_lookup_total, decide_False by (unfold slot, external in *; lia); done.
  - apply IH; by apply Forall_cons in Hl as [_ ?].
Qed.

Lemma seal_blocks_ok n n' roots i l : external_branch T i l -> n < n' -> n' < u64_modulus -> i < count s ->
  forall D M mem last src src_meta scratch,
  ext_inv D M mem n' roots (fst <$> last) -> last_ok D M i last ->
  items_ok DataSize l src -> items_ok MetaSize l src_meta -> Forall2 (scratch_ok M n) l scratch ->
  exists eds ems last' j,
    seal_blocks s l src src_meta scratch last = Ret (eds, ems, last')
    /\ items_ok DataSize l eds /\ items_ok MetaFull l ems
    /\ (let D' := write_items D ((fun i => i - T) <$> l) eds in
        let M' := write_items M ((fun i => i - T) <$> l) ems in
        ext_inv D' M' (write_branch mem l src src_meta) n' roots (fst <$> last')
        /\ last_ok D' M' j last' /\ j < T /\ (last' = None -> last = None /\ l = [])).
Proof.
  intros Hl Hn Hn'; induction Hl as [i Hi|i l Hi Hl IH]; intros Hc D M mem last src src_meta scratch
    Hinv Hlast Hsrc Hmeta Hsc.
  { apply Forall2_nil_inv_l in Hsc as ->.
    destruct src, src_meta; try by destruct Hsrc, Hmeta.
    exists [], [], last, i; done. }
  apply items_ok_cons in Hsrc as (d & src' & -> & Hd & Hsrc).
  apply items_ok_cons in Hmeta as (m & meta' & -> & Hm & Hmeta).
  apply Forall2_cons_inv_l in Hsc as (sc & scratch' & Hsc1 & Hsc & ->).
  assert (external i) as Hei by (split; lia).
  pose proof (half_bounds i _ (ei_top _ _ _ _ _ _ Hinv) Hi) as Hhalf.
  destruct (seal_block_ok D M mem n n' roots i last d m sc) as (ed & em & Hseal & Hed & Hem & Hinv');
    [done..|].
  cbn [seal_blocks]; rewrite Hseal; cbn [mbind run_bind].
  destruct (IH ltac:(lia) (<[slot i := ed]> D) (<[slot i := em]> M) (mem_write mem i (d, m))
    (Some (i, hash_at (<[slot i := ed]> D) (<[slot i := em]> M) i)) src' meta' scratch')
    as (eds & ems & last' & j & -> & Heds & Hems & Hpost); try done.
  { apply scratch_ok_insert; [done|apply (ei_length _ _ _ _ _ _ Hinv)| |done].
    eapply Forall_impl; [exact (external_branch_range _ _ _ (ei_top _ _ _ _ _ _ Hinv) Hl)|].
    simpl; lia. }
  exists (ed :: eds), (em :: ems), last', j; split; [done|].
  split; [by apply items_ok_intro|]; split; [by apply items_ok_intro|].
  rewrite fmap_cons; cbn [write_items write_branch].
  destruct Hpost as (? & ? & ? & Hnone); split_and!; try done.
  intros ->; by destruct (Hnone eq_refl) as [? _].
Qed.

(** The enclave records the hash of the topmost block outside. *)
Lemma ext_inv_close D M mem n roots j t h :
  ext_inv D M mem n roots (Some t) -> last_ok D M j (Some (t, h)) -> j < T ->
  length roots = Z.to_nat (2 * T) ->
  (Z.to_nat t < length roots)%nat /\ ext_inv D M mem n (<[Z.to_nat t := h]> roots) None.
Proof.
  intros Hinv (Ht & Htj & ->) Hj Hlen; pose proof (ei_top _ _ _ _ _ _ Hinv) as HT.
  assert (t < 2 * T) as Htb by (Z.to_euclidean_division_equations; lia).
  unfold external in Ht; split; [lia|].
  destruct Hinv as [_ Hl Hsize Hmem Hplain Hchild Hroots Hctr]; split; try done.
  - intros c Hc Hp _; apply Hchild; [done|done|]; intros [= ->]; lia.
  - intros i Hi Hp _; destruct (decide (i = t)) as [->|Hne].
    + apply list_lookup_insert_eq; lia.
    + rewrite list_lookup_insert_ne by (unfold external in *; lia).
      apply Hroots; [done|done|congruence].
Qed.

End blocks.

(** ** The storage object *)

Lemma as_arrays_concat n l items : items_ok n l items -> as_arrays n (length l) (concat items) = items.
Proof.
  revert items; induction l as [|i l IH]; intros items Hok.
  { by destruct items; [|destruct Hok]. }
  apply items_ok_cons in Hok as (b & items' & -> & Hb & Hok); simpl.
  rewrite take_app_length', drop_app_length' by done; by rewrite IH.
Qed.

Lemma concat_length n l items : items_ok n l items -> length (concat items) = (length l * n)%nat.
Proof.
  revert items; induction l as [|i l IH]; intros items Hok.
  { by destruct items; [|destruct Hok]. }
  apply items_ok_cons in Hok as (b & items' & -> & Hb & Hok); simpl.
  rewrite length_app, Hb; by rewrite IH.
Qed.

Lemma items_ok_take n l1 l2 items : items_ok n (l1 ++ l2) items -> items_ok n l1 (take (length l1) items).
Proof.
  intros [Hl Hf]; rewrite length_app in Hl; split; [rewrite length_take; lia|by apply Forall_take].
Qed.

Lemma items_ok_drop n l1 l2 items : items_ok n (l1 ++ l2) items -> items_ok n l2 (drop (length l1) items).
Proof.
  intros [Hl Hf]; rewrite length_app in Hl; split; [rewrite length_drop; lia|by apply Forall_drop].
Qed.

Lemma vec_resize_items n (v : list bytes) k : Forall (fun b => length b = n) v ->
  length (vec_resize v k (zeros n)) = k /\ Forall (fun b => length b = n) (vec_resize v k (zeros n)).
Proof.
  intros Hv; unfold vec_resize; split.
  - rewrite length_app, length_take, length_replicate; lia.
  - apply Forall_app; split; [by apply Forall_take|].
    apply Forall_replicate, length_replicate.
Qed.

Lemma vec_resize_id {A} (v : list A) x : vec_resize v (length v) x = v.
Proof. unfold vec_resize; by rewrite take_ge, Nat.sub_diag, app_nil_r. Qed.

Section object.
Context {BS : BlockSizes} {TI : TreeIndex} {TIL : TreeIndexLaws TI} {HS : HeapORAMStorage}
  {HL : HeapORAMStorageLaws TI HS} {C : BlockCrypto} {CL : BlockCryptoLaws C}
  {US : UntrustedStorage} {UL : UntrustedStorageLaws US} {FB : FillBytes}.

(** The part of the storage outside the enclave, [a] what the untrusted side
    holds; [pending] is the node whose branch is checked out. *)
Record outside_inv (s : OcallORAMStorage) (a : Allocation) (mem : memory) (n : Z)
    (pending : option Z) : Prop := {
  oi_count : al_count a = count s - treetop_max_count s;
  oi_data_size : al_data_size a = DataSize;
  oi_meta_size : al_meta_size a = MetaFull;
  oi_roots : length (trusted_merkle_roots s) = Z.to_nat (2 * treetop_max_count s);
  oi_inv : ext_inv s (al_data a) (al_meta a) mem n (trusted_merkle_roots s) None;
  oi_pending :
    match pending with
    | Some i =>
        al_checked_out a = bool_decide (treetop_max_count s <= i)
        /\ forall ext, treetop_max_count s <= i -> external_branch (treetop_max_count s) i ext ->
           Forall2 (scratch_ok s (al_meta a) n) ext (meta_scratch_buffer s)
    | None => al_checked_out a = false
    end;
}.

(** The storage object and the untrusted side together represent the memory [mem]. *)
Record storage_inv (s : OcallORAMStorage) (u : UStore) (mem : memory) (n : Z)
    (pending : option Z) : Prop := {
  si_top : 2 <= treetop_max_count s;
  si_count : is_u64 (count s);
  si_len : heap_len (treetop s) = Z.min (treetop_max_count s) (count s);
  si_heap : forall i, 0 < i < treetop_max_count s -> heap_block (treetop s) i = mem i;
  si_scratch : Forall (fun b => length b = MetaFull) (meta_scratch_buffer s);
  si_outside : treetop_max_count s < count s ->
    exists a, u_alloc u (allocation_id s) = Some a /\ outside_inv s a mem n pending;
}.

(** The contents of the storage outside do not depend on the rest of the object. *)
Lemma ext_inv_object s s' D M mem n roots x :
  count s = count s' -> treetop_max_count s = treetop_max_count s' ->
  aes_key s = aes_key s' -> hash_key s = hash_key s' ->
  ext_inv s D M mem n roots x -> ext_inv s' D M mem n roots x.
Proof.
  destruct s, s'; cbn; intros -> -> -> -> [H1 H2 H3 H4 H5 H6 H7 H8]; split;
    [exact H1|exact H2|exact H3|exact H4|exact H5|exact H6|exact H7|exact H8].
Qed.

Lemma external_indices s i l :
  2 <= treetop_max_count s -> is_u64 (count s) -> i < count s ->
  external_branch (treetop_max_count s) i l ->
  (fun j => j -w treetop_max_count s) <$> l = (fun j => j - treetop_max_count s) <$> l
  /\ Forall (fun j => 0 <= j < count s - treetop_max_count s) ((fun j => j - treetop_max_count s) <$> l)
  /\ NoDup ((fun j => j - treetop_max_count s) <$> l).
Proof.
  intros HT Hc Hi Hl; pose proof (external_branch_NoDup _ _ _ HT Hl) as Hnd.
  apply (external_branch_range _ _ _ HT) in Hl; split_and!.
  - apply list_fmap_ext; intros k j Hj; eapply Forall_lookup in Hl; [|exact Hj].
    apply u64_sub_small; unfold_u64; lia.
  - apply Forall_fmap; eapply Forall_impl; [exact Hl|]; simpl; lia.
  - apply NoDup_fmap_2; [intros ???; lia|done].
Qed.

Lemma read_app mem l1 l2 :
  read_data mem (l1 ++ l2) = read_data mem l1 ++ read_data mem l2
  /\ read_meta mem (l1 ++ l2) = read_meta mem l1 ++ read_meta mem l2.
Proof. split; apply fmap_app. Qed.

Lemma read_ext mem mem' l : Forall (fun i => mem i = mem' i) l ->
  read_data mem l = read_data mem' l /\ read_meta mem l = read_meta mem' l.
Proof. induction 1 as [|i l Hi _ [IH1 IH2]]; [done|]; split; simpl; by rewrite Hi, ?IH1, ?IH2. Qed.

Lemma stored_items s D M mem n roots x i l :
  ext_inv s D M mem n roots x -> i < count s -> external_branch (treetop_max_count s) i l ->
  items_ok DataSize l ((fun j => D !!! slot s j) <$> l)
  /\ items_ok MetaFull l ((fun j => M !!! slot s j) <$> l).
Proof.
  intros Hinv Hi Hl; apply (external_branch_range _ _ _ (ei_top _ _ _ _ _ _ _ Hinv)) in Hl.
  split; (split; [apply length_fmap|]); apply Forall_fmap; (eapply Forall_impl; [exact Hl|]);
    intros j Hj; cbv beta in Hj; apply (ei_size _ _ _ _ _ _ _ Hinv j); unfold external; lia.
Qed.

(** The external part of a checkout. *)
Lemma outside_checkout s u a mem n i ext dest scratch :
  is_u64 (count s) -> i < count s -> treetop_max_count s <= i ->
  u_alloc u (allocation_id s) = Some a -> outside_inv s a mem n None ->
  external_branch (treetop_max_count s) i ext ->
  items_ok DataSize ext dest -> items_ok MetaFull ext scratch ->
  exists sc u' a',
    checkout_ocall u (allocation_id s) ((fun j => j -w treetop_max_count s) <$> ext) dest scratch
      = Ret ((fun j => al_data a !!! slot s j) <$> ext, (fun j => al_meta a !!! slot s j) <$> ext, u')
    /\ open_blocks s (length ext) 0 ext ((fun j => al_data a !!! slot s j) <$> ext)
         ((fun j => al_meta a !!! slot s j) <$> ext) None
       = Ret (read_data mem ext, read_meta mem ext, sc)
    /\ Forall (fun b => length b = MetaFull) sc
    /\ u_alloc u' (allocation_id s) = Some a' /\ outside_inv (set_scratch sc s) a' mem n (Some i).
Proof.
  intros Hc Hi HTi Ha [Hcnt Hds Hms Hroots Hinv Hout] Hext Hd Hs.
  pose proof (ei_top _ _ _ _ _ _ _ Hinv) as HT.
  destruct (external_indices s i ext HT Hc Hi Hext) as (-> & Hidx & Hnd).
  destruct (stored_items s _ _ _ _ _ _ i ext Hinv Hi Hext) as [HD HM].
  destruct (open_blocks_ok s (al_data a) (al_meta a) mem n _ (length ext) 0 i None ext Hext Hinv Hi I
    ltac:(lia)) as (sc & Hopen & Hsc).
  set (idx := (fun j => j - treetop_max_count s) <$> ext) in *.
  assert (length idx = length ext) as Hlen by apply length_fmap.
  destruct (u_checkout u (allocation_id s) a idx (concat dest) (concat scratch)) as (u' & Hcall & Ha');
    [done|done|done|by rewrite Hcnt|by rewrite Hlen, Hds, (concat_length _ _ _ Hd)
    |by rewrite Hlen, Hms, (concat_length _ _ _ Hs)|].
  exists sc, u', (al_set true (al_data a) (al_meta a) a); split_and!; try done.
  - unfold checkout_ocall; destruct Hd as [-> _], Hs as [-> _]; rewrite <- Hds, <- Hms, <- Hlen.
    rewrite Hcall; cbn [mbind run_bind]; rewrite Hlen, Hds, Hms; unfold idx.
    rewrite <- !list_fmap_compose; unfold compose, slot in *.
    by rewrite !as_arrays_concat.
  - clear -Hsc; induction Hsc as [|? ? ? ? (Hl & _) _ IH]; by constructor.
  - split; try done; [by eapply ext_inv_object; [..|exact Hinv]|].
    split; [by rewrite bool_decide_eq_true_2|].
    intros ext' _ Hext'.
    assert (ext' = ext) as -> by (eapply external_branch_det; done); done.
Qed.

Lemma ext_inv_mem s D M mem mem' n n' roots x :
  (forall i, treetop_max_count s <= i -> mem i = mem' i) -> n <= n' ->
  ext_inv s D M mem n roots x -> ext_inv s D M mem' n' roots x.
Proof.
  intros Hmem Hn [H1 H2 H3 H4 H5 H6 H7 H8]; split; try done.
  - intros i Hi; rewrite <- Hmem by apply Hi; auto.
  - intros i Hi; rewrite <- Hmem by apply Hi; auto.
  - intros i Hi; specialize (H8 i Hi); lia.
Qed.

(** The external part of a checkin. *)
Lemma outside_checkin s u a mem n i ext src src_meta :
  is_u64 (count s) -> i < count s -> treetop_max_count s <= i -> n + 1 < u64_modulus ->
  u_alloc u (allocation_id s) = Some a -> outside_inv s a mem n (Some i) ->
  external_branch (treetop_max_count s) i ext ->
  items_ok DataSize ext src -> items_ok MetaSize ext src_meta ->
  exists eds ems t h roots u' a',
    seal_blocks s ext src src_meta (meta_scratch_buffer s) None = Ret (eds, ems, Some (t, h))
    /\ vec_set (trusted_merkle_roots s) (Z.to_nat t) h = Ret roots
    /\ checkin_ocall u (allocation_id s) ((fun j => j -w treetop_max_count s) <$> ext) eds ems = Ret u'
    /\ Forall (fun b => length b = MetaFull) ems
    /\ u_alloc u' (allocation_id s) = Some a'
    /\ outside_inv (set_scratch ems (set_roots roots s)) a' (write_branch mem ext src src_meta) (n + 1) None.
Proof.
  intros Hc Hi HTi Hn Ha [Hcnt Hds Hms Hroots Hinv [Hout Hsc]] Hext Hd Hm.
  pose proof (ei_top _ _ _ _ _ _ _ Hinv) as HT.
  destruct (external_indices s i ext HT Hc Hi Hext) as (-> & Hidx & Hnd).
  assert (ext_inv s (al_data a) (al_meta a) mem (n + 1) (trusted_merkle_roots s) None) as Hinv'
    by (eapply ext_inv_mem; [| |exact Hinv]; [done|lia]).
  destruct (seal_blocks_ok s n (n + 1) (trusted_merkle_roots s) i ext Hext ltac:(lia) Hn Hi _ _ _ None
    src src_meta (meta_scratch_buffer s) Hinv' I Hd Hm (Hsc ext HTi Hext))
    as (eds & ems & last' & j & Hseal & Heds & Hems & Hinv1 & Hlast & Hj & Hnone).
  destruct last' as [[t h]|]; [|destruct (Hnone eq_refl) as [_ ->]; inversion Hext; lia].
  destruct (ext_inv_close _ _ _ _ _ _ _ _ _ Hinv1 Hlast Hj Hroots) as [Ht Hinv2].
  cbn [fst] in Ht, Hinv2.
  set (idx := (fun j => j - treetop_max_count s) <$> ext) in *.
  assert (length idx = length ext) as Hlen by apply length_fmap.
  rewrite bool_decide_eq_true_2 in Hout by done.
  destruct (u_checkin u (allocation_id s) a idx eds ems) as (u' & Hcall & Ha');
    [done|done|done|by rewrite Hcnt|by rewrite Hlen; apply Heds|by rewrite Hds; apply Heds
    |by rewrite Hlen; apply Hems|by rewrite Hms; apply Hems|].
  do 7 eexists; split; [exact Hseal|]; split_and!.
  - unfold vec_set; by rewrite (proj2 (Nat.ltb_lt _ _) Ht).
  - unfold checkin_ocall; destruct Heds as [-> _], Hems as [-> _].
    by rewrite <- Hds, <- Hms, <- Hlen.
  - apply Hems.
  - exact Ha'.
  - split; try done; [by cbn; rewrite length_insert|].
    by eapply ext_inv_object; [..|exact Hinv2].
Qed.

(** An index below the size of the heap part is within the heap. *)
Lemma treetop_reads s u mem n pending top :
  storage_inv s u mem n pending -> 0 < top < treetop_max_count s ->
  read_data (heap_block (treetop s)) (parents top) = read_data mem (parents top)
  /\ read_meta (heap_block (treetop s)) (parents top) = read_meta mem (parents top).
Proof.
  intros Hinv Htop; apply read_ext.
  eapply Forall_impl; [apply parents_range; lia|].
  intros j Hj; cbv beta in Hj; apply (si_heap _ _ _ _ _ Hinv); lia.
Qed.

Lemma outside_inv_treetop s a mem n pending t :
  outside_inv s a mem n pending -> outside_inv (set_treetop t s) a mem n pending.
Proof.
  intros [H1 H2 H3 H4 H5 H6]; split; try done.
  by eapply ext_inv_object; [..|exact H5].
Qed.

Lemma asserts_pass index cnt (n m k : nat) : 0 < index < cnt -> n = m -> k = n ->
  (n =? m)%nat = true /\ (index >? 0) = true /\ (index <? cnt) = true /\ (k =? n)%nat = true.
Proof. intros; repeat split; [apply Nat.eqb_eq|apply Z.gtb_lt|apply Z.ltb_lt|apply Nat.eqb_eq]; lia. Qed.

(** A checkout returns the blocks of the branch. *)
Lemma checkout_ok s u mem n index dest dest_meta :
  storage_inv s u mem n None -> 0 < index < count s ->
  items_ok DataSize (parents index) dest -> items_ok MetaSize (parents index) dest_meta ->
  exists s' u', checkout s u index dest dest_meta
      = Ret (read_data mem (parents index), read_meta mem (parents index), s', u')
    /\ storage_inv s' u' mem n (Some index) /\ count s' = count s.
Proof.
  intros Hinv Hi Hd Hm; destruct (Hinv) as [HT Hc Hlen Hheap Hscr Hout].
  destruct (parents_split _ index HT ltac:(lia)) as (ext & top & Hsp & Hext & Htop & Hle & Hpos & Hget).
  destruct (treetop_reads s u mem n None top Hinv Htop) as [Hrd Hrm].
  destruct (asserts_pass index (count s) (length dest) (length dest_meta) (length (parents index)))
    as (A1 & A2 & A3 & A4); [done|by destruct Hd as [-> _], Hm as [-> _]|by destruct Hd as [-> _]|].
  unfold checkout; rewrite A1, A2, A3, A4, Hpos; cbn [rassert unwrap mbind run_bind].
  rewrite Hget; cbn [unwrap mbind run_bind].
  rewrite Hsp in Hd, Hm.
  pose proof (items_ok_drop _ _ _ _ Hd) as [Hdt _]; pose proof (items_ok_drop _ _ _ _ Hm) as [Hmt _].
  destruct (heap_checkout_spec (treetop s) top (drop (length ext) dest) (drop (length ext) dest_meta))
    as (h & -> & Hh & Hhb); [lia|done|done|]; cbn [mbind run_bind].
  destruct ext as [|e ext].
  { cbn [length Nat.ltb Nat.leb]; rewrite Hsp, Hrd, Hrm; do 2 eexists; split; [reflexivity|].
    split; [|done]; split; cbn; try done; [by rewrite Hh|intros; rewrite Hhb; auto|].
    intros HTc; destruct (Hout HTc) as (a & Ha & Hoi); exists a; split; [done|].
    apply outside_inv_treetop; destruct Hoi; split; try done.
    inversion Hext; subst; rewrite bool_decide_eq_false_2 by lia; split; [done|intros; lia]. }
  replace (0 <? length (e :: ext))%nat with true by done.
  assert (treetop_max_count s <= index) as HTi by (inversion Hext; lia).
  destruct (Hout ltac:(lia)) as (a & Ha & Hoi).
  apply (outside_inv_treetop s a mem n None h) in Hoi.
  set (k := length (e :: ext)) in *.
  assert (take k (parents index) = e :: ext) as -> by (rewrite Hsp; by apply take_app_length').
  destruct (vec_resize_items _ _ k Hscr) as [Hk Hv].
  destruct (outside_checkout (set_treetop h s) u a mem n index (e :: ext) (take k dest)
    (vec_resize (meta_scratch_buffer s) k (zeros MetaFull)))
    as (sc & u' & a' & Hcall & Hopen & Hsc & Ha' & Hoi');
    [done|cbn; lia|done|done|done|done|by eapply items_ok_take|by split|].
  cbn [set_treetop meta_scratch_buffer allocation_id treetop_max_count] in Hcall |- *.
  fold k in Hopen; rewrite Hcall; cbn [mbind run_bind]; rewrite Hopen; cbn [mbind run_bind].
  rewrite Hsp; destruct (read_app mem (e :: ext) (parents top)) as [-> ->].
  rewrite Hrd, Hrm; do 2 eexists; split; [reflexivity|].
  split; [|done]; split; cbn; try done; [by rewrite Hh|intros; rewrite Hhb; auto|].
  intros _; eauto.
Qed.

(** A branch written to memory, seen from above and from below the boundary. *)
Lemma write_parents T mem i ext top src src_meta :
  2 <= T -> external_branch T i ext -> 0 < top < T ->
  length src = length (ext ++ parents top) -> length src_meta = length (ext ++ parents top) ->
  let k := length ext in
  let mem' := write_branch mem (ext ++ parents top) src src_meta in
  (forall j, j < T -> mem' j = write_branch mem (parents top) (drop k src) (drop k src_meta) j)
  /\ (forall j, T <= j -> mem' j = write_branch mem ext (take k src) (take k src_meta) j).
Proof.
  intros HT Hext Htop Hs Hm k mem'; rewrite length_app in Hs, Hm.
  assert (mem' = write_branch (write_branch mem ext (take k src) (take k src_meta)) (parents top)
    (drop k src) (drop k src_meta)) as ->.
  { unfold mem'; rewrite <- write_branch_app, !take_drop by (rewrite length_take; lia); done. }
  apply (external_branch_range _ _ _ HT) in Hext; pose proof (parents_range top ltac:(lia)) as Hpar.
  split; intros j Hj; [apply write_branch_ext|]; apply write_branch_notin.
  - intros Hin; eapply Forall_forall in Hext; [|exact Hin]; lia.
  - intros Hin; eapply Forall_forall in Hpar; [|exact Hin]; simpl in Hpar; lia.
Qed.

(** A checkin of the branch that was checked out writes the blocks. *)
Lemma checkin_ok s u mem n index src src_meta :
  storage_inv s u mem n (Some index) -> 0 < index < count s -> 0 <= n -> n + 1 < u64_modulus ->
  items_ok DataSize (parents index) src -> items_ok MetaSize (parents index) src_meta ->
  exists s' u', checkin s u index src src_meta = Ret (s', u')
    /\ storage_inv s' u' (write_branch mem (parents index) src src_meta) (n + 1) None
    /\ count s' = count s.
Proof.
  intros [HT Hc Hlen Hheap Hscr Hout] Hi Hn0 Hn Hd Hm.
  destruct (parents_split _ index HT ltac:(lia)) as (ext & top & Hsp & Hext & Htop & Hle & Hpos & Hget).
  destruct (asserts_pass index (count s) (length src) (length src_meta) (length (parents index)))
    as (A1 & A2 & A3 & A4); [done|by destruct Hd as [-> _], Hm as [-> _]|by destruct Hd as [-> _]|].
  unfold checkin; rewrite A1, A2, A3, A4, Hpos; cbn [rassert unwrap mbind run_bind].
  rewrite Hget; cbn [unwrap mbind run_bind].
  rewrite Hsp in Hd, Hm |- *; set (k := length ext) in *.
  destruct (write_parents _ mem index ext top src src_meta HT Hext Htop (proj1 Hd) (proj1 Hm))
    as [Hlow Hhigh]; fold k in Hlow, Hhigh.
  pose proof (items_ok_drop _ _ _ _ Hd) as [Hdt _]; pose proof (items_ok_drop _ _ _ _ Hm) as [Hmt _].
  destruct (heap_checkin_spec (treetop s) top (drop k src) (drop k src_meta))
    as (d' & m' & h & -> & Hh & Hhb); [lia|done|done|]; cbn [mbind run_bind].
  assert (forall j, 0 < j < treetop_max_count s ->
    heap_block h j = write_branch mem (ext ++ parents top) src src_meta j) as Hheap'.
  { intros j Hj; rewrite Hhb, Hlow by lia; by apply write_branch_ext, Hheap. }
  destruct (decide (index < treetop_max_count s)) as [HTi|HTi].
  { inversion Hext; subst ext; [|lia]; cbn [k length Nat.ltb Nat.leb].
    do 2 eexists; split; [reflexivity|]; split; [|done]; split; cbn; try done; [by rewrite Hh|].
    intros HTc; destruct (Hout HTc) as (a & Ha & Hoi); exists a; split; [done|].
    apply outside_inv_treetop; destruct Hoi as [? ? ? ? Hinv [Hco _]]; split; try done.
    - eapply ext_inv_mem; [| |exact Hinv]; [|lia]; intros j Hj; by rewrite Hhigh.
    - by rewrite Hco, bool_decide_eq_false_2 by lia. }
  destruct (Hout ltac:(lia)) as (a & Ha & Hoi).
  pose proof (oi_pending _ _ _ _ _ Hoi) as [_ Hsc]; specialize (Hsc ext ltac:(lia) Hext).
  apply (outside_inv_treetop s a mem n (Some index) h) in Hoi.
  replace (0 <? k)%nat with true by (unfold k; inversion Hext; [lia|done]).
  rewrite take_app_length' by done; cbn [set_treetop meta_scratch_buffer].
  assert (length (meta_scratch_buffer s) = k) as Hk by (symmetry; eapply Forall2_length, Hsc).
  replace (vec_resize _ k _) with (meta_scratch_buffer s) by (by rewrite <- Hk, vec_resize_id).
  destruct (outside_checkin (set_treetop h s) u a mem n index ext (take k src) (take k src_meta))
    as (eds & ems & t & hs & roots & u' & a' & Hseal & Hset & Hcall & Hems & Ha' & Hoi');
    [done|cbn; lia|cbn; lia|done|done|done|done|by eapply items_ok_take|by eapply items_ok_take|].
  cbn [set_treetop meta_scratch_buffer trusted_merkle_roots] in Hseal, Hset, Hcall |- *.
  rewrite Hseal; cbn [mbind run_bind unwrap]; rewrite Hset; cbn [mbind run_bind].
  cbn [set_scratch set_roots allocation_id treetop_max_count] in Hcall |- *; rewrite Hcall.
  do 2 eexists; split; [reflexivity|]; split; [|done]; split; cbn; try done; [by rewrite Hh|].
  intros _; exists a'; split; [done|]; destruct Hoi' as [? ? ? ? Hinv ?]; split; try done.
  eapply ext_inv_mem; [| |exact Hinv]; [|lia]; intros j Hj; by rewrite Hhigh.
Qed.

(** *** Creation *)

Definition zero_memory : memory := fun _ => (zeros DataSize, zeros MetaSize).

Lemma data_size_ge_8 : (8 <= DataSize)%nat.
Proof.
  destruct data_size_pow2 as [k Hk]; pose proof data_size_div8 as Hd.
  assert (0 < Z.of_nat DataSize) by (rewrite Hk; apply Z.pow_pos_nonneg; lia).
  apply Nat.Lcm0.mod_divide in Hd as [q Hq]; lia.
Qed.

Lemma treetop_max_bound t : let T := Z.max 2 (Z.shiftl 1 (t mod 64) / Z.of_nat DataSize) in
  2 <= T /\ T *w 2 = 2 * T.
Proof.
  intros T; pose proof data_size_ge_8.
  assert (0 <= Z.shiftl 1 (t mod 64) <= 2 ^ 63) as Hs.
  { pose proof (Z.mod_pos_bound t 64 ltac:(lia)); rewrite Z.shiftl_1_l.
    split; [apply Z.pow_nonneg; lia|apply Z.pow_le_mono_r; lia]. }
  assert (0 <= Z.shiftl 1 (t mod 64) / Z.of_nat DataSize <= 2 ^ 60) as Hq.
  { split; [apply Z.div_pos; lia|].
    apply Z.div_le_upper_bound; [lia|]; change (2 ^ 63) with (8 * 2 ^ 60) in Hs.
    transitivity (8 * 2 ^ 60); [lia|apply Z.mul_le_mono_nonneg_r; lia]. }
  unfold T; split; [lia|]; unfold u64_mul; rewrite wrap64_small; [lia|unfold_u64; lia].
Qed.

(** The untrusted memory a tree of [cnt] nodes may need is within the address space. *)
Definition count_fits (cnt : Z) : Prop := is_u64 cnt /\ is_u64 (cnt * Z.of_nat (DataSize + MetaFull)).

Lemma zero_blocks_inv s D : 2 <= treetop_max_count s < count s ->
  Forall (fun d => length d = DataSize) D -> length D = Z.to_nat (count s - treetop_max_count s) ->
  trusted_merkle_roots s = replicate (Z.to_nat (2 * treetop_max_count s)) default_hash ->
  ext_inv s D (replicate (Z.to_nat (count s - treetop_max_count s)) (zeros MetaFull)) zero_memory 0
    (trusted_merkle_roots s) None.
Proof.
  intros HT HD HDl Hroots; set (M := replicate _ _).
  assert (forall i, external s i -> M !!! slot s i = zeros MetaFull) as HM.
  { intros i Hi; apply lookup_total_replicate_2, slot_bound, Hi. }
  assert (forall i, external s i -> hash_at s D M i = default_hash) as Hhash.
  { intros i Hi; unfold hash_at, block_hash; by rewrite HM, bool_decide_eq_true_2. }
  assert (forall c, external s c -> treetop_max_count s <= c / 2 -> external s (c / 2)) as Hhalf.
  { intros c Hc Hh; split; [done|]; unfold external in Hc; Z.to_euclidean_division_equations; lia. }
  split; try lia.
  - unfold M; by rewrite length_replicate.
  - intros i Hi; rewrite HM by done; split; [|apply length_replicate].
    eapply Forall_forall in HD; [exact HD|]; apply list_elem_of_lookup_total_2.
    rewrite HDl; by apply slot_bound.
  - intros i Hi; split; apply length_replicate.
  - intros i Hi; unfold block_plain; by rewrite HM, bool_decide_eq_true_2.
  - intros c Hc Hh _; rewrite Hhash, HM, extra_of_zeros by auto; unfold child_hash; simpl; by case_match.
  - intros i Hi Hh _; rewrite Hhash, Hroots by done; apply lookup_replicate_2.
    unfold external in Hi; Z.to_euclidean_division_equations; lia.
  - intros i Hi; by rewrite HM, extra_of_zeros.
Qed.

Lemma new_ok threshold cnt rng u s rng' u' :
  count_fits cnt -> new threshold cnt rng u = Ret (s, rng', u') ->
  storage_inv s u' zero_memory 0 None /\ count s = cnt.
Proof.
  intros [Hc Hfit] Hnew; unfold new in Hnew.
  destruct (treetop_max_bound threshold) as [HT HT2]; set (T := Z.max 2 _) in *.
  apply run_bind_ret in Hnew as ([] & Hnz & Hnew); apply run_bind_ret in Hnew as ([] & _ & Hnew).
  apply rassert_ret in Hnz; bool_to_prop.
  destruct (fill_bytes rng 16) as [k1 r1], (fill_bytes r1 16) as [k2 r2].
  destruct (cnt <=? T) eqn:HcT; bool_to_prop; cbn [mbind run_bind] in Hnew; simplify_eq.
  { destruct (heap_new_spec cnt ltac:(unfold_u64; lia)) as [Hl Hb]; split; [|done].
    split; cbn [treetop_max_count count treetop meta_scratch_buffer allocation_id]; try done; [rewrite Hl; lia|]; intros; lia. }
  apply run_bind_ret in Hnew as ([[id t] u1] & Halloc & Hnew); simplify_eq.
  apply run_bind_ret in Halloc as ([id' u2] & Halloc & Hid).
  destruct (id' =? 0) eqn:Hid0; [done|]; simplify_eq.
  destruct (heap_new_spec T ltac:(lia)) as [Hl Hb]; split; [|done].
  rewrite u64_sub_small in Halloc by (unfold_u64; lia).
  pose proof data_size_ge_8.
  destruct (u_allocate u (cnt - T) DataSize MetaFull id u' ltac:(lia) data_size_div8 meta_size_div8 ltac:(lia)
    ltac:(unfold MetaFull, ExtraMetaSize; lia)
    ltac:(unfold_u64; nia) ltac:(unfold_u64; nia) Halloc) as (a & Ha & Hco & Hac & Hds & Hms & Hmeta).
  split; cbn [treetop_max_count count treetop meta_scratch_buffer allocation_id]; try done; [rewrite Hl; lia|]; intros _; exists a; split; [done|].
  destruct (u_alloc_wf _ _ _ Ha) as (_ & Hld & _ & Hfd & _); rewrite Hac, Hds in *.
  split; cbn; try done; [rewrite length_replicate, HT2; done|].
  rewrite Hmeta; apply zero_blocks_inv; cbn; rewrite ?HT2; [lia|done|done|done].
Qed.

(** *** Refinement

    An access checks a branch out, computes new contents for its blocks and
    checks them in, as the ORAM algorithm does. *)
Record Access := {
  ac_index : Z;
  ac_dest : list bytes;
  ac_dest_meta : list bytes;
  ac_update : list bytes -> list bytes -> list bytes * list bytes;
}.

Definition access (s : OcallORAMStorage) (u : UStore) (a : Access)
  : run (list bytes * list bytes * OcallORAMStorage * UStore) :=
  '(data, meta, s, u) ← checkout s u (ac_index a) (ac_dest a) (ac_dest_meta a);
  '(s, u) ← (let '(data', meta') := ac_update a data meta in checkin s u (ac_index a) data' meta');
  Ret (data, meta, s, u).

Fixpoint accesses (s : OcallORAMStorage) (u : UStore) (l : list Access)
  : run (list (list bytes * list bytes) * OcallORAMStorage * UStore) :=
  match l with
  | [] => Ret ([], s, u)
  | a :: l =>
      '(data, meta, s, u) ← access s u a;
      '(reads, s, u) ← accesses s u l;
      Ret ((data, meta) :: reads, s, u)
  end.

(** The same accesses on a memory. *)
Fixpoint spec_accesses (mem : memory) (l : list Access) : list (list bytes * list bytes) :=
  match l with
  | [] => []
  | a :: l =>
      let branch := parents (ac_index a) in
      let data := read_data mem branch in
      let meta := read_meta mem branch in
      let '(data', meta') := ac_update a data meta in
      (data, meta) :: spec_accesses (write_branch mem branch data' meta') l
  end.

(** The index is a node of the tree and all buffers have the sizes of their types. *)
Definition access_ok (cnt : Z) (a : Access) : Prop :=
  let branch := parents (ac_index a) in
  0 < ac_index a < cnt
  /\ items_ok DataSize branch (ac_dest a) /\ items_ok MetaSize branch (ac_dest_meta a)
  /\ forall data meta, items_ok DataSize branch data -> items_ok MetaSize branch meta ->
     items_ok DataSize branch (ac_update a data meta).1
     /\ items_ok MetaSize branch (ac_update a data meta).2.

Definition mem_sized (mem : memory) : Prop :=
  forall i, length (mem i).1 = DataSize /\ length (mem i).2 = MetaSize.

Lemma read_items mem l : mem_sized mem ->
  items_ok DataSize l (read_data mem l) /\ items_ok MetaSize l (read_meta mem l).
Proof.
  intros Hm; split; (split; [apply length_fmap|]); apply Forall_fmap, Forall_true; intros i; apply Hm.
Qed.

Lemma write_sized mem l data meta : mem_sized mem ->
  items_ok DataSize l data -> items_ok MetaSize l meta -> mem_sized (write_branch mem l data meta).
Proof.
  revert mem data meta; induction l as [|i l IH]; intros mem data meta Hmem Hd Hm; [done|].
  apply items_ok_cons in Hd as (d & data' & -> & Hd & Hds).
  apply items_ok_cons in Hm as (m & meta' & -> & Hm & Hms).
  apply IH; [|done|done]; intros j; unfold mem_write; case_decide; [done|apply Hmem].
Qed.

Lemma access_refines s u mem n a :
  storage_inv s u mem n None -> mem_sized mem -> access_ok (count s) a -> 0 <= n ->
  n + 1 < u64_modulus ->
  let branch := parents (ac_index a) in
  let '(data', meta') := ac_update a (read_data mem branch) (read_meta mem branch) in
  exists s' u', access s u a = Ret (read_data mem branch, read_meta mem branch, s', u')
    /\ storage_inv s' u' (write_branch mem branch data' meta') (n + 1) None
    /\ mem_sized (write_branch mem branch data' meta') /\ count s' = count s.
Proof.
  intros Hinv Hmem (Hi & Hd & Hm & Hupd) Hn0 Hn branch.
  destruct (read_items mem branch Hmem) as [Hrd Hrm].
  destruct (Hupd _ _ Hrd Hrm) as [Hd' Hm'].
  destruct (ac_update a _ _) as [data' meta'] eqn:Hua; simpl in Hd', Hm'.
  destruct (checkout_ok s u mem n (ac_index a) (ac_dest a) (ac_dest_meta a) Hinv Hi Hd Hm)
    as (s1 & u1 & Hco & Hinv1 & Hc1).
  destruct (checkin_ok s1 u1 mem n (ac_index a) data' meta' Hinv1 ltac:(by rewrite Hc1) Hn0 Hn Hd' Hm')
    as (s2 & u2 & Hci & Hinv2 & Hc2).
  exists s2, u2; unfold access; rewrite Hco; cbn [mbind run_bind].
  fold branch; rewrite Hua, Hci; split_and!; [done|done|by apply write_sized|congruence].
Qed.

Lemma accesses_refine l : forall s u mem n,
  storage_inv s u mem n None -> mem_sized mem -> Forall (access_ok (count s)) l -> 0 <= n ->
  n + Z.of_nat (length l) < u64_modulus ->
  exists s' u', accesses s u l = Ret (spec_accesses mem l, s', u').
Proof.
  induction l as [|a l IH]; intros s u mem n Hinv Hmem Hok Hn0 Hn; [by eexists _, _|].
  apply Forall_cons in Hok as [Ha Hok]; cbn [length] in Hn.
  pose proof (access_refines s u mem n a Hinv Hmem Ha Hn0 ltac:(lia)) as Hacc.
  revert Hacc; cbn [accesses spec_accesses]; cbv zeta.
  destruct (ac_update a _ _) as [data' meta']; intros (s1 & u1 & -> & Hinv1 & Hmem1 & Hc1).
  destruct (IH s1 u1 _ (n + 1) Hinv1 Hmem1) as (s2 & u2 & Hrest);
    [by rewrite Hc1|lia|lia|].
  cbn [mbind run_bind]; rewrite Hrest; by eexists _, _.
Qed.

(** C19: A block storage created for a tree of [cnt] nodes behaves as a plain
    memory of blocks, initially zero.  For every sequence of fewer than 2^64
    accesses (a branch checked out, changed and checked in), at any nodes and
    with any updates, no assertion of either side fails, no authentication
    check rejects, and every checkout returns exactly what the last checkins
    wrote, whether a block stayed on the enclave's heap or went through
    encryption and the untrusted storage.  The untrusted side is any that
    keeps its [UntrustedStorageLaws]. *)
Theorem storage_refines_memory threshold cnt rng u s rng' u' l :
  count_fits cnt -> new threshold cnt rng u = Ret (s, rng', u') ->
  Forall (access_ok cnt) l -> Z.of_nat (length l) < u64_modulus ->
  exists s2 u2, accesses s u' l = Ret (spec_accesses zero_memory l, s2, u2).
Proof.
  intros Hfit Hnew Hl Hlen.
  destruct (new_ok _ _ _ _ _ _ _ Hfit Hnew) as [Hinv Hc].
  apply (accesses_refine l s u' zero_memory 0); try done; try lia; [|by rewrite Hc].
  intros i; split; apply length_replicate.
Qed.

End object.
