(* ===== verification/OramTamper.v ===== *)
(** * The ORAM block storage against a dishonest untrusted side

    The enclave sends the blocks below the top of the tree out encrypted, and
    authenticates them by a tree of hashes when they come back.  Here the
    untrusted side is arbitrary.  If the topmost block of a branch that comes
    back is the one that was stored, the hashes bind the blocks below it, as
    long as the blocks above each of them had been written; the checkout
    itself however compares no hash with the trusted roots, and does not
    check the children of a block that reads as never written. *)

From S2P Require Import Prelude.
From S2P Require Import OramStorage.
From S2P Require Import OramStorageSpec.

Local Open Scope Z_scope.
Local Open Scope fog_scope.

Section tamper.
Context {BS : BlockSizes} {TI : TreeIndex} {TIL : TreeIndexLaws TI} {HS : HeapORAMStorage}
  {C : BlockCrypto} {CL : BlockCryptoLaws C} {US : UntrustedStorage}.

(** ** What comes back *)

(** A block as it was stored; the data of a block never written does not matter. *)
Definition authentic (s : OcallORAMStorage) (D M : list bytes) (i : Z) (b : bytes * bytes) : Prop :=
  b.2 = M !!! slot s i /\ (b.2 = zeros MetaFull \/ b.1 = D !!! slot s i).

(** A block other than the stored one with the same hash. *)
Definition collision (s : OcallORAMStorage) (D M : list bytes) (i : Z) (b : bytes * bytes) : Prop :=
  ~ authentic s D M i b /\ block_hash s i b.1 b.2 = hash_at s D M i.

(** The blocks of a response with their nodes. *)
Definition response (l : list Z) (data meta : list bytes) : list (Z * (bytes * bytes)) :=
  zip l (zip data meta).

Definition last_authentic (s : OcallORAMStorage) (D M : list bytes) (r : list (Z * (bytes * bytes))) : Prop :=
  match last r with Some (i, b) => authentic s D M i b | None => True end.

#[local] Instance authentic_dec s D M i b : Decision (authentic s D M i b).
Proof. unfold authentic; apply _. Defined.

(** ** Authentication *)

(** A round of the checkout gives the block's hash to the next one. *)
Lemma open_block_hash s k idx i d m last out :
  open_block s k idx i d m last = Ret out -> out.2 = Some (i, block_hash s i d m).
Proof.
  unfold open_block, block_hash; case_bool_decide; [by intros [= <-]|].
  intros Hr; apply run_bind_ret in Hr as (e & _ & Hr); apply run_bind_ret in Hr as (? & _ & Hr).
  apply run_bind_ret in Hr as (? & _ & Hr).
  destruct (cipher_decrypt _ _) as [d' c]; destruct (cipher_decrypt c _) as [m' c'].
  by simplify_eq.
Qed.

(** A round for a block that was written checks the hash of its child. *)
Lemma open_block_child s k idx i d m c h out :
  length m = MetaFull -> m <> zeros MetaFull ->
  open_block s k idx i d m (Some (c, h)) = Ret out -> h = child_hash (extra_of m) c.
Proof.
  intros Hm Hnz; unfold open_block; rewrite bool_decide_eq_false_2, extra_meta_from_ret by done.
  cbn [mbind run_bind]; intros Hr; apply run_bind_ret in Hr as ([] & Hc & _).
  apply rassert_ret in Hc; unfold check_child, child_hash in *.
  by case_match; bool_to_prop.
Qed.

Lemma open_block_authentic s D M k idx i d m last :
  authentic s D M i (d, m) ->
  open_block s k idx i d m last = open_block s k idx i (D !!! slot s i) (M !!! slot s i) last.
Proof.
  intros [Hm Hd]; simpl in Hm, Hd; rewrite <- Hm; unfold open_block.
  case_bool_decide; [done|]; destruct Hd as [Hd|Hd]; [done|by rewrite Hd].
Qed.

Lemma open_blocks_authentic s D M k idx l data meta last :
  length data = length l -> length meta = length l ->
  Forall (fun '(i, b) => authentic s D M i b) (response l data meta) ->
  open_blocks s k idx l data meta last
  = open_blocks s k idx l ((fun j => D !!! slot s j) <$> l) ((fun j => M !!! slot s j) <$> l) last.
Proof.
  revert idx data meta last; induction l as [|i l IH]; intros idx [|d data] [|m meta] last Hd Hm Ha;
    try done.
  cbn in Ha; apply Forall_cons in Ha as [Ha Hrest]; rewrite !fmap_cons; cbn [open_blocks].
  rewrite (open_block_authentic _ _ _ _ _ _ _ _ _ Ha).
  destruct (open_block s k idx i _ _ last) as [[[[d' m'] sc] last']|]; [|done]; cbn [mbind run_bind].
  simpl in Hd, Hm; by rewrite (IH (S idx) data meta last') by (done || lia).
Qed.

(** Going down from an authentic block, the hashes fix every block. *)
Lemma branch_authentic s D M mem n roots k i l :
  external_branch (treetop_max_count s) i l -> ext_inv s D M mem n roots None -> i < count s ->
  forall idx data meta last out,
  items_ok DataSize l data -> items_ok MetaFull l meta ->
  open_blocks s k idx l data meta last = Ret out ->
  last_authentic s D M (response l data meta) ->
  Forall (fun j => M !!! slot s j <> zeros MetaFull) (tail l) ->
  Forall (fun '(j, b) => authentic s D M j b) (response l data meta)
  \/ Exists (fun '(j, b) => collision s D M j b) (response l data meta).
Proof.
  intros Hl Hinv; induction Hl as [|i l Hi Hl IH]; intros Hc idx data meta last out Hd Hm Hopen Htop Hw.
  { by left. }
  apply items_ok_cons in Hd as (d & data' & -> & Hd & Hds).
  apply items_ok_cons in Hm as (m & meta' & -> & Hm & Hms).
  cbn in Hopen; apply run_bind_ret in Hopen as ([[[d1 m1] sc1] last1] & Hb & Hopen).
  apply run_bind_ret in Hopen as (out' & Hopen & _).
  pose proof (open_block_hash _ _ _ _ _ _ _ _ Hb) as Hl1; simpl in Hl1; subst last1.
  pose proof (half_bounds i _ (ei_top _ _ _ _ _ _ _ Hinv) Hi) as Hh.
  inversion Hl as [j Hj Heq|j l' Hj Hl' Heq]; subst; [left; constructor; [exact Htop|constructor]|].
  apply items_ok_cons in Hds as (dj & data2 & -> & Hdj & Hds).
  apply items_ok_cons in Hms as (mj & meta2 & -> & Hmj & Hms).
  apply Forall_cons in Hw as [Hwj Hw].
  destruct (IH ltac:(lia) (S idx) (dj :: data2) (mj :: meta2) (Some (i, block_hash s i d m)) out') as [Hrest|Hrest];
    [by apply items_ok_intro|by apply items_ok_intro|exact Hopen|done|done| |by right; constructor 2].
  destruct (decide (authentic s D M i (d, m))) as [Ha|Hna]; [left; by constructor|].
  right; constructor; split; [done|]; cbn in Hrest; apply Forall_cons in Hrest as [[Hmj' _] _].
  simpl in Hmj'; cbn in Hopen; apply run_bind_ret in Hopen as (out2 & Hbj & _).
  apply open_block_child in Hbj; [|done|by rewrite Hmj'].
  simpl; rewrite Hbj, Hmj'; apply (ei_child _ _ _ _ _ _ _ Hinv); [split; lia|done|done].
Qed.

(** ** The checkout *)

(** A checkout of an external branch, taken apart. *)
Lemma checkout_external s u index dest dest_meta ds ms s' u' ext :
  2 <= treetop_max_count s -> 0 < index -> external_branch (treetop_max_count s) index ext -> ext <> [] ->
  checkout s u index dest dest_meta = Ret (ds, ms, s', u') ->
  index < count s
  /\ exists t data meta u1 ds1 ms1 sc ds2 ms2,
    checkout_ocall u (allocation_id s) ((fun j => j -w treetop_max_count s) <$> ext)
      (take (length ext) dest) (vec_resize (meta_scratch_buffer s) (length ext) (zeros MetaFull))
      = Ret (data, meta, u1)
    /\ open_blocks (set_treetop t s) (length ext) 0 ext data meta None = Ret (ds1, ms1, sc)
    /\ ds = ds1 ++ ds2 /\ ms = ms1 ++ ms2.
Proof.
  intros HT Hi Hext Hne Hco; unfold checkout in Hco.
  destruct (parents_split _ index HT Hi) as (ext' & top & Hsp & Hext' & _ & _ & Hpos & _).
  rewrite (external_branch_det _ _ _ _ Hext' Hext) in *.
  do 4 (apply run_bind_ret in Hco as ([] & ? & Hco)).
  rewrite Hpos in Hco; cbn [unwrap mbind run_bind] in Hco.
  apply run_bind_ret in Hco as (top' & _ & Hco).
  apply run_bind_ret in Hco as ([[td tm] t] & _ & Hco).
  replace (0 <? length ext)%nat with true in Hco by (by destruct ext).
  rewrite Hsp, take_app_length' in Hco by done.
  apply run_bind_ret in Hco as ([[data meta] u1] & Hcall & Hco).
  apply run_bind_ret in Hco as ([[ds1 ms1] sc] & Hopen & Hco); simplify_eq.
  split; [|by do 9 eexists].
  repeat match goal with Hr : rassert _ = _ |- _ => apply rassert_ret in Hr end; bool_to_prop; done.
Qed.

(** C30: Let the untrusted side be arbitrary and let the blocks outside the
    enclave be as the enclave last stored them.  If a checkout does not panic,
    the topmost external block of the response is the stored one, and the
    blocks above the lowest one had been written before, then what the
    checkout returns for the external part of the branch is what was stored
    there, unless the response contains a block that differs from the stored
    block of its node and has the same hash. *)
Theorem branch_tampering_detected s u D M mem n index dest dest_meta ds ms s' u' ext rd rs u1 :
  ext_inv s D M mem n (trusted_merkle_roots s) None ->
  0 < index -> external_branch (treetop_max_count s) index ext -> ext <> [] ->
  checkout s u index dest dest_meta = Ret (ds, ms, s', u') ->
  checkout_ocall u (allocation_id s) ((fun j => j -w treetop_max_count s) <$> ext)
    (take (length ext) dest) (vec_resize (meta_scratch_buffer s) (length ext) (zeros MetaFull))
    = Ret (rd, rs, u1) ->
  items_ok DataSize ext rd -> items_ok MetaFull ext rs ->
  last_authentic s D M (response ext rd rs) ->
  Forall (fun j => M !!! slot s j <> zeros MetaFull) (tail ext) ->
  (exists ds_top ms_top, ds = read_data mem ext ++ ds_top /\ ms = read_meta mem ext ++ ms_top)
  \/ Exists (fun '(j, b) => collision s D M j b) (response ext rd rs).
Proof.
  intros Hinv Hi Hext Hne Hco Hcall Hrd Hrs Htop Hw.
  destruct (checkout_external _ _ _ _ _ _ _ _ _ _ (ei_top _ _ _ _ _ _ _ Hinv) Hi Hext Hne Hco)
    as (Hc & t & data & meta & u2 & ds1 & ms1 & sc & ds2 & ms2 & Hcall' & Hopen & -> & ->).
  rewrite Hcall in Hcall'; simplify_eq.
  assert (ext_inv (set_treetop t s) D M mem n (trusted_merkle_roots s) None) as Hinv'
    by (by eapply ext_inv_object; [..|exact Hinv]).
  destruct (branch_authentic (set_treetop t s) D M mem n _ _ index ext Hext Hinv' Hc 0 data meta None _
    Hrd Hrs Hopen Htop Hw) as [Hall|Hcol]; [left|by right].
  rewrite (open_blocks_authentic _ _ _ _ _ _ _ _ _ (proj1 Hrd) (proj1 Hrs) Hall) in Hopen.
  destruct (open_blocks_ok (set_treetop t s) D M mem n _ (length ext) 0 index None ext Hext Hinv' Hc I)
    as (sc' & Hopen' & _); [lia|].
  rewrite Hopen' in Hopen; simplify_eq; eauto.
Qed.

(** ** What the checkout does not check *)

Lemma open_blocks_roots s r k idx l data meta last :
  (idx + length l <= k)%nat ->
  open_blocks (set_roots r s) k idx l data meta last = open_blocks s k idx l data meta last.
Proof.
  revert idx data meta last; induction l as [|i l IH]; intros idx [|d data] [|m meta] last Hk; try done.
  cbn [open_blocks length] in Hk |- *.
  assert (open_block (set_roots r s) k idx i d m last = open_block s k idx i d m last) as ->.
  { unfold open_block; by rewrite (proj2 (Nat.eqb_neq idx k)) by lia. }
  destruct (open_block s k idx i d m last) as [[[[d' m'] sc] last']|]; [|done]; cbn [mbind run_bind].
  by rewrite IH by lia.
Qed.

(** C37: The trusted roots play no part in a checkout: whatever they are, the
    checkout panics in the same cases and returns the same blocks.  The
    comparison in the loop is guarded by a condition that no round satisfies,
    so an old branch that is consistent in itself is accepted again. *)
Theorem checkout_ignores_roots s u index dest dest_meta roots :
  2 <= treetop_max_count s -> 0 < index ->
  checkout (set_roots roots s) u index dest dest_meta
  = ('(ds, ms, s', u') ← checkout s u index dest dest_meta;
     Ret (ds, ms, set_roots roots s', u')).
Proof.
  intros HT Hi; unfold checkout.
  destruct (parents_split _ index HT Hi) as (ext & top & Hsp & _ & _ & _ & Hpos & Hget).
  destruct (rassert (length dest =? _)%nat) as [[]|]; [|done]; cbn [mbind run_bind].
  destruct (rassert (index >? 0)) as [[]|]; [|done]; cbn [mbind run_bind].
  cbn [set_roots count treetop_max_count treetop].
  destruct (rassert (index <? count s)) as [[]|]; [|done]; cbn [mbind run_bind].
  destruct (rassert (length (parents index) =? _)%nat) as [[]|]; [|done]; cbn [mbind run_bind].
  rewrite Hpos; cbn [unwrap mbind run_bind]; rewrite Hget; cbn [unwrap mbind run_bind].
  destruct (heap_checkout _ _ _ _) as [[[td tm] t]|]; [|done]; cbn [mbind run_bind].
  destruct (0 <? length ext)%nat; [|done].
  rewrite Hsp, take_app_length' by done.
  cbn [set_roots set_treetop meta_scratch_buffer allocation_id treetop_max_count].
  destruct (checkout_ocall _ _ _ _ _) as [[[data meta] u1]|]; [|done]; cbn [mbind run_bind].
  change (set_treetop t (set_roots roots s)) with (set_roots roots (set_treetop t s)).
  rewrite open_blocks_roots by lia.
  by destruct (open_blocks _ _ _ _ _ _ _) as [[[ds ms] sc]|].
Qed.

(** A block whose metadata reads as all zeros, so never written, is taken
    as it is without a look at its child: below it, a branch may come back
    with any block of the right size, and the checkout decrypts and returns
    it. *)
Theorem forged_child_accepted s k c p d m dp :
  length m = MetaFull -> m <> zeros MetaFull -> (2 <= k)%nat ->
  exists sc, open_blocks s k 0 [c; p] [d; dp] [m; zeros MetaFull] None
    = Ret ([(block_plain s c d m).1; zeros DataSize], [(block_plain s c d m).2; zeros MetaSize], sc).
Proof.
  intros Hm Hnz Hk; cbn [open_blocks]; unfold open_block, block_plain.
  rewrite (bool_decide_eq_false_2 (m = zeros MetaFull)), (bool_decide_eq_true_2 (zeros _ = _)) by done.
  rewrite extra_meta_from_ret by done; cbn [mbind run_bind check_child rassert].
  rewrite (proj2 (Nat.eqb_neq 0 k)) by lia; cbn [mbind run_bind].
  destruct (cipher_decrypt _ _) as [d' c1]; destruct (cipher_decrypt c1 _) as [m' c2] eqn:E.
  cbn; eauto.
Qed.

End tamper.
