(* ===== verification/UntrustedStorage.v ===== *)
(** * The untrusted side of the ORAM block storage

    Model of [fog/ocall_oram_storage/untrusted/src/lib.rs]: allocations of
    [count] data and metadata items in two memory regions, reached through the
    address of their control structure, and the copies in and out of them by
    raw pointers.  An access outside a region, or through an address that is
    not that of an allocation, is undefined behaviour in the source; it is
    [Panic] here, so that a theorem that a call returns also says that all
    its accesses are in bounds.

    The allocations implement [UntrustedStorageLaws]. *)

From S2P Require Import Prelude.
From S2P Require Import OramStorage.
From S2P Require Import OramStorageSpec.

Local Open Scope Z_scope.
Local Open Scope fog_scope.

(** ** The global allocator

    [alloc] gives the unspecified contents of a new region, or a null pointer;
    [box_into_raw] an address not among those in use. *)
Class Allocator := {
  alloc : Z -> option bytes;
  alloc_zeroed : Z -> bool;
  box_into_raw : gset Z -> Z;
}.
Class AllocatorLaws (A : Allocator) := {
  alloc_length : forall n bs, alloc n = Some bs -> length bs = Z.to_nat n;
  box_into_raw_fresh : forall used, (box_into_raw used ∉ used) /\ box_into_raw used <> 0;
}.

(** ** Allocations *)

Record UntrustedAllocation := {
  ua_count : Z;
  data_item_size : Z;
  meta_item_size : Z;
  data_pointer : bytes;
  meta_pointer : bytes;
  critical_section_flag : bool;
  checkout_flag : bool;
}.

(** The process: its allocations by address, and the memory total it logs. *)
Record Process := {
  allocations : gmap Z UntrustedAllocation;
  TOTAL_MEM_FOOTPRINT_KB : Z;
}.

Definition set_flags (critical out : bool) (a : UntrustedAllocation) : UntrustedAllocation :=
  {| ua_count := ua_count a; data_item_size := data_item_size a; meta_item_size := meta_item_size a;
     data_pointer := data_pointer a; meta_pointer := meta_pointer a;
     critical_section_flag := critical; checkout_flag := out |}.
Definition set_regions (data meta : bytes) (a : UntrustedAllocation) : UntrustedAllocation :=
  {| ua_count := ua_count a; data_item_size := data_item_size a; meta_item_size := meta_item_size a;
     data_pointer := data; meta_pointer := meta;
     critical_section_flag := critical_section_flag a; checkout_flag := checkout_flag a |}.

Definition update (id : Z) (a : UntrustedAllocation) (p : Process) : Process :=
  {| allocations := <[id := a]> (allocations p); TOTAL_MEM_FOOTPRINT_KB := TOTAL_MEM_FOOTPRINT_KB p |}.

Definition compute_mem_kb (count data_item_size meta_item_size : Z) : Z :=
  let num_bytes := count *w (data_item_size +w meta_item_size) in
  (num_bytes +w 1023) / 1024.

(** [Layout::from_size_align(size, 8).is_ok()]: the size rounded up to the alignment fits. *)
Definition layout_ok (size : Z) : bool := size <=? u64_max - 7.

Section process.
Context `{Allocator}.

(** [UntrustedAllocation::new], with the new memory total. *)
Definition new_allocation (total count data_item_size meta_item_size : Z)
  : run (UntrustedAllocation * Z) :=
  let mem_kb := compute_mem_kb count data_item_size meta_item_size in
  _ ← rassert (data_item_size mod 8 =? 0);
  _ ← rassert (meta_item_size mod 8 =? 0);
  _ ← rassert (layout_ok (count *w data_item_size));
  data ← unwrap (alloc (count *w data_item_size));
  _ ← rassert (layout_ok (count *w meta_item_size));
  _ ← rassert (alloc_zeroed (count *w meta_item_size));
  Ret ({| ua_count := count; data_item_size := data_item_size; meta_item_size := meta_item_size;
          data_pointer := data; meta_pointer := zeros (Z.to_nat (count *w meta_item_size));
          critical_section_flag := false; checkout_flag := false |}, total +w mem_kb).

Definition allocate (p : Process) (count data_size meta_size : Z) : run (Z * Process) :=
  '(result, total) ← new_allocation (TOTAL_MEM_FOOTPRINT_KB p) count data_size meta_size;
  let id := box_into_raw (dom (allocations p)) in
  Ret (id, {| allocations := <[id := result]> (allocations p); TOTAL_MEM_FOOTPRINT_KB := total |}).

(** The box is dropped, and with it the regions; the total goes down. *)
Definition release (p : Process) (id : Z) : run Process :=
  a ← unwrap (allocations p !! id);
  _ ← rassert (negb (critical_section_flag a));
  let mem_kb := compute_mem_kb (ua_count a) (data_item_size a) (meta_item_size a) in
  Ret {| allocations := delete id (allocations p);
         TOTAL_MEM_FOOTPRINT_KB := TOTAL_MEM_FOOTPRINT_KB p -w mem_kb |}.

(** ** Copies *)

(** [core::ptr::copy_nonoverlapping(src.add(i), dst.add(j), n)] on pointers to words of eight bytes. *)
Definition copy_words (src : bytes) (i : Z) (dst : bytes) (j n : Z) : run bytes :=
  words ← slice src (Z.to_nat (8 * i)) (Z.to_nat (8 * i + 8 * n));
  copy_into dst (Z.to_nat (8 * j)) (Z.to_nat (8 * j + 8 * n)) words.

(** The copy loops of checkout and checkin, from iteration [count] on. *)
Fixpoint copy_out (region buf : bytes) (copy_size count : Z) (indices : list Z) : run bytes :=
  match indices with
  | [] => Ret buf
  | index :: indices =>
      buf ← copy_words region (copy_size *w index) buf (copy_size *w count) copy_size;
      copy_out region buf copy_size (count + 1) indices
  end.

Fixpoint copy_in (region buf : bytes) (copy_size count : Z) (indices : list Z) : run bytes :=
  match indices with
  | [] => Ret region
  | index :: indices =>
      region ← copy_words buf (copy_size *w count) region (copy_size *w index) copy_size;
      copy_in region buf copy_size (count + 1) indices
  end.

Definition checkout_storage (p : Process) (id : Z) (indices : list Z)
    (databuf : bytes) (databuf_len : Z) (metabuf : bytes) (metabuf_len : Z)
  : run (bytes * bytes * Process) :=
  a ← unwrap (allocations p !! id);
  _ ← rassert (negb (critical_section_flag a));
  _ ← rassert (negb (checkout_flag a));
  let a := set_flags true true a in
  let data_copy_size := data_item_size a / 8 in
  let meta_copy_size := meta_item_size a / 8 in
  let idx_len := Z.of_nat (length indices) in
  _ ← rassert (idx_len *w data_copy_size =? databuf_len);
  _ ← rassert (idx_len *w meta_copy_size =? metabuf_len);
  databuf ← copy_out (data_pointer a) databuf data_copy_size 0 indices;
  metabuf ← copy_out (meta_pointer a) metabuf meta_copy_size 0 indices;
  _ ← rassert (critical_section_flag a);
  Ret (databuf, metabuf, update id (set_flags false true a) p).

Definition checkin_storage (p : Process) (id : Z) (indices : list Z)
    (databuf : bytes) (databuf_len : Z) (metabuf : bytes) (metabuf_len : Z) : run Process :=
  a ← unwrap (allocations p !! id);
  _ ← rassert (negb (critical_section_flag a));
  _ ← rassert (checkout_flag a);
  let a := set_flags true false a in
  let data_copy_size := data_item_size a / 8 in
  let meta_copy_size := meta_item_size a / 8 in
  let idx_len := Z.of_nat (length indices) in
  _ ← rassert (idx_len *w data_copy_size =? databuf_len);
  _ ← rassert (idx_len *w meta_copy_size =? metabuf_len);
  data ← copy_in (data_pointer a) databuf data_copy_size 0 indices;
  meta ← copy_in (meta_pointer a) metabuf meta_copy_size 0 indices;
  let a := set_regions data meta a in
  _ ← rassert (critical_section_flag a);
  Ret (update id (set_flags false false a) p).

(** The OCALLs as the enclave sees them. *)
#[export] Instance process_storage : UntrustedStorage := {|
  UStore := Process;
  allocate_oram_storage := allocate;
  release_oram_storage := release;
  checkout_oram_storage := checkout_storage;
  checkin_oram_storage := checkin_storage;
|}.

End process.

(** ** Items of a region *)

Lemma arrays_concat n (items : list bytes) : Forall (fun b => length b = n) items ->
  as_arrays n (length items) (concat items) = items.
Proof.
  induction 1 as [|b items Hb _ IH]; [done|]; simpl.
  rewrite take_app_length', drop_app_length' by done; by rewrite IH.
Qed.

Lemma as_arrays_length n k buf : length (as_arrays n k buf) = k.
Proof. revert buf; induction k as [|k IH]; intros buf; simpl; auto. Qed.

Lemma concat_arrays n k buf : length buf = (k * n)%nat ->
  concat (as_arrays n k buf) = buf /\ Forall (fun b => length b = n) (as_arrays n k buf).
Proof.
  revert buf; induction k as [|k IH]; intros buf Hl; simpl in *.
  { by destruct buf. }
  destruct (IH (drop n buf)) as [Hc Hf]; [rewrite length_drop; lia|].
  rewrite Hc; split; [apply take_drop|]; constructor; [rewrite length_take; lia|done].
Qed.

Lemma concat_items_length n (items : list bytes) : Forall (fun b => length b = n) items ->
  length (concat items) = (length items * n)%nat.
Proof. induction 1 as [|b items Hb _ IH]; [done|]; simpl; rewrite length_app; lia. Qed.

Lemma concat_take_drop n (items : list bytes) j : Forall (fun b => length b = n) items -> (j < length items)%nat ->
  take n (drop (j * n) (concat items)) = items !!! j
  /\ forall v, take (j * n) (concat items) ++ v ++ drop (j * n + n) (concat items)
     = concat (<[j := v]> items).
Proof.
  intros Hf; revert j; induction Hf as [|b items Hb Hf IH]; intros j Hj; simpl in Hj; [lia|].
  destruct j as [|j]; simpl.
  - split; [by apply take_app_length'|].
    intros v; by rewrite drop_app_length'.
  - destruct (IH j) as [IH1 IH2]; [lia|].
    rewrite (drop_app_add' b), (take_app_add' b) by done; split; [done|].
    intros v; rewrite <- IH2, <- !app_assoc, <- (Nat.add_assoc n), (drop_app_add' b) by done; done.
Qed.

(** ** Copies within bounds *)

(** A copy size in words, of items of [n] bytes. *)
Lemma copy_words_ret src dst (i j n w : nat) :
  n = (8 * w)%nat -> (i * n + n <= length src)%nat -> (j * n + n <= length dst)%nat ->
  is_u64 (Z.of_nat (length src)) -> is_u64 (Z.of_nat (length dst)) ->
  copy_words src (Z.of_nat w *w Z.of_nat i) dst (Z.of_nat w *w Z.of_nat j) (Z.of_nat w)
  = Ret (take (j * n) dst ++ take n (drop (i * n) src) ++ drop (j * n + n) dst).
Proof.
  intros -> Hs Hd Hus Hud; unfold copy_words, u64_mul.
  rewrite !wrap64_small by (unfold_u64; nia).
  replace (Z.to_nat (8 * (Z.of_nat w * Z.of_nat i))) with (i * (8 * w))%nat by nia.
  replace (Z.to_nat (8 * (Z.of_nat w * Z.of_nat i) + 8 * Z.of_nat w)) with (i * (8 * w) + 8 * w)%nat by nia.
  replace (Z.to_nat (8 * (Z.of_nat w * Z.of_nat j))) with (j * (8 * w))%nat by nia.
  replace (Z.to_nat (8 * (Z.of_nat w * Z.of_nat j) + 8 * Z.of_nat w)) with (j * (8 * w) + 8 * w)%nat by nia.
  rewrite slice_ret by lia; cbn [mbind run_bind].
  replace (i * (8 * w) + 8 * w - i * (8 * w))%nat with (8 * w)%nat by lia.
  rewrite copy_into_ret; [done|lia|lia|rewrite length_take, length_drop; lia].
Qed.

Lemma copy_out_ret items n w (indices : list Z) : n = (8 * w)%nat ->
  Forall (fun b => length b = n) items -> is_u64 (Z.of_nat (length items * n)) ->
  Forall (fun j => 0 <= j < Z.of_nat (length items)) indices ->
  forall pre rest c, length pre = (c * n)%nat -> length rest = (length indices * n)%nat ->
  is_u64 (Z.of_nat (length pre + length rest)) ->
  copy_out (concat items) (pre ++ rest) (Z.of_nat w) (Z.of_nat c) indices
  = Ret (pre ++ concat ((fun j => items !!! Z.to_nat j) <$> indices)).
Proof.
  intros Hn Hf Hu Hidx; pose proof (concat_items_length n items Hf) as Hcl.
  induction Hidx as [|j indices Hj Hidx IH]; intros pre rest c Hpre Hrest Hlen.
  { by destruct rest. }
  simpl in Hrest; destruct (concat_take_drop n items (Z.to_nat j) Hf ltac:(lia)) as [Hget _].
  assert (length (items !!! Z.to_nat j) = n) as Hv.
  { eapply Forall_forall in Hf; [exact Hf|]; apply list_elem_of_lookup_total_2; lia. }
  rewrite fmap_cons; cbn [copy_out concat].
  replace j with (Z.of_nat (Z.to_nat j)) at 1 by lia.
  rewrite (copy_words_ret _ _ (Z.to_nat j) c n w); [|done|rewrite Hcl; nia|rewrite length_app; lia
    |by rewrite Hcl|by rewrite length_app].
  rewrite Hget; cbn [mbind run_bind].
  rewrite take_app_length', drop_app_add', app_assoc by done.
  replace (Z.of_nat c + 1) with (Z.of_nat (S c)) by lia.
  rewrite (IH (pre ++ items !!! Z.to_nat j) (drop n rest) (S c)); [by rewrite <- app_assoc|..];
    rewrite ?length_app, ?length_drop, ?Hv; [lia|lia|unfold is_u64 in *; lia].
Qed.

Lemma copy_in_ret n w (indices : list Z) : n = (8 * w)%nat ->
  forall items values pre c, Forall (fun b => length b = n) items ->
  is_u64 (Z.of_nat (length items * n)) ->
  Forall (fun j => 0 <= j < Z.of_nat (length items)) indices ->
  length values = length indices -> Forall (fun b => length b = n) values ->
  length pre = (c * n)%nat -> is_u64 (Z.of_nat (length pre + length (concat values))) ->
  copy_in (concat items) (pre ++ concat values) (Z.of_nat w) (Z.of_nat c) indices
  = Ret (concat (write_items items indices values)).
Proof.
  intros Hn; induction indices as [|j indices IH]; intros items values pre c Hf Hu Hidx Hl Hv Hpre Hlen.
  { done. }
  destruct values as [|v values]; [done|]; apply Forall_cons in Hv as [Hvn Hv].
  apply Forall_cons in Hidx as [Hj Hidx]; cbn [copy_in write_items concat] in Hlen |- *.
  pose proof (concat_items_length n items Hf) as Hcl.
  destruct (concat_take_drop n items (Z.to_nat j) Hf ltac:(lia)) as [_ Hset].
  rewrite length_app in Hlen.
  replace j with (Z.of_nat (Z.to_nat j)) at 1 by lia.
  rewrite (copy_words_ret _ _ c (Z.to_nat j) n w); [|done|rewrite !length_app; lia|rewrite Hcl; nia
    |by rewrite !length_app|by rewrite Hcl].
  rewrite drop_app_length', take_app_length', Hset by done; cbn [mbind run_bind].
  rewrite app_assoc; replace (Z.of_nat c + 1) with (Z.of_nat (S c)) by lia.
  apply IH; rewrite ?length_insert, ?length_app; try done; try lia.
  - by apply Forall_insert.
  - simpl in Hl; lia.
  - unfold is_u64 in *; lia.
Qed.

(** ** The allocations as items *)

(** The control structure matches its regions and no call is in progress. *)
Definition ua_wf (a : UntrustedAllocation) : bool :=
  negb (critical_section_flag a) && (0 <? ua_count a)
  && (0 <? data_item_size a) && (data_item_size a mod 8 =? 0)
  && (0 <? meta_item_size a) && (meta_item_size a mod 8 =? 0)
  && (ua_count a * data_item_size a <? u64_modulus) && (ua_count a * meta_item_size a <? u64_modulus)
  && (length (data_pointer a) =? Z.to_nat (ua_count a) * Z.to_nat (data_item_size a))%nat
  && (length (meta_pointer a) =? Z.to_nat (ua_count a) * Z.to_nat (meta_item_size a))%nat.

Definition ua_items (a : UntrustedAllocation) : Allocation :=
  let ds := Z.to_nat (data_item_size a) in
  let ms := Z.to_nat (meta_item_size a) in
  {| al_count := ua_count a; al_data_size := ds; al_meta_size := ms;
     al_checked_out := checkout_flag a;
     al_data := as_arrays ds (Z.to_nat (ua_count a)) (data_pointer a);
     al_meta := as_arrays ms (Z.to_nat (ua_count a)) (meta_pointer a) |}.

Definition process_alloc (p : Process) (id : Z) : option Allocation :=
  match allocations p !! id with
  | Some a => if ua_wf a then Some (ua_items a) else None
  | None => None
  end.

Lemma in_range_length (idx : list Z) c :
  NoDup idx -> Forall (fun j => 0 <= j < c) idx -> (length idx <= Z.to_nat c)%nat.
Proof.
  intros Hnd Hidx; rewrite <- (length_seqZ 0 c).
  apply submseteq_length, NoDup_submseteq; [done|].
  intros j Hj; eapply Forall_forall in Hidx; [|exact Hj]; apply elem_of_seqZ; lia.
Qed.

Record ua_facts (a : UntrustedAllocation) (c wd wm : nat) (D M : list bytes) : Prop := {
  uf_count : ua_count a = Z.of_nat c /\ (0 < c)%nat;
  uf_data_size : data_item_size a = Z.of_nat (8 * wd) /\ (0 < wd)%nat;
  uf_meta_size : meta_item_size a = Z.of_nat (8 * wm) /\ (0 < wm)%nat;
  uf_fits : is_u64 (Z.of_nat (c * (8 * wd))) /\ is_u64 (Z.of_nat (c * (8 * wm)));
  uf_data : data_pointer a = concat D /\ length D = c /\ Forall (fun b => length b = 8 * wd)%nat D;
  uf_meta : meta_pointer a = concat M /\ length M = c /\ Forall (fun b => length b = 8 * wm)%nat M;
}.

Lemma ua_wf_facts a : ua_wf a = true ->
  critical_section_flag a = false
  /\ exists c wd wm, ua_facts a c wd wm (al_data (ua_items a)) (al_meta (ua_items a)).
Proof.
  unfold ua_wf; intros Hwf; bool_to_prop.
  repeat match goal with Hl : (_ =? _)%nat = true |- _ => apply Nat.eqb_eq in Hl end.
  split; [done|].
  exists (Z.to_nat (ua_count a)), (Z.to_nat (data_item_size a / 8)), (Z.to_nat (meta_item_size a / 8)).
  assert (forall z, 0 < z -> z mod 8 = 0 -> Z.to_nat z = (8 * Z.to_nat (z / 8))%nat) as Height
    by (intros; Z.to_euclidean_division_equations; lia).
  split; try (split; Z.to_euclidean_division_equations; lia).
  - rewrite <- !Height by done; split; unfold_u64; nia.
  - destruct (concat_arrays (Z.to_nat (data_item_size a)) (Z.to_nat (ua_count a)) (data_pointer a))
      as [Hc Hf]; [done|].
    rewrite <- !Height by done; simpl; by rewrite Hc, as_arrays_length.
  - destruct (concat_arrays (Z.to_nat (meta_item_size a)) (Z.to_nat (ua_count a)) (meta_pointer a))
      as [Hc Hf]; [done|].
    rewrite <- !Height by done; simpl; by rewrite Hc, as_arrays_length.
Qed.

Lemma facts_ua_wf a c wd wm D M : critical_section_flag a = false -> ua_facts a c wd wm D M ->
  ua_wf a = true /\ al_data (ua_items a) = D /\ al_meta (ua_items a) = M
  /\ al_data_size (ua_items a) = (8 * wd)%nat /\ al_meta_size (ua_items a) = (8 * wm)%nat.
Proof.
  intros Hcrit [[Hc Hc0] [Hd Hd0] [Hm Hm0] [Hfd Hfm] (HD & HDl & HDf) (HM & HMl & HMf)].
  unfold ua_items; simpl; rewrite Hc, Hd, Hm, !Nat2Z.id.
  split; [|rewrite HD, HM, <- HDl at 1; rewrite <- HMl; by rewrite !arrays_concat].
  unfold ua_wf; rewrite Hcrit, Hc, Hd, Hm, HD, HM, (concat_items_length _ _ HDf), (concat_items_length _ _ HMf).
  rewrite !Nat2Z.id, HDl, HMl, !Nat.eqb_refl.
  rewrite !(proj2 (Z.ltb_lt _ _)) by (unfold_u64; lia).
  rewrite !(proj2 (Z.eqb_eq _ _)) by (Z.to_euclidean_division_equations; lia); done.
Qed.

(** ** The laws *)

Section laws.
Context {A : Allocator} {AL : AllocatorLaws A}.

Lemma process_alloc_inv p id al : process_alloc p id = Some al ->
  exists a c wd wm, allocations p !! id = Some a /\ critical_section_flag a = false
    /\ ua_facts a c wd wm (al_data al) (al_meta al)
    /\ al = ua_items a /\ al_count al = Z.of_nat c
    /\ al_data_size al = (8 * wd)%nat /\ al_meta_size al = (8 * wm)%nat.
Proof.
  unfold process_alloc; intros Hal; destruct (allocations p !! id) as [a|] eqn:Ha; [|done].
  destruct (ua_wf a) eqn:Hwf; [|done]; injection Hal as <-.
  destruct (ua_wf_facts a Hwf) as (Hcrit & c & wd & wm & Hf); exists a, c, wd, wm.
  destruct (facts_ua_wf _ _ _ _ _ _ Hcrit Hf) as (_ & _ & _ & ? & ?).
  repeat split; try done; apply Hf.
Qed.

Lemma process_alloc_update p id a c wd wm D M : critical_section_flag a = false ->
  ua_facts a c wd wm D M ->
  process_alloc (update id a p) id
  = Some {| al_count := Z.of_nat c; al_data_size := 8 * wd; al_meta_size := 8 * wm;
            al_checked_out := checkout_flag a; al_data := D; al_meta := M |}.
Proof.
  intros Hcrit Hf; destruct (facts_ua_wf _ _ _ _ _ _ Hcrit Hf) as (Hwf & HD & HM & Hds & Hms).
  unfold process_alloc; cbn [update allocations]; rewrite lookup_insert_eq, Hwf.
  destruct (uf_count _ _ _ _ _ _ Hf) as [Hc _].
  f_equal; destruct (ua_items a) eqn:E; simpl in *; subst.
  unfold ua_items in E; injection E as <- <- <- <- <- <-; by rewrite Hc.
Qed.

Lemma ua_facts_flags a c wd wm D M crit out :
  ua_facts a c wd wm D M -> ua_facts (set_flags crit out a) c wd wm D M.
Proof. by intros []; split. Qed.

(** The length checks of the calls pass. *)
Lemma length_check (idx : list Z) (c w : nat) :
  (length idx <= c)%nat -> is_u64 (Z.of_nat (c * (8 * w))) ->
  is_u64 (Z.of_nat (length idx * (8 * w)))
  /\ (Z.of_nat (length idx) *w (Z.of_nat (8 * w) / 8) =? Z.of_nat (length idx * (8 * w) / 8)) = true.
Proof.
  intros Hl Hu; assert (is_u64 (Z.of_nat (length idx * (8 * w)))) as Hu' by (unfold_u64; nia).
  split; [done|]; apply Z.eqb_eq.
  replace (Z.of_nat (8 * w) / 8) with (Z.of_nat w) by (Z.to_euclidean_division_equations; lia).
  replace (length idx * (8 * w))%nat with (length idx * w * 8)%nat by lia.
  rewrite Nat.div_mul by lia; unfold u64_mul; rewrite wrap64_small; unfold_u64; lia.
Qed.

Lemma words_of_item w : Z.of_nat (8 * w) / 8 = Z.of_nat w.
Proof. Z.to_euclidean_division_equations; lia. Qed.

Lemma checkout_storage_ret p id al idx databuf metabuf :
  process_alloc p id = Some al -> NoDup idx -> Forall (fun j => 0 <= j < al_count al) idx ->
  al_checked_out al = false ->
  length databuf = (length idx * al_data_size al)%nat -> length metabuf = (length idx * al_meta_size al)%nat ->
  exists p', checkout_storage p id idx databuf (Z.of_nat (length idx * al_data_size al / 8))
               metabuf (Z.of_nat (length idx * al_meta_size al / 8))
    = Ret (concat ((fun j => al_data al !!! Z.to_nat j) <$> idx),
           concat ((fun j => al_meta al !!! Z.to_nat j) <$> idx), p')
    /\ process_alloc p' id = Some (al_set true (al_data al) (al_meta al) al).
Proof.
  intros Hal Hnd Hidx Hout Hd Hm.
  destruct (process_alloc_inv _ _ _ Hal) as (a & c & wd & wm & Ha & Hcrit & Hf & -> & Hc & Hds & Hms).
  rewrite Hds, Hms in *; rewrite Hc in Hidx.
  destruct (Hf) as [_ [Hsd _] [Hsm _] [Hfd Hfm] (HD & HDl & HDf) (HM & HMl & HMf)].
  pose proof (in_range_length idx _ Hnd Hidx) as Hl; rewrite Nat2Z.id in Hl.
  destruct (length_check idx c wd Hl Hfd) as [Hu1 Hk1], (length_check idx c wm Hl Hfm) as [Hu2 Hk2].
  unfold checkout_storage; rewrite Ha; cbn [unwrap mbind run_bind].
  change (checkout_flag a = false) in Hout; rewrite Hcrit, Hout; cbn [negb rassert mbind run_bind].
  cbn [set_flags data_item_size meta_item_size data_pointer meta_pointer critical_section_flag].
  rewrite Hsd, Hsm, Hk1, Hk2; cbn [rassert mbind run_bind]; rewrite !words_of_item, HD, HM.
  pose proof (copy_out_ret _ _ wd idx eq_refl HDf ltac:(by rewrite HDl) ltac:(by rewrite HDl) [] databuf 0
    eq_refl Hd ltac:(by rewrite Hd)) as Hcd; cbn [app] in Hcd.
  pose proof (copy_out_ret _ _ wm idx eq_refl HMf ltac:(by rewrite HMl) ltac:(by rewrite HMl) [] metabuf 0
    eq_refl Hm ltac:(by rewrite Hm)) as Hcm; cbn [app] in Hcm.
  change 0 with (Z.of_nat 0) at 1 2; rewrite Hcd; cbn [mbind run_bind]; rewrite Hcm; cbn [mbind run_bind].
  eexists; split; [reflexivity|].
  rewrite (process_alloc_update p id _ c wd wm (al_data (ua_items a)) (al_meta (ua_items a)));
    [|done|by do 2 apply ua_facts_flags].
  unfold al_set; by rewrite Hc, Hds, Hms.
Qed.

Lemma write_items_sizes n items idx values :
  Forall (fun b => length b = n) items -> Forall (fun b => length b = n) values ->
  Forall (fun b => length b = n) (write_items items idx values).
Proof.
  revert items values; induction idx as [|j idx IH]; intros items [|v values] Hi Hv; try done.
  apply Forall_cons in Hv as [? ?]; apply IH; [by apply Forall_insert|done].
Qed.

Lemma checkin_storage_ret p id al idx data meta :
  process_alloc p id = Some al -> NoDup idx -> Forall (fun j => 0 <= j < al_count al) idx ->
  al_checked_out al = true ->
  length data = length idx -> Forall (fun d => length d = al_data_size al) data ->
  length meta = length idx -> Forall (fun m => length m = al_meta_size al) meta ->
  exists p', checkin_storage p id idx (concat data) (Z.of_nat (length idx * al_data_size al / 8))
               (concat meta) (Z.of_nat (length idx * al_meta_size al / 8))
    = Ret p'
    /\ process_alloc p' id
       = Some (al_set false (write_items (al_data al) idx data) (write_items (al_meta al) idx meta) al).
Proof.
  intros Hal Hnd Hidx Hout Hdl Hdf Hml Hmf.
  destruct (process_alloc_inv _ _ _ Hal) as (a & c & wd & wm & Ha & Hcrit & Hf & -> & Hc & Hds & Hms).
  rewrite Hds, Hms in *; rewrite Hc in Hidx.
  destruct (Hf) as [Hcnt [Hsd Hd0] [Hsm Hm0] [Hfd Hfm] (HD & HDl & HDf) (HM & HMl & HMf)].
  pose proof (in_range_length idx _ Hnd Hidx) as Hl; rewrite Nat2Z.id in Hl.
  destruct (length_check idx c wd Hl Hfd) as [Hu1 Hk1], (length_check idx c wm Hl Hfm) as [Hu2 Hk2].
  unfold checkin_storage; rewrite Ha; cbn [unwrap mbind run_bind].
  change (checkout_flag a = true) in Hout; rewrite Hcrit, Hout; cbn [negb rassert mbind run_bind].
  cbn [set_flags data_item_size meta_item_size data_pointer meta_pointer critical_section_flag].
  rewrite Hsd, Hsm, Hk1, Hk2; cbn [rassert mbind run_bind]; rewrite !words_of_item, HD, HM.
  pose proof (copy_in_ret _ wd idx eq_refl _ data [] 0 HDf ltac:(by rewrite HDl) ltac:(by rewrite HDl)
    Hdl Hdf eq_refl ltac:(rewrite (concat_items_length _ _ Hdf), Hdl; done)) as Hcd; cbn [app] in Hcd.
  pose proof (copy_in_ret _ wm idx eq_refl _ meta [] 0 HMf ltac:(by rewrite HMl) ltac:(by rewrite HMl)
    Hml Hmf eq_refl ltac:(rewrite (concat_items_length _ _ Hmf), Hml; done)) as Hcm; cbn [app] in Hcm.
  change 0 with (Z.of_nat 0) at 1 2; rewrite Hcd; cbn [mbind run_bind]; rewrite Hcm; cbn [mbind run_bind].
  eexists; split; [reflexivity|].
  rewrite (process_alloc_update p id _ c wd wm (write_items (al_data (ua_items a)) idx data)
    (write_items (al_meta (ua_items a)) idx meta)); [unfold al_set; by rewrite Hc, Hds, Hms|done|].
  split; try done; (split; [done|]); (split; [by rewrite write_items_length|by apply write_items_sizes]).
Qed.

Lemma allocate_ret p count ds ms id p' :
  0 < count -> (ds mod 8 = 0)%nat -> (ms mod 8 = 0)%nat -> (0 < ds)%nat -> (0 < ms)%nat ->
  is_u64 (count * Z.of_nat ds) -> is_u64 (count * Z.of_nat ms) ->
  allocate p count (Z.of_nat ds) (Z.of_nat ms) = Ret (id, p') ->
  exists al, process_alloc p' id = Some al /\ al_checked_out al = false /\ al_count al = count
    /\ al_data_size al = ds /\ al_meta_size al = ms
    /\ al_meta al = replicate (Z.to_nat count) (zeros ms).
Proof.
  intros Hc Hds Hms Hd0 Hm0 Hfd Hfm; unfold allocate, new_allocation, u64_mul.
  rewrite !wrap64_small by done; intros Hr.
  apply run_bind_ret in Hr as ([r total] & Hnew & Hr); simplify_eq.
  do 3 (apply run_bind_ret in Hnew as ([] & _ & Hnew)).
  apply run_bind_ret in Hnew as (data & Hdata & Hnew).
  do 2 (apply run_bind_ret in Hnew as ([] & _ & Hnew)); simplify_eq.
  destruct (alloc _) as [data'|] eqn:Hal; [|done]; injection Hdata as ->; apply alloc_length in Hal.
  set (id := box_into_raw _); set (a := {| ua_count := count |}).
  apply Nat.Lcm0.mod_divide in Hds as [wd ->], Hms as [wm ->].
  assert (ua_facts a (Z.to_nat count) wd wm (as_arrays (wd * 8) (Z.to_nat count) data)
    (replicate (Z.to_nat count) (zeros (wm * 8)))) as Hf.
  { destruct (concat_arrays (wd * 8) (Z.to_nat count) data) as [Hcd HfD]; [rewrite Hal; lia|].
    split; try (cbn; unfold_u64; lia).
    - cbn; rewrite Hcd, as_arrays_length; split_and!; [done|done|].
      eapply Forall_impl; [exact HfD|]; simpl; lia.
    - cbn; rewrite length_replicate; split_and!; [|done|].
      + replace (Z.to_nat (count * Z.of_nat (wm * 8))) with (Z.to_nat count * (wm * 8))%nat by lia.
        clear; induction (Z.to_nat count) as [|k IH]; [done|]; simpl.
        rewrite <- IH; apply replicate_add.
      + apply Forall_replicate; unfold zeros; rewrite length_replicate; lia. }
  pose proof (process_alloc_update p id a _ _ _ _ _ eq_refl Hf) as Hupd.
  eexists; split; [exact Hupd|]; cbn; split_and!; lia || done.
Qed.

#[export] Instance process_storage_laws : UntrustedStorageLaws process_storage.
Proof.
  refine {| u_alloc := process_alloc : @UStore process_storage -> _ |}.
  - intros p id al Hal; destruct (process_alloc_inv _ _ _ Hal)
      as (a & c & wd & wm & _ & _ & Hf & -> & Hc & Hds & Hms).
    unfold al_wf; rewrite Hc, Hds, Hms, Nat2Z.id.
    destruct (Hf) as [[_ Hc0] _ _ _ (_ & HDl & HDf) (_ & HMl & HMf)]; split_and!; done || lia.
  - intros p c ds ms id p' ???????; by apply (allocate_ret p c ds ms id p').
  - intros; by apply checkout_storage_ret.
  - intros; by apply checkin_storage_ret.
Defined.

(** C31: The raw pointer accesses of a checkout and of a checkin stay inside
    the memory regions and the caller's buffers, and all assertions hold,
    whenever the address is that of a well-formed allocation, the checkouts
    and checkins alternate, the indices are distinct and below the count of
    the allocation, and the buffers hold one item for each.  The checkout
    then copies out the items of the indices, and the checkin replaces
    exactly these. *)
Theorem untrusted_calls_in_bounds p id al idx :
  process_alloc p id = Some al -> NoDup idx -> Forall (fun j => 0 <= j < al_count al) idx ->
  let ds := al_data_size al in
  let ms := al_meta_size al in
  (forall databuf metabuf, al_checked_out al = false ->
     length databuf = (length idx * ds)%nat -> length metabuf = (length idx * ms)%nat ->
     exists p', checkout_storage p id idx databuf (Z.of_nat (length idx * ds / 8))
                  metabuf (Z.of_nat (length idx * ms / 8))
       = Ret (concat ((fun j => al_data al !!! Z.to_nat j) <$> idx),
              concat ((fun j => al_meta al !!! Z.to_nat j) <$> idx), p')
       /\ process_alloc p' id = Some (al_set true (al_data al) (al_meta al) al))
  /\ (forall data meta, al_checked_out al = true ->
     length data = length idx -> Forall (fun d => length d = ds) data ->
     length meta = length idx -> Forall (fun m => length m = ms) meta ->
     exists p', checkin_storage p id idx (concat data) (Z.of_nat (length idx * ds / 8))
                  (concat meta) (Z.of_nat (length idx * ms / 8))
       = Ret p'
       /\ process_alloc p' id
          = Some (al_set false (write_items (al_data al) idx data) (write_items (al_meta al) idx meta) al)).
Proof.
  intros Hal Hnd Hidx ds ms; split; intros.
  - by apply checkout_storage_ret.
  - by apply checkin_storage_ret.
Qed.


End laws.
