(* ===== verification/OramExamples.v ===== *)
(** * Executions of the ORAM block storage

    Instances of the foreign code to run the storage with (an additive cipher,
    a polynomial checksum, a finite map as heap storage, a bump allocator),
    and the properties of the storage applied to concrete accesses. *)

From S2P Require Import Prelude.
From S2P Require Import OramStorage.
From S2P Require Import OramStorageSpec.
From S2P Require Import OramTamper.
From S2P Require Import UntrustedStorage.

Local Open Scope Z_scope.

(** ** Instances *)

#[local] Instance demo_sizes : BlockSizes.
Proof. refine {| DataSize := 8; MetaSize := 8 |}; [exists 3%nat; done|done|done]. Defined.

Fixpoint pos_parents (p : positive) : list Z :=
  Zpos p :: match p with
            | xH => []
            | xO q | xI q => pos_parents q
            end.
#[local] Instance demo_tree : TreeIndex :=
  {| parents := fun i => match i with Zpos p => pos_parents p | _ => [] end |}.
#[local] Instance demo_tree_laws : TreeIndexLaws demo_tree.
Proof.
  split; [done|]; intros [|p|p] Hi; try lia.
  rewrite <- Z.div2_div; destruct p; [done|done|lia].
Defined.

Definition demo_block (h : Z * gmap Z (bytes * bytes)) : memory :=
  fun i => default (zeros DataSize, zeros MetaSize) (h.2 !! i).
Fixpoint demo_write (m : gmap Z (bytes * bytes)) (branch : list Z) (d s : list bytes)
  : gmap Z (bytes * bytes) :=
  match branch, d, s with
  | i :: branch, x :: d, y :: s => demo_write (<[i := (x, y)]> m) branch d s
  | _, _, _ => m
  end.
#[local] Instance demo_heap : HeapORAMStorage := {|
  HeapStore := Z * gmap Z (bytes * bytes);
  heap_new := fun c => (c, ∅);
  heap_checkout := fun h i d m =>
    Ret (read_data (demo_block h) (parents i), read_meta (demo_block h) (parents i), h);
  heap_checkin := fun h i d m => Ret (d, m, (h.1, demo_write h.2 (parents i) d m));
|}.

Lemma demo_write_block c m branch d s j :
  demo_block (c, demo_write m branch d s) j = write_branch (demo_block (c, m)) branch d s j.
Proof.
  revert m d s; induction branch as [|i branch IH]; intros m [|x d] [|y s]; try done.
  simpl; rewrite IH; apply write_branch_ext; unfold demo_block, mem_write; simpl.
  case_decide; subst; [by rewrite lookup_insert_eq|by rewrite lookup_insert_ne].
Qed.

#[local] Instance demo_heap_laws : HeapORAMStorageLaws demo_tree demo_heap.
Proof.
  refine {| heap_len := fst : @HeapStore demo_heap -> Z; heap_block := demo_block |}.
  - intros c Hc; split; [done|]; intros i; unfold demo_block; simpl; by rewrite lookup_empty.
  - intros h i d m Hi Hd Hm; by exists h.
  - intros h i d m Hi Hd Hm; do 3 eexists; split; [reflexivity|]; split; [done|].
    intros j; rewrite demo_write_block; by destruct h.
Defined.

Definition checksum (bs : bytes) : Z := foldr (fun b h => (b + 31 * h) mod u64_modulus) 1 bs.
#[local] Instance demo_crypto : BlockCrypto := {|
  Cipher := Z;
  cipher_new := fun key nonce => checksum (key ++ nonce) mod 256;
  cipher_encrypt := fun c bs => ((fun b => b + c) <$> bs, c + 1);
  cipher_decrypt := fun c bs => ((fun b => b - c) <$> bs, c + 1);
  Blake2b := fun bs => concat (replicate 8 (to_le_bytes (checksum bs)));
|}.
#[local] Instance demo_crypto_laws : BlockCryptoLaws demo_crypto.
Proof.
  split; simpl; [intros c bs|intros; apply length_fmap|done].
  f_equal; rewrite <- list_fmap_compose; rewrite <- (list_fmap_id bs) at 2.
  apply list_fmap_ext; intros i b _; simpl; lia.
Defined.

#[local] Instance demo_rng : FillBytes := {| Rng := Z; fill_bytes := fun r n => (replicate n r, r + 1) |}.

#[local] Instance demo_allocator : Allocator := {|
  alloc := fun n => Some (replicate (Z.to_nat n) 90);
  alloc_zeroed := fun n => true;
  box_into_raw := fun used => fresh (used ∪ {[ 0 ]});
|}.
#[local] Instance demo_allocator_laws : AllocatorLaws demo_allocator.
Proof.
  split; simpl; [intros n bs [= <-]; apply length_replicate|].
  intros used; pose proof (is_fresh (used ∪ {[ 0 ]})); set_solver.
Defined.

Definition demo_seed : @Rng demo_rng := 5.

Definition no_process : @UStore process_storage := {| allocations := ∅; TOTAL_MEM_FOOTPRINT_KB := 0 |}.

(** ** Accesses *)

(** An access that writes [b] to all bytes of the branch. *)
Definition fill (i b : Z) : Access := {|
  ac_index := i;
  ac_dest := replicate (length (parents i)) (zeros DataSize);
  ac_dest_meta := replicate (length (parents i)) (zeros MetaSize);
  ac_update := fun d m => ((fun _ => replicate DataSize b) <$> d, (fun _ => replicate MetaSize b) <$> m);
|}.

Lemma fill_ok cnt i b : 0 < i < cnt -> access_ok cnt (fill i b).
Proof.
  intros Hi; split; [done|]; cbn; split_and!.
  1-2: split; [apply length_replicate|by apply Forall_replicate].
  intros d m [Hd _] [Hm _]; split; (split; [by rewrite length_fmap|]); by apply Forall_fmap, Forall_true.
Qed.

Lemma demo_fits : count_fits 8.
Proof. by split; split. Qed.

Lemma demo_new : exists s rng u, new 0 8 demo_seed no_process = Ret (s, rng, u).
Proof.
  assert (Hr : (match new 0 8 demo_seed no_process with Ret _ => true | Panic => false end) = true) by (vm_compute; reflexivity).
  destruct (new 0 8 demo_seed no_process) as [[[s rng] u]|]; [by exists s, rng, u|discriminate Hr].
Qed.

Lemma storage_refines_memory_witness :
  exists s rng u, new 0 8 demo_seed no_process = Ret (s, rng, u)
    /\ exists s2 u2, accesses s u [fill 7 1; fill 6 2; fill 7 3]
       = Ret (spec_accesses zero_memory [fill 7 1; fill 6 2; fill 7 3], s2, u2).
Proof.
  destruct demo_new as (s & rng & u & E).
  exists s, rng, u; split; [done|].
  apply (storage_refines_memory 0 8 demo_seed no_process s rng u _ demo_fits E); [|done].
  repeat (apply Forall_cons; split; [apply fill_ok; lia|]); constructor.
Defined.

(** The storage after the whole branch of node 7 was written. *)
Definition demo_state : run (list bytes * list bytes * OcallORAMStorage * UStore) :=
  '(s, _, u) ← new 0 8 demo_seed no_process;
  access s u (fill 7 1).

(** One node is kept inside, and the topmost node outside was written. *)
Definition demo_state_written : bool :=
  match demo_state with
  | Ret (_, _, s, u) =>
      (treetop_max_count s =? 2)
      && match u_alloc u (allocation_id s) with
         | Some a => bool_decide (al_meta a !!! slot s 3 <> zeros MetaFull)
         | None => true
         end
  | Panic => false
  end.

Lemma demo_state_inv :
  exists d m s u a mem, demo_state = Ret (d, m, s, u)
    /\ storage_inv s u mem 1 None /\ treetop_max_count s = 2 /\ count s = 8
    /\ u_alloc u (allocation_id s) = Some a /\ outside_inv s a mem 1 None
    /\ al_meta a !!! slot s 3 <> zeros MetaFull.
Proof.
  destruct demo_new as (s0 & rng & u0 & E).
  destruct (new_ok 0 8 demo_seed no_process s0 rng u0 demo_fits E) as [Hinv Hc].
  assert (mem_sized zero_memory) as Hm by done.
  pose proof (access_refines s0 u0 zero_memory 0 (fill 7 1) Hinv Hm) as Hacc.
  rewrite Hc in Hacc; specialize (Hacc (fill_ok 8 7 1 ltac:(lia)) ltac:(lia) ltac:(done)).
  destruct Hacc as (s & u & Hacc & Hinv1 & _ & Hc1).
  assert (demo_state = Ret (read_data zero_memory (parents 7), read_meta zero_memory (parents 7), s, u)) as Hst
    by (unfold demo_state; rewrite E; exact Hacc).
  assert (treetop_max_count s = 2 /\ forall a, u_alloc u (allocation_id s) = Some a ->
    al_meta a !!! slot s 3 <> zeros MetaFull) as [HT Hw].
  { assert (Hb : demo_state_written = true) by (vm_compute; reflexivity).
    unfold demo_state_written in Hb; rewrite Hst in Hb; apply andb_true_iff in Hb as [HT Hb].
    split; [by apply Z.eqb_eq|]; intros a Ha; rewrite Ha in Hb; by apply bool_decide_eq_true in Hb. }
  destruct (si_outside _ _ _ _ _ Hinv1) as (a & Ha & Hoi); [rewrite HT, Hc1; lia|].
  do 6 eexists; split; [exact Hst|]; split_and!; [exact Hinv1|done|done|exact Ha|exact Hoi|by apply Hw].
Qed.

Lemma branch_tampering_detected_witness :
  exists s u mem ds ms s' u', treetop_max_count s = 2
    /\ checkout s u 7 (ac_dest (fill 7 1)) (ac_dest_meta (fill 7 1)) = Ret (ds, ms, s', u')
    /\ exists D M rd rs, (exists ds_top ms_top,
          ds = read_data mem [7; 3] ++ ds_top /\ ms = read_meta mem [7; 3] ++ ms_top)
       \/ Exists (fun '(j, b) => collision s D M j b) (response [7; 3] rd rs).
Proof.
  destruct demo_state_inv as (d & m & s & u & a & mem & _ & Hinv & HT & Hc & Ha & Hoi & Hw).
  destruct (fill_ok 8 7 1 ltac:(lia)) as (Hi & Hd & Hm & _).
  destruct (checkout_ok s u mem 1 7 (ac_dest (fill 7 1)) (ac_dest_meta (fill 7 1)) Hinv
    ltac:(rewrite Hc; lia) Hd Hm) as (s' & u' & Hco & _).
  assert (external_branch 2 7 [7; 3]) as Hext
    by (constructor; [lia|]; constructor; [done|]; constructor; done).
  destruct (vec_resize_items _ _ 2 (si_scratch _ _ _ _ _ Hinv)) as [Hk Hv].
  destruct (outside_checkout s u a mem 1 7 [7; 3] (take 2 (ac_dest (fill 7 1)))
    (vec_resize (meta_scratch_buffer s) 2 (zeros MetaFull)))
    as (sc & u1 & a' & Hcall & _); try done; try (rewrite ?HT, ?Hc; (done || lia)).
  { by split; [|repeat constructor]. }
  destruct (stored_items s _ _ _ _ _ _ 7 [7; 3] (oi_inv _ _ _ _ _ Hoi) ltac:(lia) ltac:(by rewrite HT))
    as [HD HM].
  exists s, u, mem; do 4 eexists; split; [done|]; split; [exact Hco|]; do 4 eexists.
  apply (branch_tampering_detected s u (al_data a) (al_meta a) mem 1 7 _ _ _ _ _ _ [7; 3] _ _ u1
    (oi_inv _ _ _ _ _ Hoi) ltac:(lia) ltac:(by rewrite HT) ltac:(done) Hco Hcall HD HM).
  - unfold last_authentic; cbn; split; [done|by right].
  - repeat constructor; exact Hw.
Defined.

(** The untrusted side replays: the branch of node 7 is filled with ones, then
    with twos, and the untrusted storage is set back to its state in between.
    The blocks outside the enclave come back as ones. *)
Definition replayed_read : run (list bytes) :=
  '(_, _, s, old) ← demo_state;
  '(_, _, s, _) ← access s old (fill 7 2);
  '(data, _, _, _) ← checkout s old 7 (ac_dest (fill 7 0)) (ac_dest_meta (fill 7 0));
  Ret data.

Lemma checkout_ignores_roots_witness :
  (exists d m s u, demo_state = Ret (d, m, s, u)
     /\ forall roots dest dest_meta, checkout (set_roots roots s) u 7 dest dest_meta
        = ('(ds, ms, s', u') ← checkout s u 7 dest dest_meta;
           Ret (ds, ms, set_roots roots s', u')))
  /\ replayed_read = Ret [replicate 8 1; replicate 8 1; replicate 8 2].
Proof.
  split; [|vm_compute; reflexivity].
  destruct demo_state_inv as (d & m & s & u & a & mem & Hst & _ & HT & _).
  exists d, m, s, u; split; [done|]; intros roots dest dest_meta.
  apply (checkout_ignores_roots s u 7 dest dest_meta roots); [rewrite HT|]; lia.
Defined.

(** On a fresh storage, a made-up block below the never written node 3. *)
Lemma forged_child_accepted_witness :
  exists s rng u sc, new 0 8 demo_seed no_process = Ret (s, rng, u)
    /\ let d := replicate 8 17 in let m := replicate 48 4 in
       open_blocks s 2 0 [7; 3] [d; d] [m; zeros MetaFull] None
       = Ret ([(block_plain s 7 d m).1; zeros DataSize], [(block_plain s 7 d m).2; zeros MetaSize], sc).
Proof.
  destruct demo_new as (s & rng & u & E).
  destruct (forged_child_accepted s 2 7 3 (replicate 8 17) (replicate 48 4) (replicate 8 17))
    as [sc Hsc]; [done|done|lia|].
  exists s, rng, u, sc; split; [done|exact Hsc].
Defined.

(** A checkout of two items of an allocation of six. *)
Lemma untrusted_calls_in_bounds_witness :
  exists id p al, allocate no_process 6 8 48 = Ret (id, p) /\ process_alloc p id = Some al
    /\ exists p', checkout_storage p id [5; 1] (zeros 16) 2 (zeros 96) 12
       = Ret (concat ((fun j => al_data al !!! Z.to_nat j) <$> [5; 1]),
              concat ((fun j => al_meta al !!! Z.to_nat j) <$> [5; 1]), p')
       /\ process_alloc p' id = Some (al_set true (al_data al) (al_meta al) al).
Proof.
  destruct (allocate no_process 6 8 48) as [[id p]|] eqn:E; [|by vm_compute in E].
  destruct (process_alloc p id) as [al|] eqn:Hal.
  2: { exfalso; vm_compute in E; injection E as <- <-; by vm_compute in Hal. }
  assert (al_count al = 6 /\ al_data_size al = 8%nat /\ al_meta_size al = 48%nat
    /\ al_checked_out al = false) as (Hc & Hds & Hms & Hout).
  { clear -E Hal; vm_compute in E; injection E as <- <-; vm_compute in Hal; by injection Hal as <-. }
  exists id, p, al; split; [done|]; split; [done|].
  destruct (untrusted_calls_in_bounds p id al [5; 1] Hal) as [Hco _].
  - repeat constructor; set_solver.
  - rewrite Hc; repeat constructor; lia.
  - specialize (Hco (zeros 16) (zeros 96) Hout); rewrite Hds, Hms in Hco; by apply Hco.
Defined.
