(* ===== verification/ViewServer.v ===== *)
(** * The view server (src/fog/view/server/src)

    The database fetcher thread ([db_fetcher.rs]), the worker that feeds the
    fetched records to the enclave and publishes how far it got
    ([server.rs]), and the query service ([fog_view_service.rs]).

    Each thread is a step function over its program counter, one step between
    two accesses to something shared: the fetcher steps through [run] and
    [load_block_data], the worker through [tick].  [view_step] interleaves
    them with the stop request, the other users of the database and the calls
    of clients on the enclave.  Waiting, on the queue limiter or to join a thread,
    is a step that is not enabled ([None]).  Mutexes are held inside single steps, so a poisoned
    one means an earlier panic; metrics, logging and sleeping are left out. *)

From S2P Require Import Prelude FogTypes RecoveryTypes.
From S2P Require Import BlockTracker ObliviousMap ViewEnclave.
From S2P Require Import RecoveryDb RecoveryDbWf.

Local Open Scope Z_scope.
Local Open Scope fog_scope.

(** ** The database fetcher *)

Definition MAX_QUEUED_RECORDS : Z := (128 * 1024 * 1024) / 256.

Record FetchedRecords := mkFetchedRecords {
  fr_ingress_key : bytes;
  fr_block_index : Z;
  fr_records : list ETxOutRecord;
}.

Record DbFetcherSharedState := mkDbFetcherSharedState {
  ingress_keys : list IngressPublicKeyRecord;
  fetched_records : list FetchedRecords;
}.

(** Where the fetcher thread is: at the top of its loop, about to compute the
    next blocks, loading blocks (with [has_more_work] and the blocks left),
    waiting to count a block of so many records, or stopped. *)
Inductive FetcherPc :=
| FTop
| FBegin
| FLoading (has_more_work : bool) (blocks : list (bytes * Z))
| FWaiting (num_tx_outs : Z) (blocks : list (bytes * Z))
| FStopped.

Record Fetcher := mkFetcher {
  f_stop_requested : bool;
  f_shared : DbFetcherSharedState;
  f_num_queued_records : Z;
  f_block_tracker : BlockTracker;
  f_pc : FetcherPc;
}.

Definition Fetcher_new : Fetcher :=
  mkFetcher false (mkDbFetcherSharedState [] []) 0 BlockTracker_new FTop.

(** [DbFetcher::get_highest_processed_block_context]. *)
Definition get_highest_processed_block_context (f : Fetcher) : list IngressPublicKeyRecord :=
  ingress_keys (f_shared f).

(** [DbFetcher::get_pending_fetched_records]: the queue is taken, and then,
    under another lock, the count reset. *)
Definition take_fetched_records (f : Fetcher) : list FetchedRecords * Fetcher :=
  (fetched_records (f_shared f),
   mkFetcher (f_stop_requested f) (mkDbFetcherSharedState (ingress_keys (f_shared f)) [])
     (f_num_queued_records f) (f_block_tracker f) (f_pc f)).
Definition reset_num_queued_records (f : Fetcher) : Fetcher :=
  mkFetcher (f_stop_requested f) (f_shared f) 0 (f_block_tracker f) (f_pc f).

(** [DbFetcher::stop] before it joins the thread. *)
Definition request_fetcher_stop (f : Fetcher) : Fetcher :=
  mkFetcher true (f_shared f) (f_num_queued_records f) (f_block_tracker f) (f_pc f).

Section threads.
Context `{HI : HashIter} `{O : ObliviousHashMap} `{A : Ake} `{C : ViewCodec}.
Context (decode_block_data : bytes -> result (list ETxOutRecord) Z).

Definition load_ingress_keys (pool : result unit Z) (d : Db) (shared : DbFetcherSharedState)
  : DbFetcherSharedState :=
  match (get_ingress_key_records pool 0 d).1 with
  | Ok records => mkDbFetcherSharedState records (fetched_records shared)
  | Err _ => shared
  end.

(** One round of the loop of [load_block_data], up to the wait for the queue
    limiter: the number of records when the block was there. *)
Definition load_block (pool : result unit Z) (d : Db) (shared : DbFetcherSharedState)
    (tracker : BlockTracker) (ingress_key : bytes) (block_index : Z)
  : run (DbFetcherSharedState * BlockTracker * option Z) :=
  match (get_tx_outs_by_block_and_key pool decode_block_data ingress_key block_index d).1 with
  | Ok (Some tx_outs) =>
      let num_tx_outs := Z.of_nat (length tx_outs) in
      tracker ← block_processed tracker ingress_key block_index;
      Ret (mkDbFetcherSharedState (ingress_keys shared)
             (fetched_records shared ++ [mkFetchedRecords ingress_key block_index tx_outs]),
           tracker, Some num_tx_outs)
  | Ok None => Ret (shared, tracker, None)
  | Err _ => Ret (shared, tracker, None)
  end.

(** [DbFetcherThread::run] with [load_block_data]. *)
Definition fetcher_step (pool : result unit Z) (d : Db) (f : Fetcher)
  : option (run Fetcher) :=
  let 'mkFetcher stop_requested shared num_queued_records tracker pc := f in
  match pc with
  | FTop =>
      if stop_requested then Some (Ret (mkFetcher stop_requested shared num_queued_records tracker FStopped))
      else Some (Ret (mkFetcher stop_requested (load_ingress_keys pool d shared) num_queued_records
             tracker FBegin))
  | FBegin =>
      let next_block_index_per_ingress_key := next_blocks tracker (ingress_keys shared) in
      Some (Ret (mkFetcher stop_requested shared num_queued_records tracker
        (FLoading false (hash_iter next_block_index_per_ingress_key))))
  | FLoading has_more_work ((ingress_key, block_index) :: blocks) =>
      Some ('(shared, tracker, loaded) ← load_block pool d shared tracker ingress_key block_index;
            Ret (mkFetcher stop_requested shared num_queued_records tracker
              match loaded with
              | Some num_tx_outs => FWaiting num_tx_outs blocks
              | None => FLoading has_more_work blocks
              end))
  | FWaiting num_tx_outs blocks =>
      if num_queued_records >? MAX_QUEUED_RECORDS then None
      else Some (Ret (mkFetcher stop_requested shared (num_queued_records +w num_tx_outs) tracker
                   (FLoading true blocks)))
  | FLoading has_more_work [] =>
      Some (Ret (mkFetcher stop_requested shared num_queued_records tracker
        (if has_more_work && negb stop_requested then FBegin else FTop)))
  | FStopped => None
  end.

(** ** The worker *)

Record DbPollSharedState := mkDbPollSharedState {
  dps_highest_processed_block_count : Z;
  dps_highest_processed_block_signature_timestamp : Z;
  dps_last_known_block_count : Z;
  dps_last_known_block_cumulative_txo_count : Z;
}.

Definition DbPollSharedState_default : DbPollSharedState := mkDbPollSharedState 0 0 0 0.

(** Where the worker is in [tick]: at its start, between the two parts of
    [get_pending_fetched_records], adding records, about to count with the
    keys it read, in the endless loop after a failure, joining the fetcher
    thread, or stopped. *)
Inductive WorkerPc :=
| WTop
| WDrained (records : list FetchedRecords)
| WAdding (records : list FetchedRecords)
| WCounting (keys : list IngressPublicKeyRecord)
| WFailed
| WStopping
| WStopped.

Record Worker := mkWorker {
  w_enclave : ViewEnclave;
  w_enclave_block_tracker : BlockTracker;
  w_shared : DbPollSharedState;
  w_pc : WorkerPc;
}.

Definition Worker_new (enclave : ViewEnclave) : Worker :=
  mkWorker enclave BlockTracker_new DbPollSharedState_default WTop.

(** [add_records_to_enclave]: [false] when it ends in the endless loop. *)
Definition add_records_to_enclave (enclave : ViewEnclave) (tracker : BlockTracker)
    (ingress_key : bytes) (block_index : Z) (records : list ETxOutRecord)
  : run (ViewEnclave * BlockTracker * bool) :=
  '(enclave, add_records_result) ← enclave_add_records enclave records;
  match add_records_result with
  | Err _ => Ret (enclave, tracker, false)
  | Ok _ =>
      tracker ← block_processed tracker ingress_key block_index;
      Ret (enclave, tracker, true)
  end.

Definition get_block_signature_timestamp_for_block_count (pool : result unit Z) (d : Db)
    (block_count : Z) : option Z :=
  if block_count <=? 1 then None
  else match (get_block_signature_timestamp_for_block pool (block_count -w 1) d).1 with
       | Ok (Some timestamp) => Some timestamp
       | Ok None => None
       | Err _ => None
       end.

(** The end of [tick], from the computation of the highest fully processed
    block count on; [pool] and [pool'] are the outcomes of getting a database
    connection for the two queries. *)
Definition update_shared_state (pool pool' : result unit Z) (d : Db)
    (keys : list IngressPublicKeyRecord) (tracker : BlockTracker) (shared : DbPollSharedState)
  : run (BlockTracker * DbPollSharedState) :=
  '(tracker, (highest_processed_block_count, reason_we_stopped)) ←
    unwrap (highest_fully_processed_block_count tracker keys);
  let timestamp :=
    match get_block_signature_timestamp_for_block_count pool d highest_processed_block_count with
    | Some timestamp => timestamp
    | None => dps_highest_processed_block_signature_timestamp shared
    end in
  let cur_highest_known_block_count := highest_known_block_count tracker in
  '(last_known, cumulative) ←
    (if negb (dps_last_known_block_count shared =? cur_highest_known_block_count) then
       _ ← rassert (cur_highest_known_block_count >? dps_last_known_block_count shared);
       match (get_cumulative_txo_count_for_block pool' (cur_highest_known_block_count -w 1) d).1 with
       | Ok (Some cumulative_txo_count) => Ret (cur_highest_known_block_count, cumulative_txo_count)
       | Ok None | Err _ =>
           Ret (dps_last_known_block_count shared, dps_last_known_block_cumulative_txo_count shared)
       end
     else Ret (dps_last_known_block_count shared, dps_last_known_block_cumulative_txo_count shared));
  Ret (tracker, mkDbPollSharedState highest_processed_block_count timestamp last_known cumulative).

(** [DbPollThreadWorker::tick]. *)
Definition worker_step (pool pool' : result unit Z) (d : Db) (stop_requested : bool) (f : Fetcher)
    (w : Worker) : option (run (Fetcher * Worker)) :=
  let 'mkWorker enclave tracker shared pc := w in
  match pc with
  | WTop =>
      if stop_requested
      then Some (Ret (request_fetcher_stop f, mkWorker enclave tracker shared WStopping))
      else let '(records, f) := take_fetched_records f in
           Some (Ret (f, mkWorker enclave tracker shared (WDrained records)))
  | WDrained records =>
      Some (Ret (reset_num_queued_records f, mkWorker enclave tracker shared (WAdding records)))
  | WAdding (e :: records) =>
      if stop_requested then Some (Ret (f, mkWorker enclave tracker shared (WAdding [])))
      else Some ('(enclave, tracker, added) ← add_records_to_enclave enclave tracker
                    (fr_ingress_key e) (fr_block_index e) (fr_records e);
                 Ret (f, mkWorker enclave tracker shared match added with true => WAdding records | false => WFailed end))
  | WAdding [] =>
      Some (Ret (f, mkWorker enclave tracker shared
        (WCounting (get_highest_processed_block_context f))))
  | WCounting keys =>
      Some ('(tracker, shared) ← update_shared_state pool pool' d keys tracker shared;
            Ret (f, mkWorker enclave tracker shared WTop))
  | WStopping =>
      match f_pc f with
      | FStopped => Some (Ret (f, mkWorker enclave tracker shared WStopped))
      | _ => None
      end
  | WFailed | WStopped => None
  end.

(** ** The query service *)

Inductive RpcStatusCode := INVALID_ARGUMENT | INTERNAL | PERMISSION_DENIED | UNAUTHENTICATED.

Definition enclave_err_to_rpc_status (src : ViewEnclaveError) : RpcStatusCode :=
  match src with
  | ViewProstDecode => INVALID_ARGUMENT
  | _ => INTERNAL
  end.

Section service.
Context (decode_aad : EnclaveMessage -> option Z).
Context (client_accept : AkeState -> bytes -> result bytes AttestEnclaveError * AkeState).

(** What the service reads before it calls the enclave: the user events from
    the database [d], and after that the counters of the worker [shared]. *)
Definition untrusted_query_response (events : list FogUserEvent * Z) (shared : DbPollSharedState)
  : UntrustedQueryResponse :=
  mkUntrustedQueryResponse events.1 events.2
    (dps_highest_processed_block_count shared)
    (dps_highest_processed_block_signature_timestamp shared)
    (dps_last_known_block_count shared)
    (dps_last_known_block_cumulative_txo_count shared).

(** [query_impl], where [d], [shared] and [enclave] are the states at the
    times of the three accesses. *)
Definition query_impl (pool : result unit Z) (request : EnclaveMessage) (d : Db)
    (shared : DbPollSharedState) (enclave : ViewEnclave)
  : run (ViewEnclave * result bytes RpcStatusCode) :=
  match decode_aad request with
  | None => Ret (enclave, Err INVALID_ARGUMENT)
  | Some start_from_user_event_id =>
      match (search_user_events pool start_from_user_event_id d).1 with
      | Err _ => Ret (enclave, Err INTERNAL)
      | Ok events =>
          '(enclave, result_blob) ←
            enclave_query enclave request (untrusted_query_response events shared);
          Ret (enclave, map_err enclave_err_to_rpc_status result_blob)
      end
  end.

(** The handlers, with the outcome of the authenticator. *)
Definition view_auth (authenticated : result unit RpcStatusCode) (request : bytes)
    (enclave : ViewEnclave) : ViewEnclave * result bytes RpcStatusCode :=
  match authenticated with
  | Err err => (enclave, Err err)
  | Ok _ =>
      let '(response, ake) := client_accept (ve_ake enclave) request in
      (mkViewEnclave (ve_e_tx_out_store enclave) ake,
       match response with Ok response => Ok response | Err _ => Err PERMISSION_DENIED end)
  end.

Definition view_query (authenticated : result unit RpcStatusCode) (pool : result unit Z)
    (request : EnclaveMessage) (d : Db) (shared : DbPollSharedState) (enclave : ViewEnclave)
  : run (ViewEnclave * result bytes RpcStatusCode) :=
  match authenticated with
  | Err err => Ret (enclave, Err err)
  | Ok _ => query_impl pool request d shared enclave
  end.
End service.

(** ** The poll thread object *)

(** [join_handle.is_some()], the stop request and the state shared with the service. *)
Record DbPollThread := mkDbPollThread {
  dpt_running : bool;
  dpt_stop_requested : bool;
  dpt_shared : DbPollSharedState;
}.

Definition DbPollThread_new : DbPollThread := mkDbPollThread false false DbPollSharedState_default.

Definition DbPollThread_start (t : DbPollThread) : run DbPollThread :=
  _ ← rassert (negb (dpt_running t));
  Ret (mkDbPollThread true (dpt_stop_requested t) DbPollSharedState_default).

Definition DbPollThread_stop (t : DbPollThread) : DbPollThread :=
  if dpt_running t then mkDbPollThread false true (dpt_shared t) else t.

(** ** The server *)

Record ViewState := mkViewState {
  v_db : Db;
  v_stop_requested : bool;
  v_fetcher : Fetcher;
  v_worker : Worker;
}.

Definition ViewState_new (d : Db) (enclave : ViewEnclave) : ViewState :=
  mkViewState d false Fetcher_new (Worker_new enclave).

(** Block indices fit a signed word, as the database stores them. *)
Definition block_numbers_ok (d : Db) : Prop :=
  Forall (fun b => 0 <= ib_block_number b) (db_ingested_blocks d).

Inductive view_step : ViewState -> ViewState -> Prop :=
| v_database d d' stop f w : db_step d d' -> block_numbers_ok d' ->
    view_step (mkViewState d stop f w) (mkViewState d' stop f w)
| v_stop d stop f w : view_step (mkViewState d stop f w) (mkViewState d true f w)
| v_fetch pool d stop f w f' : fetcher_step pool d f = Some (Ret f') ->
    view_step (mkViewState d stop f w) (mkViewState d stop f' w)
| v_work pool pool' d stop f w f' w' : worker_step pool pool' d stop f w = Some (Ret (f', w')) ->
    view_step (mkViewState d stop f w) (mkViewState d stop f' w')
| v_query d stop f w msg untrusted enclave r :
    enclave_query (w_enclave w) msg untrusted = Ret (enclave, r) ->
    view_step (mkViewState d stop f w)
      (mkViewState d stop f (mkWorker enclave (w_enclave_block_tracker w) (w_shared w) (w_pc w)))
| v_auth d stop f w ake :
    view_step (mkViewState d stop f w)
      (mkViewState d stop f (mkWorker (mkViewEnclave (ve_e_tx_out_store (w_enclave w)) ake)
        (w_enclave_block_tracker w) (w_shared w) (w_pc w))).

(** The states of a server started on a database with a fresh enclave store. *)
Definition view_reachable (s : ViewState) : Prop :=
  exists d capacity ake, db_reachable d /\ block_numbers_ok d
    /\ rtc view_step
         (ViewState_new d (mkViewEnclave (Some (ETxOutStore_new capacity)) ake)) s.

End threads.
