(* ===== verification/ViewServerSpec.v ===== *)
(** * What the view server promises

    The invariant of the threads of the view server and the database they
    read: for every ingress key the blocks pass from the database through the
    fetcher's queue into the enclave in order and without gaps.  From it, the
    threads never panic and the block count that is published covers only
    blocks whose records the enclave serves, for the keys the fetcher knew of.
    The bound on the queue, and what can go wrong: the keys may be out of
    date, and a full queue blocks the shutdown. *)

From S2P Require Import Prelude FogTypes RecoveryTypes.
From S2P Require Import BlockTracker ObliviousMap ViewEnclave.
From S2P Require Import RecoveryDb RecoveryDbWf RecoveryDbSpec ViewServer.

Local Open Scope Z_scope.
Local Open Scope fog_scope.

(** ** Keys and blocks of the database *)

Definition key_start (d : Db) (k : bytes) : Z :=
  match db_ingress_keys d !! k with Some ik => as_u64 (ik_start_block ik) | None => 0 end.

(** The block a tracker expects next for a key. *)
Definition next_of (t : BlockTracker) (d : Db) (k : bytes) : Z :=
  match processed_block_per_ingress_key t !! k with
  | Some l => l + 1
  | None => key_start d k
  end.

Definition known_key (d : Db) (k : bytes) : Prop := is_Some (db_ingress_keys d !! k).

Definition known_records (d : Db) (recs : list IngressPublicKeyRecord) : Prop :=
  NoDup (kr_key <$> recs)
  /\ Forall (fun r => known_key d (kr_key r) /\ ks_start_block (kr_status r) = key_start d (kr_key r)) recs.

(** The blocks a tracker has seen belong to known keys and are indices the database can hold. *)
Definition tracker_ok (d : Db) (t : BlockTracker) : Prop :=
  forall k l, processed_block_per_ingress_key t !! k = Some l ->
    known_key d k /\ key_start d k <= l < i64_modulus_half.

Definition of_key (k : bytes) (l : list FetchedRecords) : list Z :=
  fr_block_index <$> filter (fun e => fr_ingress_key e = k) l.

(** The queue between two trackers: each key's blocks, in order, without gaps. *)
Definition in_order (d : Db) (t t' : BlockTracker) (queue : list FetchedRecords) : Prop :=
  forall k, next_of t d k <= next_of t' d k
    /\ of_key k queue = seqZ (next_of t d k) (next_of t' d k - next_of t d k).

Lemma key_start_nonneg d k : 0 <= key_start d k.
Proof.
  unfold key_start; destruct (db_ingress_keys d !! k); [|done]; apply wrap64_range.
Qed.

Lemma key_start_u64 d k : is_u64 (key_start d k).
Proof.
  unfold key_start; destruct (db_ingress_keys d !! k); [apply wrap64_range|done].
Qed.

Lemma next_of_start t d k : tracker_ok d t -> key_start d k <= next_of t d k.
Proof.
  intros Ht; unfold next_of; destruct (_ !! k) as [l|] eqn:Hl; [|lia].
  apply Ht in Hl as [_ ?]; lia.
Qed.

Lemma next_of_u64 t d k : tracker_ok d t -> is_u64 (next_of t d k).
Proof.
  intros Ht; unfold next_of; destruct (_ !! k) as [l|] eqn:Hl; [|apply key_start_u64].
  apply Ht in Hl as [_ ?]; pose proof (key_start_nonneg d k); unfold_u64; lia.
Qed.

Lemma next_of_insert t d k b n k' :
  next_of (mkBlockTracker (<[k := b]> (processed_block_per_ingress_key t)) n) d k'
  = if decide (k' = k) then b + 1 else next_of t d k'.
Proof.
  unfold next_of; simpl; case_decide; subst; [by rewrite lookup_insert_eq|by rewrite lookup_insert_ne].
Qed.

Lemma tracker_ok_insert d t k b n : tracker_ok d t -> known_key d k ->
  key_start d k <= b < i64_modulus_half ->
  tracker_ok d (mkBlockTracker (<[k := b]> (processed_block_per_ingress_key t)) n).
Proof.
  intros Ht Hk Hb k' l; simpl; rewrite lookup_insert_Some.
  intros [[<- <-]|[_ Hl]]; [done|by apply Ht].
Qed.

(** The block a tracker expects next is the one it accepts. *)
Lemma block_processed_next d t k :
  tracker_ok d t -> block_processed t k (next_of t d k)
  = Ret (mkBlockTracker (<[k := next_of t d k]> (processed_block_per_ingress_key t))
           (last_highest_processed_block_count t)).
Proof.
  intros Ht; apply block_processed_ret; split; [done|].
  intros p Hp; unfold next_of; rewrite Hp; apply Ht in Hp as [_ Hp].
  pose proof (key_start_nonneg d k); rewrite u64_add_small by (unfold_u64; lia); done.
Qed.

(** A block is queued behind, and taken from the front. *)
Lemma in_order_push d t t' queue e n :
  in_order d t t' queue -> fr_block_index e = next_of t' d (fr_ingress_key e) ->
  in_order d t (mkBlockTracker (<[fr_ingress_key e := fr_block_index e]>
    (processed_block_per_ingress_key t')) n) (queue ++ [e]).
Proof.
  intros Ho He k; destruct (Ho k) as [Hle Hq]; rewrite next_of_insert.
  unfold of_key in *; rewrite filter_app, fmap_app, Hq, filter_cons, filter_nil.
  destruct (decide (k = fr_ingress_key e)) as [->|Hne].
  - rewrite decide_True by done; rewrite He; split; [lia|]; simpl.
    replace (next_of t' d (fr_ingress_key e) + 1 - next_of t d (fr_ingress_key e))
      with ((next_of t' d (fr_ingress_key e) - next_of t d (fr_ingress_key e)) + 1) by lia.
    rewrite seqZ_app by lia; f_equal.
    replace (next_of t d _ + _) with (next_of t' d (fr_ingress_key e)) by lia.
    by rewrite <- He, (seqZ_cons _ 1) by lia.
  - rewrite decide_False by congruence; split; [done|by rewrite app_nil_r].
Qed.

Lemma in_order_pop d t t' queue e n :
  in_order d t t' (e :: queue) ->
  fr_block_index e = next_of t d (fr_ingress_key e)
  /\ in_order d (mkBlockTracker (<[fr_ingress_key e := fr_block_index e]>
       (processed_block_per_ingress_key t)) n) t' queue.
Proof.
  intros Ho; destruct (Ho (fr_ingress_key e)) as [Hle Hq].
  unfold of_key in Hq; rewrite filter_cons, decide_True in Hq by done; cbn [fmap list_fmap] in Hq.
  destruct (decide (next_of t d (fr_ingress_key e) < next_of t' d (fr_ingress_key e))) as [Hlt|Hge].
  2: { rewrite seqZ_nil in Hq by lia; done. }
  rewrite seqZ_cons in Hq by lia; injection Hq as He Hq; split; [done|].
  intros k; rewrite next_of_insert; destruct (decide (k = fr_ingress_key e)) as [->|Hne].
  - rewrite He; split; [lia|]; unfold of_key; rewrite Hq; f_equal; lia.
  - destruct (Ho k) as [Hle' Hq']; split; [done|]; rewrite <- Hq'.
    unfold of_key; by rewrite filter_cons, decide_False by congruence.
Qed.

(** *** A growing database *)

(** Keys keep their start and blocks are only appended. *)
Definition db_grows (d d' : Db) : Prop :=
  (forall k ik, db_ingress_keys d !! k = Some ik ->
     exists ik', db_ingress_keys d' !! k = Some ik' /\ ik_start_block ik' = ik_start_block ik)
  /\ exists new, db_ingested_blocks d' = db_ingested_blocks d ++ new.

Lemma db_step_grows d d' : db_step d d' -> db_grows d d'.
Proof.
  intros Hs; destruct (db_step_mono _ _ Hs) as [_ _ Hb Hk _]; split; [|done].
  intros k ik Hik; destruct (Hk k ik Hik) as (ik' & ? & ? & _); eauto.
Qed.

Section grows.
Context (d d' : Db) (Hgrow : db_grows d d').

Lemma known_key_grows k : known_key d k -> known_key d' k /\ key_start d' k = key_start d k.
Proof.
  intros [ik Hik]; destruct (proj1 Hgrow k ik Hik) as (ik' & Hik' & Hs).
  unfold known_key, key_start; rewrite Hik, Hik', Hs; eauto.
Qed.

Lemma known_records_grows recs : known_records d recs -> known_records d' recs.
Proof.
  intros [Hnd Hr]; split; [done|]; eapply Forall_impl; [exact Hr|].
  intros r [Hk Hs]; destruct (known_key_grows _ Hk) as [? ->]; done.
Qed.

Lemma tracker_ok_grows t : tracker_ok d t -> tracker_ok d' t.
Proof.
  intros Ht k l Hl; destruct (Ht k l Hl) as [Hk Hb].
  destruct (known_key_grows _ Hk) as [? ->]; done.
Qed.

Lemma next_of_grows t k : tracker_ok d t -> known_key d k -> next_of t d' k = next_of t d k.
Proof. intros Ht Hk; unfold next_of; by destruct (known_key_grows _ Hk) as [_ ->]. Qed.

Lemma next_of_unknown t k : tracker_ok d t -> ~ known_key d k ->
  next_of t d k = key_start d k /\ next_of t d' k = key_start d' k.
Proof.
  intros Ht Hk; unfold next_of; destruct (_ !! k) as [l|] eqn:Hl; [|done].
  exfalso; by apply Hk, (Ht k l).
Qed.

Lemma in_order_grows t t' queue :
  tracker_ok d t -> tracker_ok d t' -> in_order d t t' queue -> in_order d' t t' queue.
Proof.
  intros Ht Ht' Ho k; destruct (Ho k) as [Hle Hq].
  assert (known_key d k \/ ~ known_key d k) as [Hk|Hk]
    by (unfold known_key; destruct (db_ingress_keys d !! k); [left; eauto|right; intros [? ?]; done]).
  - by rewrite !next_of_grows.
  - destruct (next_of_unknown t k Ht Hk) as [E1 ->], (next_of_unknown t' k Ht' Hk) as [E2 ->].
    rewrite E1, E2, Z.sub_diag in Hq; by rewrite Z.sub_diag.
Qed.
End grows.

(** ** Contents *)

Section spec.
Context `{HI : HashIter} {O : ObliviousHashMap} {L : ObliviousHashMapLaws O} `{A : Ake} `{C : ViewCodec}.
Context (decode : bytes -> result (list ETxOutRecord) Z).

(** The database holds the records [txs] of the block [b] under the key [k]. *)
Definition stored_block (d : Db) (k : bytes) (b : Z) (txs : list ETxOutRecord) : Prop :=
  exists row, row ∈ db_ingested_blocks d /\ ib_ingress_public_key row = k
    /\ ib_block_number row = as_i64 b /\ decode (ib_proto_ingested_block_data row) = Ok txs.

(** The enclave's store answers for every record of the block. *)
Definition served (d : Db) (store : ETxOutStore) (k : bytes) (b : Z) : Prop :=
  exists txs, stored_block d k b txs
    /\ forall r, r ∈ txs -> is_Some (store_map store !! etr_search_key r).

(** What the store holds comes from the database. *)
Definition from_db (d : Db) (store : ETxOutStore) : Prop :=
  forall key payload, store_map store !! key = Some payload ->
    exists k b txs r, stored_block d k b txs /\ r ∈ txs
      /\ etr_search_key r = key /\ etr_payload r = payload.

Definition entry_ok (d : Db) (e : FetchedRecords) : Prop :=
  stored_block d (fr_ingress_key e) (fr_block_index e) (fr_records e).

Definition drained (pc : WorkerPc) : list FetchedRecords :=
  match pc with WDrained l | WAdding l => l | _ => [] end.
Definition to_load (pc : FetcherPc) : list (bytes * Z) :=
  match pc with FLoading _ l | FWaiting _ l => l | _ => [] end.
Definition counting (pc : WorkerPc) : list IngressPublicKeyRecord :=
  match pc with WCounting keys => keys | _ => [] end.

(** The fetched blocks on their way to the enclave. *)
Definition in_flight (f : Fetcher) (w : Worker) : list FetchedRecords :=
  drained (w_pc w) ++ fetched_records (f_shared f).

(** The worker still takes blocks from the queue. *)
Definition live (stop_requested : bool) (pc : WorkerPc) : Prop :=
  stop_requested = false /\ pc <> WFailed.

Record fetcher_inv (d : Db) (f : Fetcher) : Prop := {
  fi_keys : known_records d (ingress_keys (f_shared f));
  fi_tracker : tracker_ok d (f_block_tracker f);
  fi_loads : NoDup (to_load (f_pc f)).*1
    /\ Forall (fun e => known_key d e.1 /\ e.2 = next_of (f_block_tracker f) d e.1) (to_load (f_pc f));
}.

Record worker_inv (d : Db) (w : Worker) : Prop := {
  wi_keys : known_records d (counting (w_pc w));
  wi_tracker : tracker_ok d (w_enclave_block_tracker w);
  wi_wf : tracker_wf (w_enclave_block_tracker w);
  wi_store : exists store, ve_e_tx_out_store (w_enclave w) = Some store /\ store_wf store
    /\ from_db d store
    /\ forall k b, key_start d k <= b < next_of (w_enclave_block_tracker w) d k -> served d store k b;
  wi_highest : dps_highest_processed_block_count (w_shared w)
    = last_highest_processed_block_count (w_enclave_block_tracker w);
  wi_known : 0 <= dps_last_known_block_count (w_shared w)
    <= highest_known_block_count (w_enclave_block_tracker w);
}.

Record view_inv (s : ViewState) : Prop := {
  vi_db : db_wf (v_db s) /\ block_numbers_ok (v_db s);
  vi_fetcher : fetcher_inv (v_db s) (v_fetcher s);
  vi_worker : worker_inv (v_db s) (v_worker s);
  vi_entries : Forall (entry_ok (v_db s)) (in_flight (v_fetcher s) (v_worker s));
  vi_order : live (v_stop_requested s) (w_pc (v_worker s)) ->
    in_order (v_db s) (w_enclave_block_tracker (v_worker s)) (f_block_tracker (v_fetcher s))
      (in_flight (v_fetcher s) (v_worker s));
}.

Lemma stored_block_grows d d' k b txs :
  db_grows d d' -> stored_block d k b txs -> stored_block d' k b txs.
Proof.
  intros [_ [new Hb]] (row & Hrow & ?); exists row; split; [|done].
  rewrite Hb; apply elem_of_app; by left.
Qed.

Lemma served_grows d d' store store' k b :
  db_grows d d' -> dom (store_map store) ⊆ dom (store_map store') ->
  served d store k b -> served d' store' k b.
Proof.
  intros Hg Hdom (txs & Hst & Hr); exists txs; split; [by eapply stored_block_grows|].
  intros r Hin; apply elem_of_dom, Hdom, elem_of_dom; auto.
Qed.

Lemma db_grows_refl d : db_grows d d.
Proof. split; [eauto|exists []; by rewrite app_nil_r]. Qed.

(** A block the database returns is stored, and its index is in range. *)
Lemma get_tx_outs_stored pool d k b txs :
  block_numbers_ok d -> is_u64 b ->
  (get_tx_outs_by_block_and_key pool decode k b d).1 = Ok (Some txs) ->
  stored_block d k b txs /\ b < i64_modulus_half.
Proof.
  intros Hnum Hb; unfold get_tx_outs_by_block_and_key, with_conn; destruct pool as [u|e]; [|done].
  unfold mbind, tx_bind, tx_get.
  destruct (rows_by_block_and_key k b d) as [|row [|]] eqn:Hrows; simpl; try done.
  unfold mbind, tx_bind, tx_lift; destruct (decode _) as [txs'|] eqn:Hdec; [|done]; simpl.
  intros [= ->].
  assert (row ∈ rows_by_block_and_key k b d) as Hin by (rewrite Hrows; by constructor).
  unfold rows_by_block_and_key, blocks_of_key in Hin.
  apply list_elem_of_filter in Hin as [Hn Hin]; apply list_elem_of_filter in Hin as [Hk Hin].
  split; [exists row; done|].
  eapply Forall_forall in Hnum; [|exact Hin]; simpl in Hnum; rewrite Hn in Hnum.
  unfold as_i64 in Hnum; destruct (b <? i64_modulus_half) eqn:E; bool_to_prop; [done|].
  unfold_u64; lia.
Qed.

Lemma NoDup_fst_filter {X Y} (P : X * Y -> Prop) `{!forall x, Decision (P x)} (l : list (X * Y)) :
  NoDup l.*1 -> NoDup (filter P l).*1.
Proof.
  induction l as [|[x y] l IH]; [done|]; intros [Hx Hl]%NoDup_cons.
  rewrite filter_cons; case_decide; [|by apply IH]; constructor; [|by apply IH].
  intros Hin; apply Hx; apply list_elem_of_fmap in Hin as (e & -> & He).
  apply list_elem_of_filter in He as [_ He]; apply list_elem_of_fmap; eauto.
Qed.

(** Ingress key records read from the database are known records. *)
Lemma get_ingress_key_records_known pool d start recs :
  (get_ingress_key_records pool start d).1 = Ok recs -> known_records d recs.
Proof.
  unfold get_ingress_key_records, with_conn; destruct pool; [|done]; simpl; intros [= <-].
  split.
  - rewrite <- list_fmap_compose.
    assert (forall l : list (bytes * IngressKey), (kr_key ∘ (fun '(key, k) =>
      mkIngressPublicKeyRecord key (status_of k) (as_u64 <$> max_block (blocks_of_key d key)))) <$> l
      = l.*1) as -> by (intros l; apply list_fmap_ext; by intros i [key k] _).
    apply NoDup_fst_filter, NoDup_fst_hash_iter.
  - apply Forall_fmap, Forall_forall; intros [key k] Hin; simpl.
    apply list_elem_of_filter in Hin as [_ Hin]; apply elem_of_hash_iter in Hin.
    unfold known_key, key_start; rewrite Hin; eauto.
Qed.

(** ** The fetcher keeps the invariant *)

(** The blocks to load are the ones the tracker expects next. *)
Lemma next_blocks_expected d t recs : tracker_ok d t -> known_records d recs ->
  let loads := hash_iter (next_blocks t recs) in
  NoDup loads.*1 /\ Forall (fun e => known_key d e.1 /\ e.2 = next_of t d e.1) loads.
Proof.
  intros Ht [Hnd Hr]; split; [apply NoDup_fst_hash_iter|].
  apply Forall_forall; intros [k b] Hin; apply elem_of_hash_iter, next_blocks_lookup in Hin; [|done].
  destruct Hin as (rec & Hrec & <- & -> & _); simpl.
  eapply Forall_forall in Hr as [Hk Hs]; [|exact Hrec]; split; [done|].
  unfold next_candidate, next_of; destruct (_ !! kr_key rec) as [l|] eqn:Hl; [|done].
  apply Ht in Hl as [_ Hl]; pose proof (key_start_nonneg d (kr_key rec)).
  rewrite u64_add_small by (unfold_u64; lia); done.
Qed.

(** Loading the next block of a key. *)
Lemma load_block_ok pool d shared t k b queue t0 :
  block_numbers_ok d -> tracker_ok d t -> known_key d k -> b = next_of t d k ->
  exists shared' t' n, load_block decode pool d shared t k b = Ret (shared', t', n)
    /\ ingress_keys shared' = ingress_keys shared /\ tracker_ok d t'
    /\ (forall k', k' <> k -> next_of t' d k' = next_of t d k')
    /\ (Forall (entry_ok d) (queue ++ fetched_records shared) ->
        Forall (entry_ok d) (queue ++ fetched_records shared'))
    /\ (in_order d t0 t (queue ++ fetched_records shared) ->
        in_order d t0 t' (queue ++ fetched_records shared')).
Proof.
  intros Hnum Ht Hk ->; unfold load_block.
  destruct (get_tx_outs_by_block_and_key _ _ _ _ d).1 as [[txs|]|e] eqn:Hget;
    [|by do 3 eexists|by do 3 eexists].
  destruct (get_tx_outs_stored _ _ _ _ _ Hnum (next_of_u64 t d k Ht) Hget) as [Hst Hb].
  rewrite (block_processed_next d) by done; cbn [mbind run_bind].
  do 3 eexists; split; [reflexivity|]; split_and!; [done| | | |]; cbn [fetched_records].
  - apply tracker_ok_insert; [done|done|]; pose proof (next_of_start t d k Ht); lia.
  - intros k' Hne; by rewrite next_of_insert, decide_False.
  - rewrite app_assoc; intros Hall; apply Forall_app; split; [done|]; by constructor.
  - rewrite app_assoc; intros Ho; by apply (in_order_push d t0 t _ (mkFetchedRecords k (next_of t d k) txs)).
Qed.

Lemma load_ingress_keys_ok pool d shared : known_records d (ingress_keys shared) ->
  known_records d (ingress_keys (load_ingress_keys pool d shared))
  /\ fetched_records (load_ingress_keys pool d shared) = fetched_records shared.
Proof.
  intros Hk; unfold load_ingress_keys.
  destruct (get_ingress_key_records pool 0 d).1 as [recs|] eqn:Hr; [|done]; simpl.
  by apply get_ingress_key_records_known in Hr.
Qed.

Lemma fetcher_step_ok pool d f w (live : Prop) r :
  block_numbers_ok d -> fetcher_inv d f -> fetcher_step decode pool d f = Some r ->
  Forall (entry_ok d) (in_flight f w) ->
  (live -> in_order d (w_enclave_block_tracker w) (f_block_tracker f) (in_flight f w)) ->
  exists f', r = Ret f' /\ fetcher_inv d f' /\ Forall (entry_ok d) (in_flight f' w)
    /\ (live -> in_order d (w_enclave_block_tracker w) (f_block_tracker f') (in_flight f' w)).
Proof.
  intros Hnum [Hk Ht [Hnd Hl]] Hstep He Ho; destruct f as [st sh n t pc]; unfold in_flight in *.
  cbn [f_shared f_block_tracker f_pc] in *.
  destruct pc as [| |more [|[k b] l]|m l|]; cbn in Hstep.
  - destruct (load_ingress_keys_ok pool d sh Hk) as [Hk' Hf'].
    destruct st; injection Hstep as <-; eexists; (split; [reflexivity|]); cbn; rewrite ?Hf';
      (split; [by split|done]).
  - injection Hstep as <-; eexists; split; [reflexivity|]; split; [|done].
    by split; [..|apply next_blocks_expected].
  - injection Hstep as <-; eexists; split; [reflexivity|]; split; [|done].
    split; [done|done|]; cbn; destruct (_ && _); (split; constructor).
  - cbn in Hnd, Hl; apply NoDup_cons in Hnd as [Hkl Hnd]; apply Forall_cons in Hl as [[Hkk Hb] Hl].
    destruct (load_block_ok pool d sh t k b (drained (w_pc w)) (w_enclave_block_tracker w) Hnum Ht Hkk Hb)
      as (sh' & t' & loaded & Heq & Hkeys & Ht' & Hother & He' & Ho').
    rewrite Heq in Hstep; cbn in Hstep; injection Hstep as <-; eexists; split; [reflexivity|].
    cbn; split; [|by auto]; split; cbn; [by rewrite Hkeys|done|].
    assert (NoDup l.*1 /\ Forall (fun e => known_key d e.1 /\ e.2 = next_of t' d e.1) l) as Hgoal.
    { split; [done|]; apply Forall_forall; intros [k' b'] Hin.
      eapply Forall_forall in Hl as [? Hb']; [|exact Hin]; split; [done|]; simpl in *.
      rewrite Hother; [done|]; intros ->; by apply Hkl, (elem_of_fst l k b'). }
    by destruct loaded.
  - destruct (n >? MAX_QUEUED_RECORDS); [done|]; injection Hstep as <-.
    eexists; split; [reflexivity|]; by split.
  - done.
Qed.

(** ** The worker keeps the invariant *)

Lemma insert_records_from m recs key payload :
  insert_records m recs !! key = Some payload ->
  m !! key = Some payload \/ exists r, r ∈ recs /\ etr_search_key r = key /\ etr_payload r = payload.
Proof.
  unfold insert_records; induction recs as [|r recs IH] using rev_ind; [by left|].
  rewrite foldl_snoc, lookup_insert_Some; intros [[<- <-]|[_ Hr]].
  - right; exists r; split; [apply elem_of_app; right; by constructor|done].
  - destruct (IH Hr) as [?|(r' & ? & ?)]; [by left|right; exists r'; rewrite elem_of_app; eauto].
Qed.

Lemma insert_records_dom m recs :
  dom m ⊆ dom (insert_records m recs)
  /\ forall r, r ∈ recs -> is_Some (insert_records m recs !! etr_search_key r).
Proof.
  unfold insert_records; induction recs as [|r recs IH] using rev_ind; [split; [done|]|].
  { intros r Hr; by apply not_elem_of_nil in Hr. }
  rewrite foldl_snoc; destruct IH as [IH1 IH2]; split; [set_solver|].
  intros r' [Hr'|Hr']%elem_of_app; apply lookup_insert_is_Some'.
  - right; by apply IH2.
  - left; apply list_elem_of_singleton in Hr' as ->; done.
Qed.

(** Adding records of the database to the enclave: what it held it keeps, and
    all its contents come from the database. *)
Lemma enclave_add_ok d enclave store k b txs :
  ve_e_tx_out_store enclave = Some store -> store_wf store -> from_db d store ->
  stored_block d k b txs ->
  exists enclave' store' r, enclave_add_records enclave txs = Ret (enclave', r)
    /\ ve_e_tx_out_store enclave' = Some store' /\ store_wf store' /\ from_db d store'
    /\ dom (store_map store) ⊆ dom (store_map store')
    /\ (is_ok r = true -> forall x, x ∈ txs -> is_Some (store_map store' !! etr_search_key x)).
Proof.
  intros Hst Hwf Hfrom Hblock; unfold enclave_add_records; rewrite Hst.
  destruct (add_records_loop_spec store txs Hwf) as (store' & r & -> & Hwf' & Hr); cbn.
  eexists _, store', _; split; [reflexivity|]; split; [done|]; split; [done|].
  assert (exists part, part ⊆ txs /\ store_map store' = insert_records (store_map store) part
    /\ (is_ok r = true -> part = txs)) as (part & Hpart & Hm & Hok).
  { destruct r as [u|e]; [exists txs; by destruct Hr|].
    destruct Hr as (part & Hm & x & rest & ->); exists part; split_and!; [|done|done].
    intros y Hy; apply elem_of_app; by left. }
  rewrite Hm; destruct (insert_records_dom (store_map store) part) as [Hdom Hall]; split_and!.
  - intros key payload; rewrite Hm; intros [Hold|(x & Hx & <- & <-)]%insert_records_from; [by apply Hfrom|].
    exists k, b, txs, x; auto.
  - done.
  - intros Hr' x Hx; apply Hall; rewrite Hok; [done|by destruct r].
Qed.

Lemma update_shared_state_ok pool pool' d keys t shared :
  tracker_wf t -> dps_highest_processed_block_count shared = last_highest_processed_block_count t ->
  0 <= dps_last_known_block_count shared <= highest_known_block_count t ->
  exists t' reason shared', update_shared_state pool pool' d keys t shared = Ret (t', shared')
    /\ advanced t t' (highest_known_block_count t) keys reason
    /\ dps_highest_processed_block_count shared' = last_highest_processed_block_count t'
    /\ 0 <= dps_last_known_block_count shared' <= highest_known_block_count t'.
Proof.
  intros Hwf Hh Hk; unfold update_shared_state.
  destruct (highest_fully_processed_advanced t keys Hwf) as (t' & reason & -> & Hadv).
  cbn [unwrap mbind run_bind].
  assert (highest_known_block_count t' = highest_known_block_count t) as Hsame
    by (unfold highest_known_block_count; by rewrite (adv_processed _ _ _ _ _ Hadv)).
  exists t', reason; rewrite Hsame; pose proof (highest_known_nonneg t).
  destruct (dps_last_known_block_count shared =? highest_known_block_count t) eqn:E; bool_to_prop;
    cbn [negb mbind run_bind]; [eexists; split; [reflexivity|]; split_and!; done || (cbn; lia)|].
  replace (_ >? _) with true by (symmetry; apply Z.gtb_lt; lia); cbn [rassert mbind run_bind].
  destruct (get_cumulative_txo_count_for_block _ _ _).1 as [[c|]|]; cbn [mbind run_bind];
    (eexists; split; [reflexivity|]; split_and!; done || (cbn; lia)).
Qed.

(** Adding the block at the front of the queue. *)
Lemma add_records_to_enclave_ok d w e queue t' :
  worker_inv d w -> entry_ok d e -> known_key d (fr_ingress_key e) -> fr_block_index e < i64_modulus_half ->
  in_order d (w_enclave_block_tracker w) t' (e :: queue) ->
  exists enclave tracker added,
    add_records_to_enclave (w_enclave w) (w_enclave_block_tracker w)
      (fr_ingress_key e) (fr_block_index e) (fr_records e) = Ret (enclave, tracker, added)
    /\ (forall pc, counting pc = [] -> worker_inv d (mkWorker enclave tracker (w_shared w) pc))
    /\ (added = true -> in_order d tracker t' queue).
Proof.
  intros [_ Ht Hwf (store & Hst & Hswf & Hfrom & Hserved) Hh Hk] He Hkey Hb Ho.
  destruct (in_order_pop _ _ _ _ _ (last_highest_processed_block_count (w_enclave_block_tracker w)) Ho)
    as [Hidx Ho'].
  pose proof (next_of_start _ d (fr_ingress_key e) Ht) as Hstart; rewrite <- Hidx in Hstart.
  pose proof (key_start_nonneg d (fr_ingress_key e)) as Hpos.
  destruct (enclave_add_ok d (w_enclave w) store _ _ _ Hst Hswf Hfrom He)
    as (enclave & store' & r & Hadd & Hst' & Hswf' & Hfrom' & Hdom & Hall).
  unfold add_records_to_enclave; rewrite Hadd; cbn [mbind run_bind].
  destruct r as [u|err].
  2: { do 3 eexists; split; [reflexivity|]; split; [|done].
    intros pc Hpc; split; cbn; rewrite ?Hpc; try done; [by split; constructor|].
    exists store'; split_and!; try done; intros k b Hkb; eapply served_grows;
      [apply db_grows_refl|exact Hdom|by apply Hserved]. }
  pose proof (block_processed_next d (w_enclave_block_tracker w) (fr_ingress_key e) Ht) as Hproc.
  rewrite <- Hidx in Hproc; rewrite Hproc; cbn [mbind run_bind].
  pose proof (proj1 (block_processed_ret _ _ _ _) Hproc) as [_ Hprev].
  assert (0 <= fr_block_index e < u64_max - 1) as Hrange by (unfold_u64; lia).
  pose proof (highest_known_insert _ _ _ (last_highest_processed_block_count (w_enclave_block_tracker w))
    Hwf Hrange Hprev) as Hmono.
  do 3 eexists; split; [reflexivity|]; split; [|done].
  intros pc Hpc; split; cbn; rewrite ?Hpc; try done; [by split; constructor| | | |lia].
  - apply tracker_ok_insert; [done|done|lia].
  - eapply block_processed_wf; [exact Hwf|exact Hrange|exact Hproc].
  - exists store'; split_and!; try done; intros k b; rewrite next_of_insert.
    destruct (decide (k = fr_ingress_key e)) as [->|Hne]; intros Hkb.
    2: { eapply served_grows; [apply db_grows_refl|exact Hdom|by apply Hserved]. }
    destruct (decide (b = fr_block_index e)) as [->|Hbe]; [exists (fr_records e); auto|].
    eapply served_grows; [apply db_grows_refl|exact Hdom|]; apply Hserved; lia.
Qed.

(** A queued block belongs to a key the fetcher has tracked. *)
Lemma in_flight_known d t t' e queue :
  tracker_ok d t -> tracker_ok d t' -> in_order d t t' (e :: queue) ->
  known_key d (fr_ingress_key e) /\ fr_block_index e < i64_modulus_half.
Proof.
  intros Ht Ht' Ho; destruct (in_order_pop _ _ _ _ _ 0 Ho) as [Hidx Ho'].
  destruct (Ho' (fr_ingress_key e)) as [Hle _]; rewrite next_of_insert, decide_True in Hle by done.
  unfold next_of in Hle; destruct (processed_block_per_ingress_key t' !! _) as [l|] eqn:Hl.
  - apply Ht' in Hl as [? ?]; split; [done|lia].
  - exfalso; pose proof (next_of_start t d (fr_ingress_key e) Ht); lia.
Qed.

Lemma worker_inv_pc d w pc : worker_inv d w -> known_records d (counting pc) ->
  worker_inv d (mkWorker (w_enclave w) (w_enclave_block_tracker w) (w_shared w) pc).
Proof. intros [] Hk; by split. Qed.

Lemma known_records_nil d : known_records d [].
Proof. by split; constructor. Qed.

Lemma worker_step_ok pool pool' d stop f w r :
  fetcher_inv d f -> worker_inv d w -> worker_step pool pool' d stop f w = Some r ->
  Forall (entry_ok d) (in_flight f w) ->
  (live stop (w_pc w) -> in_order d (w_enclave_block_tracker w) (f_block_tracker f) (in_flight f w)) ->
  exists f' w', r = Ret (f', w') /\ fetcher_inv d f' /\ worker_inv d w'
    /\ Forall (entry_ok d) (in_flight f' w')
    /\ (live stop (w_pc w') -> in_order d (w_enclave_block_tracker w') (f_block_tracker f') (in_flight f' w')).
Proof.
  intros Hf Hw Hstep He Ho; pose proof (known_records_nil d) as Hnil.
  pose proof (worker_inv_pc d w) as Hpc; destruct w as [enclave t shared pc]; cbn in Hpc.
  assert (fetcher_inv d (request_fetcher_stop f) /\ fetcher_inv d (take_fetched_records f).2
    /\ fetcher_inv d (reset_num_queued_records f)) as (Hf1 & Hf2 & Hf3) by (destruct Hf; by split_and!).
  destruct pc as [|l|[|e l]|keys| | |]; cbn in Hstep; unfold in_flight in *;
    cbn [drained w_pc w_enclave_block_tracker app] in *.
  - destruct stop; injection Hstep as <-; do 2 eexists; (split; [reflexivity|]); split_and!; auto.
    + by intros [? _].
    + cbn; by rewrite app_nil_r.
    + intros _; cbn; rewrite app_nil_r; by apply Ho.
  - injection Hstep as <-; do 2 eexists; split; [reflexivity|]; split_and!; auto.
    intros [? _]; by apply Ho.
  - injection Hstep as <-; do 2 eexists; split; [reflexivity|]; split_and!; auto.
    + apply Hpc; [done|apply Hf].
    + intros [? _]; by apply Ho.
  - destruct stop.
    { injection Hstep as <-; do 2 eexists; split; [reflexivity|]; split_and!; auto; [|by intros [? _]].
      cbn in He |- *; apply Forall_cons in He as [_ He]; by apply Forall_app in He as [_ He]. }
    assert (live false (WAdding (e :: l))) as Hlive by done; specialize (Ho Hlive).
    cbn in He; apply Forall_cons in He as [He Hrest].
    destruct (in_flight_known d t (f_block_tracker f) e _ (wi_tracker _ _ Hw) (fi_tracker _ _ Hf) Ho)
      as [Hk Hb].
    destruct (add_records_to_enclave_ok d _ e _ _ Hw He Hk Hb Ho) as (en & tr & added & Hadd & Hw' & Ho').
    cbn in Hadd; rewrite Hadd in Hstep; cbn in Hstep; injection Hstep as <-.
    do 2 eexists; split; [reflexivity|]; destruct added; split_and!; auto; try (by apply Hw').
    + cbn; by apply Forall_app in Hrest as [_ ?].
    + by intros [_ ?].
  - destruct Hw as [Hk Ht Hwf Hst Hh Hl].
    destruct (update_shared_state_ok pool pool' d keys t shared Hwf Hh Hl)
      as (t' & reason & shared' & Heq & Hadv & Hh' & Hl').
    rewrite Heq in Hstep; cbn in Hstep; injection Hstep as <-; do 2 eexists; split; [reflexivity|].
    pose proof (adv_processed _ _ _ _ _ Hadv) as Hp.
    assert (forall k, next_of t' d k = next_of t d k) as Hn by (intros k; unfold next_of; by rewrite Hp).
    split_and!; auto; [|intros [? _] k; cbn; rewrite Hn; by apply Ho].
    split; cbn; try done.
    + intros k l; rewrite Hp; apply Ht.
    + by eapply advanced_wf.
    + destruct Hst as (store & ? & ? & ? & Hs); exists store; split_and!; try done.
      intros k b; rewrite Hn; apply Hs.
  - done.
  - destruct (f_pc f); try done; injection Hstep as <-; do 2 eexists; split; [reflexivity|]; split_and!; auto.
    intros [? _]; by apply Ho.
  - done.
Qed.

(** ** The whole server *)

Lemma fetcher_inv_grows d d' f : db_grows d d' -> fetcher_inv d f -> fetcher_inv d' f.
Proof.
  intros Hg [Hk Ht [Hnd Hl]]; split; [by eapply known_records_grows|by eapply tracker_ok_grows|].
  split; [done|]; eapply Forall_impl; [exact Hl|]; intros [k b] [Hkk Hb]; simpl in *.
  split; [by eapply known_key_grows|]; by erewrite next_of_grows.
Qed.

Lemma worker_inv_grows d d' w : db_grows d d' -> worker_inv d w -> worker_inv d' w.
Proof.
  intros Hg [Hk Ht Hwf (store & Hst & Hswf & Hfrom & Hserved) Hh Hl]; split; try done;
    [by eapply known_records_grows|by eapply tracker_ok_grows|].
  exists store; split_and!; try done.
  - intros key payload Hkey; destruct (Hfrom key payload Hkey) as (k & b & txs & r & Hb & ?).
    exists k, b, txs, r; split; [by eapply stored_block_grows|done].
  - intros k b Hkb; destruct (decide (is_Some (db_ingress_keys d !! k))) as [Hkk|Hkk].
    + eapply served_grows; [exact Hg|done|]; apply Hserved.
      rewrite <- (next_of_grows d d' Hg _ k Ht Hkk).
      by destruct (known_key_grows d d' Hg k Hkk) as [_ <-].
    + destruct (next_of_unknown d d' _ k Ht Hkk) as [_ Hn]; lia.
Qed.

(** A query leaves the records of the store as they are. *)
Lemma enclave_query_store enclave store msg untrusted enclave' r :
  ve_e_tx_out_store enclave = Some store -> store_wf store ->
  enclave_query enclave msg untrusted = Ret (enclave', r) ->
  exists store', ve_e_tx_out_store enclave' = Some store' /\ store_wf store'
    /\ store_map store' = store_map store.
Proof.
  intros Hst Hwf; unfold enclave_query; destruct (client_decrypt _ _) as [[plain|e] ake]; cbn.
  2: { intros [= <- _]; eauto. }
  destruct (decode_query_request plain) as [req|]; [|intros [= <- _]; eauto]; rewrite Hst.
  destruct (find_records_spec store (qr_get_txos req) Hwf) as (store' & -> & Hwf' & Hm & _); cbn.
  destruct (client_encrypt _ _ _) as [resp ake']; intros [= <- _]; eauto.
Qed.

Lemma worker_inv_store d w enclave store store' :
  worker_inv d w -> ve_e_tx_out_store (w_enclave w) = Some store ->
  ve_e_tx_out_store enclave = Some store' -> store_wf store' -> store_map store' = store_map store ->
  worker_inv d (mkWorker enclave (w_enclave_block_tracker w) (w_shared w) (w_pc w)).
Proof.
  intros [Hk Ht Hwf (st & Hst & Hswf & Hfrom & Hserved) Hh Hl] Hst0 Hst' Hwf' Hm; split; try done.
  rewrite Hst in Hst0; injection Hst0 as <-; exists store'; cbn; split_and!; try done.
  - intros key payload; rewrite Hm; apply Hfrom.
  - intros k b Hkb; eapply served_grows; [apply db_grows_refl| |by apply Hserved]; by rewrite Hm.
Qed.

Lemma view_inv_step s s' : view_inv s -> view_step decode s s' -> view_inv s'.
Proof.
  intros [[Hwf Hnum] Hf Hw He Ho] Hstep; destruct Hstep as [d d' stop f w Hdb Hn'|d stop f w
    |pool d stop f w f' Hs|pool pool' d stop f w f' w' Hs|d stop f w msg untrusted en r Hq|d stop f w ake];
    cbn in *.
  - pose proof (db_step_grows _ _ Hdb) as Hg.
    split; cbn; [split; [by apply (db_step_wf d)|done]|by eapply fetcher_inv_grows
      |by eapply worker_inv_grows| |].
    + eapply Forall_impl; [exact He|]; intros e; by apply stored_block_grows.
    + intros Hlive; eapply in_order_grows; [exact Hg|apply Hw|apply Hf|by apply Ho].
  - by split; cbn; try done; intros [? _].
  - destruct (fetcher_step_ok pool d f w _ _ Hnum Hf Hs He Ho) as (f1 & [= <-] & ? & ? & ?); by split.
  - destruct (worker_step_ok pool pool' d stop f w _ Hf Hw Hs He Ho) as (f1 & w1 & [= <- <-] & ? & ? & ? & ?).
    by split.
  - destruct (wi_store _ _ Hw) as (store & Hst & Hswf & _).
    destruct (enclave_query_store _ _ _ _ _ _ Hst Hswf Hq) as (store' & Hst' & Hwf' & Hm).
    split; cbn; try done; by eapply worker_inv_store.
  - destruct (wi_store _ _ Hw) as (store & Hst & Hswf & _).
    split; cbn; try done; by eapply worker_inv_store.
Qed.

Lemma view_inv_new d enclave capacity :
  db_wf d -> block_numbers_ok d -> ve_e_tx_out_store enclave = Some (ETxOutStore_new capacity) ->
  view_inv (ViewState_new d enclave).
Proof.
  intros Hwf Hnum Hst; pose proof (known_records_nil d) as Hnil.
  assert (tracker_ok d BlockTracker_new) as Ht by (intros k l; simpl; by rewrite lookup_empty).
  split; cbn; [done|split; [done|done|split; constructor]| |constructor|].
  - split; cbn; try done.
    exists (ETxOutStore_new capacity); split_and!; [done|apply ETxOutStore_new_wf| |].
    + intros key payload; by rewrite ETxOutStore_new_map, lookup_empty.
    + intros k b; unfold next_of; simpl; rewrite lookup_empty; lia.
  - intros _ k; unfold next_of; simpl; rewrite lookup_empty, Z.sub_diag; done.
Qed.

Lemma view_inv_reachable s : view_reachable decode s -> view_inv s.
Proof.
  intros (d & capacity & ake & Hd & Hnum & Hr).
  eapply (rtc_ind_r (fun s => view_inv s)); [| |exact Hr].
  - eapply view_inv_new; [by apply db_reachable_wf|done|done].
  - intros s1 s2 _ Hstep Hinv; by eapply view_inv_step.
Qed.

(** A block that is served stays served. *)
Lemma served_step s s' store k b :
  view_inv s -> view_step decode s s' -> ve_e_tx_out_store (w_enclave (v_worker s)) = Some store ->
  key_start (v_db s) k <= b < next_of (w_enclave_block_tracker (v_worker s)) (v_db s) k ->
  key_start (v_db s') k <= b < next_of (w_enclave_block_tracker (v_worker s')) (v_db s') k.
Proof.
  intros Hinv Hstep Hst Hb; pose proof (view_inv_step _ _ Hinv Hstep) as Hinv'.
  destruct Hinv as [_ Hf Hw He Ho]; destruct Hstep as [d d' stop f w Hdb Hn'| |
    |pool pool' d stop f w f' w' Hs| |]; cbn in *; try done.
  - pose proof (db_step_grows _ _ Hdb) as Hg; pose proof (wi_tracker _ _ Hw) as Ht.
    destruct (decide (is_Some (db_ingress_keys d !! k))) as [Hk|Hk].
    + rewrite (next_of_grows d d' Hg _ k Ht Hk); by destruct (known_key_grows d d' Hg k Hk) as [_ ->].
    + destruct (next_of_unknown d d' _ k Ht Hk) as [Hn _]; lia.
  - destruct w as [enclave t shared pc]; destruct pc as [|l|[|e l]|keys| | |]; cbn in Hs; try done.
    + destruct stop; injection Hs as <- <-; done.
    + injection Hs as <- <-; done.
    + injection Hs as <- <-; done.
    + destruct stop; [by injection Hs as <- <-|].
      assert (live false (WAdding (e :: l))) as Hlive by done; specialize (Ho Hlive).
      destruct (in_order_pop _ _ _ _ _ 0 Ho) as [Hidx _]; cbn in Hidx.
      unfold add_records_to_enclave in Hs.
      destruct (enclave_add_records enclave (fr_records e)) as [[en [u|err]]|]; cbn in Hs; try done;
        [|by injection Hs as <- <-].
      destruct (block_processed _ _ _) as [t1|] eqn:Hproc; cbn in Hs; [|done]; injection Hs as <- <-; cbn.
      apply block_processed_ret in Hproc as [-> _]; rewrite next_of_insert.
      cbn in Hb; case_decide; subst; lia.
    + destruct (update_shared_state_ok pool pool' d keys t shared (wi_wf _ _ Hw) (wi_highest _ _ Hw)
        (wi_known _ _ Hw)) as (t' & reason & shared' & Heq & Hadv & _).
      rewrite Heq in Hs; cbn in Hs; injection Hs as <- <-; cbn.
      unfold next_of in *; by rewrite (adv_processed _ _ _ _ _ Hadv).
    + destruct (f_pc f); try done; injection Hs as <- <-; done.
Qed.

(** The enclave finds every record of a served block. *)
Lemma served_found d store k b : store_wf store -> from_db d store -> served d store k b ->
  exists txs, stored_block d k b txs /\ forall r, r ∈ txs ->
    exists store' ct k' b' txs' r', find_record store (etr_search_key r)
        = Ret (store', mkTxOutSearchResult (etr_search_key r) (TxOutSearchResultCode_as_u32 Found) ct)
      /\ stored_block d k' b' txs' /\ r' ∈ txs'
      /\ etr_search_key r' = etr_search_key r /\ etr_payload r' = ct.
Proof.
  intros Hwf Hfrom (txs & Hst & Hall); exists txs; split; [done|]; intros r Hr.
  destruct (Hall r Hr) as [ct Hct]; destruct (Hfrom _ _ Hct) as (k' & b' & txs' & r' & Hst' & Hr' & Hk & Hp).
  destruct (find_record_spec store (etr_search_key r) Hwf) as (store' & Hfind & _).
  exists store', ct, k', b', txs', r'; split; [|done]; rewrite Hfind; unfold find_spec; rewrite Hct.
  assert (is_Some (omap_view (ets_omap store) !! etr_search_key r)) as Hv.
  { unfold store_map in Hct; apply lookup_fmap_Some in Hct as (v & _ & Hv); eauto. }
  destruct Hv as [v Hv]; destruct (store_wf_entry _ Hwf _ _ Hv) as [Hlen _].
  by rewrite Hlen, (omap_view_valid _ _ (ex_intro _ v Hv)).
Qed.

Definition worker_store (s : ViewState) : option ETxOutStore := ve_e_tx_out_store (w_enclave (v_worker s)).

(** C3: The block count the view server publishes is backed by the enclave.
    In every interleaving of the fetcher thread, the worker, the other users
    of the database and the clients: when the worker raises the highest
    processed block count past a block, then for each ingress key it has read
    that covers the block, the database holds the records of the block under
    this key, and from then on a lookup in the enclave finds the search key of
    each of these records, with a payload the database holds for it. *)
Theorem published_count_is_served pool pool' s f' w' b rec s2 :
  view_reachable decode s ->
  worker_step pool pool' (v_db s) (v_stop_requested s) (v_fetcher s) (v_worker s) = Some (Ret (f', w')) ->
  dps_highest_processed_block_count (w_shared (v_worker s)) <= b
    < dps_highest_processed_block_count (w_shared w') ->
  rec ∈ counting (w_pc (v_worker s)) -> covers_block_index rec b = true ->
  rtc (view_step decode) (mkViewState (v_db s) (v_stop_requested s) f' w') s2 ->
  exists store txs, worker_store s2 = Some store /\ stored_block (v_db s2) (kr_key rec) b txs
    /\ forall r, r ∈ txs ->
      exists store' ct k' b' txs' r', find_record store (etr_search_key r)
          = Ret (store', mkTxOutSearchResult (etr_search_key r) (TxOutSearchResultCode_as_u32 Found) ct)
        /\ stored_block (v_db s2) k' b' txs' /\ r' ∈ txs'
        /\ etr_search_key r' = etr_search_key r /\ etr_payload r' = ct.
Proof.
  intros Hreach Hstep Hb Hrec Hcov Hlater; pose proof (view_inv_reachable _ Hreach) as Hinv.
  destruct s as [d stop f [enclave t shared pc]]; cbn in *.
  assert (view_step decode (mkViewState d stop f (mkWorker enclave t shared pc)) (mkViewState d stop f' w'))
    as Hv by by eapply v_work.
  pose proof (view_inv_step _ _ Hinv Hv) as Hinv'.
  destruct pc as [| | |keys| | |]; try by apply not_elem_of_nil in Hrec.
  destruct (vi_worker _ Hinv) as [Hk Ht Hwf _ Hh Hl]; cbn in Hk, Ht, Hwf, Hh, Hl.
  destruct (update_shared_state_ok pool pool' d keys t shared Hwf Hh Hl)
    as (t' & reason & shared' & Heq & Hadv & Hh' & _).
  cbn in Hstep; rewrite Heq in Hstep; cbn in Hstep; injection Hstep as <- <-; cbn in *.
  rewrite Hh, Hh' in Hb; destruct (adv_sound _ _ _ _ _ Hadv b rec Hb Hrec Hcov) as (l & Hlk & Hbl).
  pose proof (proj2 Hk) as Hks; eapply Forall_forall in Hks as [_ Hs]; [|exact Hrec].
  apply covers_above_start in Hcov; rewrite Hs in Hcov.
  assert (key_start d (kr_key rec) <= b < next_of t' d (kr_key rec)) as Hrange.
  { unfold next_of; rewrite (adv_processed _ _ _ _ _ Hadv), Hlk; lia. }
  assert (view_inv s2 /\ key_start (v_db s2) (kr_key rec) <= b
    < next_of (w_enclave_block_tracker (v_worker s2)) (v_db s2) (kr_key rec)) as [Hinv2 Hrange2].
  { clear -Hlater Hinv' Hrange L; eapply (rtc_ind_r (fun s => view_inv s /\ key_start (v_db s) (kr_key rec) <= b
      < next_of (w_enclave_block_tracker (v_worker s)) (v_db s) (kr_key rec))); [done| |exact Hlater].
    intros s1 s3 _ Hs [Hi Hr]; split; [by eapply view_inv_step|].
    destruct (wi_store _ _ (vi_worker _ Hi)) as (store & Hst & _); by eapply served_step. }
  destruct (wi_store _ _ (vi_worker _ Hinv2)) as (store & Hst & Hswf & Hfrom & Hserved).
  destruct (served_found _ _ _ _ Hswf Hfrom (Hserved _ _ Hrange2)) as (txs & ? & ?).
  by exists store, txs.
Qed.

(** C24: The threads of the view server never panic: in every reachable state
    the assertions on the order of blocks, that the last known block count
    only moves forward, and the computation of the block count hold, so no
    mutex is ever poisoned. *)
Theorem view_threads_never_panic s pool pool' :
  view_reachable decode s ->
  fetcher_step decode pool (v_db s) (v_fetcher s) <> Some Panic
  /\ worker_step pool pool' (v_db s) (v_stop_requested s) (v_fetcher s) (v_worker s) <> Some Panic.
Proof.
  intros Hr; destruct (view_inv_reachable _ Hr) as [[_ Hnum] Hf Hw He Ho]; split; intros Hp.
  - by destruct (fetcher_step_ok _ _ _ _ _ _ Hnum Hf Hp He Ho) as (? & ? & _).
  - by destruct (worker_step_ok _ _ _ _ _ _ _ Hf Hw Hp He Ho) as (? & ? & ? & _).
Qed.

(** ** The queue *)

Definition queued (f : Fetcher) : Z :=
  zsum ((fun e => Z.of_nat (length (fr_records e))) <$> fetched_records (f_shared f)).
Definition uncounted (pc : FetcherPc) : Z := match pc with FWaiting n _ => n | _ => 0 end.

(** Right after the queue was taken its count is an upper bound for it; the
    reset of the count forgets what was queued in between. *)
Definition queue_ok (n : Z) (f : Fetcher) (w : Worker) : Prop :=
  0 <= f_num_queued_records f <= MAX_QUEUED_RECORDS + n
  /\ 0 <= uncounted (f_pc f) <= n
  /\ queued f <= f_num_queued_records f + uncounted (f_pc f)
     + match w_pc w with WDrained _ => 0 | _ => MAX_QUEUED_RECORDS + n end.

Lemma get_tx_outs_decoded pool d k b txs :
  (get_tx_outs_by_block_and_key pool decode k b d).1 = Ok (Some txs) -> exists bs, decode bs = Ok txs.
Proof.
  unfold get_tx_outs_by_block_and_key, with_conn; destruct pool as [u|e]; [|done].
  unfold mbind, tx_bind, tx_get.
  destruct (rows_by_block_and_key k b d) as [|row [|]]; simpl; try done.
  unfold mbind, tx_bind, tx_lift; destruct (decode _) as [txs'|] eqn:Hdec; [|done]; simpl.
  intros [= ->]; eauto.
Qed.

Section bound.
Context (n : Z) (Hn : 0 <= n) (Hfit : MAX_QUEUED_RECORDS + n < u64_modulus).
Context (Hdecode : forall bs txs, decode bs = Ok txs -> Z.of_nat (length txs) <= n).

Lemma fetcher_queue_ok pool d f w f' :
  queue_ok n f w -> fetcher_step decode pool d f = Some (Ret f') -> queue_ok n f' w.
Proof.
  intros (Hc & Hu & Hq) Hs; destruct f as [st sh c t pc]; unfold queue_ok, queued in *; cbn in Hc, Hu, Hq.
  destruct pc as [| |more [|[k b] l]|m l|]; cbn in Hs, Hu, Hq.
  - unfold load_ingress_keys in Hs; destruct st; [by injection Hs as <-|].
    by destruct (get_ingress_key_records _ _ _).1; injection Hs as <-.
  - by injection Hs as <-.
  - injection Hs as <-; cbn; by destruct (_ && _).
  - unfold load_block in Hs; destruct (get_tx_outs_by_block_and_key _ _ _ _ _).1 as [[txs|]|] eqn:Hg;
      [|by injection Hs as <-..].
    destruct (block_processed t k b) as [t'|]; cbn in Hs; [|done]; injection Hs as <-; cbn.
    apply get_tx_outs_decoded in Hg as [bs Hbs]; pose proof (Hdecode _ _ Hbs).
    rewrite fmap_app, zsum_app; cbn; lia.
  - destruct (c >? MAX_QUEUED_RECORDS) eqn:Ec; [done|]; injection Hs as <-; cbn.
    rewrite Z.gtb_ltb in Ec; bool_to_prop; rewrite u64_add_small by (unfold is_u64; lia); lia.
  - done.
Qed.

Lemma worker_queue_ok pool pool' d stop f w f' w' :
  queue_ok n f w -> worker_step pool pool' d stop f w = Some (Ret (f', w')) -> queue_ok n f' w'.
Proof.
  intros (Hc & Hu & Hq) Hs; destruct w as [enclave t shared pc]; unfold queue_ok, queued in *.
  assert (0 <= MAX_QUEUED_RECORDS) as HM by done.
  destruct pc as [|l|[|e l]|keys| | |]; cbn in Hs, Hq; try done.
  - destruct stop; injection Hs as <- <-; cbn; [done|lia].
  - injection Hs as <- <-; cbn; lia.
  - injection Hs as <- <-; cbn; lia.
  - destruct stop; [injection Hs as <- <-; cbn; lia|].
    destruct (add_records_to_enclave _ _ _ _ _) as [[[en tr] []]|]; cbn in Hs; try done;
      injection Hs as <- <-; cbn; lia.
  - destruct (update_shared_state _ _ _ _ _ _) as [[tr sh]|]; cbn in Hs; [|done].
    injection Hs as <- <-; cbn; lia.
  - destruct (f_pc f) eqn:Ef; try done; injection Hs as <- <-; cbn; rewrite Ef; lia.
Qed.

(** The queue of fetched records is bounded: with at most [n] records in a
    block it never holds more than twice [MAX_QUEUED_RECORDS] and the records
    of three blocks, however the fetcher is scheduled between the two locks
    of the consumer, and its count never wraps around. *)
Theorem queue_bounded s : view_reachable decode s ->
  queued (v_fetcher s) <= 2 * MAX_QUEUED_RECORDS + 3 * n
  /\ 0 <= f_num_queued_records (v_fetcher s) <= MAX_QUEUED_RECORDS + n.
Proof.
  intros (d & capacity & ake & _ & _ & Hr).
  assert (queue_ok n (v_fetcher s) (v_worker s)) as (Hc & Hu & Hq).
  { eapply (rtc_ind_r (fun s => queue_ok n (v_fetcher s) (v_worker s))); [| |exact Hr].
    - unfold queue_ok, queued; cbn; assert (0 <= MAX_QUEUED_RECORDS) by done; lia.
    - intros s1 s2 _ Hs Hok; destruct Hs; cbn in *; try done;
        [by eapply fetcher_queue_ok|by eapply worker_queue_ok]. }
  split; [|done]; assert (0 <= MAX_QUEUED_RECORDS) by done; destruct (w_pc (v_worker s)); lia.
Qed.
End bound.

(** ** Stopping *)

(** Stopping the server can hang forever.  The worker that sees the stop
    request joins the fetcher thread without draining the queue again; if the
    fetcher is waiting because the queue is full, nothing ever wakes it, and
    in no later state has either thread stopped. *)
Theorem stop_hangs_on_full_queue s s' n blocks :
  w_pc (v_worker s) = WStopping -> f_pc (v_fetcher s) = FWaiting n blocks ->
  MAX_QUEUED_RECORDS < f_num_queued_records (v_fetcher s) ->
  rtc (view_step decode) s s' ->
  w_pc (v_worker s') = WStopping /\ f_pc (v_fetcher s') = FWaiting n blocks.
Proof.
  intros Hw Hf Hq Hr.
  assert (w_pc (v_worker s') = WStopping /\ f_pc (v_fetcher s') = FWaiting n blocks
    /\ MAX_QUEUED_RECORDS < f_num_queued_records (v_fetcher s')) as (? & ? & _); [|done].
  eapply (rtc_ind_r (fun s => w_pc (v_worker s) = WStopping /\ f_pc (v_fetcher s) = FWaiting n blocks
    /\ MAX_QUEUED_RECORDS < f_num_queued_records (v_fetcher s))); [done| |exact Hr].
  intros s1 s2 _ Hs (Hw1 & Hf1 & Hq1); destruct Hs as [|
    |pool d stop f w f' Hs|pool pool' d stop f w f' w' Hs| |]; cbn in *; try done.
  - destruct f as [st sh c t pc]; cbn in *; subst pc; cbn in Hs.
    rewrite (proj2 (Z.gtb_lt _ _) Hq1) in Hs; done.
  - destruct w as [en t sh pc]; cbn in *; subst pc; cbn in Hs; by rewrite Hf1 in Hs.
Qed.

End spec.
