(* ===== verification/ViewServerExamples.v ===== *)
(** * Executions of the view server

    Interleavings of the threads of the view server on a concrete database,
    the properties of [ViewServerSpec.v] applied to them, and an interleaving
    in which the published block count passes over a block of a key the
    fetcher has not heard of. *)

From S2P Require Import Prelude FogTypes RecoveryTypes.
From S2P Require Import BlockTracker ObliviousMap ViewEnclave.
From S2P Require Import RecoveryDb RecoveryDbWf ViewServer ViewServerSpec.

Local Open Scope Z_scope.

#[local] Existing Instance canonical_iter.

(** A block is one byte, its single record is numbered by it; [9] stands for a huge block. *)
Definition view_record (i : Z) : ETxOutRecord := mkETxOutRecord (demo_key i) (demo_payload i).
Definition view_decode (big : nat) (bs : bytes) : result (list ETxOutRecord) Z :=
  match bs with
  | [i] => Ok (if i =? 9 then replicate big (view_record 9) else [view_record i])
  | _ => Err 0
  end.
Definition view_encode (txs : list ETxOutRecord) : result bytes Z :=
  match txs with
  | r :: _ => Ok (take 1 (etr_search_key r))
  | [] => Err 0
  end.

(** ** Scripts *)

(** A step of one of the threads, a call on the database, or the stop request. *)
Inductive Action :=
| Fetch
| Work
| Stop
| Call (op : Db -> Db).

Definition numbers_okb (d : Db) : bool := forallb (fun b => 0 <=? ib_block_number b) (db_ingested_blocks d).

Section script.
Context (decode : bytes -> result (list ETxOutRecord) Z).

Definition perform (a : Action) (s : ViewState) : option ViewState :=
  let 'mkViewState d stop f w := s in
  match a with
  | Fetch => match fetcher_step decode (Ok tt) d f with
             | Some (Ret f') => Some (mkViewState d stop f' w)
             | _ => None
             end
  | Work => match worker_step (Ok tt) (Ok tt) d stop f w with
            | Some (Ret (f', w')) => Some (mkViewState d stop f' w')
            | _ => None
            end
  | Stop => Some (mkViewState d true f w)
  | Call op => if numbers_okb (op d) then Some (mkViewState (op d) stop f w) else None
  end.

Fixpoint script (l : list Action) (s : ViewState) : option ViewState :=
  match l with
  | [] => Some s
  | a :: l => match perform a s with Some s => script l s | None => None end
  end.

Definition action_ok (a : Action) : Prop :=
  match a with Call op => forall d, db_step d (op d) | _ => True end.

Lemma script_steps l s s' : Forall action_ok l -> script l s = Some s' -> rtc (view_step decode) s s'.
Proof.
  intros Hl; revert s; induction Hl as [|a l Ha Hl IH]; intros s; simpl; [by intros [= ->]|].
  destruct (perform a s) as [s1|] eqn:Hp; [|done]; intros Hs; eapply rtc_l; [|by apply IH].
  destruct s as [d stop f w]; destruct a as [| | |op]; cbn in Hp.
  - destruct (fetcher_step _ _ _ _) as [[f'|]|] eqn:E; try done; injection Hp as <-; by eapply v_fetch.
  - destruct (worker_step _ _ _ _ _ _) as [[[f' w']|]|] eqn:E; try done; injection Hp as <-.
    by eapply v_work.
  - injection Hp as <-; apply v_stop.
  - destruct (numbers_okb (op d)) eqn:E; [|done]; injection Hp as <-; apply v_database; [apply Ha|].
    apply Forall_forall; intros b Hb; unfold numbers_okb in E; rewrite forallb_forall in E.
    apply list_elem_of_In, E in Hb; by apply Z.leb_le in Hb.
Qed.
End script.

(** ** A database *)

Definition op_key (key : bytes) (start : Z) (d : Db) : Db := (new_ingress_key (Ok tt) key start d).2.
Definition op_invocation (key egress : bytes) (start : Z) (d : Db) : Db :=
  (new_ingest_invocation (Ok tt) 0 None key (mkKexRngPubkey egress 0) start d).2.
Definition op_block (iid index i : Z) (d : Db) : Db :=
  (add_block_data (Ok tt) 0 view_encode iid (mkBlockHeader index (index + 1)) 100 [view_record i] d).2.

Lemma op_key_ok key start : action_ok (Call (op_key key start)).
Proof. intros d; apply step_new_ingress_key. Qed.
Lemma op_invocation_ok key egress start : action_ok (Call (op_invocation key egress start)).
Proof. intros d; apply step_new_ingest_invocation. Qed.
Lemma op_block_ok iid index i : action_ok (Call (op_block iid index i)).
Proof. intros d; apply step_add_block_data. Qed.

(** Key 1 with blocks 0 and 1. *)
Definition view_db (i j : Z) : Db :=
  op_block 1 1 j (op_block 1 0 i (op_invocation [1] [11] 0 (op_key [1] 0 db_empty))).

Lemma view_db_reachable i j : db_reachable (view_db i j).
Proof.
  unfold db_reachable, view_db; do 4 (eapply rtc_r; [|solve [apply step_add_block_data
    |apply step_new_ingest_invocation|apply step_new_ingress_key]]); apply rtc_refl.
Qed.

#[local] Existing Instance demo_omap.
Definition view_start (i j : Z) : @ViewState demo_omap demo_ake :=
  ViewState_new (view_db i j) (mkViewEnclave (Some (ETxOutStore_new 8)) tt).

Lemma script_reachable decode i j l s : numbers_okb (view_db i j) = true -> Forall action_ok l ->
  script decode l (view_start i j) = Some s -> view_reachable decode s.
Proof.
  intros Hn Hl Hs; exists (view_db i j), 8, tt; split; [apply view_db_reachable|].
  split; [|by eapply script_steps].
  apply Forall_forall; intros b Hb; unfold numbers_okb in Hn; rewrite forallb_forall in Hn.
  apply list_elem_of_In, Hn in Hb; by apply Z.leb_le in Hb.
Qed.

(** ** Counting with old keys *)

(** The fetcher reads the keys and loads block 0; a second key appears whose
    blocks start at 1, and its block 1 is stored; the fetcher, busy, loads
    block 1 of the first key without reading the keys again. *)
Definition fetch_first : list Action := [Fetch; Fetch; Fetch; Fetch; Fetch].
Definition second_key : list Action :=
  [Call (op_key [2] 1); Call (op_invocation [2] [12] 1); Call (op_block 2 1 3)].
Definition fetch_more : list Action := [Fetch; Fetch; Fetch].
Definition work_round : list Action := [Work; Work; Work; Work; Work].

Definition skip_script : list Action := fetch_first ++ second_key ++ fetch_more ++ work_round.

Lemma skip_script_ok : Forall action_ok skip_script.
Proof.
  repeat (apply Forall_cons; split; [solve [exact I|apply op_key_ok|apply op_invocation_ok|apply op_block_ok]|]);
    constructor.
Qed.

(** The second key's record, as the database returns it, and the result code of a lookup. *)
Definition second_record (d : Db) : option IngressPublicKeyRecord :=
  match (get_ingress_key_records (Ok tt) 0 d).1 with
  | Ok recs => list_find (fun r => kr_key r = [2]) recs ≫= fun e => Some e.2
  | Err _ => None
  end.
Definition lookup_code (s : ViewState) (key : bytes) : option Z :=
  store ← worker_store s;
  '(_, res) ← run_ok (find_record store key);
  Some (tsr_result_code res).

(** C38: The block count that is published can pass over blocks of a key the
    server should know: the fetcher keeps its list of ingress keys while it
    finds blocks to load.  In this run the count is 2 and the database lists
    a key that covers block 1 and holds a record for it, but the enclave
    answers that there is no such record. *)
Theorem stale_keys_skip_block :
  exists s rec, view_reachable (view_decode 1) s
    /\ dps_highest_processed_block_count (w_shared (v_worker s)) = 2
    /\ second_record (v_db s) = Some rec /\ covers_block_index rec 1 = true
    /\ (get_tx_outs_by_block_and_key (Ok tt) (view_decode 1) (kr_key rec) 1 (v_db s)).1
       = Ok (Some [view_record 3])
    /\ lookup_code s (demo_key 3) = Some (TxOutSearchResultCode_as_u32 NotFound).
Proof.
  assert (match script (view_decode 1) (skip_script ++ [Work]) (view_start 1 2) with
    | Some s => match second_record (v_db s) with
        | Some rec => (dps_highest_processed_block_count (w_shared (v_worker s)) =? 2)
            && covers_block_index rec 1
            && bool_decide ((get_tx_outs_by_block_and_key (Ok tt) (view_decode 1) (kr_key rec) 1 (v_db s)).1
                 = Ok (Some [view_record 3]))
            && bool_decide (lookup_code s (demo_key 3) = Some (TxOutSearchResultCode_as_u32 NotFound))
        | None => false end
    | None => false end = true) as Hrun by (vm_compute; reflexivity).
  destruct (script _ _ _) as [s|] eqn:Hs; [|discriminate Hrun].
  assert (view_reachable (view_decode 1) s) as Hreach.
  { refine (script_reachable (view_decode 1) 1 2 (skip_script ++ [Work]) s _ _ Hs); [vm_compute; reflexivity|].
    apply Forall_app; split; [apply skip_script_ok|repeat constructor]. }
  clear Hs; destruct (second_record (v_db s)) as [rec|] eqn:Hrec; [|discriminate Hrun].
  bool_to_prop; exists s, rec; by split_and!.
Qed.

(** ** The properties on these runs *)

Definition first_record (pc : WorkerPc) : option IngressPublicKeyRecord := head (counting pc).

Lemma published_count_is_served_witness :
  exists s f' w' rec store txs,
    view_reachable (view_decode 1) s
    /\ worker_step (Ok tt) (Ok tt) (v_db s) (v_stop_requested s) (v_fetcher s) (v_worker s)
       = Some (Ret (f', w'))
    /\ first_record (w_pc (v_worker s)) = Some rec
    /\ stored_block (view_decode 1) (v_db s) (kr_key rec) 1 txs
    /\ ve_e_tx_out_store (w_enclave w') = Some store
    /\ forall r, r ∈ txs -> exists store' ct, find_record store (etr_search_key r)
         = Ret (store', mkTxOutSearchResult (etr_search_key r) (TxOutSearchResultCode_as_u32 Found) ct).
Proof.
  assert (match script (view_decode 1) skip_script (view_start 1 2) with
    | Some s => match first_record (w_pc (v_worker s)),
        worker_step (Ok tt) (Ok tt) (v_db s) (v_stop_requested s) (v_fetcher s) (v_worker s) with
        | Some rec, Some (Ret (f', w')) =>
            (dps_highest_processed_block_count (w_shared (v_worker s)) <=? 1)
            && (1 <? dps_highest_processed_block_count (w_shared w')) && covers_block_index rec 1
        | _, _ => false end
    | None => false end = true) as Hrun by (vm_compute; reflexivity).
  destruct (script _ _ _) as [s|] eqn:Hs; [|discriminate Hrun].
  assert (view_reachable (view_decode 1) s) as Hreach.
  { refine (script_reachable (view_decode 1) 1 2 skip_script s _ skip_script_ok Hs); vm_compute; reflexivity. }
  clear Hs; destruct (first_record _) as [rec|] eqn:Hrec; [|discriminate Hrun].
  destruct (worker_step _ _ _ _ _ _) as [[[f' w']|]|] eqn:Hw; try discriminate Hrun; bool_to_prop.
  assert (rec ∈ counting (w_pc (v_worker s))) as Hin by by apply head_Some_elem_of.
  assert (dps_highest_processed_block_count (w_shared (v_worker s)) <= 1
    < dps_highest_processed_block_count (w_shared w')) as Hb by done.
  destruct (published_count_is_served (view_decode 1) (Ok tt) (Ok tt) s f' w' 1 rec
    (mkViewState (v_db s) (v_stop_requested s) f' w') Hreach Hw Hb Hin ltac:(assumption)
    (rtc_refl _ _)) as (store & txs & Hst & Hblock & Hfound).
  exists s, f', w', rec, store, txs; split_and!; try done.
  intros r Hr; destruct (Hfound r Hr) as (store' & ct & _ & _ & _ & _ & Hf & _); eauto.
Defined.

Lemma view_threads_never_panic_witness :
  exists s, view_reachable (view_decode 1) s
    /\ fetcher_step (view_decode 1) (Ok tt) (v_db s) (v_fetcher s) <> Some Panic.
Proof.
  assert (view_reachable (view_decode 1) (view_start 1 2)) as Hreach.
  { refine (script_reachable (view_decode 1) 1 2 [] _ _ (Forall_nil_2 _) eq_refl); vm_compute; reflexivity. }
  exists (view_start 1 2); split; [exact Hreach|].
  apply (view_threads_never_panic (view_decode 1) _ (Ok tt) (Ok tt) Hreach).
Defined.

Lemma view_decode_length bs txs : view_decode 1 bs = Ok txs -> Z.of_nat (length txs) <= 1.
Proof.
  unfold view_decode; destruct bs as [|i [|]]; try done; intros [= <-]; by destruct (i =? 9).
Qed.

Lemma queue_bounded_witness :
  queued (v_fetcher (view_start 1 2)) <= 2 * MAX_QUEUED_RECORDS + 3.
Proof.
  assert (view_reachable (view_decode 1) (view_start 1 2)) as Hreach.
  { refine (script_reachable (view_decode 1) 1 2 [] _ _ (Forall_nil_2 _) eq_refl); vm_compute; reflexivity. }
  exact (proj1 (queue_bounded (view_decode 1) 1 ltac:(lia) ltac:(done) view_decode_length _ Hreach)).
Defined.

(** Two huge blocks: the first fills the queue, the fetcher waits with the
    second, and the server is told to stop. *)
Definition full_script : list Action :=
  [Fetch; Fetch; Fetch; Fetch; Fetch; Fetch; Fetch; Stop; Work].

Lemma stop_hangs_on_full_queue_witness :
  exists s n blocks, view_reachable (view_decode (Z.to_nat 600000)) s /\ v_stop_requested s = true
    /\ forall s', rtc (view_step (view_decode (Z.to_nat 600000))) s s' ->
       w_pc (v_worker s') = WStopping /\ f_pc (v_fetcher s') = FWaiting n blocks.
Proof.
  assert (match script (view_decode (Z.to_nat 600000)) full_script (view_start 9 9) with
    | Some s => match w_pc (v_worker s), f_pc (v_fetcher s) with
        | WStopping, FWaiting _ _ => v_stop_requested s
            && (MAX_QUEUED_RECORDS <? f_num_queued_records (v_fetcher s))
        | _, _ => false end
    | None => false end = true) as Hrun by (vm_compute; reflexivity).
  destruct (script _ _ _) as [s|] eqn:Hs; [|discriminate Hrun].
  assert (view_reachable (view_decode (Z.to_nat 600000)) s) as Hreach.
  { refine (script_reachable _ 9 9 full_script s _ _ Hs); [vm_compute; reflexivity|repeat constructor]. }
  clear Hs; destruct (w_pc (v_worker s)) eqn:Hw; try discriminate Hrun.
  destruct (f_pc (v_fetcher s)) as [| | |n blocks|] eqn:Hf; try discriminate Hrun; bool_to_prop.
  exists s, n, blocks; split; [exact Hreach|]; split; [assumption|]; intros s' Hr.
  exact (stop_hangs_on_full_queue (view_decode (Z.to_nat 600000)) s s' n blocks Hw Hf ltac:(assumption) Hr).
Defined.
