(* ===== verification/LedgerServer.v ===== *)
(** * The ledger enclave and server (src/fog/ledger)

    The query types (fog_types/src/ledger.rs), the calls of the ledger enclave
    (enclave/impl/src/lib.rs) and the four services of the ledger server
    (server/src): key images, membership proofs, blocks and the untrusted
    lookup of outputs.  The services read a ledger database that another
    process appends to, so every access to it may find more blocks than the one
    before: an access returns the database it leaves behind.  The status of a
    failed request is named by the helper that builds it. *)

From S2P Require Import Prelude FogTypes ViewEnclave.

Local Open Scope Z_scope.
Local Open Scope fog_scope.

(** ** fog_types/src/ledger.rs *)

Record GetOutputsRequest := mkGetOutputsRequest {
  gor_indices : list Z;
  gor_merkle_root_block : Z;
}.

Record OutputResult (Proof : Type) := mkOutputResult {
  our_index : Z;
  our_result_code : Z;
  our_output : TxOut;
  our_proof : Proof;
}.
Global Arguments mkOutputResult {Proof} _ _ _ _.
Global Arguments our_index {Proof} _.
Global Arguments our_result_code {Proof} _.
Global Arguments our_output {Proof} _.
Global Arguments our_proof {Proof} _.

Record GetOutputsResponse (Proof : Type) := mkGetOutputsResponse {
  gos_results : list (OutputResult Proof);
  gos_num_blocks : Z;
  gos_global_txo_count : Z;
}.
Global Arguments mkGetOutputsResponse {Proof} _ _ _.
Global Arguments gos_results {Proof} _.
Global Arguments gos_num_blocks {Proof} _.
Global Arguments gos_global_txo_count {Proof} _.

Record KeyImageQuery := mkKeyImageQuery {
  kiq_key_image : bytes;
  kiq_start_block : Z;
}.

Record CheckKeyImagesRequest := mkCheckKeyImagesRequest {
  ckr_queries : list KeyImageQuery;
}.

Record KeyImageResult := mkKeyImageResult {
  kir_key_image : bytes;
  kir_spent_at : Z;
  kir_timestamp : Z;
  kir_timestamp_result_code : Z;
  kir_key_image_result_code : Z;
}.

Record CheckKeyImagesResponse := mkCheckKeyImagesResponse {
  cks_num_blocks : Z;
  cks_global_txo_count : Z;
  cks_results : list KeyImageResult;
}.

Inductive KeyImageResultCode := Spent | NotSpent | KeyImageError.

#[export] Instance KeyImageResultCode_eq_dec : EqDecision KeyImageResultCode.
Proof. solve_decision. Defined.

Definition KeyImageResultCode_as_u32 (c : KeyImageResultCode) : Z :=
  match c with Spent => 1 | NotSpent => 2 | KeyImageError => 3 end.

Definition KeyImageResultCode_try_from (src : Z) : result KeyImageResultCode unit :=
  if src =? KeyImageResultCode_as_u32 Spent then Ok Spent
  else if src =? KeyImageResultCode_as_u32 NotSpent then Ok NotSpent
  else if src =? KeyImageResultCode_as_u32 KeyImageError then Ok KeyImageError
  else Err tt.

(** The result codes of the other queries (ledger.proto). *)
Inductive OutputResultCode := IntentionallyUnused | DoesNotExist | Exists | OutputDatabaseError.

Definition OutputResultCode_as_u32 (c : OutputResultCode) : Z :=
  match c with
  | IntentionallyUnused => 0 | DoesNotExist => 1 | Exists => 2 | OutputDatabaseError => 3
  end.

Inductive TxOutResultCode := TxOutNotFound | TxOutFound | MalformedRequest | DatabaseError.

#[export] Instance TxOutResultCode_eq_dec : EqDecision TxOutResultCode.
Proof. solve_decision. Defined.

(** The messages of the two services that are not attested (ledger.proto). *)
Record TxOutResult := mkTxOutResult {
  txr_tx_out_pubkey : option bytes;
  txr_result_code : TxOutResultCode;
  txr_tx_out_global_index : Z;
  txr_block_index : Z;
  txr_timestamp : Z;
  txr_timestamp_result_code : Z;
}.

Record TxOutResponse := mkTxOutResponse {
  txs_results : list TxOutResult;
  txs_num_blocks : Z;
  txs_global_txo_count : Z;
}.

Record BlockData (ExternalTxOut : Type) := mkBlockData {
  bd_index : Z;
  bd_global_txo_count : Z;
  bd_outputs : list ExternalTxOut;
  bd_timestamp : Z;
  bd_timestamp_result_code : Z;
}.
Global Arguments mkBlockData {ExternalTxOut} _ _ _ _ _.
Global Arguments bd_index {ExternalTxOut} _.
Global Arguments bd_global_txo_count {ExternalTxOut} _.
Global Arguments bd_outputs {ExternalTxOut} _.

Record BlockResponse (ExternalTxOut : Type) := mkBlockResponse {
  brs_blocks : list (BlockData ExternalTxOut);
  brs_num_blocks : Z;
  brs_global_txo_count : Z;
}.
Global Arguments mkBlockResponse {ExternalTxOut} _ _ _.
Global Arguments brs_blocks {ExternalTxOut} _.
Global Arguments brs_num_blocks {ExternalTxOut} _.
Global Arguments brs_global_txo_count {ExternalTxOut} _.

(** ** The ledger and watcher databases *)

(** The error of the ledger database: the variant the services look for, and
    whatever else it returns. *)
Inductive LedgerDbError :=
| DbNotFound
| OtherDbError (code : Z).

Class Ledger := {
  World : Type;
  MembershipProof : Type;
  ExternalTxOut : Type;
  num_blocks : World -> result Z LedgerDbError * World;
  num_txos : World -> result Z LedgerDbError * World;
  check_key_image : bytes -> World -> result (option Z) LedgerDbError * World;
  get_tx_out_by_index : Z -> World -> result TxOut LedgerDbError * World;
  get_tx_out_proof_of_memberships : list Z -> World -> result (list MembershipProof) LedgerDbError * World;
  get_tx_out_index_by_public_key : bytes -> World -> result Z LedgerDbError * World;
  get_block_index_by_tx_out_index : Z -> World -> result Z LedgerDbError * World;
  get_block_contents_outputs : Z -> World -> result (list TxOut) LedgerDbError * World;
  get_block_cumulative_txo_count : Z -> World -> result Z LedgerDbError * World;
  get_block_timestamp : Z -> World -> result (Z * Z) Z * World;
  WatcherDatabaseError : Z;
  default_tx_out : TxOut;
  default_proof : MembershipProof;
  external_tx_out : TxOut -> ExternalTxOut;
  compressed_try_from : bytes -> result bytes KeyError;
}.

(** The messages of the enclave. *)
Class LedgerCodec `{L : Ledger} := {
  decode_get_outputs_request : bytes -> option GetOutputsRequest;
  encode_get_outputs_response : GetOutputsResponse MembershipProof -> bytes;
  decode_check_key_images_request : bytes -> option CheckKeyImagesRequest;
  encode_check_key_images_response : CheckKeyImagesResponse -> bytes;
}.

(** Code that reads the databases, may fail and may panic. *)
Definition io `{L : Ledger} (A : Type) : Type := World -> run (A * World).

Definition io_ret `{L : Ledger} {A} (x : A) : io A := fun w => Ret (x, w).

Definition io_bind `{L : Ledger} {A B} (m : io A) (k : A -> io B) : io B :=
  fun w => '(x, w) ← m w; k x w.

Definition io_access `{L : Ledger} {A} (f : World -> A * World) : io A := fun w => Ret (f w).

(** Continue with the value, return the error. *)
Definition io_try `{L : Ledger} {A B E} (m : io (result A E)) (k : A -> io (result B E))
  : io (result B E) :=
  io_bind m (fun r => match r with Ok x => k x | Err e => io_ret (Err e) end).

Notation "'let!' x := m 'in' k" := (io_bind m (fun x => k))
  (at level 10, x pattern, m at level 100, k at level 200) : fog_scope.
Notation "'let!?' x := m 'in' k" := (io_try m (fun x => k))
  (at level 10, x pattern, m at level 100, k at level 200) : fog_scope.

Definition io_map_err `{L : Ledger} {A E F} (f : E -> F) (m : io (result A E)) : io (result A F) :=
  let! r := m in io_ret (map_err f r).

(** [iter().map(f).collect()], for an [f] that cannot fail ... *)
Fixpoint io_map `{L : Ledger} {A B} (f : A -> io B) (l : list A) : io (list B) :=
  match l with
  | [] => io_ret []
  | x :: l => let! y := f x in let! ys := io_map f l in io_ret (y :: ys)
  end.

(** ... and into a [Result], which stops at the first error. *)
Fixpoint io_map_try `{L : Ledger} {A B E} (f : A -> io (result B E)) (l : list A)
  : io (result (list B) E) :=
  match l with
  | [] => io_ret (Ok [])
  | x :: l => let!? y := f x in let!? ys := io_map_try f l in io_ret (Ok (y :: ys))
  end.

(** ** enclave/impl/src/lib.rs *)

Record OutputContext := mkOutputContext {
  oc_indexes : list Z;
  oc_merkle_root_block : Z;
}.

Record KeyImageContext := mkKeyImageContext { kic_key_images : list bytes }.

(** The status of a failed request, by the helper that builds it. *)
Inductive RpcError :=
| RpcInvalidArg
| RpcInternal
| RpcDatabase
| RpcPermissions
| RpcUnauthenticated (code : Z).

Section ledger_server.
Context `{L : Ledger} `{A : Ake} `{C : !LedgerCodec}.

Inductive LedgerEnclaveError :=
| LedgerSgx (code : Z)
| LedgerAttest (e : AttestEnclaveError)
| LedgerSerialization
| LedgerPoison.

Definition ledger_enclave_init (ake : AkeState) (self_id : ResponderId)
  : AkeState * result unit LedgerEnclaveError :=
  let '(r, ake) := ake_init ake self_id in (ake, map_err LedgerAttest r).

Definition get_outputs (ake : AkeState) (msg : EnclaveMessage)
  : AkeState * result OutputContext LedgerEnclaveError :=
  let '(request_bytes, ake) := client_decrypt ake msg in
  (ake,
   let? request_bytes := map_err LedgerAttest request_bytes in
   match decode_get_outputs_request request_bytes with
   | None => Err LedgerSerialization
   | Some enclave_request =>
       Ok (mkOutputContext (gor_indices enclave_request) (gor_merkle_root_block enclave_request))
   end).

Definition get_outputs_data (ake : AkeState) (response : GetOutputsResponse MembershipProof)
    (client : ChannelId) : AkeState * result bytes LedgerEnclaveError :=
  let '(r, ake) := client_encrypt ake client (encode_get_outputs_response response) in
  (ake, map_err LedgerAttest r).

Definition check_key_images (ake : AkeState) (msg : EnclaveMessage)
  : AkeState * result KeyImageContext LedgerEnclaveError :=
  let '(request_bytes, ake) := client_decrypt ake msg in
  (ake,
   let? request_bytes := map_err LedgerAttest request_bytes in
   match decode_check_key_images_request request_bytes with
   | None => Err LedgerSerialization
   | Some enclave_request =>
       Ok (mkKeyImageContext (kiq_key_image <$> ckr_queries enclave_request))
   end).

Definition check_key_images_data (ake : AkeState) (response : CheckKeyImagesResponse)
    (client : ChannelId) : AkeState * result bytes LedgerEnclaveError :=
  let '(r, ake) := client_encrypt ake client (encode_check_key_images_response response) in
  (ake, map_err LedgerAttest r).

(** How the services answer an error of the enclave. *)
Definition enclave_rpc_error (e : LedgerEnclaveError) : RpcError :=
  match e with
  | LedgerAttest _ => RpcPermissions
  | LedgerSerialization => RpcInvalidArg
  | _ => RpcInternal
  end.

(** The timestamp of a block, and the code that says what it is worth. *)
Definition block_timestamp (block_index : Z) : io (Z * Z) :=
  let! r := io_access (get_block_timestamp block_index) in
  io_ret match r with
         | Ok (ts, res) => (ts, res)
         | Err _ => (u64_max, WatcherDatabaseError)
         end.

(** ** key_image_service.rs *)

Definition KeyImage_MAX_REQUEST_SIZE : nat := 2000.

Definition key_image_result (key_image : bytes) : io KeyImageResult :=
  let! r := io_access (check_key_image key_image) in
  let '(spent_at, ki_result) :=
    match r with
    | Ok (Some spent_at) => (spent_at, Spent)
    | Ok None => (u64_max, NotSpent)
    | Err _ => (u64_max, KeyImageError)
    end in
  let! (timestamp, ts_result) := block_timestamp spent_at in
  io_ret (mkKeyImageResult key_image spent_at timestamp ts_result
            (KeyImageResultCode_as_u32 ki_result)).

Definition check_key_images_impl (key_image_context : KeyImageContext)
  : io (result CheckKeyImagesResponse RpcError) :=
  if bool_decide (KeyImage_MAX_REQUEST_SIZE < length (kic_key_images key_image_context))%nat
  then io_ret (Err RpcInvalidArg)
  else
    let!? blocks := io_map_err (fun _ => RpcDatabase) (io_access num_blocks) in
    let!? txos := io_map_err (fun _ => RpcDatabase) (io_access num_txos) in
    let! results := io_map key_image_result (kic_key_images key_image_context) in
    io_ret (Ok (mkCheckKeyImagesResponse blocks txos results)).

(** The whole call: the enclave decrypts the request, the service answers it
    and the enclave encrypts the answer. *)
Definition check_key_images_auth (ake : AkeState) (request : EnclaveMessage)
  : io (AkeState * result bytes RpcError) :=
  let '(ake, context) := check_key_images ake request in
  match context with
  | Err e => io_ret (ake, Err (enclave_rpc_error e))
  | Ok context =>
      let! response := check_key_images_impl context in
      match response with
      | Err e => io_ret (ake, Err e)
      | Ok response =>
          let '(ake, message) := check_key_images_data ake response (channel_id request) in
          io_ret (ake, map_err enclave_rpc_error message)
      end
  end.

(** ** merkle_proof_service.rs *)

Definition MerkleProof_MAX_REQUEST_SIZE : nat := 2000.

Definition get_output_impl (idx : Z) : io (result (option (TxOut * MembershipProof)) LedgerDbError) :=
  let! r :=
    let!? tx_out := io_access (get_tx_out_by_index idx) in
    let!? proofs := io_access (get_tx_out_proof_of_memberships [idx]) in
    fun w => proof ← unwrap (proofs !! 0%nat); Ret (Ok (Some (tx_out, proof)), w) in
  io_ret match r with
         | Err DbNotFound => Ok None
         | r => r
         end.

Definition output_result (idx : Z) : io (result (OutputResult MembershipProof) LedgerDbError) :=
  let!? output := get_output_impl idx in
  io_ret (Ok match output with
             | Some (output, proof) =>
                 mkOutputResult idx (OutputResultCode_as_u32 Exists) output proof
             | None =>
                 mkOutputResult idx (OutputResultCode_as_u32 DoesNotExist)
                   default_tx_out default_proof
             end).

Definition get_outputs_impl (output_context : OutputContext)
  : io (result (GetOutputsResponse MembershipProof) RpcError) :=
  if bool_decide (MerkleProof_MAX_REQUEST_SIZE < length (oc_indexes output_context))%nat
  then io_ret (Err RpcInvalidArg)
  else
    let!? blocks := io_map_err (fun _ => RpcDatabase) (io_access num_blocks) in
    let!? txos := io_map_err (fun _ => RpcDatabase) (io_access num_txos) in
    let!? results :=
      io_map_err (fun _ => RpcDatabase) (io_map_try output_result (oc_indexes output_context)) in
    io_ret (Ok (mkGetOutputsResponse results blocks txos)).

Definition get_outputs_auth (ake : AkeState) (request : EnclaveMessage)
  : io (AkeState * result bytes RpcError) :=
  let '(ake, context) := get_outputs ake request in
  match context with
  | Err e => io_ret (ake, Err (enclave_rpc_error e))
  | Ok context =>
      let! output_data := get_outputs_impl context in
      match output_data with
      | Err e => io_ret (ake, Err e)
      | Ok output_data =>
          let '(ake, message) := get_outputs_data ake output_data (channel_id request) in
          io_ret (ake, map_err enclave_rpc_error message)
      end
  end.

(** ** untrusted_tx_out_service.rs *)

(** [TxOutResult::new] with the public key set. *)
Definition TxOutResult_for (tx_out_pubkey : bytes) (code : TxOutResultCode) : TxOutResult :=
  mkTxOutResult (Some tx_out_pubkey) code 0 0 0 0.

Definition get_tx_out (tx_out_pubkey : bytes) : io (result TxOutResult LedgerDbError) :=
  let! index := io_access (get_tx_out_index_by_public_key tx_out_pubkey) in
  match index with
  | Err DbNotFound => io_ret (Ok (TxOutResult_for tx_out_pubkey TxOutNotFound))
  | Err err => io_ret (Err err)
  | Ok tx_out_index =>
      let!? block_index := io_access (get_block_index_by_tx_out_index tx_out_index) in
      let! (timestamp, ts_result) := block_timestamp block_index in
      io_ret (Ok (mkTxOutResult (Some tx_out_pubkey) TxOutFound tx_out_index block_index
                    timestamp ts_result))
  end.

(** The answer for one requested key. *)
Definition tx_out_result (tx_out_pubkey_proto : bytes) : io TxOutResult :=
  match compressed_try_from tx_out_pubkey_proto with
  | Ok tx_out_pubkey =>
      let! r := get_tx_out tx_out_pubkey in
      io_ret match r with
             | Ok result => result
             | Err _ => TxOutResult_for tx_out_pubkey_proto DatabaseError
             end
  | Err _ => io_ret (TxOutResult_for tx_out_pubkey_proto MalformedRequest)
  end.

Definition get_tx_outs_impl (tx_out_pubkeys : list bytes) : io (result TxOutResponse RpcError) :=
  let!? blocks := io_map_err (fun _ => RpcInternal) (io_access num_blocks) in
  let!? txos := io_map_err (fun _ => RpcInternal) (io_access num_txos) in
  let! results := io_map tx_out_result tx_out_pubkeys in
  io_ret (Ok (mkTxOutResponse results blocks txos)).

(** ** block_service.rs *)

Definition get_block (block_index : Z) : io (result (BlockData ExternalTxOut) LedgerDbError) :=
  let!? outputs := io_access (get_block_contents_outputs block_index) in
  let!? cumulative_txo_count := io_access (get_block_cumulative_txo_count block_index) in
  let! (timestamp, ts_result) := block_timestamp block_index in
  io_ret (Ok (mkBlockData block_index cumulative_txo_count (external_tx_out <$> outputs)
                timestamp ts_result)).

(** Blocks that cannot be read are left out. *)
Definition get_blocks_impl (ranges : list BlockRange)
  : io (result (BlockResponse ExternalTxOut) RpcError) :=
  let!? blocks := io_map_err (fun _ => RpcDatabase) (io_access num_blocks) in
  let!? txos := io_map_err (fun _ => RpcDatabase) (io_access num_txos) in
  let! found := io_map get_block
    (range ← ranges; seqZ (br_start_block range) (br_end_block range - br_start_block range)) in
  io_ret (Ok (mkBlockResponse (omap ok found) blocks txos)).

(** ** The handlers, with the outcome of the authenticator *)
Section handlers.
Context (client_accept : AkeState -> bytes -> result bytes AttestEnclaveError * AkeState).

(** [auth] of the key image and of the membership proof service. *)
Definition ledger_auth (authenticated : result unit RpcError) (ake : AkeState) (request : bytes)
  : AkeState * result bytes RpcError :=
  match authenticated with
  | Err err => (ake, Err err)
  | Ok _ =>
      let '(response, ake) := client_accept ake request in
      (ake, map_err (fun _ => RpcPermissions) response)
  end.

Definition rpc_check_key_images (authenticated : result unit RpcError) (ake : AkeState)
    (request : EnclaveMessage) : io (AkeState * result bytes RpcError) :=
  match authenticated with
  | Err err => io_ret (ake, Err err)
  | Ok _ => check_key_images_auth ake request
  end.

Definition rpc_get_outputs (authenticated : result unit RpcError) (ake : AkeState)
    (request : EnclaveMessage) : io (AkeState * result bytes RpcError) :=
  match authenticated with
  | Err err => io_ret (ake, Err err)
  | Ok _ => get_outputs_auth ake request
  end.

Definition rpc_get_tx_outs (authenticated : result unit RpcError) (request : list bytes)
  : io (result TxOutResponse RpcError) :=
  match authenticated with Err err => io_ret (Err err) | Ok _ => get_tx_outs_impl request end.

Definition rpc_get_blocks (authenticated : result unit RpcError) (request : list BlockRange)
  : io (result (BlockResponse ExternalTxOut) RpcError) :=
  match authenticated with Err err => io_ret (Err err) | Ok _ => get_blocks_impl request end.
End handlers.
End ledger_server.
