(* ===== verification/LedgerServerSpec.v ===== *)
(** * The answers of the ledger server are true

    [LedgerLaws] states what the ledger database promises while it grows: an
    access sees at least the blocks that were there before it.  Under it every
    service returns, and its answer is true for the block count it names: the
    count is a lower bound on the blocks the answer was computed from. *)

From S2P Require Import Prelude FogTypes ViewEnclave LedgerServer.

Local Open Scope Z_scope.
Local Open Scope fog_scope.

(** The ledger as it will ever be: the block a key image is spent in, the index
    of an output by its public key, and the output and the block at an index. *)
Record LedgerTruth := mkLedgerTruth {
  lt_spent : gmap (list Z) Z;
  lt_index : gmap (list Z) Z;
  lt_output : Z -> TxOut;
  lt_block : Z -> Z;
  lt_block_outputs : Z -> list TxOut;
  lt_cumulative : Z -> Z;
}.

Class LedgerLaws (L : Ledger) (height : World -> Z) (truth : LedgerTruth)
    (valid_proof : Z -> TxOut -> MembershipProof -> Prop) : Prop := {
  num_blocks_law : forall w r w', num_blocks w = (r, w') -> height w <= height w'
    /\ forall n, r = Ok n -> height w <= n <= height w';
  num_txos_law : forall w r w', num_txos w = (r, w') -> height w <= height w';
  check_key_image_law : forall k w r w', check_key_image k w = (r, w') -> height w <= height w'
    /\ (forall s, r = Ok (Some s) -> lt_spent truth !! k = Some s)
    /\ (r = Ok None -> forall s, lt_spent truth !! k = Some s -> height w <= s);
  get_tx_out_by_index_law : forall i w r w', get_tx_out_by_index i w = (r, w') -> height w <= height w'
    /\ (forall t, r = Ok t -> t = lt_output truth i)
    /\ (r = Err DbNotFound -> height w <= lt_block truth i);
  membership_law : forall idxs w r w', get_tx_out_proof_of_memberships idxs w = (r, w') ->
    height w <= height w'
    /\ (forall ps, r = Ok ps -> Forall2 (fun i p => valid_proof i (lt_output truth i) p) idxs ps)
    /\ (r = Err DbNotFound -> exists i, i ∈ idxs /\ height w <= lt_block truth i);
  index_by_key_law : forall k w r w', get_tx_out_index_by_public_key k w = (r, w') ->
    height w <= height w'
    /\ (forall i, r = Ok i -> lt_index truth !! k = Some i)
    /\ (r = Err DbNotFound -> forall i, lt_index truth !! k = Some i -> height w <= lt_block truth i);
  block_by_index_law : forall i w r w', get_block_index_by_tx_out_index i w = (r, w') ->
    height w <= height w' /\ (forall b, r = Ok b -> b = lt_block truth i);
  block_contents_law : forall b w r w', get_block_contents_outputs b w = (r, w') ->
    height w <= height w' /\ (forall l, r = Ok l -> l = lt_block_outputs truth b)
    /\ (r = Err DbNotFound -> height w <= b);
  block_count_law : forall b w r w', get_block_cumulative_txo_count b w = (r, w') ->
    height w <= height w' /\ (forall c, r = Ok c -> c = lt_cumulative truth b);
  timestamp_law : forall b w r w', get_block_timestamp b w = (r, w') -> height w <= height w';
}.

(** ** Reasoning about accesses *)

Section wp.
Context `{L : Ledger} (height : World -> Z).

(** From [w] the code returns, the ledger only grows, and [Q] holds after. *)
Definition iwp {A} (w : World) (m : io A) (Q : A -> World -> Prop) : Prop :=
  exists x w', m w = Ret (x, w') /\ height w <= height w' /\ Q x w'.

Lemma iwp_ret {A} w (x : A) Q : Q x w -> iwp w (io_ret x) Q.
Proof. intros HQ; exists x, w; split_and!; [done|lia|done]. Qed.

Lemma iwp_bind {A B} w (m : io A) (k : A -> io B) Q :
  iwp w m (fun x w' => iwp w' (k x) Q) -> iwp w (io_bind m k) Q.
Proof.
  intros (x & w1 & Hm & H1 & y & w2 & Hk & H2 & HQ); exists y, w2; unfold io_bind; rewrite Hm; simpl.
  split_and!; [done|lia|done].
Qed.

Lemma iwp_mono {A} w (m : io A) (P Q : A -> World -> Prop) :
  iwp w m P -> (forall x w', height w <= height w' -> P x w' -> Q x w') -> iwp w m Q.
Proof. intros (x & w' & Hm & Hh & HP) HPQ; exists x, w'; auto. Qed.

Lemma iwp_access {A} w (f : World -> A * World) (Q : A -> World -> Prop) :
  (forall x w', f w = (x, w') -> height w <= height w' /\ Q x w') -> iwp w (io_access f) Q.
Proof. intros H; destruct (f w) as [x w'] eqn:Hf; exists x, w'; unfold io_access; rewrite Hf; naive_solver. Qed.

Lemma iwp_try {A B E} w (m : io (result A E)) (k : A -> io (result B E)) Q :
  iwp w m (fun r w' => match r with Ok x => iwp w' (k x) Q | Err e => Q (Err e) w' end) ->
  iwp w (io_try m k) Q.
Proof.
  intros H; apply iwp_bind; eapply iwp_mono; [exact H|]; intros [x|e] w' _; [done|].
  intros HQ; by apply iwp_ret.
Qed.

(** An error of the database becomes a status. *)
Lemma iwp_db {A E F B} w (f : World -> result A E * World) (g : E -> F) (k : A -> io (result B F)) Q :
  (forall r w', f w = (r, w') -> height w <= height w' /\
     match r with Ok x => iwp w' (k x) Q | Err e => Q (Err (g e)) w' end) ->
  iwp w (io_try (io_map_err g (io_access f)) k) Q.
Proof.
  intros H; apply iwp_try, iwp_bind, iwp_access; intros r w' Hf; destruct (H r w' Hf) as [Hh HQ].
  split; [done|]; apply iwp_ret; by destruct r.
Qed.

(** Elements of a list are processed at times when at least [h] blocks are there. *)
Lemma iwp_map {A B} h (f : A -> io B) (P : A -> B -> Prop) l w :
  (forall x w, h <= height w -> iwp w (f x) (fun y _ => P x y)) -> h <= height w ->
  iwp w (io_map f l) (fun ys _ => Forall2 P l ys).
Proof.
  intros Hf; revert w; induction l as [|x l IH]; intros w Hw; simpl; [by apply iwp_ret|].
  apply iwp_bind; eapply iwp_mono; [by apply Hf|]; intros y w1 H1 Hy.
  apply iwp_bind; eapply iwp_mono; [apply IH; lia|]; intros ys w2 _ Hys; apply iwp_ret; by constructor.
Qed.

Lemma iwp_map_try {A B E} h (f : A -> io (result B E)) (P : A -> B -> Prop) l w :
  (forall x w, h <= height w -> iwp w (f x) (fun r _ => forall y, r = Ok y -> P x y)) -> h <= height w ->
  iwp w (io_map_try f l) (fun r _ => forall ys, r = Ok ys -> Forall2 P l ys).
Proof.
  intros Hf; revert w; induction l as [|x l IH]; intros w Hw; simpl.
  { apply iwp_ret; by intros ys [= <-]. }
  apply iwp_try; eapply iwp_mono; [by apply Hf|]; intros [y|e] w1 H1 Hy; [|done].
  apply iwp_try; eapply iwp_mono; [apply IH; lia|]; intros [ys|e] w2 _ Hys; [|done].
  apply iwp_ret; intros ? [= <-]; constructor; auto.
Qed.
End wp.

(** ** The services *)

Section services.
Context `{L : Ledger} (height : World -> Z) (truth : LedgerTruth).
Context (valid_proof : Z -> TxOut -> MembershipProof -> Prop).
Context `{LL : !LedgerLaws L height truth valid_proof}.
Abbreviation iwp := (iwp height).

Lemma iwp_block_timestamp b w : iwp w (block_timestamp b) (fun _ _ => True).
Proof.
  apply iwp_bind, iwp_access; intros r w' Hr; split; [by eapply timestamp_law|].
  apply iwp_ret; done.
Qed.

(** An answer for image [k] that is true of the first [n] blocks. *)
Definition image_answer (n : Z) (k : bytes) (res : KeyImageResult) : Prop :=
  kir_key_image res = k
  /\ match KeyImageResultCode_try_from (kir_key_image_result_code res) with
     | Ok Spent => lt_spent truth !! k = Some (kir_spent_at res)
     | Ok NotSpent => forall s, lt_spent truth !! k = Some s -> n <= s
     | Ok KeyImageError => True
     | Err _ => False
     end.

Lemma key_image_result_answers n k w : n <= height w ->
  iwp w (key_image_result k) (fun res _ => image_answer n k res).
Proof.
  intros Hn; apply iwp_bind, iwp_access; intros r w' Hr.
  destruct (check_key_image_law _ _ _ _ Hr) as (Hh & Hs & Hns); split; [done|].
  destruct (match r with Ok (Some s) => _ | Ok None => _ | Err _ => _ end) as [spent_at code] eqn:Hc.
  apply iwp_bind; eapply iwp_mono; [apply iwp_block_timestamp|]; intros [ts tr] w2 _ _.
  apply iwp_ret; split; [done|].
  destruct r as [[s|]|e]; injection Hc as <- <-; simpl; [by apply Hs| |done].
  intros s Hsp; specialize (Hns eq_refl _ Hsp); lia.
Qed.

(** What the key image service answers. *)
Definition key_images_spec (w : World) (images : list bytes)
    (r : result CheckKeyImagesResponse RpcError) (w' : World) : Prop :=
  match r with
  | Ok response =>
      (length images <= KeyImage_MAX_REQUEST_SIZE)%nat
      /\ height w <= cks_num_blocks response <= height w'
      /\ Forall2 (image_answer (cks_num_blocks response)) images (cks_results response)
  | Err RpcInvalidArg => (KeyImage_MAX_REQUEST_SIZE < length images)%nat
  | Err e => e = RpcDatabase
  end.

Lemma check_key_images_impl_spec images w :
  iwp w (check_key_images_impl (mkKeyImageContext images)) (key_images_spec w images).
Proof.
  unfold check_key_images_impl; simpl; case_bool_decide as Hsz; [by apply iwp_ret|].
  apply iwp_db; intros [n|e] w1 H1; destruct (num_blocks_law _ _ _ H1) as [Hh1 Hn]; split; try done.
  specialize (Hn _ eq_refl).
  apply iwp_db; intros [t|e] w2 H2; pose proof (num_txos_law _ _ _ H2) as Hh2; split; try done.
  apply iwp_bind; eapply iwp_mono.
  { apply (iwp_map height n _ (image_answer n)); [|lia]; apply key_image_result_answers. }
  intros results w3 Hh3 Hall; apply iwp_ret; simpl; split_and!; [lia|lia|lia|done].
Qed.

(** An answer for index [i] that is true of the first [n] blocks. *)
Definition output_answer (n : Z) (i : Z) (res : OutputResult MembershipProof) : Prop :=
  our_index res = i
  /\ (our_result_code res = OutputResultCode_as_u32 Exists /\ our_output res = lt_output truth i
        /\ valid_proof i (lt_output truth i) (our_proof res)
      \/ our_result_code res = OutputResultCode_as_u32 DoesNotExist /\ n <= lt_block truth i).

Lemma get_output_impl_spec n i w : n <= height w ->
  iwp w (get_output_impl i) (fun r _ => forall o, r = Ok o ->
    match o with
    | Some (t, p) => t = lt_output truth i /\ valid_proof i (lt_output truth i) p
    | None => n <= lt_block truth i
    end).
Proof.
  intros Hn; apply iwp_bind, iwp_try, iwp_access; intros r w1 H1.
  destruct (get_tx_out_by_index_law _ _ _ _ H1) as (Hh1 & Ht & Hnf); split; [done|].
  destruct r as [t|[|c]]; [|apply iwp_ret; intros ? [= <-]; specialize (Hnf eq_refl); lia
    |by apply iwp_ret].
  rewrite (Ht _ eq_refl); apply iwp_try, iwp_access; intros r w2 H2.
  destruct (membership_law _ _ _ _ H2) as (Hh2 & Hp & Hnf2); split; [done|].
  destruct r as [ps|[|c]]; [| |by apply iwp_ret].
  - destruct (Forall2_cons_inv_l _ _ _ _ (Hp _ eq_refl)) as (p & ps' & Hv & _ & ->).
    exists (Ok (Some (lt_output truth i, p))), w2; split_and!; [done|lia|].
    apply iwp_ret; by intros ? [= <-].
  - destruct (Hnf2 eq_refl) as (i' & ->%list_elem_of_singleton & Hle).
    apply iwp_ret; intros ? [= <-]; lia.
Qed.

Definition outputs_spec (w : World) (idxs : list Z)
    (r : result (GetOutputsResponse MembershipProof) RpcError) (w' : World) : Prop :=
  match r with
  | Ok response =>
      (length idxs <= MerkleProof_MAX_REQUEST_SIZE)%nat
      /\ height w <= gos_num_blocks response <= height w'
      /\ Forall2 (output_answer (gos_num_blocks response)) idxs (gos_results response)
  | Err RpcInvalidArg => (MerkleProof_MAX_REQUEST_SIZE < length idxs)%nat
  | Err e => e = RpcDatabase
  end.

Lemma get_outputs_impl_spec idxs root w :
  iwp w (get_outputs_impl (mkOutputContext idxs root)) (outputs_spec w idxs).
Proof.
  unfold get_outputs_impl; simpl; case_bool_decide as Hsz; [by apply iwp_ret|].
  apply iwp_db; intros [n|e] w1 H1; destruct (num_blocks_law _ _ _ H1) as [Hh1 Hn]; split; try done.
  specialize (Hn _ eq_refl).
  apply iwp_db; intros [t|e] w2 H2; pose proof (num_txos_law _ _ _ H2) as Hh2; split; try done.
  apply iwp_try, iwp_bind; eapply iwp_mono.
  { apply (iwp_map_try height n _ (output_answer n)); [|lia]; intros i w3 Hw3.
    apply iwp_try; eapply iwp_mono; [by apply get_output_impl_spec|].
    intros [o|e] w4 _ Ho; [|done]; specialize (Ho _ eq_refl); apply iwp_ret; intros ? [= <-].
    destruct o as [[t' p]|]; (split; [done|]); [left|right]; simpl; naive_solver. }
  intros [results|e] w3 Hh3 Hall; apply iwp_ret; simpl; [|done].
  apply iwp_ret; simpl; split_and!; [lia|lia|lia|auto].
Qed.

(** An answer for a public key that is true of the first [n] blocks. *)
Definition tx_out_answer (n : Z) (key : bytes) (res : TxOutResult) : Prop :=
  match txr_result_code res with
  | TxOutFound => exists p, compressed_try_from key = Ok p /\ txr_tx_out_pubkey res = Some p
      /\ lt_index truth !! p = Some (txr_tx_out_global_index res)
      /\ txr_block_index res = lt_block truth (txr_tx_out_global_index res)
  | TxOutNotFound => exists p, compressed_try_from key = Ok p /\ txr_tx_out_pubkey res = Some p
      /\ forall i, lt_index truth !! p = Some i -> n <= lt_block truth i
  | MalformedRequest => (exists e, compressed_try_from key = Err e) /\ txr_tx_out_pubkey res = Some key
  | DatabaseError => (exists p, compressed_try_from key = Ok p) /\ txr_tx_out_pubkey res = Some key
  end.

Lemma tx_out_result_answers n key w : n <= height w ->
  iwp w (tx_out_result key) (fun res _ => tx_out_answer n key res).
Proof.
  intros Hn; unfold tx_out_result, tx_out_answer.
  destruct (compressed_try_from key) as [p|e] eqn:Hp; [|apply iwp_ret; simpl; eauto].
  apply iwp_bind, iwp_bind, iwp_access; intros r w1 H1.
  destruct (index_by_key_law _ _ _ _ H1) as (Hh1 & Hi & Hnf); split; [done|].
  destruct r as [i|[|c]]; [|apply iwp_ret, iwp_ret; simpl|apply iwp_ret, iwp_ret; simpl; eauto].
  - apply iwp_try, iwp_access; intros r w2 H2.
    destruct (block_by_index_law _ _ _ _ H2) as (Hh2 & Hb); split; [done|].
    destruct r as [b|e]; [|apply iwp_ret; simpl; eauto].
    apply iwp_bind; eapply iwp_mono; [apply iwp_block_timestamp|]; intros [ts tr] w3 _ _.
    apply iwp_ret, iwp_ret; simpl; exists p; split_and!; auto.
  - exists p; split_and!; [done|done|]; intros i Hi'; specialize (Hnf eq_refl _ Hi'); lia.
Qed.

Definition tx_outs_spec (w : World) (keys : list bytes) (r : result TxOutResponse RpcError)
    (w' : World) : Prop :=
  match r with
  | Ok response => height w <= txs_num_blocks response <= height w'
      /\ Forall2 (tx_out_answer (txs_num_blocks response)) keys (txs_results response)
  | Err e => e = RpcInternal
  end.

Lemma get_tx_outs_impl_spec keys w : iwp w (get_tx_outs_impl keys) (tx_outs_spec w keys).
Proof.
  apply iwp_db; intros [n|e] w1 H1; destruct (num_blocks_law _ _ _ H1) as [Hh1 Hn]; split; try done.
  specialize (Hn _ eq_refl).
  apply iwp_db; intros [t|e] w2 H2; pose proof (num_txos_law _ _ _ H2) as Hh2; split; try done.
  apply iwp_bind; eapply iwp_mono.
  { apply (iwp_map height n _ (tx_out_answer n)); [|lia]; apply tx_out_result_answers. }
  intros results w3 Hh3 Hall; apply iwp_ret; simpl; split_and!; [lia|lia|done].
Qed.

(** A block that is returned has the contents of the block at its index. *)
Definition block_true (b : BlockData ExternalTxOut) : Prop :=
  bd_outputs b = external_tx_out <$> lt_block_outputs truth (bd_index b)
  /\ bd_global_txo_count b = lt_cumulative truth (bd_index b).

Lemma get_block_spec b w :
  iwp w (get_block b) (fun r _ => forall d, r = Ok d -> bd_index d = b /\ block_true d).
Proof.
  apply iwp_try, iwp_access; intros r w1 H1.
  destruct (block_contents_law _ _ _ _ H1) as (Hh1 & Ho & _); split; [done|]; destruct r as [o|e]; [|done].
  apply iwp_try, iwp_access; intros r w2 H2.
  destruct (block_count_law _ _ _ _ H2) as (Hh2 & Hc); split; [done|]; destruct r as [c|e]; [|done].
  apply iwp_bind; eapply iwp_mono; [apply iwp_block_timestamp|]; intros [ts tr] w3 _ _.
  apply iwp_ret; intros d [= <-]; simpl; split; [done|].
  by rewrite (Ho _ eq_refl), (Hc _ eq_refl).
Qed.

(** The block indices a request asks for. *)
Definition requested_blocks (ranges : list BlockRange) : list Z :=
  range ← ranges; seqZ (br_start_block range) (br_end_block range - br_start_block range).

Definition blocks_spec (w : World) (ranges : list BlockRange)
    (r : result (BlockResponse ExternalTxOut) RpcError) (w' : World) : Prop :=
  match r with
  | Ok response => height w <= brs_num_blocks response <= height w'
      /\ (bd_index <$> brs_blocks response) `sublist_of` requested_blocks ranges
      /\ Forall block_true (brs_blocks response)
  | Err e => e = RpcDatabase
  end.

Lemma found_blocks_true idxs (found : list (result (BlockData ExternalTxOut) LedgerDbError)) :
  Forall2 (fun b r => forall d, r = Ok d -> bd_index d = b /\ block_true d) idxs found ->
  (bd_index <$> omap ok found) `sublist_of` idxs /\ Forall block_true (omap ok found).
Proof.
  induction 1 as [|b r idxs found Hr _ [IH1 IH2]]; [done|]; cbn [omap list_omap].
  destruct r as [d|e]; cbn [ok]; [|split; [by constructor|done]].
  destruct (Hr d eq_refl) as [<- Hd]; split; [rewrite fmap_cons; by constructor|by constructor].
Qed.

Lemma get_blocks_impl_spec ranges w : iwp w (get_blocks_impl ranges) (blocks_spec w ranges).
Proof.
  apply iwp_db; intros [n|e] w1 H1; destruct (num_blocks_law _ _ _ H1) as [Hh1 Hn]; split; try done.
  specialize (Hn _ eq_refl).
  apply iwp_db; intros [t|e] w2 H2; pose proof (num_txos_law _ _ _ H2) as Hh2; split; try done.
  apply iwp_bind; eapply iwp_mono.
  { eapply (iwp_map height n); [|lia]; intros b w3 _; apply get_block_spec. }
  intros found w3 Hh3 Hall; apply iwp_ret; destruct (found_blocks_true _ _ Hall) as [Hs Hb].
  simpl; split_and!; [lia|lia|done|done].
Qed.
End services.

(** C23: every service of the ledger server returns without a panic while other
    processes extend the ledger, and what it answers is true of the block count
    it reports, which is a lower bound on the blocks it read from: an image or
    a key reported as missing is in none of the first blocks up to the count,
    what is reported as found is there, with its block, its output and a valid
    proof, and requests are refused exactly when they exceed their limit. *)
Theorem ledger_answers_true `{L : Ledger} (height : World -> Z) (truth : LedgerTruth)
    (valid_proof : Z -> TxOut -> MembershipProof -> Prop) (w : World) images idxs root keys ranges :
  LedgerLaws L height truth valid_proof ->
  iwp height w (check_key_images_impl (mkKeyImageContext images)) (key_images_spec height truth w images)
  /\ iwp height w (get_outputs_impl (mkOutputContext idxs root))
       (outputs_spec height truth valid_proof w idxs)
  /\ iwp height w (get_tx_outs_impl keys) (tx_outs_spec height truth w keys)
  /\ iwp height w (get_blocks_impl ranges) (blocks_spec height truth w ranges).
Proof.
  intros LL; split_and!; [by eapply check_key_images_impl_spec|by apply get_outputs_impl_spec
    |by eapply get_tx_outs_impl_spec|by eapply get_blocks_impl_spec].
Qed.
