(* ===== verification/CachedTxData.v ===== *)
(** * The cached account state of the wallet (src/fog/sample-paykit/src/cached_tx_data/mod.rs)

    What a client knows of its own outputs: the outputs it recovered from the
    view server, what the key image server said about them, and up to which
    block that is complete.  The view server and the key image server are
    parameters, as state-passing request functions; the clients of the key
    image service (ledger/connection/src/key_image.rs) are modelled here.  Code
    that polls the view server runs on the fuel of [poll]. *)

From S2P Require Import Prelude FogTypes KexRng UserRngSet Polling InputSelection ViewEnclave EnclaveConnection LedgerServer.

Local Open Scope Z_scope.
Local Open Scope fog_scope.

(** ** [BTreeMap<u64, V>]: the entries in the order of their keys *)
Section btree.
Context {V : Type}.

Fixpoint btree_get (k : Z) (m : list (Z * V)) : option V :=
  match m with
  | [] => None
  | (k', v) :: m => if k =? k' then Some v else btree_get k m
  end.

(** An entry with the same key is replaced. *)
Fixpoint btree_insert (k : Z) (v : V) (m : list (Z * V)) : list (Z * V) :=
  match m with
  | [] => [(k, v)]
  | (k', v') :: m' =>
      if k <? k' then (k, v) :: m
      else if k =? k' then (k, v) :: m'
      else (k', v') :: btree_insert k v m'
  end.
End btree.

(** ** ledger/connection/src: errors and the key image client *)

(** The errors of the libraries below the connection are opaque codes. *)
Inductive LedgerConnectionError :=
| Connection (e : EnclaveConnectionError)
| Protobuf (code : Z)
| DeserializationFailed
| Conversion (code : Z)
| Grpc (e : GrpcError).

Inductive KeyImageQueryError :=
| KeyImageQueryFailed
| UnknownStatus (code : Z).

(** [KeyImageResultExtension::status]. *)
Definition KeyImageResult_status (self : KeyImageResult) : result (option Z) KeyImageQueryError :=
  if kir_key_image_result_code self =? KeyImageResultCode_as_u32 Spent
  then Ok (Some (kir_spent_at self))
  else if kir_key_image_result_code self =? KeyImageResultCode_as_u32 NotSpent
  then Ok None
  else if kir_key_image_result_code self =? KeyImageResultCode_as_u32 KeyImageError
  then Err KeyImageQueryFailed
  else Err (UnknownStatus (kir_key_image_result_code self)).

(** The request of [FogKeyImageGrpcClient::check_key_images]. *)
Definition key_images_request (key_images : list bytes) : CheckKeyImagesRequest :=
  mkCheckKeyImagesRequest ((fun key_image => mkKeyImageQuery key_image 0) <$> key_images).

(** ** error.rs: the errors of the wallet *)

Inductive PaykitError :=
| PaykitConsensusConnection (code : Z)
| RingsForInput (rings inputs : Z)
| BrokenRing (len index : Z)
| InsufficientTxOutsInBlockchain (a b : Z)
| AddOutput (code : Z)
| BuildTx (code : Z)
| PaykitKey (e : KeyError)
| PaykitInsufficientFunds
| PaykitWalletCompactingNeeded (recommended : Z)
| LedgerConnection (e : LedgerConnectionError)
| PaykitKeyImageQuery (e : KeyImageQueryError)
| UnexpectedBlockRange (a b : Z)
| UntrustedTxOut (e : LedgerConnectionError)
| TxRecovery (code : Z)
| FogResolution (code : Z)
| PaykitConversion (code : Z)
| TxRejected (code : Z)
| PaykitUri (code : Z).

Definition input_selection_error (e : InputSelectionError) : PaykitError :=
  match e with
  | InsufficientFunds => PaykitInsufficientFunds
  | WalletCompactingNeeded recommended => PaykitWalletCompactingNeeded recommended
  end.

(** An error when an output is matched against the view key. *)
Inductive TxOutMatchingError (AmountError : Type) :=
| MatchAmount (e : AmountError)
| MatchKey (e : KeyError)
| MatchFogTxOut (e : FogTxOutError AmountError).
Global Arguments MatchAmount {AmountError} e.
Global Arguments MatchKey {AmountError} e.
Global Arguments MatchFogTxOut {AmountError} e.

(** ** The outputs of the account *)

Inductive KeyImageStatus :=
| SpentAt (spent_at : Z)
| NotSpentAsOf (not_spent_as_of : Z).

Record OwnedTxOut := mkOwnedTxOut {
  oto_global_index : Z;
  oto_block_index : Z;
  oto_tx_out : TxOut;
  oto_value : Z;
  oto_key_image : bytes;
  oto_status : KeyImageStatus;
}.

Definition set_status (self : OwnedTxOut) (status : KeyImageStatus) : OwnedTxOut :=
  mkOwnedTxOut (oto_global_index self) (oto_block_index self) (oto_tx_out self) (oto_value self)
    (oto_key_image self) status.

(** The curve, amounts and key images of the transaction crate. *)
Class WalletCrypto `{K : Kex} := {
  AmountError : Type;
  wallet_compressed_try_from : bytes -> result bytes KeyError;
  checksum_ieee : bytes -> Z;
  get_tx_out_shared_secret : Private -> Public -> bytes;
  get_value_mask : bytes -> Z;
  Amount_new : Z -> bytes -> result Amount AmountError;
  ENCRYPTED_FOG_HINT_LEN : nat;
  Amount_get_value : Amount -> bytes -> result (Z * bytes) AmountError;
  recover_onetime_private_key : Public -> Private -> Private -> Private;
  KeyImage_from : Private -> bytes;
}.

(** The keys of the account that the wallet uses. *)
Record AccountKey `{K : Kex} := mkAccountKey {
  view_private_key : Private;
  default_subaddress_spend_private : Private;
  default_subaddress_view_private : Private;
}.

(** [UserPrivate::from]. *)
Definition UserPrivate_from `{K : Kex} (src : AccountKey) : UserPrivate :=
  mkUserPrivate (default_subaddress_view_private src).

Definition OwnedTxOut_new `{W : WalletCrypto} (rec : TxOutRecord) (account_key : AccountKey)
  : result OwnedTxOut (TxOutMatchingError AmountError) :=
  let? fog_tx_out := map_err MatchKey
    (TxOutRecord_get_fog_tx_out wallet_compressed_try_from checksum_ieee rec) in
  let? tx_out := map_err MatchFogTxOut
    (FogTxOut_try_recover_tx_out checksum_ieee public_try_from get_tx_out_shared_secret
       get_value_mask Amount_new ENCRYPTED_FOG_HINT_LEN fog_tx_out (view_private_key account_key)) in
  let? decompressed_tx_pub := map_err MatchKey (public_try_from (txo_public_key tx_out)) in
  let shared_secret := get_tx_out_shared_secret (view_private_key account_key) decompressed_tx_pub in
  let? (value, _blinding) := map_err MatchAmount (Amount_get_value (txo_amount tx_out) shared_secret) in
  let onetime_private_key :=
    recover_onetime_private_key decompressed_tx_pub (view_private_key account_key)
      (default_subaddress_spend_private account_key) in
  let key_image := KeyImage_from onetime_private_key in
  let status := NotSpentAsOf (tor_block_index rec +w 1) in
  Ok (mkOwnedTxOut (tor_tx_out_global_index rec) (tor_block_index rec) tx_out value key_image status).

(** ** The state *)

Record CachedTxData := mkCachedTxData {
  ctd_rng_set : UserRngSet;
  owned_tx_outs : list (Z * OwnedTxOut);
  key_image_data_completeness : Z;
  latest_global_txo_count : Z;
}.

Definition CachedTxData_new : CachedTxData := mkCachedTxData UserRngSet_new [] u64_max 0.

Definition get_num_blocks (self : CachedTxData) : Z :=
  Z.min (get_highest_processed_block_count (ctd_rng_set self)) (key_image_data_completeness self).

Definition get_global_txo_count (self : CachedTxData) : Z := latest_global_txo_count self.

(** [filter] with a test that may panic. *)
Fixpoint run_filter {A} (p : A -> run bool) (l : list A) : run (list A) :=
  match l with
  | [] => Ret []
  | x :: l =>
      keep ← p x;
      rest ← run_filter p l;
      Ret (if keep : bool then x :: rest else rest)
  end.

(** The two assertions about an output that is not spent. *)
Definition assert_not_spent (self : CachedTxData) (our_txo : OwnedTxOut) (not_spent_as_of : Z)
  : run unit :=
  _ ← rassert (oto_block_index our_txo <? not_spent_as_of);
  rassert (key_image_data_completeness self <=? not_spent_as_of).

Definition is_unspent (self : CachedTxData) (our_txo : OwnedTxOut) : run bool :=
  if oto_block_index our_txo <? get_num_blocks self
  then
    match oto_status our_txo with
    | SpentAt _ => Ret false
    | NotSpentAsOf not_spent_as_of =>
        _ ← assert_not_spent self our_txo not_spent_as_of; Ret true
    end
  else Ret false.

Definition get_unspent_txos (self : CachedTxData) : run (list OwnedTxOut) :=
  let num_blocks := get_num_blocks self in
  _ ← rassert (num_blocks <=? key_image_data_completeness self);
  run_filter (is_unspent self) (owned_tx_outs self).*2.

(** An output counts when it is there before [num_blocks] and not spent before. *)
Definition counts_in_balance (self : CachedTxData) (our_txo : OwnedTxOut) : run bool :=
  if oto_block_index our_txo <? get_num_blocks self
  then
    match oto_status our_txo with
    | SpentAt spent_at =>
        _ ← rassert (oto_block_index our_txo <? spent_at);
        Ret (get_num_blocks self <=? spent_at)
    | NotSpentAsOf not_spent_as_of =>
        _ ← assert_not_spent self our_txo not_spent_as_of; Ret true
    end
  else Ret false.

Definition get_balance (self : CachedTxData) : run (Z * Z) :=
  let num_blocks := get_num_blocks self in
  _ ← rassert (num_blocks <=? key_image_data_completeness self);
  counted ← run_filter (counts_in_balance self) (owned_tx_outs self).*2;
  Ret (foldl (fun running_balance our_txo => running_balance +w oto_value our_txo) 0 counted,
       num_blocks).

(** [MAX_INPUTS] is a constant of the transaction crate. *)
Definition get_transaction_inputs (MAX_INPUTS : nat) (self : CachedTxData) (amount : Z)
    (max_inputs : nat) : run (result (list OwnedTxOut) PaykitError) :=
  available ← get_unspent_txos self;
  selected ← input_selection_heuristic MAX_INPUTS (oto_value <$> available) amount max_inputs;
  match selected with
  | Err e => Ret (Err (input_selection_error e))
  | Ok selected =>
      inputs ← mapM (fun idx => unwrap (available !! idx)) selected;
      Ret (Ok inputs)
  end.

(** The query of the wallet: the key images that are not known to be spent, and
    the map from key image to global index.  Of two outputs with the same key
    image the map keeps the second, and the image is asked about once. *)
Definition collect_key_image (acc : gmap (list Z) Z * list bytes) (otxo : OwnedTxOut)
  : gmap (list Z) Z * list bytes :=
  match oto_status otxo with
  | NotSpentAsOf _ =>
      (<[oto_key_image otxo := oto_global_index otxo]> acc.1,
       match acc.1 !! oto_key_image otxo with
       | Some _ => acc.2
       | None => acc.2 ++ [oto_key_image otxo]
       end)
  | SpentAt _ => acc
  end.

Definition collect_key_images (owned : list (Z * OwnedTxOut)) : gmap (list Z) Z * list bytes :=
  foldl collect_key_image (∅, []) owned.*2.

(** What one result of the answer does to the outputs. *)
Definition apply_key_image_result (key_image_to_global_index : gmap (list Z) Z) (num_blocks : Z)
    (owned : list (Z * OwnedTxOut)) (res : KeyImageResult) : run (list (Z * OwnedTxOut)) :=
  match key_image_to_global_index !! kir_key_image res with
  | None => Ret owned
  | Some global_index =>
      otxo ← unwrap (btree_get global_index owned);
      match KeyImageResult_status res with
      | Err _ => Ret owned
      | Ok (Some spent_at) =>
          match oto_status otxo with
          | SpentAt _ => Panic
          | NotSpentAsOf _ =>
              Ret (btree_insert global_index (set_status otxo (SpentAt spent_at)) owned)
          end
      | Ok None =>
          match oto_status otxo with
          | SpentAt _ => Panic
          | NotSpentAsOf not_spent_as_of =>
              Ret (btree_insert global_index
                     (set_status otxo (NotSpentAsOf (Z.max not_spent_as_of num_blocks))) owned)
          end
      end
  end.

Fixpoint apply_key_image_results (key_image_to_global_index : gmap (list Z) Z) (num_blocks : Z)
    (results : list KeyImageResult) (owned : list (Z * OwnedTxOut)) : run (list (Z * OwnedTxOut)) :=
  match results with
  | [] => Ret owned
  | res :: results =>
      owned ← apply_key_image_result key_image_to_global_index num_blocks owned res;
      apply_key_image_results key_image_to_global_index num_blocks results owned
  end.

Definition min_not_spent (prev_min : Z) (otxo : OwnedTxOut) : Z :=
  match oto_status otxo with
  | SpentAt _ => prev_min
  | NotSpentAsOf not_spent_as_of => Z.min prev_min not_spent_as_of
  end.

Section polling_fog.
Context `{U : UserCrypto} `{I : HashIter} `{W : !WalletCrypto}.
Context {ViewConn ViewError KeyImageConn : Type}.
Context (view_request : ViewConn -> Z -> Z -> list bytes -> result QueryResponse ViewError * ViewConn).
Context (enclave_request : KeyImageConn -> CheckKeyImagesRequest ->
           result CheckKeyImagesResponse EnclaveConnectionError * KeyImageConn).

(** [FogKeyImageGrpcClient::check_key_images]. *)
Definition client_check_key_images (conn : KeyImageConn) (key_images : list bytes)
  : KeyImageConn * result CheckKeyImagesResponse LedgerConnectionError :=
  let '(response, conn) := enclave_request conn (key_images_request key_images) in
  (conn, map_err Connection response).

(** One record: the outputs and the completeness are updated, or the error is
    kept. *)
Definition consume_txo_record (account_key : AccountKey)
    (acc : CachedTxData * list (TxOutMatchingError AmountError)) (record : TxOutRecord)
  : run (CachedTxData * list (TxOutMatchingError AmountError)) :=
  let '(self, errors) := acc in
  match OwnedTxOut_new record account_key with
  | Err err => Ret (self, errors ++ [err])
  | Ok otxo =>
      let owned := btree_insert (oto_global_index otxo) otxo (owned_tx_outs self) in
      match oto_status otxo with
      | SpentAt _ => Panic
      | NotSpentAsOf as_of =>
          Ret (mkCachedTxData (ctd_rng_set self) owned
                 (Z.min (key_image_data_completeness self) as_of) (latest_global_txo_count self),
               errors)
      end
  end.

Fixpoint consume_txo_records (account_key : AccountKey) (records : list TxOutRecord)
    (acc : CachedTxData * list (TxOutMatchingError AmountError))
  : run (CachedTxData * list (TxOutMatchingError AmountError)) :=
  match records with
  | [] => Ret acc
  | record :: records =>
      acc ← consume_txo_record account_key acc record;
      consume_txo_records account_key records acc
  end.

Definition consume_new_txo_records (self : CachedTxData) (records : list TxOutRecord)
    (account_key : AccountKey) : run (CachedTxData * list (TxOutMatchingError AmountError)) :=
  consume_txo_records account_key records (self, []).

(** The errors are only logged.  [None] when the fuel of the poll runs out. *)
Definition poll_fog_for_txos (fuel : nat) (self : CachedTxData) (fog_view_client : ViewConn)
    (account_key : AccountKey) : option (run (CachedTxData * ViewConn)) :=
  '(fog_view_client, rng_set, (txo_records, _)) ←
    poll view_request fuel fog_view_client (ctd_rng_set self) (UserPrivate_from account_key);
  let self := mkCachedTxData rng_set (owned_tx_outs self) (key_image_data_completeness self)
                (latest_global_txo_count self) in
  Some (match txo_records with
        | [] => Ret (self, fog_view_client)
        | _ =>
            '(self, _) ← consume_new_txo_records self txo_records account_key;
            Ret (self, fog_view_client)
        end).

Definition poll_fog_for_key_images (self : CachedTxData) (key_image_client : KeyImageConn)
  : run (CachedTxData * KeyImageConn * result unit PaykitError) :=
  let '(key_image_to_global_index, key_images) := collect_key_images (owned_tx_outs self) in
  let '(key_image_client, response) := client_check_key_images key_image_client key_images in
  match response with
  | Err e => Ret (self, key_image_client, Err (LedgerConnection e))
  | Ok response =>
      owned ← apply_key_image_results key_image_to_global_index (cks_num_blocks response)
                (cks_results response) (owned_tx_outs self);
      Ret (mkCachedTxData (ctd_rng_set self) owned (foldl min_not_spent u64_max owned.*2)
             (Z.max (latest_global_txo_count self) (cks_global_txo_count response)),
           key_image_client, Ok tt)
  end.

Definition poll_fog (fuel : nat) (self : CachedTxData) (fog_view_client : ViewConn)
    (key_image_client : KeyImageConn) (account_key : AccountKey)
  : option (run (CachedTxData * ViewConn * KeyImageConn * result unit PaykitError)) :=
  polled ← poll_fog_for_txos fuel self fog_view_client account_key;
  Some ('(self, fog_view_client) ← polled;
        '(self, key_image_client, r) ← poll_fog_for_key_images self key_image_client;
        Ret (self, fog_view_client, key_image_client, r)).
End polling_fog.
