(* ===== verification/AttestedLedger.v ===== *)
(** * The attested channel to the key image service

    A client's [EnclaveConnection] on one side, the handlers of the ledger
    server on the other, and a network between them that may lose a request
    before or after it was served.  The session laws say what the handshake and
    the ciphers of the two sides promise each other. *)

From S2P Require Import Prelude FogTypes KexRng UserRngSet Polling InputSelection ViewEnclave EnclaveConnection LedgerServer LedgerServerSpec CachedTxData.

Local Open Scope Z_scope.
Local Open Scope fog_scope.

(** ** The node behind the channel *)

(** What becomes of a call: it fails on the side of the client, its request or
    its answer is lost, or it is served and answered. *)
Inductive Delivery :=
| NotSent (code : Z)
| LostRequest (status : Z)
| LostAnswer (status : Z)
| Delivered.

Class Network `{AC : AttestClient} `{A : Ake} := {
  Net : Type;
  transport : Net -> Delivery * Net;
  (** What other clients do to the sessions of the enclave before a call. *)
  other_clients : Net -> AkeState -> AkeState;
  authenticate : Net -> CallOption -> result unit RpcError;
  headers : Net -> option Metadata;
  trailers : Net -> option Metadata;
  client_accept : AkeState -> bytes -> result bytes AttestEnclaveError * AkeState;
  (** The conversions between the message of the api and that of the enclave. *)
  into_enclave_message : Message -> EnclaveMessage;
  reply_message : bytes -> Message;
  grpc_status : RpcError -> Z;
  grpc_panic : Z;
}.

(** The encodings on the side of the client. *)
Class ClientCodec := {
  encode_check_key_images_request : CheckKeyImagesRequest -> bytes;
  decode_check_key_images_response : bytes -> result CheckKeyImagesResponse Z;
}.

Class ClientCodecLaws `{L : Ledger} (LC : LedgerCodec) (CC : ClientCodec) : Prop := {
  request_roundtrip : forall q, decode_check_key_images_request (encode_check_key_images_request q) = Some q;
  response_roundtrip : forall r,
    decode_check_key_images_response (encode_check_key_images_response r) = Ok r;
}.

Record LedgerNode `{L : Ledger} `{A : Ake} `{AC : AttestClient} `{N : !Network} := mkLedgerNode {
  ln_ake : AkeState;
  ln_world : World;
  ln_net : Net;
}.

Section node.
Context `{L : Ledger} `{A : Ake} `{AC : AttestClient} `{N : !Network} `{LC : !LedgerCodec}.

Definition call_node {R} (node : LedgerNode) (handler : Net -> AkeState -> io (AkeState * result R RpcError))
  : result (option Metadata * R * option Metadata) GrpcError * LedgerNode :=
  let '(delivery, net) := transport (ln_net node) in
  let serve (answered : R -> result (option Metadata * R * option Metadata) GrpcError) :=
    let ake := other_clients net (ln_ake node) in
    match handler net ake (ln_world node) with
    | Panic => (Err (RpcFailure grpc_panic), mkLedgerNode L A AC N ake (ln_world node) net)
    | Ret ((ake, r), world) =>
        (match r with
         | Ok r => answered r
         | Err e => Err (RpcFailure (grpc_status e))
         end, mkLedgerNode L A AC N ake world net)
    end in
  let untouched := mkLedgerNode L A AC N (ln_ake node) (ln_world node) net in
  match delivery with
  | NotSent code => (Err (OtherGrpcError code), untouched)
  | LostRequest status => (Err (RpcFailure status), untouched)
  | LostAnswer status => serve (fun _ => Err (RpcFailure status))
  | Delivered => serve (fun r => Ok (headers net, r, trailers net))
  end.

#[export] Instance node_channel : EnclaveGrpcChannel LedgerNode := {
  grpc_auth := fun node msg opt =>
    call_node node (fun net ake => io_ret (ledger_auth client_accept (authenticate net opt) ake msg));
  grpc_enclave_request := fun node msg opt =>
    call_node node (fun net ake =>
      let! (ake, reply) := rpc_check_key_images (authenticate net opt) ake (into_enclave_message msg) in
      io_ret (ake, match reply with Ok b => Ok (reply_message b) | Err e => Err e end));
}.
End node.

(** ** What the two sides promise each other *)

(** A cipher is in sync with the enclave when the next message in either
    direction is accepted; it is ahead when it has encrypted a message the
    enclave never saw. *)
Class SessionLaws `{AC : AttestClient} `{A : Ake} (N : Network)
    (in_sync ahead : Ready -> AkeState -> Prop) : Prop := {
  handshake_sync : forall responder rng ini m rng1 a reply a1 verifier rng2 k report rng3,
    client_initiate responder rng = (Ok (ini, m), rng1) -> client_accept a m = (Ok reply, a1) ->
    client_finish ini reply verifier rng2 = (Ok (k, report), rng3) -> in_sync k a1;
  sync_encrypt : forall k a aad pt ct k1, in_sync k a -> ready_encrypt k aad pt = (Ok ct, k1) ->
    let msg := into_enclave_message (mkMessage aad (binding k) ct) in
    ahead k1 a
    /\ exists a1, client_decrypt a msg = (Ok pt, a1)
       /\ forall bs reply a2, client_encrypt a1 (channel_id msg) bs = (Ok reply, a2) ->
            exists k2, ready_decrypt k1 (msg_aad (reply_message reply)) (msg_data (reply_message reply))
                         = (Ok bs, k2)
              /\ in_sync k2 a2;
  ahead_encrypt : forall k a aad pt ct k1, ahead k a -> ready_encrypt k aad pt = (Ok ct, k1) ->
    ahead k1 a
    /\ exists e a1, client_decrypt a (into_enclave_message (mkMessage aad (binding k) ct)) = (Err e, a1);
  sync_encrypt_err : forall k a aad pt e k1, in_sync k a -> ready_encrypt k aad pt = (Err e, k1) ->
    in_sync k1 a;
  ahead_encrypt_err : forall k a aad pt e k1, ahead k a -> ready_encrypt k aad pt = (Err e, k1) ->
    ahead k1 a;
  sync_others : forall k a net, in_sync k a -> in_sync k (other_clients net a);
  ahead_others : forall k a net, ahead k a -> ahead k (other_clients net a);
}.

(** A header for basic authentication is always a valid header. *)
Class MetadataLaws (AC : AttestClient) : Prop := authorization_valid :
  forall builder username password, exists builder',
    add_authorization builder (authorization_header username password) = Ok builder'.

(** [attested_call] on a connection with a session makes the call, and gives the
    session up when the call fails with a status. *)
Class AttestedCallLaws `{AC : AttestClient} {G} (attested_call :
    (EnclaveConnection G -> run (EnclaveConnection G * result Message GrpcError)) ->
    EnclaveConnection G -> run (EnclaveConnection G * result Message EnclaveConnectionError)) : Prop :=
  attested_call_in_session : forall func self, is_attested self = true ->
    attested_call func self =
      ('(self, r) ← func self;
       Ret match r with
           | Ok message => (self, Ok message)
           | Err (RpcFailure s) => (deattest self, Err (Rpc (RpcFailure s)))
           | Err e => (self, Err (Rpc e))
           end).

(** ** One request *)

Section session.
Context `{L : Ledger} `{A : Ake} `{AC : AttestClient} `{N : !Network} `{LC : !LedgerCodec}.
Context `{CC : ClientCodec} `{CL : !ClientCodecLaws LC CC} `{ML : !MetadataLaws AC}.
Context (in_sync ahead : Ready -> AkeState -> Prop) `{SL : !SessionLaws N in_sync ahead}.
Context (attested_call :
  (EnclaveConnection LedgerNode -> run (EnclaveConnection LedgerNode * result Message GrpcError)) ->
  EnclaveConnection LedgerNode -> run (EnclaveConnection LedgerNode * result Message EnclaveConnectionError)).
Context `{AL : !AttestedCallLaws attested_call}.
Context (height : World -> Z) (truth : LedgerTruth).
Context (valid_proof : Z -> TxOut -> MembershipProof -> Prop) `{LL : !LedgerLaws L height truth valid_proof}.
Implicit Types (c : EnclaveConnection LedgerNode).

Definition conn_world c : World := ln_world (ec_grpc c).

(** The service ran on the ledger [w], answered [x] and left [w']. *)
Definition served (request : CheckKeyImagesRequest) (w : World)
    (x : result CheckKeyImagesResponse RpcError) (w' : World) : Prop :=
  check_key_images_impl (mkKeyImageContext (kiq_key_image <$> ckr_queries request)) w = Ret (x, w').

Lemma served_total request w : exists x w', served request w x w'.
Proof.
  destruct (check_key_images_impl_spec height truth valid_proof
    (kiq_key_image <$> ckr_queries request) w) as (x & w' & Hx & _); by exists x, w'.
Qed.

(** The session of a connection is in sync or ahead. *)
Definition conn_inv c : Prop :=
  match attest_cipher c with
  | None => True
  | Some k => in_sync k (ln_ake (ec_grpc c)) \/ ahead k (ln_ake (ec_grpc c))
  end.

Lemma call_option_ret c : exists opt, call_option c = Ret opt.
Proof.
  unfold call_option; destruct (_ && _); simpl; [|by eexists].
  destruct (ML (match to_client_metadata (ec_cookies c) with Ok b => b | Err _ => MetadataBuilder_new end)
    (creds_username (ec_creds c)) (creds_password (ec_creds c))) as [b ->]; simpl; by eexists.
Qed.

Lemma deattest_cipher c : attest_cipher (deattest c) = None.
Proof. unfold deattest, is_attested; destruct (attest_cipher c) eqn:H; [done|by rewrite H]. Qed.

Lemma deattest_grpc c : ec_grpc (deattest c) = ec_grpc c.
Proof. unfold deattest; by destruct (is_attested c). Qed.

Lemma update_cookies_cipher c h t : attest_cipher (update_cookies c h t) = attest_cipher c.
Proof. done. Qed.

(** A new session is in sync, and attesting does not read the ledger. *)
Lemma attest_spec c : exists c' r, attest c = Ret (c', r) /\ conn_world c' = conn_world c
  /\ match r with
     | Ok _ => exists k, attest_cipher c' = Some k /\ in_sync k (ln_ake (ec_grpc c'))
     | Err _ => attest_cipher c' = None
     end.
Proof.
  unfold attest, conn_world; pose proof (deattest_cipher c) as Hn; rewrite <- (deattest_grpc c).
  destruct (deattest c) as [uri node cipher verifier creds cookies rng]; simpl in Hn |- *; subst cipher.
  destruct (responder_id uri) as [rid|e]; [|by eexists _, _].
  destruct (client_initiate rid rng) as [[[ini m]|e] rng1] eqn:Hi; [|by eexists _, _].
  match goal with |- context [call_option ?x] => destruct (call_option_ret x) as [opt ->]; simpl end.
  unfold call_node; destruct (transport (ln_net node)) as [delivery net].
  unfold ledger_auth, io_ret; destruct (authenticate net opt) as [[]|e];
    [|destruct delivery; simpl; by eexists _, _].
  destruct (client_accept (other_clients net (ln_ake node)) m) as [[reply|e] a1] eqn:Ha;
    [|destruct delivery; simpl; by eexists _, _].
  destruct delivery; simpl; try by eexists _, _.
  match goal with |- context [client_finish ?i ?r ?v ?g] =>
    destruct (client_finish i r v g) as [[[k report]|e] rng3] eqn:Hf end; simpl; eexists _, _; split; try done.
  split; [done|]; exists k; split; [done|]; by eapply handshake_sync.
Qed.

(** The handler on a message of a cipher that is in sync. *)
Lemma handler_sync k a aad request ct k1 authenticated w :
  in_sync k a -> ready_encrypt k aad (encode_check_key_images_request request) = (Ok ct, k1) ->
  exists a' r w',
    rpc_check_key_images authenticated a (into_enclave_message (mkMessage aad (binding k) ct)) w
      = Ret ((a', r), w')
    /\ match r with
       | Ok reply => exists response k2, served request w (Ok response) w'
           /\ ready_decrypt k1 (msg_aad (reply_message reply)) (msg_data (reply_message reply))
                = (Ok (encode_check_key_images_response response), k2)
           /\ in_sync k2 a'
       | Err _ => w' = w \/ exists x, served request w x w'
       end.
Proof.
  intros Hs He; destruct (sync_encrypt _ _ _ _ _ _ Hs He) as (_ & a1 & Hd & Hreply).
  unfold rpc_check_key_images; destruct authenticated as [[]|e]; [|by eexists _, _, _; split; [done|left]].
  unfold check_key_images_auth, check_key_images; rewrite Hd; simpl; rewrite request_roundtrip.
  destruct (served_total request w) as (x & w' & Hx); pose proof Hx as Hx'; unfold served in Hx'.
  unfold io_bind; rewrite Hx'; simpl.
  destruct x as [response|e]; simpl; [|by eexists _, _, _; split; [done|right; eexists]].
  unfold check_key_images_data.
  destruct (client_encrypt a1 _ _) as [[reply|e] a2] eqn:Hc; simpl;
    [|by eexists _, _, _; split; [done|right; eexists]].
  destruct (Hreply _ _ _ Hc) as (k2 & Hk2 & Hsync).
  eexists _, _, _; split; [done|]; by exists response, k2.
Qed.

(** On a message of a cipher that is ahead it fails and does not read the ledger. *)
Lemma handler_ahead k a aad pt ct k1 authenticated w :
  ahead k a -> ready_encrypt k aad pt = (Ok ct, k1) ->
  exists a' e,
    rpc_check_key_images authenticated a (into_enclave_message (mkMessage aad (binding k) ct)) w
      = Ret ((a', Err e), w).
Proof.
  intros Hs He; destruct (ahead_encrypt _ _ _ _ _ _ Hs He) as (_ & e & a1 & Hd).
  unfold rpc_check_key_images; destruct authenticated as [[]|e']; [|by eexists _, _].
  unfold check_key_images_auth, check_key_images; rewrite Hd; simpl; by eexists _, _.
Qed.

(** The ledger is left alone, or the service ran once. *)
Definition at_most_once (request : CheckKeyImagesRequest) (w w' : World) : Prop :=
  w' = w \/ exists x, served request w x w'.

Lemma send_spec c k aad request ct k1 :
  attest_cipher c = Some k1 ->
  in_sync k (ln_ake (ec_grpc c)) \/ ahead k (ln_ake (ec_grpc c)) ->
  ready_encrypt k aad (encode_check_key_images_request request) = (Ok ct, k1) ->
  exists c' r, attested_call (send_message (mkMessage aad (binding k) ct)) c = Ret (c', r)
    /\ match r with
       | Ok m => exists response k2, served request (conn_world c) (Ok response) (conn_world c')
           /\ attest_cipher c' = Some k1
           /\ ready_decrypt k1 (msg_aad m) (msg_data m)
                = (Ok (encode_check_key_images_response response), k2)
           /\ in_sync k2 (ln_ake (ec_grpc c'))
       | Err _ => conn_inv c' /\ at_most_once request (conn_world c) (conn_world c')
       end.
Proof.
  intros Hk Hs He; rewrite AL by (unfold is_attested; by rewrite Hk).
  unfold send_message; destruct (call_option_ret c) as [opt ->]; simpl.
  assert (Hahead : ahead k1 (ln_ake (ec_grpc c)))
    by (destruct Hs as [Hs|Hs];
        [exact (proj1 (sync_encrypt _ _ _ _ _ _ Hs He))|exact (proj1 (ahead_encrypt _ _ _ _ _ _ Hs He))]).
  unfold call_node; destruct (transport (ln_net (ec_grpc c))) as [delivery net].
  assert (Hserve : exists a' r w',
    (let! (ake, reply) := rpc_check_key_images (authenticate net opt)
       (other_clients net (ln_ake (ec_grpc c))) (into_enclave_message (mkMessage aad (binding k) ct)) in
     io_ret (ake, match reply with Ok b => Ok (reply_message b) | Err e => Err e end)) (conn_world c)
      = Ret ((a', r), w')
    /\ match r with
       | Ok m => exists response k2, served request (conn_world c) (Ok response) w'
           /\ ready_decrypt k1 (msg_aad m) (msg_data m)
                = (Ok (encode_check_key_images_response response), k2)
           /\ in_sync k2 a'
       | Err _ => at_most_once request (conn_world c) w'
       end).
  { unfold io_bind; destruct Hs as [Hs|Hs].
    - destruct (handler_sync k (other_clients net (ln_ake (ec_grpc c))) aad request ct k1
        (authenticate net opt) (conn_world c)) as (a' & r & w' & -> & Hr); [by apply sync_others|done|].
      simpl; destruct r as [reply|e]; by eexists _, _, _.
    - destruct (handler_ahead k (other_clients net (ln_ake (ec_grpc c))) aad
        (encode_check_key_images_request request) ct k1 (authenticate net opt) (conn_world c))
        as (a' & e & ->); [by apply ahead_others|done|].
      simpl; eexists _, _, _; split; [done|by left]. }
  destruct Hserve as (a' & r & w' & Hh & Hr); unfold conn_world in Hh.
  destruct delivery; simpl; try rewrite Hh; simpl.
  - eexists _, _; split; [done|]; split; [|by left]; unfold conn_inv; simpl; rewrite Hk; by right.
  - eexists _, _; split; [done|]; unfold conn_inv, conn_world.
    rewrite deattest_cipher, deattest_grpc; split; [done|by left].
  - destruct r as [m|e]; simpl; (eexists _, _; split; [done|]); unfold conn_inv, conn_world;
      rewrite deattest_cipher, deattest_grpc; simpl; (split; [done|]); [|done].
    destruct Hr as (response & k2 & Hx & _); right; by eexists.
  - destruct r as [m|e]; simpl.
    + eexists _, _; split; [done|]; destruct Hr as (response & k2 & Hx & Hd & Hsync).
      exists response, k2; split_and!; done.
    + eexists _, _; split; [done|]; unfold conn_inv, conn_world.
      rewrite deattest_cipher, deattest_grpc; done.
Qed.

Definition key_images_over (c : EnclaveConnection LedgerNode) (request : CheckKeyImagesRequest)
  : run (EnclaveConnection LedgerNode * result CheckKeyImagesResponse EnclaveConnectionError) :=
  encrypted_enclave_request attested_call encode_check_key_images_request
    decode_check_key_images_response c request [].

(** What a request may do. *)
Definition request_spec c (request : CheckKeyImagesRequest) c'
    (r : result CheckKeyImagesResponse EnclaveConnectionError) : Prop :=
  conn_inv c'
  /\ match r with
     | Ok response => served request (conn_world c) (Ok response) (conn_world c')
     | Err _ => at_most_once request (conn_world c) (conn_world c')
     end.

Lemma request_in_session_spec c k request : attest_cipher c = Some k ->
  in_sync k (ln_ake (ec_grpc c)) \/ ahead k (ln_ake (ec_grpc c)) ->
  exists c' r, request_in_session attested_call encode_check_key_images_request
      decode_check_key_images_response c request [] = Ret (c', r)
    /\ request_spec c request c' r.
Proof.
  intros Hk Hs; unfold request_in_session; rewrite Hk; simpl.
  destruct (ready_encrypt k [] _) as [[ct|e] k1] eqn:He; simpl.
  - destruct (send_spec (set_cipher c (Some k1)) k [] request ct k1) as (c' & r & -> & Hr); [done|done|done|].
    destruct r as [m|e]; simpl; [|by eexists _, _].
    destruct Hr as (response & k2 & Hx & -> & Hd & Hsync); simpl; rewrite Hd; simpl.
    eexists _, _; split; [done|]; rewrite response_roundtrip; split; [by left|done].
  - eexists _, _; split; [done|]; split; [|by left]; unfold conn_inv; simpl.
    destruct Hs as [Hs|Hs]; [left; by eapply sync_encrypt_err|right; by eapply ahead_encrypt_err].
Qed.

Lemma key_images_over_spec c request : conn_inv c ->
  exists c' r, key_images_over c request = Ret (c', r) /\ request_spec c request c' r.
Proof.
  intros Hinv; unfold key_images_over, encrypted_enclave_request, is_attested; unfold conn_inv in Hinv.
  destruct (attest_cipher c) as [k|] eqn:Hk; [by eapply request_in_session_spec|].
  destruct (attest_spec c) as (c1 & r & -> & Hw & Hr); destruct r as [report|e]; simpl.
  - destruct Hr as (k & Hk1 & Hsync).
    destruct (request_in_session_spec c1 k request Hk1 (or_introl Hsync)) as (c' & r & -> & Hi & Hr).
    eexists _, _; split; [done|]; split; [done|]; by rewrite <- Hw.
  - eexists _, _; split; [done|]; split; [unfold conn_inv; by rewrite Hr|by left].
Qed.

(** ** Recovery *)

(** From now on the network delivers, the server accepts the client, and the
    handshake and the ciphers work. *)
Record available (good : Net -> Prop) (uri : Uri) (creds : BasicCredentials) : Prop := {
  av_responder : exists responder, responder_id uri = Ok responder;
  av_transport : forall net, good net -> exists net', transport net = (Delivered, net') /\ good net';
  av_authenticate : forall net c opt, good net -> call_option c = Ret opt -> ec_creds c = creds ->
    authenticate net opt = Ok tt;
  av_handshake : forall responder rng a, exists ini m rng1 reply a1,
    client_initiate responder rng = (Ok (ini, m), rng1) /\ client_accept a m = (Ok reply, a1)
    /\ forall verifier rng2, exists k report rng3,
         client_finish ini reply verifier rng2 = (Ok (k, report), rng3);
  av_encrypt : forall k aad pt, exists ct k1, ready_encrypt k aad pt = (Ok ct, k1);
  av_reply : forall a channel bs, exists reply a1, client_encrypt a channel bs = (Ok reply, a1);
}.

(** The request got the answer of the service, or its status. *)
Definition answered c (request : CheckKeyImagesRequest) c'
    (r : result CheckKeyImagesResponse EnclaveConnectionError) : Prop :=
  exists x, served request (conn_world c) x (conn_world c')
    /\ r = match x with
           | Ok response => Ok response
           | Err e => Err (Rpc (RpcFailure (grpc_status e)))
           end.

Section recovery.
Context (good : Net -> Prop).

Definition conn_good c : Prop := good (ln_net (ec_grpc c)) /\ available good (ec_uri c) (ec_creds c).

Lemma attest_available c : conn_good c -> exists c' report, attest c = Ret (c', Ok report)
  /\ conn_world c' = conn_world c /\ conn_good c'
  /\ exists k, attest_cipher c' = Some k /\ in_sync k (ln_ake (ec_grpc c')).
Proof.
  unfold attest, conn_world, conn_good; rewrite <- (deattest_grpc c).
  replace (ec_uri c) with (ec_uri (deattest c)) by (unfold deattest; by destruct (is_attested c)).
  replace (ec_creds c) with (ec_creds (deattest c)) by (unfold deattest; by destruct (is_attested c)).
  destruct (deattest c) as [uri node cipher verifier creds cookies rng]; cbn; intros [Hg Hav].
  destruct (av_responder _ _ _ Hav) as [rid ->]; destruct (av_transport _ _ _ Hav _ Hg) as (net & Ht & Hg').
  destruct (av_handshake _ _ _ Hav rid rng (other_clients net (ln_ake node)))
    as (ini & m & rng1 & reply & a1 & Hi & Ha & Hf); rewrite Hi.
  match goal with |- context [call_option ?x] => destruct (call_option_ret x) as [opt Hopt]; rewrite Hopt; simpl end.
  unfold call_node; rewrite Ht; simpl; unfold ledger_auth, io_ret.
  rewrite (av_authenticate _ _ _ Hav _ _ opt Hg' Hopt eq_refl), Ha; simpl.
  destruct (Hf verifier rng1) as (k & report & rng3 & Hfin); rewrite Hfin.
  eexists _, _; split; [done|]; simpl; split_and!; [done|done|done|]; exists k; split; [done|].
  by eapply handshake_sync.
Qed.

Lemma session_available c k request : conn_good c -> attest_cipher c = Some k ->
  in_sync k (ln_ake (ec_grpc c)) ->
  exists c' r, request_in_session attested_call encode_check_key_images_request
      decode_check_key_images_response c request [] = Ret (c', r)
    /\ answered c request c' r.
Proof.
  intros [Hg Hav] Hk Hs; unfold request_in_session; rewrite Hk; simpl.
  destruct (av_encrypt _ _ _ Hav k [] (encode_check_key_images_request request)) as (ct & k1 & He).
  rewrite He, AL by done; unfold send_message.
  destruct (call_option_ret (set_cipher c (Some k1))) as [opt Hopt]; rewrite Hopt; simpl.
  destruct (av_transport _ _ _ Hav _ Hg) as (net & Ht & Hg'); unfold call_node; rewrite Ht; simpl.
  set (a := other_clients net (ln_ake (ec_grpc c))).
  assert (Ha : in_sync k a) by by apply sync_others.
  destruct (sync_encrypt _ _ _ _ _ _ Ha He) as (_ & a1 & Hd & Hreply).
  destruct (served_total request (conn_world c)) as (x & w' & Hx); pose proof Hx as Hx'; unfold served in Hx'.
  unfold conn_world in Hx'.
  rewrite (av_authenticate _ _ _ Hav _ _ opt Hg' Hopt eq_refl); unfold rpc_check_key_images, check_key_images_auth, check_key_images.
  rewrite Hd; simpl; rewrite request_roundtrip; unfold io_bind; rewrite Hx'; simpl.
  destruct x as [response|e]; simpl.
  - unfold check_key_images_data.
    destruct (av_reply _ _ _ Hav a1 (channel_id (into_enclave_message (mkMessage [] (binding k) ct)))
      (encode_check_key_images_response response)) as (reply & a2 & Hr); rewrite Hr; simpl.
    destruct (Hreply _ _ _ Hr) as (k2 & Hk2 & _); rewrite Hk2; simpl; rewrite response_roundtrip.
    eexists _, _; split; [done|]; by exists (Ok response).
  - eexists _, _; split; [done|]; exists (Err e); split; [|done].
    unfold conn_world; rewrite deattest_grpc; done.
Qed.

(** A message that the enclave rejects makes the connection attest again. *)
Lemma ahead_available c k request : conn_good c -> attest_cipher c = Some k ->
  ahead k (ln_ake (ec_grpc c)) ->
  exists c' e, request_in_session attested_call encode_check_key_images_request
      decode_check_key_images_response c request [] = Ret (c', Err e)
    /\ attest_cipher c' = None /\ conn_world c' = conn_world c /\ conn_good c'.
Proof.
  intros [Hg Hav] Hk Hs; unfold request_in_session; rewrite Hk; simpl.
  destruct (av_encrypt _ _ _ Hav k [] (encode_check_key_images_request request)) as (ct & k1 & He).
  rewrite He, AL by done; unfold send_message.
  destruct (call_option_ret (set_cipher c (Some k1))) as [opt Hopt]; rewrite Hopt; simpl.
  destruct (av_transport _ _ _ Hav _ Hg) as (net & Ht & Hg'); unfold call_node; rewrite Ht; simpl.
  destruct (handler_ahead k (other_clients net (ln_ake (ec_grpc c))) [] _ ct k1 (authenticate net opt)
    (conn_world c) (ahead_others _ _ _ Hs) He) as (a' & e & Hh).
  unfold io_bind; unfold conn_world in Hh; rewrite Hh; simpl.
  eexists _, _; split; [done|]; unfold conn_world, conn_good; rewrite deattest_cipher, deattest_grpc.
  split_and!; done.
Qed.

Lemma key_images_over_fresh c request : conn_good c -> attest_cipher c = None ->
  exists c' r, key_images_over c request = Ret (c', r) /\ answered c request c' r.
Proof.
  intros Hc Hn; unfold key_images_over, encrypted_enclave_request, is_attested; rewrite Hn.
  destruct (attest_available c Hc) as (c1 & report & -> & Hw & Hc1 & k & Hk & Hs); simpl.
  destruct (session_available c1 k request Hc1 Hk Hs) as (c' & r & -> & x & Hx & Hr).
  eexists _, _; split; [done|]; exists x; by rewrite <- Hw.
Qed.

Lemma key_images_over_recovers c request : conn_inv c -> conn_good c ->
  exists c1 r1, key_images_over c request = Ret (c1, r1)
    /\ (answered c request c1 r1
        \/ conn_world c1 = conn_world c
           /\ exists c2 r2, key_images_over c1 request = Ret (c2, r2) /\ answered c1 request c2 r2).
Proof.
  intros Hinv Hc; destruct (attest_cipher c) as [k|] eqn:Hk.
  - unfold conn_inv in Hinv; rewrite Hk in Hinv; destruct Hinv as [Hs|Hs].
    + destruct (session_available c k request Hc Hk Hs) as (c' & r & Hr & Ha).
      exists c', r; split; [|by left].
      unfold key_images_over, encrypted_enclave_request, is_attested; by rewrite Hk.
    + destruct (ahead_available c k request Hc Hk Hs) as (c1 & e & Hr & Hn & Hw & Hc1).
      exists c1, (Err e); split.
      { unfold key_images_over, encrypted_enclave_request, is_attested; by rewrite Hk. }
      right; split; [done|by apply key_images_over_fresh].
  - destruct (key_images_over_fresh c request Hc Hk) as (c' & r & Hr & Ha).
    exists c', r; split; [done|by left].
Qed.
End recovery.

(** C15: the attested connection refines the key image service.  From a
    connection without a session, or any it reaches, a request does not panic
    and reaches the service at most once, whatever the network loses: an answer
    the client gets is the answer of the service to this request on the ledger
    as it was, and after a failure the connection is again one of these.  As
    soon as the network delivers, the request or its repetition is answered,
    whatever failed before. *)
Theorem attested_connection_refines c request : conn_inv c ->
  (exists c' r, key_images_over c request = Ret (c', r) /\ request_spec c request c' r)
  /\ forall good, good (ln_net (ec_grpc c)) -> available good (ec_uri c) (ec_creds c) ->
       exists c1 r1, key_images_over c request = Ret (c1, r1)
         /\ (answered c request c1 r1
             \/ conn_world c1 = conn_world c
                /\ exists c2 r2, key_images_over c1 request = Ret (c2, r2)
                     /\ answered c1 request c2 r2).
Proof.
  intros Hinv; split; [by apply key_images_over_spec|].
  intros good Hg Hav; by apply (key_images_over_recovers good).
Qed.
End session.
