(* ===== verification/CachedTxDataSpec.v ===== *)
(** * The wallet computes the right balance

    The account is given by the outputs that belong to it and the blocks in
    which their key images are spent.  [wallet_inv] relates the cached state to
    the account; it is kept by every operation of the wallet, against servers
    that tell the truth ([TruthfulView], [TruthfulKeyImages]), and gives the
    balance.  Servers may lag, fail and answer with outputs of other users. *)

From Stdlib Require Import Sorting.Sorted.
From S2P Require Import Prelude FogTypes KexRng UserRngSet Polling InputSelection ViewEnclave EnclaveConnection LedgerServer CachedTxData.

Local Open Scope Z_scope.
Local Open Scope fog_scope.

(** ** The ordered map *)
Section btree_lemmas.
Context {V : Type}.
Implicit Types m : list (Z * V).

Definition btree_ok (m : list (Z * V)) : Prop := StronglySorted Z.lt m.*1.

Lemma btree_get_insert k v k' m :
  btree_get k' (btree_insert k v m) = if decide (k' = k) then Some v else btree_get k' m.
Proof.
  induction m as [|[k1 v1] m IH]; simpl.
  { case_decide; destruct (Z.eqb_spec k' k); congruence. }
  destruct (Z.ltb_spec k k1) as [|]; [|destruct (Z.eqb_spec k k1) as [->|]]; simpl.
  - case_decide; destruct (Z.eqb_spec k' k); congruence.
  - case_decide; destruct (Z.eqb_spec k' k1); congruence.
  - rewrite IH; case_decide; destruct (Z.eqb_spec k' k1); congruence.
Qed.

Lemma btree_insert_keys k v m k' : k' ∈ (btree_insert k v m).*1 <-> k' = k \/ k' ∈ m.*1.
Proof.
  induction m as [|[k1 v1] m IH]; simpl; [set_solver|].
  destruct (k <? k1); [set_solver|].
  destruct (Z.eqb_spec k k1) as [->|]; simpl; rewrite ?elem_of_cons, ?IH; tauto.
Qed.

Lemma btree_insert_ok k v m : btree_ok m -> btree_ok (btree_insert k v m).
Proof.
  unfold btree_ok; induction m as [|[k1 v1] m IH]; simpl; [by repeat constructor|].
  intros [Hs Hall]%StronglySorted_inv; destruct (Z.ltb_spec k k1); [|destruct (Z.eqb_spec k k1)]; simpl.
  - repeat constructor; [done|done|done|]; eapply Forall_impl; [exact Hall|]; simpl; lia.
  - subst; by constructor.
  - constructor; [by apply IH|]; apply Forall_forall; intros k' [->|Hk]%btree_insert_keys; [lia|].
    by eapply Forall_forall in Hall.
Qed.

Lemma btree_ok_get m k v : btree_ok m -> (k, v) ∈ m <-> btree_get k m = Some v.
Proof.
  unfold btree_ok; induction m as [|[k1 v1] m IH]; simpl; [intros _; split; [set_solver|done]|].
  intros [Hs Hall]%StronglySorted_inv; rewrite elem_of_cons, (IH Hs); clear IH.
  destruct (Z.eqb_spec k k1) as [->|]; [|naive_solver].
  split; [intros [[= ->]|Hg]; [done|]|naive_solver].
  exfalso; assert (k1 ∈ m.*1) as Hin; [|apply (proj1 (Forall_forall _ _) Hall) in Hin; lia].
  clear -Hg; induction m as [|[k2 v2] m IH]; simpl in *; [done|].
  destruct (Z.eqb_spec k1 k2) as [->|]; [by left|right; auto].
Qed.

Lemma btree_get_is_Some m k : is_Some (btree_get k m) <-> k ∈ m.*1.
Proof.
  induction m as [|[k1 v1] m IH]; simpl; [split; [by intros [? [=]]|set_solver]|].
  destruct (Z.eqb_spec k k1) as [->|]; [split; [by left|by eexists]|].
  rewrite IH, elem_of_cons; naive_solver.
Qed.

Lemma btree_ok_NoDup m : btree_ok m -> NoDup m.*1.
Proof.
  unfold btree_ok; induction 1 as [|k l Hs IH Hall]; constructor; [|done].
  intros Hin; apply (proj1 (Forall_forall _ _) Hall) in Hin; lia.
Qed.

Lemma btree_values m v : btree_ok m -> v ∈ m.*2 <-> exists k, btree_get k m = Some v.
Proof.
  intros Hok; rewrite list_elem_of_fmap; split.
  - intros ([k v'] & -> & Hin); exists k; by apply btree_ok_get.
  - intros [k Hg]; exists (k, v); split; [done|by apply btree_ok_get].
Qed.
End btree_lemmas.

(** ** Tests that may panic *)

Lemma run_filter_ret {A} (p : A -> run bool) (q : A -> bool) l :
  Forall (fun x => p x = Ret (q x)) l -> run_filter p l = Ret (List.filter q l).
Proof. induction 1 as [|x l Hx _ IH]; simpl; [done|]; rewrite Hx; simpl; rewrite IH; by destruct (q x). Qed.

Lemma fmap_filter_sublist {A B} (f : A -> B) (q : A -> bool) l :
  f <$> List.filter q l `sublist_of` f <$> l.
Proof. induction l as [|x l IH]; simpl; [done|]; destruct (q x); by constructor. Qed.

(** ** The account *)

Record TrueTxo := mkTrueTxo {
  tt_global_index : Z;
  tt_block_index : Z;
  tt_value : Z;
  tt_key_image : bytes;
}.

#[export] Instance TrueTxo_eq_dec : EqDecision TrueTxo.
Proof. solve_decision. Defined.

(** All outputs of the account, in the blocks there are and the blocks to come,
    and the block in which a key image is spent. *)
Record Account := mkAccount {
  acc_txos : list TrueTxo;
  acc_spent : gmap (list Z) Z;
}.

(** The output is in the first [n] blocks and is not spent in them. *)
Definition unspent_at (a : Account) (n : Z) (t : TrueTxo) : bool :=
  (tt_block_index t <? n)
  && match acc_spent a !! tt_key_image t with Some s => n <=? s | None => true end.

(** The balance of the account when the ledger has exactly [n] blocks. *)
Definition balance_at (a : Account) (n : Z) : Z :=
  zsum (tt_value <$> List.filter (unspent_at a n) (acc_txos a)).

(** What consensus guarantees: indices and key images are unique, an output is
    spent after the block it appears in, and the supply is a [u64]. *)
Record account_ok (a : Account) : Prop := {
  ao_index : NoDup (tt_global_index <$> acc_txos a);
  ao_key_image : NoDup (tt_key_image <$> acc_txos a);
  ao_spent : forall t s, t ∈ acc_txos a -> acc_spent a !! tt_key_image t = Some s ->
    tt_block_index t < s;
  ao_block : forall t, t ∈ acc_txos a -> 0 <= tt_block_index t < u64_max;
  ao_value : nonneg (tt_value <$> acc_txos a);
  ao_supply : zsum (tt_value <$> acc_txos a) < u64_modulus;
}.

(** What the wallet knows of an output, without the status. *)
Definition true_txo (o : OwnedTxOut) : TrueTxo :=
  mkTrueTxo (oto_global_index o) (oto_block_index o) (oto_value o) (oto_key_image o).

Definition status_true (a : Account) (o : OwnedTxOut) : Prop :=
  match oto_status o with
  | SpentAt s => acc_spent a !! oto_key_image o = Some s
  | NotSpentAsOf n => oto_block_index o < n
      /\ forall s, acc_spent a !! oto_key_image o = Some s -> n <= s
  end.

(** The entries of the map are outputs of the account with a true status. *)
Record owned_true (a : Account) (owned : list (Z * OwnedTxOut)) : Prop := {
  ow_sorted : btree_ok owned;
  ow_index : forall k o, btree_get k owned = Some o -> oto_global_index o = k;
  ow_txo : forall k o, btree_get k owned = Some o -> true_txo o ∈ acc_txos a;
  ow_status : forall k o, btree_get k owned = Some o -> status_true a o;
}.

(** The documented invariant: the completeness is at most the block count of
    every output that is not known to be spent. *)
Definition completeness_ok (completeness : Z) (owned : list (Z * OwnedTxOut)) : Prop :=
  forall k o n, btree_get k owned = Some o -> oto_status o = NotSpentAsOf n -> completeness <= n.

Record wallet_inv (a : Account) (self : CachedTxData) : Prop := {
  wi_owned : owned_true a (owned_tx_outs self);
  wi_complete : completeness_ok (key_image_data_completeness self) (owned_tx_outs self);
  wi_max : key_image_data_completeness self <= u64_max;
}.

(** Every output below the block count of the rng set is in the map. *)
Definition wallet_covers (a : Account) (self : CachedTxData) : Prop :=
  forall t, t ∈ acc_txos a ->
    tt_block_index t < urs_highest_processed_block_count (ctd_rng_set self) ->
    tt_global_index t ∈ (owned_tx_outs self).*1.

Lemma sublist_nonneg s l : s `sublist_of` l -> nonneg l -> nonneg s.
Proof.
  induction 1 as [|x l1 l2 _ IH|x l1 l2 _ IH]; intros Hn; [done| |];
    apply Forall_cons in Hn as [? Hn]; [apply Forall_cons; split; [done|]|]; by apply IH.
Qed.

Lemma sublist_zsum s l : s `sublist_of` l -> nonneg l -> zsum s <= zsum l.
Proof.
  induction 1; intros Hn; simpl; [lia| |]; apply Forall_cons in Hn as [? Hn];
    specialize (IHsublist Hn); lia.
Qed.

Lemma NoDup_fmap_inj_in {A B} (f : A -> B) l x y :
  NoDup (f <$> l) -> x ∈ l -> y ∈ l -> f x = f y -> x = y.
Proof.
  induction l as [|z l IH]; [by intros _ ?%not_elem_of_nil|]; rewrite fmap_cons, NoDup_cons, !elem_of_cons.
  intros [Hz Hnd] [->|Hx] [->|Hy] Heq; [done| | |by apply IH].
  - destruct Hz; rewrite Heq; by apply list_elem_of_fmap_2.
  - destruct Hz; rewrite <- Heq; by apply list_elem_of_fmap_2.
Qed.

Lemma elem_of_list_filter_bool {A} (q : A -> bool) l x :
  x ∈ List.filter q l <-> q x = true /\ x ∈ l.
Proof. rewrite !list_elem_of_In, List.filter_In; tauto. Qed.

Lemma filter_fmap_comm {A B} (f : A -> B) (q : B -> bool) l :
  List.filter q (f <$> l) = f <$> List.filter (fun x => q (f x)) l.
Proof. induction l as [|x l IH]; [done|]; rewrite fmap_cons; simpl; destruct (q (f x)); by rewrite IH. Qed.

Lemma NoDup_list_filter {A} (q : A -> bool) l : NoDup l -> NoDup (List.filter q l).
Proof.
  induction 1 as [|x l Hx _ IH]; simpl; [constructor|]; destruct (q x); [|done].
  constructor; [|done]; rewrite elem_of_list_filter_bool; tauto.
Qed.

Section balance.
Context (a : Account) (Ha : account_ok a).

Lemma owned_values owned o : owned_true a owned -> o ∈ owned.*2 ->
  true_txo o ∈ acc_txos a /\ status_true a o /\ btree_get (oto_global_index o) owned = Some o.
Proof.
  intros Ho (k & Hk)%btree_values; [|apply Ho]; pose proof (ow_index _ _ Ho _ _ Hk); subst k.
  split_and!; [by eapply ow_txo|by eapply ow_status|done].
Qed.

(** The outputs of the wallet are different outputs of the account. *)
Lemma owned_NoDup owned : owned_true a owned -> NoDup (true_txo <$> owned.*2).
Proof.
  intros Ho; apply (NoDup_fmap_1 tt_global_index); rewrite <- !list_fmap_compose.
  replace (tt_global_index ∘ (true_txo ∘ snd) <$> owned) with owned.*1.
  { apply btree_ok_NoDup, Ho. }
  apply list_fmap_ext; intros i [k o] Hi%list_elem_of_lookup_2; simpl; symmetry.
  eapply ow_index; [exact Ho|]; by apply (btree_ok_get _ _ _ (ow_sorted _ _ Ho)).
Qed.

(** The outputs of the wallet that are not spent in the first [n] blocks are
    those of the account, when nothing below [n] is missing. *)
Lemma owned_unspent_perm owned n : owned_true a owned ->
  (forall t, t ∈ acc_txos a -> tt_block_index t < n -> tt_global_index t ∈ owned.*1) ->
  true_txo <$> List.filter (fun o => unspent_at a n (true_txo o)) owned.*2
    ≡ₚ List.filter (unspent_at a n) (acc_txos a).
Proof.
  intros Ho Hcov; rewrite <- filter_fmap_comm.
  apply NoDup_Permutation.
  - by apply NoDup_list_filter, owned_NoDup.
  - apply NoDup_list_filter, (NoDup_fmap_1 tt_global_index), Ha.
  - intros t; rewrite !elem_of_list_filter_bool, list_elem_of_fmap; split.
    + intros (Hu & o & -> & Hin); split; [done|]; by eapply owned_values.
    + intros [Hu Hin]; split; [done|].
      assert (tt_block_index t < n) as Hlt by (unfold unspent_at in Hu; bool_to_prop; lia).
      apply Hcov, btree_get_is_Some in Hlt as [o Hget]; [|done].
      exists o; split; [|apply btree_values; [apply Ho|by eexists]].
      eapply (NoDup_fmap_inj_in tt_global_index); [apply Ha|done|by eapply ow_txo|].
      simpl; symmetry; by eapply ow_index.
Qed.

Lemma zsum_cons z l : zsum (z :: l) = z + zsum l.
Proof. done. Qed.

(** Adding the values does not overflow. *)
Lemma fold_values (l : list OwnedTxOut) acc :
  0 <= acc -> nonneg (oto_value <$> l) -> acc + zsum (oto_value <$> l) < u64_modulus ->
  foldl (fun running_balance our_txo => running_balance +w oto_value our_txo) acc l
    = acc + zsum (oto_value <$> l).
Proof.
  revert acc; induction l as [|o l IH]; intros acc Hacc; [simpl; lia|]; rewrite fmap_cons, zsum_cons.
  intros [Ho Hn]%Forall_cons Hs; pose proof (zsum_nonneg _ Hn); cbn [foldl].
  rewrite u64_add_small by (split; lia); rewrite IH; [lia|lia|done|lia].
Qed.

Lemma unspent_values_bound n :
  nonneg (tt_value <$> List.filter (unspent_at a n) (acc_txos a)) /\ balance_at a n < u64_modulus.
Proof.
  pose proof (fmap_filter_sublist tt_value (unspent_at a n) (acc_txos a)) as Hs.
  split; [eapply sublist_nonneg; [exact Hs|apply Ha]|].
  pose proof (sublist_zsum _ _ Hs (ao_value _ Ha)); pose proof (ao_supply _ Ha); unfold balance_at; lia.
Qed.

(** ** The balance and the inputs *)

Section wallet.
Context (self : CachedTxData) (Hinv : wallet_inv a self).

Lemma num_blocks_le_completeness : get_num_blocks self <= key_image_data_completeness self.
Proof. unfold get_num_blocks; lia. Qed.

Lemma assert_not_spent_ret o n : o ∈ (owned_tx_outs self).*2 -> oto_status o = NotSpentAsOf n ->
  assert_not_spent self o n = Ret tt.
Proof.
  intros Ho Hn; destruct (owned_values _ _ (wi_owned _ _ Hinv) Ho) as (_ & Hst & Hget).
  unfold status_true in Hst; rewrite Hn in Hst; destruct Hst as [Hlt _].
  pose proof (wi_complete _ _ Hinv _ _ _ Hget Hn).
  unfold assert_not_spent; rewrite (proj2 (Z.ltb_lt _ _) Hlt); simpl.
  by rewrite (proj2 (Z.leb_le _ _)).
Qed.

Lemma counts_in_balance_ret o : o ∈ (owned_tx_outs self).*2 ->
  counts_in_balance self o = Ret (unspent_at a (get_num_blocks self) (true_txo o)).
Proof.
  intros Ho; destruct (owned_values _ _ (wi_owned _ _ Hinv) Ho) as (Hin & Hst & Hget).
  unfold counts_in_balance, unspent_at; simpl; destruct (_ <? _) eqn:Hlt; [|done]; simpl.
  unfold status_true in Hst; destruct (oto_status o) as [s|n] eqn:Hs.
  - pose proof (ao_spent _ Ha _ _ Hin Hst) as Hb; simpl in Hb.
    rewrite Hst, (proj2 (Z.ltb_lt _ _) Hb); done.
  - rewrite (assert_not_spent_ret _ _ Ho Hs); simpl; f_equal.
    destruct (acc_spent a !! oto_key_image o) as [s|] eqn:Hsp; [|done].
    pose proof (wi_complete _ _ Hinv _ _ _ Hget Hs); pose proof num_blocks_le_completeness.
    symmetry; apply Z.leb_le; pose proof (proj2 Hst _ eq_refl); lia.
Qed.

Lemma get_balance_ret : wallet_covers a self ->
  get_balance self = Ret (balance_at a (get_num_blocks self), get_num_blocks self).
Proof.
  intros Hcov; unfold get_balance; rewrite (proj2 (Z.leb_le _ _) num_blocks_le_completeness); simpl.
  rewrite (run_filter_ret _ (fun o => unspent_at a (get_num_blocks self) (true_txo o)))
    by (apply Forall_forall; apply counts_in_balance_ret); simpl; do 2 f_equal.
  pose proof (owned_unspent_perm _ (get_num_blocks self) (wi_owned _ _ Hinv)) as Hp.
  apply (fmap_Permutation tt_value) in Hp; [|intros t Hin Hlt; apply Hcov; [done|];
    unfold get_num_blocks, get_highest_processed_block_count in Hlt; lia].
  rewrite <- list_fmap_compose in Hp; change (tt_value ∘ true_txo) with oto_value in Hp.
  destruct (unspent_values_bound (get_num_blocks self)) as [Hn Hb]; unfold balance_at, nonneg in *.
  rewrite <- (zsum_permutation _ _ Hp) in Hb |- *; rewrite <- Hp in Hn.
  by apply fold_values.
Qed.

(** What is not known to be spent at all. *)
Definition known_unspent (o : OwnedTxOut) : bool :=
  (oto_block_index o <? get_num_blocks self)
  && match oto_status o with NotSpentAsOf _ => true | SpentAt _ => false end.

Lemma get_unspent_txos_ret :
  get_unspent_txos self = Ret (List.filter known_unspent (owned_tx_outs self).*2).
Proof.
  unfold get_unspent_txos; rewrite (proj2 (Z.leb_le _ _) num_blocks_le_completeness); simpl.
  apply run_filter_ret, Forall_forall; intros o Ho; unfold is_unspent, known_unspent.
  destruct (_ <? _); [|done]; destruct (oto_status o) eqn:Hs; [done|].
  by rewrite (assert_not_spent_ret _ _ Ho Hs).
Qed.

Lemma unspent_values_ok :
  let values := oto_value <$> List.filter known_unspent (owned_tx_outs self).*2 in
  nonneg values /\ zsum values < u64_modulus.
Proof.
  assert (Hsub : true_txo <$> (owned_tx_outs self).*2 ⊆+ acc_txos a).
  { apply NoDup_submseteq; [apply owned_NoDup, Hinv|].
    intros t (o & -> & Ho)%list_elem_of_fmap; apply (owned_values _ _ (wi_owned _ _ Hinv) Ho). }
  assert (nonneg (oto_value <$> (owned_tx_outs self).*2)
    /\ zsum (oto_value <$> (owned_tx_outs self).*2) < u64_modulus) as [Hn Hb].
  { apply submseteq_Permutation in Hsub as [k Hk]; apply (fmap_Permutation tt_value) in Hk.
    rewrite fmap_app, <- list_fmap_compose in Hk.
    pose proof (ao_value _ Ha) as Hv; pose proof (ao_supply _ Ha) as Hs.
    rewrite (zsum_permutation _ _ Hk), zsum_app in Hs; unfold nonneg in Hv; rewrite Hk, Forall_app in Hv.
    destruct Hv as [Hv1 Hv2]; split; [exact Hv1|].
    apply zsum_nonneg in Hv2; change (tt_value ∘ true_txo) with oto_value in Hs; lia. }
  pose proof (fmap_filter_sublist oto_value known_unspent (owned_tx_outs self).*2) as Hf.
  split; [by eapply sublist_nonneg|]; pose proof (sublist_zsum _ _ Hf Hn); lia.
Qed.
End wallet.
End balance.

(** ** Key image results *)

Section key_images.
Context (a : Account) (Ha : account_ok a).

(** The answers of a key image server are true for the block count it reports:
    what is reported spent is spent there, and what is reported as not spent is
    not spent in the blocks below. *)
Definition result_true (num_blocks : Z) (res : KeyImageResult) : Prop :=
  match KeyImageResult_status res with
  | Ok (Some s) => acc_spent a !! kir_key_image res = Some s
  | Ok None => forall s, acc_spent a !! kir_key_image res = Some s -> num_blocks <= s
  | Err _ => True
  end.

(** The image map points to outputs that are not known to be spent. *)
Definition image_map_ok (owned : list (Z * OwnedTxOut)) (m : gmap (list Z) Z) (k : bytes) : Prop :=
  forall gi, m !! k = Some gi ->
    exists o n, btree_get gi owned = Some o /\ oto_key_image o = k /\ oto_status o = NotSpentAsOf n.

Record collected (owned : list (Z * OwnedTxOut)) (acc : gmap (list Z) Z * list bytes) : Prop := {
  co_map : forall k, image_map_ok owned acc.1 k;
  co_nodup : NoDup acc.2;
  co_keys : forall k, k ∈ acc.2 <-> is_Some (acc.1 !! k);
}.

Lemma collect_key_image_ok owned acc o :
  btree_get (oto_global_index o) owned = Some o ->
  collected owned acc -> collected owned (collect_key_image acc o).
Proof.
  intros Ho [Hm Hnd Hk]; unfold collect_key_image; destruct (oto_status o) as [s|n] eqn:Hs; [done|].
  split; simpl.
  - intros k gi; rewrite lookup_insert; case_decide; [intros [= <-]; subst; eauto|apply Hm].
  - destruct (acc.1 !! oto_key_image o) eqn:He; [done|].
    apply NoDup_app; split_and!; [done| |apply NoDup_singleton].
    intros k Hin ->%list_elem_of_singleton; apply Hk in Hin; rewrite He in Hin; by destruct Hin.
  - intros k; rewrite lookup_insert; destruct (acc.1 !! oto_key_image o) eqn:He; rewrite ?elem_of_app, Hk;
      case_decide; subst; rewrite ?list_elem_of_singleton, ?He; naive_solver.
Qed.

Lemma collect_key_images_ok owned : owned_true a owned -> collected owned (collect_key_images owned).
Proof.
  intros Ho; unfold collect_key_images.
  assert (Hall : Forall (fun o => btree_get (oto_global_index o) owned = Some o) owned.*2).
  { apply Forall_forall; intros o Hin; by destruct (owned_values _ _ _ Ho Hin) as (_ & _ & ?). }
  assert (Hz : collected owned (∅, [])).
  { split; simpl; [by intros k gi; rewrite lookup_empty|constructor|].
    intros k; rewrite lookup_empty; split; [set_solver|by intros []]. }
  revert Hz; generalize (∅ : gmap (list Z) Z, [] : list bytes).
  induction Hall as [|o l Hget _ IH]; intros acc Hacc; [done|]; simpl.
  by apply IH, collect_key_image_ok.
Qed.

(** Replacing the status of an entry by a true one. *)
Lemma owned_set_status owned gi o st :
  owned_true a owned -> btree_get gi owned = Some o -> status_true a (set_status o st) ->
  owned_true a (btree_insert gi (set_status o st) owned).
Proof.
  intros Ho Hget Hst; split.
  - apply btree_insert_ok, Ho.
  - intros k o'; rewrite btree_get_insert; case_decide; [|by eapply ow_index].
    intros [= <-]; subst; by eapply (ow_index _ _ Ho) in Hget.
  - intros k o'; rewrite btree_get_insert; case_decide; [|by eapply ow_txo].
    intros [= <-]; by eapply (ow_txo _ _ Ho) in Hget.
  - intros k o'; rewrite btree_get_insert; case_decide; [by intros [= <-]|by eapply ow_status].
Qed.

(** What a round of key image results keeps: the entries, and the block counts
    of those that are not spent only rise. *)
Record refreshed (owned owned' : list (Z * OwnedTxOut)) : Prop := {
  rf_true : owned_true a owned';
  rf_keys : forall k, k ∈ owned'.*1 <-> k ∈ owned.*1;
  rf_not_spent : forall k o' n', btree_get k owned' = Some o' -> oto_status o' = NotSpentAsOf n' ->
    exists o n, btree_get k owned = Some o /\ oto_status o = NotSpentAsOf n /\ n <= n';
}.

Lemma refreshed_refl owned : owned_true a owned -> refreshed owned owned.
Proof. intros Ho; split; [done|done|]; intros k o n ? ?; exists o, n; split_and!; [done|done|lia]. Qed.

Lemma refreshed_trans o1 o2 o3 : refreshed o1 o2 -> refreshed o2 o3 -> refreshed o1 o3.
Proof.
  intros [_ K1 N1] [T2 K2 N2]; split; [done|intros k; by rewrite K2, K1|].
  intros k o n Hget Hst; destruct (N2 _ _ _ Hget Hst) as (o' & n' & Hg & Hs & Hle).
  destruct (N1 _ _ _ Hg Hs) as (o'' & n'' & ? & ? & ?); exists o'', n''; split_and!; [done|done|lia].
Qed.

Lemma refreshed_insert owned gi o n st :
  owned_true a owned -> btree_get gi owned = Some o -> oto_status o = NotSpentAsOf n ->
  status_true a (set_status o st) -> (forall n', st = NotSpentAsOf n' -> n <= n') ->
  refreshed owned (btree_insert gi (set_status o st) owned).
Proof.
  intros Ho Hget Hn Hst Hle; split; [by apply owned_set_status| |].
  - intros k; rewrite btree_insert_keys; split; [intros [->|?]; [|done]|by right].
    apply btree_get_is_Some; eauto.
  - intros k o' n'; rewrite btree_get_insert; case_decide.
    + intros [= <-] Hs; simpl in Hs; subst; exists o, n; split_and!; [done|done|by apply Hle].
    + intros ? ?; exists o', n'; split_and!; [done|done|lia].
Qed.

(** One result: no panic, and it does not disturb the images of the others. *)
Lemma apply_key_image_result_ok m num_blocks owned res :
  owned_true a owned -> image_map_ok owned m (kir_key_image res) -> result_true num_blocks res ->
  exists owned', apply_key_image_result m num_blocks owned res = Ret owned'
    /\ refreshed owned owned'
    /\ forall k, k <> kir_key_image res -> image_map_ok owned m k -> image_map_ok owned' m k.
Proof.
  intros Ho Hm Hres; unfold apply_key_image_result, result_true in *.
  destruct (m !! kir_key_image res) as [gi|] eqn:Hgi; [|eauto using refreshed_refl].
  destruct (Hm _ Hgi) as (o & n & Hget & Hki & Hn); rewrite Hget; simpl.
  assert (Hother : forall st k, k <> kir_key_image res -> image_map_ok owned m k ->
    image_map_ok (btree_insert gi (set_status o st) owned) m k).
  { intros st k Hne Hk gi' Hgi'; destruct (Hk _ Hgi') as (o' & n' & Hg' & Hki' & Hn').
    exists o', n'; rewrite btree_get_insert; case_decide; [subst; congruence|done]. }
  pose proof (ow_status _ _ Ho _ _ Hget) as Hst; unfold status_true in Hst; rewrite Hn in Hst.
  destruct (KeyImageResult_status res) as [[s|]|e]; rewrite ?Hn; [| |eauto using refreshed_refl].
  - eexists; split_and!; [done| |by apply Hother].
    eapply refreshed_insert; [done|done|done| |done]; unfold status_true; simpl; by rewrite Hki.
  - eexists; split_and!; [done| |by apply Hother].
    eapply refreshed_insert; [done|done|done| |intros n' [= <-]; lia].
    unfold status_true; simpl; split; [lia|]; intros s Hs; pose proof (proj2 Hst _ Hs).
    rewrite Hki in Hs; apply Hres in Hs; lia.
Qed.

Lemma apply_key_image_results_ok m num_blocks results owned :
  owned_true a owned -> (forall k, image_map_ok owned m k) ->
  NoDup (kir_key_image <$> results) -> Forall (result_true num_blocks) results ->
  exists owned', apply_key_image_results m num_blocks results owned = Ret owned'
    /\ refreshed owned owned'.
Proof.
  intros Ho Hm Hnd Hall.
  assert (Hm' : forall k, k ∈ kir_key_image <$> results -> image_map_ok owned m k) by auto.
  clear Hm; revert owned Ho Hnd Hm'; induction Hall as [|res results Hres _ IH]; intros owned Ho Hnd Hm.
  { eexists; split; [done|by apply refreshed_refl]. }
  rewrite fmap_cons in Hnd, Hm; apply NoDup_cons in Hnd as [Hnin Hnd]; simpl.
  destruct (apply_key_image_result_ok m num_blocks owned res) as (owned1 & -> & Hr1 & Hkeep);
    [done|apply Hm; by left|done|]; simpl.
  destruct (IH owned1) as (owned2 & -> & Hr2); [by destruct Hr1|done| |].
  - intros k Hk; apply Hkeep; [by intros ->|]; apply Hm; by right.
  - eexists; split; [done|by eapply refreshed_trans].
Qed.

End key_images.

(** The recomputed completeness is the least of the block counts. *)
Lemma min_not_spent_le l init : foldl min_not_spent init l <= init
  /\ forall o n, o ∈ l -> oto_status o = NotSpentAsOf n -> foldl min_not_spent init l <= n.
Proof.
  revert init; induction l as [|o l IH]; intros init; simpl; [split; [lia|set_solver]|].
  destruct (IH (min_not_spent init o)) as [Hi Hl].
  assert (min_not_spent init o <= init) by (unfold min_not_spent; case_match; lia).
  split; [lia|]; intros o' n [->|Hin]%elem_of_cons Hs; [|eauto].
  assert (min_not_spent init o <= n) by (unfold min_not_spent; rewrite Hs; lia); lia.
Qed.

Lemma min_not_spent_ge c l init : c <= init ->
  (forall o n, o ∈ l -> oto_status o = NotSpentAsOf n -> c <= n) -> c <= foldl min_not_spent init l.
Proof.
  revert init; induction l as [|o l IH]; intros init Hi Hl; simpl; [done|].
  apply IH; [|intros o' n' Hin; apply Hl; by right].
  unfold min_not_spent; destruct (oto_status o) eqn:Hs; [done|].
  pose proof (Hl o _ ltac:(by left) Hs); lia.
Qed.

Lemma recomputed_complete owned : btree_ok owned ->
  completeness_ok (foldl min_not_spent u64_max owned.*2) owned.
Proof.
  intros Hok k o n Hget Hs; eapply min_not_spent_le; [|exact Hs].
  apply btree_values; [done|eauto].
Qed.
