(* ===== verification/WalletSpec.v ===== *)
(** * The wallet against truthful servers

    The two interfaces a wallet relies on, and what it computes in every state
    it reaches through them: the balance of the account at the block count it
    names, and inputs that it owns.  [WalletView] and [LedgerServerSpec] show
    that the servers of this development provide the interfaces. *)

From stdpp Require Import relations.
From S2P Require Import Prelude FogTypes KexRng UserRngSet Polling InputSelection ViewEnclave EnclaveConnection LedgerServer CachedTxData CachedTxDataSpec.

Local Open Scope Z_scope.
Local Open Scope fog_scope.

Section interfaces.
Context `{U : UserCrypto} `{I : HashIter} `{W : !WalletCrypto}.
Context {ViewConn ViewError KeyImageConn : Type}.
Context (view_request : ViewConn -> Z -> Z -> list bytes -> result QueryResponse ViewError * ViewConn).
Context (enclave_request : KeyImageConn -> CheckKeyImagesRequest ->
           result CheckKeyImagesResponse EnclaveConnectionError * KeyImageConn).
Context (account_key : AccountKey) (a : Account).

(** A record that matches the view key of the account is an output of it. *)
Definition record_true (rec : TxOutRecord) : Prop :=
  forall o, OwnedTxOut_new rec account_key = Ok o -> true_txo o ∈ acc_txos a.

(** The indices of the records that match. *)
Definition accepted (recs : list TxOutRecord) : list Z :=
  omap (fun rec => oto_global_index <$> ok (OwnedTxOut_new rec account_key)) recs.

(** What the view protocol promises to the wallet, over an invariant of the
    connection, the rng set and the indices received so far: a poll returns
    true records, and below the block count of the rng set nothing is missing. *)
Class TruthfulView (view_inv : ViewConn -> UserRngSet -> gset Z -> Prop) : Prop := {
  view_covers : forall conn set received t, view_inv conn set received -> t ∈ acc_txos a ->
    tt_block_index t < urs_highest_processed_block_count set -> tt_global_index t ∈ received;
  view_poll : forall fuel conn set received conn' set' recs errs, view_inv conn set received ->
    poll view_request fuel conn set (UserPrivate_from account_key)
      = Some (conn', set', (recs, errs)) ->
    Forall record_true recs /\ view_inv conn' set' (received ∪ list_to_set (accepted recs));
}.

(** What a key image server promises, over an invariant of the connection: for
    different images it answers each at most once and truly, or it fails. *)
Class TruthfulKeyImages (images_inv : KeyImageConn -> Prop) : Prop := key_images_true :
  forall conn key_images r conn', images_inv conn -> NoDup key_images ->
    enclave_request conn (key_images_request key_images) = (r, conn') ->
    images_inv conn'
    /\ match r with
       | Ok response => NoDup (kir_key_image <$> cks_results response)
           /\ Forall (result_true a (cks_num_blocks response)) (cks_results response)
       | Err _ => True
       end.

(** The states a wallet reaches, with its two connections. *)
Inductive wallet_step : CachedTxData * ViewConn * KeyImageConn ->
    CachedTxData * ViewConn * KeyImageConn -> Prop :=
| ws_txos fuel self view images self' view' :
    poll_fog_for_txos view_request fuel self view account_key = Some (Ret (self', view')) ->
    wallet_step (self, view, images) (self', view', images)
| ws_key_images self view images self' images' r :
    poll_fog_for_key_images enclave_request self images = Ret (self', images', r) ->
    wallet_step (self, view, images) (self', view, images')
| ws_poll fuel self view images self' view' images' r :
    poll_fog view_request enclave_request fuel self view images account_key
      = Some (Ret (self', view', images', r)) ->
    wallet_step (self, view, images) (self', view', images').
End interfaces.

(** ** Consuming records *)

Section consume.
Context `{W : WalletCrypto} (account_key : AccountKey).

Lemma OwnedTxOut_new_fields rec o : OwnedTxOut_new rec account_key = Ok o ->
  oto_global_index o = tor_tx_out_global_index rec /\ oto_block_index o = tor_block_index rec
  /\ oto_status o = NotSpentAsOf (oto_block_index o +w 1).
Proof.
  unfold OwnedTxOut_new; intros (f & _ & H)%and_then_ok; revert H.
  intros (t & _ & H)%and_then_ok; revert H; intros (p & _ & H)%and_then_ok; revert H.
  intros ([v b] & _ & H)%and_then_ok; by simplify_eq.
Qed.

(** The state with a new output. *)
Definition with_txo (self : CachedTxData) (o : OwnedTxOut) : CachedTxData :=
  mkCachedTxData (ctd_rng_set self) (btree_insert (oto_global_index o) o (owned_tx_outs self))
    (Z.min (key_image_data_completeness self) (oto_block_index o +w 1)) (latest_global_txo_count self).

(** Records are consumed without a panic: an output that was just matched is
    not spent. *)
Lemma consume_txo_records_ret recs acc :
  exists errs, consume_txo_records account_key recs acc
    = Ret (foldl with_txo acc.1 (omap (fun rec => ok (OwnedTxOut_new rec account_key)) recs), errs).
Proof.
  revert acc; induction recs as [|rec recs IH]; intros [self errs]; simpl; [by eexists|].
  destruct (OwnedTxOut_new rec account_key) as [o|e] eqn:Ho; simpl.
  - destruct (OwnedTxOut_new_fields _ _ Ho) as (_ & _ & ->); apply IH.
  - apply IH.
Qed.

Lemma foldl_with_txo_rng l self : ctd_rng_set (foldl with_txo self l) = ctd_rng_set self.
Proof. revert self; induction l as [|o l IH]; intros self; simpl; [done|]; by rewrite IH. Qed.

Lemma foldl_with_txo_keys l self k :
  k ∈ (owned_tx_outs (foldl with_txo self l)).*1 <->
  k ∈ (owned_tx_outs self).*1 \/ k ∈ oto_global_index <$> l.
Proof.
  revert self; induction l as [|o l IH]; intros self; simpl; [set_solver|].
  rewrite IH; simpl; rewrite btree_insert_keys, elem_of_cons; tauto.
Qed.
End consume.

(** ** The operations keep the invariant *)

Section wallet_steps.
Context `{U : UserCrypto} `{I : HashIter} `{W : !WalletCrypto}.
Context {ViewConn ViewError KeyImageConn : Type}.
Context (view_request : ViewConn -> Z -> Z -> list bytes -> result QueryResponse ViewError * ViewConn).
Context (enclave_request : KeyImageConn -> CheckKeyImagesRequest ->
           result CheckKeyImagesResponse EnclaveConnectionError * KeyImageConn).
Context (account_key : AccountKey) (a : Account) (Ha : account_ok a).

Definition fresh_true (o : OwnedTxOut) : Prop :=
  true_txo o ∈ acc_txos a /\ oto_status o = NotSpentAsOf (oto_block_index o +w 1).

Lemma with_txo_inv self o : wallet_inv a self -> fresh_true o -> wallet_inv a (with_txo self o).
Proof.
  intros [Ho Hc Hm] [Hin Hs]; pose proof (ao_block _ Ha _ Hin) as Hb; simpl in Hb.
  assert (Hadd : oto_block_index o +w 1 = oto_block_index o + 1)
    by (apply u64_add_small; unfold is_u64, u64_max, u64_modulus in *; lia).
  split; simpl.
  - split; [apply btree_insert_ok, Ho| | |];
      intros k o'; rewrite btree_get_insert; case_decide; try (by apply Ho).
    + by intros [= <-].
    + by intros [= <-].
    + intros [= <-]; unfold status_true; rewrite Hs, Hadd; split; [lia|].
      intros s Hsp; pose proof (ao_spent _ Ha _ _ Hin Hsp); simpl in *; lia.
  - intros k o' n; rewrite btree_get_insert; case_decide.
    + intros [= <-]; rewrite Hs; intros [= <-]; lia.
    + intros Hg Hn; specialize (Hc _ _ _ Hg Hn); lia.
  - lia.
Qed.

Lemma foldl_with_txo_inv l self :
  wallet_inv a self -> Forall fresh_true l -> wallet_inv a (foldl with_txo self l).
Proof. intros Hi Hl; revert self Hi; induction Hl; intros self Hi; simpl; [done|]; auto using with_txo_inv. Qed.

Lemma accepted_fresh recs : Forall (record_true account_key a) recs ->
  Forall fresh_true (omap (fun rec => ok (OwnedTxOut_new rec account_key)) recs).
Proof.
  induction 1 as [|rec recs Hr _ IH]; simpl; [constructor|].
  destruct (OwnedTxOut_new rec account_key) as [o|e] eqn:Ho; simpl; [|done].
  constructor; [|done]; split; [by apply Hr|]; by eapply OwnedTxOut_new_fields.
Qed.

Lemma accepted_indices recs :
  oto_global_index <$> omap (fun rec => ok (OwnedTxOut_new rec account_key)) recs
    = accepted account_key recs.
Proof.
  unfold accepted; induction recs as [|rec recs IH]; [done|]; cbn [omap list_omap].
  destruct (OwnedTxOut_new rec account_key); cbn [ok fmap option_fmap option_map]; [|done].
  by rewrite fmap_cons, IH.
Qed.

Section with_view.
Context (view_inv : ViewConn -> UserRngSet -> gset Z -> Prop).
Context `{V : !TruthfulView view_request account_key a view_inv}.
Context (images_inv : KeyImageConn -> Prop) `{T : !TruthfulKeyImages enclave_request a images_inv}.

(** The invariant of the wallet and its view of the server. *)
Definition wallet_ok (self : CachedTxData) (view : ViewConn) : Prop :=
  wallet_inv a self
  /\ view_inv view (ctd_rng_set self) (list_to_set (owned_tx_outs self).*1).

Lemma wallet_ok_covers self view : wallet_ok self view -> wallet_covers a self.
Proof.
  intros [_ Hv] t Ht Hlt; destruct V as [Hcov _]; pose proof (Hcov _ _ _ _ Hv Ht Hlt) as Hin.
  by apply elem_of_list_to_set in Hin.
Qed.

Lemma poll_fog_for_txos_ok fuel self view m : wallet_ok self view ->
  poll_fog_for_txos view_request fuel self view account_key = Some m ->
  exists self' view', m = Ret (self', view') /\ wallet_ok self' view'.
Proof.
  intros [Hi Hv]; unfold poll_fog_for_txos.
  destruct (poll _ _ _ _ _) as [[[view' set'] [recs errs]]|] eqn:Hp; [|done]; simpl.
  destruct V as [_ Hpoll]; destruct (Hpoll _ _ _ _ _ _ _ _ Hv Hp) as [Hrecs Hv'].
  set (self1 := mkCachedTxData _ _ _ _).
  assert (Hi1 : wallet_inv a self1) by (destruct Hi; by split).
  destruct (consume_txo_records_ret account_key recs (self1, [])) as [errs' Hc]; cbn [fst] in Hc.
  set (self2 := foldl _ _ _) in Hc.
  assert (Hok : wallet_ok self2 view').
  { split; [by apply foldl_with_txo_inv, accepted_fresh|].
    unfold self2; rewrite foldl_with_txo_rng; simpl.
    match goal with |- view_inv _ _ ?R => replace R with
      (list_to_set (owned_tx_outs self).*1 ∪ list_to_set (accepted account_key recs) : gset Z) end; [done|].
    apply set_eq; intros k; rewrite elem_of_union, !elem_of_list_to_set, foldl_with_txo_keys.
    by rewrite accepted_indices. }
  destruct recs as [|rec recs]; intros [= <-]; [by exists self1, view'|].
  exists self2, view'; split; [|done].
  unfold consume_new_txo_records; by rewrite Hc.
Qed.

Lemma poll_fog_for_key_images_ok self view images : wallet_ok self view -> images_inv images ->
  exists self' images' r, poll_fog_for_key_images enclave_request self images = Ret (self', images', r)
    /\ wallet_ok self' view /\ images_inv images' /\ ctd_rng_set self' = ctd_rng_set self
    /\ key_image_data_completeness self <= key_image_data_completeness self'.
Proof.
  intros [Hi Hv] Him; unfold poll_fog_for_key_images, client_check_key_images.
  pose proof (collect_key_images_ok a Ha _ (wi_owned _ _ Hi)) as Hcol.
  destruct (collect_key_images (owned_tx_outs self)) as [m keys]; simpl in *.
  destruct (enclave_request images (key_images_request keys)) as [res images'] eqn:Hreq; simpl.
  destruct (T _ _ _ _ Him (co_nodup _ _ Hcol) Hreq) as [Him' Hres].
  destruct res as [response|e]; simpl; [destruct Hres as [Hnd Htrue]|by eexists _, _, _; split_and!].
  destruct (apply_key_image_results_ok a m (cks_num_blocks response) (cks_results response)
    (owned_tx_outs self)) as (owned' & -> & [Ht Hk Hn]); [apply Hi|apply Hcol|done|done|].
  simpl; eexists _, _, _; split; [done|]; split_and!; [split|exact Him'| |]; simpl.
  - split; [done|apply recomputed_complete, Ht|]; apply min_not_spent_le.
  - replace (list_to_set owned'.*1 : gset Z) with (list_to_set (owned_tx_outs self).*1 : gset Z); [done|].
    apply set_eq; intros k; by rewrite !elem_of_list_to_set, Hk.
  - done.
  - apply min_not_spent_ge; [apply Hi|]; intros o n (k & Hget)%btree_values Hs; [|apply Ht].
    destruct (Hn _ _ _ Hget Hs) as (o0 & n0 & Hg0 & Hs0 & Hle).
    pose proof (wi_complete _ _ Hi _ _ _ Hg0 Hs0); lia.
Qed.

Lemma poll_fog_ok fuel self view images m : wallet_ok self view -> images_inv images ->
  poll_fog view_request enclave_request fuel self view images account_key = Some m ->
  exists self' view' images' r, m = Ret (self', view', images', r)
    /\ wallet_ok self' view' /\ images_inv images'.
Proof.
  intros Hok Him; unfold poll_fog.
  destruct (poll_fog_for_txos _ _ _ _ _) as [m1|] eqn:H1; [|done]; simpl; intros [= <-].
  destruct (poll_fog_for_txos_ok _ _ _ _ Hok H1) as (self1 & view1 & -> & Hok1); simpl.
  destruct (poll_fog_for_key_images_ok self1 view1 images Hok1) as (self2 & images2 & r & -> & Hok2 & Him2 & _);
    [done|].
  simpl; by eexists _, _, _, _.
Qed.

Lemma wallet_reachable_ok s s' : wallet_ok s.1.1 s.1.2 -> images_inv s.2 ->
  rtc (wallet_step view_request enclave_request account_key) s s' ->
  wallet_ok s'.1.1 s'.1.2 /\ images_inv s'.2.
Proof.
  intros Hok Him Hr; revert Hok Him; induction Hr as [|x y z Hstep _ IH]; [done|].
  intros Hok Him; apply IH; clear IH; destruct Hstep
    as [fuel ? ? ? ? ? H|? ? images1 ? ? ? H|fuel ? ? ? ? ? ? ? H]; simpl in *; try done.
  all: first
    [ by destruct (poll_fog_for_txos_ok _ _ _ _ Hok H) as (? & ? & Heq & ?); simplify_eq
    | by destruct (poll_fog_for_key_images_ok _ _ images1 Hok Him) as (? & ? & ? & H' & ? & ? & _);
        rewrite H in H'; simplify_eq
    | by destruct (poll_fog_ok _ _ _ _ _ Hok Him H) as (? & ? & ? & ? & Heq & ? & ?); simplify_eq ].
Qed.

Lemma wallet_ok_new view : view_inv view UserRngSet_new ∅ -> wallet_ok CachedTxData_new view.
Proof.
  intros Hv; split; [|done]; split; [|by intros ? ? ? ?|done].
  split; [constructor|by intros ? ?|by intros ? ?|by intros ? ?].
Qed.
End with_view.
End wallet_steps.

(** ** The inputs of a transaction *)

Section inputs.
Context {A : Type}.
Implicit Types (l : list A) (idxs : list nat).

Lemma mapM_unwrap l idxs : Forall (fun i => i < length l)%nat idxs ->
  mapM (fun i => unwrap (l !! i)) idxs = Ret (omap (fun i => l !! i) idxs).
Proof.
  induction 1 as [|i idxs Hi _ IH]; simpl; [done|].
  destruct (lookup_lt_is_Some_2 _ _ Hi) as [x ->]; simpl; by rewrite IH.
Qed.

Lemma omap_lookup_values {B} (f : A -> B) l idxs :
  f <$> omap (fun i => l !! i) idxs = omap (fun i => (f <$> l) !! i) idxs.
Proof.
  induction idxs as [|i idxs IH]; [done|]; cbn [omap list_omap]; rewrite list_lookup_fmap.
  destruct (l !! i); cbn [fmap option_fmap option_map]; [by rewrite fmap_cons, IH|done].
Qed.

Lemma omap_values_at (f : A -> Z) l idxs : Forall (fun i => i < length l)%nat idxs ->
  f <$> omap (fun i => l !! i) idxs = values_at (f <$> l) idxs.
Proof.
  rewrite omap_lookup_values; induction 1 as [|i idxs Hi _ IH]; [done|].
  unfold values_at in *; rewrite fmap_cons, <- IH; cbn [omap list_omap]; rewrite list_lookup_fmap.
  by destruct (lookup_lt_is_Some_2 _ _ Hi) as [x ->].
Qed.

Lemma omap_lookup_NoDup l idxs : NoDup l -> NoDup idxs -> NoDup (omap (fun i => l !! i) idxs).
Proof.
  intros Hl; induction 1 as [|i idxs Hi _ IH]; cbn [omap list_omap]; [constructor|].
  destruct (l !! i) as [x|] eqn:Hx; [|done]; constructor; [|done].
  rewrite list_elem_of_omap; intros (j & Hj & Hxj); destruct Hi.
  by rewrite (NoDup_lookup _ _ _ _ Hl Hx Hxj).
Qed.

Lemma sorted_lt_NoDup idxs : Sorted.StronglySorted lt idxs -> NoDup idxs.
Proof.
  induction 1 as [|i idxs _ IH Hall]; constructor; [|done]; intros Hin.
  apply (proj1 (Forall_forall _ _) Hall) in Hin; lia.
Qed.
End inputs.

Section transaction_inputs.
Context (a : Account) (Ha : account_ok a) (self : CachedTxData) (Hinv : wallet_inv a self).

Definition unspent_list : list OwnedTxOut :=
  List.filter (known_unspent self) (owned_tx_outs self).*2.

(** An output that is not known to be spent is not spent at the block count of
    the balance. *)
Lemma unspent_list_true o : o ∈ unspent_list ->
  true_txo o ∈ acc_txos a /\ unspent_at a (get_num_blocks self) (true_txo o) = true.
Proof.
  unfold unspent_list; rewrite elem_of_list_filter_bool; intros [Hk Hin].
  destruct (owned_values _ _ _ (wi_owned _ _ Hinv) Hin) as (Ht & _ & _); split; [done|].
  pose proof (counts_in_balance_ret a Ha self Hinv o Hin) as Hc; unfold counts_in_balance in Hc.
  unfold known_unspent in Hk; destruct (_ <? _); [|done]; simpl in Hk.
  destruct (oto_status o) as [|n] eqn:Hs; [done|].
  rewrite (assert_not_spent_ret a self Hinv _ _ Hin Hs) in Hc; simpl in Hc; congruence.
Qed.

(** The four outcomes. *)
Definition inputs_spec (amount : Z) (m : nat) (r : result (list OwnedTxOut) PaykitError) : Prop :=
  match r with
  | Ok inputs => (length inputs <= m)%nat /\ amount <= zsum (oto_value <$> inputs)
      /\ NoDup (oto_global_index <$> inputs)
      /\ forall o, o ∈ inputs -> true_txo o ∈ acc_txos a
           /\ unspent_at a (get_num_blocks self) (true_txo o) = true
  | Err PaykitInsufficientFunds => zsum (oto_value <$> unspent_list) < amount
  | Err (PaykitWalletCompactingNeeded _) => amount <= zsum (oto_value <$> unspent_list)
      /\ forall s, s `sublist_of` (oto_value <$> unspent_list) -> (length s <= m)%nat -> zsum s < amount
  | Err _ => False
  end.

Lemma unspent_list_NoDup : NoDup (oto_global_index <$> unspent_list).
Proof.
  unfold unspent_list; pose proof (owned_NoDup a _ (wi_owned _ _ Hinv)) as Hnd.
  apply NoDup_fmap_2_strong; [|by apply NoDup_list_filter, (NoDup_fmap_1 true_txo)].
  intros x y [_ Hx]%elem_of_list_filter_bool [_ Hy]%elem_of_list_filter_bool Heq.
  destruct (owned_values _ _ _ (wi_owned _ _ Hinv) Hx) as (_ & _ & H1).
  destruct (owned_values _ _ _ (wi_owned _ _ Hinv) Hy) as (_ & _ & H2); congruence.
Qed.

Lemma get_transaction_inputs_ok MAX_INPUTS amount max_inputs : (3 <= MAX_INPUTS)%nat ->
  exists r, get_transaction_inputs MAX_INPUTS self amount max_inputs = Ret r
    /\ inputs_spec amount (Nat.min max_inputs MAX_INPUTS) r.
Proof.
  intros Hmi; unfold get_transaction_inputs; rewrite (get_unspent_txos_ret a self Hinv); simpl.
  fold unspent_list; destruct (unspent_values_ok a Ha self Hinv) as [Hn Hs]; fold unspent_list in Hn, Hs.
  destruct (input_selection_cases MAX_INPUTS (oto_value <$> unspent_list) amount max_inputs)
    as [[Hf ->]|[(Hf & Hb & ->)|(Hb & idxs & -> & [Hso Hra Hco Hre _ _])]]; try done; simpl.
  - by eexists.
  - eexists; split; [done|]; split; [done|]; intros s Hsub Hlen.
    pose proof (best_upper _ _ _ Hsub Hlen); lia.
  - assert (Hr : Forall (fun i => i < length unspent_list)%nat idxs)
      by (rewrite length_fmap in Hra; eapply Forall_impl; [exact Hra|]; simpl; lia).
    rewrite mapM_unwrap by done; simpl; eexists; split; [done|]; simpl; split_and!.
    + rewrite <- (length_fmap oto_value), omap_values_at by done; unfold values_at.
      rewrite length_fmap; lia.
    + by rewrite omap_values_at.
    + rewrite omap_lookup_values; apply omap_lookup_NoDup; [apply unspent_list_NoDup|by apply sorted_lt_NoDup].
    + intros o (i & _ & Hi)%list_elem_of_omap; by eapply unspent_list_true, list_elem_of_lookup_2.
Qed.
End transaction_inputs.

(** ** Correctness *)

Section wallet_correct.
Context `{U : UserCrypto} `{I : HashIter} `{W : !WalletCrypto}.
Context {ViewConn ViewError KeyImageConn : Type}.
Context (view_request : ViewConn -> Z -> Z -> list bytes -> result QueryResponse ViewError * ViewConn).
Context (enclave_request : KeyImageConn -> CheckKeyImagesRequest ->
           result CheckKeyImagesResponse EnclaveConnectionError * KeyImageConn).
Context (account_key : AccountKey) (a : Account).
Context (view_inv : ViewConn -> UserRngSet -> gset Z -> Prop).
Context (images_inv : KeyImageConn -> Prop).

(** The wallet is in a state it reaches from the start through its servers. *)
Definition wallet_reachable (s : CachedTxData * ViewConn * KeyImageConn) : Prop :=
  exists view images, view_inv view UserRngSet_new ∅ /\ images_inv images
    /\ rtc (wallet_step view_request enclave_request account_key)
         (CachedTxData_new, view, images) s.

Lemma wallet_reachable_wallet_ok self view images :
  account_ok a -> TruthfulView view_request account_key a view_inv ->
  TruthfulKeyImages enclave_request a images_inv -> wallet_reachable (self, view, images) ->
  wallet_ok a view_inv self view /\ images_inv images.
Proof.
  intros Ha V T (v0 & k0 & Hv0 & Hk0 & Hr).
  by apply (wallet_reachable_ok view_request enclave_request account_key a Ha view_inv images_inv
    (CachedTxData_new, v0, k0) (self, view, images)); [apply wallet_ok_new| |].
Qed.

(** Whatever sequence of polls brought the wallet to its state, with servers
    that lag and fail but tell the truth, [get_balance] does not panic and
    returns exactly the balance of the account when the ledger has as many
    blocks as it names. *)
Lemma wallet_balance_correct self view images :
  account_ok a -> TruthfulView view_request account_key a view_inv ->
  TruthfulKeyImages enclave_request a images_inv -> wallet_reachable (self, view, images) ->
  get_balance self = Ret (balance_at a (get_num_blocks self), get_num_blocks self).
Proof.
  intros Ha V T Hr; pose proof (wallet_reachable_wallet_ok _ _ _ Ha V T Hr) as [Hok _].
  apply get_balance_ret; [done|apply Hok|by eapply wallet_ok_covers].
Qed.

(** In the same states neither a poll nor the selection of inputs panics,
    and the inputs selected for an amount are different outputs of the account
    that are not spent at the block count of the balance, within the limit, and
    reach the amount; otherwise the outputs that are not known to be spent do
    not reach it, or no allowed number of them does. *)
Theorem wallet_inputs_correct self view images MAX_INPUTS amount max_inputs fuel m :
  account_ok a -> TruthfulView view_request account_key a view_inv ->
  TruthfulKeyImages enclave_request a images_inv -> wallet_reachable (self, view, images) ->
  (3 <= MAX_INPUTS)%nat ->
  (exists r, get_transaction_inputs MAX_INPUTS self amount max_inputs = Ret r
     /\ inputs_spec a self amount (Nat.min max_inputs MAX_INPUTS) r)
  /\ (poll_fog view_request enclave_request fuel self view images account_key = Some m ->
      m <> Panic).
Proof.
  intros Ha V T Hr Hmi; pose proof (wallet_reachable_wallet_ok _ _ _ Ha V T Hr) as [Hok Him].
  split; [by apply get_transaction_inputs_ok; [|apply Hok|]|].
  intros Hp; eapply (poll_fog_ok view_request enclave_request account_key a Ha view_inv images_inv) in Hp
    as (? & ? & ? & ? & -> & _); done.
Qed.

Lemma foldl_with_txo_complete c l self : c <= key_image_data_completeness self ->
  Forall (fun o => c <= oto_block_index o +w 1) l ->
  c <= key_image_data_completeness (foldl with_txo self l).
Proof. intros Hc Hl; revert self Hc; induction Hl; intros self Hc; simpl; [done|]; apply IHHl; simpl; lia. Qed.

(** A poll for outputs that brings no output from below the block count of the
    rng set does not lower the block count of the balance. *)
Lemma poll_fog_for_txos_monotone self view fuel self' view' :
  account_ok a -> TruthfulView view_request account_key a view_inv -> wallet_ok a view_inv self view ->
  (forall view1 set recs errs,
     poll view_request fuel view (ctd_rng_set self) (UserPrivate_from account_key)
       = Some (view1, set, (recs, errs)) ->
     Forall (fun rec => get_highest_processed_block_count (ctd_rng_set self) <= tor_block_index rec) recs) ->
  poll_fog_for_txos view_request fuel self view account_key = Some (Ret (self', view')) ->
  get_num_blocks self <= get_num_blocks self'.
Proof.
  intros Ha [_ Hpoll] [Hi Hv] Hnew; unfold poll_fog_for_txos.
  destruct (poll _ _ _ _ _) as [[[view1 set] [recs errs]]|] eqn:Hp; [|done]; simpl.
  specialize (Hnew _ _ _ _ eq_refl); destruct (Hpoll _ _ _ _ _ _ _ _ Hv Hp) as [Hrecs _].
  apply poll_count_monotone in Hp as [Hle _].
  set (self1 := mkCachedTxData _ _ _ _).
  destruct (consume_txo_records_ret account_key recs (self1, [])) as [errs' Hc]; cbn [fst] in Hc.
  set (self2 := foldl _ _ _) in Hc; intros Heq.
  assert (Hs : get_num_blocks self' = get_num_blocks self2).
  { destruct recs; [by simplify_eq|]; unfold consume_new_txo_records in Heq; rewrite Hc in Heq.
    simpl in Heq; by simplify_eq. }
  rewrite Hs; clear Hs Heq; unfold get_num_blocks, get_highest_processed_block_count in *.
  unfold self2 at 1; rewrite foldl_with_txo_rng; simpl.
  apply Z.min_glb; [lia|]; apply foldl_with_txo_complete; [simpl; lia|].
  apply Forall_forall; intros o (rec & Hin & Hrec)%list_elem_of_omap.
  destruct (OwnedTxOut_new rec account_key) as [o'|] eqn:Ho; simplify_eq/=.
  pose proof (proj1 (Forall_forall _ _) Hrecs _ Hin _ Ho) as Ht.
  destruct (OwnedTxOut_new_fields _ _ _ Ho) as (_ & Hb & _).
  pose proof (ao_block _ Ha _ Ht) as Hr; simpl in Hr.
  pose proof (proj1 (Forall_forall _ _) Hnew _ Hin); simpl in *.
  rewrite u64_add_small by (unfold is_u64, u64_max, u64_modulus in *; lia); lia.
Qed.

(** The block count of the balance does not go backwards: when the view
    server sends no output from a block below the count it had reached, a poll
    keeps or raises the block count the balance is computed for, also when the
    key image server lags behind or fails. *)
Theorem wallet_blocks_monotone self view images fuel self' view' images' r :
  account_ok a -> TruthfulView view_request account_key a view_inv ->
  TruthfulKeyImages enclave_request a images_inv -> wallet_reachable (self, view, images) ->
  (forall view1 set recs errs,
     poll view_request fuel view (ctd_rng_set self) (UserPrivate_from account_key)
       = Some (view1, set, (recs, errs)) ->
     Forall (fun rec => get_highest_processed_block_count (ctd_rng_set self) <= tor_block_index rec) recs) ->
  poll_fog view_request enclave_request fuel self view images account_key
    = Some (Ret (self', view', images', r)) ->
  get_num_blocks self <= get_num_blocks self'.
Proof.
  intros Ha V T Hr Hnew; pose proof (wallet_reachable_wallet_ok _ _ _ Ha V T Hr) as [Hok Him].
  unfold poll_fog; destruct (poll_fog_for_txos _ _ _ _ _) as [m1|] eqn:H1; [|done]; simpl.
  destruct (poll_fog_for_txos_ok view_request account_key a Ha view_inv _ _ _ _ Hok H1)
    as (self1 & view1 & -> & Hok1); simpl.
  destruct (poll_fog_for_key_images_ok enclave_request a Ha view_inv images_inv self1 view1 images Hok1 Him)
    as (self2 & images2 & r2 & -> & _ & _ & Hset & Hcomp); simpl; intros [= <- _ _ _].
  pose proof (poll_fog_for_txos_monotone _ _ _ _ _ Ha V Hok Hnew H1).
  unfold get_num_blocks in *; rewrite Hset; lia.
Qed.
End wallet_correct.
