(* ===== verification/WalletView.v ===== *)
(** * An honest view server is a truthful view

    [TruthfulView], the interface the wallet relies on, is provided by the poll
    loop of [Polling] against a view server that is honest about three things:
    the search keys that landed, the rng records it has announced, and what a
    found key is stored with. *)

From S2P Require Import Prelude FogTypes KexRng UserRngSet Polling InputSelection ViewEnclave EnclaveConnection LedgerServer CachedTxData CachedTxDataSpec WalletSpec.

Local Open Scope Z_scope.
Local Open Scope fog_scope.

Section wallet_view.
Context `{U : UserCrypto} `{I : HashIter} `{W : !WalletCrypto}.
Context {S ConnError : Type}.
Context (request : S -> Z -> Z -> list bytes -> result QueryResponse ConnError * S).
Context (account_key : AccountKey) (a : Account).

(** The search keys that land, with their blocks; the rngs of the user before
    their first output; the event that announces an rng; and the rng and the
    index an output of the account is stored under. *)
Context (landed : gmap (list Z) Z) (user_rngs : gmap (list Z) VersionedKexRng).
Context (announced : bytes -> Z) (place : TrueTxo -> bytes * Z).

Let upriv : UserPrivate := UserPrivate_from account_key.

(** The search key of an output. *)
Definition place_key (t : TrueTxo) : bytes :=
  match user_rngs !! (place t).1 with
  | Some r => output blake2b (rng_secret r) (place t).2
  | None => []
  end.

(** What the ingest servers did for the account. *)
Record account_ingested : Prop := {
  ai_rngs : rngs_ok landed user_rngs;
  ai_start : forall n r, user_rngs !! n = Some r -> rng_index r = 0;
  ai_announced : forall n, 0 <= announced n;
  ai_place : forall t, t ∈ acc_txos a -> is_Some (user_rngs !! (place t).1) /\ is_u64 (place t).2;
  ai_landed : forall t, t ∈ acc_txos a -> landed !! place_key t = Some (tt_block_index t);
}.

(** What the view server promises beyond [server_honest]. *)
Record view_honest : Prop := {
  vh_rngs : forall s e b resp s', request s e b [] = (Ok resp, s') ->
    forall rec, rec ∈ qresp_rng_records resp -> exists r,
      versioned_try_from_kex_pubkey blake2b (rr_pubkey rec) (get_view_key upriv) = Ok r
      /\ user_rngs !! krp_public_key (rr_pubkey rec) = Some r;
  vh_events : forall s e b resp s', request s e b [] = (Ok resp, s') ->
    forall n, is_Some (user_rngs !! n) -> e <= announced n < qresp_next_start_from_user_event_id resp ->
      exists rec, rec ∈ qresp_rng_records resp /\ krp_public_key (rr_pubkey rec) = n;
  vh_count : forall s e b resp s', request s e b [] = (Ok resp, s') ->
    forall t, t ∈ acc_txos a -> tt_block_index t < qresp_highest_processed_block_count resp ->
      announced (place t).1 < qresp_next_start_from_user_event_id resp;
  vh_stored : forall s e b keys resp s', request s e b keys = (Ok resp, s') ->
    forall res, res ∈ qresp_tx_out_search_results resp -> tsr_result_code res = 1 ->
      (forall rec, decrypt_tx_out_result upriv (tsr_ciphertext res) = Ok rec ->
         record_true account_key a rec)
      /\ (forall t, t ∈ acc_txos a -> place_key t = tsr_search_key res ->
            exists rec o, decrypt_tx_out_result upriv (tsr_ciphertext res) = Ok rec
              /\ OwnedTxOut_new rec account_key = Ok o /\ true_txo o = t);
}.

(** Nothing of [t] has been received, and its rng has not passed it. *)
Definition pending (rngs : gmap (list Z) VersionedKexRng) (t : TrueTxo) : Prop :=
  forall r, rngs !! (place t).1 = Some r -> rng_index r <= (place t).2.

(** The rngs of a set are rngs of the user, further on. *)
Definition rngs_from (rngs : gmap (list Z) VersionedKexRng) : Prop :=
  forall n r, rngs !! n = Some r -> exists r0, user_rngs !! n = Some r0 /\ rng_secret r = rng_secret r0.

Definition announced_known (rngs : gmap (list Z) VersionedKexRng) (next : Z) : Prop :=
  forall n, is_Some (user_rngs !! n) -> announced n < next -> is_Some (rngs !! n).

Record view_inv (s : S) (set : UserRngSet) (received : gset Z) : Prop := {
  vi_ok : rngs_ok landed (urs_rngs set);
  vi_from : rngs_from (urs_rngs set);
  vi_known : announced_known (urs_rngs set) (urs_next_start_from_user_event_id set);
  vi_txos : forall t, t ∈ acc_txos a -> tt_global_index t ∈ received
    \/ (urs_highest_processed_block_count set <= tt_block_index t /\ pending (urs_rngs set) t);
}.


(** ** Announced rngs *)

Lemma ingest_records_rngs recs acc :
  (forall rec, rec ∈ recs -> exists r,
     versioned_try_from_kex_pubkey blake2b (rr_pubkey rec) (get_view_key upriv) = Ok r
     /\ user_rngs !! krp_public_key (rr_pubkey rec) = Some r) ->
  let set' := (foldl (ingest_record (ConnError := ConnError) upriv) acc recs).1 in
  urs_rngs acc.1 ⊆ urs_rngs set'
  /\ (forall n r, urs_rngs set' !! n = Some r ->
        urs_rngs acc.1 !! n = Some r \/ user_rngs !! n = Some r)
  /\ (forall rec, rec ∈ recs -> is_Some (urs_rngs set' !! krp_public_key (rr_pubkey rec))).
Proof.
  revert acc; induction recs as [|rec recs IH]; intros acc Hrecs; simpl; [split_and!; [done|auto|set_solver]|].
  destruct (Hrecs rec) as (r & Hr & Hu); [by left|].
  destruct (IH (ingest_record upriv acc rec)) as (Hsub & Hfrom & Hin); [intros; apply Hrecs; by right|].
  assert (H1 : urs_rngs acc.1 ⊆ urs_rngs (ingest_record (ConnError := ConnError) upriv acc rec).1
    /\ is_Some (urs_rngs (ingest_record (ConnError := ConnError) upriv acc rec).1
         !! krp_public_key (rr_pubkey rec))
    /\ forall n q, urs_rngs (ingest_record (ConnError := ConnError) upriv acc rec).1 !! n = Some q ->
         urs_rngs acc.1 !! n = Some q \/ user_rngs !! n = Some q).
  { unfold ingest_record, ingest_rng_record; rewrite Hr; simpl.
    destruct (urs_rngs acc.1 !! krp_public_key (rr_pubkey rec)) as [q|] eqn:Hq; simpl.
    - split_and!; [done|by eexists|auto].
    - split_and!; [by apply insert_subseteq|by rewrite lookup_insert_eq; eexists|].
      intros n q; rewrite lookup_insert; case_decide; [|auto]; intros [= <-]; subst; auto. }
  destruct H1 as (Hs1 & Hi1 & Hf1); split_and!.
  - by etrans.
  - intros n q Hq; destruct (Hfrom _ _ Hq); auto.
  - intros rec' [->|?]%elem_of_cons; [|auto]; destruct Hi1 as [q Hq]; exists q.
    by eapply lookup_weaken.
Qed.

(** The laws of the rngs only depend on the secrets and the indices. *)
Lemma rngs_ok_from rngs : account_ingested -> rngs_from rngs ->
  (forall n r, rngs !! n = Some r -> rng_wf blake2b r /\ rng_index r < index_bound) ->
  rngs_ok landed rngs.
Proof.
  intros [Hu _ _ _ _] Hfrom Hwf; split.
  - intros n r Hr; by eapply Hwf.
  - intros n r Hr; by eapply Hwf.
  - intros n1 r1 n2 r2 i j H1 H2; destruct (Hfrom _ _ H1) as (q1 & Hq1 & ->).
    destruct (Hfrom _ _ H2) as (q2 & Hq2 & ->); by eapply (ok_distinct _ _ Hu).
  - intros n r Hr; destruct (Hfrom _ _ Hr) as (q & Hq & ->); by eapply (ok_order _ _ Hu).
Qed.

Lemma after_events s e b resp s' set :
  account_ingested -> view_honest -> request s e b [] = (Ok resp, s') ->
  rngs_ok landed (urs_rngs set) -> rngs_from (urs_rngs set) -> announced_known (urs_rngs set) e ->
  let rngs := rngs_after_events (ConnError := ConnError) set upriv resp in
  rngs_ok landed rngs /\ rngs_from rngs
  /\ announced_known rngs (qresp_next_start_from_user_event_id resp)
  /\ (forall t, t ∈ acc_txos a -> pending (urs_rngs set) t -> pending rngs t).
Proof.
  intros Hai Hvh Hreq Hok Hfrom Hknown rngs; unfold rngs, rngs_after_events.
  destruct (ingest_records_rngs (qresp_rng_records resp) (set, [])) as (Hsub & Hcase & Hin);
    [by eapply vh_rngs|]; simpl in *.
  set (rngs1 := urs_rngs (foldl _ _ _).1) in *.
  assert (Hfrom1 : rngs_from rngs1).
  { intros n r Hr; destruct (Hcase _ _ Hr); [by apply Hfrom|by exists r]. }
  split_and!; [|done| |].
  - apply rngs_ok_from; [done|done|]; intros n r Hr; destruct (Hcase _ _ Hr) as [Hr0|Hr0].
    + split; [by eapply (ok_wf _ _ Hok)|by eapply (ok_index _ _ Hok)].
    + split; [by eapply (ok_wf _ _ (ai_rngs Hai))|by eapply (ok_index _ _ (ai_rngs Hai))].
  - intros n Hn Hlt; destruct (decide (announced n < e)) as [Hold|Hnew].
    + destruct (Hknown _ Hn Hold) as [r Hr]; exists r; by eapply lookup_weaken.
    + destruct (vh_events Hvh _ _ _ _ _ Hreq n Hn) as (rec & Hrec & <-); [lia|by apply Hin].
  - intros t Ht Hp r Hr; destruct (Hcase _ _ Hr) as [Hr0|Hr0]; [by apply Hp|].
    rewrite (ai_start Hai _ _ Hr0); pose proof (ai_place Hai _ Ht) as [_ Hu]; apply Hu.
Qed.

(** ** One round of the poll *)

Lemma elem_of_ciphertexts m r k c :
  c ∈ ciphertexts m r k <-> exists i, (i < k)%nat /\ m !! peek (advance_n blake2b i r) = Some c.
Proof.
  revert r; induction k as [|k IH]; intros r; simpl; [split; [set_solver|naive_solver lia]|].
  assert (Hopt : forall o : option bytes, c ∈ option_list o <-> o = Some c)
    by (intros [c'|]; simpl; [rewrite list_elem_of_singleton; naive_solver|set_solver]).
  rewrite elem_of_app, IH, Hopt; split.
  - intros [Hc|(i & Hi & Hc)]; [exists 0%nat; split; [lia|done]|].
    exists (Datatypes.S i); split; [lia|by rewrite <- advance_n_S].
  - intros ([|i] & Hi & Hc); [by left|right; exists i; split; [lia|by rewrite advance_n_S]].
Qed.

Lemma elem_of_decrypted cs rec :
  rec ∈ decrypted upriv cs <-> exists c, c ∈ cs /\ decrypt_tx_out_result upriv c = Ok rec.
Proof.
  unfold decrypted; rewrite list_elem_of_omap; split; intros (c & Hc & Hd); exists c; (split; [done|]).
  - destruct (decrypt_tx_out_result upriv c); naive_solver.
  - by rewrite Hd.
Qed.

Lemma accepted_app l1 l2 : accepted account_key (l1 ++ l2) = accepted account_key l1 ++ accepted account_key l2.
Proof. apply omap_app. Qed.

(** The invariant of the loop. *)
Record loop_inv (received : gset Z) (next : Z)
    (st : PollState (S := S) (ConnError := ConnError)) : Prop := {
  li_poll : poll_inv landed st;
  li_from : rngs_from (urs_rngs (ps_set st));
  li_known : announced_known (urs_rngs (ps_set st)) next;
  li_next : urs_next_start_from_user_event_id (ps_set st) = next;
  li_results : Forall (record_true account_key a) (ps_results st);
  li_txos : forall t, t ∈ acc_txos a ->
    tt_global_index t ∈ received ∪ list_to_set (accepted account_key (ps_results st))
    \/ (urs_highest_processed_block_count (ps_set st) <= tt_block_index t
        /\ pending (urs_rngs (ps_set st)) t);
}.

Section round.
Context (Hai : account_ingested) (Hvh : view_honest).
Context (Hhonest : server_honest request landed) (Hsmall : Z.of_nat (size landed) < index_bound).

Section found.
Context (st st' : PollState (S := S) (ConnError := ConnError)) (resp : QueryResponse).
Context (steps : bytes -> nat) (found : list TxOutRecord).
Context (Hinv : poll_inv landed st) (Hf : round_facts request st st' resp steps).
Context (Hperm : found ≡ₚ mjoin ((fun e => decrypted upriv
  (ciphertexts (found_map (qresp_tx_out_search_results resp)) e.2 (steps e.1)))
  <$> map_to_list (urs_rngs (ps_set st)))).

Lemma elem_of_found rec :
  rec ∈ found <-> exists n r i c, urs_rngs (ps_set st) !! n = Some r /\ (i < steps n)%nat
    /\ found_map (qresp_tx_out_search_results resp) !! peek (advance_n blake2b i r) = Some c
    /\ decrypt_tx_out_result upriv c = Ok rec.
Proof.
  rewrite Hperm, list_elem_of_join; split.
  - intros (l & Hrec & ([n r] & -> & Hin)%list_elem_of_fmap); simpl in Hrec.
    apply elem_of_map_to_list in Hin; apply elem_of_decrypted in Hrec as (c & Hc & Hd).
    apply elem_of_ciphertexts in Hc as (i & Hi & Hc); by exists n, r, i, c.
  - intros (n & r & i & c & Hr & Hi & Hc & Hd); eexists; split; [|apply list_elem_of_fmap_2,
      elem_of_map_to_list, Hr]; simpl.
    apply elem_of_decrypted; exists c; split; [|done]; apply elem_of_ciphertexts; eauto.
Qed.

Lemma found_true : Forall (record_true account_key a) found.
Proof.
  apply Forall_forall; intros rec (n & r & i & c & _ & _ & Hc & Hd)%elem_of_found.
  apply found_map_some in Hc as (res & Hin & Hcode & _ & <-).
  destruct (rf_request _ _ _ _ _ Hf) as [s' Hreq].
  by eapply (vh_stored Hvh _ _ _ _ _ _ Hreq _ Hin Hcode).
Qed.

(** An output the round passes is among the records it returns. *)
Lemma found_txo t r : rngs_from (urs_rngs (ps_set st)) -> t ∈ acc_txos a ->
  urs_rngs (ps_set st) !! (place t).1 = Some r -> rng_index r <= (place t).2 ->
  (place t).2 < rng_index r + Z.of_nat (steps (place t).1) ->
  tt_global_index t ∈ accepted account_key found.
Proof.
  intros Hfrom Ht Hr Hge Hlt; set (j := Z.to_nat ((place t).2 - rng_index r)).
  pose proof (round_steps_small request landed Hsmall Hhonest st st' resp steps Hf _ _ Hr) as Hst.
  destruct (advance_peek_ok landed _ _ _ j (pi_ok _ _ Hinv) Hr) as [Hpk _]; [lia|].
  destruct (rf_steps _ _ _ _ _ Hf _ _ Hr) as [[Hc _] _]; destruct (Hc j) as [c Hfound]; [lia|].
  assert (Hkey : place_key t = peek (advance_n blake2b j r)).
  { unfold place_key; destruct (Hfrom _ _ Hr) as (r0 & -> & Hsec); rewrite Hpk, Hsec.
    f_equal; lia. }
  destruct (found_map_some _ _ _ Hfound) as (res & Hin & Hcode & Hsk & Hct).
  destruct (rf_request _ _ _ _ _ Hf) as [s' Hreq].
  destruct (vh_stored Hvh _ _ _ _ _ _ Hreq _ Hin Hcode) as [_ Hst2].
  destruct (Hst2 t Ht) as (rec & o & Hd & Ho & <-); [congruence|]; simpl.
  apply list_elem_of_omap; exists rec; split; [|by rewrite Ho].
  apply elem_of_found; exists (place (true_txo o)).1, r, j, c; split_and!; [done|lia|done|congruence].
Qed.
End found.

Lemma poll_round_next st st' : poll_round request upriv st = Ok st' ->
  urs_next_start_from_user_event_id (ps_set st') = urs_next_start_from_user_event_id (ps_set st).
Proof.
  unfold poll_round; destruct (request _ _ _ _) as [[resp|e] s']; [|done].
  unfold ingest_tx_out_search_results; repeat case_match; intros [= <-]; by simplify_eq/=.
Qed.

Lemma loop_inv_round received next st st' :
  loop_inv received next st -> poll_round request upriv st = Ok st' -> loop_inv received next st'.
Proof.
  intros [Hinv Hfrom Hknown Hnext Hres Htx] Hround.
  destruct (poll_round_facts request landed Hsmall Hhonest upriv st st' Hinv Hround)
    as (resp & steps & Hf & found & Happ & Hperm).
  split.
  - by eapply (poll_inv_round request landed Hsmall Hhonest).
  - intros n r' Hr'; destruct (round_lookup _ _ _ _ _ Hf _ _ Hr') as (r & Hr & ->).
    destruct (Hfrom _ _ Hr) as (r0 & ? & Hs); exists r0; by rewrite advance_n_secret.
  - intros n Hn Hlt; rewrite (rf_rngs _ _ _ _ _ Hf), fmap_is_Some; by apply Hknown.
  - by rewrite (poll_round_next _ _ Hround).
  - rewrite Happ; apply Forall_app; split; [done|]; by eapply found_true.
  - intros t Ht; rewrite Happ, accepted_app, list_to_set_app_L, (rf_highest _ _ _ _ _ Hf).
    destruct (Htx t Ht) as [Hin|[Hb Hp]]; [left; set_solver|].
    destruct (urs_rngs (ps_set st) !! (place t).1) as [r|] eqn:Hr.
    + destruct (decide ((place t).2 < rng_index r + Z.of_nat (steps (place t).1))) as [Hlt|Hge].
      * left; apply elem_of_union_r, elem_of_union_r, elem_of_list_to_set.
        by eapply (found_txo st st' resp steps found); [..|apply Hp|].
      * right; split; [done|]; intros r' Hr'.
        destruct (round_lookup _ _ _ _ _ Hf _ _ Hr') as (r1 & Hr1 & ->).
        rewrite Hr in Hr1; injection Hr1 as <-.
        rewrite (round_index request landed Hsmall Hhonest _ _ _ _ Hinv Hf _ _ Hr); lia.
    + right; split; [done|]; intros r' Hr'.
      destruct (round_lookup _ _ _ _ _ Hf _ _ Hr') as (r1 & Hr1 & _); congruence.
Qed.

Lemma loop_inv_loop received next fuel st st' : loop_inv received next st ->
  (poll_loop request fuel upriv st = Some (Ok st') \/ poll_loop request fuel upriv st = Some (Err st')) ->
  loop_inv received next st'.
Proof.
  revert st; induction fuel as [|fuel IH]; intros st Hinv; simpl; [naive_solver|].
  case_bool_decide; [intros [|]; by simplify_eq|].
  destruct (poll_round request upriv st) as [st1|st1] eqn:Hr.
  - apply IH; by eapply loop_inv_round.
  - intros [|]; simplify_eq; revert Hr; unfold poll_round; destruct (request _ _ _ _) as [[resp|e] s'].
    + by repeat case_match.
    + intros [= <-]; destruct Hinv as [[] ? ? ? ? ?]; split; try done; by split.
Qed.

Lemma poll_loop_not_higher fuel st st' :
  poll_loop request fuel upriv st = Some (Ok st') ->
  ps_new_highest_processed_block_count st' <= ps_new_highest_processed_block_count st.
Proof.
  revert st; induction fuel as [|fuel IH]; intros st; simpl; [done|].
  case_bool_decide; [intros [= <-]; lia|].
  destruct (poll_round request upriv st) as [st1|st1] eqn:Hr; [|done]; intros Hl; apply IH in Hl.
  revert Hr; unfold poll_round; destruct (request _ _ _ _) as [[resp|e] s']; [|done].
  repeat case_match; intros [= <-]; simpl in *; lia.
Qed.

(** ** The poll *)

Lemma view_inv_poll fuel s set received s' set' recs errs :
  view_inv s set received -> poll request fuel s set upriv = Some (s', set', (recs, errs)) ->
  Forall (record_true account_key a) recs
  /\ view_inv s' set' (received ∪ list_to_set (accepted account_key recs)).
Proof.
  intros [Hok Hfrom Hknown Htx]; unfold poll, get_next_start_from_user_event_id,
    get_highest_processed_block_count.
  destruct (request s _ _ []) as [[resp|e] s1] eqn:Hreq.
  2:{ intros [= <- <- <- <-]; split; [constructor|]; simpl; by rewrite union_empty_r_L. }
  destruct (after_events _ _ _ _ _ _ Hai Hvh Hreq Hok Hfrom Hknown) as (Hok1 & Hfrom1 & Hknown1 & Hpend).
  unfold rngs_after_events in *.
  pose proof (ingest_records_highest (ConnError := ConnError) upriv (set, []) (qresp_rng_records resp)) as Hh.
  destruct (foldl (ingest_record upriv) (set, []) (qresp_rng_records resp)) as [set1 errs1]; simpl in *.
  assert (Htx1 : forall t, t ∈ acc_txos a -> tt_global_index t ∈ received
    \/ (urs_highest_processed_block_count set1 <= tt_block_index t /\ pending (urs_rngs set1) t)).
  { intros t Ht; destruct (Htx t Ht) as [|[? ?]]; [by left|right; rewrite Hh; auto]. }
  case_match.
  { intros [= <- <- <- <-]; split; [constructor|]; simpl; rewrite union_empty_r_L; by split. }
  set (st0 := poll_start _ _ _ _).
  assert (Hli : loop_inv received (qresp_next_start_from_user_event_id resp) st0).
  { split; simpl; [by apply poll_inv_start|done|done|done|constructor|].
    intros t Ht; destruct (Htx1 t Ht) as [|]; [left; set_solver|by right]. }
  destruct (poll_loop request fuel upriv st0) as [[st|st]|] eqn:Hloop; [| |done].
  2:{ destruct (loop_inv_loop _ _ _ _ _ Hli (or_intror Hloop)) as [Hp Hf Hk Hn Hr Ht].
      intros [= <- <- <- <-]; split; [done|]; split; [apply Hp|done|by rewrite Hn|done]. }
  destruct (loop_inv_loop _ _ _ _ _ Hli (or_introl Hloop)) as [Hp Hf Hk Hn Hr Ht].
  pose proof (poll_loop_complete request landed Hsmall Hhonest fuel upriv _ _ (li_poll _ _ _ Hli) Hloop) as Hc.
  pose proof (poll_loop_not_higher _ _ _ Hloop) as Hle; simpl in Hle.
  case_match; intros [= <- <- <- <-]; (split; [done|]); split; simpl; try by rewrite ?Hn.
  1, 3: apply Hp.
  - intros t Hin; destruct (Ht t Hin) as [|[Hb Hpe]]; [by left|right; split; [|done]].
    destruct (decide (tt_block_index t < ps_new_highest_processed_block_count st)) as [Hlt|]; [|lia].
    assert (Hann : announced (place t).1 < qresp_next_start_from_user_event_id resp)
      by (eapply (vh_count Hvh _ _ _ _ _ Hreq); [done|lia]).
    destruct (ai_place Hai t Hin) as [Hu [_ Hu64]].
    destruct (Hk _ Hu Hann) as [r Hr1]; eapply (Hc _ _ Hr1 (place t).2 (tt_block_index t)).
    + split; [by apply Hpe|done].
    + pose proof (ai_landed Hai t Hin) as Hl; unfold place_key in Hl.
      destruct (Hf _ _ Hr1) as (r0 & Hr0 & ->); by rewrite Hr0 in Hl.
Qed.
End round.
End wallet_view.

(** ** The interface is provided *)

(** The poll loop against an honest view server is a truthful view: it returns
    only records that are outputs of the account, or do not match its view key,
    and every output below the block count of the rng set has been returned by
    some poll.  The invariant holds for a new wallet. *)
Lemma honest_view_provides `{U : UserCrypto} `{I : HashIter} `{W : !WalletCrypto} {S ConnError}
    (request : S -> Z -> Z -> list bytes -> result QueryResponse ConnError * S)
    (account_key : AccountKey) (a : Account) (landed : gmap (list Z) Z)
    (user_rngs : gmap (list Z) VersionedKexRng) (announced : bytes -> Z) (place : TrueTxo -> bytes * Z) :
  account_ok a -> account_ingested a landed user_rngs announced place ->
  view_honest request account_key a user_rngs announced place ->
  server_honest request landed -> Z.of_nat (size landed) < index_bound ->
  TruthfulView request account_key a (view_inv a landed user_rngs announced place)
  /\ forall s, view_inv (S := S) a landed user_rngs announced place s UserRngSet_new ∅.
Proof.
  intros Ha Hai Hvh Hhonest Hsmall; split; [split|].
  - intros conn set received t [_ _ _ Htx] Ht Hlt; destruct (Htx t Ht) as [|[? _]]; [done|lia].
  - intros; by eapply view_inv_poll.
  - intros s; split; simpl.
    + split; intros; by rewrite lookup_empty in *.
    + intros n r; by rewrite lookup_empty.
    + intros n _ Hlt; pose proof (ai_announced _ _ _ _ _ Hai n); lia.
    + intros t Ht; right; split; [apply (ao_block _ Ha _ Ht)|by intros r; rewrite lookup_empty].
Qed.
