(* ===== verification/WalletSystem.v ===== *)
(** * The wallet and its servers together

    The wallet of [CachedTxData] polls an honest view server and the key image
    service of [LedgerServer] over a ledger that grows: [served_key_images] is
    the service over a channel that delivers requests and answers unchanged,
    [attested_key_images_request] the service over the attested connection of
    [AttestedLedger]. *)

From S2P Require Import Prelude FogTypes KexRng UserRngSet Polling InputSelection ViewEnclave EnclaveConnection LedgerServer LedgerServerSpec CachedTxData AttestedLedger CachedTxDataSpec WalletSpec WalletView.

Local Open Scope Z_scope.
Local Open Scope fog_scope.

Section key_image_service.
Context `{L : Ledger}.

(** The error code a client gets for a status, and for a service that panics. *)
Context (grpc_status : RpcError -> GrpcError) (grpc_panic : GrpcError).

(** A request of the key image client, answered by the enclave and the service. *)
Definition served_key_images (w : World) (request : CheckKeyImagesRequest)
  : result CheckKeyImagesResponse EnclaveConnectionError * World :=
  match check_key_images_impl (mkKeyImageContext (kiq_key_image <$> ckr_queries request)) w with
  | Ret (Ok response, w) => (Ok response, w)
  | Ret (Err e, w) => (Err (Rpc (grpc_status e)), w)
  | Panic => (Err (Rpc grpc_panic), w)
  end.

Lemma key_images_request_images images :
  kiq_key_image <$> ckr_queries (key_images_request images) = images.
Proof. unfold key_images_request; simpl; rewrite <- list_fmap_compose; apply list_fmap_id. Qed.

(** An answer that is true of the ledger is true of the account. *)
Lemma image_answer_true truth a n k res : acc_spent a = lt_spent truth ->
  image_answer truth n k res -> result_true a n res.
Proof.
  unfold image_answer, result_true, KeyImageResult_status, KeyImageResultCode_try_from.
  intros -> [-> H]; repeat case_match; naive_solver.
Qed.

(** An answer of the service is what the wallet relies on. *)
Lemma key_images_answer_true height truth a w images response w' :
  acc_spent a = lt_spent truth -> NoDup images ->
  key_images_spec height truth w images (Ok response) w' ->
  NoDup (kir_key_image <$> cks_results response)
  /\ Forall (result_true a (cks_num_blocks response)) (cks_results response).
Proof.
  intros Hspent Hnd (_ & _ & Hall); split.
  - replace (kir_key_image <$> cks_results response) with images; [done|].
    clear Hnd; induction Hall as [|k res ks rs [Hk _] _ IH]; [done|]; rewrite fmap_cons; congruence.
  - clear Hnd; induction Hall as [|k res ks rs Hk _ IH]; constructor; [|done].
    by eapply image_answer_true.
Qed.

Lemma served_key_images_truthful height truth valid_proof a :
  LedgerLaws L height truth valid_proof -> acc_spent a = lt_spent truth ->
  TruthfulKeyImages served_key_images a (fun _ => True).
Proof.
  intros LL Hspent w images r w' _ Hnd; unfold served_key_images; rewrite key_images_request_images.
  destruct (check_key_images_impl_spec height truth valid_proof images w) as (r1 & w1 & -> & _ & Hs).
  destruct r1 as [resp|e]; intros [= <- <-]; split; try done.
  by eapply key_images_answer_true.
Qed.

(** ** Wallets with many outputs *)

Definition not_spent (o : OwnedTxOut) : bool :=
  match oto_status o with NotSpentAsOf _ => true | SpentAt _ => false end.

Lemma collect_count l acc :
  NoDup (oto_key_image <$> List.filter not_spent l) ->
  (forall o, o ∈ l -> not_spent o = true -> acc.1 !! oto_key_image o = None) ->
  length (foldl collect_key_image acc l).2 = (length acc.2 + length (List.filter not_spent l))%nat.
Proof.
  revert acc; induction l as [|o l IH]; intros acc Hnd Hacc; simpl; [lia|].
  unfold not_spent in Hnd |- *; unfold collect_key_image at 2; simpl in Hnd.
  destruct (oto_status o) as [s|n] eqn:Hs; fold not_spent in *.
  - apply IH; [done|]; intros o' Hin; apply Hacc; by right.
  - rewrite fmap_cons, NoDup_cons in Hnd; destruct Hnd as [Hnin Hnd].
    rewrite (Hacc o) by (by left || (unfold not_spent; by rewrite Hs)).
    rewrite IH; [simpl; rewrite length_app; simpl; lia|done|].
    intros o' Hin Ho'; simpl; rewrite lookup_insert_ne; [apply Hacc; [by right|done]|].
    intros Heq; apply Hnin; rewrite Heq; apply list_elem_of_fmap_2, elem_of_list_filter_bool; done.
Qed.

(** C39: a wallet that holds more outputs not known to be spent than a request
    may contain cannot learn anything about them: the service refuses its one
    request for all of them whatever the ledger holds, every time, and the
    wallet keeps its state. *)
Theorem large_wallet_stuck self w :
  (KeyImage_MAX_REQUEST_SIZE < length (List.filter not_spent (owned_tx_outs self).*2))%nat ->
  NoDup (oto_key_image <$> List.filter not_spent (owned_tx_outs self).*2) ->
  poll_fog_for_key_images served_key_images self w
    = Ret (self, w, Err (LedgerConnection (Connection (Rpc (grpc_status RpcInvalidArg))))).
Proof.
  intros Hlen Hnd; unfold poll_fog_for_key_images, client_check_key_images.
  pose proof (collect_count (owned_tx_outs self).*2 (∅, []) Hnd
    ltac:(intros; apply lookup_empty)) as Hc.
  fold (collect_key_images (owned_tx_outs self)) in Hc.
  destruct (collect_key_images (owned_tx_outs self)) as [m keys]; simpl in Hc.
  unfold served_key_images; rewrite key_images_request_images; unfold check_key_images_impl; simpl.
  rewrite bool_decide_eq_true_2 by (rewrite Hc; exact Hlen); done.
Qed.
End key_image_service.

(** ** The key image service over its attested channel *)

Section attested.
Context `{L : Ledger} `{A : Ake} `{AC : AttestClient} `{N : !Network} `{LC : !LedgerCodec}.
Context `{CC : ClientCodec} (attested_call :
  (EnclaveConnection LedgerNode -> run (EnclaveConnection LedgerNode * result Message GrpcError)) ->
  EnclaveConnection LedgerNode -> run (EnclaveConnection LedgerNode * result Message EnclaveConnectionError)).

(** A request of the wallet; a panic would end the client. *)
Definition attested_key_images_request (c : EnclaveConnection LedgerNode) (request : CheckKeyImagesRequest)
  : result CheckKeyImagesResponse EnclaveConnectionError * EnclaveConnection LedgerNode :=
  match key_images_over attested_call c request with
  | Ret (c, r) => (r, c)
  | Panic => (Err (Rpc (OtherGrpcError 0)), c)
  end.

Lemma attested_key_images_truthful `{CL : !ClientCodecLaws LC CC} `{ML : !MetadataLaws AC}
    in_sync ahead `{SL : !SessionLaws N in_sync ahead} `{AL : !AttestedCallLaws attested_call}
    height truth valid_proof a :
  LedgerLaws L height truth valid_proof -> acc_spent a = lt_spent truth ->
  TruthfulKeyImages attested_key_images_request a (conn_inv in_sync ahead).
Proof.
  intros LL Hspent c images r c' Hinv Hnd; unfold attested_key_images_request.
  destruct (key_images_over_spec in_sync ahead attested_call height truth valid_proof c
    (key_images_request images) Hinv) as (c1 & r1 & -> & Hinv1 & Hr); intros [= <- <-].
  split; [done|]; destruct r1 as [response|e]; [|done]; unfold served in Hr.
  rewrite key_images_request_images in Hr.
  destruct (check_key_images_impl_spec height truth valid_proof images (conn_world c))
    as (x & w & Hx & _ & Hs); rewrite Hx in Hr; injection Hr as -> ->.
  by eapply key_images_answer_true.
Qed.
End attested.

(** ** The balance *)

