(* ===== verification/PaykitClient.v ===== *)
(** * The client of the sample paykit (src/fog/sample-paykit/src/client.rs)

    The balance check, the status of a transaction and the construction of a
    transaction.  The connections are state-passing request functions; the
    transaction builder, the fog resolver and the random generator are
    parameters.  Submitting a transaction and reading the minimum fee are single
    calls of the consensus connection and are left out. *)

From S2P Require Import Prelude FogTypes KexRng UserRngSet Polling InputSelection ViewEnclave EnclaveConnection LedgerServer CachedTxData.

Local Open Scope Z_scope.
Local Open Scope fog_scope.

(** ** ledger/connection/src: the other two clients *)

Inductive OutputError :=
| OutputErrorDatabase
| OutputErrorUnknown (code : Z).

(** [OutputResultExtension::status]. *)
Definition OutputResult_status {P} (self : OutputResult P) : result (option (TxOut * P)) OutputError :=
  if our_result_code self =? OutputResultCode_as_u32 Exists
  then Ok (Some (our_output self, our_proof self))
  else if our_result_code self =? OutputResultCode_as_u32 DoesNotExist then Ok None
  else if our_result_code self =? OutputResultCode_as_u32 OutputDatabaseError
  then Err OutputErrorDatabase
  else Err (OutputErrorUnknown (our_result_code self)).

(** [FogMerkleProofGrpcClient::get_outputs]. *)
Definition client_get_outputs {P Conn} (enclave_request : Conn -> GetOutputsRequest ->
    result (GetOutputsResponse P) EnclaveConnectionError * Conn)
    (conn : Conn) (indices : list Z) (merkle_root_block : Z)
  : Conn * result (GetOutputsResponse P) LedgerConnectionError :=
  let '(response, conn) := enclave_request conn (mkGetOutputsRequest indices merkle_root_block) in
  (conn, map_err Connection response).

(** [FogUntrustedLedgerGrpcClient::get_tx_outs]; an error of the grpc library. *)
Definition client_get_tx_outs {Conn} (get_tx_outs_opt : Conn -> list bytes -> result TxOutResponse GrpcError * Conn)
    (conn : Conn) (tx_out_pubkeys : list bytes) : Conn * result TxOutResponse LedgerConnectionError :=
  let '(response, conn) := get_tx_outs_opt conn tx_out_pubkeys in (conn, map_err Grpc response).

(** ** The status of a transaction *)

Inductive TransactionStatus :=
| Appeared (block_index : Z)
| Expired
| Unknown.

(** What the client uses of a transaction. *)
Record Tx := mkTx {
  tx_outputs : list TxOut;
  tx_tombstone_block : Z;
}.

Section status.
Context (compressed_try_from : bytes -> result bytes KeyError).

(** The first result for [public_key] decides; there has to be one. *)
Fixpoint find_status (public_key : bytes) (tombstone_block num_blocks : Z) (results : list TxOutResult)
  : run TransactionStatus :=
  match results with
  | [] => Panic
  | tx_out_result :: results =>
      match txr_tx_out_pubkey tx_out_result with
      | None => find_status public_key tombstone_block num_blocks results
      | Some external =>
          match compressed_try_from external with
          | Err _ => find_status public_key tombstone_block num_blocks results
          | Ok this_pubkey =>
              if bool_decide (this_pubkey = public_key)
              then
                match txr_result_code tx_out_result with
                | TxOutFound => Ret (Appeared (txr_block_index tx_out_result))
                | MalformedRequest => Panic
                | DatabaseError => Ret Unknown
                | TxOutNotFound => Ret (if tombstone_block <=? num_blocks then Expired else Unknown)
                end
              else find_status public_key tombstone_block num_blocks results
          end
      end
  end.

Definition is_transaction_present {Conn}
    (get_tx_outs_opt : Conn -> list bytes -> result TxOutResponse GrpcError * Conn)
    (fog_untrusted : Conn) (transaction : Tx) : run (Conn * result TransactionStatus PaykitError) :=
  match tx_outputs transaction with
  | [] => Panic
  | output :: _ =>
      let public_key := txo_public_key output in
      let '(conn, response) := client_get_tx_outs get_tx_outs_opt fog_untrusted [public_key] in
      match response with
      | Err e => Ret (conn, Err (UntrustedTxOut e))
      | Ok response =>
          status ← find_status public_key (tx_tombstone_block transaction) (txs_num_blocks response)
                     (txs_results response);
          Ret (conn, Ok status)
      end
  end.
End status.

(** ** Outputs, proofs and rings *)

Section outputs.
Context {P Conn : Type}.
Context (enclave_request : Conn -> GetOutputsRequest ->
           result (GetOutputsResponse P) EnclaveConnectionError * Conn).

(** The results, which have to be in the order of the indices and to exist;
    [idx] is the position of the first of [results]. *)
Fixpoint checked_outputs (indices : list Z) (idx : nat) (results : list (OutputResult P))
  : run (list (TxOut * P)) :=
  match results with
  | [] => Ret []
  | res :: results =>
      index ← unwrap (indices !! idx);
      _ ← rassert (our_index res =? index);
      output ← match OutputResult_status res with Ok (Some output) => Ret output | _ => Panic end;
      rest ← checked_outputs indices (S idx) results;
      Ret (output :: rest)
  end.

Definition set_tx_out (self : OwnedTxOut) (tx_out : TxOut) : OwnedTxOut :=
  mkOwnedTxOut (oto_global_index self) (oto_block_index self) tx_out (oto_value self)
    (oto_key_image self) (oto_status self).

Definition get_proofs (fog_merkle_proof : Conn) (inputs : list OwnedTxOut)
  : run (Conn * result (list (OwnedTxOut * P)) PaykitError) :=
  let indices := oto_global_index <$> inputs in
  let '(conn, response) := client_get_outputs enclave_request fog_merkle_proof indices 0 in
  match response with
  | Err e => Ret (conn, Err (LedgerConnection e))
  | Ok response =>
      outputs_and_proofs ← checked_outputs indices 0 (gos_results response);
      Ret (conn, Ok (zip_with (fun o input => (set_tx_out input o.1, o.2)) outputs_and_proofs inputs))
  end.

(** The random generator and the order of a hash set. *)
Context {R : Type} (gen_range : R -> Z -> Z * R) (set_iter : gset Z -> list Z).

(** [None] when the fuel runs out: the code draws until it has enough. *)
Fixpoint sample_indices (fuel : nat) (sample_limit num_requested : Z) (sampled : gset Z) (rng : R)
  : option (gset Z * R) :=
  match fuel with
  | O => None
  | S fuel =>
      if Z.of_nat (size sampled) <? num_requested
      then
        let '(index, rng) := gen_range rng sample_limit in
        sample_indices fuel sample_limit num_requested ({[index]} ∪ sampled) rng
      else Some (sampled, rng)
  end.

(** The outputs in rings of [ring_size]; an incomplete ring is dropped. *)
Fixpoint fill_rings (ring_size : Z) (outputs ring : list (TxOut * P)) (rings : list (list (TxOut * P)))
  : list (list (TxOut * P)) :=
  match outputs with
  | [] => rings
  | o :: outputs =>
      let ring := ring ++ [o] in
      if Z.of_nat (length ring) =? ring_size
      then fill_rings ring_size outputs [] (rings ++ [ring])
      else fill_rings ring_size outputs ring rings
  end.

Definition get_rings (fuel : nat) (ring_size : Z) (tx_data : CachedTxData) (fog_merkle_proof : Conn)
    (num_rings : nat) (rng : R)
  : option (run (Conn * R * result (list (list (TxOut * P))) PaykitError)) :=
  let num_requested := Z.of_nat num_rings *w ring_size in
  let sample_limit := get_global_txo_count tx_data in
  if sample_limit <? num_requested
  then Some (Ret (fog_merkle_proof, rng,
                  Err (InsufficientTxOutsInBlockchain sample_limit num_requested)))
  else
    '(sampled_indices, rng) ← sample_indices fuel sample_limit num_requested ∅ rng;
    let indices := set_iter sampled_indices in
    let '(conn, response) := client_get_outputs enclave_request fog_merkle_proof indices 0 in
    Some match response with
         | Err e => Ret (conn, rng, Err (LedgerConnection e))
         | Ok response =>
             outputs_and_proofs ← checked_outputs indices 0 (gos_results response);
             Ret (conn, rng, Ok (fill_rings ring_size outputs_and_proofs [] []))
         end.
End outputs.

(** [compute_tombstone_block]: a request for no key images gives the count. *)
Definition compute_tombstone_block {KeyImageConn} (enclave_request : KeyImageConn ->
    CheckKeyImagesRequest -> result CheckKeyImagesResponse EnclaveConnectionError * KeyImageConn)
    (new_tx_block_attempts : Z) (fog_key_image : KeyImageConn) : KeyImageConn * result Z PaykitError :=
  let '(conn, response) := client_check_key_images enclave_request fog_key_image [] in
  (conn, let? res := map_err LedgerConnection response in
         Ok (cks_num_blocks res +w new_tx_block_attempts)).

(** ** Building a transaction *)

(** The transaction builder, addresses and reports of the mobilecoin crates; the
    error of [FogResolver::new] is the one [?] converts it to. *)
Class TxBuilder `{K : Kex} (P : Type) := {
  PublicAddress : Type;
  FogReports : Type;
  Resolver : Type;
  Builder : Type;
  Credentials : Type;
  Rng : Type;
  default_subaddress : AccountKey -> PublicAddress;
  fog_report_url : PublicAddress -> option bytes;
  FogUri_from_str : bytes -> result bytes Z;
  FogResolver_new : FogReports -> result Resolver PaykitError;
  TransactionBuilder_new : Resolver -> Builder;
  set_fee : Builder -> Z -> Builder;
  builder_fee : Builder -> Z;
  InputCredentials_new : list TxOut -> list P -> nat -> Private -> Private -> result Credentials Z;
  add_input : Builder -> Credentials -> Builder;
  add_output : Builder -> Z -> PublicAddress -> Rng -> result Builder Z * Rng;
  set_tombstone_block : Builder -> Z -> Builder;
  build : Builder -> Rng -> result Tx Z * Rng;
}.

Section build.
Context {P : Type} `{W : WalletCrypto} `{B : !TxBuilder P}.

(** The ring with the input in it, and where it is. *)
Definition place_input (ring : list TxOut) (membership_proofs : list P) (tx_out : TxOut) (proof : P)
  : list TxOut * list P * nat :=
  match list_find (fun t => t = tx_out) ring with
  | Some (position, _) => (ring, membership_proofs, position)
  | None =>
      match ring with
      | [] => ([tx_out], membership_proofs ++ [proof], 0%nat)
      | _ => (<[0%nat := tx_out]> ring, <[0%nat := proof]> membership_proofs, 0%nat)
      end
  end.

(** The loop over the inputs; [rings] is the stack they take their rings from. *)
Fixpoint add_inputs (source_account_key : AccountKey) (inputs : list (OwnedTxOut * P))
    (rings : list (list TxOut * list P)) (tx_builder : Builder) : run (result Builder PaykitError) :=
  match inputs with
  | [] => Ret (Ok tx_builder)
  | (input_txo, input_proof) :: inputs =>
      match rings with
      | [] => Panic
      | (ring, membership_proofs) :: rings =>
          _ ← rassert (length ring =? length membership_proofs)%nat;
          let '(ring, membership_proofs, real_key_index) :=
            place_input ring membership_proofs (oto_tx_out input_txo) input_proof in
          _ ← rassert (length ring =? length membership_proofs)%nat;
          match public_try_from (txo_public_key (oto_tx_out input_txo)) with
          | Err e => Ret (Err (PaykitKey e))
          | Ok public_key =>
              let onetime_private_key := recover_onetime_private_key public_key
                (view_private_key source_account_key)
                (default_subaddress_spend_private source_account_key) in
              match InputCredentials_new ring membership_proofs real_key_index onetime_private_key
                      (view_private_key source_account_key) with
              | Err _ => Ret (Err (BrokenRing (Z.of_nat (length ring)) (Z.of_nat real_key_index)))
              | Ok credentials =>
                  add_inputs source_account_key inputs rings (add_input tx_builder credentials)
              end
          end
      end
  end.

Definition build_transaction_helper (inputs : list (OwnedTxOut * P)) (rings : list (list (TxOut * P)))
    (amount : Z) (source_account_key : AccountKey) (target_address : PublicAddress)
    (tombstone_block : Z) (fog_resolver : Resolver) (rng : Rng) (fee : Z)
  : run (Rng * result Tx PaykitError) :=
  if negb (length rings =? length inputs)%nat
  then Ret (rng, Err (RingsForInput (Z.of_nat (length rings)) (Z.of_nat (length inputs))))
  else
    let tx_builder := set_fee (TransactionBuilder_new fog_resolver) fee in
    let input_amount := foldl (fun acc input => acc +w oto_value input.1) 0 inputs in
    if input_amount <? amount +w builder_fee tx_builder
    then Ret (rng, Err PaykitInsufficientFunds)
    else
      let change := input_amount -w (amount +w builder_fee tx_builder) in
      let rings_and_proofs := (fun tuples => (tuples.*1, tuples.*2)) <$> rings in
      added ← add_inputs source_account_key inputs (rev rings_and_proofs) tx_builder;
      match added with
      | Err e => Ret (rng, Err e)
      | Ok tx_builder =>
          let '(r, rng) := add_output tx_builder amount target_address rng in
          match r with
          | Err e => Ret (rng, Err (AddOutput e))
          | Ok tx_builder =>
              let '(r, rng) :=
                if 0 <? change
                then add_output tx_builder change (default_subaddress source_account_key) rng
                else (Ok tx_builder, rng) in
              match r with
              | Err e => Ret (rng, Err (AddOutput e))
              | Ok tx_builder =>
                  let '(tx, rng) := build (set_tombstone_block tx_builder tombstone_block) rng in
                  Ret (rng, map_err BuildTx tx)
              end
          end
      end.

(** [filter_map(fog_report_url).map(FogUri::from_str).collect()]. *)
Fixpoint fog_uris (addresses : list PublicAddress) : result (list bytes) Z :=
  match addresses with
  | [] => Ok []
  | addr :: addresses =>
      match fog_report_url addr with
      | None => fog_uris addresses
      | Some url =>
          let? uri := FogUri_from_str url in
          let? uris := fog_uris addresses in
          Ok (uri :: uris)
      end
  end.
End build.

(** ** The client *)

Definition DEFAULT_NEW_TX_BLOCK_ATTEMPTS : Z := 50.
Definition TARGET_NUM_INPUTS : nat := 3.

Section client.
Context {P : Type} `{U : UserCrypto} `{I : HashIter} `{W : !WalletCrypto} `{B : !TxBuilder P}.
Context {ViewConn ViewError KeyImageConn MerkleConn ReportConn : Type}.
Context (view_request : ViewConn -> Z -> Z -> list bytes -> result QueryResponse ViewError * ViewConn).
Context (key_image_request : KeyImageConn -> CheckKeyImagesRequest ->
           result CheckKeyImagesResponse EnclaveConnectionError * KeyImageConn).
Context (merkle_request : MerkleConn -> GetOutputsRequest ->
           result (GetOutputsResponse P) EnclaveConnectionError * MerkleConn).
Context (fetch_fog_reports : ReportConn -> list bytes -> result FogReports Z * ReportConn).
Context (gen_range : Rng -> Z -> Z * Rng) (set_iter : gset Z -> list Z).
(** Constants of the transaction crate. *)
Context (MAX_INPUTS : nat) (MINIMUM_FEE : Z).

Record Client := mkClient {
  cl_fog_view : ViewConn;
  cl_fog_merkle_proof : MerkleConn;
  cl_fog_key_image : KeyImageConn;
  cl_fog_report_conn : ReportConn;
  cl_ring_size : Z;
  cl_account_key : AccountKey;
  cl_tx_data : CachedTxData;
  cl_new_tx_block_attempts : Z;
}.

Definition Client_new (fog_view : ViewConn) (fog_merkle_proof : MerkleConn)
    (fog_key_image : KeyImageConn) (fog_report_conn : ReportConn) (ring_size : Z)
    (account_key : AccountKey) : Client :=
  mkClient fog_view fog_merkle_proof fog_key_image fog_report_conn ring_size account_key
    CachedTxData_new DEFAULT_NEW_TX_BLOCK_ATTEMPTS.

Definition set_new_tx_block_attempts (self : Client) (new_tx_block_attempts : Z) : Client :=
  mkClient (cl_fog_view self) (cl_fog_merkle_proof self) (cl_fog_key_image self)
    (cl_fog_report_conn self) (cl_ring_size self) (cl_account_key self) (cl_tx_data self)
    new_tx_block_attempts.

Definition compute_balance (self : Client) : run (Z * Z) := get_balance (cl_tx_data self).

Definition check_balance (fuel : nat) (self : Client) : option (run (Client * result (Z * Z) PaykitError)) :=
  polled ← poll_fog view_request key_image_request fuel (cl_tx_data self) (cl_fog_view self)
             (cl_fog_key_image self) (cl_account_key self);
  Some ('(tx_data, view, key_image, r) ← polled;
        let self := mkClient view (cl_fog_merkle_proof self) key_image (cl_fog_report_conn self)
                      (cl_ring_size self) (cl_account_key self) tx_data (cl_new_tx_block_attempts self) in
        match r with
        | Err e => Ret (self, Err e)
        | Ok _ => balance ← compute_balance self; Ret (self, Ok balance)
        end).

(** The client after its connections were used. *)
Definition with_conns (self : Client) (merkle : MerkleConn) (key_image : KeyImageConn)
    (report : ReportConn) : Client :=
  mkClient (cl_fog_view self) merkle key_image report (cl_ring_size self) (cl_account_key self)
    (cl_tx_data self) (cl_new_tx_block_attempts self).

(** The steps after the rings: tombstone block, reports, and the transaction. *)
Definition finish_transaction (self : Client) (merkle : MerkleConn) (amount : Z)
    (target_address : PublicAddress) (rng : Rng) (fee : Z) (inputs : list (OwnedTxOut * P))
    (rings : list (list (TxOut * P))) : run (Client * Rng * result Tx PaykitError) :=
  let '(key_image, tombstone_block) :=
    compute_tombstone_block key_image_request (cl_new_tx_block_attempts self) (cl_fog_key_image self) in
  let self := with_conns self merkle key_image (cl_fog_report_conn self) in
  match tombstone_block with
  | Err e => Ret (self, rng, Err e)
  | Ok tombstone_block =>
      match fog_uris [default_subaddress (cl_account_key self); target_address] with
      | Err e => Ret (self, rng, Err (PaykitUri e))
      | Ok uris =>
          let '(fog_responses, report) := fetch_fog_reports (cl_fog_report_conn self) uris in
          let self := with_conns self merkle key_image report in
          match (let? fog_responses := map_err FogResolution fog_responses in
                 FogResolver_new fog_responses) with
          | Err e => Ret (self, rng, Err e)
          | Ok fog_resolver =>
              '(rng, tx) ← build_transaction_helper inputs rings amount (cl_account_key self)
                             target_address tombstone_block fog_resolver rng fee;
              Ret (self, rng, tx)
          end
      end
  end.

Definition build_transaction (fuel : nat) (self : Client) (amount : Z) (target_address : PublicAddress)
    (rng : Rng) (fee : Z) : option (run (Client * Rng * result Tx PaykitError)) :=
  match get_transaction_inputs MAX_INPUTS (cl_tx_data self) (amount +w MINIMUM_FEE) TARGET_NUM_INPUTS with
  | Panic => Some Panic
  | Ret (Err e) => Some (Ret (self, rng, Err e))
  | Ret (Ok inputs) =>
      match get_proofs merkle_request (cl_fog_merkle_proof self) inputs with
      | Panic => Some Panic
      | Ret (merkle, Err e) =>
          Some (Ret (with_conns self merkle (cl_fog_key_image self) (cl_fog_report_conn self), rng, Err e))
      | Ret (merkle, Ok inputs) =>
          rings ← get_rings merkle_request gen_range set_iter fuel (cl_ring_size self) (cl_tx_data self)
                    merkle (length inputs) rng;
          Some ('(merkle, rng, r) ← rings;
                match r with
                | Err e =>
                    Ret (with_conns self merkle (cl_fog_key_image self) (cl_fog_report_conn self), rng, Err e)
                | Ok rings => finish_transaction self merkle amount target_address rng fee inputs rings
                end)
      end
  end.
End client.
