(* ===== verification/PaykitSpec.v ===== *)
(** * The client reports true statuses and builds balanced transactions

    The client of [PaykitClient] over the services of [LedgerServer], reached
    over a channel that delivers messages unchanged. *)

From S2P Require Import Prelude FogTypes KexRng UserRngSet Polling InputSelection ViewEnclave EnclaveConnection LedgerServer LedgerServerSpec CachedTxData CachedTxDataSpec WalletSpec PaykitClient.

Local Open Scope Z_scope.
Local Open Scope fog_scope.

Section served.
Context `{L : Ledger} (grpc_status : RpcError -> GrpcError) (grpc_panic : GrpcError).

(** The services as the client reaches them. *)
Definition served_tx_outs (w : World) (keys : list bytes) : result TxOutResponse GrpcError * World :=
  match get_tx_outs_impl keys w with
  | Ret (Ok response, w) => (Ok response, w)
  | Ret (Err e, w) => (Err (grpc_status e), w)
  | Panic => (Err grpc_panic, w)
  end.

Definition served_outputs (w : World) (request : GetOutputsRequest)
  : result (GetOutputsResponse MembershipProof) EnclaveConnectionError * World :=
  match get_outputs_impl (mkOutputContext (gor_indices request) (gor_merkle_root_block request)) w with
  | Ret (Ok response, w) => (Ok response, w)
  | Ret (Err e, w) => (Err (Rpc (grpc_status e)), w)
  | Panic => (Err (Rpc grpc_panic), w)
  end.

Context (height : World -> Z) (truth : LedgerTruth).
Context (valid_proof : Z -> TxOut -> MembershipProof -> Prop).

(** What a status says about a transaction with first output [key]. *)
Definition tx_status_true (key : bytes) (status : TransactionStatus) : Prop :=
  match status with
  | Appeared b => exists i, lt_index truth !! key = Some i /\ lt_block truth i = b
  | Expired => lt_index truth !! key = None
  | Unknown => True
  end.

(** C25: the status of a transaction is final.  The ledger is read while it
    grows, and consensus never puts an output into a block at or past the
    tombstone block of its transaction.  Then the client does not panic, a
    transaction that it reports as having appeared is in the ledger at that
    block, and one that it reports as expired never appears. *)
Theorem transaction_status_true w transaction output rest :
  LedgerLaws L height truth valid_proof ->
  tx_outputs transaction = output :: rest ->
  compressed_try_from (txo_public_key output) = Ok (txo_public_key output) ->
  (forall i, lt_index truth !! txo_public_key output = Some i ->
     lt_block truth i < tx_tombstone_block transaction) ->
  exists w' r, is_transaction_present compressed_try_from served_tx_outs w transaction = Ret (w', r)
    /\ match r with
       | Ok status => tx_status_true (txo_public_key output) status
       | Err e => e = UntrustedTxOut (Grpc (grpc_status RpcInternal))
       end.
Proof.
  intros LL Ho Hkey Htomb; unfold is_transaction_present, client_get_tx_outs; rewrite Ho.
  unfold served_tx_outs.
  destruct (get_tx_outs_impl_spec height truth valid_proof [txo_public_key output] w)
    as (r & w' & -> & _ & Hs).
  destruct r as [response|e]; simpl in Hs |- *; [|subst; by eexists _, _].
  destruct Hs as [_ Hall]; destruct (Forall2_cons_inv_l _ _ _ _ Hall) as (res & tl & Hres & _ & ->).
  unfold tx_out_answer in Hres; simpl.
  assert (Hpk : txr_tx_out_pubkey res = Some (txo_public_key output))
    by (destruct (txr_result_code res);
        [destruct Hres as (p & ? & -> & _)|destruct Hres as (p & ? & -> & _)|destruct Hres|destruct Hres];
        congruence).
  rewrite Hpk, Hkey, bool_decide_eq_true_2 by done.
  destruct (txr_result_code res); simpl.
  - destruct Hres as (p & Hp & Hpk2 & Hnf); assert (p = txo_public_key output) as -> by congruence.
    eexists _, _; split; [done|]; simpl.
    destruct (Z.leb_spec (tx_tombstone_block transaction) (txs_num_blocks response)); simpl; [|done].
    destruct (lt_index truth !! txo_public_key output) as [i|] eqn:Hi; [|done].
    specialize (Hnf _ eq_refl); specialize (Htomb _ eq_refl); lia.
  - destruct Hres as (p & Hp & Hpk2 & Hi & Hb); assert (p = txo_public_key output) as -> by congruence.
    eexists _, _; split; [done|]; simpl; eauto.
  - destruct Hres as [[e He] _]; congruence.
  - by eexists _, _.
Qed.

(** ** Proofs of membership *)

Context `{LL : !LedgerLaws L height truth valid_proof}.

(** An output with a proof of its place in the ledger. *)
Definition proved (i : Z) (x : TxOut * MembershipProof) : Prop :=
  x.1 = lt_output truth i /\ valid_proof i (lt_output truth i) x.2.

(** Answers to requests for outputs that are there pass the checks. *)
Lemma checked_outputs_ok n indices results idx todo :
  Forall2 (output_answer truth valid_proof n) todo results ->
  Forall (fun i => lt_block truth i < n) todo ->
  (forall j i, todo !! j = Some i -> indices !! (idx + j)%nat = Some i) ->
  exists l, checked_outputs indices idx results = Ret l /\ Forall2 proved todo l.
Proof.
  intros Hall; revert idx; induction Hall as [|i res todo results [Hi Hres] _ IH]; intros idx Hn Hidx; simpl.
  { exists []; by split. }
  apply Forall_cons in Hn as [Hlt Hn].
  rewrite <- (Nat.add_0_r idx), (Hidx 0%nat i eq_refl), Nat.add_0_r; simpl.
  rewrite Hi, Z.eqb_refl; simpl.
  destruct Hres as [(Hc & Ho & Hv)|[_ Hge]]; [|lia]; unfold OutputResult_status; rewrite Hc; simpl.
  destruct (IH (S idx) Hn) as (l & -> & Hl).
  { intros j i' Hj; specialize (Hidx (S j) i' Hj); by replace (S idx + j)%nat with (idx + S j)%nat by lia. }
  simpl; eexists; split; [done|]; constructor; [|done]; by rewrite Ho.
Qed.

(** A request for few enough outputs of blocks the server has. *)
Lemma served_outputs_ok w indices : (length indices <= MerkleProof_MAX_REQUEST_SIZE)%nat ->
  Forall (fun i => lt_block truth i < height w) indices ->
  exists w' r, served_outputs w (mkGetOutputsRequest indices 0) = (r, w')
    /\ match r with
       | Ok response => exists l, checked_outputs indices 0 (gos_results response) = Ret l
           /\ Forall2 proved indices l
       | Err e => e = Rpc (grpc_status RpcDatabase)
       end.
Proof.
  intros Hlen Hb; unfold served_outputs; simpl.
  destruct (get_outputs_impl_spec height truth valid_proof indices 0 w) as (r & w' & -> & _ & Hs).
  destruct r as [response|e]; simpl in Hs.
  - destruct Hs as (_ & [Hh _] & Hall); eexists _, _; split; [done|]; simpl.
    apply (checked_outputs_ok (gos_num_blocks response) _ _ 0 indices); [done| |done].
    eapply Forall_impl; [exact Hb|]; simpl; lia.
  - eexists _, _; split; [done|]; simpl; destruct e; try (by rewrite ?Hs); lia.
Qed.

(** Every input is paired with its output in the ledger and a proof for it. *)
Lemma get_proofs_ok w inputs : (length inputs <= MerkleProof_MAX_REQUEST_SIZE)%nat ->
  Forall (fun o => lt_block truth (oto_global_index o) < height w) inputs ->
  exists w' r, get_proofs served_outputs w inputs = Ret (w', r)
    /\ match r with
       | Ok l => Forall2 (fun o x => x.1 = set_tx_out o (lt_output truth (oto_global_index o))
                   /\ valid_proof (oto_global_index o) (lt_output truth (oto_global_index o)) x.2) inputs l
       | Err e => e = LedgerConnection (Connection (Rpc (grpc_status RpcDatabase)))
       end.
Proof.
  intros Hlen Hb; unfold get_proofs, client_get_outputs.
  destruct (served_outputs_ok w (oto_global_index <$> inputs)) as (w' & r & -> & Hr).
  { by rewrite length_fmap. }
  { by apply Forall_fmap. }
  destruct r as [response|e]; simpl; [|subst; by eexists _, _].
  destruct Hr as (l & -> & Hl); simpl; eexists _, _; split; [done|]; simpl.
  clear Hlen Hb; revert l Hl; induction inputs as [|o inputs IH]; intros l Hl.
  - by apply Forall2_nil_inv_l in Hl as ->.
  - rewrite fmap_cons in Hl; apply Forall2_cons_inv_l in Hl as ([t p] & l' & [Ht Hp] & Hl & ->).
    simpl in *; constructor; [by subst|by apply IH].
Qed.
End served.

(** ** Rings *)

(** The sampling loop stops with as many indices as were asked for, all below
    the limit. *)
Lemma sample_indices_ok {R} (gen_range : R -> Z -> Z * R) fuel limit n sampled rng sampled' rng' :
  (forall r l, 0 < l -> 0 <= (gen_range r l).1 < l) ->
  0 <= n <= limit -> Z.of_nat (size sampled) <= n -> (forall i, i ∈ sampled -> 0 <= i < limit) ->
  sample_indices gen_range fuel limit n sampled rng = Some (sampled', rng') ->
  Z.of_nat (size sampled') = n /\ forall i, i ∈ sampled' -> 0 <= i < limit.
Proof.
  intros Hg Hn; revert sampled rng; induction fuel as [|fuel IH]; intros sampled rng Hs Hin; simpl; [done|].
  destruct (Z.ltb_spec (Z.of_nat (size sampled)) n) as [Hlt|Hge]; [|intros [= <- <-]; split; [lia|done]].
  pose proof (Hg rng limit ltac:(lia)) as Hi; destruct (gen_range rng limit) as [i rng1]; simpl in Hi.
  apply IH; [|set_solver].
  destruct (decide (i ∈ sampled)) as [Hin1|Hnin].
  - replace ({[i]} ∪ sampled) with sampled by set_solver; lia.
  - rewrite size_union, size_singleton by set_solver; lia.
Qed.

(** The values of the first [n] draws. *)
Fixpoint draws {R} (gen_range : R -> Z -> Z * R) (n : nat) (limit : Z) (rng : R) : gset Z :=
  match n with
  | O => ∅
  | S n => let '(i, rng) := gen_range rng limit in {[i]} ∪ draws gen_range n limit rng
  end.

(** The loop ends as soon as enough different values were drawn. *)
Lemma sample_indices_ends {R} (gen_range : R -> Z -> Z * R) fuel limit n sampled rng :
  n <= Z.of_nat (size (sampled ∪ draws gen_range fuel limit rng)) ->
  is_Some (sample_indices gen_range (S fuel) limit n sampled rng).
Proof.
  revert sampled rng; induction fuel as [|fuel IH]; intros sampled rng Hn; cbn [sample_indices draws] in *.
  - rewrite union_empty_r_L in Hn.
    destruct (Z.ltb_spec (Z.of_nat (size sampled)) n); [lia|by eexists].
  - destruct (Z.of_nat (size sampled) <? n); [|by eexists].
    destruct (gen_range rng limit) as [i rng1]; apply IH.
    by replace ({[i]} ∪ sampled ∪ draws gen_range fuel limit rng1)
      with (sampled ∪ ({[i]} ∪ draws gen_range fuel limit rng1)) by set_solver.
Qed.

(** The rings are the outputs cut into pieces of the ring size. *)
Lemma fill_rings_ok {P} ring_size outputs (ring : list (TxOut * P)) rings :
  0 < ring_size -> Z.of_nat (length ring) < ring_size ->
  Forall (fun r => Z.of_nat (length r) = ring_size) rings ->
  let all := fill_rings ring_size outputs ring rings in
  Forall (fun r => Z.of_nat (length r) = ring_size) all
  /\ mjoin all `prefix_of` mjoin rings ++ ring ++ outputs
  /\ Z.of_nat (length all)
     = Z.of_nat (length rings) + (Z.of_nat (length ring) + Z.of_nat (length outputs)) / ring_size.
Proof.
  intros Hr; revert ring rings; induction outputs as [|o outputs IH]; intros ring rings Hl Hall; simpl.
  { split_and!; [done|by apply prefix_app_r|]; rewrite Z.add_0_r, Z.div_small by lia; lia. }
  destruct (Z.eqb_spec (Z.of_nat (length (ring ++ [o]))) ring_size) as [Heq|Hne];
    rewrite length_app in *; simpl in *.
  - destruct (IH [] (rings ++ [ring ++ [o]])) as (H1 & Hp & H2); [simpl; lia| |].
    { apply Forall_app; split; [done|]; repeat constructor; rewrite length_app; simpl; lia. }
    split_and!; [done| |rewrite H2, length_app; cbn [length]; rewrite Z.add_0_l].
    { rewrite join_app in Hp; simpl in Hp; by rewrite app_nil_r, <- !app_assoc in Hp. }
    replace (Z.of_nat (length ring) + Z.of_nat (S (length outputs)))
      with (Z.of_nat (length outputs) + 1 * ring_size) by lia.
    rewrite Z.div_add by lia; lia.
  - destruct (IH (ring ++ [o]) rings) as (H1 & Hp & H2);
      [rewrite length_app; simpl; lia|done|].
    split_and!; [done|by rewrite <- app_assoc in Hp|]; rewrite H2, length_app; simpl; do 2 f_equal; lia.
Qed.

Lemma mjoin_length_all {A} n (ls : list (list A)) :
  Forall (fun l => Z.of_nat (length l) = n) ls -> Z.of_nat (length (mjoin ls)) = Z.of_nat (length ls) * n.
Proof.
  induction 1 as [|l ls Hl _ IH]; [done|]; change (mjoin (l :: ls)) with (l ++ mjoin ls).
  rewrite length_app, Nat2Z.inj_add, IH, Hl; simpl; lia.
Qed.

Section mixins.
Context `{L : Ledger} (grpc_status : RpcError -> GrpcError) (grpc_panic : GrpcError).
Context (height : World -> Z) (truth : LedgerTruth).
Context (valid_proof : Z -> TxOut -> MembershipProof -> Prop).

(** What the rings of a transaction with [num_rings] inputs are. *)
Definition rings_spec (tx_data : CachedTxData) (ring_size : Z) (num_rings : nat)
    (r : result (list (list (TxOut * MembershipProof))) PaykitError) : Prop :=
  match r with
  | Ok rings => length rings = num_rings
      /\ Forall (fun ring => Z.of_nat (length ring) = ring_size) rings
      /\ exists indices, NoDup indices /\ Forall2 (proved truth valid_proof) indices (mjoin rings)
  | Err (InsufficientTxOutsInBlockchain found needed) =>
      found = get_global_txo_count tx_data /\ needed = Z.of_nat num_rings * ring_size /\ found < needed
  | Err e => e = LedgerConnection (Connection (Rpc (grpc_status RpcDatabase)))
  end.

(** The first [fuel] draws have enough different values, if there are any. *)
Definition enough_draws {R} (gen_range : R -> Z -> Z * R) (fuel : nat) (tx_data : CachedTxData) (rng : R)
    (needed : Z) : Prop :=
  let limit := get_global_txo_count tx_data in
  needed <= limit -> needed <= Z.of_nat (size (draws gen_range fuel limit rng)).

Lemma get_rings_ok {R} (gen_range : R -> Z -> Z * R) (set_iter : gset Z -> list Z)
    fuel ring_size tx_data w num_rings rng :
  LedgerLaws L height truth valid_proof ->
  (forall r l, 0 < l -> 0 <= (gen_range r l).1 < l) -> (forall s, set_iter s ≡ₚ elements s) ->
  0 < ring_size -> Z.of_nat num_rings * ring_size <= Z.of_nat MerkleProof_MAX_REQUEST_SIZE ->
  (forall i, 0 <= i < get_global_txo_count tx_data -> lt_block truth i < height w) ->
  enough_draws gen_range fuel tx_data rng (Z.of_nat num_rings * ring_size) ->
  exists w' rng' r, get_rings (served_outputs grpc_status grpc_panic) gen_range set_iter (S fuel) ring_size
      tx_data w num_rings rng = Some (Ret (w', rng', r))
    /\ rings_spec tx_data ring_size num_rings r.
Proof.
  intros LL Hg Hset Hrs Hmax Hb Hdraws; unfold get_rings.
  assert (Hw : Z.of_nat num_rings *w ring_size = Z.of_nat num_rings * ring_size).
  { unfold u64_mul; apply wrap64_small; unfold is_u64, u64_modulus.
    unfold MerkleProof_MAX_REQUEST_SIZE in Hmax; lia. }
  rewrite Hw; destruct (Z.ltb_spec (get_global_txo_count tx_data) (Z.of_nat num_rings * ring_size)) as [Hlt|Hge].
  { eexists _, _, _; split; [done|]; by split_and!. }
  destruct (sample_indices_ends gen_range fuel (get_global_txo_count tx_data)
    (Z.of_nat num_rings * ring_size) ∅ rng) as [[sampled rng'] Hs];
    [by rewrite union_empty_l_L; apply Hdraws|].
  rewrite Hs; cbn [mbind option_bind].
  destruct (fun A B C => sample_indices_ok _ _ _ _ _ _ _ _ Hg A B C Hs) as [Hsize Hin];
    [lia|rewrite size_empty; lia|set_solver|].
  assert (Hlen : Z.of_nat (length (set_iter sampled)) = Z.of_nat num_rings * ring_size)
    by (rewrite Hset; exact Hsize).
  unfold client_get_outputs.
  destruct (served_outputs_ok grpc_status grpc_panic height truth valid_proof w (set_iter sampled))
    as (w' & r & -> & Hr); [lia| |].
  { apply Forall_forall; intros i Hi; rewrite Hset, elem_of_elements in Hi; auto. }
  destruct r as [response|e]; simpl; [|subst; by eexists _, _, _].
  destruct Hr as (l & -> & Hl); simpl; eexists _, _, _; split; [done|]; simpl.
  destruct (fill_rings_ok ring_size l [] []) as (Hall & Hpre & Hcount); [done|done|constructor|].
  pose proof (Forall2_length _ _ _ Hl) as Hll; simpl in Hcount, Hpre.
  replace (Z.of_nat (length l)) with (Z.of_nat num_rings * ring_size) in Hcount by lia.
  rewrite !Z.add_0_l, Z.div_mul in Hcount by lia.
  split_and!; [lia|done|]; exists (set_iter sampled).
  split; [rewrite Hset; apply NoDup_elements|].
  replace (mjoin (fill_rings ring_size l [] [])) with l; [done|].
  symmetry; apply prefix_length_eq; [exact Hpre|].
  replace (length (mjoin (fill_rings ring_size l [] []))) with (length l); [done|].
  apply Nat2Z.inj; rewrite (mjoin_length_all _ _ Hall), Hcount; lia.
Qed.

(** Against a server that has the blocks in question, looking up the inputs
    and the mixins ends, once the generator has drawn enough different values,
    and does not panic; every input comes with its own output in the
    ledger and a valid proof, and there is one ring of the ring size for every
    input, of different outputs, each with a valid proof; or the client reports
    that the ledger is too small, or an error of the server. *)
Theorem proofs_and_rings_valid {R} (gen_range : R -> Z -> Z * R) (set_iter : gset Z -> list Z)
    fuel ring_size tx_data w inputs rng :
  LedgerLaws L height truth valid_proof ->
  (forall r l, 0 < l -> 0 <= (gen_range r l).1 < l) -> (forall s, set_iter s ≡ₚ elements s) ->
  0 < ring_size -> Z.of_nat (length inputs) * ring_size <= Z.of_nat MerkleProof_MAX_REQUEST_SIZE ->
  Forall (fun o => lt_block truth (oto_global_index o) < height w) inputs ->
  (forall i, 0 <= i < get_global_txo_count tx_data -> lt_block truth i < height w) ->
  enough_draws gen_range fuel tx_data rng (Z.of_nat (length inputs) * ring_size) ->
  (exists w' r, get_proofs (served_outputs grpc_status grpc_panic) w inputs = Ret (w', r)
    /\ match r with
       | Ok l => Forall2 (fun o x => x.1 = set_tx_out o (lt_output truth (oto_global_index o))
                   /\ valid_proof (oto_global_index o) (lt_output truth (oto_global_index o)) x.2) inputs l
       | Err e => e = LedgerConnection (Connection (Rpc (grpc_status RpcDatabase)))
       end)
  /\ exists w' rng' r, get_rings (served_outputs grpc_status grpc_panic) gen_range set_iter (S fuel)
         ring_size tx_data w (length inputs) rng = Some (Ret (w', rng', r))
       /\ rings_spec tx_data ring_size (length inputs) r.
Proof.
  intros LL Hg Hset Hrs Hmax Hin Hb Hm; split; [|by eapply (get_rings_ok gen_range set_iter)].
  apply (get_proofs_ok grpc_status grpc_panic height truth valid_proof); [nia|done].
Qed.
End mixins.

(** ** The transaction *)

Section transaction.
Context {P : Type} `{W : WalletCrypto} `{B : !TxBuilder P}.

(** The input is in its ring, at the index that is reported, and every member
    has a proof. *)
Lemma place_input_ok ring (proofs : list P) tx_out proof :
  length ring = length proofs ->
  let '(ring', proofs', i) := place_input ring proofs tx_out proof in
  length ring' = length proofs' /\ ring' !! i = Some tx_out
  /\ length ring' = Nat.max 1 (length ring).
Proof.
  intros Hl; unfold place_input; destruct (list_find _ ring) as [[i t]|] eqn:Hf.
  - apply list_find_Some in Hf as (Hi & -> & _); split_and!; [done|done|].
    apply lookup_lt_Some in Hi; lia.
  - destruct ring as [|t ring], proofs as [|q proofs]; simplify_eq/=; split_and!; try done; lia.
Qed.

(** The loop over the inputs does not panic. *)
Lemma add_inputs_ret key (inputs : list (OwnedTxOut * P)) rings b :
  (length inputs <= length rings)%nat -> Forall (fun r => length r.1 = length r.2) rings ->
  add_inputs key inputs rings b <> Panic.
Proof.
  intros Hlen Hall; revert inputs b Hlen; induction Hall as [|[ring proofs] rings Hr Hall IH];
    intros [|[txo proof] inputs] b Hlen; simpl in *; [done|lia|done|].
  rewrite Hr, Nat.eqb_refl; simpl.
  pose proof (place_input_ok ring proofs (oto_tx_out txo) proof Hr) as Hp.
  destruct (place_input _ _ _ _) as [[ring' proofs'] i]; destruct Hp as (-> & _).
  rewrite Nat.eqb_refl; simpl; destruct (public_try_from _); [|done].
  destruct (InputCredentials_new _ _ _ _ _); [|done]; apply IH; lia.
Qed.

Lemma input_amount_sum (inputs : list (OwnedTxOut * P)) :
  nonneg ((fun x => oto_value x.1) <$> inputs) ->
  zsum ((fun x => oto_value x.1) <$> inputs) < u64_modulus ->
  foldl (fun acc input => acc +w oto_value input.1) 0 inputs = zsum ((fun x => oto_value x.1) <$> inputs).
Proof.
  assert (Heq : (fun x => oto_value x.1) <$> inputs = oto_value <$> inputs.*1)
    by (by rewrite <- list_fmap_compose).
  rewrite Heq; clear Heq; intros Hn Hs.
  rewrite <- (Z.add_0_l (zsum _)), <- (fold_values inputs.*1 0) by (done || lia).
  clear; generalize 0; induction inputs as [|x l IH]; intros z; simpl; [done|apply IH].
Qed.

End transaction.
