(* ===== verification/WalletExamples.v ===== *)
(** * A wallet, its servers and a ledger, concretely

    Instances of the foreign code on small data, an account with three outputs
    of one rng, and runs of the wallet and the client against them. *)

From S2P Require Import Prelude FogTypes KexRng UserRngSet Polling InputSelection ViewEnclave EnclaveConnection LedgerServer LedgerServerSpec CachedTxData CachedTxDataSpec WalletSpec WalletView WalletSystem PaykitClient PaykitSpec.

Local Open Scope Z_scope.
Local Open Scope fog_scope.

(** ** Cryptography *)

(** A record is its index, block, value and key image. *)
Definition wallet_user : @UserCrypto demo_kex := {|
  CryptoBoxError := unit;
  blake2b := demo_hash;
  decrypt_in_place := fun _ payload => Ok (true, payload);
  decode_tx_out_record := fun payload =>
    match payload with
    | [gi; blk; value; image] => Some (mkTxOutRecord [] value [image] [image] gi blk 0 0)
    | _ => None
    end;
|}.

Definition wallet_crypto : @WalletCrypto demo_kex := {|
  AmountError := unit;
  wallet_compressed_try_from := fun b => Ok b;
  checksum_ieee := fun _ => 0;
  get_tx_out_shared_secret := fun _ _ => [];
  get_value_mask := fun _ => 0;
  Amount_new := fun value _ => Ok (mkAmount [] value);
  ENCRYPTED_FOG_HINT_LEN := 0;
  Amount_get_value := fun amount _ => Ok (amt_masked_value amount, []);
  recover_onetime_private_key := fun public _ _ => public;
  KeyImage_from := fun private => private;
|}.

Definition wallet_key : @AccountKey demo_kex := @mkAccountKey demo_kex [8] [9] [].

(** ** The account: three outputs, the second is spent in block 4 *)

Definition txo1 : TrueTxo := mkTrueTxo 10 3 100 [1].
Definition txo2 : TrueTxo := mkTrueTxo 11 3 50 [2].
Definition txo3 : TrueTxo := mkTrueTxo 12 5 7 [3].

Definition wallet_account : Account := mkAccount [txo1; txo2; txo3] (<[[2] := 4]> ∅).

Lemma wallet_txos_cases t : t ∈ acc_txos wallet_account -> t = txo1 \/ t = txo2 \/ t = txo3.
Proof. simpl; rewrite !elem_of_cons, elem_of_nil; tauto. Qed.

Lemma wallet_account_ok : account_ok wallet_account.
Proof.
  split.
  - vm_decide.
  - vm_decide.
  - intros t s [->|[->| ->]]%wallet_txos_cases; vm_compute; intros [= <-]; reflexivity.
  - intros t [->|[->| ->]]%wallet_txos_cases; simpl; unfold u64_max; lia.
  - repeat constructor; simpl; lia.
  - vm_compute; reflexivity.
Qed.

(** ** The view server *)

(** The record an output is stored as, and what the wallet makes of it. *)
Definition wallet_record (t : TrueTxo) : TxOutRecord :=
  mkTxOutRecord [] (tt_value t) (tt_key_image t) (tt_key_image t) (tt_global_index t)
    (tt_block_index t) 0 0.

Definition wallet_owned (t : TrueTxo) : OwnedTxOut :=
  mkOwnedTxOut (tt_global_index t) (tt_block_index t)
    (mkTxOut (mkAmount [] (tt_value t)) (tt_key_image t) (tt_key_image t) [])
    (tt_value t) (tt_key_image t) (NotSpentAsOf (tt_block_index t + 1)).

Definition wallet_payload : gmap (list Z) bytes :=
  <[demo_output 0 := [10; 3; 100; 1]]> (<[demo_output 1 := [11; 3; 50; 2]]>
    (<[demo_output 2 := [12; 5; 7; 3]]> ∅)).

Definition wallet_search (k : bytes) : TxOutSearchResult :=
  match wallet_payload !! k with
  | Some c => mkTxOutSearchResult k 1 c
  | None => mkTxOutSearchResult k 2 []
  end.

(** The rng record is event 0. *)
Definition wallet_view (s : unit) (event block : Z) (keys : list bytes)
  : result QueryResponse unit * unit :=
  (Ok (mkQueryResponse 6 0 1 []
         (if event <=? 0 then [mkRngRecord 1 (mkKexRngPubkey demo_secret 0) 0] else [])
         [] (wallet_search <$> keys) 6 13), tt).

Definition wallet_rngs : gmap (list Z) VersionedKexRng := {[demo_secret := demo_rng 1]}.
Definition wallet_place (t : TrueTxo) : bytes * Z := (demo_secret, tt_global_index t - 10).

Lemma rngs_ok_rename landed n m r : @rngs_ok _ wallet_user landed {[n := r]} ->
  @rngs_ok _ wallet_user landed {[m := r]}.
Proof.
  intros [Hw Hi Hd Ho]; split.
  - intros k q [<- <-]%lookup_singleton_Some; apply (Hw n), lookup_singleton_eq.
  - intros k q [<- <-]%lookup_singleton_Some; apply (Hi n), lookup_singleton_eq.
  - intros k1 q1 k2 q2 i j [<- <-]%lookup_singleton_Some [<- <-]%lookup_singleton_Some ? ? Heq.
    split; [done|]; by eapply (Hd n r n r i j (lookup_singleton_eq n r) (lookup_singleton_eq n r)).
  - intros k q [<- <-]%lookup_singleton_Some; apply (Ho n), lookup_singleton_eq.
Qed.

Lemma wallet_rngs_ok : @rngs_ok _ wallet_user demo_landed wallet_rngs.
Proof. apply (rngs_ok_rename _ [1]); destruct demo_rngs_ok; by split. Qed.

Lemma wallet_ingested :
  @account_ingested _ wallet_user wallet_account demo_landed wallet_rngs (fun _ => 0) wallet_place.
Proof.
  split.
  - apply wallet_rngs_ok.
  - unfold wallet_rngs; intros n r [<- <-]%lookup_singleton_Some; reflexivity.
  - intros n; lia.
  - intros t [->|[->| ->]]%wallet_txos_cases; (split; [vm_compute; by eexists|vm_compute; split; [discriminate|done]]).
  - intros t [->|[->| ->]]%wallet_txos_cases; vm_compute; reflexivity.
Qed.

Lemma wallet_payload_cases k c : wallet_payload !! k = Some c ->
  (k = demo_output 0 /\ c = [10; 3; 100; 1]) \/ (k = demo_output 1 /\ c = [11; 3; 50; 2])
  \/ (k = demo_output 2 /\ c = [12; 5; 7; 3]).
Proof. unfold wallet_payload; rewrite !lookup_insert_Some, lookup_empty; naive_solver. Qed.

Lemma wallet_view_server_honest : server_honest wallet_view demo_landed.
Proof.
  split.
  - intros s e b keys resp s' [= <- _] k blk Hk Hl _; simpl.
    exists (wallet_search k); split; [by apply list_elem_of_fmap_2|].
    assert (is_Some (wallet_payload !! k)) as [c Hc].
    { revert Hl; unfold demo_landed, wallet_payload; rewrite !lookup_insert_Some, lookup_empty.
      rewrite !lookup_insert_is_Some; naive_solver. }
    unfold wallet_search; by rewrite Hc.
  - intros s e b keys resp s' [= <- _] res (k & -> & Hk)%list_elem_of_fmap; simpl.
    unfold wallet_search; destruct (wallet_payload !! k) as [c|] eqn:Hc; simpl; [|done].
    intros _; split; [done|].
    apply wallet_payload_cases in Hc as [[-> _]|[[-> _]|[-> _]]]; vm_compute; by eexists.
Qed.

Lemma wallet_view_honest :
  @view_honest _ wallet_user wallet_crypto _ _ wallet_view wallet_key wallet_account wallet_rngs
    (fun _ => 0) wallet_place.
Proof.
  split.
  - intros s e b resp s' [= <- _] rec; simpl; destruct (e <=? 0); [|by intros ?%not_elem_of_nil].
    intros ->%list_elem_of_singleton; eexists; split; vm_compute; reflexivity.
  - unfold wallet_rngs; intros s e b resp s' [= <- _] n [r [<- _]%lookup_singleton_Some] [He _]; simpl.
    rewrite (proj2 (Z.leb_le e 0)) by done; eexists; split; [by left|done].
  - intros s e b resp s' [= <- _] t _ _; simpl; lia.
  - intros s e b keys resp s' [= <- _] res (k & -> & Hk)%list_elem_of_fmap; simpl.
    unfold wallet_search; destruct (wallet_payload !! k) as [c|] eqn:Hc; simpl; [|done].
    intros _; apply wallet_payload_cases in Hc as [[-> ->]|[[-> ->]|[-> ->]]].
    all: split; [intros rec Hd o Ho; vm_compute in Hd; injection Hd as <-;
                 vm_compute in Ho; injection Ho as <-; vm_decide|].
    all: intros t [->|[->| ->]]%wallet_txos_cases Heq; vm_compute in Heq; try discriminate Heq; clear Heq.
    1: exists (wallet_record txo1), (wallet_owned txo1).
    2: exists (wallet_record txo2), (wallet_owned txo2).
    3: exists (wallet_record txo3), (wallet_owned txo3).
    all: split; [|split]; vm_compute; reflexivity.
Qed.

(** ** The ledger: a number of blocks of four outputs, one more with every count *)

Definition demo_truth : LedgerTruth := {|
  lt_spent := <[[2] := 4]> ∅;
  lt_index := <[[7] := 12]> ∅;
  lt_output := fun i => mkTxOut (mkAmount [] i) [i] [i] [];
  lt_block := fun i => i / 4;
  lt_block_outputs := fun b => (fun i => mkTxOut (mkAmount [] i) [i] [i] []) <$> seqZ (4 * b) 4;
  lt_cumulative := fun b => 4 * b + 4;
|}.

Definition found_below {A} (w block : Z) (x : A) : result A LedgerDbError :=
  if block <? w then Ok x else Err DbNotFound.

Definition demo_ledger : Ledger := {|
  World := Z;
  MembershipProof := Z;
  ExternalTxOut := TxOut;
  num_blocks := fun w => (Ok w, w + 1);
  num_txos := fun w => (Ok (4 * w), w);
  check_key_image := fun k w =>
    (Ok (match lt_spent demo_truth !! k with
         | Some s => if s <? w then Some s else None
         | None => None
         end), w);
  get_tx_out_by_index := fun i w => (found_below w (lt_block demo_truth i) (lt_output demo_truth i), w);
  get_tx_out_proof_of_memberships := fun idxs w => (Ok idxs, w);
  get_tx_out_index_by_public_key := fun k w =>
    (match lt_index demo_truth !! k with
     | Some i => found_below w (lt_block demo_truth i) i
     | None => Err DbNotFound
     end, w);
  get_block_index_by_tx_out_index := fun i w => (Ok (lt_block demo_truth i), w);
  get_block_contents_outputs := fun b w => (found_below w b (lt_block_outputs demo_truth b), w);
  get_block_cumulative_txo_count := fun b w => (Ok (lt_cumulative demo_truth b), w);
  get_block_timestamp := fun b w => (Err 1, w);
  WatcherDatabaseError := 2;
  default_tx_out := mkTxOut (mkAmount [] 0) [] [] [];
  default_proof := 0;
  external_tx_out := fun t => t;
  compressed_try_from := fun b => if (length b =? 1)%nat then Ok b else Err (LengthMismatch 1 0);
|}.

(** The proof of index [i] is [i]. *)
Definition demo_valid (i : Z) (t : TxOut) (p : Z) : Prop := p = i.

Lemma demo_ledger_laws : LedgerLaws demo_ledger (fun w => w) demo_truth demo_valid.
Proof.
  split; cbn; unfold found_below.
  - intros w r w' [= <- <-]; split; [lia|]; intros n [= <-]; lia.
  - intros w r w' [= <- <-]; lia.
  - intros k w r w' [= <- <-]; destruct ((<[[2] := 4]> ∅ : gmap (list Z) Z) !! k) as [s|]; [|split_and!; [lia|intros ? [=]|intros _ ? [=]]].
    destruct (Z.ltb_spec s w); (split_and!; [lia| |]).
    all: first [by intros ? [= <-] | by intros [=] | by intros ? [=] | by intros _ ? [= <-]].
  - intros i w r w' [= <- <-]; destruct (Z.ltb_spec (i / 4) w);
      (split_and!; [lia| |]).
    all: first [by intros ? [= <-] | by intros [=] | by intros ? [=] | done].
  - intros idxs w r w' [= <- <-]; split_and!; [lia| |intros [=]]; intros ps [= <-].
    by apply Forall_Forall2_diag, Forall_true.
  - intros k w r w' [= <- <-]; destruct ((<[[7] := 12]> ∅ : gmap (list Z) Z) !! k) as [i|]; [|split_and!; [lia|intros ? [=]|intros _ ? [=]]].
    destruct (Z.ltb_spec (i / 4) w); (split_and!; [lia| |]).
    all: first [by intros ? [= <-] | by intros [=] | by intros ? [=] | by intros _ ? [= <-]].
  - intros i w r w' [= <- <-]; split; [lia|by intros ? [= <-]].
  - intros b w r w' [= <- <-]; destruct (Z.ltb_spec b w); (split_and!; [lia| |]).
    all: first [by intros ? [= <-] | by intros [=] | by intros ? [=] | done].
  - intros b w r w' [= <- <-]; split; [lia|by intros ? [= <-]].
  - intros b w r w' [= <- <-]; lia.
Qed.

(** ** Runs of the wallet *)

Definition demo_images := @served_key_images demo_ledger (fun _ => RpcFailure 13) (RpcFailure 2).

Definition wallet_poll (self : CachedTxData) (w : Z) :=
  @poll_fog _ wallet_user canonical_iter wallet_crypto unit unit Z wallet_view demo_images 5 self tt w
    wallet_key.

Definition wallet_inv_demo := @view_inv _ wallet_user unit wallet_account demo_landed wallet_rngs
  (fun _ => 0) wallet_place.

Definition demo_step := @wallet_step _ wallet_user canonical_iter wallet_crypto unit unit Z wallet_view
  demo_images wallet_key.

(** After three polls; the ledger has four blocks at the first. *)
Definition wallet_first : CachedTxData := Eval vm_compute in
  match wallet_poll CachedTxData_new 4 with Some (Ret (self, _, _, _)) => self | _ => CachedTxData_new end.
Definition wallet_second : CachedTxData := Eval vm_compute in
  match wallet_poll wallet_first 5 with Some (Ret (self, _, _, _)) => self | _ => CachedTxData_new end.
Definition wallet_third : CachedTxData := Eval vm_compute in
  match wallet_poll wallet_second 6 with Some (Ret (self, _, _, _)) => self | _ => CachedTxData_new end.

Lemma wallet_first_poll : wallet_poll CachedTxData_new 4 = Some (Ret (wallet_first, tt, 5, Ok tt)).
Proof. vm_compute; reflexivity. Qed.

Lemma wallet_second_poll : wallet_poll wallet_first 5 = Some (Ret (wallet_second, tt, 6, Ok tt)).
Proof. vm_compute; reflexivity. Qed.

Lemma wallet_third_poll : wallet_poll wallet_second 6 = Some (Ret (wallet_third, tt, 7, Ok tt)).
Proof. vm_compute; reflexivity. Qed.

Lemma wallet_first_step : demo_step (CachedTxData_new, tt, 4) (wallet_first, tt, 5).
Proof. apply (ws_poll _ _ _ 5 _ _ _ _ _ _ (Ok tt)), wallet_first_poll. Qed.

Lemma wallet_second_step : demo_step (wallet_first, tt, 5) (wallet_second, tt, 6).
Proof. apply (ws_poll _ _ _ 5 _ _ _ _ _ _ (Ok tt)), wallet_second_poll. Qed.

Lemma wallet_third_step : demo_step (wallet_second, tt, 6) (wallet_third, tt, 7).
Proof. apply (ws_poll _ _ _ 5 _ _ _ _ _ _ (Ok tt)), wallet_third_poll. Qed.

Lemma wallet_third_run : rtc demo_step (CachedTxData_new, tt, 4) (wallet_third, tt, 7).
Proof.
  eapply rtc_l; [apply wallet_first_step|].
  eapply rtc_l; [apply wallet_second_step|]; apply rtc_once, wallet_third_step.
Qed.
