(* ===== verification/AttestedExamples.v ===== *)
(** * The attested connection, concretely

    A session is a channel number and a counter, and the network is a list of
    what happens to the next calls.  The wallet of [WalletExamples] polls over
    it while a call fails before it is sent, the message after that is rejected,
    and an answer is lost. *)

From S2P Require Import Prelude FogTypes KexRng UserRngSet Polling InputSelection ViewEnclave EnclaveConnection LedgerServer LedgerServerSpec CachedTxData AttestedLedger CachedTxDataSpec WalletSpec WalletView WalletSystem WalletExamples.

Local Open Scope Z_scope.
Local Open Scope fog_scope.

(** ** The two sides of a session *)

Definition demo_client_ake : AttestClient := {|
  Uri := bytes;
  Metadata := list bytes;
  MetadataBuilder := list bytes;
  CallOption := list bytes;
  CookieJar := list bytes;
  Verifier := unit;
  VerificationReport := unit;
  CsRng := Z;
  Initiator := unit;
  Ready := Z * Z;
  responder_id := fun uri => Ok uri;
  uri_username := fun _ => [1];
  uri_password := fun _ => [2];
  authorization_header := fun u p => u ++ p;
  MetadataBuilder_new := [];
  add_authorization := fun b h => Ok (b ++ [h]);
  MetadataBuilder_build := fun b => b;
  CallOption_headers := fun m => m;
  CookieJar_default := [];
  to_client_metadata := fun jar => Ok jar;
  update_from_server_metadata := fun jar h t => (Ok tt, default jar h);
  client_initiate := fun responder rng => (Ok (tt, responder), rng + 1);
  client_finish := fun _ reply _ rng =>
    match reply with [c] => (Ok ((c, 0), tt), rng) | _ => (Err 1, rng) end;
  binding := fun k => [k.1];
  ready_encrypt := fun k aad pt => (Ok (k.2 :: pt), (k.1, k.2 + 1));
  ready_decrypt := fun k aad data => (Ok data, k);
|}.

(** The enclave knows the last channel and the counter it expects on it. *)
Definition session_decrypt (a : Z * Z) (m : Message) : result bytes unit * (Z * Z) :=
  match msg_data m with
  | n :: pt =>
      if bool_decide (msg_channel_id m = [a.1]) && (n =? a.2) then (Ok pt, (a.1, a.2 + 1))
      else (Err tt, a)
  | [] => (Err tt, a)
  end.

Definition session_ake : Ake := {|
  AkeState := Z * Z;
  EnclaveMessage := Message;
  ChannelId := bytes;
  AttestEnclaveError := unit;
  ResponderId := unit;
  channel_id := msg_channel_id;
  ake_init := fun s _ => (Ok tt, s);
  client_decrypt := session_decrypt;
  client_encrypt := fun s _ bs => (Ok bs, s);
|}.

(** The calls that are left, which the network gets through one by one. *)
Definition demo_network : @Network demo_client_ake session_ake :=
  @Build_Network demo_client_ake session_ake (list Delivery)
    (fun net => match net with d :: net => (d, net) | [] => (Delivered, []) end)
    (fun _ a => a)
    (fun _ (opt : list bytes) => if bool_decide ([1; 2] ∈ opt) then Ok tt else Err RpcPermissions)
    (fun _ => None)
    (fun _ => None)
    (fun (a : Z * Z) _ => (Ok [a.1 + 1], (a.1 + 1, 0)))
    (fun m : Message => m)
    (fun b => mkMessage [] [] b)
    (fun _ => 13)
    2.

Definition session_sync (k a : Z * Z) : Prop := k = a.
Definition session_ahead (k a : Z * Z) : Prop := k.1 = a.1 /\ a.2 < k.2.

Lemma demo_session_laws : @SessionLaws demo_client_ake session_ake demo_network session_sync session_ahead.
Proof.
  split; unfold session_sync, session_ahead; cbn.
  - intros ? ? ? ? ? a reply a1 ? ? k ? ? [= <- <- <-] [= <- <-] [= <- <- <-]; done.
  - intros k a aad pt ct k1 -> [= <- <-]; simpl; split; [lia|].
    exists (a.1, a.2 + 1); unfold session_decrypt; simpl.
    rewrite bool_decide_eq_true_2, Z.eqb_refl by done; split; [done|].
    intros bs reply a2 [= <- <-]; by eexists.
  - intros k a aad pt ct k1 [Hc Hlt] [= <- <-]; simpl; split; [lia|].
    unfold session_decrypt; simpl; rewrite (proj2 (Z.eqb_neq _ _)) by lia.
    rewrite andb_false_r; by eexists _, _.
  - done.
  - done.
  - done.
  - done.
Qed.

Lemma demo_metadata_laws : MetadataLaws demo_client_ake.
Proof. intros b u p; by eexists. Qed.

(** The method the trait provides, as it is documented. *)
Definition demo_attested_call {G} `{Ch : !@EnclaveGrpcChannel demo_client_ake G}
    (func : EnclaveConnection G -> run (EnclaveConnection G * result Message GrpcError))
    (self : EnclaveConnection G) : run (EnclaveConnection G * result Message EnclaveConnectionError) :=
  '(self, attested) ← (if is_attested self then Ret (self, Ok tt)
                       else '(self, report) ← attest self;
                            Ret (self, match report with Ok _ => Ok tt | Err e => Err e end));
  match attested with
  | Err e => Ret (self, Err e)
  | Ok _ =>
      '(self, r) ← func self;
      Ret match r with
          | Ok message => (self, Ok message)
          | Err (RpcFailure s) => (deattest self, Err (Rpc (RpcFailure s)))
          | Err e => (self, Err (Rpc e))
          end
  end.

Lemma demo_attested_call_laws {G} `{Ch : !@EnclaveGrpcChannel demo_client_ake G} :
  AttestedCallLaws (demo_attested_call (G := G)).
Proof. intros func self H; unfold demo_attested_call; by rewrite H. Qed.

(** ** The encodings *)

#[local] Instance KeyImageQuery_eq_dec : EqDecision KeyImageQuery.
Proof. solve_decision. Defined.
#[local] Instance KeyImageQuery_countable : Countable KeyImageQuery.
Proof.
  refine (inj_countable' (fun q => (kiq_key_image q, kiq_start_block q))
    (fun x => mkKeyImageQuery x.1 x.2) _); by intros [].
Defined.
#[local] Instance KeyImageResult_eq_dec : EqDecision KeyImageResult.
Proof. solve_decision. Defined.
#[local] Instance KeyImageResult_countable : Countable KeyImageResult.
Proof.
  refine (inj_countable' (fun r => (kir_key_image r, kir_spent_at r, kir_timestamp r,
      kir_timestamp_result_code r, kir_key_image_result_code r))
    (fun '(k, s, t, c, d) => mkKeyImageResult k s t c d) _); by intros [].
Defined.

(** A message is one number. *)
Definition number {A} `{Countable A} (x : A) : bytes := [Zpos (encode x)].
Definition of_number {A} `{Countable A} (b : bytes) : option A :=
  match b with [Zpos p] => decode p | _ => None end.

Lemma of_number_number {A} `{Countable A} (x : A) : of_number (number x) = Some x.
Proof. apply decode_encode. Qed.

Definition demo_ledger_codec : @LedgerCodec demo_ledger := {|
  decode_get_outputs_request := fun b => Some (mkGetOutputsRequest b 0);
  encode_get_outputs_response := fun r => [gos_num_blocks r];
  decode_check_key_images_request := fun b => mkCheckKeyImagesRequest <$> of_number b;
  encode_check_key_images_response := fun r =>
    number (cks_num_blocks r, cks_global_txo_count r, cks_results r);
|}.

Definition demo_client_codec : ClientCodec := {|
  encode_check_key_images_request := fun q => number (ckr_queries q);
  decode_check_key_images_response := fun b =>
    match of_number b with
    | Some (n, t, rs) => Ok (mkCheckKeyImagesResponse n t rs)
    | None => Err 1
    end;
|}.

Lemma demo_codec_laws : @ClientCodecLaws demo_ledger demo_ledger_codec demo_client_codec.
Proof.
  split; [intros [q]|intros [n t rs]].
  - change (mkCheckKeyImagesRequest <$> of_number (number q) = Some (mkCheckKeyImagesRequest q)).
    by rewrite of_number_number.
  - unfold encode_check_key_images_response, decode_check_key_images_response.
    cbn -[number of_number]; by rewrite of_number_number.
Qed.

(** ** The wallet over the connection *)

#[local] Existing Instances demo_ledger session_ake demo_client_ake demo_network demo_ledger_codec demo_client_codec.

Definition demo_node (net : list Delivery) : LedgerNode :=
  mkLedgerNode demo_ledger session_ake demo_client_ake demo_network (0, 0) 4 net.

(** The request after the first handshake is not sent, so the next one is
    rejected; then an answer is lost. *)
Definition demo_conn : EnclaveConnection LedgerNode :=
  EnclaveConnection_new [7] (demo_node [Delivered; NotSent 5; Delivered; Delivered; LostAnswer 14]) tt 0.

Definition attested_request : EnclaveConnection LedgerNode -> CheckKeyImagesRequest ->
    result CheckKeyImagesResponse EnclaveConnectionError * EnclaveConnection LedgerNode :=
  attested_key_images_request demo_attested_call.

Definition attested_poll (x : CachedTxData * EnclaveConnection LedgerNode) :=
  @poll_fog _ wallet_user canonical_iter wallet_crypto unit unit _ wallet_view attested_request 5 x.1 tt x.2
    wallet_key.

Definition after_poll (x : CachedTxData * EnclaveConnection LedgerNode) :=
  match attested_poll x with
  | Some (Ret (self, _, conn, _)) => (self, conn)
  | _ => x
  end.

Fixpoint after_polls (n : nat) :=
  match n with O => (CachedTxData_new, demo_conn) | S n => after_poll (after_polls n) end.

Definition attested_step := @wallet_step _ wallet_user canonical_iter wallet_crypto unit unit _ wallet_view
  attested_request wallet_key.

Lemma after_poll_run x : rtc attested_step (x.1, tt, x.2) ((after_poll x).1, tt, (after_poll x).2).
Proof.
  unfold after_poll; destruct (attested_poll x) as [[[[[self view] conn] r]|]|] eqn:Hp; try by apply rtc_refl.
  destruct view; apply rtc_once; eapply (ws_poll _ _ _ 5), Hp.
Qed.

Lemma after_polls_run n : rtc attested_step (CachedTxData_new, tt, demo_conn)
  ((after_polls n).1, tt, (after_polls n).2).
Proof.
  induction n as [|n IH]; [apply rtc_refl|]; etrans; [exact IH|apply after_poll_run].
Qed.


(** ** A connection that is ahead recovers *)

Definition ahead_conn : EnclaveConnection LedgerNode :=
  set_cipher (EnclaveConnection_new [7]
    (mkLedgerNode demo_ledger session_ake demo_client_ake demo_network (1, 0) 6 []) tt 0) (Some (1, 1)).

Definition demo_request : CheckKeyImagesRequest := key_images_request [[2]; [3]].

Lemma demo_available : available (fun net => net = []) (ec_uri ahead_conn) (ec_creds ahead_conn).
Proof.
  split.
  - by eexists.
  - intros net ->; by eexists.
  - intros net c opt _ Hc Hcreds; unfold call_option in Hc; rewrite Hcreds in Hc; cbn in Hc.
    injection Hc as <-; cbn; rewrite bool_decide_eq_true_2; [done|].
    apply elem_of_app; right; by left.
  - intros rid rng a; do 5 eexists; split; [reflexivity|]; split; [reflexivity|].
    intros v rng2; do 3 eexists; reflexivity.
  - intros k aad pt; do 2 eexists; reflexivity.
  - intros a ch bs; do 2 eexists; reflexivity.
Qed.

Lemma attested_connection_refines_witness :
  exists c1 r1, key_images_over demo_attested_call ahead_conn demo_request = Ret (c1, r1)
    /\ (answered ahead_conn demo_request c1 r1
        \/ conn_world c1 = conn_world ahead_conn
           /\ exists c2 r2, key_images_over demo_attested_call c1 demo_request = Ret (c2, r2)
                /\ answered c1 demo_request c2 r2).
Proof.
  eapply (@attested_connection_refines demo_ledger session_ake demo_client_ake demo_network demo_ledger_codec
    demo_client_codec demo_codec_laws demo_metadata_laws session_sync session_ahead demo_session_laws
    demo_attested_call demo_attested_call_laws (fun w => w) demo_truth demo_valid demo_ledger_laws
    ahead_conn demo_request) with (good := fun net => net = []).
  - right; split; [reflexivity|cbn; lia].
  - reflexivity.
  - apply demo_available.
Defined.
