(* ===== verification/PaykitExamples.v ===== *)
(** * The client, concretely

    Runs of the client and the services on the data of [WalletExamples]. *)

From S2P Require Import Prelude FogTypes KexRng UserRngSet Polling InputSelection ViewEnclave EnclaveConnection LedgerServer LedgerServerSpec CachedTxData CachedTxDataSpec WalletSpec WalletView WalletSystem PaykitClient PaykitSpec WalletExamples.

Local Open Scope Z_scope.
Local Open Scope fog_scope.

Lemma demo_truthful_view :
  @TruthfulView _ wallet_user canonical_iter wallet_crypto unit unit wallet_view wallet_key
    wallet_account wallet_inv_demo
  /\ wallet_inv_demo tt UserRngSet_new ∅.
Proof.
  destruct (@honest_view_provides _ wallet_user canonical_iter wallet_crypto unit unit wallet_view
    wallet_key wallet_account demo_landed wallet_rngs (fun _ => 0) wallet_place) as [HV Hs].
  - apply wallet_account_ok.
  - apply wallet_ingested.
  - apply wallet_view_honest.
  - apply wallet_view_server_honest.
  - vm_compute; reflexivity.
  - split; [exact HV|apply Hs].
Qed.

Lemma demo_truthful_images : TruthfulKeyImages demo_images wallet_account (fun _ => True).
Proof. eapply served_key_images_truthful; [apply demo_ledger_laws|reflexivity]. Qed.

Lemma wallet_third_reachable :
  @wallet_reachable _ wallet_user canonical_iter wallet_crypto unit unit Z wallet_view demo_images
    wallet_key wallet_inv_demo (fun _ => True) (wallet_third, tt, 7).
Proof. exists tt, 4; split; [apply demo_truthful_view|split; [done|]; apply wallet_third_run]. Qed.

(** The output of 100 pays 60; all together do not pay 200. *)
Lemma wallet_inputs_correct_witness :
  match get_transaction_inputs 16 wallet_third 60 3 with
  | Ret r => inputs_spec wallet_account wallet_third 60 3 r /\ is_ok r = true
  | Panic => False
  end.
Proof.
  destruct (@wallet_inputs_correct _ wallet_user canonical_iter wallet_crypto unit unit Z wallet_view
    demo_images wallet_key wallet_account wallet_inv_demo (fun _ => True) wallet_third tt 7 16%nat 60 3%nat 5%nat
    (Ret (wallet_third, tt, 8, Ok tt))) as [(r & Hr & Hs) _].
  - apply wallet_account_ok.
  - apply demo_truthful_view.
  - apply demo_truthful_images.
  - apply wallet_third_reachable.
  - lia.
  - rewrite Hr; split; [exact Hs|].
    assert (Hc : match get_transaction_inputs 16 wallet_third 60 3 with
                 | Ret r => is_ok r | Panic => false end = true) by (vm_compute; reflexivity).
    rewrite Hr in Hc; exact Hc.
Defined.

Lemma wallet_first_reachable :
  @wallet_reachable _ wallet_user canonical_iter wallet_crypto unit unit Z wallet_view demo_images
    wallet_key wallet_inv_demo (fun _ => True) (wallet_first, tt, 5).
Proof. exists tt, 4; split; [apply demo_truthful_view|split; [done|]; apply rtc_once, wallet_first_step]. Qed.

Lemma wallet_blocks_monotone_witness : get_num_blocks wallet_first <= get_num_blocks wallet_second.
Proof.
  apply (@wallet_blocks_monotone _ wallet_user canonical_iter wallet_crypto unit unit Z wallet_view
    demo_images wallet_key wallet_account wallet_inv_demo (fun _ => True) wallet_first tt 5 5%nat wallet_second tt 6 (Ok tt)).
  - apply wallet_account_ok.
  - apply demo_truthful_view.
  - apply demo_truthful_images.
  - apply wallet_first_reachable.
  - intros view1 set recs errs Hp; vm_compute in Hp; injection Hp as <- <- <- <-; constructor.
  - apply wallet_second_poll.
Defined.

(** A wallet with 2001 outputs. *)
Definition many_txo (i : Z) : Z * OwnedTxOut :=
  (i, mkOwnedTxOut i 0 (mkTxOut (mkAmount [] 1) [] [] []) 1 [i] (NotSpentAsOf 1)).

Definition many_wallet : CachedTxData :=
  mkCachedTxData UserRngSet_new (many_txo <$> seqZ 0 2001) 1 2001.

Lemma many_txo_not_spent l : List.filter not_spent (many_txo <$> l).*2 = snd ∘ many_txo <$> l.
Proof. induction l as [|i l IH]; [done|]; rewrite !fmap_cons; simpl; by rewrite IH. Qed.

Lemma large_wallet_stuck_witness :
  poll_fog_for_key_images demo_images many_wallet 9
    = Ret (many_wallet, 9, Err (LedgerConnection (Connection (Rpc (RpcFailure 13))))).
Proof.
  apply (@large_wallet_stuck demo_ledger (fun _ => RpcFailure 13) (RpcFailure 2) many_wallet 9);
    unfold many_wallet, owned_tx_outs; rewrite many_txo_not_spent.
  - rewrite length_fmap, length_seqZ; apply Nat.ltb_lt; reflexivity.
  - rewrite <- list_fmap_compose; apply NoDup_fmap_2; [by intros i j [= ->]|apply NoDup_seqZ].
Defined.

Lemma ledger_answers_true_witness :
  @iwp demo_ledger (fun w : Z => w) _ 6 (@check_key_images_impl demo_ledger (mkKeyImageContext [[2]; [3]]))
    (@key_images_spec demo_ledger (fun w : Z => w) demo_truth 6 [[2]; [3]]).
Proof.
  apply (@ledger_answers_true demo_ledger (fun w => w) demo_truth demo_valid 6 [[2]; [3]] [12] 0 [[7]]
    [mkBlockRange 2 4]).
  apply demo_ledger_laws.
Defined.

(** A transaction whose output is in block 3, and one that expired at block 8. *)
Definition demo_tx (key : Z) : Tx := mkTx [mkTxOut (mkAmount [] 1) [] [key] []] 8.

Lemma transaction_status_true_witness :
  @is_transaction_present (@compressed_try_from demo_ledger) Z (@served_tx_outs demo_ledger (fun _ => RpcFailure 13) (RpcFailure 2)) 9 (demo_tx 7)
    = Ret (10, Ok (Appeared 3))
  /\ @is_transaction_present (@compressed_try_from demo_ledger) Z (@served_tx_outs demo_ledger (fun _ => RpcFailure 13) (RpcFailure 2)) 9 (demo_tx 5)
    = Ret (10, Ok Expired)
  /\ tx_status_true demo_truth [5] Expired.
Proof.
  split; [vm_compute; reflexivity|]; split; [vm_compute; reflexivity|].
  destruct (@transaction_status_true demo_ledger (fun _ => RpcFailure 13) (RpcFailure 2) (fun w => w) demo_truth demo_valid 9
    (demo_tx 5) (mkTxOut (mkAmount [] 1) [] [5] []) []) as (w' & r & Hr & Hs).
  - apply demo_ledger_laws.
  - reflexivity.
  - reflexivity.
  - intros i Hi; vm_compute in Hi; discriminate Hi.
  - vm_compute in Hr; injection Hr as <- <-; exact Hs.
Defined.

(** ** Building a transaction *)

(** A builder that records the fee, the outputs and the tombstone block. *)
Definition demo_builder : @TxBuilder demo_kex Z := {|
  PublicAddress := Z;
  FogReports := unit;
  Resolver := unit;
  Builder := Z * list (Z * Z) * Z;
  Credentials := unit;
  Rng := Z;
  default_subaddress := fun _ => 1;
  fog_report_url := fun _ => None;
  FogUri_from_str := fun b => Ok b;
  FogResolver_new := fun _ => Ok tt;
  TransactionBuilder_new := fun _ => (0, [], 0);
  set_fee := fun b fee => (fee, b.1.2, b.2);
  builder_fee := fun b => b.1.1;
  InputCredentials_new := fun _ _ _ _ _ => Ok tt;
  add_input := fun b _ => b;
  add_output := fun b amount address rng => (Ok (b.1.1, b.1.2 ++ [(amount, address)], b.2), rng);
  set_tombstone_block := fun b t => (b.1, t);
  build := fun b rng =>
    (Ok (mkTx ((fun o => mkTxOut (mkAmount [] o.1) [o.2] [] []) <$> b.1.2) b.2), rng);
|}.

Definition demo_gen (rng limit : Z) : Z * Z := (rng mod limit, rng + 1).

Definition demo_outputs := @served_outputs demo_ledger (fun _ => RpcFailure 13) (RpcFailure 2).

Definition demo_rings := @get_rings Z Z demo_outputs Z demo_gen elements 10 3 wallet_third 8 1 0.

Lemma proofs_and_rings_valid_witness :
  exists w' rng' r, demo_rings = Some (Ret (w', rng', r))
    /\ @rings_spec demo_ledger (fun _ => RpcFailure 13) demo_truth demo_valid wallet_third 3 1 r.
Proof.
  apply (@proofs_and_rings_valid demo_ledger (fun _ => RpcFailure 13) (RpcFailure 2) (fun w => w) demo_truth demo_valid Z
    demo_gen elements 9 3 wallet_third 8 [wallet_owned txo1] 0).
  - apply demo_ledger_laws.
  - intros r l Hl; apply Z.mod_pos_bound, Hl.
  - intros s; reflexivity.
  - lia.
  - vm_compute; discriminate.
  - repeat constructor.
  - intros i Hi; apply Z.div_lt_upper_bound; [lia|].
    change (get_global_txo_count wallet_third) with 28 in Hi; lia.
  - intros _; vm_compute; discriminate.
Defined.


Definition demo_client : @Client _ unit Z Z unit :=
  mkClient tt 8 8 tt 3 wallet_key wallet_third DEFAULT_NEW_TX_BLOCK_ATTEMPTS.

Definition demo_build (amount fee : Z) :=
  @build_transaction Z _ wallet_crypto demo_builder unit Z Z unit demo_images demo_outputs
    (fun s _ => (Ok tt, s)) demo_gen elements 16 5 20 demo_client amount 2 0 fee.

(** The transaction or the error of a run that ends. *)
Definition outcome {A B C} (m : option (run (A * B * C))) : option C :=
  match m with Some (Ret (_, _, r)) => Some r | _ => None end.

(** The inputs of a transaction are selected for the minimum fee, not for
    the fee that is asked for.  A wallet with outputs of 100 and 7 and a
    minimum fee of 5 sends 90 for a fee of 10, but for a fee of 15 it reports
    insufficient funds, although it holds 107 and its own selection for 105
    takes both outputs. *)
Theorem higher_fee_refused :
  outcome (demo_build 90 10) =
    Some (Ok (mkTx [mkTxOut (mkAmount [] 90) [2] [] []] 58))
  /\ outcome (demo_build 90 15) = Some (Err PaykitInsufficientFunds)
  /\ get_balance wallet_third = Ret (107, 6)
  /\ match get_transaction_inputs 16 wallet_third (90 + 15) TARGET_NUM_INPUTS with
     | Ret (Ok inputs) => oto_value <$> inputs = [100; 7]
     | _ => False
     end.
Proof. split_and!; vm_compute; reflexivity. Qed.
