(* ===== verification/Ffi.v ===== *)
(** * Calls from C (src/util/ffi/src, src/libmobilecoin/src/common)

    The mobile library is called from C.  Its functions take pointers that the
    caller may get wrong, and give out memory that the caller has to give back.
    Memory is a map from locations to objects: values that the library boxed,
    and objects of the caller.  A null pointer is [None].  A computation
    returns, unwinds after a panic, or does something undefined: it follows a
    dangling pointer or one to an object of another type, reads or writes past
    the end of a buffer, or frees what is not allocated.  A call runs alone, and
    whether its arguments overlap is not looked at.

    The pointer types are those of util/ffi; McBuffer, McError and the boundary
    that stops panics are those of common/. *)

From Stdlib Require Import String Ascii.
From S2P Require Import Prelude.

Local Open Scope Z_scope.
Local Open Scope fog_scope.

(** A string literal as bytes. *)
Definition ascii_bytes (s : string) : bytes :=
  (fun c => Z.of_N (N_of_ascii c)) <$> list_ascii_of_string s.
Global Arguments ascii_bytes : simpl never.

Abbreviation Loc := positive.
Abbreviation Ptr := (option positive).

(** ** Errors (src/libmobilecoin/src/error.rs) *)

Inductive LibMcError :=
| LibUnknown
| LibPanic (s : bytes)
| LibInvalidInput (s : bytes)
| LibInvalidOutput (s : bytes)
| LibAttestationVerificationFailed (s : bytes)
| LibAead (s : bytes)
| LibCipher (s : bytes)
| LibUnsupportedCryptoBoxVersion (s : bytes)
| LibTransactionCrypto (s : bytes).

Definition error_code (self : LibMcError) : Z :=
  match self with
  | LibUnknown => -1
  | LibPanic _ => -2
  | LibInvalidInput _ => 100
  | LibInvalidOutput _ => 101
  | LibAttestationVerificationFailed _ => 200
  | LibAead _ => 300
  | LibCipher _ => 301
  | LibUnsupportedCryptoBoxVersion _ => 302
  | LibTransactionCrypto _ => 400
  end.

Definition error_description (self : LibMcError) : bytes :=
  match self with
  | LibUnknown => ascii_bytes "Unknown"
  | LibPanic s => ascii_bytes "Rust panicked: " ++ s
  | LibInvalidInput s => ascii_bytes "Invalid input: " ++ s
  | LibInvalidOutput s => ascii_bytes "Invalid output: " ++ s
  | LibAttestationVerificationFailed s => ascii_bytes "Attestation verification failed: " ++ s
  | LibAead s => ascii_bytes "Authenticated encryption failure: " ++ s
  | LibCipher s => ascii_bytes "Cipher error: " ++ s
  | LibUnsupportedCryptoBoxVersion s => ascii_bytes "Unsupported CryptoBox version: " ++ s
  | LibTransactionCrypto s => ascii_bytes "Transaction cryptography error: " ++ s
  end.

(** ** Memory *)

(** common/error.rs: the description is an owned C string. *)
Record McError := mkMcError { me_error_code : Z; me_error_description : Ptr }.

(** common/buffer.rs: [McBuffer] and [McMutableBuffer]. *)
Record McBuffer := mkMcBuffer { mb_buffer : Ptr; mb_len : Z }.

(** What a library puts into boxes, the structs of its callers and their random
    number callbacks; and how Rust formats a panic and an error for debugging. *)
Class FfiTypes := {
  Handle : Type;
  Kind : Type;
  kind : Handle -> Kind;
  Struct : Type;
  Callback : Type;
  fmt_any : bytes;
  fmt_debug : forall E : Type, E -> bytes;
  fmt_display : forall E : Type, E -> bytes;
}.
Global Arguments fmt_debug {_ E}.
Global Arguments fmt_display {_ E}.

Class FfiLaws (F : FfiTypes) : Prop := {
  fmt_any_no_nul : 0 ∉ fmt_any;
  fmt_debug_no_nul : forall E (e : E), 0 ∉ fmt_debug e;
  fmt_display_no_nul : forall E (e : E), 0 ∉ fmt_display e;
}.

(** [Boxed], [BoxedError] and [BoxedStr] are allocated by the library, the
    others belong to the caller; [CErrorSlot] is a variable of type [McError *]
    that is passed as [out_error]. *)
Inductive Object {F : FfiTypes} :=
| Boxed (h : Handle)
| BoxedError (e : McError)
| BoxedStr (s : bytes)
| CBytes (bs : bytes)
| CString (s : bytes)
| CBuffer (b : McBuffer)
| CErrorSlot (p : Ptr)
| CBool (b : bool)
| CU64 (n : Z)
| CStruct (s : Struct)
| CCallback (c : Callback).

Abbreviation Memory := (gmap positive Object).

Section memory.
Context {F : FfiTypes}.

(** ** Computations *)

Inductive outcome (A : Type) :=
| Returned (a : A) (m : Memory)
| Unwinds (m : Memory)
| Undefined.
Global Arguments Returned {A}.
Global Arguments Unwinds {A}.
Global Arguments Undefined {A}.

Definition ffi (A : Type) := Memory -> outcome A.

#[export] Instance ffi_ret : MRet ffi := fun A a m => Returned a m.
#[export] Instance ffi_bind : MBind ffi := fun A B k c m =>
  match c m with
  | Returned a m => k a m
  | Unwinds m => Unwinds m
  | Undefined => Undefined
  end.

#[export] Instance ffi_fmap : FMap ffi := fun A B f c => a ← c; mret (f a).

Definition ffi_panic {A} : ffi A := fun m => Unwinds m.
Definition undefined {A} : ffi A := fun _ => Undefined.

(** [expect] on a [Result] and an [Option]. *)
Definition expect {A E} (r : result A E) : ffi A :=
  match r with Ok a => mret a | Err _ => ffi_panic end.
Definition expect_some {A} (o : option A) : ffi A :=
  match o with Some a => mret a | None => ffi_panic end.

(** The [?] operator in a closure that returns a [Result]. *)
Definition try_ {A B E} (r : result A E) (k : A -> ffi (result B E)) : ffi (result B E) :=
  match r with Ok a => k a | Err e => mret (Err e) end.

(** Follow a pointer to an object of a type. *)
Definition load {A} (as_type : Object -> option A) (l : Loc) : ffi A := fun m =>
  match m !! l ≫= as_type with Some a => Returned a m | None => Undefined end.
Definition store (l : Loc) (o : Object) : ffi unit := fun m => Returned tt (<[l := o]> m).
Definition alloc (o : Object) : ffi Ptr := fun m =>
  let l := fresh (dom m) in Returned (Some l) (<[l := o]> m).
Definition dealloc (l : Loc) : ffi unit := fun m => Returned tt (delete l m).

(** The types of objects. *)
Definition as_handle {A} (as_type : Handle -> option A) (o : Object) : option A :=
  match o with Boxed h => as_type h | _ => None end.
Definition as_error (o : Object) : option McError :=
  match o with BoxedError e => Some e | _ => None end.
Definition as_owned_str (o : Object) : option bytes :=
  match o with BoxedStr s => Some s | _ => None end.
Definition as_c_char (o : Object) : option bytes :=
  match o with BoxedStr s | CString s => Some s | _ => None end.
Definition as_bytes (o : Object) : option bytes :=
  match o with CBytes bs => Some bs | _ => None end.
Definition as_buffer (o : Object) : option McBuffer :=
  match o with CBuffer b => Some b | _ => None end.
Definition as_slot (o : Object) : option Ptr :=
  match o with CErrorSlot p => Some p | _ => None end.
Definition as_bool (o : Object) : option bool :=
  match o with CBool b => Some b | _ => None end.
Definition as_u64_object (o : Object) : option Z :=
  match o with CU64 n => Some n | _ => None end.
Definition as_struct {A} (as_type : Struct -> option A) (o : Object) : option A :=
  match o with CStruct s => as_type s | _ => None end.
Definition as_callback (o : Object) : option Callback :=
  match o with CCallback c => Some c | _ => None end.

(** ** Pointers (ffi_ref_ptr.rs, ffi_owned_ptr.rs, ffi_str.rs) *)

(** [FfiRefPtr], [FfiMutPtr]: a null pointer panics. *)
Definition FfiRefPtr_as_raw (self : Ptr) : ffi Loc := expect_some self.
Definition FfiRefPtr_as_ref {A} (as_type : Object -> option A) (self : Ptr) : ffi A :=
  match self with Some l => load as_type l | None => ffi_panic end.
(** A mutable reference is the location with its value. *)
Definition FfiMutPtr_into_mut {A} (as_type : Object -> option A) (self : Ptr) : ffi (Loc * A) :=
  match self with Some l => a ← load as_type l; mret (l, a) | None => ffi_panic end.

(** [FfiOptRefPtr], [FfiOptMutPtr]: a null pointer is [None]. *)
Definition FfiOptRefPtr_as_ref {A} (as_type : Object -> option A) (self : Ptr) : ffi (option A) :=
  match self with Some l => a ← load as_type l; mret (Some a) | None => mret None end.
Definition FfiOptMutPtr_into_mut {A} (as_type : Object -> option A) (self : Ptr)
  : ffi (option (Loc * A)) :=
  match self with Some l => a ← load as_type l; mret (Some (l, a)) | None => mret None end.
Definition FfiOptMutPtr_into_option (self : Ptr) : option Ptr :=
  match self with Some l => Some (Some l) | None => None end.

(** [FfiOwnedPtr::new]. *)
Definition FfiOwnedPtr_new (h : Handle) : ffi Ptr := alloc (Boxed h).

(** [FfiOptOwnedPtr::drop]: the box has to be one of the type of the pointer. *)
Definition FfiOptOwnedPtr_drop {A} (as_type : Handle -> option A) (self : Ptr) : ffi unit :=
  match self with
  | None => mret tt
  | Some l => load (as_handle as_type) l;; dealloc l
  end.

(** [FfiOwnedStr::new] and the drops of owned strings. *)
Definition FfiOwnedStr_new (c_string : bytes) : ffi Ptr := alloc (BoxedStr c_string).
Definition FfiOwnedStr_drop (self : Ptr) : ffi unit :=
  match self with
  | None => undefined
  | Some l => load as_owned_str l;; dealloc l
  end.
Definition FfiOptOwnedStr_drop (self : Ptr) : ffi unit :=
  match self with
  | None => mret tt
  | Some l => load as_owned_str l;; dealloc l
  end.

(** [FfiStr::as_c_str]. *)
Definition FfiStr_as_c_str (self : Ptr) : ffi bytes :=
  l ← FfiRefPtr_as_raw self; load as_c_char l.

(** [CStr::to_str] accepts the strings of well formed UTF-8. *)
Definition in_range (lo hi b : Z) : bool := (lo <=? b) && (b <=? hi).
Definition utf8_tail : Z -> bool := in_range 128 191.

Fixpoint utf8_valid (bs : bytes) : bool :=
  match bs with
  | [] => true
  | b :: bs =>
      if b <? 128 then utf8_valid bs
      else match bs with
      | [] => false
      | c :: bs =>
          if in_range 194 223 b then utf8_tail c && utf8_valid bs
          else match bs with
          | [] => false
          | d :: bs =>
              if in_range 224 239 b then
                (if b =? 224 then in_range 160 191 c
                 else if b =? 237 then in_range 128 159 c else utf8_tail c)
                && utf8_tail d && utf8_valid bs
              else match bs with
              | [] => false
              | e :: bs =>
                  in_range 240 244 b
                  && (if b =? 240 then in_range 144 191 c
                      else if b =? 244 then in_range 128 143 c else utf8_tail c)
                  && utf8_tail d && utf8_tail e && utf8_valid bs
              end
          end
      end
  end.

Definition FfiStr_as_str (self : Ptr) : ffi (result bytes unit) :=
  s ← FfiStr_as_c_str self; mret (if utf8_valid s then Ok s else Err tt).

(** common/string.rs: [<&str>::try_from_ffi] and [String::try_from_ffi]. *)
Definition str_try_from_ffi (src : Ptr) : ffi (result bytes LibMcError) :=
  s ← FfiStr_as_str src;
  mret (map_err (fun err => LibInvalidInput (ascii_bytes "Invalid UTF-8: " ++ fmt_debug err)) s).

(** [CString::new] refuses a string with a zero byte. *)
Definition cstring_new (s : bytes) : result bytes unit :=
  if bool_decide (0 ∈ s) then Err tt else Ok s.

(** [FfiOwnedStr::ffi_try_from]; the string becomes memory of the caller when it
    is returned. *)
Definition owned_str_try_from (src : bytes) : result bytes LibMcError :=
  map_err (fun err => LibInvalidOutput (ascii_bytes "Unexpected Nul byte: " ++ fmt_debug err))
    (cstring_new src).

(** ** Buffers (common/buffer.rs) *)

(** [slice::from_raw_parts] *)
Definition from_raw_parts (ptr : Loc) (len : Z) : ffi bytes :=
  bs ← load as_bytes ptr;
  if len <=? Z.of_nat (length bs) then mret (take (Z.to_nat len) bs) else undefined.

Definition as_slice (self : McBuffer) : ffi bytes :=
  if mb_len self =? 0 then mret []
  else ptr ← FfiRefPtr_as_raw (mb_buffer self); from_raw_parts ptr (mb_len self).

Definition short_buffer (self : McBuffer) (len : Z) : LibMcError :=
  LibInvalidInput (ascii_bytes "buffer.len() (" ++ fmt_display (mb_len self)
    ++ ascii_bytes ") must be >= " ++ fmt_display len).

Definition as_slice_of_len (self : McBuffer) (len : nat) : ffi (result bytes LibMcError) :=
  if mb_len self <? Z.of_nat len then mret (Err (short_buffer self (Z.of_nat len)))
  else s ← as_slice self; mret (Ok (take len s)).

(** A mutable slice: where it starts, unless it is empty, and its length. *)
Record SliceMut := mkSliceMut { sl_ptr : Ptr; sl_len : nat }.

Definition as_slice_mut_of_len (self : McBuffer) (len : nat) : ffi (result SliceMut LibMcError) :=
  if mb_len self <? Z.of_nat len then mret (Err (short_buffer self (Z.of_nat len)))
  else if mb_len self =? 0 then mret (Ok (mkSliceMut None 0))
  else
    ptr ← FfiRefPtr_as_raw (mb_buffer self);
    from_raw_parts ptr (mb_len self);;
    mret (Ok (mkSliceMut (Some ptr) len)).

(** [<[u8]>::copy_from_slice] panics unless the lengths are the same. *)
Definition copy_from_slice (self : SliceMut) (src : bytes) : ffi unit :=
  if negb (length src =? sl_len self)%nat then ffi_panic
  else match sl_ptr self with
  | None => mret tt
  | Some ptr =>
      bs ← load as_bytes ptr;
      if (length src <=? length bs)%nat then store ptr (CBytes (src ++ drop (length src) bs)) else undefined
  end.

(** [<[u8; 32]>::try_from_ffi] *)
Definition bytes32_try_from_ffi (src : McBuffer) : ffi (result bytes LibMcError) :=
  as_slice_of_len src 32.

(** [ssize_t::ffi_try_from] and, in rng.rs, [i64::ffi_try_from]. *)
Definition ssize_try_from (src : Z) : result Z LibMcError :=
  if src <? i64_modulus_half then Ok src
  else Err (LibInvalidOutput (ascii_bytes "Overflow converting to ssize_t: " ++ fmt_debug tt)).
Definition i64_try_from (src : Z) : result Z LibMcError :=
  if src <? i64_modulus_half then Ok src
  else Err (LibInvalidOutput (ascii_bytes "Overflow converting to i64: " ++ fmt_debug tt)).

(** ** Return values (common/into_ffi.rs, common/macros.rs) *)

Class IntoFfi (R I : Type) := {
  error_value : I;
  into_ffi : R -> ffi I;
}.

#[export] Instance into_ffi_unit : IntoFfi unit unit :=
  {| error_value := tt; into_ffi := fun _ => mret tt |}.
#[export] Instance into_ffi_success : IntoFfi unit bool :=
  {| error_value := false; into_ffi := fun _ => mret true |}.
(** [i64] and [ssize_t]. *)
#[export] Instance into_ffi_int : IntoFfi Z Z :=
  {| error_value := -1; into_ffi := mret |}.
(** [impl_into_ffi!] *)
#[export] Instance into_ffi_handle : IntoFfi Handle Ptr :=
  {| error_value := None; into_ffi := FfiOwnedPtr_new |}.
#[export] Instance into_ffi_str : IntoFfi bytes Ptr :=
  {| error_value := None; into_ffi := FfiOwnedStr_new |}.

(** ** common/error.rs *)

Definition McError_new (error_code : Z) (error_description : bytes) : ffi McError :=
  description ← expect (cstring_new error_description);
  description ← FfiOwnedStr_new description;
  mret (mkMcError error_code description).

(** [impl From<LibMcError> for McError], in error.rs. *)
Definition mc_error_from (err : LibMcError) : ffi McError :=
  McError_new (error_code err) (error_description err).

(** Dropping an owned pointer to an [McError] drops its description. *)
Definition McError_drop (self : Ptr) : ffi unit :=
  match self with
  | None => mret tt
  | Some l => e ← load as_error l; FfiOwnedStr_drop (me_error_description e);; dealloc l
  end.

(** ** The boundary (common/boundary.rs) *)

Definition catch_unwind {A} (f : ffi A) : ffi (result A unit) := fun m =>
  match f m with
  | Returned a m => Returned (Ok a) m
  | Unwinds m => Returned (Err tt) m
  | Undefined => Undefined
  end.

Definition ffi_boundary_impl {R} (f : ffi (result R LibMcError)) : ffi (result R LibMcError) :=
  caught ← catch_unwind f;
  match caught with
  | Ok r => mret r
  | Err _ => mret (Err (LibPanic fmt_any))
  end.

Definition error_handling_ffi_boundary (f : ffi unit) : ffi unit :=
  ffi_boundary_impl (f;; mret (Ok tt));; mret tt.

(** An assignment to the caller's variable drops the error it had. *)
Definition set_error_or_log (err : LibMcError) (out_error : Ptr) : ffi unit :=
  error_handling_ffi_boundary (
    error ← FfiOptMutPtr_into_mut as_slot out_error;
    match error with
    | Some (slot, old) =>
        e ← mc_error_from err;
        ptr ← alloc (BoxedError e);
        McError_drop old;;
        store slot (CErrorSlot ptr)
    | None => mret tt
    end).

Definition ffi_boundary {R I} `{!IntoFfi R I} (f : ffi R) : ffi I :=
  r ← ffi_boundary_impl (a ← f; i ← into_ffi a; mret (Ok i));
  match r with
  | Ok i => mret i
  | Err _ => mret (error_value (R := R))
  end.

Definition ffi_boundary_with_error {R I} `{!IntoFfi R I} (out_error : Ptr)
  (f : ffi (result R LibMcError)) : ffi I :=
  r ← ffi_boundary_impl (
    a ← f;
    match a with
    | Ok a => i ← into_ffi a; mret (Ok i)
    | Err e => mret (Err e)
    end);
  match r with
  | Ok i => mret i
  | Err err => set_error_or_log err out_error;; mret (error_value (R := R))
  end.

Definition mc_error_free (error : Ptr) : ffi unit := ffi_boundary (McError_drop error).
Definition mc_string_free (string : Ptr) : ffi unit := ffi_boundary (FfiOptOwnedStr_drop string).
End memory.

Notation "x ←? c ; k" := (c ≫= fun r => try_ r (fun x => k))
  (at level 20, c at level 100, k at level 200, right associativity) : fog_scope.
