(* ===== verification/FfiSpec.v ===== *)
(** * Memory safety of the boundary

    The body of a library function only overwrites boxed values and memory of
    its caller in place: the shape of the memory stays the same ([shape]), so
    what is valid before is valid after each step.  [ffi_post] is the triple for
    such computations: they return or unwind, never do anything undefined.

    Around a body, the boundary allocates the result or an error.  [accounted]
    says who owns what the library has allocated: the caller, who holds a
    pointer, an error variable, or an error (its description).  Everything is
    owned once, so nothing leaks and nothing is freed twice. *)

From S2P Require Import Prelude Ffi.

Local Open Scope Z_scope.

Section spec.
Context {F : FfiTypes}.
Implicit Types m : Memory.

(** ** Shapes *)

Definition same_shape (o o' : Object) : Prop :=
  match o, o' with
  | Boxed h, Boxed h' => kind h = kind h'
  | CBytes bs, CBytes bs' => length bs = length bs'
  | CBool _, CBool _ | CU64 _, CU64 _ | CCallback _, CCallback _ => True
  | _, _ => o = o'
  end.

Definition shape m m' : Prop := forall l, option_Forall2 same_shape (m !! l) (m' !! l).

#[export] Instance same_shape_equiv : Equivalence same_shape.
Proof.
  split.
  - intros []; simpl; auto.
  - intros [] []; simpl; intros; simplify_eq; auto.
  - intros [] [] []; simpl; intros; simplify_eq; congruence || auto.
Qed.

#[export] Instance shape_equiv : Equivalence shape.
Proof.
  split.
  - intros m l; reflexivity.
  - intros m m' H l; by symmetry.
  - intros m1 m2 m3 H1 H2 l; by transitivity (m2 !! l).
Qed.

Lemma shape_lookup m m' l o :
  shape m m' -> m !! l = Some o -> exists o', m' !! l = Some o' /\ same_shape o o'.
Proof. intros H Hl; specialize (H l); rewrite Hl in H; inversion H; eauto. Qed.

Lemma shape_store m l o o' : m !! l = Some o -> same_shape o o' -> shape m (<[l := o']> m).
Proof.
  intros Hl Ho k; destruct (decide (k = l)) as [->|Hk].
  - rewrite Hl, lookup_insert_eq; by constructor.
  - rewrite lookup_insert_ne by done; reflexivity.
Qed.

(** ** Triples *)

Definition ffi_post {A} m0 (c : ffi A) (Q : A -> Prop) : Prop :=
  forall m, shape m0 m ->
    match c m with
    | Returned a m' => shape m0 m' /\ Q a
    | Unwinds m' => shape m0 m'
    | Undefined => False
    end.

Lemma post_ret {A} m0 (a : A) (Q : A -> Prop) : Q a -> ffi_post m0 (mret a) Q.
Proof. by intros HQ m Hm. Qed.

Lemma post_panic {A} m0 (Q : A -> Prop) : ffi_post m0 ffi_panic Q.
Proof. by intros m Hm. Qed.

Lemma post_bind {A B} m0 (c : ffi A) (k : A -> ffi B) P Q :
  ffi_post m0 c P -> (forall a, P a -> ffi_post m0 (k a) Q) -> ffi_post m0 (c ≫= k) Q.
Proof.
  intros Hc Hk m Hm; unfold mbind, ffi_bind; specialize (Hc m Hm).
  destruct (c m) as [a m'|m'|]; [|done|done]; destruct Hc as [Hm' HP]; exact (Hk a HP m' Hm').
Qed.

Lemma post_weaken {A} m0 (c : ffi A) (P Q : A -> Prop) :
  ffi_post m0 c P -> (forall a, P a -> Q a) -> ffi_post m0 c Q.
Proof. intros Hc HPQ m Hm; specialize (Hc m Hm); destruct (c m); naive_solver. Qed.

Lemma post_expect {A E} m0 (r : result A E) (Q : A -> Prop) :
  (forall a, r = Ok a -> Q a) -> ffi_post m0 (expect r) Q.
Proof. intros HQ; destruct r; [apply post_ret; auto|apply post_panic]. Qed.

Lemma post_expect_some {A} m0 (o : option A) (Q : A -> Prop) :
  (forall a, o = Some a -> Q a) -> ffi_post m0 (expect_some o) Q.
Proof. intros HQ; destruct o; [apply post_ret; auto|apply post_panic]. Qed.

Lemma post_try {A B E} m0 (r : result A E) (k : A -> ffi (result B E)) Q :
  (forall a, r = Ok a -> ffi_post m0 (k a) Q) -> (forall e, Q (Err e)) -> ffi_post m0 (try_ r k) Q.
Proof. intros Hk HQ; destruct r; [by apply Hk|by apply post_ret]. Qed.

Lemma post_load {A} m0 (as_type : Object -> option A) l o (Q : A -> Prop) :
  m0 !! l = Some o ->
  (forall o', same_shape o o' -> exists a, as_type o' = Some a /\ Q a) ->
  ffi_post m0 (load as_type l) Q.
Proof.
  intros Hl HQ m Hm; unfold load.
  destruct (shape_lookup _ _ _ _ Hm Hl) as (o' & Hl' & Ho).
  destruct (HQ o' Ho) as (a & Ha & HQa); rewrite Hl'; simpl; by rewrite Ha.
Qed.

Lemma post_store m0 l o o' :
  m0 !! l = Some o -> same_shape o o' -> ffi_post m0 (store l o') (fun _ => True).
Proof.
  intros Hl Ho m Hm; split; [|done].
  destruct (shape_lookup _ _ _ _ Hm Hl) as (o1 & Hl' & Ho1).
  transitivity m; [done|]; apply shape_store with o1; [done|]; by rewrite <- Ho1.
Qed.

(** ** Valid arguments *)

(** A pointer to an object with a property, or null. *)
Definition points_to m (P : Object -> Prop) (p : Ptr) : Prop :=
  match p with None => True | Some l => exists o, m !! l = Some o /\ P o end.

(** A projection that succeeds on the handles of a kind. *)
Definition typed {A} (as_type : Handle -> option A) (k : Kind) : Prop :=
  forall h, is_Some (as_type h) <-> kind h = k.

Definition handle_arg m (k : Kind) : Ptr -> Prop :=
  points_to m (fun o => match o with Boxed h => kind h = k | _ => False end).
Definition str_arg m : Ptr -> Prop := points_to m (fun o => is_Some (as_c_char o)).
Definition bool_arg m : Ptr -> Prop := points_to m (fun o => is_Some (as_bool o)).
Definition u64_arg m : Ptr -> Prop := points_to m (fun o => is_Some (as_u64_object o)).
Definition slot_arg m : Ptr -> Prop := points_to m (fun o => is_Some (as_slot o)).
Definition callback_arg m : Ptr -> Prop := points_to m (fun o => is_Some (as_callback o)).

(** A buffer that is empty, null, or within the bytes it points into. *)
Definition buffer_ok m (b : McBuffer) : Prop :=
  mb_len b = 0 \/ points_to m (fun o => match o with
    | CBytes bs => 0 <= mb_len b <= Z.of_nat (length bs) | _ => False end) (mb_buffer b).
Definition buffer_arg m : Ptr -> Prop :=
  points_to m (fun o => match o with CBuffer b => buffer_ok m b | _ => False end).

Lemma post_as_handle {A} m0 (as_type : Handle -> option A) k l (Q : A -> Prop) :
  typed as_type k -> handle_arg m0 k (Some l) -> (forall a, Q a) ->
  ffi_post m0 (load (as_handle as_type) l) Q.
Proof.
  intros Ht (o & Hl & Ho) HQ; apply post_load with o; [done|]; intros o' Hs.
  destruct o, o'; simpl in *; try done.
  destruct (proj2 (Ht h0)) as [a Ha]; [congruence|]; eauto.
Qed.

Lemma post_ref_handle {A} m0 (as_type : Handle -> option A) k p (Q : A -> Prop) :
  typed as_type k -> handle_arg m0 k p -> (forall a, Q a) ->
  ffi_post m0 (FfiRefPtr_as_ref (as_handle as_type) p) Q.
Proof. intros Ht Hp HQ; destruct p; [by eapply post_as_handle|apply post_panic]. Qed.

(** A reference to a handle with its location, through which it is replaced by
    another one of its kind. *)
Definition at_handle m (k : Kind) (l : Loc) : Prop := handle_arg m k (Some l).

Lemma post_mut_handle {A} m0 (as_type : Handle -> option A) k p :
  typed as_type k -> handle_arg m0 k p ->
  ffi_post m0 (FfiMutPtr_into_mut (as_handle as_type) p) (fun '(l, _) => at_handle m0 k l).
Proof.
  intros Ht Hp; destruct p as [l|]; [|apply post_panic]; simpl.
  apply post_bind with (fun _ => True); [by eapply post_as_handle|]; intros a _; by apply post_ret.
Qed.

Lemma post_store_handle m0 k l h :
  at_handle m0 k l -> kind h = k -> ffi_post m0 (store l (Boxed h)) (fun _ => True).
Proof.
  intros (o & Hl & Ho) Hk; apply post_store with o; [done|]; destruct o; simpl in *; congruence || done.
Qed.

(** ** Objects of the caller *)

(** A type of objects that keeps its objects under [same_shape]. *)
Definition stable {A} (as_type : Object -> option A) : Prop :=
  forall o o', same_shape o o' -> is_Some (as_type o) -> is_Some (as_type o').

Lemma stable_str : stable as_c_char.
Proof. intros [] [] Hs [? ?]; simplify_eq/=; eauto. Qed.
Lemma stable_bool : stable as_bool.
Proof. intros [] [] Hs [? ?]; simplify_eq/=; eauto. Qed.
Lemma stable_u64 : stable as_u64_object.
Proof. intros [] [] Hs [? ?]; simplify_eq/=; eauto. Qed.
Lemma stable_callback : stable as_callback.
Proof. intros [] [] Hs [? ?]; simplify_eq/=; eauto. Qed.

Lemma post_load_stable {A} m0 (as_type : Object -> option A) l (Q : A -> Prop) :
  stable as_type -> points_to m0 (fun o => is_Some (as_type o)) (Some l) -> (forall a, Q a) ->
  ffi_post m0 (load as_type l) Q.
Proof.
  intros Hs (o & Hl & Ho) HQ; apply post_load with o; [done|]; intros o' Hs'.
  destruct (Hs _ _ Hs' Ho) as [a Ha]; eauto.
Qed.

Lemma post_str m0 p (Q : result bytes LibMcError -> Prop) :
  str_arg m0 p -> (forall r, Q r) -> ffi_post m0 (str_try_from_ffi p) Q.
Proof.
  intros Hp HQ; unfold str_try_from_ffi, FfiStr_as_str, FfiStr_as_c_str, FfiRefPtr_as_raw.
  destruct p as [l|]; [|by intros m Hm]; simpl.
  apply post_bind with (fun _ => True); [|intros; by apply post_ret].
  apply post_bind with (fun _ => True); [|intros; by apply post_ret].
  by apply post_load_stable; [apply stable_str|..].
Qed.

(** A variable of the caller that a reference points to. *)
Lemma post_mut_stable {A} m0 (as_type : Object -> option A) p :
  stable as_type -> points_to m0 (fun o => is_Some (as_type o)) p ->
  ffi_post m0 (FfiMutPtr_into_mut as_type p)
    (fun '(l, _) => points_to m0 (fun o => is_Some (as_type o)) (Some l)).
Proof.
  intros Hs Hp; destruct p as [l|]; [|apply post_panic]; simpl.
  apply post_bind with (fun _ => True); [by apply post_load_stable|]; intros a _; by apply post_ret.
Qed.

Lemma post_store_bool m0 l b : bool_arg m0 (Some l) -> ffi_post m0 (store l (CBool b)) (fun _ => True).
Proof. intros (o & Hl & Ho); apply post_store with o; [done|]; by destruct o, Ho. Qed.
Lemma post_store_u64 m0 l n : u64_arg m0 (Some l) -> ffi_post m0 (store l (CU64 n)) (fun _ => True).
Proof. intros (o & Hl & Ho); apply post_store with o; [done|]; by destruct o, Ho. Qed.
Lemma post_store_callback m0 l c :
  callback_arg m0 (Some l) -> ffi_post m0 (store l (CCallback c)) (fun _ => True).
Proof. intros (o & Hl & Ho); apply post_store with o; [done|]; by destruct o, Ho. Qed.

(** ** Buffers *)

Lemma post_buffer m0 p :
  buffer_arg m0 p -> ffi_post m0 (FfiRefPtr_as_ref as_buffer p) (buffer_ok m0).
Proof.
  intros Hp; destruct p as [l|]; [|apply post_panic]; destruct Hp as (o & Hl & Ho).
  apply post_load with o; [done|]; intros o' Hs; destruct o; try done; simpl in Hs; subst; eauto.
Qed.

Lemma post_mut_buffer m0 p :
  buffer_arg m0 p -> ffi_post m0 (FfiMutPtr_into_mut as_buffer p) (fun '(_, b) => buffer_ok m0 b).
Proof.
  intros Hp; destruct p as [l|]; [|apply post_panic]; simpl.
  apply post_bind with (buffer_ok m0); [exact (post_buffer m0 (Some l) Hp)|].
  intros b Hb; by apply post_ret.
Qed.

Lemma post_from_raw_parts m0 l len :
  points_to m0 (fun o => match o with
    | CBytes bs => 0 <= len <= Z.of_nat (length bs) | _ => False end) (Some l) ->
  ffi_post m0 (from_raw_parts l len) (fun bs => Z.of_nat (length bs) = len).
Proof.
  intros (o & Hl & Ho); destruct o as [| | |bs| | | | | | |]; try done.
  apply post_bind with (fun bs' => length bs' = length bs).
  - apply post_load with (CBytes bs); [done|]; intros [] Hs; simpl in Hs; try done; eauto.
  - intros bs' Hbs'; rewrite (proj2 (Z.leb_le _ _)) by lia.
    apply post_ret; rewrite length_take; lia.
Qed.

Lemma post_as_slice m0 b : buffer_ok m0 b ->
  ffi_post m0 (as_slice b) (fun bs => Z.of_nat (length bs) = mb_len b).
Proof.
  unfold as_slice; intros Hb; destruct (Z.eqb_spec (mb_len b) 0) as [He|He]; [by apply post_ret|].
  destruct Hb as [Hb|Hb]; [done|].
  destruct (mb_buffer b) as [l|]; [|apply post_panic].
  apply post_bind with (fun l' => l' = l); [by apply post_ret|]; intros ? ->.
  by apply post_from_raw_parts.
Qed.

Lemma post_as_slice_of_len m0 b n : buffer_ok m0 b ->
  ffi_post m0 (as_slice_of_len b n) (fun r => forall bs, r = Ok bs -> length bs = n).
Proof.
  unfold as_slice_of_len; intros Hb; destruct (Z.ltb_spec (mb_len b) (Z.of_nat n)); [by apply post_ret|].
  apply post_bind with (fun bs => Z.of_nat (length bs) = mb_len b); [by apply post_as_slice|].
  intros bs Hbs; apply post_ret; intros ? [= <-]; rewrite length_take; lia.
Qed.

(** A slice that can be written to. *)
Definition slice_ok m (s : SliceMut) : Prop :=
  points_to m (fun o => match o with CBytes bs => (sl_len s <= length bs)%nat | _ => False end) (sl_ptr s).

Lemma post_as_slice_mut m0 b n : buffer_ok m0 b ->
  ffi_post m0 (as_slice_mut_of_len b n) (fun r => forall s, r = Ok s -> slice_ok m0 s).
Proof.
  unfold as_slice_mut_of_len; intros Hb.
  destruct (Z.ltb_spec (mb_len b) (Z.of_nat n)); [by apply post_ret|].
  destruct (Z.eqb_spec (mb_len b) 0) as [He|He]; [apply post_ret; by intros ? [= <-]|].
  destruct Hb as [Hb|Hb]; [done|].
  destruct (mb_buffer b) as [l|]; [|apply post_panic].
  apply post_bind with (fun l' => l' = l); [by apply post_ret|]; intros ? ->.
  apply post_bind with (fun _ => True).
  - eapply post_weaken; [by apply post_from_raw_parts|done].
  - intros _ _; apply post_ret; intros ? [= <-]; destruct Hb as (o & Hl & Ho).
    exists o; split; [done|]; destruct o; try done; simpl; lia.
Qed.

Lemma post_copy m0 s src : slice_ok m0 s -> ffi_post m0 (copy_from_slice s src) (fun _ => True).
Proof.
  unfold copy_from_slice; intros Hs; destruct (Nat.eqb_spec (length src) (sl_len s)) as [Hn|]; simpl; [|apply post_panic].
  unfold slice_ok in Hs; destruct (sl_ptr s) as [l|]; [|by apply post_ret].
  destruct Hs as (o & Hl & Ho); destruct o as [| | |bs| | | | | | |]; try done.
  apply post_bind with (fun bs' => length bs' = length bs).
  - apply post_load with (CBytes bs); [done|]; intros [] Ht; simpl in Ht; try done; eauto.
  - intros bs' Hbs'; rewrite (proj2 (Nat.leb_le _ _)) by lia.
    apply post_store with (CBytes bs); [done|]; simpl; rewrite length_app, length_drop; lia.
Qed.
End spec.
