(* ===== verification/FfiAccount.v ===== *)
(** * Ownership across the boundary

    [accounted] and its preservation by allocation, by the drops, by the
    assignment to an error variable and by everything that keeps the shape of
    the memory; then, of a whole boundary: with a body that keeps the shape, a
    call returns, and everything is accounted for after it. *)

From S2P Require Import Prelude Ffi FfiSpec.

Local Open Scope Z_scope.

(** Evaluates lookups in updated memory by cases. *)
Ltac lookups :=
  repeat (rewrite lookup_insert in * || rewrite lookup_delete in *);
  repeat (case_decide; simplify_eq); simplify_eq/=; try congruence.

Section account.
Context {F : FfiTypes}.
Implicit Types m : Memory.

Definition is_library (o : Object) : bool :=
  match o with Boxed _ | BoxedError _ | BoxedStr _ => true | _ => false end.

(** Who owns a location: the caller, the variable at a location, or the error at
    a location. *)
Inductive Owner := OHeld | OSlot (s : Loc) | OErr (e : Loc).

Definition owns m (held : gset Loc) (w : Owner) (l : Loc) : Prop :=
  match w with
  | OHeld => l ∈ held
  | OSlot s => m !! s = Some (CErrorSlot (Some l))
  | OErr e => exists code, m !! e = Some (BoxedError (mkMcError code (Some l)))
  end.

Record accounted m (held : gset Loc) : Prop := {
  acc_owned : forall l o, m !! l = Some o -> is_library o = true -> exists w, owns m held w l;
  acc_unique : forall l w w', owns m held w l -> owns m held w' l -> w = w';
  acc_held : forall l, l ∈ held -> exists o, m !! l = Some o /\ is_library o = true;
  acc_slot : forall s l, m !! s = Some (CErrorSlot (Some l)) -> exists e, m !! l = Some (BoxedError e);
  acc_err : forall l e, m !! l = Some (BoxedError e) ->
    exists d s, me_error_description e = Some d /\ m !! d = Some (BoxedStr s);
}.

(** ** Memory of the same shape *)

Lemma same_shape_exact o o' :
  same_shape o o' -> match o with BoxedError _ | BoxedStr _ | CErrorSlot _ => o' = o | _ => True end.
Proof. destruct o, o'; simpl; congruence || done. Qed.

Lemma same_shape_library o o' : same_shape o o' -> is_library o' = is_library o.
Proof. destruct o, o'; simpl; congruence || done. Qed.

Lemma shape_exact m m' l o :
  shape m m' -> m !! l = Some o ->
  match o with BoxedError _ | BoxedStr _ | CErrorSlot _ => True | _ => False end -> m' !! l = Some o.
Proof.
  intros Hm Hl Ho; destruct (shape_lookup _ _ _ _ Hm Hl) as (o' & Hl' & Hs).
  apply same_shape_exact in Hs; destruct o; try done; by rewrite <- Hs.
Qed.

Lemma shape_owns m m' held w l : shape m m' -> owns m held w l -> owns m' held w l.
Proof.
  intros Hm; destruct w; simpl; [done|..].
  - intros H; by apply (shape_exact _ _ _ _ Hm H).
  - intros [c H]; exists c; by apply (shape_exact _ _ _ _ Hm H).
Qed.

Lemma accounted_shape m m' held : shape m m' -> accounted m held -> accounted m' held.
Proof.
  intros Hm [Ho Hu Hh Hs He]; assert (Hm' : shape m' m) by by symmetry.
  split.
  - intros l o Hl Hlib; destruct (shape_lookup _ _ _ _ Hm' Hl) as (o' & Hl' & Hs').
    rewrite <- (same_shape_library _ _ Hs') in Hlib.
    destruct (Ho l o' Hl' Hlib) as [w Hw]; exists w; by eapply shape_owns.
  - intros l w w' H1 H2; apply Hu with l; by eapply shape_owns.
  - intros l Hl; destruct (Hh l Hl) as (o & Hlo & Hlib).
    destruct (shape_lookup _ _ _ _ Hm Hlo) as (o' & Hl' & Hs').
    exists o'; split; [done|]; by rewrite (same_shape_library _ _ Hs').
  - intros s l Hsl; destruct (Hs s l) as [e Hl]; [by apply (shape_exact _ _ _ _ Hm' Hsl)|].
    exists e; by apply (shape_exact _ _ _ _ Hm Hl).
  - intros l e Hl; destruct (He l e) as (d & s & Hd & Hds); [by apply (shape_exact _ _ _ _ Hm' Hl)|].
    exists d, s; split; [done|]; by apply (shape_exact _ _ _ _ Hm Hds).
Qed.

(** ** What is owned is allocated *)

Lemma owns_library m held w l :
  accounted m held -> owns m held w l -> exists o, m !! l = Some o /\ is_library o = true.
Proof.
  intros Hacc; destruct w; simpl.
  - apply Hacc.
  - intros H; destruct (acc_slot _ _ Hacc _ _ H) as [e ?]; by exists (BoxedError e).
  - intros [c H]; destruct (acc_err _ _ Hacc _ _ H) as (d & s & [= <-] & ?); by exists (BoxedStr s).
Qed.

Lemma owns_allocated m held w l : accounted m held -> owns m held w l -> m !! l <> None.
Proof. intros Hacc Hw; destruct (owns_library _ _ _ _ Hacc Hw) as (o & -> & _); done. Qed.

(** ** Allocation *)

(** A boxed value or a string. *)
Definition is_plain (o : Object) : bool :=
  match o with Boxed _ | BoxedStr _ => true | _ => false end.

Lemma owns_insert_plain m held w l k o :
  m !! l = None -> is_plain o = true -> owns (<[l := o]> m) ({[l]} ∪ held) w k ->
  (w = OHeld /\ k = l) \/ owns m held w k.
Proof.
  intros Hl Ho; destruct w as [|s|e]; simpl.
  - set_solver.
  - destruct (decide (s = l)) as [->|]; [rewrite lookup_insert_eq; by intros [= ->]|].
    rewrite lookup_insert_ne by done; auto.
  - destruct (decide (e = l)) as [->|]; [rewrite lookup_insert_eq; by intros [c [= ->]]|].
    rewrite lookup_insert_ne by done; auto.
Qed.

Lemma lookup_insert_fresh {A} (m : gmap Loc A) l k x y :
  m !! l = None -> m !! k = Some x -> <[l := y]> m !! k = Some x.
Proof. intros Hl Hk; rewrite lookup_insert_ne; [done|]; congruence. Qed.

Lemma accounted_alloc m held l o :
  m !! l = None -> is_plain o = true -> accounted m held -> accounted (<[l := o]> m) ({[l]} ∪ held).
Proof.
  intros Hl Hp Hacc; pose proof Hacc as [Ho Hu Hh Hs He]; split.
  - intros k o' Hk Hlib; destruct (decide (k = l)) as [->|]; [exists OHeld; simpl; set_solver|].
    rewrite lookup_insert_ne in Hk by done; destruct (Ho k o' Hk Hlib) as [w Hw].
    exists w; destruct w; simpl in *; [set_solver|by apply lookup_insert_fresh|].
    destruct Hw as [c Hw]; exists c; by apply lookup_insert_fresh.
  - intros k w w' H1 H2.
    destruct (owns_insert_plain _ _ _ _ _ _ Hl Hp H1) as [[-> E1]|H1'];
      destruct (owns_insert_plain _ _ _ _ _ _ Hl Hp H2) as [[-> E2]|H2']; [done|..|by eapply Hu]; subst.
    + by destruct (owns_allocated _ _ _ _ Hacc H2').
    + by destruct (owns_allocated _ _ _ _ Hacc H1').
  - intros k Hk; destruct (decide (k = l)) as [->|].
    + exists o; split; [apply lookup_insert_eq|]; by destruct o.
    + destruct (Hh k) as (o' & Hk' & ?); [set_solver|]; exists o'; split; [|done]; by apply lookup_insert_fresh.
  - intros s k Hsk; destruct (decide (s = l)) as [->|]; [rewrite lookup_insert_eq in Hsk; by injection Hsk as ->|].
    rewrite lookup_insert_ne in Hsk by done; destruct (Hs s k Hsk) as [e Hk]; exists e; by apply lookup_insert_fresh.
  - intros k e Hk; destruct (decide (k = l)) as [->|]; [rewrite lookup_insert_eq in Hk; by injection Hk as ->|].
    rewrite lookup_insert_ne in Hk by done; destruct (He k e Hk) as (d & s & ? & Hd); exists d, s; split; [done|].
    by apply lookup_insert_fresh.
Qed.

(** ** Giving back *)

Lemma owns_delete m held w l k :
  owns (delete l m) (held ∖ {[l]}) w k -> owns m held w k /\ w <> OSlot l /\ w <> OErr l /\ (w = OHeld -> k <> l).
Proof.
  destruct w as [|s|e]; simpl.
  - intros Hk; split; [set_solver|]; split; [done|]; split; [done|]; set_solver.
  - intros Hs; destruct (decide (s = l)) as [->|]; [by rewrite lookup_delete_eq in Hs|].
    rewrite lookup_delete_ne in Hs by done; naive_solver.
  - intros [c He]; destruct (decide (e = l)) as [->|]; [by rewrite lookup_delete_eq in He|].
    rewrite lookup_delete_ne in He by done; naive_solver.
Qed.

(** The caller gives back a value or a string. *)
Lemma accounted_free m held l o :
  m !! l = Some o -> is_plain o = true -> l ∈ held -> accounted m held ->
  accounted (delete l m) (held ∖ {[l]}).
Proof.
  intros Hl Hp Hheld Hacc; pose proof Hacc as [Ho Hu Hh Hs He]; split.
  - intros k o' Hk Hlib; destruct (decide (k = l)) as [->|Hkl]; [by rewrite lookup_delete_eq in Hk|].
    rewrite lookup_delete_ne in Hk by done; destruct (Ho k o' Hk Hlib) as [w Hw]; exists w.
    destruct w as [|s|e]; simpl in *; [set_solver|..].
    + rewrite lookup_delete_ne; [done|]; intros ->; simplify_eq; by destruct o.
    + destruct Hw as [c Hw]; exists c; rewrite lookup_delete_ne; [done|]; intros ->; simplify_eq; by destruct o.
  - intros k w w' H1 H2; apply owns_delete in H1 as [H1 _], H2 as [H2 _]; by eapply Hu.
  - intros k Hk; destruct (Hh k) as (o' & Hk' & ?); [set_solver|]; exists o'; split; [|done].
    rewrite lookup_delete_ne; [done|]; set_solver.
  - intros s k Hsk; destruct (decide (s = l)) as [->|]; [by rewrite lookup_delete_eq in Hsk|].
    rewrite lookup_delete_ne in Hsk by done; destruct (Hs s k Hsk) as [e Hk]; exists e.
    rewrite lookup_delete_ne; [done|]; intros ->; by pose proof (Hu k OHeld (OSlot s) Hheld Hsk).
  - intros k e Hk; destruct (decide (k = l)) as [->|]; [by rewrite lookup_delete_eq in Hk|].
    rewrite lookup_delete_ne in Hk by done; destruct (He k e Hk) as (d & s & Hd & Hds); exists d, s; split; [done|].
    rewrite lookup_delete_ne; [done|]; intros ->.
    assert (H : owns m held (OErr k) d) by (destruct e; simpl in *; subst; by eexists).
    by pose proof (Hu d OHeld (OErr k) Hheld H).
Qed.

(** ** Errors *)

(** A new error takes over its description. *)
Lemma accounted_box_error m held l d c s :
  m !! l = None -> m !! d = Some (BoxedStr s) -> d ∈ held -> accounted m held ->
  accounted (<[l := BoxedError (mkMcError c (Some d))]> m) ({[l]} ∪ held ∖ {[d]}).
Proof.
  intros Hl Hd Hheld Hacc; pose proof Hacc as [Ho Hu Hh Hs He].
  assert (Hw : forall w k, owns (<[l := BoxedError (mkMcError c (Some d))]> m) ({[l]} ∪ held ∖ {[d]}) w k ->
    (w = OHeld /\ k = l) \/ (w = OErr l /\ k = d) \/ (w <> OErr l /\ (w = OHeld -> k <> d) /\ owns m held w k)).
  { intros [|s'|e'] k; simpl; [|lookups; eauto|intros [c' Hc']; lookups; eauto 10]; set_solver. }
  assert (Hd' : forall w, owns m held w d -> w = OHeld) by (intros w Hown; by apply (Hu d w OHeld)).
  assert (Hl' : forall w, ~ owns m held w l) by (intros w Hown; by apply (owns_allocated _ _ _ _ Hacc Hown)).
  split.
  - intros k o Hk Hlib; lookups; [exists OHeld; simpl; set_solver|].
    destruct (Ho k o Hk Hlib) as [w Hown]; destruct (decide (k = d)) as [->|].
    + exists (OErr l), c; by rewrite lookup_insert_eq.
    + exists w; destruct w; simpl in *; [set_solver|lookups; congruence|].
      destruct Hown as [c' Hown]; exists c'; lookups; congruence.
  - intros k w w' [[-> ->]|[[-> ->]|(H1 & H1' & H1'')]]%Hw [[-> E]|[[-> E]|(H2 & H2' & H2'')]]%Hw;
      subst; try done; try congruence; try (by destruct (Hl' _ H2'')); try (by destruct (Hl' _ H1'')).
    + by destruct (H2' (Hd' _ H2'')).
    + by destruct (H1' (Hd' _ H1'')).
    + by eapply Hu.
  - intros k Hk; destruct (decide (k = l)) as [->|]; [eexists; split; [apply lookup_insert_eq|done]|].
    destruct (Hh k) as (o & Hk' & ?); [set_solver|]; exists o; by rewrite lookup_insert_ne.
  - intros s' k Hk; rewrite lookup_insert in Hk; case_decide; simplify_eq.
    destruct (Hs s' k Hk) as [e ?]; exists e; by apply lookup_insert_fresh.
  - intros k e Hk; rewrite lookup_insert in Hk; case_decide; simplify_eq.
    + exists d, s; split; [done|]; by apply lookup_insert_fresh.
    + destruct (He k e Hk) as (d' & s' & ? & ?); exists d', s'; split; [done|]; by apply lookup_insert_fresh.
Qed.

(** The caller takes an error out of a variable. *)
Lemma accounted_take m held s e :
  m !! s = Some (CErrorSlot (Some e)) -> accounted m held ->
  accounted (<[s := CErrorSlot None]> m) ({[e]} ∪ held).
Proof.
  intros Hse Hacc; pose proof Hacc as [Ho Hu Hh Hs He].
  assert (Hw : forall w k, owns (<[s := CErrorSlot None]> m) ({[e]} ∪ held) w k ->
    (w = OHeld /\ k = e) \/ (w <> OSlot s /\ owns m held w k)).
  { intros [|s'|e'] k; simpl; [set_solver|lookups; naive_solver|intros [c' Hc']; lookups; naive_solver]. }
  assert (He' : forall w, owns m held w e -> w = OSlot s) by (intros w Hown; by apply (Hu e w (OSlot s))).
  split.
  - intros k o Hk Hlib; lookups; destruct (Ho k o Hk Hlib) as [w Hown]; destruct (decide (k = e)) as [->|].
    + exists OHeld; simpl; set_solver.
    + exists w; destruct w; simpl in *; [set_solver|lookups|destruct Hown as [c' Hown]; exists c'; lookups]; congruence.
  - intros k w w' [[-> ->]|[H1 H1']]%Hw [[-> E]|[H2 H2']]%Hw; subst; try done; try by eapply Hu.
    + by destruct (H2 (He' _ H2')).
    + by destruct (H1 (He' _ H1')).
  - intros k Hk; assert (Hown : exists o, m !! k = Some o /\ is_library o = true).
    { destruct (decide (k = e)) as [->|]; [|apply Hh; set_solver].
      destruct (Hs s e Hse) as [err ?]; by exists (BoxedError err). }
    destruct Hown as (o & Hk' & Hlib); exists o; split; [|done]; lookups.
  - intros s' k Hk; lookups; destruct (Hs s' k Hk) as [err ?]; exists err; lookups.
  - intros k err Hk; lookups; destruct (He k err Hk) as (d & t & ? & ?); exists d, t; split; [done|]; lookups.
Qed.

(** The caller puts an error into a variable. *)
Lemma accounted_put m held s e err :
  m !! s = Some (CErrorSlot None) -> m !! e = Some (BoxedError err) -> e ∈ held -> accounted m held ->
  accounted (<[s := CErrorSlot (Some e)]> m) (held ∖ {[e]}).
Proof.
  intros Hsn Hee Hheld Hacc; pose proof Hacc as [Ho Hu Hh Hs He].
  assert (Hw : forall w k, owns (<[s := CErrorSlot (Some e)]> m) (held ∖ {[e]}) w k ->
    (w = OSlot s /\ k = e) \/ (w <> OSlot s /\ (w = OHeld -> k <> e) /\ owns m held w k)).
  { intros [|s'|e'] k; simpl; [set_solver|lookups; naive_solver|intros [c' Hc']; lookups; naive_solver]. }
  assert (He' : forall w, owns m held w e -> w = OHeld) by (intros w Hown; by apply (Hu e w OHeld)).
  split.
  - intros k o Hk Hlib; lookups; destruct (Ho k o Hk Hlib) as [w Hown]; destruct (decide (k = e)) as [->|].
    + exists (OSlot s); simpl; lookups.
    + exists w; destruct w; simpl in *; [set_solver|lookups; congruence|destruct Hown as [c' Hown]; exists c'; lookups; congruence].
  - intros k w w' [[-> ->]|(H1 & H1' & H1'')]%Hw [[-> E]|(H2 & H2' & H2'')]%Hw; subst; try done; try by eapply Hu.
    + by destruct (H2' (He' _ H2'')).
    + by destruct (H1' (He' _ H1'')).
  - intros k Hk; destruct (Hh k) as (o & Hk' & ?); [set_solver|]; exists o; split; [|done]; lookups.
  - intros s' k Hk; rewrite lookup_insert in Hk; case_decide; simplify_eq; [exists err; lookups|].
    destruct (Hs s' k Hk) as [err' ?]; exists err'; lookups.
  - intros k err' Hk; lookups; destruct (He k err' Hk) as (d & t & ? & ?); exists d, t; split; [done|]; lookups.
Qed.

(** The caller gives back an error, with its description. *)
Lemma accounted_drop_error m held e c d :
  m !! e = Some (BoxedError (mkMcError c (Some d))) -> e ∈ held -> accounted m held ->
  accounted (delete e (delete d m)) (held ∖ {[e]}).
Proof.
  intros Hee Hheld Hacc; pose proof Hacc as [Ho Hu Hh Hs He].
  destruct (He e _ Hee) as (d' & str & [= <-] & Hd).
  assert (Hed : owns m held (OErr e) d) by by exists c.
  assert (Hw : forall w k, owns (delete e (delete d m)) (held ∖ {[e]}) w k -> w <> OErr e /\ (w = OHeld -> k <> e) /\ owns m held w k).
  { intros [|s'|e'] k; simpl; [set_solver|lookups; naive_solver|intros [c' Hc']; lookups; naive_solver]. }
  assert (He' : forall w, owns m held w e -> w = OHeld) by (intros w Hown; by apply (Hu e w OHeld)).
  assert (Hd' : forall w, owns m held w d -> w = OErr e) by (intros w Hown; by apply (Hu d w (OErr e))).
  split.
  - intros k o Hk Hlib; lookups; destruct (Ho k o Hk Hlib) as [w Hown]; exists w.
    destruct w as [|s'|e']; simpl in *; [set_solver|lookups; congruence|].
    destruct Hown as [c' Hown]; exists c'; lookups; congruence.
  - intros k w w' (_ & _ & H1)%Hw (_ & _ & H2)%Hw; by eapply Hu.
  - intros k Hk; destruct (Hh k) as (o & Hk' & ?); [set_solver|]; exists o; split; [|done].
    lookups; [set_solver|]; by assert (OHeld = OErr e) by (apply Hd'; simpl; set_solver).
  - intros s' k Hk; lookups; destruct (Hs s' k Hk) as [err ?]; exists err; lookups.
    by specialize (He' (OSlot s') Hk).
  - intros k err Hk; lookups; destruct (He k err Hk) as (d2 & t & E & ?); exists d2, t; split; [done|]; lookups.
    assert (OErr k = OErr e) as [= ->]; [|done]; apply Hd'; destruct err; simpl in *; subst; by eexists.
Qed.

(** ** The boundary *)

Lemma held_library m held l : accounted m held -> m !! l = None -> l ∉ held.
Proof. intros Hacc Hl Hin; destruct (acc_held _ _ Hacc l Hin) as (o & ? & _); congruence. Qed.

Lemma fresh_none m : m !! fresh (dom m) = None.
Proof. apply not_elem_of_dom, is_fresh. Qed.

Lemma McError_drop_spec m held s o :
  accounted m held -> m !! s = Some (CErrorSlot (Some o)) -> exists c d,
    McError_drop (Some o) m = Returned tt (delete o (delete d m))
    /\ m !! o = Some (BoxedError (mkMcError c (Some d))) /\ is_Some (m !! d).
Proof.
  intros Hacc Hs; destruct (acc_slot _ _ Hacc _ _ Hs) as [[c dp] Ho].
  destruct (acc_err _ _ Hacc _ _ Ho) as (d & str & Hdp & Hd); simpl in Hdp; subst dp.
  exists c, d; split; [|by rewrite Hd].
  unfold McError_drop, mbind, ffi_bind, load; rewrite Ho; simpl.
  unfold mbind, ffi_bind, load; by rewrite Hd.
Qed.

(** Replacing the error of a variable, if it has one, by one that is held. *)
Lemma accounted_assign m held s old e err m1 :
  m !! s = Some (CErrorSlot old) -> m !! e = Some (BoxedError err) -> e ∈ held -> accounted m held ->
  McError_drop old m = Returned tt m1 -> accounted (<[s := CErrorSlot (Some e)]> m1) (held ∖ {[e]}).
Proof.
  intros Hs He Hheld Hacc; destruct old as [o|]; [|intros [= <-]; by eapply accounted_put].
  destruct (McError_drop_spec _ _ _ _ Hacc Hs) as (c & d & -> & Ho & [o' Hd]); intros [= <-].
  assert (Hoe : o <> e) by (intros ->; by pose proof (acc_unique _ _ Hacc e (OSlot s) OHeld Hs Hheld)).
  assert (Hoh : o ∉ held) by (intros Hin; by pose proof (acc_unique _ _ Hacc o (OSlot s) OHeld Hs Hin)).
  destruct (acc_err _ _ Hacc _ _ Ho) as (d' & str & [= <-] & Hd').
  pose proof (accounted_drop_error (<[s := CErrorSlot None]> m) ({[o]} ∪ held) o c d) as Hdrop.
  assert (Hacc1 := accounted_take _ _ _ _ Hs Hacc).
  assert (Hso : s <> o) by congruence; assert (Hsd : s <> d) by congruence.
  rewrite lookup_insert_ne in Hdrop by done; specialize (Hdrop Ho ltac:(set_solver) Hacc1).
  rewrite !delete_insert_ne in Hdrop by done.
  replace (({[o]} ∪ held) ∖ {[o]}) with held in Hdrop by set_solver.
  apply accounted_put with (s := s) (e := e) (err := err) in Hdrop; [|lookups..|done].
  by rewrite insert_insert_eq in Hdrop.
Qed.

(** After an error the variable of the caller, if there is one, owns a new error
    with its code and description. *)
Definition reports m (err : LibMcError) (out_error : Ptr) : Prop :=
  match out_error with
  | None => True
  | Some s => exists e d, m !! s = Some (CErrorSlot (Some e))
      /\ m !! e = Some (BoxedError (mkMcError (error_code err) (Some d)))
      /\ m !! d = Some (BoxedStr (error_description err))
  end.

Lemma set_error_spec m held err out_error :
  accounted m held -> slot_arg m out_error -> exists m', set_error_or_log err out_error m = Returned tt m'
    /\ accounted m' held /\ (0 ∉ error_description err -> reports m' err out_error).
Proof.
  intros Hacc Hslot; destruct out_error as [s|]; [|by exists m].
  destruct Hslot as (o & Hs & [old Ho]); destruct o; try done; injection Ho as ->.
  unfold set_error_or_log, error_handling_ffi_boundary, ffi_boundary_impl, catch_unwind, mbind, ffi_bind; simpl.
  unfold mbind, ffi_bind, load; rewrite Hs; simpl; unfold mc_error_from, McError_new, cstring_new, mbind, ffi_bind.
  case_bool_decide as Hnul; simpl; [by exists m|].
  set (d := fresh (dom m)); set (m1 := <[d := BoxedStr (error_description err)]> m).
  set (e := fresh (dom m1)); set (m2 := <[e := BoxedError (mkMcError (error_code err) (Some d))]> m1).
  assert (Hd : m !! d = None) by apply fresh_none; assert (He : m1 !! e = None) by apply fresh_none.
  assert (Hde : e <> d) by (intros ->; unfold m1 in He; by rewrite lookup_insert_eq in He).
  assert (He0 : m !! e = None) by (unfold m1 in He; by rewrite lookup_insert_ne in He).
  assert (Hacc1 : accounted m1 ({[d]} ∪ held)) by by apply accounted_alloc.
  assert (Hacc2 : accounted m2 ({[e]} ∪ ({[d]} ∪ held) ∖ {[d]})).
  { eapply accounted_box_error; [done|apply lookup_insert_eq|set_solver|done]. }
  pose proof (held_library _ _ _ Hacc Hd); pose proof (held_library _ _ _ Hacc He0).
  replace ({[e]} ∪ ({[d]} ∪ held) ∖ {[d]}) with ({[e]} ∪ held) in Hacc2 by set_solver.
  assert (Hkeep : forall k x, m !! k = Some x -> m2 !! k = Some x).
  { intros k x Hk; apply lookup_insert_fresh; [done|]; by apply lookup_insert_fresh. }
  assert (Hs2 := Hkeep _ _ Hs).
  assert (Hdrop : exists m3, McError_drop old m2 = Returned tt m3 /\ (forall l, m !! l = None -> m3 !! l = m2 !! l)).
  { destruct old as [o|]; [|by exists m2].
    destruct (McError_drop_spec _ _ _ _ Hacc2 Hs2) as (c' & d' & Hrun & Ho & Hd').
    exists (delete o (delete d' m2)); split; [done|]; intros l Hl.
    destruct (McError_drop_spec _ _ _ _ Hacc Hs) as (c0 & d0 & _ & Ho0 & [x0 Hd0]).
    rewrite (Hkeep _ _ Ho0) in Ho; injection Ho as -> ->; rewrite !lookup_delete_ne by congruence; done. }
  destruct Hdrop as (m3 & Hrun & Hm3); rewrite Hrun; simpl; eexists; split; [done|]; split.
  - replace held with (({[e]} ∪ held) ∖ {[e]}) by set_solver.
    eapply accounted_assign; [exact Hs2|apply lookup_insert_eq|set_solver|done|done].
  - intros _; exists e, d; assert (s <> e) by congruence; assert (s <> d) by congruence.
    split; [apply lookup_insert_eq|]; rewrite !lookup_insert_ne by done; rewrite !Hm3 by done.
    unfold m2, m1; split; [apply lookup_insert_eq|]; rewrite lookup_insert_ne by done; apply lookup_insert_eq.
Qed.

Definition held_plus (held : gset Loc) (p : Ptr) : gset Loc :=
  match p with None => held | Some l => {[l]} ∪ held end.

(** A return type either owns nothing or is a pointer to something new. *)
Class Hands (R I : Type) `{!IntoFfi R I} := {
  handed : I -> Ptr;
  handed_error : handed (error_value (R := R)) = None;
  into_ffi_spec : forall a m, exists i m', into_ffi a m = Returned i m' /\
    match handed i with
    | None => m' = m
    | Some l => exists o, m !! l = None /\ is_plain o = true /\ m' = <[l := o]> m
    end;
}.

#[export] Instance hands_unit : Hands unit unit.
Proof. refine {| handed := fun _ => None |}; [done|]; intros [] m; by eexists _, _. Defined.
#[export] Instance hands_success : Hands unit bool.
Proof. refine {| handed := fun _ => None |}; [done|]; intros [] m; by eexists _, _. Defined.
#[export] Instance hands_int : Hands Z Z.
Proof. refine {| handed := fun _ => None |}; [done|]; intros z m; by eexists _, _. Defined.
#[export] Instance hands_handle : Hands Handle Ptr.
Proof.
  refine {| handed := fun p => p |}; [done|]; intros h m; eexists _, _; split; [done|].
  exists (Boxed h); split; [apply fresh_none|done].
Defined.
#[export] Instance hands_str : Hands bytes Ptr.
Proof.
  refine {| handed := fun p => p |}; [done|]; intros s m; eexists _, _; split; [done|].
  exists (BoxedStr s); split; [apply fresh_none|done].
Defined.

Lemma into_ffi_accounted {R I} `{!IntoFfi R I, !Hands R I} a m held : accounted m held ->
  exists i m', into_ffi a m = Returned i m' /\ accounted m' (held_plus held (handed i)).
Proof.
  intros Hacc; destruct (into_ffi_spec a m) as (i & m' & Hrun & Hi); exists i, m'; split; [done|].
  destruct (handed i) as [l|]; simpl; [|by subst].
  destruct Hi as (o & Hl & Ho & ->); by apply accounted_alloc.
Qed.

Lemma boundary_accounted {R I} `{!IntoFfi R I, !Hands R I} m held (f : ffi R) Q :
  accounted m held -> ffi_post m f Q -> exists i m',
    ffi_boundary f m = Returned i m' /\ accounted m' (held_plus held (handed i)).
Proof.
  intros Hacc Hf; unfold ffi_boundary, ffi_boundary_impl, catch_unwind, mbind, ffi_bind.
  specialize (Hf m (reflexivity m)); destruct (f m) as [a m1|m1|]; [|clear Q|done].
  - destruct Hf as [Hm _]; pose proof (accounted_shape _ _ _ Hm Hacc) as Hacc1.
    destruct (into_ffi_accounted a m1 held Hacc1) as (i & m' & -> & Hacc'); simpl; eauto.
  - exists error_value, m1; split; [done|]; rewrite handed_error; by eapply accounted_shape.
Qed.

Lemma slot_shape m m' p : shape m m' -> slot_arg m p -> slot_arg m' p.
Proof.
  intros Hm; destruct p as [l|]; [|done]; intros (o & Hl & Ho); exists o; split; [|done].
  apply (shape_exact _ _ _ _ Hm Hl); destruct o; try done; by destruct Ho.
Qed.

(** The body fails with an error: it returned it, or it panicked. *)
Definition fails {R} (f : ffi (result R LibMcError)) m (err : LibMcError) : Prop :=
  (exists m1, f m = Returned (Err err) m1) \/ (exists m1, f m = Unwinds m1 /\ err = LibPanic fmt_any).

Lemma boundary_error_accounted {R I} `{!IntoFfi R I, !Hands R I} m held out_error
  (f : ffi (result R LibMcError)) Q :
  accounted m held -> slot_arg m out_error -> ffi_post m f Q -> exists i m',
    ffi_boundary_with_error out_error f m = Returned i m' /\ accounted m' (held_plus held (handed i))
    /\ (forall err, fails f m err -> i = error_value /\ (0 ∉ error_description err -> reports m' err out_error)).
Proof.
  intros Hacc Hslot Hf; unfold ffi_boundary_with_error, ffi_boundary_impl, catch_unwind, mbind, ffi_bind.
  specialize (Hf m (reflexivity m)); unfold fails; destruct (f m) as [[a|err] m1|m1|]; [..|done].
  - destruct Hf as [Hm _]; pose proof (accounted_shape _ _ _ Hm Hacc) as Hacc1.
    destruct (into_ffi_accounted a m1 held Hacc1) as (i & m' & -> & Hacc'); simpl.
    exists i, m'; split; [done|]; split; [done|]; naive_solver.
  - destruct Hf as [Hm _]; pose proof (accounted_shape _ _ _ Hm Hacc) as Hacc1.
    simpl; unfold mbind, ffi_bind.
    destruct (set_error_spec m1 held err out_error Hacc1 (slot_shape _ _ _ Hm Hslot)) as (m' & -> & Hacc' & Hr); simpl.
    eexists _, m'; split; [done|]; rewrite handed_error; split; [done|]; naive_solver.
  - pose proof (accounted_shape _ _ _ Hf Hacc) as Hacc1.
    simpl; unfold mbind, ffi_bind.
    destruct (set_error_spec m1 held (LibPanic fmt_any) out_error Hacc1 (slot_shape _ _ _ Hf Hslot)) as (m' & -> & Hacc' & Hr); simpl.
    eexists _, m'; split; [done|]; rewrite handed_error; split; [done|]; naive_solver.
Qed.
End account.
