(* ===== verification/LibMc.v ===== *)
(** * The C interface of the mobile library (src/libmobilecoin/src)

    The types behind the pointers and the functions of fog.rs, crypto.rs,
    keys.rs, encodings.rs, bip39.rs, slip10.rs and common/data.rs.  Curves,
    hashes, account keys, mnemonics, encodings and attestation come from other
    crates and are parameters ([McCrates]); the rngs of a fog user are those of
    [KexRng]. *)

From Stdlib Require Import String.
From S2P Require Import Prelude FogTypes KexRng Ffi.

Local Open Scope Z_scope.
Local Open Scope fog_scope.

(** ** Random numbers (common/rng.rs) *)

(** The callback of a caller changes its context; [McRng] is the generator of
    the system. *)
Class RngTypes := {
  RngContext : Type;
  McRngState : Type;
  mc_rng_next_u64 : McRngState -> Z * McRngState;
  mc_rng_next_u32 : McRngState -> Z * McRngState;
}.

Record McRngCallback `{R : RngTypes} := mkMcRngCallback {
  cb_rng : RngContext -> Z * RngContext;
  cb_context : RngContext;
}.

Inductive SdkRng `{R : RngTypes} :=
| CallbackRng (callback : McRngCallback)
| McRng (state : McRngState).

Section rng.
Context `{R : RngTypes}.

Definition callback_next_u64 (self : McRngCallback) : Z * McRngCallback :=
  let '(n, context) := cb_rng self (cb_context self) in
  (n, mkMcRngCallback _ (cb_rng self) context).

Definition callback_next_u32 (self : McRngCallback) : Z * McRngCallback :=
  let '(n, self) := callback_next_u64 self in (as_u32 n, self).

Definition sdk_next_u64 (self : SdkRng) : Z * SdkRng :=
  match self with
  | CallbackRng rng => let '(n, rng) := callback_next_u64 rng in (n, CallbackRng rng)
  | McRng rng => let '(n, rng) := mc_rng_next_u64 rng in (n, McRng rng)
  end.

Definition sdk_next_u32 (self : SdkRng) : Z * SdkRng :=
  match self with
  | CallbackRng rng => let '(n, rng) := callback_next_u32 rng in (n, CallbackRng rng)
  | McRng rng => let '(n, rng) := mc_rng_next_u32 rng in (n, McRng rng)
  end.
End rng.

(** ** Other crates *)

(** Errors, as far as the library tells them apart. *)
Inductive CryptoBoxError := WrongMagicBytes | UnknownAlgorithm (n : Z) | CryptoBoxOther (e : Z).
Inductive CipherError := CipherErrorAead | CipherOther (e : Z).
Inductive AttestAkeError := AkeReportVerification (e : Z) | AkeOther (e : Z).
Inductive TxBuilderError := TxFogVerification (e : Z) | TxBuilderOther (e : Z).

(** A generator that is used: the result and the generator after it. *)
Abbreviation drawn R A := (SdkRng (R := R) -> A * SdkRng (R := R)).

Class McCrates `{K : Kex} `{R : RngTypes} := {
  mc_fmt_any : bytes;
  mc_fmt_debug : forall E : Type, E -> bytes;
  mc_fmt_display : forall E : Type, E -> bytes;
  (* keys *)
  public_eq_dec :: EqDecision Public;
  private_try_from : bytes -> result Private KeyError;
  private_bytes : Private -> bytes;
  blake2b : bytes -> bytes;
  stored_rng_encode : StoredRng -> bytes;
  stored_rng_decode : bytes -> result StoredRng Z;
  (* crypto box *)
  box_encrypt : Public -> bytes -> drawn R (result bytes Z);
  box_decrypt : Private -> bytes -> result (bool * bytes) CryptoBoxError;
  box_footer_size : Z;
  (* account keys *)
  AccountKey : Type;
  PublicAddress : Type;
  account_key_new : Private -> Private -> AccountKey;
  account_key_new_with_fog : Private -> Private -> bytes -> bytes -> bytes -> AccountKey;
  account_view_private_key : AccountKey -> Private;
  account_spend_private_key : AccountKey -> Private;
  subaddress_view_private : AccountKey -> Z -> Private;
  subaddress_spend_private : AccountKey -> Z -> Private;
  subaddress : AccountKey -> Z -> PublicAddress;
  address_view_public_key : PublicAddress -> Public;
  address_spend_public_key : PublicAddress -> Public;
  address_fog_authority_sig : PublicAddress -> option bytes;
  public_address_new : Public -> Public -> PublicAddress;
  public_address_new_with_fog : Public -> Public -> bytes -> bytes -> bytes -> PublicAddress;
  (* encodings and mnemonics *)
  PrintableWrapper : Type;
  wrapper_parse : bytes -> result PrintableWrapper Z;
  wrapper_write : PrintableWrapper -> result bytes Z;
  b58_encode : PrintableWrapper -> result bytes Z;
  b58_decode : bytes -> result PrintableWrapper Z;
  Mnemonic : Type;
  mnemonic_from_entropy : bytes -> result Mnemonic Z;
  mnemonic_from_phrase : bytes -> result Mnemonic Z;
  mnemonic_to_string : Mnemonic -> bytes;
  mnemonic_entropy : Mnemonic -> bytes;
  get_words_by_prefix : bytes -> list bytes;
  slip10_account_key : Mnemonic -> Z -> AccountKey;
  (* fog reports *)
  FogReportResponse : Type;
  report_response_decode : bytes -> result FogReportResponse Z;
  FogUri : Type;
  fog_uri_from_str : bytes -> result FogUri Z;
  fog_uri_to_string : FogUri -> bytes;
  (* attestation *)
  MrEnclaveVerifier : Type;
  MrSignerVerifier : Type;
  Verifier : Type;
  mr_enclave_verifier_new : bytes -> MrEnclaveVerifier;
  mr_enclave_allow_config_advisory : bytes -> MrEnclaveVerifier -> MrEnclaveVerifier;
  mr_enclave_allow_hardening_advisory : bytes -> MrEnclaveVerifier -> MrEnclaveVerifier;
  mr_signer_verifier_new : bytes -> Z -> Z -> MrSignerVerifier;
  mr_signer_allow_config_advisory : bytes -> MrSignerVerifier -> MrSignerVerifier;
  mr_signer_allow_hardening_advisory : bytes -> MrSignerVerifier -> MrSignerVerifier;
  verifier_default : Verifier;
  verifier_debug : bool -> Verifier -> Verifier;
  DEBUG_ENCLAVE : bool;
  verifier_mr_enclave : MrEnclaveVerifier -> Verifier -> Verifier;
  verifier_mr_signer : MrSignerVerifier -> Verifier -> Verifier;
  ResponderId : Type;
  responder_id_from_str : bytes -> result ResponderId Z;
  responder_id_to_string : ResponderId -> bytes;
  AuthPending : Type;
  Ready : Type;
  ake_initiate : bytes -> drawn R (result (AuthPending * bytes) Z);
  ake_finish : AuthPending -> bytes -> Verifier -> result Ready AttestAkeError;
  ready_binding : Ready -> bytes;
  ready_encrypt : Ready -> bytes -> bytes -> result bytes CipherError * Ready;
  ready_decrypt : Ready -> bytes -> bytes -> result bytes CipherError * Ready;
  ciphertext_len : Z -> Z;
  (* transactions *)
  MaskedAmount : Type;
  masked_amount_new : bytes -> Z -> MaskedAmount;
  amount_get_value : MaskedAmount -> Public -> result (Z * Private) Z;
  get_tx_out_shared_secret : Private -> Public -> Public;
  recover_onetime_private_key : Public -> Private -> Private -> Private;
  recover_public_subaddress_spend_key : Private -> Public -> Public -> Public;
  key_image_from : Private -> bytes;
  confirmation_validate : bytes -> Public -> Private -> bool;
  TxOut : Type;
  TxOutMembershipProof : Type;
  tx_out_decode : bytes -> result TxOut Z;
  tx_out_encode : TxOut -> bytes;
  proof_decode : bytes -> result TxOutMembershipProof Z;
  tx_out_target_key : TxOut -> bytes;
  tx_out_public_key : TxOut -> bytes;
  FogResolver : Type;
  fog_resolver_default : FogResolver;
  fog_resolver_new : gmap (list Z) FogReportResponse -> Verifier -> result FogResolver Z;
  InputCredentials : Type;
  input_credentials_new : list TxOut -> list TxOutMembershipProof -> Z -> Private -> Private -> result InputCredentials Z;
  TransactionBuilder : Type;
  tx_builder_new : FogResolver -> TransactionBuilder;
  tx_builder_set_fee : Z -> TransactionBuilder -> TransactionBuilder;
  tx_builder_set_tombstone_block : Z -> TransactionBuilder -> TransactionBuilder;
  tx_builder_add_input : InputCredentials -> TransactionBuilder -> TransactionBuilder;
  tx_builder_add_output : TransactionBuilder -> Z -> PublicAddress
    -> drawn R (result (TxOut * bytes) TxBuilderError * TransactionBuilder);
  tx_builder_add_output_with_hint : TransactionBuilder -> Z -> PublicAddress -> PublicAddress
    -> drawn R (result (TxOut * bytes) TxBuilderError * TransactionBuilder);
  Tx : Type;
  tx_encode : Tx -> bytes;
  tx_builder_build : TransactionBuilder -> drawn R (result Tx TxBuilderError);
}.

(** ** What pointers point to *)

(** attest.rs: the states of a handshake. *)
Inductive AttestAke `{C : McCrates} :=
| NotAttested
| AkeAuthPending (auth_pending : AuthPending)
| Attested (ready : Ready).

Inductive McHandle `{C : McCrates} :=
| HRng (rng : VersionedKexRng)
| HResolver (resolver : gmap (list Z) FogReportResponse * Verifier)
| HMrEnclave (verifier : MrEnclaveVerifier)
| HMrSigner (verifier : MrSignerVerifier)
| HVerifier (verifier : Verifier)
| HAke (ake : AttestAke)
| HRing (ring : list (TxOut * TxOutMembershipProof))
| HBuilder (builder : option TransactionBuilder)
| HData (data : bytes).

Inductive McKind := KRng | KResolver | KMrEnclave | KMrSigner | KVerifier | KAke | KRing | KBuilder | KData.

Definition mc_kind `{C : McCrates} (h : McHandle) : McKind :=
  match h with
  | HRng _ => KRng | HResolver _ => KResolver | HMrEnclave _ => KMrEnclave | HMrSigner _ => KMrSigner
  | HVerifier _ => KVerifier | HAke _ => KAke | HRing _ => KRing | HBuilder _ => KBuilder | HData _ => KData
  end.

(** keys.rs, transaction.rs: the structs of C. *)
Record McAccountKey := mkMcAccountKey {
  ak_view_private_key : Ptr;
  ak_spend_private_key : Ptr;
  ak_fog_info : Ptr;
}.
Record McAccountKeyFogInfo := mkMcAccountKeyFogInfo {
  akf_report_url : Ptr;
  akf_report_id : Ptr;
  akf_authority_spki : Ptr;
}.
Record McPublicAddress := mkMcPublicAddress {
  pa_view_public_key : Ptr;
  pa_spend_public_key : Ptr;
  pa_fog_info : Ptr;
}.
Record McPublicAddressFogInfo := mkMcPublicAddressFogInfo {
  paf_report_url : Ptr;
  paf_report_id : Ptr;
  paf_authority_sig : Ptr;
}.
Record McTxOutAmount := mkMcTxOutAmount {
  ta_commitment : Ptr;
  ta_masked_value : Z;
}.

Inductive McStruct :=
| SAccountKey (s : McAccountKey)
| SAccountKeyFogInfo (s : McAccountKeyFogInfo)
| SPublicAddress (s : McPublicAddress)
| SPublicAddressFogInfo (s : McPublicAddressFogInfo)
| STxOutAmount (s : McTxOutAmount).

#[export] Instance libmc_types `{C : McCrates} : FfiTypes := {|
  Handle := McHandle;
  Kind := McKind;
  kind := mc_kind;
  Struct := McStruct;
  Callback := McRngCallback;
  fmt_any := mc_fmt_any;
  fmt_debug := mc_fmt_debug;
  fmt_display := mc_fmt_display;
|}.

Section libmc.
Context `{C : McCrates}.

Definition as_rng (h : McHandle) := match h with HRng x => Some x | _ => None end.
Definition as_resolver (h : McHandle) := match h with HResolver x => Some x | _ => None end.
Definition as_mr_enclave (h : McHandle) := match h with HMrEnclave x => Some x | _ => None end.
Definition as_mr_signer (h : McHandle) := match h with HMrSigner x => Some x | _ => None end.
Definition as_verifier (h : McHandle) := match h with HVerifier x => Some x | _ => None end.
Definition as_ake (h : McHandle) := match h with HAke x => Some x | _ => None end.
Definition as_ring (h : McHandle) := match h with HRing x => Some x | _ => None end.
Definition as_builder (h : McHandle) := match h with HBuilder x => Some x | _ => None end.
Definition as_data (h : McHandle) := match h with HData x => Some x | _ => None end.

Definition as_account_key (s : McStruct) := match s with SAccountKey x => Some x | _ => None end.
Definition as_account_key_fog (s : McStruct) := match s with SAccountKeyFogInfo x => Some x | _ => None end.
Definition as_public_address (s : McStruct) := match s with SPublicAddress x => Some x | _ => None end.
Definition as_public_address_fog (s : McStruct) := match s with SPublicAddressFogInfo x => Some x | _ => None end.
Definition as_tx_out_amount (s : McStruct) := match s with STxOutAmount x => Some x | _ => None end.

Definition ref_handle {A} (as_type : McHandle -> option A) (p : Ptr) : ffi A :=
  FfiRefPtr_as_ref (as_handle as_type) p.
Definition mut_handle {A} (as_type : McHandle -> option A) (p : Ptr) : ffi (Loc * A) :=
  FfiMutPtr_into_mut (as_handle as_type) p.
Definition set_handle (l : Loc) (h : McHandle) : ffi unit := store l (Boxed h).

(** ** error.rs: errors of other crates *)

Definition from_aead_error (err : Z) : LibMcError := LibAead (fmt_debug err).
Definition from_amount_error (err : Z) : LibMcError := LibTransactionCrypto (fmt_debug err).
Definition from_api_display_error (err : Z) : LibMcError := LibInvalidInput (fmt_debug err).
Definition from_attest_ake_error (err : AttestAkeError) : LibMcError :=
  match err with
  | AkeReportVerification _ => LibAttestationVerificationFailed (fmt_debug err)
  | _ => LibInvalidInput (fmt_debug err)
  end.
Definition from_cipher_error (err : CipherError) : LibMcError :=
  match err with
  | CipherErrorAead => LibAead (fmt_debug err)
  | _ => LibCipher (fmt_debug err)
  end.
Definition from_crypto_box_error (err : CryptoBoxError) : LibMcError :=
  match err with
  | WrongMagicBytes | UnknownAlgorithm _ => LibUnsupportedCryptoBoxVersion (fmt_debug err)
  | _ => LibInvalidInput (fmt_debug err)
  end.
Definition from_decode_error (err : Z) : LibMcError := LibInvalidInput (fmt_debug err).
Definition from_kex_rng_error (err : KexRngError) : LibMcError :=
  match err with
  | UnknownVersion _ => LibUnsupportedCryptoBoxVersion (fmt_debug err)
  | _ => LibInvalidInput (fmt_debug err)
  end.
Definition from_protobuf_error (err : Z) : LibMcError := LibInvalidInput (fmt_debug err).
Definition from_tx_builder_error (err : TxBuilderError) : LibMcError :=
  match err with
  | TxFogVerification _ => LibAttestationVerificationFailed (fmt_debug err)
  | _ => LibInvalidInput (fmt_debug err)
  end.

(** ** Output buffers *)

(** [out.into_mut().as_slice_mut_of_len(len).expect(..)] *)
Definition out_slice (out : Ptr) (len : nat) : ffi SliceMut :=
  '(_, b) ← FfiMutPtr_into_mut as_buffer out;
  slice ← as_slice_mut_of_len b len;
  expect slice.

(** ... followed by [copy_from_slice] of a value of that length. *)
Definition write_out (out : Ptr) (src : bytes) : ffi unit :=
  slice ← out_slice out (length src); copy_from_slice slice src.

(** The same for an output that may be null. *)
Definition write_out_opt (out : Ptr) (src : bytes) : ffi unit :=
  match FfiOptMutPtr_into_option out with
  | Some out => write_out out src
  | None => mret tt
  end.

(** [ssize_t::ffi_try_from(bytes.len()).expect(..)] *)
Definition ssize_len (src : bytes) : ffi Z := expect (ssize_try_from (Z.of_nat (length src))).

Definition ref_buffer (p : Ptr) : ffi McBuffer := FfiRefPtr_as_ref as_buffer p.

(** A slice of all of a buffer. *)
Definition slice_arg (p : Ptr) : ffi bytes := b ← ref_buffer p; as_slice b.

(** ** crypto.rs *)

Definition public_try_from_ffi (src : McBuffer) : ffi (result Public LibMcError) :=
  src ←? bytes32_try_from_ffi src;
  mret (map_err (fun err => LibInvalidInput (fmt_debug err)) (public_try_from src)).

Definition private_try_from_ffi (src : McBuffer) : ffi (result Private LibMcError) :=
  src ←? bytes32_try_from_ffi src;
  mret (map_err (fun err => LibInvalidInput (fmt_debug err)) (private_try_from src)).

Definition public_arg (p : Ptr) : ffi (result Public LibMcError) :=
  b ← ref_buffer p; public_try_from_ffi b.
Definition private_arg (p : Ptr) : ffi (result Private LibMcError) :=
  b ← ref_buffer p; private_try_from_ffi b.
(** [RistrettoPrivate::try_from_ffi(&key).expect(..)] *)
Definition private_expect (p : Ptr) : ffi Private := r ← private_arg p; expect r.

(** [*out = value]; the reference is taken after the value is computed. *)
Definition set_bool (out : Ptr) (b : bool) : ffi unit :=
  '(l, _) ← FfiMutPtr_into_mut as_bool out; store l (CBool b).

Definition mc_ristretto_private_validate (ristretto_private out_valid : Ptr) : ffi bool :=
  ffi_boundary (R := unit) (I := bool) (
    valid ← private_arg ristretto_private;
    set_bool out_valid (is_ok valid)).

Definition mc_ristretto_public_from_ristretto_private (ristretto_private out_ristretto_public : Ptr)
  : ffi bool :=
  ffi_boundary (R := unit) (I := bool) (
    ristretto_private ← private_expect ristretto_private;
    out_ristretto_public ← out_slice out_ristretto_public 32;
    copy_from_slice out_ristretto_public (private_bytes ristretto_private)).

Definition mc_ristretto_public_validate (ristretto_public out_valid : Ptr) : ffi bool :=
  ffi_boundary (R := unit) (I := bool) (
    valid ← public_arg ristretto_public;
    set_bool out_valid (is_ok valid)).

(** [SdkRng::from_ffi], and the use of the generator; [mc_rng] is the state of
    the system's generator at the call. *)
Definition with_sdk_rng {A} (rng_callback : Ptr) (mc_rng : McRngState) (f : SdkRng -> A * SdkRng) : ffi A :=
  callback ← FfiOptMutPtr_into_mut as_callback rng_callback;
  match callback with
  | Some (l, callback) =>
      let '(a, rng) := f (CallbackRng callback) in
      match rng with
      | CallbackRng callback => store l (CCallback callback)
      | McRng _ => mret tt
      end;; mret a
  | None => mret (fst (f (McRng mc_rng)))
  end.

Definition mc_versioned_crypto_box_encrypt (mc_rng : McRngState)
  (public_key plaintext rng_callback out_ciphertext out_error : Ptr) : ffi Z :=
  ffi_boundary_with_error (R := Z) out_error (
    match FfiOptMutPtr_into_option out_ciphertext with
    | Some out_ciphertext =>
        public_key ← public_arg public_key;
        public_key ← expect public_key;
        plaintext ← slice_arg plaintext;
        ciphertext ← with_sdk_rng rng_callback mc_rng (box_encrypt public_key plaintext);
        try_ (map_err from_aead_error ciphertext) (fun ciphertext =>
          write_out out_ciphertext ciphertext;;
          n ← ssize_len ciphertext;
          mret (Ok n))
    | None =>
        plaintext ← ref_buffer plaintext;
        n ← expect (ssize_try_from (mb_len plaintext +w box_footer_size));
        mret (Ok n)
    end).

Definition mc_versioned_crypto_box_decrypt (private_key ciphertext out_plaintext out_error : Ptr) : ffi Z :=
  ffi_boundary_with_error (R := Z) out_error (
    private_key ← private_expect private_key;
    ciphertext ← slice_arg ciphertext;
    try_ (map_err from_crypto_box_error (box_decrypt private_key ciphertext)) (fun '(success, plaintext) =>
      if negb success then mret (Err (LibAead (ascii_bytes "MAC failed")))
      else
        write_out out_plaintext plaintext;;
        n ← ssize_len plaintext;
        mret (Ok n))).

(** ** common/data.rs *)

Definition mc_data_free (data : Ptr) : ffi unit := ffi_boundary (R := unit) (I := unit) (FfiOptOwnedPtr_drop as_data data).

Definition mc_data_get_bytes (data out_bytes : Ptr) : ffi Z :=
  ffi_boundary (R := Z) (
    match FfiOptMutPtr_into_option out_bytes with
    | Some out_bytes =>
        '(_, b) ← FfiMutPtr_into_mut as_buffer out_bytes;
        data ← ref_handle as_data data;
        slice ← as_slice_mut_of_len b (length data);
        slice ← expect slice;
        copy_from_slice slice data
    | None => mret tt
    end;;
    data ← ref_handle as_data data;
    ssize_len data).

(** ** fog.rs *)

Definition mc_fog_resolver_create (fog_report_verifier : Ptr) : ffi Ptr :=
  ffi_boundary (R := McHandle) (
    verifier ← ref_handle as_verifier fog_report_verifier;
    mret (HResolver (∅, verifier))).

Definition mc_fog_resolver_free (fog_resolver : Ptr) : ffi unit :=
  ffi_boundary (R := unit) (I := unit) (FfiOptOwnedPtr_drop as_resolver fog_resolver).

Definition mc_fog_resolver_add_report_response (fog_resolver report_url report_response out_error : Ptr)
  : ffi bool :=
  ffi_boundary_with_error (R := unit) out_error (
    report_url ← str_try_from_ffi report_url;
    report_url ← expect report_url;
    report_url ← expect (fog_uri_from_str report_url);
    let report_url := fog_uri_to_string report_url in
    report_response ← slice_arg report_response;
    try_ (map_err from_decode_error (report_response_decode report_response)) (fun report_response =>
      '(l, resolver) ← mut_handle as_resolver fog_resolver;
      set_handle l (HResolver (<[report_url := report_response]> resolver.1, resolver.2));;
      mret (Ok tt))).

Definition mc_fog_rng_create (subaddress_view_private_key rng_public_key : Ptr) (rng_version : Z)
  (out_error : Ptr) : ffi Ptr :=
  ffi_boundary_with_error (R := McHandle) out_error (
    subaddress_view_private_key ← private_expect subaddress_view_private_key;
    public_key ← slice_arg rng_public_key;
    let pubkey := mkKexRngPubkey public_key rng_version in
    try_ (map_err from_kex_rng_error
            (versioned_try_from_kex_pubkey blake2b pubkey subaddress_view_private_key))
      (fun rng => mret (Ok (HRng rng)))).

Definition mc_fog_rng_free (fog_rng : Ptr) : ffi unit :=
  ffi_boundary (R := unit) (I := unit) (FfiOptOwnedPtr_drop as_rng fog_rng).

Definition mc_fog_rng_clone (fog_rng : Ptr) : ffi Ptr :=
  ffi_boundary (R := McHandle) (rng ← ref_handle as_rng fog_rng; mret (HRng rng)).

Definition mc_fog_rng_serialize_proto (fog_rng out_fog_rng_proto_bytes : Ptr) : ffi Z :=
  ffi_boundary (R := Z) (
    rng ← ref_handle as_rng fog_rng;
    let encoded := stored_rng_encode (versioned_into_stored blake2b rng) in
    write_out_opt out_fog_rng_proto_bytes encoded;;
    ssize_len encoded).

Definition mc_fog_rng_deserialize_proto (fog_rng_proto_bytes out_error : Ptr) : ffi Ptr :=
  ffi_boundary_with_error (R := McHandle) out_error (
    proto_bytes ← slice_arg fog_rng_proto_bytes;
    try_ (map_err (fun err => LibInvalidInput (fmt_debug err)) (stored_rng_decode proto_bytes)) (fun stored =>
      try_ (map_err from_kex_rng_error (versioned_try_from_stored blake2b stored)) (fun rng =>
        mret (Ok (HRng rng))))).

Definition mc_fog_rng_index (fog_rng : Ptr) : ffi Z :=
  ffi_boundary (R := Z) (rng ← ref_handle as_rng fog_rng; expect (i64_try_from (rng_index rng))).

Definition mc_fog_rng_get_output_len (fog_rng : Ptr) : ffi Z :=
  ffi_boundary (R := Z) (rng ← ref_handle as_rng fog_rng; ssize_len (peek rng)).

Definition mc_fog_rng_peek (fog_rng out_output : Ptr) : ffi bool :=
  ffi_boundary (R := unit) (I := bool) (rng ← ref_handle as_rng fog_rng; write_out out_output (peek rng)).

Definition mc_fog_rng_advance (fog_rng out_output : Ptr) : ffi bool :=
  ffi_boundary (R := unit) (I := bool) (
    match FfiOptMutPtr_into_option out_output with
    | Some out_output => rng ← ref_handle as_rng fog_rng; write_out out_output (peek rng)
    | None => mret tt
    end;;
    '(l, rng) ← mut_handle as_rng fog_rng;
    set_handle l (HRng (advance blake2b rng))).

(** ** keys.rs *)

Definition account_key_try_from_ffi (src : McAccountKey) : ffi (result AccountKey LibMcError) :=
  view_private_key ←? private_arg (ak_view_private_key src);
  spend_private_key ←? private_arg (ak_spend_private_key src);
  fog_info ← FfiOptRefPtr_as_ref (as_struct as_account_key_fog) (ak_fog_info src);
  match fog_info with
  | Some fog_info =>
      report_url ←? str_try_from_ffi (akf_report_url fog_info);
      report_id ←? str_try_from_ffi (akf_report_id fog_info);
      spki ← slice_arg (akf_authority_spki fog_info);
      mret (Ok (account_key_new_with_fog spend_private_key view_private_key report_url report_id spki))
  | None => mret (Ok (account_key_new spend_private_key view_private_key))
  end.

Definition mc_account_key_get_subaddress_private_keys (view_private_key spend_private_key : Ptr)
  (subaddress_index : Z) (out_subaddress_view_private_key out_subaddress_spend_private_key : Ptr) : ffi bool :=
  ffi_boundary (R := unit) (I := bool) (
    view_private_key ← private_expect view_private_key;
    spend_private_key ← private_expect spend_private_key;
    let account_key := account_key_new spend_private_key view_private_key in
    out_view ← out_slice out_subaddress_view_private_key 32;
    out_spend ← out_slice out_subaddress_spend_private_key 32;
    copy_from_slice out_view (private_bytes (subaddress_view_private account_key subaddress_index));;
    copy_from_slice out_spend (private_bytes (subaddress_spend_private account_key subaddress_index))).

Definition mc_account_key_get_public_address_public_keys (view_private_key spend_private_key : Ptr)
  (subaddress_index : Z) (out_subaddress_view_public_key out_subaddress_spend_public_key : Ptr) : ffi bool :=
  ffi_boundary (R := unit) (I := bool) (
    view_private_key ← private_expect view_private_key;
    spend_private_key ← private_expect spend_private_key;
    let account_key := account_key_new spend_private_key view_private_key in
    out_view ← out_slice out_subaddress_view_public_key 32;
    out_spend ← out_slice out_subaddress_spend_public_key 32;
    let public_address := subaddress account_key subaddress_index in
    copy_from_slice out_view (public_to_bytes (address_view_public_key public_address));;
    copy_from_slice out_spend (public_to_bytes (address_spend_public_key public_address))).

Definition mc_account_key_get_public_address_fog_authority_sig (account_key : Ptr) (subaddress_index : Z)
  (out_fog_authority_sig : Ptr) : ffi bool :=
  ffi_boundary (R := unit) (I := bool) (
    account_key ← FfiRefPtr_as_ref (as_struct as_account_key) account_key;
    account_key ← account_key_try_from_ffi account_key;
    account_key ← expect account_key;
    let public_address := subaddress account_key subaddress_index in
    fog_authority_sig ← expect_some (address_fog_authority_sig public_address);
    write_out out_fog_authority_sig fog_authority_sig).

Definition public_address_try_from_ffi (src : McPublicAddress) : ffi (result PublicAddress LibMcError) :=
  view_public_key ←? public_arg (pa_view_public_key src);
  spend_public_key ←? public_arg (pa_spend_public_key src);
  fog_info ← FfiOptRefPtr_as_ref (as_struct as_public_address_fog) (pa_fog_info src);
  match fog_info with
  | Some fog_info =>
      report_url ←? str_try_from_ffi (paf_report_url fog_info);
      report_id ←? str_try_from_ffi (paf_report_id fog_info);
      authority_sig ← slice_arg (paf_authority_sig fog_info);
      mret (Ok (public_address_new_with_fog spend_public_key view_public_key report_url report_id authority_sig))
  | None => mret (Ok (public_address_new spend_public_key view_public_key))
  end.

(** ** encodings.rs *)

Definition mc_printable_wrapper_b58_encode (printable_wrapper_proto_bytes : Ptr) : ffi Ptr :=
  ffi_boundary (R := bytes) (
    proto_bytes ← slice_arg printable_wrapper_proto_bytes;
    printable_wrapper ← expect (wrapper_parse proto_bytes);
    encoded ← expect (b58_encode printable_wrapper);
    expect (owned_str_try_from encoded)).

Definition mc_printable_wrapper_b58_decode
  (b58_encoded_string out_printable_wrapper_proto_bytes out_error : Ptr) : ffi Z :=
  ffi_boundary_with_error (R := Z) out_error (
    b58_encoded_string ← str_try_from_ffi b58_encoded_string;
    b58_encoded_string ← expect b58_encoded_string;
    try_ (map_err from_api_display_error (b58_decode b58_encoded_string)) (fun printable_wrapper =>
    try_ (map_err from_protobuf_error (wrapper_write printable_wrapper)) (fun wrapper_bytes =>
      write_out_opt out_printable_wrapper_proto_bytes wrapper_bytes;;
      n ← ssize_len wrapper_bytes;
      mret (Ok n)))).

(** ** bip39.rs *)

Definition mc_bip39_mnemonic_from_entropy (entropy : Ptr) : ffi Ptr :=
  ffi_boundary (R := bytes) (
    entropy ← slice_arg entropy;
    mnemonic ← expect (mnemonic_from_entropy entropy);
    expect (owned_str_try_from (mnemonic_to_string mnemonic))).

Definition parse_mnemonic (mnemonic : bytes) : result Mnemonic LibMcError :=
  map_err (fun err => LibInvalidInput (ascii_bytes "Invalid mnemonic: " ++ fmt_display err))
    (mnemonic_from_phrase mnemonic).

Definition mc_bip39_entropy_from_mnemonic (mnemonic out_entropy out_error : Ptr) : ffi Z :=
  ffi_boundary_with_error (R := Z) out_error (
    mnemonic ← str_try_from_ffi mnemonic;
    mnemonic ← expect mnemonic;
    try_ (parse_mnemonic mnemonic) (fun mnemonic =>
      let entropy := mnemonic_entropy mnemonic in
      write_out_opt out_entropy entropy;;
      n ← ssize_len entropy;
      mret (Ok n))).

(** [words.join(",")] *)
Definition join_comma (words : list bytes) : bytes :=
  match words with
  | [] => []
  | word :: words => word ++ concat ((fun word => ascii_bytes "," ++ word) <$> words)
  end.

Definition mc_bip39_words_by_prefix (prefix : Ptr) : ffi Ptr :=
  ffi_boundary (R := bytes) (
    prefix ← str_try_from_ffi prefix;
    prefix ← expect prefix;
    expect (owned_str_try_from (join_comma (get_words_by_prefix prefix)))).

(** ** slip10.rs *)

Definition mc_slip10_account_private_keys_from_mnemonic (mnemonic : Ptr) (account_index : Z)
  (out_view_private_key out_spend_private_key out_error : Ptr) : ffi bool :=
  ffi_boundary_with_error (R := unit) out_error (
    mnemonic ← str_try_from_ffi mnemonic;
    mnemonic ← expect mnemonic;
    try_ (parse_mnemonic mnemonic) (fun mnemonic =>
      let account_key := slip10_account_key mnemonic account_index in
      out_view ← out_slice out_view_private_key 32;
      copy_from_slice out_view (private_bytes (account_view_private_key account_key));;
      out_spend ← out_slice out_spend_private_key 32;
      copy_from_slice out_spend (private_bytes (account_spend_private_key account_key));;
      mret (Ok tt))).
End libmc.
