(* ===== verification/LibMcAttest.v ===== *)
(** * Attestation through the C interface (src/libmobilecoin/src/attest.rs)

    The verifiers of enclave measurements, and the handshake with an enclave as
    a state machine behind a pointer: not attested, waiting for the response, or
    attested with a cipher. *)

From Stdlib Require Import String.
From S2P Require Import Prelude FogTypes KexRng Ffi LibMc.

Local Open Scope Z_scope.
Local Open Scope fog_scope.

Section attest.
Context `{C : McCrates}.

(** ** Verifiers *)

(** [MrEnclave::try_from_ffi] and [MrSigner::try_from_ffi]. *)
Definition measurement_try_from_ffi (src : McBuffer) : ffi (result bytes LibMcError) :=
  bytes32_try_from_ffi src.

Definition mc_mr_enclave_verifier_free (mr_enclave_verifier : Ptr) : ffi unit :=
  ffi_boundary (R := unit) (I := unit) (FfiOptOwnedPtr_drop as_mr_enclave mr_enclave_verifier).

Definition mc_mr_enclave_verifier_create (mr_enclave : Ptr) : ffi Ptr :=
  ffi_boundary (R := McHandle) (
    b ← ref_buffer mr_enclave;
    mr_enclave ← measurement_try_from_ffi b;
    mr_enclave ← expect mr_enclave;
    mret (HMrEnclave (mr_enclave_verifier_new mr_enclave))).

Definition mc_mr_enclave_verifier_allow_config_advisory (mr_enclave_verifier advisory_id : Ptr) : ffi bool :=
  ffi_boundary (R := unit) (I := bool) (
    advisory_id ← str_try_from_ffi advisory_id;
    advisory_id ← expect advisory_id;
    '(l, verifier) ← mut_handle as_mr_enclave mr_enclave_verifier;
    set_handle l (HMrEnclave (mr_enclave_allow_config_advisory advisory_id verifier))).

Definition mc_mr_enclave_verifier_allow_hardening_advisory (mr_enclave_verifier advisory_id : Ptr) : ffi bool :=
  ffi_boundary (R := unit) (I := bool) (
    advisory_id ← str_try_from_ffi advisory_id;
    advisory_id ← expect advisory_id;
    '(l, verifier) ← mut_handle as_mr_enclave mr_enclave_verifier;
    set_handle l (HMrEnclave (mr_enclave_allow_hardening_advisory advisory_id verifier))).

Definition mc_mr_signer_verifier_free (mr_signer_verifier : Ptr) : ffi unit :=
  ffi_boundary (R := unit) (I := unit) (FfiOptOwnedPtr_drop as_mr_signer mr_signer_verifier).

Definition mc_mr_signer_verifier_create (mr_signer : Ptr)
  (expected_product_id minimum_security_version : Z) : ffi Ptr :=
  ffi_boundary (R := McHandle) (
    b ← ref_buffer mr_signer;
    mr_signer ← measurement_try_from_ffi b;
    mr_signer ← expect mr_signer;
    mret (HMrSigner (mr_signer_verifier_new mr_signer expected_product_id minimum_security_version))).

Definition mc_mr_signer_verifier_allow_config_advisory (mr_signer_verifier advisory_id : Ptr) : ffi bool :=
  ffi_boundary (R := unit) (I := bool) (
    advisory_id ← str_try_from_ffi advisory_id;
    advisory_id ← expect advisory_id;
    '(l, verifier) ← mut_handle as_mr_signer mr_signer_verifier;
    set_handle l (HMrSigner (mr_signer_allow_config_advisory advisory_id verifier))).

Definition mc_mr_signer_verifier_allow_hardening_advisory (mr_signer_verifier advisory_id : Ptr) : ffi bool :=
  ffi_boundary (R := unit) (I := bool) (
    advisory_id ← str_try_from_ffi advisory_id;
    advisory_id ← expect advisory_id;
    '(l, verifier) ← mut_handle as_mr_signer mr_signer_verifier;
    set_handle l (HMrSigner (mr_signer_allow_hardening_advisory advisory_id verifier))).

Definition mc_verifier_create : ffi Ptr :=
  ffi_boundary (R := McHandle) (mret (HVerifier (verifier_debug DEBUG_ENCLAVE verifier_default))).

Definition mc_verifier_free (verifier : Ptr) : ffi unit :=
  ffi_boundary (R := unit) (I := unit) (FfiOptOwnedPtr_drop as_verifier verifier).

Definition mc_verifier_add_mr_enclave (verifier mr_enclave_verifier : Ptr) : ffi bool :=
  ffi_boundary (R := unit) (I := bool) (
    '(l, verifier) ← mut_handle as_verifier verifier;
    mr_enclave_verifier ← ref_handle as_mr_enclave mr_enclave_verifier;
    set_handle l (HVerifier (verifier_mr_enclave mr_enclave_verifier verifier))).

Definition mc_verifier_add_mr_signer (verifier mr_signer_verifier : Ptr) : ffi bool :=
  ffi_boundary (R := unit) (I := bool) (
    '(l, verifier) ← mut_handle as_verifier verifier;
    mr_signer_verifier ← ref_handle as_mr_signer mr_signer_verifier;
    set_handle l (HVerifier (verifier_mr_signer mr_signer_verifier verifier))).

(** ** The handshake *)

Definition AttestAke_new : AttestAke := NotAttested.

Definition AttestAke_is_attested (self : AttestAke) : bool :=
  match self with Attested _ => true | _ => false end.

(** The pending handshake, and what is left in its place. *)
Definition take_auth_pending (self : AttestAke) : option AuthPending * AttestAke :=
  match self with
  | AkeAuthPending auth_pending => (Some auth_pending, NotAttested)
  | _ => (None, self)
  end.

Definition attest_cipher (self : AttestAke) : option Ready :=
  match self with Attested ready => Some ready | _ => None end.

Definition mc_attest_ake_create : ffi Ptr := ffi_boundary (R := McHandle) (mret (HAke AttestAke_new)).

Definition mc_attest_ake_free (attest_ake : Ptr) : ffi unit :=
  ffi_boundary (R := unit) (I := unit) (FfiOptOwnedPtr_drop as_ake attest_ake).

Definition mc_attest_ake_is_attested (attest_ake out_attested : Ptr) : ffi bool :=
  ffi_boundary (R := unit) (I := bool) (
    ake ← ref_handle as_ake attest_ake;
    set_bool out_attested (AttestAke_is_attested ake)).

Definition mc_attest_ake_get_binding (attest_ake out_binding : Ptr) : ffi Z :=
  ffi_boundary (R := Z) (
    ake ← ref_handle as_ake attest_ake;
    cipher ← expect_some (attest_cipher ake);
    let binding := ready_binding cipher in
    write_out_opt out_binding binding;;
    ssize_len binding).

(** [ResponderId::try_from_ffi] *)
Definition responder_id_try_from_ffi (src : Ptr) : ffi (result ResponderId LibMcError) :=
  str ←? str_try_from_ffi src;
  mret (map_err (fun err => LibInvalidInput (ascii_bytes "Invalid responder id: " ++ fmt_debug err))
    (responder_id_from_str str)).

Definition mc_attest_ake_get_auth_request (mc_rng : McRngState)
  (attest_ake responder_id rng_callback out_auth_request : Ptr) : ffi Z :=
  ffi_boundary (R := Z) (
    responder_id ← responder_id_try_from_ffi responder_id;
    responder_id ← expect responder_id;
    next ← with_sdk_rng rng_callback mc_rng (ake_initiate (responder_id_to_string responder_id));
    '(auth_pending, auth_request_output) ← expect next;
    '(l, _) ← mut_handle as_ake attest_ake;
    set_handle l (HAke (AkeAuthPending auth_pending));;
    write_out_opt out_auth_request auth_request_output;;
    ssize_len auth_request_output).

Definition mc_attest_ake_process_auth_response (attest_ake auth_response_data verifier out_error : Ptr)
  : ffi bool :=
  ffi_boundary_with_error (R := unit) out_error (
    '(l, ake) ← mut_handle as_ake attest_ake;
    let '(auth_pending, ake) := take_auth_pending ake in
    set_handle l (HAke ake);;
    auth_pending ← expect_some auth_pending;
    auth_response_output ← slice_arg auth_response_data;
    verifier ← ref_handle as_verifier verifier;
    try_ (map_err from_attest_ake_error (ake_finish auth_pending auth_response_output verifier)) (fun ready =>
      set_handle l (HAke (Attested ready));;
      mret (Ok tt))).

Definition mc_attest_ake_encrypt (attest_ake aad plaintext out_ciphertext out_error : Ptr) : ffi Z :=
  ffi_boundary_with_error (R := Z) out_error (
    plaintext_buffer ← ref_buffer plaintext;
    let len := ciphertext_len (mb_len plaintext_buffer) in
    match FfiOptMutPtr_into_option out_ciphertext with
    | Some out_ciphertext =>
        '(l, ake) ← mut_handle as_ake attest_ake;
        cipher ← expect_some (attest_cipher ake);
        aad ← slice_arg aad;
        plaintext ← slice_arg plaintext;
        let '(ciphertext, cipher) := ready_encrypt cipher aad plaintext in
        set_handle l (HAke (Attested cipher));;
        try_ (map_err from_cipher_error ciphertext) (fun ciphertext =>
          slice ← out_slice out_ciphertext (Z.to_nat len);
          copy_from_slice slice ciphertext;;
          n ← expect (ssize_try_from len);
          mret (Ok n))
    | None => n ← expect (ssize_try_from len); mret (Ok n)
    end).

Definition mc_attest_ake_decrypt (attest_ake aad ciphertext out_plaintext out_error : Ptr) : ffi Z :=
  ffi_boundary_with_error (R := Z) out_error (
    '(l, ake) ← mut_handle as_ake attest_ake;
    cipher ← expect_some (attest_cipher ake);
    aad ← slice_arg aad;
    ciphertext ← slice_arg ciphertext;
    let '(plaintext, cipher) := ready_decrypt cipher aad ciphertext in
    set_handle l (HAke (Attested cipher));;
    try_ (map_err from_cipher_error plaintext) (fun plaintext =>
      write_out out_plaintext plaintext;;
      n ← ssize_len plaintext;
      mret (Ok n))).
End attest.
