(* ===== verification/LibMcTransaction.v ===== *)
(** * Transactions through the C interface (src/libmobilecoin/src/transaction.rs)

    What an account can tell about an output, and the builder of a transaction
    with its rings of inputs. *)

From Stdlib Require Import String.
From S2P Require Import Prelude FogTypes KexRng Ffi LibMc.

Local Open Scope Z_scope.
Local Open Scope fog_scope.

Section transaction.
Context `{C : McCrates}.

(** ** Outputs *)

(** [Amount::try_from_ffi] *)
Definition amount_try_from_ffi (src : McTxOutAmount) : ffi (result MaskedAmount LibMcError) :=
  b ← ref_buffer (ta_commitment src);
  commitment ←? bytes32_try_from_ffi b;
  mret (Ok (masked_amount_new commitment (ta_masked_value src))).

Definition amount_arg (p : Ptr) : ffi (result MaskedAmount LibMcError) :=
  src ← FfiRefPtr_as_ref (as_struct as_tx_out_amount) p; amount_try_from_ffi src.

Definition mc_tx_out_matches_any_subaddress (tx_out_amount tx_out_public_key view_private_key out_matches : Ptr)
  : ffi bool :=
  ffi_boundary (R := unit) (I := bool) (
    view_private_key ← private_expect view_private_key;
    amount ← amount_arg tx_out_amount;
    matches ← match amount with
              | Ok amount =>
                  public_key ← public_arg tx_out_public_key;
                  match public_key with
                  | Ok public_key =>
                      let shared_secret := get_tx_out_shared_secret view_private_key public_key in
                      mret (is_ok (amount_get_value amount shared_secret))
                  | Err _ => mret false
                  end
              | Err _ => mret false
              end;
    set_bool out_matches matches).

Definition mc_tx_out_matches_subaddress
  (tx_out_target_key tx_out_public_key view_private_key subaddress_spend_private_key out_matches : Ptr) : ffi bool :=
  ffi_boundary (R := unit) (I := bool) (
    view_private_key ← private_expect view_private_key;
    subaddress_spend_private_key ← private_expect subaddress_spend_private_key;
    target_key ← public_arg tx_out_target_key;
    matches ← match target_key with
              | Ok target_key =>
                  tx_out_public_key ← public_arg tx_out_public_key;
                  match tx_out_public_key with
                  | Ok tx_out_public_key =>
                      let onetime_private_key := recover_onetime_private_key tx_out_public_key
                        view_private_key subaddress_spend_private_key in
                      mret (bool_decide (public_from onetime_private_key = target_key))
                  | Err _ => mret false
                  end
              | Err _ => mret false
              end;
    set_bool out_matches matches).

Definition mc_tx_out_get_subaddress_spend_public_key
  (tx_out_target_key tx_out_public_key view_private_key out_subaddress_spend_public_key out_error : Ptr) : ffi bool :=
  ffi_boundary_with_error (R := unit) out_error (
    target_key ←? public_arg tx_out_target_key;
    tx_out_public_key ←? public_arg tx_out_public_key;
    view_private_key ← private_expect view_private_key;
    out ← out_slice out_subaddress_spend_public_key 32;
    copy_from_slice out
      (public_to_bytes (recover_public_subaddress_spend_key view_private_key target_key tx_out_public_key));;
    mret (Ok tt)).

Definition mc_tx_out_get_value (tx_out_amount tx_out_public_key view_private_key out_value out_error : Ptr)
  : ffi bool :=
  ffi_boundary_with_error (R := unit) out_error (
    amount ←? amount_arg tx_out_amount;
    tx_out_public_key ←? public_arg tx_out_public_key;
    view_private_key ← private_expect view_private_key;
    let shared_secret := get_tx_out_shared_secret view_private_key tx_out_public_key in
    try_ (map_err from_amount_error (amount_get_value amount shared_secret)) (fun '(val, _) =>
      '(l, _) ← FfiMutPtr_into_mut as_u64_object out_value;
      store l (CU64 val);;
      mret (Ok tt))).

Definition mc_tx_out_get_key_image
  (tx_out_target_key tx_out_public_key view_private_key subaddress_spend_private_key out_key_image out_error : Ptr)
  : ffi bool :=
  ffi_boundary_with_error (R := unit) out_error (
    target_key ←? public_arg tx_out_target_key;
    tx_out_public_key ←? public_arg tx_out_public_key;
    view_private_key ← private_expect view_private_key;
    subaddress_spend_private_key ← private_expect subaddress_spend_private_key;
    out ← out_slice out_key_image 32;
    let onetime_private_key := recover_onetime_private_key tx_out_public_key
      view_private_key subaddress_spend_private_key in
    if negb (bool_decide (public_from onetime_private_key = target_key))
    then mret (Err (LibTransactionCrypto (ascii_bytes "TxOut is not owned by private keys")))
    else
      copy_from_slice out (key_image_from onetime_private_key);;
      mret (Ok tt)).

Definition mc_tx_out_validate_confirmation_number
  (tx_out_public_key tx_out_confirmation_number view_private_key out_valid : Ptr) : ffi bool :=
  ffi_boundary (R := unit) (I := bool) (
    view_private_key ← private_expect view_private_key;
    tx_out_public_key ← public_arg tx_out_public_key;
    valid ← match tx_out_public_key with
            | Ok tx_out_public_key =>
                b ← ref_buffer tx_out_confirmation_number;
                confirmation_number ← bytes32_try_from_ffi b;
                match confirmation_number with
                | Ok confirmation_number =>
                    mret (confirmation_validate confirmation_number tx_out_public_key view_private_key)
                | Err _ => mret false
                end
            | Err _ => mret false
            end;
    set_bool out_valid valid).

(** ** Rings *)

Definition mc_transaction_builder_ring_create : ffi Ptr := ffi_boundary (R := McHandle) (mret (HRing [])).

Definition mc_transaction_builder_ring_free (transaction_builder_ring : Ptr) : ffi unit :=
  ffi_boundary (R := unit) (I := unit) (FfiOptOwnedPtr_drop as_ring transaction_builder_ring).

Definition mc_transaction_builder_ring_add_element (ring tx_out_proto_bytes membership_proof_proto_bytes : Ptr)
  : ffi bool :=
  ffi_boundary (R := unit) (I := bool) (
    tx_out_bytes ← slice_arg tx_out_proto_bytes;
    tx_out ← expect (tx_out_decode tx_out_bytes);
    proof_bytes ← slice_arg membership_proof_proto_bytes;
    membership_proof ← expect (proof_decode proof_bytes);
    '(l, elements) ← mut_handle as_ring ring;
    set_handle l (HRing (elements ++ [(tx_out, membership_proof)]))).

(** ** The builder *)

Definition mc_transaction_builder_create (fee tombstone_block : Z) (fog_resolver : Ptr) : ffi Ptr :=
  ffi_boundary (R := McHandle) (
    fog_resolver ← FfiOptRefPtr_as_ref (as_handle as_resolver) fog_resolver;
    fog_resolver ← match fog_resolver with
                   | None => mret fog_resolver_default
                   | Some fog_resolver => expect (fog_resolver_new fog_resolver.1 fog_resolver.2)
                   end;
    let transaction_builder := tx_builder_new fog_resolver in
    let transaction_builder := tx_builder_set_fee fee transaction_builder in
    let transaction_builder := tx_builder_set_tombstone_block tombstone_block transaction_builder in
    mret (HBuilder (Some transaction_builder))).

Definition mc_transaction_builder_free (transaction_builder : Ptr) : ffi unit :=
  ffi_boundary (R := unit) (I := unit) (FfiOptOwnedPtr_drop as_builder transaction_builder).

Definition mc_transaction_builder_add_input
  (transaction_builder view_private_key subaddress_spend_private_key : Ptr) (real_index : Z) (ring out_error : Ptr)
  : ffi bool :=
  ffi_boundary_with_error (R := unit) out_error (
    '(l, builder) ← mut_handle as_builder transaction_builder;
    builder ← expect_some builder;
    view_private_key ← private_expect view_private_key;
    subaddress_spend_private_key ← private_expect subaddress_spend_private_key;
    elements ← ref_handle as_ring ring;
    let membership_proofs := elements.*2 in
    let ring := elements.*1 in
    input_tx_out ← expect_some (ring !! Z.to_nat real_index);
    target_key ← expect (public_try_from (tx_out_target_key input_tx_out));
    public_key ← expect (public_try_from (tx_out_public_key input_tx_out));
    let onetime_private_key := recover_onetime_private_key public_key
      view_private_key subaddress_spend_private_key in
    if negb (bool_decide (public_from onetime_private_key = target_key)) then ffi_panic
    else
      try_ (map_err (fun err => LibInvalidInput (fmt_debug err))
              (input_credentials_new ring membership_proofs real_index onetime_private_key view_private_key))
        (fun input_credential =>
          set_handle l (HBuilder (Some (tx_builder_add_input input_credential builder)));;
          mret (Ok tt))).

(** [PublicAddress::try_from_ffi(&address).expect(..)] *)
Definition address_expect (p : Ptr) : ffi PublicAddress :=
  src ← FfiRefPtr_as_ref (as_struct as_public_address) p;
  address ← public_address_try_from_ffi src;
  expect address.

Definition mc_transaction_builder_add_output (mc_rng : McRngState) (transaction_builder : Ptr) (amount : Z)
  (recipient_address rng_callback out_tx_out_confirmation_number out_error : Ptr) : ffi Ptr :=
  ffi_boundary_with_error (R := McHandle) out_error (
    '(l, builder) ← mut_handle as_builder transaction_builder;
    builder ← expect_some builder;
    recipient_address ← address_expect recipient_address;
    out ← out_slice out_tx_out_confirmation_number 32;
    '(output, builder) ← with_sdk_rng rng_callback mc_rng (tx_builder_add_output builder amount recipient_address);
    set_handle l (HBuilder (Some builder));;
    try_ (map_err from_tx_builder_error output) (fun '(tx_out, confirmation) =>
      copy_from_slice out confirmation;;
      mret (Ok (HData (tx_out_encode tx_out))))).

Definition mc_transaction_builder_add_output_with_fog_hint_address (mc_rng : McRngState)
  (transaction_builder : Ptr) (amount : Z)
  (recipient_address fog_hint_address rng_callback out_tx_out_confirmation_number out_error : Ptr) : ffi Ptr :=
  ffi_boundary_with_error (R := McHandle) out_error (
    '(l, builder) ← mut_handle as_builder transaction_builder;
    builder ← expect_some builder;
    recipient_address ← address_expect recipient_address;
    fog_hint_address ← address_expect fog_hint_address;
    out ← out_slice out_tx_out_confirmation_number 32;
    '(output, builder) ← with_sdk_rng rng_callback mc_rng
      (tx_builder_add_output_with_hint builder amount recipient_address fog_hint_address);
    set_handle l (HBuilder (Some builder));;
    try_ (map_err from_tx_builder_error output) (fun '(tx_out, confirmation) =>
      copy_from_slice out confirmation;;
      mret (Ok (HData (tx_out_encode tx_out))))).

Definition mc_transaction_builder_build (mc_rng : McRngState) (transaction_builder rng_callback out_error : Ptr)
  : ffi Ptr :=
  ffi_boundary_with_error (R := McHandle) out_error (
    '(l, builder) ← mut_handle as_builder transaction_builder;
    set_handle l (HBuilder None);;
    builder ← expect_some builder;
    tx ← with_sdk_rng rng_callback mc_rng (tx_builder_build builder);
    try_ (map_err (fun err => LibInvalidInput (fmt_debug err)) tx) (fun tx =>
      mret (Ok (HData (tx_encode tx))))).
End transaction.
