(* ===== verification/LibMcApi.v ===== *)
(** * Programs that use the C interface

    All functions of the library as one type of calls, with the types of their
    arguments as the C headers declare them, and a caller that makes any number
    of calls and changes its own memory in between.  What a caller promises is
    that a pointer is null or points to an object of its declared type, that a
    buffer lies within its memory, and that it gives back only what it holds. *)

From S2P Require Import Prelude FogTypes KexRng Ffi FfiSpec FfiAccount LibMc LibMcAttest LibMcTransaction.

Local Open Scope Z_scope.

(** ** Calls *)

(** The declared types of arguments; the last four are given up by the caller. *)
Inductive ArgKind :=
| ABuffer | AStr | ABool | AU64 | ASlot | ACallback
| AHandle (k : McKind) | AAccountKey | AAddress | AAmount
| AOwned (k : McKind) | AOwnedStr | AOwnedError.

Inductive Ret := RUnit | RBool (b : bool) | RInt (n : Z) | RPtr (p : Ptr).

Section api.
Context `{C : McCrates}.

Inductive LibCall :=
| C_error_free (error : Ptr)
| C_string_free (string : Ptr)
| C_data_free (data : Ptr)
| C_data_get_bytes (data out_bytes : Ptr)
| C_ristretto_private_validate (ristretto_private out_valid : Ptr)
| C_ristretto_public_from_ristretto_private (ristretto_private out_ristretto_public : Ptr)
| C_ristretto_public_validate (ristretto_public out_valid : Ptr)
| C_versioned_crypto_box_encrypt (mc_rng : McRngState) (public_key plaintext rng_callback out_ciphertext
    out_error : Ptr)
| C_versioned_crypto_box_decrypt (private_key ciphertext out_plaintext out_error : Ptr)
| C_fog_resolver_create (fog_report_verifier : Ptr)
| C_fog_resolver_free (fog_resolver : Ptr)
| C_fog_resolver_add_report_response (fog_resolver report_url report_response out_error : Ptr)
| C_fog_rng_create (subaddress_view_private_key rng_public_key : Ptr) (rng_version : Z) (out_error : Ptr)
| C_fog_rng_free (fog_rng : Ptr)
| C_fog_rng_clone (fog_rng : Ptr)
| C_fog_rng_serialize_proto (fog_rng out_fog_rng_proto_bytes : Ptr)
| C_fog_rng_deserialize_proto (fog_rng_proto_bytes out_error : Ptr)
| C_fog_rng_index (fog_rng : Ptr)
| C_fog_rng_get_output_len (fog_rng : Ptr)
| C_fog_rng_peek (fog_rng out_output : Ptr)
| C_fog_rng_advance (fog_rng out_output : Ptr)
| C_account_key_get_subaddress_private_keys (view_private_key spend_private_key : Ptr) (subaddress_index :
    Z) (out_view out_spend : Ptr)
| C_account_key_get_public_address_public_keys (view_private_key spend_private_key : Ptr) (subaddress_index
    : Z) (out_view out_spend : Ptr)
| C_account_key_get_public_address_fog_authority_sig (account_key : Ptr) (subaddress_index : Z) (out_sig :
    Ptr)
| C_printable_wrapper_b58_encode (proto_bytes : Ptr)
| C_printable_wrapper_b58_decode (b58_encoded_string out_proto_bytes out_error : Ptr)
| C_bip39_mnemonic_from_entropy (entropy : Ptr)
| C_bip39_entropy_from_mnemonic (mnemonic out_entropy out_error : Ptr)
| C_bip39_words_by_prefix (prefix : Ptr)
| C_slip10_account_private_keys_from_mnemonic (mnemonic : Ptr) (account_index : Z) (out_view out_spend
    out_error : Ptr)
| C_mr_enclave_verifier_free (mr_enclave_verifier : Ptr)
| C_mr_enclave_verifier_create (mr_enclave : Ptr)
| C_mr_enclave_verifier_allow_config_advisory (mr_enclave_verifier advisory_id : Ptr)
| C_mr_enclave_verifier_allow_hardening_advisory (mr_enclave_verifier advisory_id : Ptr)
| C_mr_signer_verifier_free (mr_signer_verifier : Ptr)
| C_mr_signer_verifier_create (mr_signer : Ptr) (expected_product_id minimum_security_version : Z)
| C_mr_signer_verifier_allow_config_advisory (mr_signer_verifier advisory_id : Ptr)
| C_mr_signer_verifier_allow_hardening_advisory (mr_signer_verifier advisory_id : Ptr)
| C_verifier_create
| C_verifier_free (verifier : Ptr)
| C_verifier_add_mr_enclave (verifier mr_enclave_verifier : Ptr)
| C_verifier_add_mr_signer (verifier mr_signer_verifier : Ptr)
| C_attest_ake_create
| C_attest_ake_free (attest_ake : Ptr)
| C_attest_ake_is_attested (attest_ake out_attested : Ptr)
| C_attest_ake_get_binding (attest_ake out_binding : Ptr)
| C_attest_ake_get_auth_request (mc_rng : McRngState) (attest_ake responder_id rng_callback out_auth_request
    : Ptr)
| C_attest_ake_process_auth_response (attest_ake auth_response_data verifier out_error : Ptr)
| C_attest_ake_encrypt (attest_ake aad plaintext out_ciphertext out_error : Ptr)
| C_attest_ake_decrypt (attest_ake aad ciphertext out_plaintext out_error : Ptr)
| C_tx_out_matches_any_subaddress (tx_out_amount tx_out_public_key view_private_key out_matches : Ptr)
| C_tx_out_matches_subaddress (tx_out_target_key tx_out_public_key view_private_key spend_private_key
    out_matches : Ptr)
| C_tx_out_get_subaddress_spend_public_key (tx_out_target_key tx_out_public_key view_private_key
    out_public_key out_error : Ptr)
| C_tx_out_get_value (tx_out_amount tx_out_public_key view_private_key out_value out_error : Ptr)
| C_tx_out_get_key_image (tx_out_target_key tx_out_public_key view_private_key spend_private_key
    out_key_image out_error : Ptr)
| C_tx_out_validate_confirmation_number (tx_out_public_key confirmation_number view_private_key out_valid :
    Ptr)
| C_transaction_builder_ring_create
| C_transaction_builder_ring_free (ring : Ptr)
| C_transaction_builder_ring_add_element (ring tx_out_proto_bytes proof_proto_bytes : Ptr)
| C_transaction_builder_create (fee tombstone_block : Z) (fog_resolver : Ptr)
| C_transaction_builder_free (transaction_builder : Ptr)
| C_transaction_builder_add_input (transaction_builder view_private_key spend_private_key : Ptr) (real_index
    : Z) (ring out_error : Ptr)
| C_transaction_builder_add_output (mc_rng : McRngState) (transaction_builder : Ptr) (amount : Z)
    (recipient_address rng_callback out_confirmation out_error : Ptr)
| C_transaction_builder_add_output_with_fog_hint_address (mc_rng : McRngState) (transaction_builder : Ptr)
    (amount : Z) (recipient_address fog_hint_address rng_callback out_confirmation out_error : Ptr)
| C_transaction_builder_build (mc_rng : McRngState) (transaction_builder rng_callback out_error : Ptr).

Definition args (c : LibCall) : list (ArgKind * Ptr) :=
  match c with
| C_error_free error => [(AOwnedError, error)]
| C_string_free string => [(AOwnedStr, string)]
| C_data_free data => [(AOwned KData, data)]
| C_data_get_bytes data out_bytes => [(AHandle KData, data); (ABuffer, out_bytes)]
| C_ristretto_private_validate ristretto_private out_valid => [(ABuffer, ristretto_private); (ABool,
      out_valid)]
| C_ristretto_public_from_ristretto_private ristretto_private out_ristretto_public => [(ABuffer,
      ristretto_private); (ABuffer, out_ristretto_public)]
| C_ristretto_public_validate ristretto_public out_valid => [(ABuffer, ristretto_public); (ABool,
      out_valid)]
| C_versioned_crypto_box_encrypt _ public_key plaintext rng_callback out_ciphertext out_error => [(ABuffer,
      public_key); (ABuffer, plaintext); (ACallback, rng_callback); (ABuffer, out_ciphertext); (ASlot,
      out_error)]
| C_versioned_crypto_box_decrypt private_key ciphertext out_plaintext out_error => [(ABuffer, private_key);
      (ABuffer, ciphertext); (ABuffer, out_plaintext); (ASlot, out_error)]
| C_fog_resolver_create fog_report_verifier => [(AHandle KVerifier, fog_report_verifier)]
| C_fog_resolver_free fog_resolver => [(AOwned KResolver, fog_resolver)]
| C_fog_resolver_add_report_response fog_resolver report_url report_response out_error => [(AHandle
      KResolver, fog_resolver); (AStr, report_url); (ABuffer, report_response); (ASlot, out_error)]
| C_fog_rng_create subaddress_view_private_key rng_public_key _ out_error => [(ABuffer,
      subaddress_view_private_key); (ABuffer, rng_public_key); (ASlot, out_error)]
| C_fog_rng_free fog_rng => [(AOwned KRng, fog_rng)]
| C_fog_rng_clone fog_rng => [(AHandle KRng, fog_rng)]
| C_fog_rng_serialize_proto fog_rng out_fog_rng_proto_bytes => [(AHandle KRng, fog_rng); (ABuffer,
      out_fog_rng_proto_bytes)]
| C_fog_rng_deserialize_proto fog_rng_proto_bytes out_error => [(ABuffer, fog_rng_proto_bytes); (ASlot,
      out_error)]
| C_fog_rng_index fog_rng => [(AHandle KRng, fog_rng)]
| C_fog_rng_get_output_len fog_rng => [(AHandle KRng, fog_rng)]
| C_fog_rng_peek fog_rng out_output => [(AHandle KRng, fog_rng); (ABuffer, out_output)]
| C_fog_rng_advance fog_rng out_output => [(AHandle KRng, fog_rng); (ABuffer, out_output)]
| C_account_key_get_subaddress_private_keys view_private_key spend_private_key _ out_view out_spend =>
      [(ABuffer, view_private_key); (ABuffer, spend_private_key); (ABuffer, out_view); (ABuffer, out_spend)]
| C_account_key_get_public_address_public_keys view_private_key spend_private_key _ out_view out_spend =>
      [(ABuffer, view_private_key); (ABuffer, spend_private_key); (ABuffer, out_view); (ABuffer, out_spend)]
| C_account_key_get_public_address_fog_authority_sig account_key _ out_sig => [(AAccountKey, account_key);
      (ABuffer, out_sig)]
| C_printable_wrapper_b58_encode proto_bytes => [(ABuffer, proto_bytes)]
| C_printable_wrapper_b58_decode b58_encoded_string out_proto_bytes out_error => [(AStr,
      b58_encoded_string); (ABuffer, out_proto_bytes); (ASlot, out_error)]
| C_bip39_mnemonic_from_entropy entropy => [(ABuffer, entropy)]
| C_bip39_entropy_from_mnemonic mnemonic out_entropy out_error => [(AStr, mnemonic); (ABuffer, out_entropy);
      (ASlot, out_error)]
| C_bip39_words_by_prefix prefix => [(AStr, prefix)]
| C_slip10_account_private_keys_from_mnemonic mnemonic _ out_view out_spend out_error => [(AStr, mnemonic);
      (ABuffer, out_view); (ABuffer, out_spend); (ASlot, out_error)]
| C_mr_enclave_verifier_free mr_enclave_verifier => [(AOwned KMrEnclave, mr_enclave_verifier)]
| C_mr_enclave_verifier_create mr_enclave => [(ABuffer, mr_enclave)]
| C_mr_enclave_verifier_allow_config_advisory mr_enclave_verifier advisory_id => [(AHandle KMrEnclave,
      mr_enclave_verifier); (AStr, advisory_id)]
| C_mr_enclave_verifier_allow_hardening_advisory mr_enclave_verifier advisory_id => [(AHandle KMrEnclave,
      mr_enclave_verifier); (AStr, advisory_id)]
| C_mr_signer_verifier_free mr_signer_verifier => [(AOwned KMrSigner, mr_signer_verifier)]
| C_mr_signer_verifier_create mr_signer _ _ => [(ABuffer, mr_signer)]
| C_mr_signer_verifier_allow_config_advisory mr_signer_verifier advisory_id => [(AHandle KMrSigner,
      mr_signer_verifier); (AStr, advisory_id)]
| C_mr_signer_verifier_allow_hardening_advisory mr_signer_verifier advisory_id => [(AHandle KMrSigner,
      mr_signer_verifier); (AStr, advisory_id)]
| C_verifier_create => []
| C_verifier_free verifier => [(AOwned KVerifier, verifier)]
| C_verifier_add_mr_enclave verifier mr_enclave_verifier => [(AHandle KVerifier, verifier); (AHandle
      KMrEnclave, mr_enclave_verifier)]
| C_verifier_add_mr_signer verifier mr_signer_verifier => [(AHandle KVerifier, verifier); (AHandle
      KMrSigner, mr_signer_verifier)]
| C_attest_ake_create => []
| C_attest_ake_free attest_ake => [(AOwned KAke, attest_ake)]
| C_attest_ake_is_attested attest_ake out_attested => [(AHandle KAke, attest_ake); (ABool, out_attested)]
| C_attest_ake_get_binding attest_ake out_binding => [(AHandle KAke, attest_ake); (ABuffer, out_binding)]
| C_attest_ake_get_auth_request _ attest_ake responder_id rng_callback out_auth_request => [(AHandle KAke,
      attest_ake); (AStr, responder_id); (ACallback, rng_callback); (ABuffer, out_auth_request)]
| C_attest_ake_process_auth_response attest_ake auth_response_data verifier out_error => [(AHandle KAke,
      attest_ake); (ABuffer, auth_response_data); (AHandle KVerifier, verifier); (ASlot, out_error)]
| C_attest_ake_encrypt attest_ake aad plaintext out_ciphertext out_error => [(AHandle KAke, attest_ake);
      (ABuffer, aad); (ABuffer, plaintext); (ABuffer, out_ciphertext); (ASlot, out_error)]
| C_attest_ake_decrypt attest_ake aad ciphertext out_plaintext out_error => [(AHandle KAke, attest_ake);
      (ABuffer, aad); (ABuffer, ciphertext); (ABuffer, out_plaintext); (ASlot, out_error)]
| C_tx_out_matches_any_subaddress tx_out_amount tx_out_public_key view_private_key out_matches => [(AAmount,
      tx_out_amount); (ABuffer, tx_out_public_key); (ABuffer, view_private_key); (ABool, out_matches)]
| C_tx_out_matches_subaddress tx_out_target_key tx_out_public_key view_private_key spend_private_key
      out_matches => [(ABuffer, tx_out_target_key); (ABuffer, tx_out_public_key); (ABuffer,
      view_private_key); (ABuffer, spend_private_key); (ABool, out_matches)]
| C_tx_out_get_subaddress_spend_public_key tx_out_target_key tx_out_public_key view_private_key
      out_public_key out_error => [(ABuffer, tx_out_target_key); (ABuffer, tx_out_public_key); (ABuffer,
      view_private_key); (ABuffer, out_public_key); (ASlot, out_error)]
| C_tx_out_get_value tx_out_amount tx_out_public_key view_private_key out_value out_error => [(AAmount,
      tx_out_amount); (ABuffer, tx_out_public_key); (ABuffer, view_private_key); (AU64, out_value); (ASlot,
      out_error)]
| C_tx_out_get_key_image tx_out_target_key tx_out_public_key view_private_key spend_private_key
      out_key_image out_error => [(ABuffer, tx_out_target_key); (ABuffer, tx_out_public_key); (ABuffer,
      view_private_key); (ABuffer, spend_private_key); (ABuffer, out_key_image); (ASlot, out_error)]
| C_tx_out_validate_confirmation_number tx_out_public_key confirmation_number view_private_key out_valid =>
      [(ABuffer, tx_out_public_key); (ABuffer, confirmation_number); (ABuffer, view_private_key); (ABool,
      out_valid)]
| C_transaction_builder_ring_create => []
| C_transaction_builder_ring_free ring => [(AOwned KRing, ring)]
| C_transaction_builder_ring_add_element ring tx_out_proto_bytes proof_proto_bytes => [(AHandle KRing,
      ring); (ABuffer, tx_out_proto_bytes); (ABuffer, proof_proto_bytes)]
| C_transaction_builder_create _ _ fog_resolver => [(AHandle KResolver, fog_resolver)]
| C_transaction_builder_free transaction_builder => [(AOwned KBuilder, transaction_builder)]
| C_transaction_builder_add_input transaction_builder view_private_key spend_private_key _ ring out_error =>
      [(AHandle KBuilder, transaction_builder); (ABuffer, view_private_key); (ABuffer, spend_private_key);
      (AHandle KRing, ring); (ASlot, out_error)]
| C_transaction_builder_add_output _ transaction_builder _ recipient_address rng_callback out_confirmation
      out_error => [(AHandle KBuilder, transaction_builder); (AAddress, recipient_address); (ACallback,
      rng_callback); (ABuffer, out_confirmation); (ASlot, out_error)]
| C_transaction_builder_add_output_with_fog_hint_address _ transaction_builder _ recipient_address
      fog_hint_address rng_callback out_confirmation out_error => [(AHandle KBuilder, transaction_builder);
      (AAddress, recipient_address); (AAddress, fog_hint_address); (ACallback, rng_callback); (ABuffer,
      out_confirmation); (ASlot, out_error)]
| C_transaction_builder_build _ transaction_builder rng_callback out_error => [(AHandle KBuilder,
      transaction_builder); (ACallback, rng_callback); (ASlot, out_error)]
  end.

Definition run_call (c : LibCall) : ffi Ret :=
  match c with
| C_error_free error => (fun _ => RUnit) <$> (mc_error_free error)
| C_string_free string => (fun _ => RUnit) <$> (mc_string_free string)
| C_data_free data => (fun _ => RUnit) <$> (mc_data_free data)
| C_data_get_bytes data out_bytes => RInt <$> (mc_data_get_bytes data out_bytes)
| C_ristretto_private_validate ristretto_private out_valid => RBool <$> (mc_ristretto_private_validate
      ristretto_private out_valid)
| C_ristretto_public_from_ristretto_private ristretto_private out_ristretto_public => RBool <$>
      (mc_ristretto_public_from_ristretto_private ristretto_private out_ristretto_public)
| C_ristretto_public_validate ristretto_public out_valid => RBool <$> (mc_ristretto_public_validate
      ristretto_public out_valid)
| C_versioned_crypto_box_encrypt mc_rng public_key plaintext rng_callback out_ciphertext out_error => RInt
      <$> (mc_versioned_crypto_box_encrypt mc_rng public_key plaintext rng_callback out_ciphertext
      out_error)
| C_versioned_crypto_box_decrypt private_key ciphertext out_plaintext out_error => RInt <$>
      (mc_versioned_crypto_box_decrypt private_key ciphertext out_plaintext out_error)
| C_fog_resolver_create fog_report_verifier => RPtr <$> (mc_fog_resolver_create fog_report_verifier)
| C_fog_resolver_free fog_resolver => (fun _ => RUnit) <$> (mc_fog_resolver_free fog_resolver)
| C_fog_resolver_add_report_response fog_resolver report_url report_response out_error => RBool <$>
      (mc_fog_resolver_add_report_response fog_resolver report_url report_response out_error)
| C_fog_rng_create subaddress_view_private_key rng_public_key rng_version out_error => RPtr <$>
      (mc_fog_rng_create subaddress_view_private_key rng_public_key rng_version out_error)
| C_fog_rng_free fog_rng => (fun _ => RUnit) <$> (mc_fog_rng_free fog_rng)
| C_fog_rng_clone fog_rng => RPtr <$> (mc_fog_rng_clone fog_rng)
| C_fog_rng_serialize_proto fog_rng out_fog_rng_proto_bytes => RInt <$> (mc_fog_rng_serialize_proto fog_rng
      out_fog_rng_proto_bytes)
| C_fog_rng_deserialize_proto fog_rng_proto_bytes out_error => RPtr <$> (mc_fog_rng_deserialize_proto
      fog_rng_proto_bytes out_error)
| C_fog_rng_index fog_rng => RInt <$> (mc_fog_rng_index fog_rng)
| C_fog_rng_get_output_len fog_rng => RInt <$> (mc_fog_rng_get_output_len fog_rng)
| C_fog_rng_peek fog_rng out_output => RBool <$> (mc_fog_rng_peek fog_rng out_output)
| C_fog_rng_advance fog_rng out_output => RBool <$> (mc_fog_rng_advance fog_rng out_output)
| C_account_key_get_subaddress_private_keys view_private_key spend_private_key subaddress_index out_view
      out_spend => RBool <$> (mc_account_key_get_subaddress_private_keys view_private_key spend_private_key
      subaddress_index out_view out_spend)
| C_account_key_get_public_address_public_keys view_private_key spend_private_key subaddress_index out_view
      out_spend => RBool <$> (mc_account_key_get_public_address_public_keys view_private_key
      spend_private_key subaddress_index out_view out_spend)
| C_account_key_get_public_address_fog_authority_sig account_key subaddress_index out_sig => RBool <$>
      (mc_account_key_get_public_address_fog_authority_sig account_key subaddress_index out_sig)
| C_printable_wrapper_b58_encode proto_bytes => RPtr <$> (mc_printable_wrapper_b58_encode proto_bytes)
| C_printable_wrapper_b58_decode b58_encoded_string out_proto_bytes out_error => RInt <$>
      (mc_printable_wrapper_b58_decode b58_encoded_string out_proto_bytes out_error)
| C_bip39_mnemonic_from_entropy entropy => RPtr <$> (mc_bip39_mnemonic_from_entropy entropy)
| C_bip39_entropy_from_mnemonic mnemonic out_entropy out_error => RInt <$> (mc_bip39_entropy_from_mnemonic
      mnemonic out_entropy out_error)
| C_bip39_words_by_prefix prefix => RPtr <$> (mc_bip39_words_by_prefix prefix)
| C_slip10_account_private_keys_from_mnemonic mnemonic account_index out_view out_spend out_error => RBool
      <$> (mc_slip10_account_private_keys_from_mnemonic mnemonic account_index out_view out_spend out_error)
| C_mr_enclave_verifier_free mr_enclave_verifier => (fun _ => RUnit) <$> (mc_mr_enclave_verifier_free
      mr_enclave_verifier)
| C_mr_enclave_verifier_create mr_enclave => RPtr <$> (mc_mr_enclave_verifier_create mr_enclave)
| C_mr_enclave_verifier_allow_config_advisory mr_enclave_verifier advisory_id => RBool <$>
      (mc_mr_enclave_verifier_allow_config_advisory mr_enclave_verifier advisory_id)
| C_mr_enclave_verifier_allow_hardening_advisory mr_enclave_verifier advisory_id => RBool <$>
      (mc_mr_enclave_verifier_allow_hardening_advisory mr_enclave_verifier advisory_id)
| C_mr_signer_verifier_free mr_signer_verifier => (fun _ => RUnit) <$> (mc_mr_signer_verifier_free
      mr_signer_verifier)
| C_mr_signer_verifier_create mr_signer expected_product_id minimum_security_version => RPtr <$>
      (mc_mr_signer_verifier_create mr_signer expected_product_id minimum_security_version)
| C_mr_signer_verifier_allow_config_advisory mr_signer_verifier advisory_id => RBool <$>
      (mc_mr_signer_verifier_allow_config_advisory mr_signer_verifier advisory_id)
| C_mr_signer_verifier_allow_hardening_advisory mr_signer_verifier advisory_id => RBool <$>
      (mc_mr_signer_verifier_allow_hardening_advisory mr_signer_verifier advisory_id)
| C_verifier_create => RPtr <$> (mc_verifier_create)
| C_verifier_free verifier => (fun _ => RUnit) <$> (mc_verifier_free verifier)
| C_verifier_add_mr_enclave verifier mr_enclave_verifier => RBool <$> (mc_verifier_add_mr_enclave verifier
      mr_enclave_verifier)
| C_verifier_add_mr_signer verifier mr_signer_verifier => RBool <$> (mc_verifier_add_mr_signer verifier
      mr_signer_verifier)
| C_attest_ake_create => RPtr <$> (mc_attest_ake_create)
| C_attest_ake_free attest_ake => (fun _ => RUnit) <$> (mc_attest_ake_free attest_ake)
| C_attest_ake_is_attested attest_ake out_attested => RBool <$> (mc_attest_ake_is_attested attest_ake
      out_attested)
| C_attest_ake_get_binding attest_ake out_binding => RInt <$> (mc_attest_ake_get_binding attest_ake
      out_binding)
| C_attest_ake_get_auth_request mc_rng attest_ake responder_id rng_callback out_auth_request => RInt <$>
      (mc_attest_ake_get_auth_request mc_rng attest_ake responder_id rng_callback out_auth_request)
| C_attest_ake_process_auth_response attest_ake auth_response_data verifier out_error => RBool <$>
      (mc_attest_ake_process_auth_response attest_ake auth_response_data verifier out_error)
| C_attest_ake_encrypt attest_ake aad plaintext out_ciphertext out_error => RInt <$> (mc_attest_ake_encrypt
      attest_ake aad plaintext out_ciphertext out_error)
| C_attest_ake_decrypt attest_ake aad ciphertext out_plaintext out_error => RInt <$> (mc_attest_ake_decrypt
      attest_ake aad ciphertext out_plaintext out_error)
| C_tx_out_matches_any_subaddress tx_out_amount tx_out_public_key view_private_key out_matches => RBool <$>
      (mc_tx_out_matches_any_subaddress tx_out_amount tx_out_public_key view_private_key out_matches)
| C_tx_out_matches_subaddress tx_out_target_key tx_out_public_key view_private_key spend_private_key
      out_matches => RBool <$> (mc_tx_out_matches_subaddress tx_out_target_key tx_out_public_key
      view_private_key spend_private_key out_matches)
| C_tx_out_get_subaddress_spend_public_key tx_out_target_key tx_out_public_key view_private_key
      out_public_key out_error => RBool <$> (mc_tx_out_get_subaddress_spend_public_key tx_out_target_key
      tx_out_public_key view_private_key out_public_key out_error)
| C_tx_out_get_value tx_out_amount tx_out_public_key view_private_key out_value out_error => RBool <$>
      (mc_tx_out_get_value tx_out_amount tx_out_public_key view_private_key out_value out_error)
| C_tx_out_get_key_image tx_out_target_key tx_out_public_key view_private_key spend_private_key
      out_key_image out_error => RBool <$> (mc_tx_out_get_key_image tx_out_target_key tx_out_public_key
      view_private_key spend_private_key out_key_image out_error)
| C_tx_out_validate_confirmation_number tx_out_public_key confirmation_number view_private_key out_valid =>
      RBool <$> (mc_tx_out_validate_confirmation_number tx_out_public_key confirmation_number
      view_private_key out_valid)
| C_transaction_builder_ring_create => RPtr <$> (mc_transaction_builder_ring_create)
| C_transaction_builder_ring_free ring => (fun _ => RUnit) <$> (mc_transaction_builder_ring_free ring)
| C_transaction_builder_ring_add_element ring tx_out_proto_bytes proof_proto_bytes => RBool <$>
      (mc_transaction_builder_ring_add_element ring tx_out_proto_bytes proof_proto_bytes)
| C_transaction_builder_create fee tombstone_block fog_resolver => RPtr <$> (mc_transaction_builder_create
      fee tombstone_block fog_resolver)
| C_transaction_builder_free transaction_builder => (fun _ => RUnit) <$> (mc_transaction_builder_free
      transaction_builder)
| C_transaction_builder_add_input transaction_builder view_private_key spend_private_key real_index ring
      out_error => RBool <$> (mc_transaction_builder_add_input transaction_builder view_private_key
      spend_private_key real_index ring out_error)
| C_transaction_builder_add_output mc_rng transaction_builder amount recipient_address rng_callback
      out_confirmation out_error => RPtr <$> (mc_transaction_builder_add_output mc_rng transaction_builder
      amount recipient_address rng_callback out_confirmation out_error)
| C_transaction_builder_add_output_with_fog_hint_address mc_rng transaction_builder amount recipient_address
      fog_hint_address rng_callback out_confirmation out_error => RPtr <$>
      (mc_transaction_builder_add_output_with_fog_hint_address mc_rng transaction_builder amount
      recipient_address fog_hint_address rng_callback out_confirmation out_error)
| C_transaction_builder_build mc_rng transaction_builder rng_callback out_error => RPtr <$>
      (mc_transaction_builder_build mc_rng transaction_builder rng_callback out_error)
  end.

(** ** The contract *)

Definition account_key_fog_ok (m : Memory) (s : McAccountKeyFogInfo) : Prop :=
  str_arg m (akf_report_url s) /\ str_arg m (akf_report_id s) /\ buffer_arg m (akf_authority_spki s).
Definition account_key_ok (m : Memory) (s : McAccountKey) : Prop :=
  buffer_arg m (ak_view_private_key s) /\ buffer_arg m (ak_spend_private_key s)
  /\ points_to m (fun o => match o with
       | CStruct (SAccountKeyFogInfo s) => account_key_fog_ok m s | _ => False end) (ak_fog_info s).

Definition address_fog_ok (m : Memory) (s : McPublicAddressFogInfo) : Prop :=
  str_arg m (paf_report_url s) /\ str_arg m (paf_report_id s) /\ buffer_arg m (paf_authority_sig s).
Definition address_ok (m : Memory) (s : McPublicAddress) : Prop :=
  buffer_arg m (pa_view_public_key s) /\ buffer_arg m (pa_spend_public_key s)
  /\ points_to m (fun o => match o with
       | CStruct (SPublicAddressFogInfo s) => address_fog_ok m s | _ => False end) (pa_fog_info s).

(** Something the caller holds, or null. *)
Definition held_arg (held : gset Loc) (p : Ptr) : Prop :=
  match p with None => True | Some l => l ∈ held end.

Definition arg_ok (m : Memory) (held : gset Loc) (arg : ArgKind * Ptr) : Prop :=
  let '(k, p) := arg in
  match k with
  | ABuffer => buffer_arg m p
  | AStr => str_arg m p
  | ABool => bool_arg m p
  | AU64 => u64_arg m p
  | ASlot => slot_arg m p
  | ACallback => callback_arg m p
  | AHandle k => handle_arg m k p
  | AAccountKey => points_to m (fun o => match o with
      | CStruct (SAccountKey s) => account_key_ok m s | _ => False end) p
  | AAddress => points_to m (fun o => match o with
      | CStruct (SPublicAddress s) => address_ok m s | _ => False end) p
  | AAmount => points_to m (fun o => match o with
      | CStruct (STxOutAmount s) => buffer_arg m (ta_commitment s) | _ => False end) p
  | AOwned k => handle_arg m k p /\ held_arg held p
  | AOwnedStr => points_to m (fun o => is_Some (as_owned_str o)) p /\ held_arg held p
  | AOwnedError => points_to m (fun o => is_Some (as_error o)) p /\ held_arg held p
  end.

(** ** The caller *)

Record World := mkWorld { w_mem : Memory; w_held : gset Loc }.

Definition call_ok (w : World) (c : LibCall) : Prop := Forall (arg_ok (w_mem w) (w_held w)) (args c).

(** What a call takes over from the caller and what it hands out. *)
Definition given_back (c : LibCall) : Ptr :=
  match args c with
  | (AOwned _, p) :: _ | (AOwnedStr, p) :: _ | (AOwnedError, p) :: _ => p
  | _ => None
  end.
Definition returned (r : Ret) : Ptr := match r with RPtr p => p | _ => None end.

Definition held_after (c : LibCall) (r : Ret) (held : gset Loc) : gset Loc :=
  held_plus (match given_back c with Some l => held ∖ {[l]} | None => held end) (returned r).

(** Memory that the caller may overwrite: its own, with no error in it. *)
Definition is_own (o : Object) : bool :=
  match o with
  | Boxed _ | BoxedError _ | BoxedStr _ | CErrorSlot (Some _) => false
  | _ => true
  end.

Definition may_write (m : Memory) (l : Loc) : Prop :=
  forall o, m !! l = Some o -> is_own o = true.

Inductive client_step : World -> World -> Prop :=
| step_call m held c r m' :
    call_ok (mkWorld m held) c -> run_call c m = Returned r m' ->
    client_step (mkWorld m held) (mkWorld m' (held_after c r held))
| step_write m held l o :
    may_write m l -> is_own o = true -> client_step (mkWorld m held) (mkWorld (<[l := o]> m) held)
| step_release m held l :
    may_write m l -> client_step (mkWorld m held) (mkWorld (delete l m) held)
| step_take m held s e :
    m !! s = Some (CErrorSlot (Some e)) ->
    client_step (mkWorld m held) (mkWorld (<[s := CErrorSlot None]> m) ({[e]} ∪ held)).

Definition client_reachable : World -> Prop := rtc client_step (mkWorld ∅ ∅).
End api.
