(* ===== verification/LibMcSafe.v ===== *)
(** * The C interface is memory safe

    The bodies of all functions of [LibMcApi] keep the shape of the memory, so
    every call that keeps the contract returns, whatever its data; the owner of
    everything that the library has allocated is known after any number of
    calls.  The theorems are about every program that uses the library. *)

From S2P Require Import Prelude FogTypes KexRng Ffi FfiSpec FfiAccount LibMc LibMcAttest LibMcTransaction LibMcApi.

Local Open Scope Z_scope.

Create HintDb ffi.

Section safe.
Context `{C : McCrates}.
Implicit Types m : Memory.

(** ** Triples of the building blocks *)

Lemma typed_rng : typed as_rng KRng.
Proof. intros []; split; intros H; try done; by inversion H. Qed.
Lemma typed_resolver : typed as_resolver KResolver.
Proof. intros []; split; intros H; try done; by inversion H. Qed.
Lemma typed_mr_enclave : typed as_mr_enclave KMrEnclave.
Proof. intros []; split; intros H; try done; by inversion H. Qed.
Lemma typed_mr_signer : typed as_mr_signer KMrSigner.
Proof. intros []; split; intros H; try done; by inversion H. Qed.
Lemma typed_verifier : typed as_verifier KVerifier.
Proof. intros []; split; intros H; try done; by inversion H. Qed.
Lemma typed_ake : typed as_ake KAke.
Proof. intros []; split; intros H; try done; by inversion H. Qed.
Lemma typed_ring : typed as_ring KRing.
Proof. intros []; split; intros H; try done; by inversion H. Qed.
Lemma typed_builder : typed as_builder KBuilder.
Proof. intros []; split; intros H; try done; by inversion H. Qed.
Lemma typed_data : typed as_data KData.
Proof. intros []; split; intros H; try done; by inversion H. Qed.

Hint Resolve typed_rng typed_resolver typed_mr_enclave typed_mr_signer typed_verifier typed_ake
  typed_ring typed_builder typed_data : ffi.

Lemma post_true {A} m0 (c : ffi A) Q : ffi_post m0 c Q -> ffi_post m0 c (fun _ => True).
Proof. intros H; by eapply post_weaken. Qed.

Lemma post_ref m0 {A} (as_type : McHandle -> option A) k p :
  typed as_type k -> handle_arg m0 k p -> ffi_post m0 (ref_handle as_type p) (fun _ => True).
Proof. intros; by eapply post_ref_handle. Qed.

Lemma post_mut m0 {A} (as_type : McHandle -> option A) k p :
  typed as_type k -> handle_arg m0 k p ->
  ffi_post m0 (mut_handle as_type p) (fun '(l, _) => at_handle m0 k l).
Proof. intros; by apply post_mut_handle. Qed.

Lemma post_set m0 l h : at_handle m0 (mc_kind h) l -> ffi_post m0 (set_handle l h) (fun _ => True).
Proof. intros; by eapply post_store_handle. Qed.

Lemma post_opt_ref_handle {A} m0 (as_type : McHandle -> option A) k p :
  typed as_type k -> handle_arg m0 k p ->
  ffi_post m0 (FfiOptRefPtr_as_ref (as_handle as_type) p) (fun _ => True).
Proof.
  intros Ht Hp; destruct p as [l|]; [|by apply post_ret]; simpl.
  apply post_bind with (fun _ => True); [by eapply post_as_handle|]; intros; by apply post_ret.
Qed.

Lemma post_ref_buffer m0 p : buffer_arg m0 p -> ffi_post m0 (ref_buffer p) (buffer_ok m0).
Proof. apply post_buffer. Qed.

Lemma post_slice_arg m0 p : buffer_arg m0 p -> ffi_post m0 (slice_arg p) (fun _ => True).
Proof.
  intros Hp; eapply post_bind; [by apply post_ref_buffer|]; intros b Hb.
  by eapply post_true, post_as_slice.
Qed.

Lemma post_bytes32 m0 b : buffer_ok m0 b -> ffi_post m0 (bytes32_try_from_ffi b) (fun _ => True).
Proof. intros; by eapply post_true, post_as_slice_of_len. Qed.

Lemma post_public_arg m0 p : buffer_arg m0 p -> ffi_post m0 (public_arg p) (fun _ => True).
Proof.
  intros Hp; eapply post_bind; [by apply post_ref_buffer|]; intros b Hb.
  eapply post_bind; [by apply post_bytes32|]; intros r _; apply post_try; intros; by try apply post_ret.
Qed.

Lemma post_private_arg m0 p : buffer_arg m0 p -> ffi_post m0 (private_arg p) (fun _ => True).
Proof.
  intros Hp; eapply post_bind; [by apply post_ref_buffer|]; intros b Hb.
  eapply post_bind; [by apply post_bytes32|]; intros r _; apply post_try; intros; by try apply post_ret.
Qed.

Lemma post_private_expect m0 p : buffer_arg m0 p -> ffi_post m0 (private_expect p) (fun _ => True).
Proof. intros Hp; eapply post_bind; [by apply post_private_arg|]; intros; by apply post_expect. Qed.

Lemma post_out_slice m0 p n : buffer_arg m0 p -> ffi_post m0 (out_slice p n) (slice_ok m0).
Proof.
  intros Hp; eapply post_bind; [by apply post_mut_buffer|]; intros [l b] Hb.
  eapply post_bind; [by apply post_as_slice_mut|]; intros r Hr; by apply post_expect.
Qed.

Lemma post_expect_slice m0 {E} (r : result SliceMut E) :
  (forall s, r = Ok s -> slice_ok m0 s) -> ffi_post m0 (expect r) (slice_ok m0).
Proof. apply post_expect. Qed.

Lemma post_write_out m0 p src : buffer_arg m0 p -> ffi_post m0 (write_out p src) (fun _ => True).
Proof. intros Hp; eapply post_bind; [by apply post_out_slice|]; intros s Hs; by apply post_copy. Qed.

Lemma post_write_out_opt m0 p src : buffer_arg m0 p -> ffi_post m0 (write_out_opt p src) (fun _ => True).
Proof.
  intros Hp; unfold write_out_opt; destruct p; [by apply post_write_out|by apply post_ret].
Qed.

Lemma post_ssize_len m0 src : ffi_post m0 (ssize_len src) (fun _ => True).
Proof. by apply post_expect. Qed.

Lemma post_set_bool m0 p b : bool_arg m0 p -> ffi_post m0 (set_bool p b) (fun _ => True).
Proof.
  intros Hp; eapply post_bind; [by apply post_mut_stable; [apply stable_bool|]|].
  intros [l ?] Hl; by apply post_store_bool.
Qed.

Lemma post_mut_u64 m0 p : u64_arg m0 p ->
  ffi_post m0 (FfiMutPtr_into_mut as_u64_object p) (fun '(l, _) => u64_arg m0 (Some l)).
Proof. intros; by apply post_mut_stable; [apply stable_u64|]. Qed.

Lemma post_string m0 p : str_arg m0 p -> ffi_post m0 (str_try_from_ffi p) (fun _ => True).
Proof. intros; by apply post_str. Qed.

Lemma post_responder_id m0 p : str_arg m0 p -> ffi_post m0 (responder_id_try_from_ffi p) (fun _ => True).
Proof.
  intros Hp; eapply post_bind; [by apply post_string|]; intros r _; apply post_try; intros; by try apply post_ret.
Qed.

Lemma post_rng m0 {A} p mc_rng (f : SdkRng -> A * SdkRng) :
  callback_arg m0 p -> ffi_post m0 (with_sdk_rng p mc_rng f) (fun _ => True).
Proof.
  intros Hp; unfold with_sdk_rng; destruct p as [l|]; simpl; [|by apply post_ret].
  apply post_bind with (fun r => exists c, r = Some (l, c)).
  { apply post_bind with (fun _ => True).
    { exact (post_load_stable (A := Callback) m0 as_callback l _ stable_callback Hp (fun _ => I)). }
    intros c _; apply post_ret; eauto. }
  intros ? [c ->]; destruct (f (CallbackRng c)) as [a [c'|]].
  - eapply post_bind; [by apply post_store_callback|]; intros; by apply post_ret.
  - eapply post_bind; [by apply (post_ret _ _ (fun _ => True))|]; intros; by apply post_ret.
Qed.

(** ** Structs *)

Lemma post_struct {A} m0 (as_type : McStruct -> option A) (P : A -> Prop) p :
  points_to m0 (fun o => match o with
    | CStruct s => match as_type s with Some a => P a | None => False end | _ => False end) p ->
  ffi_post m0 (FfiRefPtr_as_ref (as_struct as_type) p) P.
Proof.
  intros Hp; destruct p as [l|]; [|apply post_panic]; destruct Hp as (o & Hl & Ho).
  apply post_load with o; [done|]; intros o' Hs; destruct o; try done; simpl in Hs; subst o'; simpl.
  destruct (as_type s); [eauto|done].
Qed.

Lemma post_opt_struct {A} m0 (as_type : McStruct -> option A) (P : A -> Prop) p :
  points_to m0 (fun o => match o with
    | CStruct s => match as_type s with Some a => P a | None => False end | _ => False end) p ->
  ffi_post m0 (FfiOptRefPtr_as_ref (as_struct as_type) p) (fun r => forall a, r = Some a -> P a).
Proof.
  intros Hp; destruct p as [l|]; [|by apply post_ret]; simpl.
  eapply post_bind; [exact (post_struct m0 as_type P (Some l) Hp)|].
  intros a Ha; apply post_ret; by intros ? [= <-].
Qed.

Lemma points_to_mono m (P Q : Object -> Prop) p : (forall o, P o -> Q o) -> points_to m P p -> points_to m Q p.
Proof. intros H; destruct p; [|done]; intros (o & ? & ?); exists o; auto. Qed.

Lemma post_account_key m0 s :
  account_key_ok m0 s -> ffi_post m0 (account_key_try_from_ffi s) (fun _ => True).
Proof.
  intros (H1 & H2 & H3).
  eapply post_bind; [by apply post_private_arg|]; intros r1 _; apply post_try; [intros view _|done].
  eapply post_bind; [by apply post_private_arg|]; intros r2 _; apply post_try; [intros spend _|done].
  eapply post_bind; [apply (post_opt_struct m0 as_account_key_fog (account_key_fog_ok m0))|].
  { eapply points_to_mono; [|exact H3]; by intros [| | | | | | | | |[]|]. }
  intros [fog|] Hfog; [|by apply post_ret]; destruct (Hfog fog eq_refl) as (H4 & H5 & H6).
  eapply post_bind; [by apply post_string|]; intros r3 _; apply post_try; [intros url _|done].
  eapply post_bind; [by apply post_string|]; intros r4 _; apply post_try; [intros id _|done].
  eapply post_bind; [by apply post_slice_arg|]; intros spki _; by apply post_ret.
Qed.

Lemma post_public_address m0 s :
  address_ok m0 s -> ffi_post m0 (public_address_try_from_ffi s) (fun _ => True).
Proof.
  intros (H1 & H2 & H3).
  eapply post_bind; [by apply post_public_arg|]; intros r1 _; apply post_try; [intros view _|done].
  eapply post_bind; [by apply post_public_arg|]; intros r2 _; apply post_try; [intros spend _|done].
  eapply post_bind; [apply (post_opt_struct m0 as_public_address_fog (address_fog_ok m0))|].
  { eapply points_to_mono; [|exact H3]; by intros [| | | | | | | | |[]|]. }
  intros [fog|] Hfog; [|by apply post_ret]; destruct (Hfog fog eq_refl) as (H4 & H5 & H6).
  eapply post_bind; [by apply post_string|]; intros r3 _; apply post_try; [intros url _|done].
  eapply post_bind; [by apply post_string|]; intros r4 _; apply post_try; [intros id _|done].
  eapply post_bind; [by apply post_slice_arg|]; intros sig _; by apply post_ret.
Qed.

Lemma post_account_key_arg m0 p :
  arg_ok m0 ∅ (AAccountKey, p) ->
  ffi_post m0 (FfiRefPtr_as_ref (as_struct as_account_key) p) (account_key_ok m0).
Proof.
  intros Hp; apply post_struct; eapply points_to_mono; [|exact Hp]; by intros [| | | | | | | | |[]|].
Qed.

Lemma post_address m0 p :
  arg_ok m0 ∅ (AAddress, p) -> ffi_post m0 (address_expect p) (fun _ => True).
Proof.
  intros Hp; eapply post_bind; [apply (post_struct m0 as_public_address (address_ok m0))|].
  { eapply points_to_mono; [|exact Hp]; by intros [| | | | | | | | |[]|]. }
  intros s Hs; eapply post_bind; [by apply post_public_address|]; intros; by apply post_expect.
Qed.

Lemma post_amount m0 p :
  arg_ok m0 ∅ (AAmount, p) -> ffi_post m0 (amount_arg p) (fun _ => True).
Proof.
  intros Hp; eapply post_bind.
  { apply (post_struct m0 as_tx_out_amount (fun s => buffer_arg m0 (ta_commitment s))).
    eapply points_to_mono; [|exact Hp]; by intros [| | | | | | | | |[]|]. }
  intros s Hs; eapply post_bind; [by apply post_ref_buffer|]; intros b Hb.
  eapply post_bind; [by apply post_bytes32|]; intros r _; apply post_try; [intros; by apply post_ret|done].
Qed.

(** ** Calls *)

(** The call returns, and what is owned afterwards is known. *)
Definition safe (run : ffi Ret) (back : Ptr) m held : Prop :=
  exists r m', run m = Returned r m' /\
    accounted m' (held_plus (match back with Some l => held ∖ {[l]} | None => held end) (returned r)).

(** Calls without an owned argument. *)
Lemma boundary_call {A I} (IF : IntoFfi A I) (HD : Hands A I) (f : ffi A) (g : I -> Ret) m held :
  (forall i, returned (g i) = handed i) -> accounted m held -> ffi_post m f (fun _ => True) ->
  safe (g <$> ffi_boundary f) None m held.
Proof.
  intros Hg Hacc Hf; destruct (boundary_accounted m held f _ Hacc Hf) as (i & m' & Hi & Hacc').
  exists (g i), m'; rewrite Hg; split; [|done]; unfold fmap, ffi_fmap, mbind, ffi_bind; by rewrite Hi.
Qed.

Lemma boundary_error_call {A I} (IF : IntoFfi A I) (HD : Hands A I) out_error (f : ffi (result A LibMcError))
  (g : I -> Ret) m held :
  (forall i, returned (g i) = handed i) -> accounted m held -> slot_arg m out_error ->
  ffi_post m f (fun _ => True) -> safe (g <$> ffi_boundary_with_error out_error f) None m held.
Proof.
  intros Hg Hacc Hs Hf.
  destruct (boundary_error_accounted m held out_error f _ Hacc Hs Hf) as (i & m' & Hi & Hacc' & _).
  exists (g i), m'; rewrite Hg; split; [|done]; unfold fmap, ffi_fmap, mbind, ffi_bind; by rewrite Hi.
Qed.
End safe.

#[export] Hint Resolve typed_rng typed_resolver typed_mr_enclave typed_mr_signer typed_verifier typed_ake
  typed_ring typed_builder typed_data : ffi.
#[export] Hint Resolve post_ref post_mut post_set post_opt_ref_handle post_ref_buffer post_slice_arg post_bytes32
  post_public_arg post_private_arg post_private_expect post_out_slice post_copy post_write_out post_write_out_opt
  post_ssize_len post_set_bool post_string post_responder_id post_rng post_account_key post_account_key_arg
  post_address post_amount post_mut_u64 post_store_u64 post_mut_buffer post_as_slice_mut
  post_expect_slice : ffi.

(** Walks through a body: each block by its triple. *)
Ltac ffi_leaf := solve [eauto with ffi nocore | by apply post_expect | by apply post_expect_some | by apply post_ret].
Ltac ffi_body :=
  repeat first
    [ progress cbv beta zeta
    | match goal with
      | |- ffi_post _ (mret _) _ => by apply post_ret
      | |- ffi_post _ ffi_panic _ => apply post_panic
      | |- ffi_post _ (try_ _ _) _ => apply post_try; [intros ? _|done]
      | |- ffi_post _ (match FfiOptMutPtr_into_option ?p with _ => _ end) _ =>
          destruct p; cbn [FfiOptMutPtr_into_option]
      | |- ffi_post _ (let '(_, _) := ?x in _) _ => destruct x
      | |- ffi_post _ (match ?x with _ => _ end) _ => destruct x
      | |- ffi_post _ (if ?b then _ else _) _ => destruct b
      | x : _ * _ |- _ => destruct x
      | |- ffi_post _ (_ ≫= _) _ =>
          first [eapply post_bind; [ffi_leaf|intros ? ?; cbv beta in *] | eapply (post_bind _ _ _ (fun _ => True)); [|intros ? _]]
      | |- ffi_post _ _ _ => ffi_leaf
      end ].

Section calls.
Context `{C : McCrates}.
Implicit Types m : Memory.

(** Takes the contract of a call apart, and runs its body. *)
Ltac call_safe :=
  match goal with
  | H : call_ok _ _ |- _ =>
      unfold call_ok in H; simpl in H; rewrite ?Forall_cons in H; destruct_and? H; simpl in *
  end;
  first
    [ unshelve notypeclasses refine (boundary_error_call _ _ _ _ _ _ _ _ _ _ _)
    | unshelve notypeclasses refine (boundary_call _ _ _ _ _ _ _ _ _) ];
  [typeclasses eauto|..]; try done;
  ffi_body.

Lemma plain_calls_safe m held c :
  accounted m held -> call_ok (mkWorld m held) c ->
  match args c with (AOwned _, _) :: _ | (AOwnedStr, _) :: _ | (AOwnedError, _) :: _ => True
  | _ => safe (run_call c) (given_back c) m held end.
Proof. intros Hacc Hok; destruct c; try exact I; call_safe. Qed.

(** Giving back: the argument is held, so nothing else owns it. *)
Lemma free_handle_safe {A} (as_type : McHandle -> option A) k p m held :
  typed as_type k -> accounted m held -> arg_ok m held (AOwned k, p) ->
  safe ((fun _ => RUnit) <$> ffi_boundary (R := unit) (I := unit) (FfiOptOwnedPtr_drop as_type p)) p m held.
Proof.
  intros Ht Hacc [Hp Hheld]; destruct p as [l|]; [|by exists RUnit, m].
  destruct Hp as (o & Hl & Ho); destruct o as [h| | | | | | | | | |]; try done.
  destruct (proj2 (Ht h) Ho) as [a Ha]; exists RUnit, (delete l m); split; [|by eapply accounted_free].
  unfold fmap, ffi_fmap, ffi_boundary, ffi_boundary_impl, catch_unwind, FfiOptOwnedPtr_drop, mbind, ffi_bind, load.
  by rewrite Hl; simpl; rewrite Ha.
Qed.

Lemma free_string_safe p m held :
  accounted m held -> arg_ok m held (AOwnedStr, p) ->
  safe ((fun _ => RUnit) <$> mc_string_free p) p m held.
Proof.
  intros Hacc [Hp Hheld]; destruct p as [l|]; [|by exists RUnit, m].
  destruct Hp as (o & Hl & [a Ha]); destruct o as [| |s| | | | | | | |]; try done.
  exists RUnit, (delete l m); split; [|by eapply accounted_free].
  unfold fmap, ffi_fmap, mc_string_free, ffi_boundary, ffi_boundary_impl, catch_unwind, FfiOptOwnedStr_drop, mbind, ffi_bind, load.
  by rewrite Hl.
Qed.

Lemma free_error_safe p m held :
  accounted m held -> arg_ok m held (AOwnedError, p) ->
  safe ((fun _ => RUnit) <$> mc_error_free p) p m held.
Proof.
  intros Hacc [Hp Hheld]; destruct p as [l|]; [|by exists RUnit, m].
  destruct Hp as (o & Hl & [a Ha]); destruct o as [|[c dp]| | | | | | | | |]; try done.
  destruct (acc_err _ _ Hacc _ _ Hl) as (d & s & Hdp & Hd); simpl in Hdp; subst dp.
  exists RUnit, (delete l (delete d m)); split; [|by eapply accounted_drop_error].
  unfold fmap, ffi_fmap, mc_error_free, ffi_boundary, ffi_boundary_impl, catch_unwind, McError_drop, mbind, ffi_bind, load.
  rewrite Hl; simpl; unfold mbind, ffi_bind, load; by rewrite Hd.
Qed.

Lemma call_safe_run m held c :
  accounted m held -> call_ok (mkWorld m held) c -> safe (run_call c) (given_back c) m held.
Proof.
  intros Hacc Hok; pose proof (plain_calls_safe m held c Hacc Hok) as Hplain; unfold call_ok in Hok.
  destruct c; try exact Hplain; clear Hplain; apply Forall_cons in Hok as [Hok _];
    first [by eapply free_error_safe | by eapply free_string_safe | eapply free_handle_safe; eauto with ffi].
Qed.

(** ** The caller *)

Lemma accounted_own m held l o :
  may_write m l -> is_own o = true -> accounted m held -> accounted (<[l := o]> m) held.
Proof.
  intros Hl Ho Hacc; pose proof Hacc as [Howned Hu Hh Hs He].
  assert (Hne : forall k x, m !! k = Some x -> is_own x = false -> k <> l) by (intros k x Hk Hx ->; rewrite (Hl x Hk) in Hx; done).
  assert (Hw : forall w k, owns (<[l := o]> m) held w k <-> owns m held w k).
  { intros [|s|e] k; simpl; [done|..].
    - rewrite lookup_insert; case_decide as E; [subst s|done]; split; [by intros [= ->]|].
      intros Hk; by destruct (Hne _ _ Hk eq_refl).
    - setoid_rewrite lookup_insert; case_decide as E; [subst e|done]; split; [by intros [c [= ->]]|].
      intros [c Hk]; by destruct (Hne _ _ Hk eq_refl). }
  assert (Hkeep : forall k x, m !! k = Some x -> is_own x = false -> <[l := o]> m !! k = Some x).
  { intros k x Hk Hx; rewrite lookup_insert_ne; [done|]; intros ->; by destruct (Hne _ _ Hk Hx). }
  assert (Hback : forall k x, <[l := o]> m !! k = Some x -> is_own x = false -> m !! k = Some x).
  { intros k x Hk Hx; rewrite lookup_insert in Hk; case_decide; [by simplify_eq; rewrite Ho in Hx|done]. }
  split.
  - intros k x Hk Hlib; destruct (Howned k x) as [w ?]; [apply Hback; [done|by destruct x]|done|].
    exists w; by apply Hw.
  - intros k w w' H1%Hw H2%Hw; by eapply Hu.
  - intros k Hk; destruct (Hh k Hk) as (x & ? & ?); exists x; split; [apply Hkeep; [done|by destruct x]|done].
  - intros s k Hk; destruct (Hs s k) as [e ?]; [by apply Hback|]; exists e; by apply Hkeep.
  - intros k e Hk; destruct (He k e) as (d & s & ? & ?); [by apply Hback|]; exists d, s; split; [done|]; by apply Hkeep.
Qed.

Lemma accounted_release m held l : may_write m l -> accounted m held -> accounted (delete l m) held.
Proof.
  intros Hl Hacc; destruct (m !! l) as [o|] eqn:Hlo; [|by rewrite delete_id].
  pose proof Hacc as [Howned Hu Hh Hs He]; assert (Ho := Hl o Hlo).
  assert (Hkeep : forall k x, m !! k = Some x -> is_own x = false -> delete l m !! k = Some x).
  { intros k x Hk Hx; rewrite lookup_delete_ne; [done|]; intros ->; simplify_eq; by rewrite Ho in Hx. }
  assert (Hback : forall k x, delete l m !! k = Some x -> m !! k = Some x) by (intros k x [_ ?]%lookup_delete_Some; done).
  assert (Hw : forall w k, owns (delete l m) held w k <-> owns m held w k).
  { intros [|s|e] k; simpl; [done|..]; split; [apply Hback|intros; by apply Hkeep|..].
    - intros [c Hk]; exists c; by apply Hback.
    - intros [c Hk]; exists c; by apply Hkeep. }
  split.
  - intros k x Hk Hlib; destruct (Howned k x) as [w ?]; [by apply Hback|done|]; exists w; by apply Hw.
  - intros k w w' H1%Hw H2%Hw; by eapply Hu.
  - intros k Hk; destruct (Hh k Hk) as (x & ? & ?); exists x; split; [apply Hkeep; [done|by destruct x]|done].
  - intros s k Hk; destruct (Hs s k) as [e ?]; [by apply Hback|]; exists e; by apply Hkeep.
  - intros k e Hk; destruct (He k e) as (d & s & ? & ?); [by apply Hback|]; exists d, s; split; [done|]; by apply Hkeep.
Qed.

Lemma accounted_empty : accounted ∅ ∅.
Proof.
  assert (Hw : forall w l, ~ owns ∅ ∅ w l).
  { intros [|s|e] l; simpl; [set_solver|by rewrite lookup_empty|]; intros [c H]; by rewrite lookup_empty in H. }
  split; intros *.
  - by rewrite lookup_empty.
  - intros H; by destruct (Hw _ _ H).
  - set_solver.
  - by rewrite lookup_empty.
  - by rewrite lookup_empty.
Qed.

Lemma client_accounted w : client_reachable w -> accounted (w_mem w) (w_held w).
Proof.
  refine (rtc_ind_r (fun w => accounted (w_mem w) (w_held w)) (mkWorld ∅ ∅) accounted_empty _ w).
  intros w1 w2 _ Hstep IH; destruct Hstep as [m held c r m' Hok Hrun|m held l o|m held l|m held s e]; simpl in *.
  - destruct (call_safe_run m held c IH Hok) as (r' & m2 & Hrun' & Hacc).
    rewrite Hrun in Hrun'; injection Hrun' as <- <-; exact Hacc.
  - by apply accounted_own.
  - by apply accounted_release.
  - by apply accounted_take.
Qed.

(** C6: For every program that uses the C interface and keeps its contract, after any
    number of calls in any order with any data: a call that keeps the contract
    returns, so it neither touches memory it must not nor unwinds into the
    caller, and once the caller has given back all it holds and has no error in
    a variable, nothing that the library allocated is left. *)
Theorem library_memory_safe w :
  client_reachable w ->
  (forall c, call_ok w c -> exists r m', run_call c (w_mem w) = Returned r m')
  /\ (w_held w = ∅ -> (forall s p, w_mem w !! s = Some (CErrorSlot p) -> p = None) ->
      forall l o, w_mem w !! l = Some o -> is_library o = false).
Proof.
  intros Hacc%client_accounted; split.
  - intros c Hok; destruct w as [m held].
    destruct (call_safe_run m held c Hacc Hok) as (r & m' & Hrun & _); eauto.
  - intros Hheld Hslots l o Hl; destruct (is_library o) eqn:Hlib; [|done].
    destruct (acc_owned _ _ Hacc l o Hl Hlib) as [[|s|e] Hw]; simpl in Hw.
    + rewrite Hheld in Hw; set_solver.
    + by pose proof (Hslots _ _ Hw).
    + destruct Hw as [c He]; destruct (acc_owned _ _ Hacc e _ He eq_refl) as [[|s|e'] Hw]; simpl in Hw.
      * rewrite Hheld in Hw; set_solver.
      * by pose proof (Hslots _ _ Hw).
      * destruct Hw as [c' He']; destruct (acc_err _ _ Hacc _ _ He') as (d & t & [= <-] & Hd); congruence.
Qed.
End calls.
