(* ===== verification/LibMcSpec.v ===== *)
(** * What the C interface computes

    A phone draws the search keys of its user through the C interface, also
    across saving its rng and loading it again.  One theorem follows such a
    session to the keys the ingest enclave uses; another shows what the
    function that should derive a public key does. *)

From S2P Require Import Prelude FogTypes KexRng Ffi FfiSpec FfiAccount LibMc LibMcAttest LibMcTransaction LibMcApi.

Local Open Scope Z_scope.

(** What is documented of keys, the hash and the encoding of an rng. *)
Class McLaws `{C : McCrates} : Prop := {
  private_roundtrip : forall k, private_try_from (private_bytes k) = Ok k;
  private_length : forall k, length (private_bytes k) = 32%nat;
  public_length : forall p, length (public_to_bytes p) = 32%nat;
  blake2b_length : forall bs, (16 <= length (blake2b bs))%nat;
  stored_rng_codec : forall s, stored_rng_decode (stored_rng_encode s) = Ok s;
  stored_rng_nonempty : forall s, stored_rng_encode s <> [];
}.

Section spec.
Context `{C : McCrates}.
Implicit Types m : Memory.

(** ** Running the building blocks *)

(** A buffer struct at [b] for the first [len] of the bytes at [q]. *)
Definition buffer_at m (b q : Loc) (len : Z) (bs : bytes) : Prop :=
  m !! b = Some (CBuffer (mkMcBuffer (Some q) len)) /\ m !! q = Some (CBytes bs)
  /\ 0 < len <= Z.of_nat (length bs).

Lemma ref_buffer_run m b q len bs :
  buffer_at m b q len bs -> ref_buffer (Some b) m = Returned (mkMcBuffer (Some q) len) m.
Proof. intros (Hb & _); unfold ref_buffer, FfiRefPtr_as_ref, load; by rewrite Hb. Qed.

Lemma from_raw_parts_run m b q len bs :
  buffer_at m b q len bs -> from_raw_parts q len m = Returned (take (Z.to_nat len) bs) m.
Proof.
  intros (_ & Hq & Hlen); unfold from_raw_parts, mbind, ffi_bind, load; rewrite Hq; simpl.
  by rewrite (proj2 (Z.leb_le _ _)) by lia.
Qed.

Lemma as_slice_run m b q len bs :
  buffer_at m b q len bs -> as_slice (mkMcBuffer (Some q) len) m = Returned (take (Z.to_nat len) bs) m.
Proof.
  intros Hb; unfold as_slice; simpl; rewrite (proj2 (Z.eqb_neq _ _)) by (destruct Hb as (_ & _ & ?); lia).
  unfold mbind, ffi_bind; simpl; by eapply from_raw_parts_run.
Qed.

Lemma slice_arg_run m b q len bs :
  buffer_at m b q len bs -> slice_arg (Some b) m = Returned (take (Z.to_nat len) bs) m.
Proof.
  intros Hb; unfold slice_arg, mbind, ffi_bind; rewrite (ref_buffer_run _ _ _ _ _ Hb); by eapply as_slice_run.
Qed.

Lemma out_slice_run m b q len bs n :
  buffer_at m b q len bs ->
  out_slice (Some b) n m = if len <? Z.of_nat n then Unwinds m else Returned (mkSliceMut (Some q) n) m.
Proof.
  intros Hb; pose proof Hb as (Hbb & Hq & Hlen).
  unfold out_slice, FfiMutPtr_into_mut, mbind, ffi_bind, load; rewrite Hbb; simpl.
  unfold as_slice_mut_of_len; simpl; destruct (Z.ltb_spec len (Z.of_nat n)); [done|].
  rewrite (proj2 (Z.eqb_neq _ _)) by lia; unfold mbind, ffi_bind; simpl.
  by rewrite (from_raw_parts_run _ _ _ _ _ Hb).
Qed.

Lemma copy_run m q n bs src :
  m !! q = Some (CBytes bs) -> length src = n -> (n <= length bs)%nat ->
  copy_from_slice (mkSliceMut (Some q) n) src m = Returned tt (<[q := CBytes (src ++ drop n bs)]> m).
Proof.
  intros Hq <- Hn; unfold copy_from_slice; simpl; rewrite Nat.eqb_refl; simpl.
  unfold mbind, ffi_bind, load; rewrite Hq; simpl; by rewrite (proj2 (Nat.leb_le _ _)).
Qed.

Lemma write_out_run m b q len bs src :
  buffer_at m b q len bs ->
  write_out (Some b) src m
  = if len <? Z.of_nat (length src) then Unwinds m
    else Returned tt (<[q := CBytes (src ++ drop (length src) bs)]> m).
Proof.
  intros Hb; unfold write_out, mbind, ffi_bind; rewrite (out_slice_run _ _ _ _ _ _ Hb).
  destruct (Z.ltb_spec len (Z.of_nat (length src))); [done|].
  pose proof Hb as (_ & Hq & ?); apply copy_run; [done|done|lia].
Qed.

Lemma private_expect_run m b q len bs k :
  buffer_at m b q len bs -> 32 <= len -> private_try_from (take 32 bs) = Ok k ->
  private_expect (Some b) m = Returned k m.
Proof.
  intros Hb Hlen Hk; unfold private_expect, private_arg, mbind, ffi_bind.
  rewrite (ref_buffer_run _ _ _ _ _ Hb); unfold private_try_from_ffi, bytes32_try_from_ffi, as_slice_of_len, mbind, ffi_bind; simpl.
  rewrite (proj2 (Z.ltb_ge _ _)) by lia; unfold mbind, ffi_bind; rewrite (as_slice_run _ _ _ _ _ Hb); simpl.
  rewrite take_take, Nat.min_l by lia; by rewrite Hk.
Qed.

Lemma ref_rng_run m p r : m !! p = Some (Boxed (HRng r)) -> ref_handle as_rng (Some p) m = Returned r m.
Proof. intros Hp; unfold ref_handle, FfiRefPtr_as_ref, load; by rewrite Hp. Qed.

Lemma mut_rng_run m p r : m !! p = Some (Boxed (HRng r)) -> mut_handle as_rng (Some p) m = Returned (p, r) m.
Proof. intros Hp; unfold mut_handle, FfiMutPtr_into_mut, mbind, ffi_bind, load; by rewrite Hp. Qed.

(** ** The rng *)

(** An output buffer that is too short: the call says so, and nothing changes. *)
Lemma advance_short m p r b q len bs :
  m !! p = Some (Boxed (HRng r)) -> buffer_at m b q len bs -> len < Z.of_nat (length (peek r)) ->
  mc_fog_rng_advance (Some p) (Some b) m = Returned false m.
Proof.
  intros Hp Hb Hlen; unfold mc_fog_rng_advance, ffi_boundary, ffi_boundary_impl, catch_unwind, mbind, ffi_bind.
  cbn [FfiOptMutPtr_into_option]; rewrite (ref_rng_run _ _ _ Hp), (write_out_run _ _ _ _ _ _ Hb).
  by rewrite (proj2 (Z.ltb_lt _ _)).
Qed.

Lemma advance_run m p r b q len bs :
  m !! p = Some (Boxed (HRng r)) -> buffer_at m b q len bs -> Z.of_nat (length (peek r)) <= len ->
  mc_fog_rng_advance (Some p) (Some b) m
  = Returned true (<[p := Boxed (HRng (advance blake2b r))]>
      (<[q := CBytes (peek r ++ drop (length (peek r)) bs)]> m)).
Proof.
  intros Hp Hb Hlen; unfold mc_fog_rng_advance, ffi_boundary, ffi_boundary_impl, catch_unwind, mbind, ffi_bind.
  cbn [FfiOptMutPtr_into_option]; rewrite (ref_rng_run _ _ _ Hp), (write_out_run _ _ _ _ _ _ Hb).
  rewrite (proj2 (Z.ltb_ge _ _)) by done; rewrite (mut_rng_run _ _ r); [done|].
  rewrite lookup_insert_ne; [done|]; destruct Hb as (_ & Hq & _); congruence.
Qed.

Lemma free_rng_run m p r :
  m !! p = Some (Boxed (HRng r)) -> mc_fog_rng_free (Some p) m = Returned tt (delete p m).
Proof.
  intros Hp; unfold mc_fog_rng_free, ffi_boundary, ffi_boundary_impl, catch_unwind, FfiOptOwnedPtr_drop, mbind, ffi_bind, load.
  by rewrite Hp.
Qed.

Lemma serialize_run m p r b q len bs :
  let encoded := stored_rng_encode (versioned_into_stored blake2b r) in
  m !! p = Some (Boxed (HRng r)) -> buffer_at m b q len bs ->
  Z.of_nat (length encoded) <= len -> Z.of_nat (length encoded) < i64_modulus_half ->
  mc_fog_rng_serialize_proto (Some p) (Some b) m
  = Returned (Z.of_nat (length encoded)) (<[q := CBytes (encoded ++ drop (length encoded) bs)]> m).
Proof.
  intros encoded Hp Hb Hlen Hsize.
  unfold mc_fog_rng_serialize_proto, ffi_boundary, ffi_boundary_impl, catch_unwind, mbind, ffi_bind.
  rewrite (ref_rng_run _ _ _ Hp); cbv zeta; unfold write_out_opt; cbn [FfiOptMutPtr_into_option].
  rewrite (write_out_run _ _ _ _ _ _ Hb); fold encoded; rewrite (proj2 (Z.ltb_ge _ _)) by done.
  unfold ssize_len, ssize_try_from; by rewrite (proj2 (Z.ltb_lt _ _)).
Qed.

Lemma deserialize_run m b q len bs s r out_error :
  buffer_at m b q len bs -> stored_rng_decode (take (Z.to_nat len) bs) = Ok s ->
  versioned_try_from_stored blake2b s = Ok r ->
  mc_fog_rng_deserialize_proto (Some b) out_error m
  = Returned (Some (fresh (dom m))) (<[fresh (dom m) := Boxed (HRng r)]> m).
Proof.
  intros Hb Hs Hr; unfold mc_fog_rng_deserialize_proto, ffi_boundary_with_error, ffi_boundary_impl, catch_unwind, mbind, ffi_bind.
  by rewrite (slice_arg_run _ _ _ _ _ Hb), Hs; simpl; rewrite Hr.
Qed.

Lemma create_run m a aq alen abs b bq blen bbs u pubkey r out_error :
  buffer_at m a aq alen abs -> 32 <= alen -> private_try_from (take 32 abs) = Ok u ->
  buffer_at m b bq blen bbs -> take (Z.to_nat blen) bbs = krp_public_key pubkey ->
  versioned_try_from_kex_pubkey blake2b pubkey u = Ok r ->
  mc_fog_rng_create (Some a) (Some b) (krp_version pubkey) out_error m
  = Returned (Some (fresh (dom m))) (<[fresh (dom m) := Boxed (HRng r)]> m).
Proof.
  intros Ha Halen Hu Hb Hpub Hr; unfold mc_fog_rng_create, ffi_boundary_with_error, ffi_boundary_impl, catch_unwind, mbind, ffi_bind.
  rewrite (private_expect_run _ _ _ _ _ _ Ha Halen Hu), (slice_arg_run _ _ _ _ _ Hb), Hpub.
  destruct pubkey; cbv zeta; simpl; by rewrite Hr.
Qed.

(** ** A session of a phone *)

(** Draw [n] keys of 16 bytes; the caller reads its own bytes at [q]. *)
Definition read_bytes (q : Loc) (n : nat) : ffi bytes := bs ← load as_bytes q; mret (take n bs).

Fixpoint draw (n : nat) (p out : Ptr) (q : Loc) : ffi (list bytes) :=
  match n with
  | O => mret []
  | S n =>
      mc_fog_rng_advance p out;;
      key ← read_bytes q 16;
      keys ← draw n p out q;
      mret (key :: keys)
  end.

(** Save an rng and give it back.  [t] is the buffer struct for the saved rng,
    whose length the caller sets to the length it was told. *)
Definition save_rng (p : Ptr) (t tq : Loc) : ffi unit :=
  len ← mc_fog_rng_serialize_proto p (Some t);
  mc_fog_rng_free p;;
  store t (CBuffer (mkMcBuffer (Some tq) len)).

(** Create an rng, draw [n] keys and save it; later load it and draw [k] more. *)
Definition phone_session (n k : nat) (private_key public_key : Ptr) (version : Z) (out : Ptr) (q t tq : Loc)
  : ffi (list bytes) :=
  p ← mc_fog_rng_create private_key public_key version None;
  keys ← draw n p out q;
  save_rng p t tq;;
  p ← mc_fog_rng_deserialize_proto (Some t) None;
  keys' ← draw k p out q;
  mc_fog_rng_free p;;
  mret (keys ++ keys').

Context `{!KexLaws K, !McLaws}.

Lemma peek_length r : rng_wf blake2b r -> length (peek r) = 16%nat.
Proof.
  intros Hwf; rewrite (rng_wf_buffer _ _ Hwf); unfold output; cbn [prf KexRng20201124].
  rewrite length_take; pose proof (blake2b_length (ascii_20201124 ++ rng_secret r ++ to_le_bytes (rng_index r))); lia.
Qed.

Lemma draw_run n : forall m p r b q len bs,
  rng_wf blake2b r -> m !! p = Some (Boxed (HRng r)) -> buffer_at m b q len bs -> 16 <= len ->
  exists m' bs', draw n (Some p) (Some b) q m = Returned (rng_take blake2b n r) m'
    /\ m' !! p = Some (Boxed (HRng (advance_n blake2b n r))) /\ buffer_at m' b q len bs'
    /\ (forall l, l <> p -> l <> q -> m' !! l = m !! l).
Proof.
  induction n as [|n IH]; intros m p r b q len bs Hwf Hp Hb Hlen; [by exists m, bs|].
  pose proof Hb as (Hbb & Hq & Hsize); pose proof (peek_length r Hwf) as Hpl.
  cbn [draw]; unfold mbind, ffi_bind; rewrite (advance_run _ _ _ _ _ _ _ Hp Hb) by lia; rewrite Hpl.
  set (m1 := <[p := _]> (<[q := _]> m)).
  assert (Hqp : q <> p) by congruence; assert (Hbp : b <> p) by congruence; assert (Hbq : b <> q) by congruence.
  assert (Hq1 : m1 !! q = Some (CBytes (peek r ++ drop 16 bs))).
  { unfold m1; rewrite lookup_insert_ne by done; apply lookup_insert_eq. }
  assert (Hb1 : buffer_at m1 b q len (peek r ++ drop 16 bs)).
  { split; [unfold m1; by rewrite !lookup_insert_ne|]; split; [done|]; rewrite length_app, length_drop; lia. }
  destruct (IH m1 p (advance blake2b r) b q len _ (advance_wf _ _ Hwf) (lookup_insert_eq _ _ _) Hb1 Hlen)
    as (m' & bs' & Hrun & Hp' & Hb' & Hframe).
  exists m', bs'; rewrite <- advance_n_S; unfold read_bytes, mbind, ffi_bind, load; rewrite Hq1; simpl; rewrite Hrun.
  rewrite take_app_length' by done; split; [done|]; split; [done|]; split; [done|].
  intros l Hlp Hlq; rewrite Hframe by done; unfold m1; by rewrite !lookup_insert_ne.
Qed.

Lemma rng_take_app n k r :
  rng_take blake2b (n + k) r = rng_take blake2b n r ++ rng_take blake2b k (advance_n blake2b n r).
Proof.
  revert r; induction n as [|n IH]; intros r; [done|]; cbn [rng_take Nat.add]; simpl.
  by rewrite IH, advance_n_S.
Qed.

Lemma buffer_at_frame m m' b q len bs :
  buffer_at m b q len bs -> m' !! b = m !! b -> m' !! q = m !! q -> buffer_at m' b q len bs.
Proof. intros (Hb & Hq & Hlen) Eb Eq; split; [by rewrite Eb|]; split; [by rewrite Eq|done]. Qed.

(** Saving: the rng is encoded at [tq], given back, and the struct says so. *)
Lemma save_run m p r t tq tlen tbs :
  let encoded := stored_rng_encode (versioned_into_stored blake2b r) in
  m !! p = Some (Boxed (HRng r)) -> buffer_at m t tq tlen tbs ->
  Z.of_nat (length encoded) <= tlen < i64_modulus_half ->
  exists m', save_rng (Some p) t tq m = Returned tt m'
    /\ (exists bs, buffer_at m' t tq (Z.of_nat (length encoded)) bs /\ take (length encoded) bs = encoded)
    /\ m' !! p = None /\ (forall l, l <> p -> l <> tq -> l <> t -> m' !! l = m !! l).
Proof.
  intros encoded Hp Ht Hlen; pose proof Ht as (Htt & Htq & Hsize).
  assert (t <> p) by congruence; assert (tq <> p) by congruence; assert (t <> tq) by congruence.
  assert (0 < length encoded)%nat.
  { apply Nat.neq_0_lt_0; intros E%nil_length_inv; exact (stored_rng_nonempty _ E). }
  unfold save_rng, mbind, ffi_bind; rewrite (serialize_run _ _ _ _ _ _ _ Hp Ht) by (fold encoded; lia); fold encoded.
  set (m1 := <[tq := _]> m); rewrite (free_rng_run m1 p r) by (unfold m1; by rewrite lookup_insert_ne).
  eexists; split; [done|]; split.
  - exists (encoded ++ drop (length encoded) tbs); split; [|by rewrite take_app_length].
    split; [apply lookup_insert_eq|]; split; [|rewrite length_app; lia].
    rewrite lookup_insert_ne, lookup_delete_ne by done; apply lookup_insert_eq.
  - split; [rewrite lookup_insert_ne by done; apply lookup_delete_eq|].
    intros l ? ? ?; rewrite lookup_insert_ne, lookup_delete_ne by done; unfold m1; by rewrite lookup_insert_ne.
Qed.

(** C7: The search keys a phone draws through the C interface, also when it saves its
    rng, gives it back and goes on with the loaded one, are in order the outputs
    of the rng of the ingest enclave for this user; all calls succeed, and only
    the two buffers of the phone have changed in memory afterwards. *)
Theorem phone_draws_search_keys (n k : nat) (egress_key view_key : Private) m a aq alen abs b bq blen bbs o oq olen obs
  t tq tlen tbs :
  let '(pubkey, rng) := versioned_new_from_static_static blake2b egress_key (public_from view_key) in
  buffer_at m a aq alen abs -> 32 <= alen -> take 32 abs = private_bytes view_key ->
  buffer_at m b bq blen bbs -> take (Z.to_nat blen) bbs = krp_public_key pubkey ->
  buffer_at m o oq olen obs -> 16 <= olen ->
  buffer_at m t tq tlen tbs -> oq <> tq ->
  Z.of_nat (length (stored_rng_encode (versioned_into_stored blake2b (advance_n blake2b n rng)))) <= tlen < i64_modulus_half ->
  exists m', phone_session n k (Some a) (Some b) (krp_version pubkey) (Some o) oq t tq m
      = Returned (rng_take blake2b (n + k) rng) m'
    /\ (forall l, l <> oq -> l <> tq -> l <> t -> m' !! l = m !! l).
Proof.
  pose proof (new_from_static_static_sync blake2b egress_key view_key) as Hsync.
  destruct (versioned_new_from_static_static _ _ _) as [pubkey rng].
  intros Ha Halen Hview Hb Hpub Ho Holen Ht Hqt Hsave.
  assert (Hview' : private_try_from (take 32 abs) = Ok view_key) by (rewrite Hview; apply private_roundtrip).
  pose proof (try_from_kex_pubkey_wf blake2b _ _ _ Hsync) as Hwf.
  unfold phone_session, mbind, ffi_bind.
  rewrite (create_run _ _ _ _ _ _ _ _ _ _ _ _ None Ha Halen Hview' Hb Hpub Hsync).
  set (p := fresh (dom m)); set (m1 := <[p := _]> m); assert (Hp : m !! p = None) by apply fresh_none.
  pose proof Ho as (Hoo & Hoq & _); pose proof Ht as (Htt & Htq & _).
  assert (Ho1 : buffer_at m1 o oq olen obs).
  { eapply buffer_at_frame; [done|..]; unfold m1; rewrite lookup_insert_ne by congruence; done. }
  destruct (draw_run n m1 p rng o oq olen obs Hwf (lookup_insert_eq _ _ _) Ho1 Holen)
    as (m2 & obs2 & Hdraw & Hp2 & Ho2 & Hf2); rewrite Hdraw.
  assert (Hk2 : forall l x, m !! l = Some x -> l <> oq -> m2 !! l = Some x).
  { intros l x Hl Hlq; rewrite Hf2 by congruence; unfold m1; rewrite lookup_insert_ne by congruence; done. }
  assert (Hto : t <> oq) by congruence; assert (Hotq : o <> tq) by congruence; assert (Hot : o <> t) by congruence.
  assert (Ht2 : buffer_at m2 t tq tlen tbs).
  { eapply buffer_at_frame; [done|..]; [rewrite (Hk2 _ _ Htt)|rewrite (Hk2 _ _ Htq)]; congruence. }
  destruct (save_run m2 p _ t tq tlen tbs Hp2 Ht2 Hsave) as (m3 & Hsaved & (bs3 & Ht3 & Henc) & Hp3 & Hf3); rewrite Hsaved.
  set (r' := advance_n blake2b n rng) in *; assert (Hwf' : rng_wf blake2b r') by by apply advance_n_wf.
  rewrite (deserialize_run m3 t tq _ bs3 (versioned_into_stored blake2b r') r' None Ht3);
    [|rewrite Nat2Z.id, Henc; apply stored_rng_codec|apply versioned_stored_roundtrip; [apply blake2b_length|done]].
  set (p' := fresh (dom m3)); set (m4 := <[p' := _]> m3); assert (Hp' : m3 !! p' = None) by apply fresh_none.
  assert (Ho3 : buffer_at m3 o oq olen obs2).
  { pose proof Ho2 as (Hoo2 & Hoq2 & _); eapply buffer_at_frame; [done|..]; apply Hf3; congruence. }
  assert (Ho4 : buffer_at m4 o oq olen obs2).
  { pose proof Ho3 as (Hoo3 & Hoq3 & _).
    eapply buffer_at_frame; [done|..]; unfold m4; rewrite lookup_insert_ne by congruence; done. }
  destruct (draw_run k m4 p' r' o oq olen obs2 Hwf' (lookup_insert_eq _ _ _) Ho4 Holen)
    as (m5 & obs5 & Hdraw5 & Hp5 & _ & Hf5); rewrite Hdraw5, (free_rng_run _ _ _ Hp5).
  exists (delete p' m5); split; [unfold r'; by rewrite rng_take_app|].
  intros l Hlo Hltq Hlt; destruct (decide (l = p')) as [->|Hlp'].
  - rewrite lookup_delete_eq; destruct (decide (p' = p)) as [E|E]; [by rewrite E|].
    rewrite <- Hp', Hf3, Hf2 by done; unfold m1; by rewrite lookup_insert_ne.
  - rewrite lookup_delete_ne, Hf5 by done; unfold m4; rewrite lookup_insert_ne by done.
    destruct (decide (l = p)) as [->|E]; [by rewrite Hp3|].
    rewrite Hf3, Hf2 by done; unfold m1; by rewrite lookup_insert_ne.
Qed.

(** [mc_ristretto_public_from_ristretto_private], given any valid private key and
    room for a public key, succeeds and writes the private key itself; it is the
    public key only if the two have the same bytes. *)
Theorem public_from_private_leaks m b q len bs o oq olen obs k :
  buffer_at m b q len bs -> 32 <= len -> private_try_from (take 32 bs) = Ok k ->
  buffer_at m o oq olen obs -> 32 <= olen ->
  exists m' obs', mc_ristretto_public_from_ristretto_private (Some b) (Some o) m = Returned true m'
    /\ m' !! oq = Some (CBytes obs') /\ take 32 obs' = private_bytes k
    /\ (take 32 obs' = public_to_bytes (public_from k) -> private_bytes k = public_to_bytes (public_from k)).
Proof.
  intros Hb Hlen Hk Ho Holen; exists (<[oq := CBytes (private_bytes k ++ drop 32 obs)]> m), (private_bytes k ++ drop 32 obs).
  assert (Htake : take 32 (private_bytes k ++ drop 32 obs) = private_bytes k).
  { apply take_app_length'; by rewrite private_length. }
  split; [|by rewrite Htake; split; [apply lookup_insert_eq|]].
  unfold mc_ristretto_public_from_ristretto_private, ffi_boundary, ffi_boundary_impl, catch_unwind, mbind, ffi_bind.
  rewrite (private_expect_run _ _ _ _ _ _ Hb Hlen Hk), (out_slice_run _ _ _ _ _ _ Ho).
  rewrite (proj2 (Z.ltb_ge _ _)) by lia.
  pose proof Ho as (_ & Hoq & ?); by rewrite (copy_run _ _ _ obs) by (done || apply private_length || lia).
Qed.
End spec.

(** ** A variable that is used again *)

Section stale.
Context `{C : McCrates} `{!FfiLaws libmc_types}.
Implicit Types m : Memory.

(** A call that fails, whose error is freed, and another one with the same
    variable; then the caller looks at the second error. *)
Definition free_and_reuse (version : Z) (s : Loc) : ffi McError :=
  mc_fog_rng_create None None version (Some s);;
  error ← load as_slot s;
  mc_error_free error;;
  mc_fog_rng_create None None version (Some s);;
  error ← load as_slot s;
  FfiRefPtr_as_ref as_error error.

Lemma panic_description : 0 ∉ error_description (LibPanic fmt_any).
Proof.
  unfold error_description; intros [H|H]%elem_of_app; [|by apply fmt_any_no_nul].
  revert H; vm_decide.
Qed.

(** A failing creation stores a fresh error over the old one. *)
Lemma create_fails version s old m :
  m !! s = Some (CErrorSlot old) ->
  mc_fog_rng_create None None version (Some s) m
  = let d := fresh (dom m) in
    let m1 := <[d := BoxedStr (error_description (LibPanic fmt_any))]> m in
    let e := fresh (dom m1) in
    let m2 := <[e := BoxedError (mkMcError (-2) (Some d))]> m1 in
    match McError_drop old m2 with
    | Returned _ m3 => Returned None (<[s := CErrorSlot (Some e)]> m3)
    | Unwinds m3 => Returned None m3
    | Undefined => Undefined
    end.
Proof.
  intros Hs; unfold mc_fog_rng_create, ffi_boundary_with_error, ffi_boundary_impl, catch_unwind, private_expect, private_arg,
    ref_buffer, FfiRefPtr_as_ref, ffi_panic, mbind, ffi_bind, mret, ffi_ret.
  unfold set_error_or_log, error_handling_ffi_boundary, ffi_boundary_impl, catch_unwind, FfiOptMutPtr_into_mut,
    mc_error_from, McError_new, cstring_new, load, mbind, ffi_bind, mret, ffi_ret.
  generalize panic_description; generalize (error_description (LibPanic fmt_any)) as desc; intros desc Hdesc.
  rewrite Hs; simpl; rewrite (bool_decide_eq_false_2 _ Hdesc); simpl.
  by destruct (McError_drop _ _).
Qed.

Lemma error_free_run m e c d str :
  m !! e = Some (BoxedError (mkMcError c (Some d))) -> m !! d = Some (BoxedStr str) ->
  mc_error_free (Some e) m = Returned tt (delete e (delete d m)).
Proof.
  intros He Hd; unfold mc_error_free, ffi_boundary, ffi_boundary_impl, catch_unwind, McError_drop, mbind, ffi_bind, load.
  rewrite He; simpl; unfold mbind, ffi_bind, load; by rewrite Hd.
Qed.

(** A caller that frees the error of a failed call and passes the same variable to
    the next call runs into undefined behaviour when that call fails too: the
    library frees the pointer that the variable still holds, although the caller
    has not used it again. *)
Theorem error_variable_reuse_undefined version s m :
  m !! s = Some (CErrorSlot None) -> free_and_reuse version s m = Undefined.
Proof.
  intros Hs; unfold free_and_reuse, mbind, ffi_bind; rewrite (create_fails _ _ _ _ Hs); cbn [McError_drop mret ffi_ret].
  set (d := fresh (dom m)); set (m1 := <[d := _]> m); set (e := fresh (dom m1)); set (m2 := <[e := _]> m1).
  assert (Hd : m !! d = None) by apply fresh_none; assert (He : m1 !! e = None) by apply fresh_none.
  assert (Hed : e <> d) by (intros E; unfold m1 in He; by rewrite E, lookup_insert_eq in He).
  assert (Hse : s <> e) by (intros ->; unfold m1 in He; rewrite lookup_insert_ne in He by done; congruence).
  assert (Hsd : s <> d) by congruence.
  cbv zeta; unfold mret, ffi_ret, load at 1; rewrite lookup_insert_eq; simpl.
  rewrite (error_free_run _ e (-2) d (error_description (LibPanic fmt_any)));
    [|unfold m2; lookups|unfold m2, m1; lookups].
  set (m4 := delete e (delete d (<[s := _]> m2))).
  assert (Hs4 : m4 !! s = Some (CErrorSlot (Some e))) by (unfold m4; lookups).
  assert (He4 : m4 !! e = None) by apply lookup_delete_eq.
  rewrite (create_fails _ _ _ _ Hs4); cbv zeta.
  set (d2 := fresh (dom m4)); set (m5 := <[d2 := _]> m4); set (e2 := fresh (dom m5)).
  assert (Hd2 : m4 !! d2 = None) by apply fresh_none; assert (He2 : m5 !! e2 = None) by apply fresh_none.
  assert (He2d : e2 <> d2) by (intros E; unfold m5 in He2; by rewrite E, lookup_insert_eq in He2).
  unfold McError_drop, mbind, ffi_bind, load; destruct (decide (e2 = e)) as [E|Hne].
  - rewrite E in He2d; rewrite E, lookup_insert_eq; simpl; unfold mbind, ffi_bind, load.
    rewrite lookup_insert_ne by done; unfold m5; rewrite lookup_insert_eq; simpl.
    rewrite lookup_insert_eq; simpl; unfold load; rewrite lookup_insert_ne by done; by rewrite lookup_delete_eq.
  - rewrite lookup_insert_ne by done; unfold m5; rewrite lookup_insert; case_decide; simpl; [done|by rewrite He4].
Qed.
End stale.
