(* ===== verification/LibMcExamples.v ===== *)
(** * Runs of the C interface

    The crates behind the library on concrete data: two keys, a hash that
    repeats its input, and an encoding of rngs.  The theorems are applied to a
    caller that handles an error, and to a phone that draws keys. *)

From S2P Require Import Prelude FogTypes KexRng Ffi FfiSpec FfiAccount LibMc LibMcAttest LibMcTransaction LibMcApi.
From S2P Require Import LibMcSafe LibMcSpec.

Local Open Scope Z_scope.

(** ** Concrete crates *)

Definition key_bytes (tag : Z) (k : bool) : bytes := replicate 32 (if k then tag + 1 else tag).

Definition key_try_from (tag : Z) (bs : bytes) : result bool KeyError :=
  if bool_decide (bs = key_bytes tag false) then Ok false
  else if bool_decide (bs = key_bytes tag true) then Ok true else Err AlgorithmMismatch.

#[local] Instance two_keys : Kex := {|
  Private := bool;
  Public := bool;
  public_from := fun k => k;
  public_to_bytes := key_bytes 2;
  public_try_from := key_try_from 2;
  key_exchange := fun a p => replicate 32 (if xorb a p then 1 else 0);
|}.

#[local] Instance two_keys_laws : KexLaws two_keys.
Proof.
  split; [by intros [] []|intros []; vm_compute; reflexivity|].
  intros a p; cbn [key_exchange two_keys]; by rewrite length_replicate.
Qed.

#[local] Instance counting_rng : RngTypes := {|
  RngContext := Z;
  McRngState := Z;
  mc_rng_next_u64 := fun n => (n, n + 1);
  mc_rng_next_u32 := fun n => (as_u32 n, n + 1);
|}.

Definition encode_stored (s : StoredRng) : bytes :=
  sr_counter s :: sr_version s :: Z.of_nat (length (sr_secret s)) :: sr_secret s ++ sr_buffer s.

Definition decode_stored (bs : bytes) : result StoredRng Z :=
  match bs with
  | counter :: version :: n :: rest =>
      Ok {| sr_secret := take (Z.to_nat n) rest; sr_buffer := drop (Z.to_nat n) rest;
            sr_counter := counter; sr_version := version |}
  | _ => Err 0
  end.

#[local] Instance demo_crates : McCrates (K := two_keys) (R := counting_rng) := {|
  mc_fmt_any := [65];
  mc_fmt_debug := fun _ _ => [63];
  mc_fmt_display := fun _ _ => [63];
  public_eq_dec := bool_eq_dec;
  private_try_from := key_try_from 0;
  private_bytes := key_bytes 0;
  blake2b := demo_hash;
  stored_rng_encode := encode_stored;
  stored_rng_decode := decode_stored;
  box_encrypt := fun _ plaintext rng => (Ok plaintext, rng);
  box_decrypt := fun _ ciphertext => Ok (true, ciphertext);
  box_footer_size := 0;
  AccountKey := bool * bool;
  PublicAddress := bool * bool;
  account_key_new := fun spend view => (spend, view);
  account_key_new_with_fog := fun spend view _ _ _ => (spend, view);
  account_view_private_key := snd;
  account_spend_private_key := fst;
  subaddress_view_private := fun key _ => key.2;
  subaddress_spend_private := fun key _ => key.1;
  subaddress := fun key _ => key;
  address_view_public_key := snd;
  address_spend_public_key := fst;
  address_fog_authority_sig := fun _ => None;
  public_address_new := fun spend view => (spend, view);
  public_address_new_with_fog := fun spend view _ _ _ => (spend, view);
  PrintableWrapper := bytes;
  wrapper_parse := Ok;
  wrapper_write := Ok;
  b58_encode := Ok;
  b58_decode := Ok;
  Mnemonic := bytes;
  mnemonic_from_entropy := Ok;
  mnemonic_from_phrase := Ok;
  mnemonic_to_string := fun m => m;
  mnemonic_entropy := fun m => m;
  get_words_by_prefix := fun prefix => [prefix];
  slip10_account_key := fun _ _ => (false, true);
  FogReportResponse := bytes;
  report_response_decode := Ok;
  FogUri := bytes;
  fog_uri_from_str := Ok;
  fog_uri_to_string := fun uri => uri;
  MrEnclaveVerifier := bytes;
  MrSignerVerifier := bytes;
  Verifier := list bytes;
  mr_enclave_verifier_new := fun mr => mr;
  mr_enclave_allow_config_advisory := fun _ v => v;
  mr_enclave_allow_hardening_advisory := fun _ v => v;
  mr_signer_verifier_new := fun mr _ _ => mr;
  mr_signer_allow_config_advisory := fun _ v => v;
  mr_signer_allow_hardening_advisory := fun _ v => v;
  verifier_default := [];
  verifier_debug := fun _ v => v;
  DEBUG_ENCLAVE := false;
  verifier_mr_enclave := cons;
  verifier_mr_signer := cons;
  ResponderId := bytes;
  responder_id_from_str := Ok;
  responder_id_to_string := fun id => id;
  AuthPending := bytes;
  Ready := Z;
  ake_initiate := fun id rng => (Ok (id, id), rng);
  ake_finish := fun _ _ _ => Ok 0;
  ready_binding := fun _ => [];
  ready_encrypt := fun nonce _ plaintext => (Ok plaintext, nonce + 1);
  ready_decrypt := fun nonce _ ciphertext => (Ok ciphertext, nonce + 1);
  ciphertext_len := fun n => n;
  MaskedAmount := bytes * Z;
  masked_amount_new := pair;
  amount_get_value := fun a _ => Ok (a.2, false);
  get_tx_out_shared_secret := fun _ p => p;
  recover_onetime_private_key := fun p _ _ => p;
  recover_public_subaddress_spend_key := fun _ p _ => p;
  key_image_from := key_bytes 4;
  confirmation_validate := fun _ _ _ => true;
  TxOut := bytes;
  TxOutMembershipProof := bytes;
  tx_out_decode := Ok;
  tx_out_encode := fun t => t;
  proof_decode := Ok;
  tx_out_target_key := fun t => t;
  tx_out_public_key := fun t => t;
  FogResolver := unit;
  fog_resolver_default := tt;
  fog_resolver_new := fun _ _ => Ok tt;
  InputCredentials := Z;
  input_credentials_new := fun _ _ index _ _ => Ok index;
  TransactionBuilder := list Z;
  tx_builder_new := fun _ => [];
  tx_builder_set_fee := cons;
  tx_builder_set_tombstone_block := cons;
  tx_builder_add_input := cons;
  tx_builder_add_output := fun builder amount _ rng => ((Ok ([amount], key_bytes 6 false), amount :: builder), rng);
  tx_builder_add_output_with_hint := fun builder amount _ _ rng => ((Ok ([amount], key_bytes 6 false), amount :: builder), rng);
  Tx := list Z;
  tx_encode := fun tx => tx;
  tx_builder_build := fun builder rng => (Ok builder, rng);
|}.

#[local] Instance demo_mc_laws : McLaws (C := demo_crates).
Proof.
  split.
  - intros []; vm_compute; reflexivity.
  - intros k; cbn [private_bytes demo_crates]; unfold key_bytes; by rewrite length_replicate.
  - intros p; cbn [public_to_bytes two_keys]; unfold key_bytes; by rewrite length_replicate.
  - apply demo_hash_length.
  - intros []; unfold stored_rng_decode, stored_rng_encode, demo_crates, decode_stored, encode_stored; simpl.
    by rewrite Nat2Z.id, take_app_length, drop_app_length.
  - done.
Qed.

#[local] Instance demo_ffi_laws : FfiLaws (libmc_types (C := demo_crates)).
Proof.
  split; cbn [fmt_any fmt_debug fmt_display libmc_types mc_fmt_any mc_fmt_debug mc_fmt_display demo_crates]; [|intros E e..]; vm_decide.
Qed.

(** ** A caller that handles an error *)

(** The memory after a call that returns. *)
Definition memory_after {A} (o : outcome A) : Memory :=
  match o with Returned _ m => m | Unwinds m => m | Undefined => ∅ end.

Definition demo_slot : Memory := {[1%positive := CErrorSlot None]}.

(** A creation without keys: its panic is stored in the variable. *)
Definition demo_failed : Memory :=
  memory_after (run_call (C_fog_rng_create None None 0 (Some 1%positive)) demo_slot).

(** The caller takes the error out of its variable. *)
Definition demo_world : World :=
  mkWorld (<[1%positive := CErrorSlot None]> demo_failed) ({[3%positive]} ∪ ∅).

Lemma demo_create_fails :
  run_call (C_fog_rng_create None None 0 (Some 1%positive)) demo_slot = Returned (RPtr None) demo_failed.
Proof. reflexivity. Qed.

Lemma demo_error_stored : demo_failed !! 1%positive = Some (CErrorSlot (Some 3%positive)).
Proof. reflexivity. Qed.

Lemma demo_world_reachable : client_reachable demo_world.
Proof.
  eapply rtc_l; [apply (step_write ∅ ∅ 1%positive (CErrorSlot None)); [done|done]|].
  eapply rtc_l; [eapply step_call with (c := C_fog_rng_create None None 0 (Some 1%positive)); [|apply demo_create_fails]|].
  - apply Forall_cons; split; [done|]; apply Forall_cons; split; [done|]; apply Forall_cons; split; [|done].
    exists (CErrorSlot None); split; [reflexivity|by eexists].
  - apply rtc_once, step_take, demo_error_stored.
Qed.

Lemma library_memory_safe_witness :
  exists r m', run_call (C_error_free (Some 3%positive)) (w_mem demo_world) = Returned r m'.
Proof.
  refine (proj1 (library_memory_safe demo_world demo_world_reachable) _ _).
  apply Forall_cons; split; [|done]; split; [|simpl; set_solver].
  exists (BoxedError (mkMcError (-2) (Some 2%positive))); split; [reflexivity|by eexists].
Defined.

(** ** A phone *)

Definition demo_phone : Memory := list_to_map [
  (1%positive, CBuffer (mkMcBuffer (Some 2%positive) 32)); (2%positive, CBytes (key_bytes 0 true));
  (3%positive, CBuffer (mkMcBuffer (Some 4%positive) 32)); (4%positive, CBytes (key_bytes 2 false));
  (5%positive, CBuffer (mkMcBuffer (Some 6%positive) 16)); (6%positive, CBytes (replicate 16 9));
  (7%positive, CBuffer (mkMcBuffer (Some 8%positive) 100)); (8%positive, CBytes (replicate 100 9))].

Lemma demo_buffer b q len bs :
  demo_phone !! b = Some (CBuffer (mkMcBuffer (Some q) len)) -> demo_phone !! q = Some (CBytes bs) ->
  ((0 <? len) && (len <=? Z.of_nat (length bs))) = true -> buffer_at demo_phone b q len bs.
Proof. intros Hb Hq Hlen; bool_to_prop; split; [done|]; split; [done|lia]. Qed.

Lemma phone_draws_search_keys_witness :
  let '(pubkey, rng) := versioned_new_from_static_static demo_hash false (public_from true) in
  exists m', phone_session 2 3 (Some 1%positive) (Some 3%positive) (krp_version pubkey) (Some 5%positive)
      6%positive 7%positive 8%positive demo_phone
    = Returned (rng_take demo_hash 5 rng) m'.
Proof.
  destruct (phone_draws_search_keys (C := demo_crates) 2 3 false true demo_phone 1 2 32 (key_bytes 0 true)
    3 4 32 (key_bytes 2 false) 5 6 16 (replicate 16 9) 7 8 100 (replicate 100 9)) as (m' & H & _).
  - by apply demo_buffer.
  - done.
  - reflexivity.
  - by apply demo_buffer.
  - reflexivity.
  - by apply demo_buffer.
  - done.
  - by apply demo_buffer.
  - done.
  - vm_compute; split; [discriminate|reflexivity].
  - exists m'; exact H.
Defined.

Lemma public_from_private_leaks_witness :
  exists m' obs', mc_ristretto_public_from_ristretto_private (Some 1%positive) (Some 7%positive) demo_phone = Returned true m'
    /\ m' !! 8%positive = Some (CBytes obs') /\ take 32 obs' = key_bytes 0 true
    /\ take 32 obs' <> public_to_bytes (public_from true).
Proof.
  destruct (public_from_private_leaks (C := demo_crates) demo_phone 1 2 32 (key_bytes 0 true) 7 8 100 (replicate 100 9) true)
    as (m' & obs' & H1 & H2 & H3 & H4).
  - by apply demo_buffer.
  - done.
  - reflexivity.
  - by apply demo_buffer.
  - done.
  - exists m', obs'; split; [exact H1|]; split; [exact H2|]; split; [exact H3|].
    intros E; specialize (H4 E); vm_compute in H4; discriminate.
Defined.

Lemma error_variable_reuse_undefined_witness : free_and_reuse 0 1%positive demo_slot = Undefined.
Proof. apply (error_variable_reuse_undefined (C := demo_crates)); reflexivity. Defined.
