(* ===== verification/Ecall.v ===== *)
(** * The boundary of the enclaves (src/fog/*/enclave/trusted/src/lib.rs, src/fog/*/enclave/src/lib.rs)

    Every enclave has one entry point.  It takes the address of a serialized
    call, the address of a buffer for the answer and the addresses of two
    numbers; it checks on which side of the enclave's border they lie, runs the
    call through a retry buffer and stores the answer.  On the other side a
    proxy object serializes a call, makes the ecall and deserializes the answer.

    Memory is a finite map from addresses to bytes; an access to an address that
    is not mapped is a fault, which [catch_unwind] does not catch.  The SGX test
    of an address range, the retry buffer, the untrusted side of the ecall and
    the serializer are foreign code: classes with the laws they document (for
    the retry protocol, the comment at the declaration of the ecall). *)

From S2P Require Import Prelude.

Local Open Scope Z_scope.

(** The statuses the code names, and the others by their number. *)
Inductive sgx_status_t :=
| SGX_SUCCESS
| SGX_ERROR_UNEXPECTED
| SGX_ERROR_INVALID_PARAMETER
| SGX_ERROR_OUT_OF_MEMORY
| SGX_ERROR_ENCLAVE_CRASHED
| sgx_status (code : Z).

#[export] Instance sgx_status_eq_dec : EqDecision sgx_status_t.
Proof. solve_decision. Defined.

(** ** Memory *)

Abbreviation RawMemory := (gmap Z Z).

Fixpoint load (m : RawMemory) (p : Z) (n : nat) : option bytes :=
  match n with
  | O => Some []
  | S n => b ← m !! p; bs ← load m (p + 1) n; Some (b :: bs)
  end.

(** A store to an address that is not mapped is a fault as well. *)
Fixpoint store (m : RawMemory) (p : Z) (bs : bytes) : option RawMemory :=
  match bs with
  | [] => Some m
  | b :: bs => _ ← m !! p; store (<[p := b]> m) (p + 1) bs
  end.

(** [*outbuf_used] and [*outbuf_retry_id]: eight bytes, little endian. *)
Definition load_u64 (m : RawMemory) (p : Z) : option Z := from_le_bytes <$> load m p 8.
Definition store_u64 (m : RawMemory) (p : Z) (v : Z) : option RawMemory := store m p (to_le_bytes v).

(** ** Foreign code of the trusted side *)

(** [sgx_is_outside_enclave] and the addresses that belong to the enclave. *)
Class SgxBorder := {
  inside : Z -> bool;
  sgx_is_outside_enclave : Z -> Z -> Z;
}.

(** 1 is answered only for a range that is strictly outside, and for every
    range that is not empty and strictly outside. *)
Class SgxBorderLaws (B : SgxBorder) : Prop := {
  outside_sound : forall p n, sgx_is_outside_enclave p n = 1 ->
    forall a, p <= a < p + n -> inside a = false;
  outside_complete : forall p n, 0 < n -> 0 <= p -> p + n <= u64_modulus ->
    (forall a, p <= a < p + n -> inside a = false) -> sgx_is_outside_enclave p n = 1;
}.

Section dispatchers.
Context {St : Type}.

(** What an enclave does with a serialized call. *)
Definition dispatcher : Type := St -> bytes -> run (result bytes sgx_status_t * St).

(** How [RetryBuffer::call] ends: what it returns, what is in the output buffer
    and the two numbers, its own state and the enclave's; the enclave's state is
    not known when the dispatcher panicked. *)
Record RetryOutcome (Retry : Type) := mkRetryOutcome {
  ro_result : run (result unit sgx_status_t);
  ro_outbuf : bytes;
  ro_used : Z;
  ro_retry_id : Z;
  ro_buffer : Retry;
  ro_state : option St;
}.
End dispatchers.
Global Arguments dispatcher St : clear implicits.
Global Arguments RetryOutcome St Retry : clear implicits.
Global Arguments mkRetryOutcome {St Retry}.
Global Arguments ro_result {St Retry}.
Global Arguments ro_outbuf {St Retry}.
Global Arguments ro_used {St Retry}.
Global Arguments ro_retry_id {St Retry}.
Global Arguments ro_buffer {St Retry}.
Global Arguments ro_state {St Retry}.

(** [mc_enclave_boundary::trusted::RetryBuffer]. *)
Class RetryBuffer := {
  Retry : Type;
  retry_cached : Retry -> Z -> option bytes;
  retry_call : forall {St}, dispatcher St -> Retry -> St ->
    bytes -> bytes -> Z -> Z -> RetryOutcome St Retry;
}.

(** The protocol of the ecall's declaration. *)
Class RetryBufferLaws (R : RetryBuffer) : Prop := {
  retry_outbuf_length : forall St (d : dispatcher St) rb s inbuf outbuf used id,
    length (ro_outbuf (retry_call d rb s inbuf outbuf used id)) = length outbuf;
  retry_panic : forall St (d : dispatcher St) rb s inbuf outbuf,
    d s inbuf = Panic ->
    let o := retry_call d rb s inbuf outbuf 0 0 in
    ro_result o = Panic /\ ro_state o = None;
  retry_err : forall St (d : dispatcher St) rb s inbuf outbuf e s',
    d s inbuf = Ret (Err e, s') ->
    let o := retry_call d rb s inbuf outbuf 0 0 in
    ro_result o = Ret (Err e) /\ ro_state o = Some s';
  retry_fits : forall St (d : dispatcher St) rb s inbuf outbuf out s',
    d s inbuf = Ret (Ok out, s') -> (length out <= length outbuf)%nat ->
    let o := retry_call d rb s inbuf outbuf 0 0 in
    ro_result o = Ret (Ok tt) /\ take (length out) (ro_outbuf o) = out
    /\ ro_used o = Z.of_nat (length out) /\ ro_state o = Some s';
  retry_too_long : forall St (d : dispatcher St) rb s inbuf outbuf out s',
    d s inbuf = Ret (Ok out, s') -> (length outbuf < length out)%nat ->
    let o := retry_call d rb s inbuf outbuf 0 0 in
    ro_result o = Ret (Err SGX_ERROR_OUT_OF_MEMORY)
    /\ ro_used o = Z.of_nat (length out) /\ ro_retry_id o <> 0 /\ is_u64 (ro_retry_id o)
    /\ retry_cached (ro_buffer o) (ro_retry_id o) = Some out /\ ro_state o = Some s';
  (** A retry copies the cached answer and does not run the call again. *)
  retry_again : forall St (d : dispatcher St) rb s inbuf outbuf out used id,
    id <> 0 -> retry_cached rb id = Some out -> (length out <= length outbuf)%nat ->
    let o := retry_call d rb s inbuf outbuf used id in
    ro_result o = Ret (Ok tt) /\ take (length out) (ro_outbuf o) = out
    /\ ro_used o = Z.of_nat (length out) /\ ro_state o = Some s;
}.

(** ** The entry points *)

(** How an entry point ends: it returns a status, or it faults. *)
Inductive entry (St Retry : Type) :=
| Returns (status : sgx_status_t) (m : RawMemory) (rb : Retry) (s : option St)
| Faults.
Global Arguments Returns {St Retry} status m rb s.
Global Arguments Faults {St Retry}.

Section entry_points.
Context {B : SgxBorder} {R : RetryBuffer} {St : Type}.

Abbreviation entry_t := (entry St Retry).

Definition or_fault {A} (o : option A) (k : A -> entry_t) : entry_t :=
  match o with Some a => k a | None => Faults end.

(** The closure under [catch_unwind], and the status made of its outcome.  The
    slice [outbuf] is written in place; the two numbers are written back only
    when the call did not panic. *)
Definition guarded_call (d : dispatcher St) (m : RawMemory) (rb : Retry) (s : St)
  (inbuf inbuf_len outbuf outbuf_len outbuf_used outbuf_retry_id : Z) : entry_t :=
  or_fault (load_u64 m outbuf_used) (fun temp_outbuf_used =>
  or_fault (load_u64 m outbuf_retry_id) (fun temp_outbuf_retry_id =>
  or_fault (load m inbuf (Z.to_nat inbuf_len)) (fun in_slice =>
  or_fault (load m outbuf (Z.to_nat outbuf_len)) (fun out_slice =>
  let o := retry_call d rb s in_slice out_slice temp_outbuf_used temp_outbuf_retry_id in
  or_fault (store m outbuf (ro_outbuf o)) (fun m =>
  match ro_result o with
  | Panic => Returns SGX_ERROR_ENCLAVE_CRASHED m (ro_buffer o) (ro_state o)
  | Ret res =>
      or_fault (store_u64 m outbuf_used (ro_used o)) (fun m =>
      or_fault (store_u64 m outbuf_retry_id (ro_retry_id o)) (fun m =>
      let status := match res with Ok _ => SGX_SUCCESS | Err retval => retval end in
      Returns status m (ro_buffer o) (ro_state o)))
  end))))).

(** ingest/enclave/trusted: null pointers first, then the sides of the border. *)
Definition ingest_enclave_call (d : dispatcher St) (m : RawMemory) (rb : Retry) (s : St)
  (inbuf inbuf_len outbuf outbuf_len outbuf_used outbuf_retry_id : Z) : entry_t :=
  if (inbuf =? 0) || (outbuf =? 0) || (outbuf_used =? 0) || (outbuf_retry_id =? 0)
     || (sgx_is_outside_enclave inbuf inbuf_len =? 1)
     || negb (sgx_is_outside_enclave outbuf outbuf_len =? 1)
     || negb (sgx_is_outside_enclave outbuf_used 8 =? 1)
     || negb (sgx_is_outside_enclave outbuf_retry_id 8 =? 1)
  then Returns SGX_ERROR_INVALID_PARAMETER m rb (Some s)
  else guarded_call d m rb s inbuf inbuf_len outbuf outbuf_len outbuf_used outbuf_retry_id.

(** ledger/enclave/trusted: the same tests. *)
Definition ledger_enclave_call (d : dispatcher St) (m : RawMemory) (rb : Retry) (s : St)
  (inbuf inbuf_len outbuf outbuf_len outbuf_used outbuf_retry_id : Z) : entry_t :=
  if (inbuf =? 0) || (outbuf =? 0) || (outbuf_used =? 0) || (outbuf_retry_id =? 0)
     || (sgx_is_outside_enclave inbuf inbuf_len =? 1)
     || negb (sgx_is_outside_enclave outbuf outbuf_len =? 1)
     || negb (sgx_is_outside_enclave outbuf_used 8 =? 1)
     || negb (sgx_is_outside_enclave outbuf_retry_id 8 =? 1)
  then Returns SGX_ERROR_INVALID_PARAMETER m rb (Some s)
  else guarded_call d m rb s inbuf inbuf_len outbuf outbuf_len outbuf_used outbuf_retry_id.

(** view/enclave/trusted: [outbuf_used] and [outbuf_retry_id] are not compared with null. *)
Definition viewenclave_call (d : dispatcher St) (m : RawMemory) (rb : Retry) (s : St)
  (inbuf inbuf_len outbuf outbuf_len outbuf_used outbuf_retry_id : Z) : entry_t :=
  if (inbuf =? 0) || (outbuf =? 0)
     || (sgx_is_outside_enclave inbuf inbuf_len =? 1)
     || negb (sgx_is_outside_enclave outbuf outbuf_len =? 1)
  then Returns SGX_ERROR_INVALID_PARAMETER m rb (Some s)
  else if negb (sgx_is_outside_enclave outbuf_used 8 =? 1)
  then Returns SGX_ERROR_INVALID_PARAMETER m rb (Some s)
  else if negb (sgx_is_outside_enclave outbuf_retry_id 8 =? 1)
  then Returns SGX_ERROR_INVALID_PARAMETER m rb (Some s)
  else guarded_call d m rb s inbuf inbuf_len outbuf outbuf_len outbuf_used outbuf_retry_id.
End entry_points.

(** ** Lemmas on memory *)

Section memory_lemmas.
Implicit Types (m : RawMemory) (p : Z) (bs : bytes).

(** Ranges of addresses that do not meet. *)
Definition apart (p n q k : Z) : Prop := p + n <= q \/ q + k <= p.

(** Memory with [bs] at [p], mapped or not. *)
Fixpoint put m p bs : RawMemory :=
  match bs with
  | [] => m
  | b :: bs => put (<[p := b]> m) (p + 1) bs
  end.

Lemma put_other m p bs a : ~ (p <= a < p + Z.of_nat (length bs)) -> put m p bs !! a = m !! a.
Proof.
  revert m p; induction bs as [|b bs IH]; intros m p Ha; [done|]; cbn [put length] in *.
  rewrite IH by lia. apply lookup_insert_ne; lia.
Qed.

Lemma load_agree m m' p n :
  (forall a, p <= a < p + Z.of_nat n -> m' !! a = m !! a) -> load m' p n = load m p n.
Proof.
  revert p; induction n as [|n IH]; intros p H; [done|]; cbn [load].
  rewrite H by lia. destruct (m !! p); [|done]; simpl. by rewrite IH by (intros; apply H; lia).
Qed.

Lemma load_put m p bs : load (put m p bs) p (length bs) = Some bs.
Proof.
  revert m p; induction bs as [|b bs IH]; intros m p; [done|]; cbn [put load length].
  rewrite put_other by lia. rewrite lookup_insert_eq; simpl. by rewrite IH.
Qed.

Lemma load_put_apart m p bs q n :
  apart p (Z.of_nat (length bs)) q (Z.of_nat n) -> load (put m p bs) q n = load m q n.
Proof. intros H; apply load_agree; intros a Ha; apply put_other; unfold apart in H; lia. Qed.

(** A range that can be loaded can be stored to. *)
Lemma store_put m p bs : is_Some (load m p (length bs)) -> store m p bs = Some (put m p bs).
Proof.
  revert m p; induction bs as [|b bs IH]; intros m p [l Hl]; [done|]; cbn [load store put length] in *.
  destruct (m !! p) as [b0|]; [|done]; simpl in *. apply IH.
  rewrite (load_agree m) by (intros a Ha; apply lookup_insert_ne; lia).
  by destruct (load m (p + 1) (length bs)).
Qed.

Lemma store_other m p bs m' a :
  store m p bs = Some m' -> ~ (p <= a < p + Z.of_nat (length bs)) -> m' !! a = m !! a.
Proof.
  revert m p; induction bs as [|b bs IH]; intros m p Hs Ha; [by simplify_eq/=|].
  cbn [store length] in *. destruct (m !! p) eqn:E; [|done]; simpl in Hs.
  rewrite (IH _ _ Hs) by lia. apply lookup_insert_ne; lia.
Qed.

Lemma load_length m p n bs : load m p n = Some bs -> length bs = n.
Proof.
  revert p bs; induction n as [|n IH]; intros p bs H; cbn [load] in H; [by simplify_eq/=|].
  destruct (m !! p); [|done]; simpl in H. destruct (load m (p + 1) n) eqn:E; [|done].
  simplify_eq/=. f_equal; eauto.
Qed.
End memory_lemmas.

(** ** What the entry points may write *)

Section border.
Context {B : SgxBorder} {R : RetryBuffer} `{!SgxBorderLaws B, !RetryBufferLaws R} {St : Type}.

(** The enclave's own memory is as it was. *)
Definition keeps_enclave (m : RawMemory) (e : entry St Retry) : Prop :=
  match e with
  | Returns _ m' _ _ => forall a, inside a = true -> m' !! a = m !! a
  | Faults => True
  end.

Lemma store_keeps m p bs m' n :
  sgx_is_outside_enclave p n = 1 -> Z.of_nat (length bs) <= n -> store m p bs = Some m' ->
  forall a, inside a = true -> m' !! a = m !! a.
Proof.
  intros Hout Hn Hs a Ha; apply (store_other _ _ _ _ _ Hs); intros Hr.
  by rewrite (outside_sound _ _ Hout a ltac:(lia)) in Ha.
Qed.

Lemma store_u64_keeps m p v m' :
  sgx_is_outside_enclave p 8 = 1 -> store_u64 m p v = Some m' ->
  forall a, inside a = true -> m' !! a = m !! a.
Proof. intros Ho; apply store_keeps with 8; [done|]. unfold to_le_bytes; rewrite le_split_length; lia. Qed.

Lemma guarded_call_keeps (d : dispatcher St) m rb s inbuf inbuf_len outbuf outbuf_len used retry :
  0 <= outbuf_len -> sgx_is_outside_enclave outbuf outbuf_len = 1 ->
  sgx_is_outside_enclave used 8 = 1 -> sgx_is_outside_enclave retry 8 = 1 ->
  keeps_enclave m (guarded_call d m rb s inbuf inbuf_len outbuf outbuf_len used retry).
Proof.
  intros Hlen Ho Hu Hr; unfold guarded_call, or_fault, store_u64.
  destruct (load_u64 m used) as [u|], (load_u64 m retry) as [id|],
    (load m inbuf (Z.to_nat inbuf_len)) as [inb|],
    (load m outbuf (Z.to_nat outbuf_len)) as [outb|] eqn:Eo; try done.
  set (o := retry_call d rb s inb outb u id).
  assert (Z.of_nat (length (ro_outbuf o)) <= outbuf_len).
  { unfold o; rewrite retry_outbuf_length, (load_length _ _ _ _ Eo); lia. }
  destruct (store m outbuf (ro_outbuf o)) as [m1|] eqn:E1; [|done].
  pose proof (store_keeps _ _ _ _ _ Ho ltac:(done) E1) as K1.
  destruct (ro_result o); [|done].
  destruct (store m1 used (to_le_bytes (ro_used o))) as [m2|] eqn:E2; [|done].
  destruct (store m2 retry (to_le_bytes (ro_retry_id o))) as [m3|] eqn:E3; [|done]. intros x Hx.
  rewrite (store_u64_keeps _ _ _ _ Hr E3 x Hx), (store_u64_keeps _ _ _ _ Hu E2 x Hx). by apply K1.
Qed.

(** C14: no entry point writes to the memory of the enclave through the pointers of
    its caller, whatever the caller passes. *)
Theorem entry_points_keep_enclave (d : dispatcher St) m rb s inbuf inbuf_len outbuf outbuf_len used retry :
  0 <= outbuf_len ->
  keeps_enclave m (ingest_enclave_call d m rb s inbuf inbuf_len outbuf outbuf_len used retry)
  /\ keeps_enclave m (ledger_enclave_call d m rb s inbuf inbuf_len outbuf outbuf_len used retry)
  /\ keeps_enclave m (viewenclave_call d m rb s inbuf inbuf_len outbuf outbuf_len used retry).
Proof.
  intros Hlen; unfold ingest_enclave_call, ledger_enclave_call, viewenclave_call.
  destruct (sgx_is_outside_enclave outbuf outbuf_len =? 1) eqn:Ho,
    (sgx_is_outside_enclave used 8 =? 1) eqn:Hu, (sgx_is_outside_enclave retry 8 =? 1) eqn:Hr;
    rewrite ?Z.eqb_eq in *; split_and!; repeat case_match; try done;
    rewrite ?orb_true_r in *; try done; by apply guarded_call_keeps.
Qed.

(** A null [outbuf_used]: the ingest and ledger enclaves refuse it; the view
    enclave, which is not at address 0, faults on it. *)
Theorem view_entry_null_faults (d : dispatcher St) m rb s inbuf inbuf_len outbuf outbuf_len retry :
  (forall a, 0 <= a < 8 -> inside a = false) -> m !! 0 = None ->
  inbuf <> 0 -> outbuf <> 0 -> sgx_is_outside_enclave inbuf inbuf_len <> 1 ->
  sgx_is_outside_enclave outbuf outbuf_len = 1 -> sgx_is_outside_enclave retry 8 = 1 ->
  viewenclave_call d m rb s inbuf inbuf_len outbuf outbuf_len 0 retry = Faults
  /\ ingest_enclave_call d m rb s inbuf inbuf_len outbuf outbuf_len 0 retry
     = Returns SGX_ERROR_INVALID_PARAMETER m rb (Some s)
  /\ ledger_enclave_call d m rb s inbuf inbuf_len outbuf outbuf_len 0 retry
     = Returns SGX_ERROR_INVALID_PARAMETER m rb (Some s).
Proof.
  intros Hz Hm Hi Ho Hin Hout Hr.
  assert (H0 : sgx_is_outside_enclave 0 8 = 1) by (apply outside_complete; [lia..|unfold u64_modulus; lia|done]).
  apply Z.eqb_neq in Hi, Ho, Hin. unfold viewenclave_call, ingest_enclave_call, ledger_enclave_call.
  rewrite Hi, Ho, Hin, Hout, H0, Hr; split; [|done]. cbn.
  unfold guarded_call, load_u64; cbn [load]. by rewrite Hm.
Qed.
End border.
