(* ===== verification/EcallProxy.v ===== *)
(** * The untrusted side of an ecall (src/fog/*/enclave/src/lib.rs)

    A proxy method serializes its call, makes a variable length ecall and
    deserializes the answer.  The ecall goes through the bridge that the EDL
    file describes: the input is copied into the enclave, the other pointers
    are passed on as they are.  This file has the steps all proxy methods
    share and shows that a proxy method is the enclave's own method. *)

From S2P Require Import Prelude Ecall.

Local Open Scope Z_scope.

(** ** Foreign code *)

(** [mc_util_serial::serialize] and [deserialize] at one type. *)
Class Wire (T : Type) := {
  serialize : T -> result bytes unit;
  deserialize : bytes -> result T unit;
}.

(** What was serialized is read back; an encoding has at least one byte and is
    no longer than a vector can be. *)
Class WireLaws (T : Type) `{W : Wire T} : Prop := {
  wire_roundtrip : forall (x : T) bs, serialize x = Ok bs -> deserialize bs = Ok x;
  wire_length : forall (x : T) bs, serialize x = Ok bs -> 0 < Z.of_nat (length bs) < i64_modulus_half;
}.

(** Where the arguments of an ecall lie. *)
Record Frame := mkFrame { fr_in : Z; fr_out : Z; fr_used : Z; fr_retry : Z }.

(** The answer of one ecall: the status, the output buffer and the two numbers. *)
Definition answer : Type := sgx_status_t * bytes * Z * Z.

(** The placement of the arguments and [make_variable_length_ecall]. *)
Class EcallHost := {
  frame_of : nat -> nat -> Frame;
  first_outbuf : bytes;
  next_outbuf : Z -> bytes;
  next_used : Z -> Z;
  make_variable_length_ecall : forall {W}, (W -> bytes -> bytes -> Z -> Z -> answer * W) ->
    W -> bytes -> result bytes sgx_status_t * W;
}.

(** The input is in the enclave, the rest outside; no two of them meet. *)
Definition good_frame `{B : SgxBorder} (fr : Frame) (n_in n_out : Z) : Prop :=
  (0 < fr_in fr /\ 0 < fr_out fr /\ 0 < fr_used fr /\ 0 < fr_retry fr)
  /\ (fr_out fr + n_out <= u64_modulus /\ fr_used fr + 8 <= u64_modulus
      /\ fr_retry fr + 8 <= u64_modulus)
  /\ (forall a, fr_in fr <= a < fr_in fr + n_in -> inside a = true)
  /\ (forall a, fr_out fr <= a < fr_out fr + n_out -> inside a = false)
  /\ (forall a, fr_used fr <= a < fr_used fr + 8 -> inside a = false)
  /\ (forall a, fr_retry fr <= a < fr_retry fr + 8 -> inside a = false)
  /\ apart (fr_out fr) n_out (fr_used fr) 8 /\ apart (fr_out fr) n_out (fr_retry fr) 8
  /\ apart (fr_used fr) 8 (fr_retry fr) 8.

(** The caller's part of the protocol: start with zeroes; when the status says
    that the buffer is too small, repeat the call with a buffer of the length
    asked for and the id that was returned. *)
Class EcallHostLaws (B : SgxBorder) (H : EcallHost) : Prop := {
  frame_good : forall n_in n_out, Z.of_nat n_in < i64_modulus_half -> Z.of_nat n_out < i64_modulus_half ->
    good_frame (frame_of n_in n_out) (Z.of_nat n_in) (Z.of_nat n_out);
  first_outbuf_length : 0 < Z.of_nat (length first_outbuf) < i64_modulus_half;
  next_outbuf_length : forall n, 0 <= n -> Z.of_nat (length (next_outbuf n)) = n;
  next_used_u64 : forall n, is_u64 (next_used n);
  ecall_protocol : forall W (call : W -> bytes -> bytes -> Z -> Z -> answer * W) w inbuf,
    make_variable_length_ecall call w inbuf =
    match call w inbuf first_outbuf 0 0 with
    | ((SGX_SUCCESS, out, used, _), w) => (Ok (take (Z.to_nat used) out), w)
    | ((SGX_ERROR_OUT_OF_MEMORY, _, used, id), w) =>
        match call w inbuf (next_outbuf used) (next_used used) id with
        | ((SGX_SUCCESS, out, used, _), w) => (Ok (take (Z.to_nat used) out), w)
        | ((status, _, _, _), w) => (Err status, w)
        end
    | ((status, _, _, _), w) => (Err status, w)
    end;
}.

(** ** Proxy methods *)

Section proxy.
Context {B : SgxBorder} {R : RetryBuffer} {H : EcallHost} {St : Type}.

(** An enclave that runs, or one in which a call panicked: its locks are
    poisoned and what it answers is left open ([broken]). *)
Record World := mkWorld { w_enclave : option St; w_retry : Retry }.

Context (broken : bytes -> bytes -> Z -> Z -> answer).
Context (entry_point : dispatcher St -> RawMemory -> Retry -> St ->
  Z -> Z -> Z -> Z -> Z -> Z -> entry St Retry).
Context (ecall_dispatcher : dispatcher St).

(** The arguments in memory: [in, size=inbuf_len] copies the input. *)
Definition placed (fr : Frame) (inbuf outbuf : bytes) (used id : Z) : RawMemory :=
  put (put (put (put ∅ (fr_retry fr) (to_le_bytes id)) (fr_used fr) (to_le_bytes used))
         (fr_out fr) outbuf) (fr_in fr) inbuf.

(** One ecall through the bridge.  A fault in the enclave is reported as a crash. *)
Definition edge_call (w : World) (inbuf outbuf : bytes) (used id : Z) : answer * World :=
  match w_enclave w with
  | None => (broken inbuf outbuf used id, w)
  | Some s =>
      let fr := frame_of (length inbuf) (length outbuf) in
      match entry_point ecall_dispatcher (placed fr inbuf outbuf used id) (w_retry w) s
              (fr_in fr) (Z.of_nat (length inbuf)) (fr_out fr) (Z.of_nat (length outbuf))
              (fr_used fr) (fr_retry fr) with
      | Faults => ((SGX_ERROR_ENCLAVE_CRASHED, outbuf, used, id), mkWorld None (w_retry w))
      | Returns status m rb s' =>
          ((status, default outbuf (load m (fr_out fr) (length outbuf)),
            default used (load_u64 m (fr_used fr)), default id (load_u64 m (fr_retry fr))),
           mkWorld s' rb)
      end
  end.

(** [enclave_call]: the variable length ecall. *)
Definition ecall (w : World) (inbuf : bytes) : result bytes sgx_status_t * World :=
  make_variable_length_ecall edge_call w inbuf.

(** The body of every proxy method; the three errors are the [From] conversions
    of the method's error type. *)
Definition proxy {Call T E} `{Wire Call, Wire (result T E)} (encode_error decode_error : E)
  (from_sgx : sgx_status_t -> E) (call : Call) (w : World) : result T E * World :=
  match serialize call with
  | Err _ => (Err encode_error, w)
  | Ok inbuf =>
      match ecall w inbuf with
      | (Err status, w) => (Err (from_sgx status), w)
      | (Ok outbuf, w) =>
          match deserialize outbuf with
          | Err _ => (Err decode_error, w)
          | Ok res => (res, w)
          end
      end
  end.

(** An arm of a dispatcher: run the method and serialize what it returns. *)
Definition dispatch_arm {T} `{Wire T} (method : St -> run (T * St)) (s : St)
  : run (result bytes sgx_status_t * St) :=
  '(res, s) ← method s;
  Ret (map_err (fun _ => SGX_ERROR_UNEXPECTED) (serialize res), s).

End proxy.
Global Arguments World {R} St.
Global Arguments mkWorld {R St}.
Global Arguments w_enclave {R St}.
Global Arguments w_retry {R St}.

(** ** Proxy methods are the enclave's methods *)

(** On a good frame an entry point gets past its tests. *)
Definition passes `{B : SgxBorder} `{R : RetryBuffer} {St}
  (entry_point : dispatcher St -> RawMemory -> Retry -> St -> Z -> Z -> Z -> Z -> Z -> Z -> entry St Retry)
  : Prop :=
  forall d m rb s fr n_in n_out, 0 < n_in -> 0 < n_out -> good_frame fr n_in n_out ->
    entry_point d m rb s (fr_in fr) n_in (fr_out fr) n_out (fr_used fr) (fr_retry fr)
    = guarded_call d m rb s (fr_in fr) n_in (fr_out fr) n_out (fr_used fr) (fr_retry fr).

Section passes.
Context {B : SgxBorder} {R : RetryBuffer} `{!SgxBorderLaws B} {St : Type}.

Lemma frame_tests fr n_in n_out :
  0 < n_in -> 0 < n_out -> good_frame fr n_in n_out ->
  (fr_in fr =? 0) = false /\ (fr_out fr =? 0) = false /\ (fr_used fr =? 0) = false
  /\ (fr_retry fr =? 0) = false
  /\ (sgx_is_outside_enclave (fr_in fr) n_in =? 1) = false
  /\ (sgx_is_outside_enclave (fr_out fr) n_out =? 1) = true
  /\ (sgx_is_outside_enclave (fr_used fr) 8 =? 1) = true
  /\ (sgx_is_outside_enclave (fr_retry fr) 8 =? 1) = true.
Proof.
  intros Hi Ho ((?&?&?&?)&(?&?&?)&Hin&Hout&Hu&Hr&_).
  rewrite !Z.eqb_eq, !Z.eqb_neq; split_and!; try lia; try (apply outside_complete; done || lia).
  intros E; pose proof (outside_sound _ _ E (fr_in fr) ltac:(lia)) as E'.
  by rewrite Hin in E' by lia.
Qed.

Ltac pass_tests ep := intros d m rb s fr n_in n_out Hi Ho Hfr;
  destruct (frame_tests fr n_in n_out Hi Ho Hfr) as (E7&E8&E1&E2&E3&E4&E5&E6);
  unfold ep; by rewrite ?E7, ?E8, ?E1, ?E2, ?E3, ?E4, ?E5, ?E6.

Lemma ingest_passes : passes (St := St) ingest_enclave_call.
Proof. pass_tests (@ingest_enclave_call). Qed.

Lemma ledger_passes : passes (St := St) ledger_enclave_call.
Proof. pass_tests (@ledger_enclave_call). Qed.

Lemma view_passes : passes (St := St) viewenclave_call.
Proof. pass_tests (@viewenclave_call). Qed.
End passes.

Section transparent.
Context {B : SgxBorder} {R : RetryBuffer} {H : EcallHost} {St : Type}.
Context `{!SgxBorderLaws B, !RetryBufferLaws R, !EcallHostLaws B H}.
Context (broken : bytes -> bytes -> Z -> Z -> answer).
Context (entry_point : dispatcher St -> RawMemory -> Retry -> St ->
  Z -> Z -> Z -> Z -> Z -> Z -> entry St Retry).
Context (Hpass : passes entry_point) (d : dispatcher St).

Abbreviation edge_call := (edge_call broken entry_point d).
Abbreviation ecall := (ecall broken entry_point d).

Lemma u64_bytes_length v : length (to_le_bytes v) = 8%nat.
Proof. apply le_split_length. Qed.

Lemma load_u64_put m p v : is_u64 v -> load_u64 (put m p (to_le_bytes v)) p = Some v.
Proof.
  intros Hv; unfold load_u64. pose proof (load_put m p (to_le_bytes v)) as E.
  rewrite u64_bytes_length in E; rewrite E; cbn [fmap option_fmap option_map].
  by rewrite from_to_le_bytes.
Qed.

Lemma load_u64_apart m p bs q :
  apart p (Z.of_nat (length bs)) q 8 -> load_u64 (put m p bs) q = load_u64 m q.
Proof. intros Ha; unfold load_u64; by rewrite load_put_apart. Qed.

Lemma load_inside m p bs q n :
  (forall a, p <= a < p + Z.of_nat (length bs) -> inside a = true) ->
  (forall a, q <= a < q + Z.of_nat n -> inside a = false) ->
  load (put m p bs) q n = load m q n.
Proof.
  intros Hp Hq; apply load_agree; intros a Ha; apply put_other; intros Hr.
  apply Hp in Hr; apply Hq in Ha; congruence.
Qed.

Lemma load_u64_inside m p bs q :
  (forall a, p <= a < p + Z.of_nat (length bs) -> inside a = true) ->
  (forall a, q <= a < q + 8 -> inside a = false) ->
  load_u64 (put m p bs) q = load_u64 m q.
Proof. intros Hp Hq; unfold load_u64; by rewrite load_inside. Qed.

(** What the entry point finds where its pointers point. *)
Lemma placed_loads fr inbuf outbuf used id :
  good_frame fr (Z.of_nat (length inbuf)) (Z.of_nat (length outbuf)) ->
  is_u64 used -> is_u64 id ->
  let m := placed fr inbuf outbuf used id in
  load_u64 m (fr_used fr) = Some used /\ load_u64 m (fr_retry fr) = Some id
  /\ load m (fr_in fr) (length inbuf) = Some inbuf /\ load m (fr_out fr) (length outbuf) = Some outbuf.
Proof.
  intros (_&_&Hin&Hout&Hu&Hr&A1&A2&A3) Hused Hid m; unfold m, placed.
  split_and!; [| |apply load_put|].
  - rewrite load_u64_inside, load_u64_apart by done. by apply load_u64_put.
  - rewrite load_u64_inside, load_u64_apart by done. rewrite load_u64_apart by by rewrite u64_bytes_length.
    by apply load_u64_put.
  - rewrite load_inside by done. apply load_put.
Qed.

(** One ecall gives back what the retry buffer left. *)
Lemma edge_call_live w s inbuf outbuf used id :
  w_enclave w = Some s -> 0 < Z.of_nat (length inbuf) < i64_modulus_half ->
  0 < Z.of_nat (length outbuf) < i64_modulus_half -> is_u64 used -> is_u64 id ->
  let o := retry_call d (w_retry w) s inbuf outbuf used id in
  exists out u i,
    edge_call w inbuf outbuf used id
    = ((match ro_result o with
        | Panic => SGX_ERROR_ENCLAVE_CRASHED
        | Ret (Ok _) => SGX_SUCCESS
        | Ret (Err e) => e end, out, u, i), mkWorld (ro_state o) (ro_buffer o))
    /\ (ro_result o <> Panic -> out = ro_outbuf o
        /\ (is_u64 (ro_used o) -> u = ro_used o) /\ (is_u64 (ro_retry_id o) -> i = ro_retry_id o)).
Proof.
  intros Hw Hi Ho Hu Hid o; unfold EcallProxy.edge_call; rewrite Hw.
  set (fr := frame_of (length inbuf) (length outbuf)).
  pose proof (frame_good (length inbuf) (length outbuf) ltac:(lia) ltac:(lia)) as Hfr; fold fr in Hfr.
  rewrite Hpass by (done || lia).
  destruct (placed_loads fr inbuf outbuf used id Hfr Hu Hid) as (L1&L2&L3&L4).
  unfold guarded_call; rewrite L1, L2, !Nat2Z.id, L3, L4; cbn [or_fault]; fold o.
  assert (Hl : length (ro_outbuf o) = length outbuf) by apply retry_outbuf_length.
  destruct Hfr as (_&_&_&_&_&_&A1&A2&A3); rewrite <- Hl in A1, A2.
  set (m := placed fr inbuf outbuf used id) in *.
  rewrite store_put by (rewrite Hl, L4; eauto); cbn [or_fault].
  destruct (ro_result o) as [res|]; [|by do 3 eexists].
  set (m1 := put m (fr_out fr) (ro_outbuf o)).
  assert (M1 : load m1 (fr_out fr) (length outbuf) = Some (ro_outbuf o)) by (rewrite <- Hl; apply load_put).
  assert (Hs : forall m p v, is_Some (load_u64 m p) -> store_u64 m p v = Some (put m p (to_le_bytes v))).
  { intros m' p v Hsome; apply store_put; rewrite u64_bytes_length.
    unfold load_u64 in Hsome; by apply fmap_is_Some in Hsome. }
  rewrite Hs by (unfold m1; rewrite load_u64_apart by done; rewrite L1; eauto); cbn [or_fault].
  rewrite Hs by (rewrite load_u64_apart by (by rewrite u64_bytes_length); unfold m1;
    rewrite load_u64_apart by done; rewrite L2; eauto); cbn [or_fault].
  do 3 eexists; split; [by destruct res|]; intros _; split_and!.
  - rewrite !load_put_apart, M1; [done|rewrite u64_bytes_length..]; unfold apart in *; lia.
  - intros Hused. rewrite load_u64_apart by (rewrite u64_bytes_length; unfold apart in *; lia).
    by rewrite load_u64_put.
  - intros Hret; by rewrite load_u64_put.
Qed.
(** The variable length ecall gives the dispatcher's answer, however long it is,
    and runs the dispatcher once. *)
Lemma ecall_live w s inbuf :
  w_enclave w = Some s -> 0 < Z.of_nat (length inbuf) < i64_modulus_half ->
  match d s inbuf with
  | Panic => exists w', ecall w inbuf = (Err SGX_ERROR_ENCLAVE_CRASHED, w') /\ w_enclave w' = None
  | Ret (Err e, s') => e <> SGX_SUCCESS -> e <> SGX_ERROR_OUT_OF_MEMORY ->
      exists w', ecall w inbuf = (Err e, w') /\ w_enclave w' = Some s'
  | Ret (Ok out, s') => 0 < Z.of_nat (length out) < i64_modulus_half ->
      exists w', ecall w inbuf = (Ok out, w') /\ w_enclave w' = Some s'
  end.
Proof.
  intros Hw Hi; unfold EcallProxy.ecall; rewrite ecall_protocol.
  pose proof first_outbuf_length as Hf.
  assert (H0 : is_u64 0) by (unfold is_u64, u64_modulus; lia).
  assert (Hu : forall n, Z.of_nat n < i64_modulus_half -> is_u64 (Z.of_nat n))
    by (unfold is_u64, u64_modulus, i64_modulus_half; lia).
  destruct (edge_call_live w s inbuf first_outbuf 0 0 Hw Hi Hf H0 H0) as (out1&u1&i1&E1&K1).
  set (o := retry_call d (w_retry w) s inbuf first_outbuf 0 0) in *; rewrite E1; clear E1.
  destruct (d s inbuf) as [[[out|e] s']|] eqn:Ed.
  - intros Hout; destruct (decide (length out <= length first_outbuf)%nat) as [Hfit|Hfit].
    + destruct (retry_fits _ d (w_retry w) s inbuf first_outbuf out s' Ed Hfit) as (Er&Et&Eu&Es).
      fold o in Er, Et, Eu, Es. rewrite Er in *.
      destruct K1 as (->&K&_); [done|]. rewrite K, Eu, Nat2Z.id, Et by (rewrite Eu; apply Hu; lia).
      by eexists.
    + destruct (retry_too_long _ d (w_retry w) s inbuf first_outbuf out s' Ed ltac:(lia))
        as (Er&Eu&En&Ei&Ec&Es). fold o in Er, Eu, En, Ei, Ec, Es. rewrite Er in *.
      destruct K1 as (_&K&K'); [done|]. rewrite K, K', Eu by (done || (rewrite Eu; apply Hu; lia)).
      assert (Hn : length (next_outbuf (Z.of_nat (length out))) = length out)
        by (apply Nat2Z.inj, next_outbuf_length; lia).
      destruct (edge_call_live (mkWorld (ro_state o) (ro_buffer o)) s' inbuf
        (next_outbuf (Z.of_nat (length out))) (next_used (Z.of_nat (length out))) (ro_retry_id o))
        as (out2&u2&i2&E2&K2); [done..|by rewrite Hn|apply next_used_u64|done|].
      cbn [w_retry] in *; rewrite E2.
      destruct (retry_again _ d (ro_buffer o) s' inbuf (next_outbuf (Z.of_nat (length out))) out
        (next_used (Z.of_nat (length out))) (ro_retry_id o) En Ec ltac:(lia)) as (Fr&Ft&Fu&Fs).
      rewrite Fr in *; destruct K2 as (->&K2&_); [done|].
      rewrite K2, Fu, Nat2Z.id, Ft by (rewrite Fu; apply Hu; lia). by eexists.
  - intros N1 N2; destruct (retry_err _ d (w_retry w) s inbuf first_outbuf e s' Ed) as (Er&Es).
    fold o in Er, Es; rewrite Er; destruct e; try done; by eexists.
  - destruct (retry_panic _ d (w_retry w) s inbuf first_outbuf Ed) as (Er&Es).
    fold o in Er, Es; rewrite Er; by eexists.
Qed.
End transparent.

(** A proxy method mirrors a method of the enclave: a call that cannot be
    serialized is an error and changes nothing; otherwise the method runs once
    and its result and the enclave's new state are the method's own.  A result
    that cannot be serialized is reported as an error although the method ran;
    a panic is reported as a crash. *)
Definition mirrors `{R : RetryBuffer} {St Call T E} `{Wire Call, Wire (result T E)}
  (encode_error : E) (from_sgx : sgx_status_t -> E) (call : Call)
  (method : St -> run (result T E * St)) (px : World St -> result T E * World St) : Prop :=
  forall w s, w_enclave w = Some s ->
  if is_ok (serialize call) then
    match method s with
    | Ret (res, s') => exists w', w_enclave w' = Some s'
        /\ px w = (if is_ok (serialize res) then res else Err (from_sgx SGX_ERROR_UNEXPECTED), w')
    | Panic => exists w', w_enclave w' = None /\ px w = (Err (from_sgx SGX_ERROR_ENCLAVE_CRASHED), w')
    end
  else px w = (Err encode_error, w).

Section mirrors.
Context {B : SgxBorder} {R : RetryBuffer} {H : EcallHost} {St : Type}.
Context `{!SgxBorderLaws B, !RetryBufferLaws R, !EcallHostLaws B H}.
Context (broken : bytes -> bytes -> Z -> Z -> answer).
Context (entry_point : dispatcher St -> RawMemory -> Retry -> St ->
  Z -> Z -> Z -> Z -> Z -> Z -> entry St Retry).
Context (Hpass : passes entry_point) (d : dispatcher St).

Lemma proxy_mirrors {Call T E} `{WireLaws Call} `{WireLaws (result T E)}
  (encode_error decode_error : E) from_sgx (call : Call) (method : St -> run (result T E * St)) :
  (forall s inbuf, deserialize inbuf = Ok call -> d s inbuf = dispatch_arm method s) ->
  mirrors encode_error from_sgx call method
    (proxy broken entry_point d encode_error decode_error from_sgx call).
Proof.
  intros Hd w s Hw; unfold proxy. destruct (serialize call) as [inbuf|] eqn:Ec; cbn [is_ok]; [|done].
  pose proof (ecall_live broken entry_point Hpass d w s inbuf Hw (wire_length _ _ Ec)) as He.
  rewrite (Hd _ _ (wire_roundtrip _ _ Ec)) in He; unfold dispatch_arm in He.
  destruct (method s) as [[res s']|]; simpl in He.
  - destruct (serialize res) as [out|] eqn:Er; simpl in *.
    + destruct (He (wire_length _ _ Er)) as (w'&->&Hs).
      exists w'; by rewrite (wire_roundtrip _ _ Er).
    + destruct He as (w'&->&Hs); [done..|]. by exists w'.
  - destruct He as (w'&->&Hs). by exists w'.
Qed.
End mirrors.

(** ** Attestation reports

    The trait [ReportableEnclave] is foreign; the three enclaves implement it by
    handing each call to the AKE library. *)
Class ReportCache (AkeState AkeError VerificationReport : Type) := {
  TargetInfo : Type;
  Quote : Type;
  SgxReport : Type;
  QuoteNonce : Type;
  IasNonce : Type;
  X25519Public : Type;
  ReportableError : Type;
  reportable_attest : AkeError -> ReportableError;
  reportable_encode : ReportableError;
  reportable_decode : ReportableError;
  reportable_sgx : sgx_status_t -> ReportableError;
  ake_new_ereport : AkeState -> TargetInfo -> result (SgxReport * QuoteNonce) AkeError * AkeState;
  ake_verify_quote : AkeState -> Quote -> SgxReport -> result IasNonce AkeError * AkeState;
  ake_verify_ias_report : AkeState -> VerificationReport -> result unit AkeError * AkeState;
  ake_get_ias_report : AkeState -> result VerificationReport AkeError * AkeState;
  get_kex_identity : AkeState -> X25519Public;
}.

(** The trait, for an implementation whose methods are of the shape [step]. *)
Record ReportableEnclave `{RC : ReportCache AkeState AkeError VerificationReport}
  (step : Type -> Type) := mkReportableEnclave {
  new_ereport : TargetInfo -> step (result (SgxReport * QuoteNonce) ReportableError);
  verify_quote : Quote -> SgxReport -> step (result IasNonce ReportableError);
  verify_ias_report : VerificationReport -> step (result unit ReportableError);
  get_ias_report : step (result VerificationReport ReportableError);
}.
Global Arguments mkReportableEnclave {AkeState AkeError VerificationReport RC step}.
Global Arguments new_ereport {AkeState AkeError VerificationReport RC step}.
Global Arguments verify_quote {AkeState AkeError VerificationReport RC step}.
Global Arguments verify_ias_report {AkeState AkeError VerificationReport RC step}.
Global Arguments get_ias_report {AkeState AkeError VerificationReport RC step}.

(** The shapes of the two implementations: in the enclave and through the proxy. *)
Definition trusted_step (St T : Type) : Type := St -> run (T * St).
Definition proxy_step `{R : RetryBuffer} (St T : Type) : Type := World St -> T * World St.

(** [Ok(self.ake.f(..)?)] on a part of the enclave's state. *)
Definition via_ake {St AkeState AkeError T E} (ake : St -> AkeState) (set_ake : AkeState -> St -> St)
  (from : AkeError -> E) (f : AkeState -> result T AkeError * AkeState) : trusted_step St (result T E) :=
  fun self => let '(r, a) := f (ake self) in Ret (map_err from r, set_ake a self).

(** ** Client sessions

    The view and the ledger enclave hand the handshake with a client to the AKE
    library as well. *)
Class ClientSessions (AkeState AkeError ClientSession : Type) := {
  ClientAuthRequest : Type;
  ClientAuthResponse : Type;
  ake_client_accept : AkeState -> ClientAuthRequest
    -> result (ClientAuthResponse * ClientSession) AkeError * AkeState;
  ake_client_close : AkeState -> ClientSession -> result unit AkeError * AkeState;
}.

(** A model of an operation that gives the state first. *)
Definition state_first {St T} (m : run (St * T)) : run (T * St) := '(s, r) ← m; Ret (r, s).
