(* ===== verification/IngestEcall.v ===== *)
(** * Ecalls of the ingest enclave (src/fog/ingest/enclave)

    The calls (api/src/messages.rs), the trait of the enclave (api/src/lib.rs),
    its implementation in the enclave (impl/src/lib.rs), the dispatcher
    (trusted/src/lib.rs) and the proxy of the untrusted side (src/lib.rs).  The
    theorem says that the proxy and the enclave are the same implementation of
    the trait, which is what the ingest controller relies on. *)

From S2P Require Import Prelude FogTypes ObliviousMap KexRng UserRngSet IngestEnclave Ecall EcallProxy.

Local Open Scope Z_scope.

Section ingest_ecall.
Context `{C : IngestCrypto} `{OM : ObliviousHashMap} `{A : PeerAke}.
Context {RC : ReportCache PeerAkeState PeerAkeError PeerVerificationReport}.

Abbreviation Error := (IngestEnclaveError SgxError PeerAkeError).

Record IngestEnclaveInitParams := mkIngestEnclaveInitParams {
  iip_responder_id : bytes;
  iip_sealed_key : option bytes;
  iip_desired_capacity : Z;
}.

Inductive EnclaveCall :=
| EnclaveInit (params : IngestEnclaveInitParams)
| NewKeys
| NewEgressKey
| GetIngressPubkey
| GetSealedIngressPrivateKey
| GetIngressPrivateKey (peer : PeerSession)
| SetIngressPrivateKey (msg : PeerMessage)
| GetKexRngPubkey
| IngestTxs (chunk : TxsForIngest)
| GetIdentity
| NewEreport (qe_info : TargetInfo)
| VerifyQuote (quote : Quote) (qe_report : SgxReport)
| VerifyReport (ias_report : PeerVerificationReport)
| GetReport
| PeerInit (peer_id : bytes)
| PeerAccept (req : PeerAuthRequest)
| PeerConnect (peer_id : bytes) (msg : PeerAuthResponse)
| PeerClose (session_id : PeerSession).

(** The trait [IngestEnclave]. *)
Record IngestEnclaveApi (step : Type -> Type) := mkIngestEnclaveApi {
  api_report : ReportableEnclave step;
  api_enclave_init : IngestEnclaveInitParams -> step (result unit Error);
  api_new_keys : step (result unit Error);
  api_new_egress_key : step (result unit Error);
  api_get_ingress_pubkey : step (result Public Error);
  api_get_sealed_ingress_private_key : step (result (bytes * bytes) Error);
  api_get_ingress_private_key : PeerSession -> step (result (PeerMessage * bytes) Error);
  api_set_ingress_private_key : PeerMessage -> step (result (Public * bytes) Error);
  api_get_kex_rng_pubkey : step (result KexRngPubkey Error);
  api_ingest_txs : TxsForIngest -> step (result (list ETxOutRecord * option KexRngPubkey) Error);
  api_get_identity : step (result X25519Public Error);
  api_peer_init : bytes -> step (result PeerAuthRequest Error);
  api_peer_accept : PeerAuthRequest -> step (result (PeerAuthResponse * PeerSession) Error);
  api_peer_connect : bytes -> PeerAuthResponse
    -> step (result (PeerSession * PeerVerificationReport) Error);
  api_peer_close : PeerSession -> step (result unit Error);
}.

(** ** In the enclave *)

Definition with_ake (ake : PeerAkeState) (self : SgxIngestEnclave) : SgxIngestEnclave :=
  mkSgxIngestEnclave ake (ie_ingress_key self) (ie_egress_key self) (ie_rng_store self) (ie_rng self).

Definition ingest_reportable : ReportableEnclave (trusted_step SgxIngestEnclave) :=
  let via {T} := via_ake (T := T) ie_ake with_ake reportable_attest in
  {| new_ereport := fun qe_info => via (fun ake => ake_new_ereport ake qe_info);
     verify_quote := fun quote qe_report => via (fun ake => ake_verify_quote ake quote qe_report);
     verify_ias_report := fun ias_report => via (fun ake => ake_verify_ias_report ake ias_report);
     get_ias_report := via ake_get_ias_report |}.

Definition get_identity (self : SgxIngestEnclave) : result X25519Public Error :=
  Ok (get_kex_identity (ie_ake self)).

(** The implementation: the operations of the enclave's model. *)
Definition ingest_trusted : IngestEnclaveApi (trusted_step SgxIngestEnclave) :=
  {| api_report := ingest_reportable;
     api_enclave_init := fun params self => Ret (enclave_init self (iip_responder_id params)
       (iip_sealed_key params) (iip_desired_capacity params));
     api_new_keys := new_keys;
     api_new_egress_key := new_egress_key;
     api_get_ingress_pubkey := fun self => Ret (get_ingress_pubkey self, self);
     api_get_sealed_ingress_private_key := fun self => Ret (get_sealed_ingress_private_key self, self);
     api_get_ingress_private_key := fun peer self => Ret (get_ingress_private_key self peer);
     api_set_ingress_private_key := fun msg self => Ret (set_ingress_private_key self msg);
     api_get_kex_rng_pubkey := fun self => r ← get_kex_rng_pubkey self; Ret (r, self);
     api_ingest_txs := fun chunk self => ingest_txs self chunk;
     api_get_identity := fun self => Ret (get_identity self, self);
     api_peer_init := fun peer_id self => Ret (peer_init self peer_id);
     api_peer_accept := fun req self => Ret (peer_accept self req);
     api_peer_connect := fun peer_id msg self => Ret (peer_connect self peer_id msg);
     api_peer_close := fun session_id self => Ret (peer_close self session_id) |}.
End ingest_ecall.
Global Arguments IngestEnclaveApi {K U C A RC} step.
Global Arguments EnclaveCall {A RC}.

(** The types that cross the border can be serialized. *)
Class IngestWire `{C : IngestCrypto} `{A : PeerAke}
  {RC : ReportCache PeerAkeState PeerAkeError PeerVerificationReport} := {
  #[export] wire_call :: Wire EnclaveCall;
  #[export] wire_unit :: Wire (result unit (IngestEnclaveError SgxError PeerAkeError));
  #[export] wire_public :: Wire (result Public (IngestEnclaveError SgxError PeerAkeError));
  #[export] wire_sealed :: Wire (result (bytes * bytes) (IngestEnclaveError SgxError PeerAkeError));
  #[export] wire_given :: Wire (result (PeerMessage * bytes) (IngestEnclaveError SgxError PeerAkeError));
  #[export] wire_taken :: Wire (result (Public * bytes) (IngestEnclaveError SgxError PeerAkeError));
  #[export] wire_kex :: Wire (result KexRngPubkey (IngestEnclaveError SgxError PeerAkeError));
  #[export] wire_rows :: Wire (result (list ETxOutRecord * option KexRngPubkey)
    (IngestEnclaveError SgxError PeerAkeError));
  #[export] wire_identity :: Wire (result X25519Public (IngestEnclaveError SgxError PeerAkeError));
  #[export] wire_request :: Wire (result PeerAuthRequest (IngestEnclaveError SgxError PeerAkeError));
  #[export] wire_accept :: Wire (result (PeerAuthResponse * PeerSession)
    (IngestEnclaveError SgxError PeerAkeError));
  #[export] wire_connect :: Wire (result (PeerSession * PeerVerificationReport)
    (IngestEnclaveError SgxError PeerAkeError));
  #[export] wire_ereport :: Wire (result (SgxReport * QuoteNonce) ReportableError);
  #[export] wire_quote :: Wire (result IasNonce ReportableError);
  #[export] wire_verified :: Wire (result unit ReportableError);
  #[export] wire_report :: Wire (result PeerVerificationReport ReportableError);
}.

Class IngestWireLaws `{IW : IngestWire} : Prop := {
  #[export] wire_call_laws :: WireLaws EnclaveCall;
  #[export] wire_unit_laws :: WireLaws _ (W := wire_unit);
  #[export] wire_public_laws :: WireLaws _ (W := wire_public);
  #[export] wire_sealed_laws :: WireLaws _ (W := wire_sealed);
  #[export] wire_given_laws :: WireLaws _ (W := wire_given);
  #[export] wire_taken_laws :: WireLaws _ (W := wire_taken);
  #[export] wire_kex_laws :: WireLaws _ (W := wire_kex);
  #[export] wire_rows_laws :: WireLaws _ (W := wire_rows);
  #[export] wire_identity_laws :: WireLaws _ (W := wire_identity);
  #[export] wire_request_laws :: WireLaws _ (W := wire_request);
  #[export] wire_accept_laws :: WireLaws _ (W := wire_accept);
  #[export] wire_connect_laws :: WireLaws _ (W := wire_connect);
  #[export] wire_ereport_laws :: WireLaws _ (W := wire_ereport);
  #[export] wire_quote_laws :: WireLaws _ (W := wire_quote);
  #[export] wire_verified_laws :: WireLaws _ (W := wire_verified);
  #[export] wire_report_laws :: WireLaws _ (W := wire_report);
}.

Section dispatch.
Context `{C : IngestCrypto} `{OM : ObliviousHashMap} `{A : PeerAke}.
Context {RC : ReportCache PeerAkeState PeerAkeError PeerVerificationReport} {IW : IngestWire}.

Abbreviation Error := (IngestEnclaveError SgxError PeerAkeError).
Abbreviation St := SgxIngestEnclave.

(** ** The dispatcher of the trusted side *)

Definition ecall_dispatcher : dispatcher St := fun self inbuf =>
  match deserialize (T := EnclaveCall) inbuf with
  | Err _ => Ret (Err SGX_ERROR_INVALID_PARAMETER, self)
  | Ok call_details =>
      let ENCLAVE := ingest_trusted in
      let report := api_report _ ENCLAVE in
      match call_details with
      | EnclaveInit params => dispatch_arm (api_enclave_init _ ENCLAVE params) self
      | NewKeys => dispatch_arm (api_new_keys _ ENCLAVE) self
      | NewEgressKey => dispatch_arm (api_new_egress_key _ ENCLAVE) self
      | GetIngressPubkey => dispatch_arm (api_get_ingress_pubkey _ ENCLAVE) self
      | GetSealedIngressPrivateKey => dispatch_arm (api_get_sealed_ingress_private_key _ ENCLAVE) self
      | GetIngressPrivateKey peer_session =>
          dispatch_arm (api_get_ingress_private_key _ ENCLAVE peer_session) self
      | SetIngressPrivateKey msg => dispatch_arm (api_set_ingress_private_key _ ENCLAVE msg) self
      | GetKexRngPubkey => dispatch_arm (api_get_kex_rng_pubkey _ ENCLAVE) self
      | IngestTxs chunk => dispatch_arm (api_ingest_txs _ ENCLAVE chunk) self
      | GetIdentity => dispatch_arm (api_get_identity _ ENCLAVE) self
      | NewEreport qe_info => dispatch_arm (new_ereport report qe_info) self
      | VerifyQuote quote qe_report => dispatch_arm (verify_quote report quote qe_report) self
      | VerifyReport ias_report => dispatch_arm (verify_ias_report report ias_report) self
      | GetReport => dispatch_arm (get_ias_report report) self
      | PeerInit peer_id => dispatch_arm (api_peer_init _ ENCLAVE peer_id) self
      | PeerAccept req => dispatch_arm (api_peer_accept _ ENCLAVE req) self
      | PeerConnect peer_id msg => dispatch_arm (api_peer_connect _ ENCLAVE peer_id msg) self
      | PeerClose session_id => dispatch_arm (api_peer_close _ ENCLAVE session_id) self
      end
  end.

(** ** The proxy of the untrusted side *)

Context {B : SgxBorder} {R : RetryBuffer} {H : EcallHost}.
Context (broken : bytes -> bytes -> Z -> Z -> answer) (sgx_error_from : sgx_status_t -> SgxError).

Definition ingest_proxy {T} `{Wire (result T Error)} (call : EnclaveCall) : proxy_step St (result T Error) :=
  proxy broken ingest_enclave_call ecall_dispatcher (IngestSerialization _ _) (IngestSerialization _ _)
    (fun status => IngestSgx (sgx_error_from status)) call.

Definition report_proxy {T} `{Wire (result T ReportableError)} (call : EnclaveCall)
  : proxy_step St (result T ReportableError) :=
  proxy broken ingest_enclave_call ecall_dispatcher reportable_encode reportable_decode
    reportable_sgx call.

Definition ingest_reportable_proxy : ReportableEnclave (proxy_step St) :=
  {| new_ereport := fun qe_info => report_proxy (NewEreport qe_info);
     verify_quote := fun quote qe_report => report_proxy (VerifyQuote quote qe_report);
     verify_ias_report := fun ias_report => report_proxy (VerifyReport ias_report);
     get_ias_report := report_proxy GetReport |}.

Definition ingest_untrusted : IngestEnclaveApi (proxy_step St) :=
  {| api_report := ingest_reportable_proxy;
     api_enclave_init := fun params => ingest_proxy (EnclaveInit params);
     api_new_keys := ingest_proxy NewKeys;
     api_new_egress_key := ingest_proxy NewEgressKey;
     api_get_ingress_pubkey := ingest_proxy GetIngressPubkey;
     api_get_sealed_ingress_private_key := ingest_proxy GetSealedIngressPrivateKey;
     api_get_ingress_private_key := fun peer => ingest_proxy (GetIngressPrivateKey peer);
     api_set_ingress_private_key := fun msg => ingest_proxy (SetIngressPrivateKey msg);
     api_get_kex_rng_pubkey := ingest_proxy GetKexRngPubkey;
     api_ingest_txs := fun chunk => ingest_proxy (IngestTxs chunk);
     api_get_identity := ingest_proxy GetIdentity;
     api_peer_init := fun peer_id => ingest_proxy (PeerInit peer_id);
     api_peer_accept := fun req => ingest_proxy (PeerAccept req);
     api_peer_connect := fun peer_id msg => ingest_proxy (PeerConnect peer_id msg);
     api_peer_close := fun session_id => ingest_proxy (PeerClose session_id) |}.

(** [IngestSgxEnclave::new] after the enclave was created: initialize it, and
    panic when that fails. *)
Definition IngestSgxEnclave_new (w : World St) (peer_self_id : bytes) (sealed_key : option bytes)
  (omap_capacity : Z) : run (World St) :=
  match api_enclave_init _ ingest_untrusted
          (mkIngestEnclaveInitParams peer_self_id sealed_key omap_capacity) w with
  | (Ok _, w) => Ret w
  | (Err _, _) => Panic
  end.

(** ** The proxy is the enclave *)

Abbreviation same call method px :=
  (mirrors (IngestSerialization SgxError PeerAkeError) (fun status => IngestSgx (sgx_error_from status))
     call method px).
Abbreviation same_report call method px :=
  (mirrors reportable_encode reportable_sgx call method px).

(** Every method of one implementation mirrors the method of the other. *)
Definition api_mirrors (t : IngestEnclaveApi (trusted_step St)) (u : IngestEnclaveApi (proxy_step St))
  : Prop :=
  (forall params, same (EnclaveInit params) (api_enclave_init _ t params) (api_enclave_init _ u params))
  /\ same NewKeys (api_new_keys _ t) (api_new_keys _ u)
  /\ same NewEgressKey (api_new_egress_key _ t) (api_new_egress_key _ u)
  /\ same GetIngressPubkey (api_get_ingress_pubkey _ t) (api_get_ingress_pubkey _ u)
  /\ same GetSealedIngressPrivateKey (api_get_sealed_ingress_private_key _ t)
       (api_get_sealed_ingress_private_key _ u)
  /\ (forall peer, same (GetIngressPrivateKey peer) (api_get_ingress_private_key _ t peer)
       (api_get_ingress_private_key _ u peer))
  /\ (forall msg, same (SetIngressPrivateKey msg) (api_set_ingress_private_key _ t msg)
       (api_set_ingress_private_key _ u msg))
  /\ same GetKexRngPubkey (api_get_kex_rng_pubkey _ t) (api_get_kex_rng_pubkey _ u)
  /\ (forall chunk, same (IngestTxs chunk) (api_ingest_txs _ t chunk) (api_ingest_txs _ u chunk))
  /\ same GetIdentity (api_get_identity _ t) (api_get_identity _ u)
  /\ (forall peer_id, same (PeerInit peer_id) (api_peer_init _ t peer_id) (api_peer_init _ u peer_id))
  /\ (forall req, same (PeerAccept req) (api_peer_accept _ t req) (api_peer_accept _ u req))
  /\ (forall peer_id msg, same (PeerConnect peer_id msg) (api_peer_connect _ t peer_id msg)
       (api_peer_connect _ u peer_id msg))
  /\ (forall session, same (PeerClose session) (api_peer_close _ t session) (api_peer_close _ u session))
  /\ (forall qe_info, same_report (NewEreport qe_info) (new_ereport (api_report _ t) qe_info)
       (new_ereport (api_report _ u) qe_info))
  /\ (forall quote qe_report, same_report (VerifyQuote quote qe_report)
       (verify_quote (api_report _ t) quote qe_report) (verify_quote (api_report _ u) quote qe_report))
  /\ (forall ias_report, same_report (VerifyReport ias_report)
       (verify_ias_report (api_report _ t) ias_report) (verify_ias_report (api_report _ u) ias_report))
  /\ same_report GetReport (get_ias_report (api_report _ t)) (get_ias_report (api_report _ u)).

Context `{!SgxBorderLaws B, !RetryBufferLaws R, !EcallHostLaws B H, !IngestWireLaws}.

(** C12: the proxy of the ingest enclave is the enclave.  Each of the eighteen
    methods of the trait, called on the proxy, goes through serialization, the
    retry protocol, the bridge, the entry point's tests and the dispatcher, and
    comes back with the result of the enclave's own method and leaves the
    enclave in the state that method leaves it in; the method runs once, also
    when the answer did not fit the first buffer.  A panic in the enclave is an
    error of the proxy. *)
Theorem ingest_proxy_is_enclave : api_mirrors ingest_trusted ingest_untrusted.
Proof.
  unfold api_mirrors; split_and!; intros; apply proxy_mirrors; try apply ingest_passes;
    try typeclasses eauto; intros s inbuf E; unfold ecall_dispatcher; by rewrite E.
Qed.
End dispatch.
