(* ===== verification/ViewEcall.v ===== *)
(** * Ecalls of the view enclave (src/fog/view/enclave)

    The calls and the trait (api/src/lib.rs), the implementation in the enclave
    (impl/src/lib.rs), the dispatcher (trusted/src/lib.rs) and the proxy of the
    untrusted side (src/lib.rs).  The dispatcher keeps the id of the enclave,
    which the ocalls of the oblivious map pass back, before it initializes the
    enclave; the id is part of the trusted state here. *)

From S2P Require Import Prelude FogTypes RecoveryTypes ObliviousMap ViewEnclave Ecall EcallProxy.

Local Open Scope Z_scope.

Section view_ecall.
Context `{O : ObliviousHashMap} `{A : Ake} `{C : ViewCodec} {VerificationReport : Type}.
Context {RC : ReportCache AkeState AttestEnclaveError VerificationReport}.
Context {CS : ClientSessions AkeState AttestEnclaveError ChannelId}.

Record ViewEnclaveInitParams := mkViewEnclaveInitParams {
  vip_eid : Z;
  vip_self_client_id : ResponderId;
  vip_desired_capacity : Z;
}.

Inductive ViewEnclaveRequest :=
| Init (params : ViewEnclaveInitParams)
| GetIdentity
| NewEReport (target_info : TargetInfo)
| VerifyQuote (quote : Quote) (report : SgxReport)
| VerifyIasReport (verification_report : VerificationReport)
| GetIasReport
| ClientAccept (msg : ClientAuthRequest)
| ClientClose (session : ChannelId)
| Query (req : EnclaveMessage) (untrusted_query_response : UntrustedQueryResponse)
| AddRecords (records : list ETxOutRecord).

(** The trait [ViewEnclaveApi]. *)
Record ViewEnclaveApi (step : Type -> Type) := mkViewEnclaveApi {
  view_report : ReportableEnclave step;
  view_init : ViewEnclaveInitParams -> step (result unit ViewEnclaveError);
  view_get_identity : step (result X25519Public ViewEnclaveError);
  view_client_accept : ClientAuthRequest
    -> step (result (ClientAuthResponse * ChannelId) ViewEnclaveError);
  view_client_close : ChannelId -> step (result unit ViewEnclaveError);
  view_query_call : EnclaveMessage -> UntrustedQueryResponse -> step (result bytes ViewEnclaveError);
  view_add_records : list ETxOutRecord -> step (result unit ViewEnclaveError);
}.

(** ** In the enclave *)

(** [ENCLAVE] and what [set_enclave_id] keeps. *)
Record TrustedView := mkTrustedView { tv_enclave : ViewEnclave; tv_enclave_id : Z }.

Definition on_view {T} (f : ViewEnclave -> run (ViewEnclave * T)) : trusted_step TrustedView T :=
  fun self => '(e, r) ← f (tv_enclave self); Ret (r, mkTrustedView e (tv_enclave_id self)).

Definition view_ake (self : TrustedView) : AkeState := ve_ake (tv_enclave self).
Definition set_view_ake (ake : AkeState) (self : TrustedView) : TrustedView :=
  mkTrustedView (mkViewEnclave (ve_e_tx_out_store (tv_enclave self)) ake) (tv_enclave_id self).

Definition view_reportable : ReportableEnclave (trusted_step TrustedView) :=
  let via {T} := via_ake (T := T) view_ake set_view_ake reportable_attest in
  {| new_ereport := fun qe_info => via (fun ake => ake_new_ereport ake qe_info);
     verify_quote := fun quote qe_report => via (fun ake => ake_verify_quote ake quote qe_report);
     verify_ias_report := fun ias_report => via (fun ake => ake_verify_ias_report ake ias_report);
     get_ias_report := via ake_get_ias_report |}.

Definition view_trusted : ViewEnclaveApi (trusted_step TrustedView) :=
  let via {T} := via_ake (T := T) view_ake set_view_ake ViewAttestEnclave in
  {| view_report := view_reportable;
     view_init := fun params => on_view (fun self =>
       Ret (ViewEnclave_init self (vip_self_client_id params) (vip_desired_capacity params)));
     view_get_identity := fun self => Ret (Ok (get_kex_identity (view_ake self)), self);
     view_client_accept := fun req => via (fun ake => ake_client_accept ake req);
     view_client_close := fun channel_id => via (fun ake => ake_client_close ake channel_id);
     view_query_call := fun payload untrusted => on_view (fun self =>
       enclave_query self payload untrusted);
     view_add_records := fun records => on_view (fun self => enclave_add_records self records) |}.

(** The arm for [Init] of the dispatcher. *)
Definition init_with_id (params : ViewEnclaveInitParams)
  : trusted_step TrustedView (result unit ViewEnclaveError) :=
  fun self => view_init _ view_trusted params (mkTrustedView (tv_enclave self) (vip_eid params)).
End view_ecall.
Global Arguments ViewEnclaveRequest {A VerificationReport RC CS}.
Global Arguments ViewEnclaveApi {A VerificationReport RC CS} step.
Global Arguments TrustedView {O A}.

(** The types that cross the border can be serialized. *)
Class ViewWire `{A : Ake} {VerificationReport : Type}
  {RC : ReportCache AkeState AttestEnclaveError VerificationReport}
  {CS : ClientSessions AkeState AttestEnclaveError ChannelId} := {
  #[export] view_wire_call :: Wire ViewEnclaveRequest;
  #[export] view_wire_unit :: Wire (result unit ViewEnclaveError);
  #[export] view_wire_identity :: Wire (result X25519Public ViewEnclaveError);
  #[export] view_wire_accept :: Wire (result (ClientAuthResponse * ChannelId) ViewEnclaveError);
  #[export] view_wire_bytes :: Wire (result bytes ViewEnclaveError);
  #[export] view_wire_ereport :: Wire (result (SgxReport * QuoteNonce) ReportableError);
  #[export] view_wire_quote :: Wire (result IasNonce ReportableError);
  #[export] view_wire_verified :: Wire (result unit ReportableError);
  #[export] view_wire_report :: Wire (result VerificationReport ReportableError);
}.

Class ViewWireLaws `{VW : ViewWire} : Prop := {
  #[export] view_wire_call_laws :: WireLaws ViewEnclaveRequest;
  #[export] view_wire_unit_laws :: WireLaws _ (W := view_wire_unit);
  #[export] view_wire_identity_laws :: WireLaws _ (W := view_wire_identity);
  #[export] view_wire_accept_laws :: WireLaws _ (W := view_wire_accept);
  #[export] view_wire_bytes_laws :: WireLaws _ (W := view_wire_bytes);
  #[export] view_wire_ereport_laws :: WireLaws _ (W := view_wire_ereport);
  #[export] view_wire_quote_laws :: WireLaws _ (W := view_wire_quote);
  #[export] view_wire_verified_laws :: WireLaws _ (W := view_wire_verified);
  #[export] view_wire_report_laws :: WireLaws _ (W := view_wire_report);
}.

Section dispatch.
Context `{O : ObliviousHashMap} `{A : Ake} `{C : ViewCodec} {VerificationReport : Type}.
Context {RC : ReportCache AkeState AttestEnclaveError VerificationReport}.
Context {CS : ClientSessions AkeState AttestEnclaveError ChannelId} {VW : ViewWire}.

(** ** The dispatcher of the trusted side *)

Definition ecall_dispatcher : dispatcher TrustedView := fun self inbuf =>
  match deserialize (T := ViewEnclaveRequest) inbuf with
  | Err _ => Ret (Err SGX_ERROR_INVALID_PARAMETER, self)
  | Ok call_details =>
      let ENCLAVE := view_trusted in
      let report := view_report _ ENCLAVE in
      match call_details with
      | Init params => dispatch_arm (init_with_id params) self
      | GetIdentity => dispatch_arm (view_get_identity _ ENCLAVE) self
      | NewEReport target_info => dispatch_arm (new_ereport report target_info) self
      | VerifyQuote quote qe_report => dispatch_arm (verify_quote report quote qe_report) self
      | VerifyIasReport r => dispatch_arm (verify_ias_report report r) self
      | GetIasReport => dispatch_arm (get_ias_report report) self
      | ClientAccept msg => dispatch_arm (view_client_accept _ ENCLAVE msg) self
      | ClientClose session => dispatch_arm (view_client_close _ ENCLAVE session) self
      | Query req untrusted_query_response =>
          dispatch_arm (view_query_call _ ENCLAVE req untrusted_query_response) self
      | AddRecords records => dispatch_arm (view_add_records _ ENCLAVE records) self
      end
  end.

(** ** The proxy of the untrusted side *)

Context {B : SgxBorder} {R : RetryBuffer} {H : EcallHost}.
Context (broken : bytes -> bytes -> Z -> Z -> answer) (sgx_code : sgx_status_t -> Z).

Definition view_proxy {T} `{Wire (result T ViewEnclaveError)} (call : ViewEnclaveRequest)
  : proxy_step TrustedView (result T ViewEnclaveError) :=
  proxy broken viewenclave_call ecall_dispatcher ViewSerdeEncode ViewSerdeDecode
    (fun status => ViewSgx (sgx_code status)) call.

Definition report_proxy {T} `{Wire (result T ReportableError)} (call : ViewEnclaveRequest)
  : proxy_step TrustedView (result T ReportableError) :=
  proxy broken viewenclave_call ecall_dispatcher reportable_encode reportable_decode
    reportable_sgx call.

Definition view_reportable_proxy : ReportableEnclave (proxy_step TrustedView) :=
  {| new_ereport := fun qe_info => report_proxy (NewEReport qe_info);
     verify_quote := fun quote qe_report => report_proxy (VerifyQuote quote qe_report);
     verify_ias_report := fun ias_report => report_proxy (VerifyIasReport ias_report);
     get_ias_report := report_proxy GetIasReport |}.

Definition view_untrusted : ViewEnclaveApi (proxy_step TrustedView) :=
  {| view_report := view_reportable_proxy;
     view_init := fun params => view_proxy (Init params);
     view_get_identity := view_proxy GetIdentity;
     view_client_accept := fun req => view_proxy (ClientAccept req);
     view_client_close := fun channel_id => view_proxy (ClientClose channel_id);
     view_query_call := fun payload untrusted => view_proxy (Query payload untrusted);
     view_add_records := fun records => view_proxy (AddRecords records) |}.

(** [SgxViewEnclave::new] after the enclave was created with the id [eid]. *)
Definition SgxViewEnclave_new (w : World TrustedView) (eid : Z) (client_responder_id : ResponderId)
  (desired_capacity : Z) : run (World TrustedView) :=
  match view_init _ view_untrusted
          (mkViewEnclaveInitParams eid client_responder_id desired_capacity) w with
  | (Ok _, w) => Ret w
  | (Err _, _) => Panic
  end.

(** ** The proxy is the enclave *)

Abbreviation same call method px :=
  (mirrors ViewSerdeEncode (fun status => ViewSgx (sgx_code status)) call method px).
Abbreviation same_report call method px :=
  (mirrors reportable_encode reportable_sgx call method px).

Context `{!SgxBorderLaws B, !RetryBufferLaws R, !EcallHostLaws B H, !ViewWireLaws}.

(** C13: the proxy of the view enclave is the enclave.  A query, records added, a
    client's handshake, the attestation calls and the initialization through
    the proxy give the result of the enclave's own method and leave the enclave
    in the state that method leaves it in; the initialization also keeps the
    id of the enclave. *)
Theorem view_proxy_is_enclave :
  (forall params, same (Init params) (init_with_id params) (view_init _ view_untrusted params))
  /\ same GetIdentity (view_get_identity _ view_trusted) (view_get_identity _ view_untrusted)
  /\ (forall req, same (ClientAccept req) (view_client_accept _ view_trusted req)
       (view_client_accept _ view_untrusted req))
  /\ (forall session, same (ClientClose session) (view_client_close _ view_trusted session)
       (view_client_close _ view_untrusted session))
  /\ (forall msg untrusted, same (Query msg untrusted) (view_query_call _ view_trusted msg untrusted)
       (view_query_call _ view_untrusted msg untrusted))
  /\ (forall records, same (AddRecords records) (view_add_records _ view_trusted records)
       (view_add_records _ view_untrusted records))
  /\ (forall qe_info, same_report (NewEReport qe_info) (new_ereport view_reportable qe_info)
       (new_ereport view_reportable_proxy qe_info))
  /\ (forall quote qe_report, same_report (VerifyQuote quote qe_report)
       (verify_quote view_reportable quote qe_report) (verify_quote view_reportable_proxy quote qe_report))
  /\ (forall r, same_report (VerifyIasReport r) (verify_ias_report view_reportable r)
       (verify_ias_report view_reportable_proxy r))
  /\ same_report GetIasReport (get_ias_report view_reportable) (get_ias_report view_reportable_proxy).
Proof.
  split_and!; intros; apply proxy_mirrors; try apply view_passes;
    try typeclasses eauto; intros s inbuf E; unfold ecall_dispatcher; by rewrite E.
Qed.
End dispatch.
