(* ===== verification/LedgerEcall.v ===== *)
(** * Ecalls of the ledger enclave (src/fog/ledger/enclave)

    The calls (api/src/messages.rs), the trait (api/src/lib.rs), the
    implementation in the enclave (impl/src/lib.rs), whose state is that of the
    client sessions, the dispatcher (trusted/src/lib.rs) and the proxy of the
    untrusted side (src/lib.rs). *)

From S2P Require Import Prelude FogTypes ViewEnclave LedgerServer Ecall EcallProxy.

Local Open Scope Z_scope.

Section ledger_ecall.
Context `{L : Ledger} `{A : Ake} `{C : !LedgerCodec} {VerificationReport : Type}.
Context {RC : ReportCache AkeState AttestEnclaveError VerificationReport}.
Context {CS : ClientSessions AkeState AttestEnclaveError ChannelId}.

Inductive EnclaveCall :=
| EnclaveInit (self_id : ResponderId)
| ClientAccept (auth_msg : ClientAuthRequest)
| ClientClose (channel_id : ChannelId)
| GetIdentity
| NewEreport (qe_info : TargetInfo)
| VerifyQuote (quote : Quote) (qe_report : SgxReport)
| VerifyReport (ias_report : VerificationReport)
| GetReport
| GetOutputs (msg : EnclaveMessage)
| GetOutputsData (resp : GetOutputsResponse MembershipProof) (client : ChannelId)
| CheckKeyImages (msg : EnclaveMessage)
| CheckKeyImagesData (resp : CheckKeyImagesResponse) (client : ChannelId).

(** The trait [LedgerEnclave]. *)
Record LedgerEnclaveApi (step : Type -> Type) := mkLedgerEnclaveApi {
  ledger_report : ReportableEnclave step;
  ledger_init : ResponderId -> step (result unit LedgerEnclaveError);
  ledger_get_identity : step (result X25519Public LedgerEnclaveError);
  ledger_client_accept : ClientAuthRequest
    -> step (result (ClientAuthResponse * ChannelId) LedgerEnclaveError);
  ledger_client_close : ChannelId -> step (result unit LedgerEnclaveError);
  ledger_get_outputs : EnclaveMessage -> step (result OutputContext LedgerEnclaveError);
  ledger_get_outputs_data : GetOutputsResponse MembershipProof -> ChannelId
    -> step (result bytes LedgerEnclaveError);
  ledger_check_key_images : EnclaveMessage -> step (result KeyImageContext LedgerEnclaveError);
  ledger_check_key_images_data : CheckKeyImagesResponse -> ChannelId
    -> step (result bytes LedgerEnclaveError);
}.

(** ** In the enclave *)

Definition ledger_reportable : ReportableEnclave (trusted_step AkeState) :=
  let via {T} := via_ake (St := AkeState) (T := T) (fun ake => ake) (fun ake _ => ake)
    reportable_attest in
  {| new_ereport := fun qe_info => via (fun ake => ake_new_ereport ake qe_info);
     verify_quote := fun quote qe_report => via (fun ake => ake_verify_quote ake quote qe_report);
     verify_ias_report := fun ias_report => via (fun ake => ake_verify_ias_report ake ias_report);
     get_ias_report := via ake_get_ias_report |}.

Definition ledger_trusted : LedgerEnclaveApi (trusted_step AkeState) :=
  let via {T} := via_ake (St := AkeState) (T := T) (fun ake => ake) (fun ake _ => ake) LedgerAttest in
  {| ledger_report := ledger_reportable;
     ledger_init := fun self_id ake => state_first (Ret (ledger_enclave_init ake self_id));
     ledger_get_identity := fun ake => Ret (Ok (get_kex_identity ake), ake);
     ledger_client_accept := fun req => via (fun ake => ake_client_accept ake req);
     ledger_client_close := fun channel_id => via (fun ake => ake_client_close ake channel_id);
     ledger_get_outputs := fun msg ake => state_first (Ret (get_outputs ake msg));
     ledger_get_outputs_data := fun resp client ake =>
       state_first (Ret (get_outputs_data ake resp client));
     ledger_check_key_images := fun msg ake => state_first (Ret (check_key_images ake msg));
     ledger_check_key_images_data := fun resp client ake =>
       state_first (Ret (check_key_images_data ake resp client)) |}.
End ledger_ecall.
Global Arguments EnclaveCall {L A VerificationReport RC CS}.
Global Arguments LedgerEnclaveApi {L A VerificationReport RC CS} step.

(** The types that cross the border can be serialized. *)
Class LedgerWire `{L : Ledger} `{A : Ake} {VerificationReport : Type}
  {RC : ReportCache AkeState AttestEnclaveError VerificationReport}
  {CS : ClientSessions AkeState AttestEnclaveError ChannelId} := {
  #[export] ledger_wire_call :: Wire EnclaveCall;
  #[export] ledger_wire_unit :: Wire (result unit LedgerEnclaveError);
  #[export] ledger_wire_identity :: Wire (result X25519Public LedgerEnclaveError);
  #[export] ledger_wire_accept :: Wire (result (ClientAuthResponse * ChannelId) LedgerEnclaveError);
  #[export] ledger_wire_outputs :: Wire (result OutputContext LedgerEnclaveError);
  #[export] ledger_wire_images :: Wire (result KeyImageContext LedgerEnclaveError);
  #[export] ledger_wire_bytes :: Wire (result bytes LedgerEnclaveError);
  #[export] ledger_wire_ereport :: Wire (result (SgxReport * QuoteNonce) ReportableError);
  #[export] ledger_wire_quote :: Wire (result IasNonce ReportableError);
  #[export] ledger_wire_verified :: Wire (result unit ReportableError);
  #[export] ledger_wire_report :: Wire (result VerificationReport ReportableError);
}.

Class LedgerWireLaws `{LW : LedgerWire} : Prop := {
  #[export] ledger_wire_call_laws :: WireLaws EnclaveCall;
  #[export] ledger_wire_unit_laws :: WireLaws _ (W := ledger_wire_unit);
  #[export] ledger_wire_identity_laws :: WireLaws _ (W := ledger_wire_identity);
  #[export] ledger_wire_accept_laws :: WireLaws _ (W := ledger_wire_accept);
  #[export] ledger_wire_outputs_laws :: WireLaws _ (W := ledger_wire_outputs);
  #[export] ledger_wire_images_laws :: WireLaws _ (W := ledger_wire_images);
  #[export] ledger_wire_bytes_laws :: WireLaws _ (W := ledger_wire_bytes);
  #[export] ledger_wire_ereport_laws :: WireLaws _ (W := ledger_wire_ereport);
  #[export] ledger_wire_quote_laws :: WireLaws _ (W := ledger_wire_quote);
  #[export] ledger_wire_verified_laws :: WireLaws _ (W := ledger_wire_verified);
  #[export] ledger_wire_report_laws :: WireLaws _ (W := ledger_wire_report);
}.

Section dispatch.
Context `{L : Ledger} `{A : Ake} `{C : !LedgerCodec} {VerificationReport : Type}.
Context {RC : ReportCache AkeState AttestEnclaveError VerificationReport}.
Context {CS : ClientSessions AkeState AttestEnclaveError ChannelId} {LW : LedgerWire}.

(** ** The dispatcher of the trusted side *)

Definition ecall_dispatcher : dispatcher AkeState := fun self inbuf =>
  match deserialize (T := EnclaveCall) inbuf with
  | Err _ => Ret (Err SGX_ERROR_INVALID_PARAMETER, self)
  | Ok call_details =>
      let ENCLAVE := ledger_trusted in
      let report := ledger_report _ ENCLAVE in
      match call_details with
      | EnclaveInit self_id => dispatch_arm (ledger_init _ ENCLAVE self_id) self
      | ClientAccept auth_msg => dispatch_arm (ledger_client_accept _ ENCLAVE auth_msg) self
      | ClientClose channel_id => dispatch_arm (ledger_client_close _ ENCLAVE channel_id) self
      | GetIdentity => dispatch_arm (ledger_get_identity _ ENCLAVE) self
      | NewEreport qe_info => dispatch_arm (new_ereport report qe_info) self
      | VerifyQuote quote qe_report => dispatch_arm (verify_quote report quote qe_report) self
      | VerifyReport ias_report => dispatch_arm (verify_ias_report report ias_report) self
      | GetReport => dispatch_arm (get_ias_report report) self
      | GetOutputs msg => dispatch_arm (ledger_get_outputs _ ENCLAVE msg) self
      | GetOutputsData resp client => dispatch_arm (ledger_get_outputs_data _ ENCLAVE resp client) self
      | CheckKeyImages msg => dispatch_arm (ledger_check_key_images _ ENCLAVE msg) self
      | CheckKeyImagesData resp client =>
          dispatch_arm (ledger_check_key_images_data _ ENCLAVE resp client) self
      end
  end.

(** ** The proxy of the untrusted side *)

Context {B : SgxBorder} {R : RetryBuffer} {H : EcallHost}.
Context (broken : bytes -> bytes -> Z -> Z -> answer) (sgx_code : sgx_status_t -> Z).

Definition ledger_proxy {T} `{Wire (result T LedgerEnclaveError)} (call : EnclaveCall)
  : proxy_step AkeState (result T LedgerEnclaveError) :=
  proxy broken ledger_enclave_call ecall_dispatcher LedgerSerialization LedgerSerialization
    (fun status => LedgerSgx (sgx_code status)) call.

Definition report_proxy {T} `{Wire (result T ReportableError)} (call : EnclaveCall)
  : proxy_step AkeState (result T ReportableError) :=
  proxy broken ledger_enclave_call ecall_dispatcher reportable_encode reportable_decode
    reportable_sgx call.

Definition ledger_reportable_proxy : ReportableEnclave (proxy_step AkeState) :=
  {| new_ereport := fun qe_info => report_proxy (NewEreport qe_info);
     verify_quote := fun quote qe_report => report_proxy (VerifyQuote quote qe_report);
     verify_ias_report := fun ias_report => report_proxy (VerifyReport ias_report);
     get_ias_report := report_proxy GetReport |}.

Definition ledger_untrusted : LedgerEnclaveApi (proxy_step AkeState) :=
  {| ledger_report := ledger_reportable_proxy;
     ledger_init := fun self_id => ledger_proxy (EnclaveInit self_id);
     ledger_get_identity := ledger_proxy GetIdentity;
     ledger_client_accept := fun req => ledger_proxy (ClientAccept req);
     ledger_client_close := fun channel_id => ledger_proxy (ClientClose channel_id);
     ledger_get_outputs := fun msg => ledger_proxy (GetOutputs msg);
     ledger_get_outputs_data := fun resp client => ledger_proxy (GetOutputsData resp client);
     ledger_check_key_images := fun msg => ledger_proxy (CheckKeyImages msg);
     ledger_check_key_images_data := fun resp client =>
       ledger_proxy (CheckKeyImagesData resp client) |}.

(** [LedgerSgxEnclave::new] after the enclave was created. *)
Definition LedgerSgxEnclave_new (w : World AkeState) (self_id : ResponderId) : run (World AkeState) :=
  match ledger_init _ ledger_untrusted self_id w with
  | (Ok _, w) => Ret w
  | (Err _, _) => Panic
  end.

(** ** The proxy is the enclave *)

Abbreviation same call method px :=
  (mirrors LedgerSerialization (fun status => LedgerSgx (sgx_code status)) call method px).
Abbreviation same_report call method px :=
  (mirrors reportable_encode reportable_sgx call method px).

Context `{!SgxBorderLaws B, !RetryBufferLaws R, !EcallHostLaws B H, !LedgerWireLaws}.

(** The proxy of the ledger enclave is the enclave: each method gives the result
    of the enclave's own method and leaves the sessions as that method does. *)
Theorem ledger_proxy_is_enclave :
  (forall id, same (EnclaveInit id) (ledger_init _ ledger_trusted id) (ledger_init _ ledger_untrusted id))
  /\ same GetIdentity (ledger_get_identity _ ledger_trusted) (ledger_get_identity _ ledger_untrusted)
  /\ (forall req, same (ClientAccept req) (ledger_client_accept _ ledger_trusted req)
       (ledger_client_accept _ ledger_untrusted req))
  /\ (forall session, same (ClientClose session) (ledger_client_close _ ledger_trusted session)
       (ledger_client_close _ ledger_untrusted session))
  /\ (forall msg, same (GetOutputs msg) (ledger_get_outputs _ ledger_trusted msg)
       (ledger_get_outputs _ ledger_untrusted msg))
  /\ (forall resp client, same (GetOutputsData resp client)
       (ledger_get_outputs_data _ ledger_trusted resp client)
       (ledger_get_outputs_data _ ledger_untrusted resp client))
  /\ (forall msg, same (CheckKeyImages msg) (ledger_check_key_images _ ledger_trusted msg)
       (ledger_check_key_images _ ledger_untrusted msg))
  /\ (forall resp client, same (CheckKeyImagesData resp client)
       (ledger_check_key_images_data _ ledger_trusted resp client)
       (ledger_check_key_images_data _ ledger_untrusted resp client))
  /\ (forall qe_info, same_report (NewEreport qe_info) (new_ereport ledger_reportable qe_info)
       (new_ereport ledger_reportable_proxy qe_info))
  /\ (forall quote qe_report, same_report (VerifyQuote quote qe_report)
       (verify_quote ledger_reportable quote qe_report)
       (verify_quote ledger_reportable_proxy quote qe_report))
  /\ (forall r, same_report (VerifyReport r) (verify_ias_report ledger_reportable r)
       (verify_ias_report ledger_reportable_proxy r))
  /\ same_report GetReport (get_ias_report ledger_reportable) (get_ias_report ledger_reportable_proxy).
Proof.
  split_and!; intros; apply proxy_mirrors; try apply ledger_passes;
    try typeclasses eauto; intros s inbuf E; unfold ecall_dispatcher; by rewrite E.
Qed.
End dispatch.
