(* ===== verification/EcallExamples.v ===== *)
(** * Ecalls on concrete enclaves

    Instances of the foreign code at the border: an address space whose upper
    half is the enclave, a retry buffer with one slot, a caller that starts with
    a buffer of one byte, so that every answer is retried, and a serializer that
    writes a constructor as its number followed by its arguments.  With them
    the theorems on the entry points and the proxies are applied. *)

From S2P Require Import Prelude FogTypes ObliviousMap KexRng UserRngSet IngestEnclave Ecall EcallProxy IngestEcall.

Local Open Scope Z_scope.

(** ** The border, the retry buffer and the caller *)

Definition demo_border_start : Z := i64_modulus_half + 32.

#[export] Instance demo_border : SgxBorder := {|
  inside := fun a => demo_border_start <=? a;
  sgx_is_outside_enclave := fun p n => if p + n <=? demo_border_start then 1 else 0;
|}.

#[export] Instance demo_border_laws : SgxBorderLaws demo_border.
Proof.
  split; cbn [inside sgx_is_outside_enclave demo_border].
  - intros p n H a Ha; destruct (Z.leb_spec (p + n) demo_border_start); [|done].
    apply Z.leb_gt; lia.
  - intros p n Hn Hp _ H; destruct (Z.leb_spec (p + n) demo_border_start); [done|].
    specialize (H (p + n - 1) ltac:(lia)); apply Z.leb_gt in H; lia.
Qed.

(** The answer at the start of the buffer. *)
Definition fill (out outbuf : bytes) : bytes := out ++ drop (length out) outbuf.

Lemma fill_length out outbuf : (length out <= length outbuf)%nat -> length (fill out outbuf) = length outbuf.
Proof. intros H; unfold fill; rewrite length_app, length_drop; lia. Qed.

(** One slot, with the id 1. *)
#[export] Instance demo_retry : RetryBuffer := {|
  Retry := option bytes;
  retry_cached := fun rb id => if id =? 1 then rb else None;
  retry_call := fun St d rb s inbuf outbuf used id =>
    let answered rb s out :=
      if (length out <=? length outbuf)%nat
      then mkRetryOutcome (Ret (Ok tt)) (fill out outbuf) (Z.of_nat (length out)) 0 rb s
      else mkRetryOutcome (Ret (Err SGX_ERROR_OUT_OF_MEMORY)) outbuf (Z.of_nat (length out)) 1
             (Some out) s in
    if id =? 0 then
      match d s inbuf with
      | Panic => mkRetryOutcome Panic outbuf used id rb None
      | Ret (Err e, s) => mkRetryOutcome (Ret (Err e)) outbuf used id rb (Some s)
      | Ret (Ok out, s) => answered rb (Some s) out
      end
    else match (if id =? 1 then rb else None) with
         | Some out => answered None (Some s) out
         | None => mkRetryOutcome (Ret (Err SGX_ERROR_INVALID_PARAMETER)) outbuf used id rb (Some s)
         end;
|}.

#[export] Instance demo_retry_laws : RetryBufferLaws demo_retry.
Proof.
  split; cbn [retry_call retry_cached demo_retry]; cbv zeta.
  - intros St d rb s inbuf outbuf used id.
    repeat case_match; cbn [ro_outbuf]; try done; apply fill_length; by apply Nat.leb_le.
  - intros St d rb s inbuf outbuf E; by rewrite Z.eqb_refl, E.
  - intros St d rb s inbuf outbuf e s' E; by rewrite Z.eqb_refl, E.
  - intros St d rb s inbuf outbuf out s' E Hl; rewrite Z.eqb_refl, E.
    rewrite (proj2 (Nat.leb_le _ _) Hl); cbn; split_and!; try done; apply take_app_length.
  - intros St d rb s inbuf outbuf out s' E Hl; rewrite Z.eqb_refl, E.
    rewrite (proj2 (Nat.leb_gt _ _) Hl); cbn; unfold is_u64, u64_modulus; split_and!; try done; lia.
  - intros St d rb s inbuf outbuf out used id Hid Hc Hl.
    rewrite (proj2 (Z.eqb_neq _ _) Hid), Hc, (proj2 (Nat.leb_le _ _) Hl); cbn.
    split_and!; try done; apply take_app_length.
Qed.

#[export] Instance demo_host : EcallHost := {|
  frame_of := fun _ _ => mkFrame demo_border_start 24 8 16;
  first_outbuf := [0];
  next_outbuf := fun n => replicate (Z.to_nat n) 0;
  next_used := fun _ => 0;
  make_variable_length_ecall := fun W call w inbuf =>
    match call w inbuf [0] 0 0 with
    | ((SGX_SUCCESS, out, used, _), w) => (Ok (take (Z.to_nat used) out), w)
    | ((SGX_ERROR_OUT_OF_MEMORY, _, used, id), w) =>
        match call w inbuf (replicate (Z.to_nat used) 0) 0 id with
        | ((SGX_SUCCESS, out, used, _), w) => (Ok (take (Z.to_nat used) out), w)
        | ((status, _, _, _), w) => (Err status, w)
        end
    | ((status, _, _, _), w) => (Err status, w)
    end;
|}.

#[export] Instance demo_host_laws : EcallHostLaws demo_border demo_host.
Proof.
  split; try done.
  - intros n_in n_out Hi Ho; unfold good_frame, apart, demo_border_start, u64_modulus, i64_modulus_half in *.
    cbn [frame_of demo_host fr_in fr_out fr_used fr_retry inside demo_border].
    unfold demo_border_start, i64_modulus_half.
    split_and!; try lia; intros a Ha; first [apply Z.leb_le; lia | apply Z.leb_gt; lia].
  - intros n Hn; cbn [next_outbuf demo_host]; rewrite length_replicate; lia.
Qed.

(** ** A serializer *)

(** Values as numbers that say where they end. *)
Class Packed (T : Type) := {
  pack : T -> list Z;
  unpack : list Z -> option (T * list Z);
  unpack_pack : forall x r, unpack (pack x ++ r) = Some (x, r);
}.

#[export, refine] Instance packed_Z : Packed Z := {|
  pack := fun z => [z];
  unpack := fun l => match l with z :: r => Some (z, r) | [] => None end |}.
Proof. done. Defined.

#[export, refine] Instance packed_unit : Packed unit := {|
  pack := fun _ => [];
  unpack := fun l => Some (tt, l) |}.
Proof. by intros []. Defined.

#[export, refine] Instance packed_prod {T U} `{Packed T, Packed U} : Packed (T * U) := {|
  pack := fun p => pack p.1 ++ pack p.2;
  unpack := fun l => '(x, l) ← unpack l; '(y, l) ← unpack l; Some ((x, y), l) |}.
Proof. intros [x y] r; cbn; rewrite <- (assoc_L (++)), unpack_pack; cbn; by rewrite unpack_pack. Defined.

#[export, refine] Instance packed_sum {T U} `{Packed T, Packed U} : Packed (T + U) := {|
  pack := fun s => match s with inl x => 0 :: pack x | inr y => 1 :: pack y end;
  unpack := fun l => match l with
    | 0 :: l => '(x, l) ← unpack l; Some (inl x, l)
    | 1 :: l => '(y, l) ← unpack l; Some (inr y, l)
    | _ => None end |}.
Proof. intros [x|y] r; cbn; by rewrite unpack_pack. Defined.

(** A type that is read off another. *)
Definition packed_via {T U} `{Packed U} (f : T -> U) (g : U -> T) (E : forall x, g (f x) = x) : Packed T.
Proof.
  refine {| pack := fun x => pack (f x); unpack := fun l => '(u, l) ← unpack l; Some (g u, l) |}.
  intros x r; rewrite unpack_pack; cbn; by rewrite E.
Defined.

Fixpoint unpack_n {T} `{Packed T} (n : nat) (l : list Z) : option (list T * list Z) :=
  match n with
  | O => Some ([], l)
  | S n => '(x, l) ← unpack l; '(xs, l) ← unpack_n n l; Some (x :: xs, l)
  end.

#[export, refine] Instance packed_list {T} `{Packed T} : Packed (list T) := {|
  pack := fun xs => Z.of_nat (length xs) :: concat (pack <$> xs);
  unpack := fun l => match l with n :: l => unpack_n (Z.to_nat n) l | [] => None end |}.
Proof.
  intros xs r; cbn [app]; rewrite Nat2Z.id; induction xs as [|x xs IH]; [done|].
  cbn [length unpack_n fmap list_fmap concat]. rewrite <- (assoc_L (++)), unpack_pack; cbn.
  by rewrite IH.
Defined.

#[export] Instance packed_option {T} `{Packed T} : Packed (option T).
Proof.
  refine (packed_via (fun o : option T => match o with Some x => inl x | None => inr tt end)
    (fun s => match s with inl x => Some x | inr _ => None end) _); by intros [].
Defined.

#[export] Instance packed_result {T E} `{Packed T, Packed E} : Packed (result T E).
Proof.
  refine (packed_via (fun r : result T E => match r with Ok x => inl x | Err e => inr e end)
    (fun s => match s with inl x => Ok x | inr e => Err e end) _); by intros [].
Defined.

(** The serializer refuses what does not fit a vector. *)
Definition packed_wire {T} `{Packed T} : Wire T := {|
  serialize := fun x =>
    let bs := 0 :: pack x in
    if Z.of_nat (length bs) <? i64_modulus_half then Ok bs else Err tt;
  deserialize := fun bs => match bs with
    | 0 :: l => match unpack l with Some (x, []) => Ok x | _ => Err tt end
    | _ => Err tt end |}.

Lemma packed_wire_laws {T} `{Packed T} : WireLaws T (W := packed_wire).
Proof.
  split; intros x bs; cbn [serialize deserialize packed_wire];
    destruct (Z.ltb_spec (Z.of_nat (length (0 :: pack x))) i64_modulus_half); try done; intros [= <-].
  - pose proof (unpack_pack x []) as E; rewrite app_nil_r in E; by rewrite E.
  - cbn [length] in *; lia.
Qed.

(** ** The ingest enclave *)

#[export] Instance packed_kex_rng_pubkey : Packed KexRngPubkey.
Proof.
  refine (packed_via (fun k => (krp_public_key k, krp_version k)) (fun p => mkKexRngPubkey p.1 p.2) _);
    by intros [].
Defined.

#[export] Instance packed_row : Packed ETxOutRecord.
Proof.
  refine (packed_via (fun r => (etr_search_key r, etr_payload r)) (fun p => mkETxOutRecord p.1 p.2) _);
    by intros [].
Defined.

#[export] Instance packed_tx_out : Packed TxOut.
Proof.
  refine (packed_via
    (fun t => (amt_commitment (txo_amount t), amt_masked_value (txo_amount t), txo_target_key t,
               txo_public_key t, txo_e_fog_hint t))
    (fun '(c, v, t, p, h) => mkTxOut (mkAmount c v) t p h) _); by intros [[]].
Defined.

#[export] Instance packed_chunk : Packed TxsForIngest.
Proof.
  refine (packed_via
    (fun c => (tfi_block_index c, tfi_global_txo_index c, tfi_redacted_txs c, tfi_timestamp c))
    (fun '(b, g, txs, t) => mkTxsForIngest b g txs t) _); by intros [].
Defined.

#[export] Instance packed_init_params : Packed IngestEnclaveInitParams.
Proof.
  refine (packed_via (fun p => (iip_responder_id p, iip_sealed_key p, iip_desired_capacity p))
    (fun '(r, k, c) => mkIngestEnclaveInitParams r k c) _); by intros [].
Defined.

#[export] Instance packed_key_error : Packed KeyError.
Proof.
  refine (packed_via
    (fun e => match e with LengthMismatch a b => inl (a, b) | AlgorithmMismatch => inr None
                         | OtherKeyError c => inr (Some c) end)
    (fun s => match s with inl (a, b) => LengthMismatch a b | inr None => AlgorithmMismatch
                         | inr (Some c) => OtherKeyError c end) _); by intros [].
Defined.

#[export, refine] Instance packed_ingest_error : Packed (IngestEnclaveError unit unit) := {|
  pack := fun e => match e with
    | IngestNotInit _ _ => [0] | IngestAlreadyInit _ _ => [1] | IngestSgx _ => [2]
    | IngestAttest _ => [3] | IngestSerialization _ _ => [4] | IngestNonce _ _ z => [5; z]
    | IngestQuote _ _ z => [6; z] | IngestVerify _ _ z => [7; z] | IngestPoison _ _ => [8]
    | IngestInvalidState _ _ => [9] | IngestNoReportAvailable _ _ => [10]
    | IngestTooManyPendingReports _ _ => [11] | IngestKey e => 12 :: pack e
    | ChunkTooBig txs retries capacity => [13; Z.of_nat txs; Z.of_nat retries; capacity]
    | IngestRotateKeys _ _ z => [14; z] | ParseSealed => [15] end;
  unpack := fun l => match l with
    | 0 :: l => Some (IngestNotInit _ _, l) | 1 :: l => Some (IngestAlreadyInit _ _, l)
    | 2 :: l => Some (IngestSgx tt, l) | 3 :: l => Some (IngestAttest tt, l)
    | 4 :: l => Some (IngestSerialization _ _, l) | 5 :: z :: l => Some (IngestNonce _ _ z, l)
    | 6 :: z :: l => Some (IngestQuote _ _ z, l) | 7 :: z :: l => Some (IngestVerify _ _ z, l)
    | 8 :: l => Some (IngestPoison _ _, l) | 9 :: l => Some (IngestInvalidState _ _, l)
    | 10 :: l => Some (IngestNoReportAvailable _ _, l)
    | 11 :: l => Some (IngestTooManyPendingReports _ _, l)
    | 12 :: l => '(e, l) ← unpack l; Some (IngestKey e, l)
    | 13 :: t :: r :: c :: l => Some (ChunkTooBig (Z.to_nat t) (Z.to_nat r) c, l)
    | 14 :: z :: l => Some (IngestRotateKeys _ _ z, l) | 15 :: l => Some (ParseSealed, l)
    | _ => None end |}.
Proof.
  intros [| |[]|[]| | | | | | | | | | | |] r; cbn [app]; rewrite ?Nat2Z.id; try done.
  by rewrite unpack_pack.
Defined.

(** A report cache that has nothing to say. *)
Definition demo_report_cache : ReportCache unit unit unit := {|
  TargetInfo := unit; Quote := unit; SgxReport := unit; QuoteNonce := unit; IasNonce := unit;
  X25519Public := unit; ReportableError := unit;
  reportable_attest := fun _ => tt; reportable_encode := tt; reportable_decode := tt;
  reportable_sgx := fun _ => tt;
  ake_new_ereport := fun s _ => (Ok (tt, tt), s);
  ake_verify_quote := fun s _ _ => (Ok tt, s);
  ake_verify_ias_report := fun s _ => (Ok tt, s);
  ake_get_ias_report := fun s => (Err tt, s);
  get_kex_identity := fun _ => tt;
|}.

Definition demo_call : Type := @EnclaveCall demo_peer_ake demo_report_cache.

#[export, refine] Instance packed_ingest_call : Packed demo_call := {|
  pack := fun c : demo_call => match c with
    | EnclaveInit p => 0 :: pack p | NewKeys => [1] | NewEgressKey => [2] | GetIngressPubkey => [3]
    | GetSealedIngressPrivateKey => [4] | GetIngressPrivateKey _ => [5]
    | SetIngressPrivateKey m => 6 :: pack (m : list Z) | GetKexRngPubkey => [7]
    | IngestTxs chunk => 8 :: pack chunk | GetIdentity => [9] | NewEreport _ => [10]
    | VerifyQuote _ _ => [11] | VerifyReport _ => [12] | GetReport => [13]
    | PeerInit i => 14 :: pack i | PeerAccept _ => [15] | PeerConnect i _ => 16 :: pack i
    | PeerClose _ => [17] end;
  unpack := fun l => match l return option (demo_call * list Z) with
    | 0 :: l => '(p, l) ← unpack l; Some (EnclaveInit p : demo_call, l)
    | 1 :: l => Some (NewKeys, l) | 2 :: l => Some (NewEgressKey, l)
    | 3 :: l => Some (GetIngressPubkey, l) | 4 :: l => Some (GetSealedIngressPrivateKey, l)
    | 5 :: l => Some (@GetIngressPrivateKey demo_peer_ake demo_report_cache tt, l)
    | 6 :: l => '(m, l) ← unpack (T := list Z) l; Some (SetIngressPrivateKey m : demo_call, l)
    | 7 :: l => Some (GetKexRngPubkey, l)
    | 8 :: l => '(chunk, l) ← unpack l; Some (IngestTxs chunk : demo_call, l)
    | 9 :: l => Some (GetIdentity, l) | 10 :: l => Some (@NewEreport demo_peer_ake demo_report_cache tt, l)
    | 11 :: l => Some (@VerifyQuote demo_peer_ake demo_report_cache tt tt, l) | 12 :: l => Some (@VerifyReport demo_peer_ake demo_report_cache tt, l)
    | 13 :: l => Some (GetReport, l)
    | 14 :: l => '(i, l) ← unpack l; Some (PeerInit i : demo_call, l)
    | 15 :: l => Some (@PeerAccept demo_peer_ake demo_report_cache tt, l)
    | 16 :: l => '(i, l) ← unpack l; Some (@PeerConnect demo_peer_ake demo_report_cache i tt, l)
    | 17 :: l => Some (@PeerClose demo_peer_ake demo_report_cache tt, l)
    | _ => None end |}.
Proof.
  intros [p| | | | |[]|m| |chunk| |[]|[] []|[]| |i|[]|i []|[]] r; cbn [app];
    rewrite ?unpack_pack; done.
Defined.

#[local] Existing Instance demo_report_cache.

Definition demo_ingest_wire : @IngestWire _ _ demo_ingest_crypto demo_peer_ake demo_report_cache := {|
  wire_call := packed_wire (H := packed_ingest_call);
  wire_unit := packed_wire (T := result unit (IngestEnclaveError unit unit));
  wire_public := packed_wire (T := result Z (IngestEnclaveError unit unit));
  wire_sealed := packed_wire (T := result (bytes * bytes) (IngestEnclaveError unit unit));
  wire_given := packed_wire (T := result (bytes * bytes) (IngestEnclaveError unit unit));
  wire_taken := packed_wire (T := result (Z * bytes) (IngestEnclaveError unit unit));
  wire_kex := packed_wire (T := result KexRngPubkey (IngestEnclaveError unit unit));
  wire_rows := packed_wire (T := result (list ETxOutRecord * option KexRngPubkey)
    (IngestEnclaveError unit unit));
  wire_identity := packed_wire (T := result unit (IngestEnclaveError unit unit));
  wire_request := packed_wire (T := result unit (IngestEnclaveError unit unit));
  wire_accept := packed_wire (T := result (unit * unit) (IngestEnclaveError unit unit));
  wire_connect := packed_wire (T := result (unit * unit) (IngestEnclaveError unit unit));
  wire_ereport := packed_wire (T := result (unit * unit) unit);
  wire_quote := packed_wire (T := result unit unit);
  wire_verified := packed_wire (T := result unit unit);
  wire_report := packed_wire (T := result unit unit);
|}.

Lemma demo_ingest_wire_laws : IngestWireLaws (IW := demo_ingest_wire).
Proof. split; apply packed_wire_laws. Qed.

(** What a crashed enclave answers does not matter here. *)
Definition demo_broken (inbuf outbuf : bytes) (used id : Z) : answer :=
  (SGX_ERROR_ENCLAVE_CRASHED, outbuf, used, id).

Definition demo_ingest_untrusted :
  @IngestEnclaveApi _ _ demo_ingest_crypto demo_peer_ake demo_report_cache
    (proxy_step (SgxIngestEnclave (C := demo_ingest_crypto) (OM := demo_omap) (A := demo_peer_ake))) :=
  @ingest_untrusted _ _ demo_ingest_crypto demo_omap demo_peer_ake demo_report_cache demo_ingest_wire
    demo_border demo_retry demo_host demo_broken (fun _ => tt).

Definition demo_ingest_world (capacity : Z) : @World demo_retry _ :=
  @mkWorld demo_retry _ (Some (demo_ingest_enclave capacity)) None.

(** The rows of a block with two outputs come back through the proxy as the
    enclave made them, by way of the retry buffer. *)
Lemma ingest_proxy_is_enclave_witness :
  match ingest_txs (demo_ingest_enclave 8) (demo_chunk [1; 2]) with
  | Ret (res, s') => is_ok res = true /\ exists w', w_enclave w' = Some s'
      /\ api_ingest_txs _ demo_ingest_untrusted (demo_chunk [1; 2]) (demo_ingest_world 8) = (res, w')
  | Panic => False
  end.
Proof.
  destruct (@ingest_proxy_is_enclave _ _ demo_ingest_crypto demo_omap demo_peer_ake demo_report_cache
    demo_ingest_wire demo_border demo_retry demo_host demo_broken (fun _ => tt) demo_border_laws
    demo_retry_laws demo_host_laws demo_ingest_wire_laws) as (_&_&_&_&_&_&_&_&Htxs&_).
  specialize (Htxs (demo_chunk [1; 2]) (demo_ingest_world 8) (demo_ingest_enclave 8) eq_refl).
  assert (E : is_ok (@serialize _ (@wire_call _ _ demo_ingest_crypto demo_peer_ake demo_report_cache
    demo_ingest_wire) (IngestTxs (demo_chunk [1; 2]))) = true) by (vm_compute; reflexivity).
  rewrite E in Htxs; clear E; cbn [api_ingest_txs ingest_trusted] in Htxs.
  destruct (ingest_txs (demo_ingest_enclave 8) (demo_chunk [1; 2])) as [[res s']|] eqn:Er.
  - assert (E : match ingest_txs (demo_ingest_enclave 8) (demo_chunk [1; 2]) with
                | Ret (r, _) => is_ok r && is_ok (@serialize _ (@wire_rows _ _ demo_ingest_crypto
                    demo_peer_ake demo_report_cache demo_ingest_wire) r)
                | Panic => false end = true) by (vm_compute; reflexivity).
    rewrite Er in E; apply andb_prop in E as [E1 E2].
    destruct Htxs as (w'&Hs&Hw); rewrite E2 in Hw. split; [exact E1|].
    exists w'; split; [exact Hs|]. unfold demo_ingest_untrusted; exact Hw.
  - assert (E : match ingest_txs (demo_ingest_enclave 8) (demo_chunk [1; 2]) with
                | Ret _ => true | Panic => false end = true) by (vm_compute; reflexivity).
    by rewrite Er in E.
Defined.

(** ** The entry points *)

(** An enclave that counts its calls and answers with its input. *)
Definition echo : dispatcher nat := fun s inbuf => Ret (Ok inbuf, S s).

(** A call of two bytes with room for the answer. *)
Definition echo_memory : RawMemory :=
  placed (mkFrame demo_border_start 24 8 16) [5; 6] [0; 0; 0] 0 0.

Definition entry_status {St Retry} (e : entry St Retry) : option sgx_status_t :=
  match e with Returns status _ _ _ => Some status | Faults => None end.

Lemma entry_points_keep_enclave_witness :
  entry_status (viewenclave_call echo echo_memory None 0%nat demo_border_start 2 24 3 8 16)
    = Some SGX_SUCCESS
  /\ entry_status (viewenclave_call echo echo_memory None 0%nat demo_border_start 2 demo_border_start 3 8 16)
    = Some SGX_ERROR_INVALID_PARAMETER
  /\ keeps_enclave echo_memory
       (ingest_enclave_call echo echo_memory None 0%nat demo_border_start 2 24 3 8 16).
Proof.
  split; [vm_compute; reflexivity|split; [vm_compute; reflexivity|]].
  exact (proj1 (entry_points_keep_enclave echo echo_memory None 0%nat demo_border_start 2 24 3 8 16
    ltac:(lia))).
Defined.

Lemma view_entry_null_faults_witness :
  viewenclave_call echo echo_memory None 0%nat demo_border_start 2 24 3 0 16 = Faults.
Proof.
  refine (proj1 (view_entry_null_faults echo echo_memory None 0%nat demo_border_start 2 24 3 16
    _ _ _ _ _ _ _)); try (vm_compute; congruence).
  intros a Ha; cbn [inside demo_border]; apply Z.leb_gt; unfold demo_border_start, i64_modulus_half; lia.
Defined.
