(* ===== verification/ViewEcallExamples.v ===== *)
(** * The view enclave through its proxy

    Records are added to a concrete enclave through its proxy. *)

From S2P Require Import Prelude FogTypes RecoveryTypes ObliviousMap ViewEnclave Ecall EcallProxy ViewEcall.
From S2P Require Import EcallExamples.

Local Open Scope Z_scope.

#[export] Instance packed_range : Packed BlockRange.
Proof.
  refine (packed_via (fun b => (br_start_block b, br_end_block b)) (fun p => mkBlockRange p.1 p.2) _);
    by intros [].
Defined.

#[export] Instance packed_event : Packed FogUserEvent.
Proof.
  refine (packed_via
    (fun e => match e with
      | NewRngRecord r => inl (rr_ingest_invocation_id r, rr_pubkey r, rr_start_block r)
      | DecommissionIngestInvocation d => inr (inl (dii_ingest_invocation_id d, dii_last_ingested_block d))
      | MissingBlocks b => inr (inr b) end)
    (fun s => match s with
      | inl (i, k, b) => NewRngRecord (mkRngRecord i k b)
      | inr (inl (i, b)) => DecommissionIngestInvocation (mkDecommissionedIngestInvocation i b)
      | inr (inr b) => MissingBlocks b end) _); by intros [[]|[]|].
Defined.

#[export] Instance packed_untrusted : Packed UntrustedQueryResponse.
Proof.
  refine (packed_via
    (fun u => (uqr_user_events u, uqr_next_start_from_user_event_id u,
      uqr_highest_processed_block_count u, uqr_highest_processed_block_signature_timestamp u,
      uqr_last_known_block_count u, uqr_last_known_block_cumulative_txo_count u))
    (fun '(e, n, h, t, l, c) => mkUntrustedQueryResponse e n h t l c) _); by intros [].
Defined.

#[export] Instance packed_add_error : Packed AddRecordsError.
Proof.
  refine (packed_via
    (fun e => match e with KeyWrongSize => (0, 0, 0) | KeyRejected => (1, 0, 0) | ValueTooLarge => (2, 0, 0)
                         | ValueWrongSize => (3, 0, 0) | MapOverflow a b => (4, a, b) end)
    (fun '(t, a, b) => match t with 0 => KeyWrongSize | 1 => KeyRejected | 2 => ValueTooLarge
                         | 3 => ValueWrongSize | _ => MapOverflow a b end) _); by intros [].
Defined.

#[export] Instance packed_view_error : Packed (@ViewEnclaveError demo_ake).
Proof.
  refine (packed_via
    (fun e : @ViewEnclaveError demo_ake => match e with
      | ViewSgx c => inl (0, c) | ViewSerdeEncode => inl (1, 0) | ViewSerdeDecode => inl (2, 0)
      | ViewProstEncode => inl (3, 0) | ViewProstDecode => inl (4, 0)
      | ViewAttestEnclave _ => inl (5, 0) | ViewAddRecords e => inr e
      | ViewPoison => inl (6, 0) | ViewEnclaveNotInitialized => inl (7, 0) end)
    (fun s => match s return @ViewEnclaveError demo_ake with
      | inl (0, c) => ViewSgx c | inl (1, _) => ViewSerdeEncode | inl (2, _) => ViewSerdeDecode
      | inl (3, _) => ViewProstEncode | inl (4, _) => ViewProstDecode
      | inl (5, _) => @ViewAttestEnclave demo_ake tt | inr e => ViewAddRecords e
      | inl (6, _) => ViewPoison | inl (_, _) => ViewEnclaveNotInitialized end) _); by intros [| | | | |[]| | |].
Defined.

Definition demo_sessions : ClientSessions unit unit unit := {|
  ClientAuthRequest := unit; ClientAuthResponse := unit;
  ake_client_accept := fun s _ => (Ok (tt, tt), s);
  ake_client_close := fun s _ => (Ok tt, s);
|}.

Definition demo_request : Type := @ViewEnclaveRequest demo_ake unit demo_report_cache demo_sessions.

#[export] Instance packed_request : Packed demo_request.
Proof.
  refine (packed_via
    (fun c : demo_request => match c with
      | Init p => inl (inl (vip_eid p, vip_desired_capacity p))
      | Query m u => inl (inr ((m : list Z), u)) | AddRecords rs => inr (inl rs)
      | GetIdentity => inr (inr 0) | NewEReport _ => inr (inr 1) | VerifyQuote _ _ => inr (inr 2)
      | VerifyIasReport _ => inr (inr 3) | GetIasReport => inr (inr 4) | ClientAccept _ => inr (inr 5)
      | ClientClose _ => inr (inr 6) end)
    (fun s => match s return demo_request with
      | inl (inl (e, c)) =>
          @Init demo_ake unit demo_report_cache demo_sessions (@mkViewEnclaveInitParams demo_ake e tt c)
      | inl (inr (m, u)) => @Query demo_ake unit demo_report_cache demo_sessions m u
      | inr (inl rs) => @AddRecords demo_ake unit demo_report_cache demo_sessions rs
      | inr (inr 0) => @GetIdentity demo_ake unit demo_report_cache demo_sessions
      | inr (inr 1) => @NewEReport demo_ake unit demo_report_cache demo_sessions tt
      | inr (inr 2) => @VerifyQuote demo_ake unit demo_report_cache demo_sessions tt tt
      | inr (inr 3) => @VerifyIasReport demo_ake unit demo_report_cache demo_sessions tt
      | inr (inr 4) => @GetIasReport demo_ake unit demo_report_cache demo_sessions
      | inr (inr 5) => @ClientAccept demo_ake unit demo_report_cache demo_sessions tt
      | inr (inr _) => @ClientClose demo_ake unit demo_report_cache demo_sessions tt end) _).
  by intros [[? [] ?]| |[]|[] []|[]| |[]|[]| |].
Defined.

Definition demo_view_wire : @ViewWire demo_ake unit demo_report_cache demo_sessions := {|
  view_wire_call := packed_wire (H := packed_request);
  view_wire_unit := packed_wire (T := result unit (@ViewEnclaveError demo_ake));
  view_wire_identity := packed_wire (T := result unit (@ViewEnclaveError demo_ake));
  view_wire_accept := packed_wire (T := result (unit * unit) (@ViewEnclaveError demo_ake));
  view_wire_bytes := packed_wire (T := result bytes (@ViewEnclaveError demo_ake));
  view_wire_ereport := packed_wire (T := result (unit * unit) unit);
  view_wire_quote := packed_wire (T := result unit unit);
  view_wire_verified := packed_wire (T := result unit unit);
  view_wire_report := packed_wire (T := result unit unit);
|}.

Lemma demo_view_wire_laws : ViewWireLaws (VW := demo_view_wire).
Proof. split; apply packed_wire_laws. Qed.

Definition demo_view_untrusted :
  @ViewEnclaveApi demo_ake unit demo_report_cache demo_sessions
    (proxy_step (@TrustedView demo_omap demo_ake)) :=
  @view_untrusted demo_omap demo_ake demo_codec unit demo_report_cache demo_sessions demo_view_wire
    demo_border demo_retry demo_host demo_broken (fun _ => 0).

Definition demo_trusted_view : @TrustedView demo_omap demo_ake := mkTrustedView demo_enclave 0.

Lemma view_proxy_is_enclave_witness :
  match view_add_records _ (view_trusted (CS := demo_sessions) (RC := demo_report_cache))
          demo_records_list demo_trusted_view with
  | Ret (res, s') => is_ok res = true /\ exists w', w_enclave w' = Some s'
      /\ view_add_records _ demo_view_untrusted demo_records_list
           (@mkWorld demo_retry _ (Some demo_trusted_view) None) = (res, w')
  | Panic => False
  end.
Proof.
  destruct (@view_proxy_is_enclave demo_omap demo_ake demo_codec unit demo_report_cache demo_sessions
    demo_view_wire demo_border demo_retry demo_host demo_broken (fun _ => 0) demo_border_laws
    demo_retry_laws demo_host_laws demo_view_wire_laws) as (_&_&_&_&_&Hadd&_).
  specialize (Hadd demo_records_list (@mkWorld demo_retry _ (Some demo_trusted_view) None)
    demo_trusted_view eq_refl).
  assert (E : is_ok (@serialize _ (@view_wire_call demo_ake unit demo_report_cache demo_sessions
    demo_view_wire) (AddRecords demo_records_list)) = true) by (vm_compute; reflexivity).
  rewrite E in Hadd; clear E.
  destruct (view_add_records _ view_trusted demo_records_list demo_trusted_view) as [[res s']|] eqn:Er.
  - assert (E : match view_add_records _ (view_trusted (CS := demo_sessions) (RC := demo_report_cache))
                        demo_records_list demo_trusted_view with
                | Ret (r, _) => is_ok r && is_ok (@serialize _ (@view_wire_unit demo_ake unit
                    demo_report_cache demo_sessions demo_view_wire) r)
                | Panic => false end = true) by (vm_compute; reflexivity).
    rewrite Er in E; apply andb_prop in E as [E1 E2].
    destruct Hadd as (w'&Hs&Hw); rewrite E2 in Hw. split; [exact E1|].
    exists w'; split; [exact Hs|]. unfold demo_view_untrusted; exact Hw.
  - assert (E : match view_add_records _ (view_trusted (CS := demo_sessions) (RC := demo_report_cache))
                        demo_records_list demo_trusted_view with
                | Ret _ => true | Panic => false end = true) by (vm_compute; reflexivity).
    by rewrite Er in E.
Defined.
