(* ===== verification/Jni.v ===== *)
(** * Calls from Java (src/android-bindings/src/ffi.rs, error.rs)

    A Java object of the library has a field [rustObj] with the address of a
    boxed Rust value behind a mutex.  A native method locks the values it needs,
    may box new ones, and ends in a value or in a Java exception; a panic is
    turned into an exception.

    The Java machine and the jni crate are foreign code: a class with the
    operations the bindings use, and what their documentation says of them as
    laws.  The boxes are a finite map; a native method that reads an address
    that is not boxed, or boxed at another type, is undefined, and one that
    locks a value it already holds blocks forever. *)

From S2P Require Import Prelude.

Local Open Scope Z_scope.

(** The errors of the bindings, as far as they are told apart; a message and an
    error of another crate is a number. *)
Inductive McError :=
| McFromUtf8 (e : Z) | McTryFromSlice | McKey (e : Z) | McRingSignature (e : Z) | McAmount (e : Z)
| McUtf8 (e : Z) | McUriParse (e : Z) | McUriConversion (e : Z) | McAke (e : Z) | McCipher (e : Z)
| McEncode (e : Z) | McDecode (e : Z) | McSerialize (e : Z) | McDeserialize (e : Z)
| McTxBuilder (e : Z) | McCryptoBox (e : Z) | McKexRng (e : Z) | McAttestVerify (e : Z)
| McEncodings (e : Z) | McPanic (e : Z) | McOther (e : Z) | McJni (e : Z) | McBip39 (e : Z)
| McDowncastAnyFailed (e : Z).

(** ** The Java machine and the jni crate *)

(** The state a native method works on: the Java machine, the boxed values and
    the boxes whose lock the method holds. *)
Record JState (Jvm Obj : Type) := mkJState {
  js_jvm : Jvm;
  js_boxes : gmap positive Obj;
  js_held : list positive;
}.
Global Arguments mkJState {Jvm Obj}.
Global Arguments js_jvm {Jvm Obj}.
Global Arguments js_boxes {Jvm Obj}.
Global Arguments js_held {Jvm Obj}.

(** How the attempt to lock a field ends. *)
Inductive locked := LockedAt (p : positive) | LockError (e : Z) | LockBlocks.

(** [Obj] is the type of boxed values. *)
Class Jni (Obj : Type) := {
  JObject : Type;
  jobject_eq_dec :: EqDecision JObject;
  JByteArray : Type;
  JString : Type;
  JObjectArray : Type;
  Jvm : Type;
  null_bytes : JByteArray;
  null_string : JString;
  null_object : JObject;
  null_array : JObjectArray;
  is_null_bytes : JByteArray -> bool;
  (** The field [rustObj]. *)
  rust_ptr : Jvm -> JObject -> option positive;
  (** An exception was thrown and Java has not seen it yet. *)
  pending : Jvm -> bool;
  throw_new : Jvm -> McError -> Jvm;
  convert_byte_array : Jvm -> JByteArray -> result bytes Z;
  get_string : Jvm -> JString -> result bytes Z;
  get_array_length : Jvm -> JObjectArray -> result nat Z;
  get_object_array_element : Jvm -> JObjectArray -> nat -> result JObject Z;
  get_string_array_element : Jvm -> JObjectArray -> nat -> result JString Z;
  get_bytes_array_element : Jvm -> JObjectArray -> nat -> result JByteArray Z;
  byte_array_length : Jvm -> JByteArray -> result nat Z;
  byte_array_from_slice : Jvm -> bytes -> result JByteArray Z * Jvm;
  set_byte_array_region : Jvm -> JByteArray -> nat -> bytes -> result unit Z * Jvm;
  new_string : Jvm -> bytes -> result JString Z * Jvm;
  (** A [byte[][]] with the given elements. *)
  new_bytes_array : Jvm -> list bytes -> result JObjectArray Z * Jvm;
  (** [new BigInteger(signum, magnitude)] and [toByteArray]. *)
  new_big_integer : Jvm -> Z -> bytes -> result JObject Z * Jvm;
  to_byte_array : Jvm -> JObject -> result bytes Z;
  set_rust_field : JState Jvm Obj -> JObject -> Obj -> result unit Z * JState Jvm Obj;
  get_rust_field : JState Jvm Obj -> JObject -> locked;
  take_rust_field : JState Jvm Obj -> JObject -> result positive Z * JState Jvm Obj;
}.

(** What an operation that only makes Java objects leaves alone. *)
Definition same_fields `{J : Jni Obj} (j j' : Jvm) : Prop :=
  (forall o, rust_ptr j' o = rust_ptr j o) /\ pending j' = pending j.

(** The documentation of the jni crate: [set_rust_field] boxes the value at an
    address of its own and refuses a field that is set; [get_rust_field] fails on
    null and locks the mutex; [take_rust_field] empties the field and fails on
    null and on an outstanding lock.  Each of them may fail otherwise, and then
    leaves everything as it was. *)
Class JniLaws `(J : Jni Obj) : Prop := {
  set_field_null : forall s o v, rust_ptr (js_jvm s) o = None ->
    (exists e, set_rust_field s o v = (Err e, s))
    \/ (exists p j', js_boxes s !! p = None
        /\ set_rust_field s o v = (Ok tt, mkJState j' (<[p := v]> (js_boxes s)) (js_held s))
        /\ rust_ptr j' o = Some p /\ (forall o', o' <> o -> rust_ptr j' o' = rust_ptr (js_jvm s) o')
        /\ pending j' = pending (js_jvm s));
  set_field_set : forall s o v p, rust_ptr (js_jvm s) o = Some p ->
    exists e, set_rust_field s o v = (Err e, s);
  get_field_null : forall s o, rust_ptr (js_jvm s) o = None -> exists e, get_rust_field s o = LockError e;
  get_field_held : forall s o p, rust_ptr (js_jvm s) o = Some p -> p ∈ js_held s ->
    get_rust_field s o = LockBlocks;
  get_field_free : forall s o p, rust_ptr (js_jvm s) o = Some p -> p ∉ js_held s ->
    get_rust_field s o = LockedAt p;
  take_field_null : forall s o, rust_ptr (js_jvm s) o = None ->
    exists e, take_rust_field s o = (Err e, s);
  take_field_held : forall s o p, rust_ptr (js_jvm s) o = Some p -> p ∈ js_held s ->
    exists e, take_rust_field s o = (Err e, s);
  take_field_free : forall s o p, rust_ptr (js_jvm s) o = Some p -> p ∉ js_held s ->
    exists j', take_rust_field s o = (Ok p, mkJState j' (js_boxes s) (js_held s))
      /\ rust_ptr j' o = None /\ (forall o', o' <> o -> rust_ptr j' o' = rust_ptr (js_jvm s) o')
      /\ pending j' = pending (js_jvm s);
  throw_pending : forall j e, pending (throw_new j e) = true /\ forall o, rust_ptr (throw_new j e) o = rust_ptr j o;
  bytes_same : forall j bs, same_fields j (byte_array_from_slice j bs).2;
  region_same : forall j a n bs, same_fields j (set_byte_array_region j a n bs).2;
  string_same : forall j bs, same_fields j (new_string j bs).2;
  array_same : forall j l, same_fields j (new_bytes_array j l).2;
  integer_same : forall j z bs, same_fields j (new_big_integer j z bs).2;
}.

(** ** Native methods *)

(** A body ends in a value, an error or a panic; it can block forever or be undefined. *)
Inductive jout (S A : Type) :=
| JDone (a : A) (s : S)
| JFails (e : McError) (s : S)
| JPanics (s : S)
| JBlocks
| JUndefined.
Global Arguments JDone {S A}.
Global Arguments JFails {S A}.
Global Arguments JPanics {S A}.
Global Arguments JBlocks {S A}.
Global Arguments JUndefined {S A}.

Section native.
Context {Obj : Type} {J : Jni Obj}.

Abbreviation St := (JState Jvm Obj).

Definition jni (A : Type) : Type := St -> jout St A.

#[export] Instance jni_ret : MRet jni := fun A a s => JDone a s.
#[export] Instance jni_bind : MBind jni := fun A B f m s =>
  match m s with
  | JDone a s => f a s
  | JFails e s => JFails e s
  | JPanics s => JPanics s
  | JBlocks => JBlocks
  | JUndefined => JUndefined
  end.

Definition fail {A} (e : McError) : jni A := fun s => JFails e s.

(** [?] on a result of another crate. *)
Definition try {A E} (from : E -> McError) (r : result A E) : jni A :=
  match r with Ok a => mret a | Err e => fail (from e) end.

(** [?] on a call of the environment: one that reads and one that makes an object.
    No such call may be made while an exception is pending. *)
Definition env_read {A} (f : Jvm -> result A Z) : jni A := fun s =>
  if pending (js_jvm s) then JUndefined else try McJni (f (js_jvm s)) s.

Definition env_make {A} (f : Jvm -> result A Z * Jvm) : jni A := fun s =>
  if pending (js_jvm s) then JUndefined else
  let '(r, j) := f (js_jvm s) in try McJni r (mkJState j (js_boxes s) (js_held s)).

(** [env.get_rust_field(obj, RUST_OBJ_FIELD)?] at the type that [as_t] reads: the
    lock is kept, and what is boxed must be of the type. *)
Definition get_field {T} (as_t : Obj -> option T) (o : JObject) : jni (positive * T) := fun s =>
  if pending (js_jvm s) then JUndefined else
  match get_rust_field s o with
  | LockError e => JFails (McJni e) s
  | LockBlocks => JBlocks
  | LockedAt p =>
      match js_boxes s !! p ≫= as_t with
      | Some t => JDone (p, t) (mkJState (js_jvm s) (js_boxes s) (p :: js_held s))
      | None => JUndefined
      end
  end.

(** A guard that is only read. *)
Definition get {T} (as_t : Obj -> option T) (o : JObject) : jni T := pt ← get_field as_t o; mret pt.2.

(** Writing through a guard. *)
Definition write (p : positive) (v : Obj) : jni unit := fun s =>
  JDone tt (mkJState (js_jvm s) (<[p := v]> (js_boxes s)) (js_held s)).

(** A guard that is dropped at the end of a block. *)
Definition unlock (p : positive) : jni unit := fun s =>
  JDone tt (mkJState (js_jvm s) (js_boxes s) (filter (fun q => q <> p) (js_held s))).

Definition get_clone {T} (as_t : Obj -> option T) (o : JObject) : jni T :=
  pt ← get_field as_t o; unlock pt.1;; mret pt.2.

(** [env.set_rust_field(obj, RUST_OBJ_FIELD, v)?]. *)
Definition set_field (o : JObject) (v : Obj) : jni unit := fun s =>
  if pending (js_jvm s) then JUndefined else
  let '(r, s) := set_rust_field s o v in try McJni r s.

(** [env.take_rust_field(obj, RUST_OBJ_FIELD)?]: the value leaves its box. *)
Definition take_field {T} (as_t : Obj -> option T) (o : JObject) : jni T := fun s =>
  if pending (js_jvm s) then JUndefined else
  match take_rust_field s o with
  | (Err e, s) => JFails (McJni e) s
  | (Ok p, s) =>
      match js_boxes s !! p ≫= as_t with
      | Some t => JDone t (mkJState (js_jvm s) (delete p (js_boxes s)) (js_held s))
      | None => JUndefined
      end
  end.

(** [Box::into_raw(Box::new(Mutex::new(v))) as jlong]: an address of its own. *)
Definition into_raw (v : Obj) : jni positive := fun s =>
  let p := fresh (dom (js_boxes s)) in
  JDone p (mkJState (js_jvm s) (<[p := v]> (js_boxes s)) (js_held s)).

(** [(0..env.get_array_length(a)?).map(..).collect()?]. *)
Definition each {T} (a : JObjectArray) (f : nat -> jni T) : jni (list T) :=
  n ← env_read (fun j => get_array_length j a); mapM f (seq 0 n).

(** ** ffi.rs *)

(** How Java sees a call: its value, an exception, or worse. *)
Inductive called (R : Type) :=
| Value (r : R) (s : St)
| Exception (e : McError) (s : St)
| Hangs
| Crashes.
Global Arguments Value {R}.
Global Arguments Exception {R}.
Global Arguments Hangs {R}.
Global Arguments Crashes {R}.

(** The guards are dropped when the closure returns or unwinds. *)
Definition drop_guards (s : St) : St := mkJState (js_jvm s) (js_boxes s) [].

(** The number of the message of a panic. *)
Definition panic_message : Z := 0.

(** The exception is thrown before the value to return with it is computed; if
    that fails the method panics into Java. *)
Definition jni_ffi_call_or {R} (on_err : jni R) (f : jni R) (s : St) : called R :=
  let throw e s :=
    let s := mkJState (throw_new (js_jvm s) e) (js_boxes s) (js_held s) in
    match on_err s with
    | JDone _ s => Exception e s
    | JBlocks => Hangs
    | _ => Crashes
    end in
  match f s with
  | JDone r s => Value r (drop_guards s)
  | JFails e s => throw e (drop_guards s)
  | JPanics s => throw (McPanic panic_message) (drop_guards s)
  | JBlocks => Hangs
  | JUndefined => Crashes
  end.

Definition jni_ffi_call {R} (default : R) (f : jni R) (s : St) : called R :=
  jni_ffi_call_or (mret default) f s.

(** [while bytes_vec.get(0) == Some(&0) { bytes_vec.remove(0); }]. *)
Fixpoint strip_zeros (bs : bytes) : bytes :=
  match bs with
  | 0 :: bs => strip_zeros bs
  | _ => bs
  end.

(** [u64::from_be_bytes]. *)
Definition from_be_bytes (bs : bytes) : Z := le_combine (rev bs).

(** The conversion after the bytes were read. *)
Definition big_int_bytes_to_u64 (bytes_vec : bytes) : result Z McError :=
  let bytes_vec := strip_zeros bytes_vec in
  if (8 <? length bytes_vec)%nat then Err (McOther 0)
  else Ok (from_be_bytes (replicate (8 - length bytes_vec) 0 ++ bytes_vec)).

Definition jni_big_int_to_u64 (obj : JObject) : jni Z :=
  bytes_vec ← env_read (fun j => to_byte_array j obj);
  try (fun e => e) (big_int_bytes_to_u64 bytes_vec).
End native.
Global Arguments jni {Obj J} A.
Global Arguments called {Obj J} R.
