(* ===== verification/Android.v ===== *)
(** * The Android bindings (src/android-bindings/src/bindings.rs)

    The native methods of the Java classes of the mobile library.  Each class
    has a type of its methods with their arguments and a function that runs one;
    the methods of a class are in one section of the source.  Keys, accounts,
    attestation and transactions are other crates: the class [AndroidCrates].
    What [McRng::default()] draws during a call is an argument of the call. *)

From S2P Require Import Prelude FogTypes KexRng Jni.

Local Open Scope Z_scope.

(** ** Other crates *)

(** The structs whose fields the bindings fill in. *)
Record VerificationReport := mkVerificationReport {
  vr_sig : bytes; vr_chain : list bytes; vr_http_body : bytes }.
Record Report := mkReport { rep_fog_report_id : bytes; rep_report : VerificationReport; rep_pubkey_expiry : Z }.
Record ReportResponse := mkReportResponse {
  resp_reports : list Report; resp_chain : list bytes; resp_signature : bytes }.


(** Errors of other crates are numbers; where the conversion to [McError] depends
    on the error, it is part of the operation. *)
Class AndroidCrates `{K : Kex} := {
  Entropy : Type;
  private_try_from : bytes -> result Private Z;
  private_from_seed : bytes -> Private;
  private_to_bytes : Private -> bytes;
  public_try_from_bytes : bytes -> result Public Z;
  blake2b : bytes -> bytes;
  kex_error : KexRngError -> Z;
  (* amounts *)
  Commitment : Type;
  commitment_try_from : bytes -> result Commitment McError;
  create_shared_secret : Public -> Private -> Public;
  amount_get_value : Commitment -> Z -> Public -> result (Z * Private) Z;
  (* printable wrappers and mnemonics *)
  PrintableWrapper : Type;
  b58_decode : bytes -> result PrintableWrapper Z;
  b58_encode : PrintableWrapper -> result bytes Z;
  wrapper_parse : bytes -> result PrintableWrapper Z;
  wrapper_write : PrintableWrapper -> result bytes Z;
  Mnemonic : Type;
  mnemonic_from_phrase : bytes -> result Mnemonic McError;
  mnemonic_from_entropy : bytes -> result Mnemonic McError;
  mnemonic_entropy : Mnemonic -> bytes;
  mnemonic_to_string : Mnemonic -> bytes;
  words_by_prefix : bytes -> list bytes;
  (* accounts *)
  AccountKey : Type;
  PublicAddress : Type;
  account_new_with_fog : Private -> Private -> bytes -> bytes -> bytes -> AccountKey;
  account_from_root_identity : bytes -> bytes -> bytes -> bytes -> AccountKey;
  account_from_slip10 : Mnemonic -> Z -> AccountKey;
  view_private_key : AccountKey -> Private;
  spend_private_key : AccountKey -> Private;
  default_subaddress_view_private : AccountKey -> Private;
  default_subaddress_spend_private : AccountKey -> Private;
  default_subaddress : AccountKey -> PublicAddress;
  account_fog_report_url : AccountKey -> option bytes;
  account_fog_authority_spki : AccountKey -> option bytes;
  account_fog_report_id : AccountKey -> option bytes;
  address_new : Public -> Public -> PublicAddress;
  address_new_with_fog : Public -> Public -> bytes -> bytes -> bytes -> PublicAddress;
  view_public_key : PublicAddress -> Public;
  spend_public_key : PublicAddress -> Public;
  address_fog_authority_sig : PublicAddress -> option bytes;
  address_fog_report_id : PublicAddress -> option bytes;
  address_fog_report_url : PublicAddress -> option bytes;
  (* attestation *)
  ResponderId : Type;
  responder_id_from_str : bytes -> result ResponderId Z;
  responder_id_to_string : ResponderId -> bytes;
  MrSignerVerifier : Type;
  MrEnclaveVerifier : Type;
  Verifier : Type;
  mr_signer_new : bytes -> Z -> Z -> MrSignerVerifier;
  mr_signer_config_advisory : MrSignerVerifier -> bytes -> MrSignerVerifier;
  mr_signer_hardening_advisory : MrSignerVerifier -> bytes -> MrSignerVerifier;
  mr_enclave_new : bytes -> MrEnclaveVerifier;
  mr_enclave_config_advisory : MrEnclaveVerifier -> bytes -> MrEnclaveVerifier;
  mr_enclave_hardening_advisory : MrEnclaveVerifier -> bytes -> MrEnclaveVerifier;
  DEBUG_ENCLAVE : bool;
  verifier_default : Verifier;
  verifier_debug : bool -> Verifier -> Verifier;
  verifier_mr_signer : MrSignerVerifier -> Verifier -> Verifier;
  verifier_mr_enclave : MrEnclaveVerifier -> Verifier -> Verifier;
  AuthPending : Type;
  Ready : Type;
  ake_initiate : Entropy -> bytes -> result (AuthPending * bytes) Z;
  ake_finish : Entropy -> AuthPending -> bytes -> Verifier -> result Ready Z;
  ready_binding : Ready -> bytes;
  ready_encrypt : Ready -> bytes -> bytes -> result bytes Z * Ready;
  ready_decrypt : Ready -> bytes -> bytes -> result bytes Z * Ready;
  (** From the bytes of a report to its report data. *)
  report_data_of : bytes -> result bytes McError;
  box_decrypt : Private -> bytes -> result (bool * bytes) Z;
  (* fog reports *)
  FogUri : Type;
  fog_uri_from_str : bytes -> result FogUri Z;
  fog_uri_to_string : FogUri -> bytes;
  FogResolver : Type;
  fog_resolver_new : gmap (list Z) ReportResponse -> Verifier -> result FogResolver McError;
  (* transactions *)
  TxOut : Type;
  TxOutMembershipProof : Type;
  Tx : Type;
  tx_out_decode : bytes -> result TxOut Z;
  tx_out_encode : TxOut -> bytes;
  tx_out_public_key : TxOut -> result Public Z;
  proof_decode : bytes -> result TxOutMembershipProof Z;
  tx_encode : Tx -> bytes;
  recover_onetime_private_key : Public -> Private -> Private -> Private;
  key_image_from : Private -> bytes;
  confirmation_validate : bytes -> Public -> Private -> bool;
  InputCredentials : Type;
  input_credentials_new : list TxOut -> list TxOutMembershipProof -> Z -> Private -> Private
    -> result InputCredentials McError;
  TransactionBuilder : Type;
  builder_new : FogResolver -> TransactionBuilder;
  builder_add_input : InputCredentials -> TransactionBuilder -> TransactionBuilder;
  builder_add_output : Entropy -> TransactionBuilder -> Z -> PublicAddress
    -> result (TxOut * bytes) Z * TransactionBuilder;
  builder_set_tombstone_block : Z -> TransactionBuilder -> TransactionBuilder;
  builder_set_fee : Z -> TransactionBuilder -> TransactionBuilder;
  builder_build : Entropy -> TransactionBuilder -> result Tx Z;
  u64_to_string : Z -> bytes;
}.

(** ** Boxed values *)

Section objects.
Context `{C : AndroidCrates}.

Inductive AttestedClientState :=
| Pending (pending : AuthPending)
| IsReady (ready : Ready).

Record Amount := mkAmount { amount_commitment : Commitment; amount_masked_value : Z }.

(** What [rustObj] of a Java class points to. *)
Inductive RustObj :=
| OPrivate (k : Private)
| OPublic (k : Public)
| OAttested (c : AttestedClientState)
| OAmount (a : Amount)
| OAddress (a : PublicAddress)
| OKexRng (r : VersionedKexRng)
| OAccount (a : AccountKey)
| OTxOut (t : TxOut)
| OProof (p : TxOutMembershipProof)
| OTx (t : Tx)
| OBuilder (b : TransactionBuilder)
| OResponder (r : ResponderId)
| OVerifier (v : Verifier)
| OResolver (r : FogResolver)
| OResponses (r : gmap (list Z) ReportResponse)
| OResponse (r : ReportResponse)
| OSignature (s : bytes)
| OVerificationReport (r : VerificationReport)
| OReport (r : Report).

(** The Java classes with a field [rustObj], one for each type. *)
Inductive JClass :=
| CPrivate | CPublic | CAttested | CAmount | CAddress | CKexRng | CAccount | CTxOut | CProof | CTx
| CBuilder | CResponder | CVerifier | CResolver | CResponses | CResponse | CSignature
| CVerificationReport | CReport.

Definition kind (v : RustObj) : JClass :=
  match v with
  | OPrivate _ => CPrivate | OPublic _ => CPublic | OAttested _ => CAttested | OAmount _ => CAmount
  | OAddress _ => CAddress | OKexRng _ => CKexRng | OAccount _ => CAccount | OTxOut _ => CTxOut
  | OProof _ => CProof | OTx _ => CTx | OBuilder _ => CBuilder | OResponder _ => CResponder
  | OVerifier _ => CVerifier | OResolver _ => CResolver | OResponses _ => CResponses
  | OResponse _ => CResponse | OSignature _ => CSignature
  | OVerificationReport _ => CVerificationReport | OReport _ => CReport
  end.

Definition as_private v := match v with OPrivate k => Some k | _ => None end.
Definition as_public v := match v with OPublic k => Some k | _ => None end.
Definition as_attested v := match v with OAttested c => Some c | _ => None end.
Definition as_amount v := match v with OAmount a => Some a | _ => None end.
Definition as_address v := match v with OAddress a => Some a | _ => None end.
Definition as_kex_rng v := match v with OKexRng r => Some r | _ => None end.
Definition as_account v := match v with OAccount a => Some a | _ => None end.
Definition as_tx_out v := match v with OTxOut t => Some t | _ => None end.
Definition as_proof v := match v with OProof p => Some p | _ => None end.
Definition as_tx v := match v with OTx t => Some t | _ => None end.
Definition as_builder v := match v with OBuilder b => Some b | _ => None end.
Definition as_responder v := match v with OResponder r => Some r | _ => None end.
Definition as_verifier v := match v with OVerifier w => Some w | _ => None end.
Definition as_resolver v := match v with OResolver r => Some r | _ => None end.
Definition as_responses v := match v with OResponses r => Some r | _ => None end.
Definition as_response v := match v with OResponse r => Some r | _ => None end.
Definition as_signature v := match v with OSignature s => Some s | _ => None end.
Definition as_verification_report v := match v with OVerificationReport r => Some r | _ => None end.
Definition as_report v := match v with OReport r => Some r | _ => None end.
End objects.

(** ** The native methods *)

Section methods.
Context `{C : AndroidCrates} {J : Jni RustObj}.

(** What a method returns; a [jlong] is an address or 0. *)
Inductive JRet :=
| RVoid
| RBytes (a : JByteArray)
| RString (s : JString)
| RLong (p : option positive)
| RObject (o : JObject)
| RArray (a : JObjectArray)
| RBool (b : Z).

Abbreviation call := (JState Jvm RustObj -> called JRet).

Definition void (f : jni unit) : call := jni_ffi_call RVoid (f;; mret RVoid).

(** Methods that return null or 0 with an exception. *)
Definition or_null_bytes (f : jni JByteArray) : call :=
  jni_ffi_call_or (mret (RBytes null_bytes)) (a ← f; mret (RBytes a)).
Definition or_null_string (f : jni JString) : call :=
  jni_ffi_call_or (mret (RString null_string)) (s ← f; mret (RString s)).
Definition or_zero (f : jni positive) : call :=
  jni_ffi_call_or (mret (RLong None)) (p ← f; mret (RLong (Some p))).

Definition new_bytes (bs : bytes) : jni JByteArray := env_make (fun j => byte_array_from_slice j bs).
Definition new_jstring (bs : bytes) : jni JString := env_make (fun j => new_string j bs).
Definition byte_array (a : JByteArray) : jni bytes := env_read (fun j => convert_byte_array j a).
Definition jstring (s : JString) : jni bytes := env_read (fun j => get_string j s).

(** [None] is null in Java. *)
Definition option_bytes (o : option bytes) : jni JByteArray :=
  match o with None => mret null_bytes | Some out => new_bytes out end.
Definition option_string (o : option bytes) : jni JString :=
  match o with None => mret null_string | Some out => new_jstring out end.

(** [<[u8; 32]>::try_from(..)?]. *)
Definition array32 (bs : bytes) : jni bytes :=
  if (length bs =? 32)%nat then mret bs else fail McTryFromSlice.

(** [finalize_jni]: the value is taken out of its box and dropped. *)
Definition finalize {T} (as_t : RustObj -> option T) (obj : JObject) : call :=
  void (_ ← take_field as_t obj; mret tt).

(** *** RistrettoPrivate *)

Inductive RistrettoPrivateMethod :=
| Private_init (obj : JObject) (bytes : JByteArray)
| Private_init_seed (obj : JObject) (seed : JByteArray)
| Private_finalize (obj : JObject)
| Private_get_bytes (obj : JObject)
| Private_get_public (obj : JObject).

Definition RistrettoPrivate_call (m : RistrettoPrivateMethod) : call :=
  match m with
  | Private_init obj bytes => void (
      key_bytes ← byte_array bytes;
      key ← try McKey (private_try_from key_bytes);
      set_field obj (OPrivate key))
  | Private_init_seed obj seed => void (
      seed_bytes ← byte_array seed;
      seed_bytes32 ← array32 seed_bytes;
      set_field obj (OPrivate (private_from_seed seed_bytes32)))
  | Private_finalize obj => finalize as_private obj
  | Private_get_bytes obj => or_null_bytes (
      pkey ← get as_private obj; new_bytes (private_to_bytes pkey))
  | Private_get_public obj => or_zero (
      private_key ← get as_private obj; into_raw (OPublic (public_from private_key)))
  end.

(** *** AttestedClient *)

Inductive AttestedClientMethod :=
| Attested_finalize (obj : JObject)
| Attested_start (rng : Entropy) (obj responder_id : JObject)
| Attested_get_binding (obj : JObject)
| Attested_finish (rng : Entropy) (obj : JObject) (auth_response : JByteArray) (verifier : JObject)
| Attested_encrypt_payload (obj : JObject) (bytes aad : JByteArray)
| Attested_decrypt_payload (obj : JObject) (bytes aad : JByteArray).

(** [McError::Other("Not ready")] and the like. *)
Definition not_ready : McError := McOther 1.
Definition already_ready : McError := McOther 2.

(** Encrypt or decrypt with the session, whose counters move on also on failure. *)
Definition with_ready (obj : JObject) (bytes aad : JByteArray)
  (f : Ready -> list Z -> list Z -> result (list Z) Z * Ready) : jni JByteArray :=
  '(p, state) ← get_field as_attested obj;
  payload ← byte_array bytes;
  aad ← byte_array aad;
  match state with
  | Pending _ => fail not_ready
  | IsReady ready =>
      let '(r, ready) := f ready aad payload in
      write p (OAttested (IsReady ready));;
      out ← try McCipher r;
      new_bytes out
  end.

Definition AttestedClient_call (m : AttestedClientMethod) : call :=
  match m with
  | Attested_finalize obj => finalize as_attested obj
  | Attested_start rng obj responder_id => or_null_bytes (
      responder_id ← get as_responder responder_id;
      '(auth_pending, auth_request_output) ←
        try McAke (ake_initiate rng (responder_id_to_string responder_id));
      set_field obj (OAttested (Pending auth_pending));;
      new_bytes auth_request_output)
  | Attested_get_binding obj => or_null_bytes (
      state ← get as_attested obj;
      match state with
      | Pending _ => fail not_ready
      | IsReady ready => new_bytes (ready_binding ready)
      end)
  | Attested_finish rng obj auth_response verifier => void (
      state ← take_field as_attested obj;
      auth_response_msg ← byte_array auth_response;
      verifier ← get as_verifier verifier;
      match state with
      | Pending pending =>
          ready ← try McAke (ake_finish rng pending auth_response_msg verifier);
          set_field obj (OAttested (IsReady ready))
      | IsReady ready =>
          set_field obj (OAttested (IsReady ready));;
          fail already_ready
      end)
  | Attested_encrypt_payload obj bytes aad => or_null_bytes (with_ready obj bytes aad ready_encrypt)
  | Attested_decrypt_payload obj bytes aad => or_null_bytes (with_ready obj bytes aad ready_decrypt)
  end.

(** *** Amount *)

Inductive AmountMethod :=
| Amount_init (obj : JObject) (commitment : JByteArray) (masked_value : Z)
| Amount_finalize (obj : JObject)
| Amount_unmask_value (obj view_key tx_pub_key : JObject).

Definition Amount_call (m : AmountMethod) : call :=
  match m with
  | Amount_init obj commitment masked_value => void (
      commitment_bytes ← byte_array commitment;
      commitment ← try (fun e => e) (commitment_try_from commitment_bytes);
      set_field obj (OAmount (mkAmount commitment (as_u64 masked_value))))
  | Amount_finalize obj => finalize as_amount obj
  | Amount_unmask_value obj view_key tx_pub_key =>
      jni_ffi_call_or (mret (RObject null_object)) (
        amount ← get as_amount obj;
        view_key ← get as_private view_key;
        tx_pub_key ← get as_public tx_pub_key;
        let shared_secret := create_shared_secret tx_pub_key view_key in
        '(value, _) ← try McAmount
          (amount_get_value (amount_commitment amount) (amount_masked_value amount) shared_secret);
        big ← env_make (fun j => new_big_integer j 1 (rev (to_le_bytes value)));
        mret (RObject big))
  end.

(** *** RistrettoPublic *)

Inductive RistrettoPublicMethod :=
| Public_init (obj : JObject) (raw_key_bytes : JByteArray)
| Public_finalize (obj : JObject)
| Public_get_bytes (obj : JObject).

Definition RistrettoPublic_call (m : RistrettoPublicMethod) : call :=
  match m with
  | Public_init obj raw_key_bytes => void (
      key_bytes ← byte_array raw_key_bytes;
      pub_key ← try McKey (public_try_from_bytes key_bytes);
      set_field obj (OPublic pub_key))
  | Public_finalize obj => finalize as_public obj
  | Public_get_bytes obj => or_null_bytes (
      pkey ← get as_public obj; new_bytes (public_to_bytes pkey))
  end.

(** *** PrintableWrapper *)

Inductive PrintableWrapperMethod :=
| Wrapper_b58_decode (b58_string : JString)
| Wrapper_b58_encode (wrapper_bytes : JByteArray).

Definition PrintableWrapper_call (m : PrintableWrapperMethod) : call :=
  match m with
  | Wrapper_b58_decode b58_string => or_null_bytes (
      b58_string ← jstring b58_string;
      printable_wrapper ← try McOther (b58_decode b58_string);
      wrapper_bytes ← try McOther (wrapper_write printable_wrapper);
      new_bytes wrapper_bytes)
  | Wrapper_b58_encode wrapper_bytes => or_null_string (
      wrapper_bytes ← byte_array wrapper_bytes;
      printable_wrapper ← try McOther (wrapper_parse wrapper_bytes);
      b58_string ← try McOther (b58_encode printable_wrapper);
      new_jstring b58_string)
  end.

(** *** PublicAddress *)

Inductive PublicAddressMethod :=
| Address_get_view_key (obj : JObject)
| Address_get_fog_authority_sig (obj : JObject)
| Address_get_report_id (obj : JObject)
| Address_get_spend_key (obj : JObject)
| Address_get_fog_uri (obj : JObject)
| Address_init_with_fog (obj view_key spend_key : JObject) (fog_report_url : JString)
    (fog_authority_sig : JByteArray) (fog_report_id : JString)
| Address_init (obj view_key spend_key : JObject).

Definition PublicAddress_call (m : PublicAddressMethod) : call :=
  match m with
  | Address_get_view_key obj => or_zero (
      address ← get as_address obj; into_raw (OPublic (view_public_key address)))
  | Address_get_fog_authority_sig obj => or_null_bytes (
      address ← get as_address obj; option_bytes (address_fog_authority_sig address))
  | Address_get_report_id obj => or_null_string (
      address ← get as_address obj; option_string (address_fog_report_id address))
  | Address_get_spend_key obj => or_zero (
      address ← get as_address obj; into_raw (OPublic (spend_public_key address)))
  | Address_get_fog_uri obj => or_null_string (
      address ← get as_address obj; option_string (address_fog_report_url address))
  | Address_init_with_fog obj view_key spend_key fog_report_url fog_authority_sig fog_report_id => void (
      view_public_key ← get as_public view_key;
      spend_public_key ← get as_public spend_key;
      fog_report_url ← jstring fog_report_url;
      fog_authority_sig ← byte_array fog_authority_sig;
      fog_report_id ← jstring fog_report_id;
      set_field obj (OAddress (address_new_with_fog spend_public_key view_public_key fog_report_url
        fog_report_id fog_authority_sig)))
  | Address_init obj view_key spend_key => void (
      view_public_key ← get as_public view_key;
      spend_public_key ← get as_public spend_key;
      set_field obj (OAddress (address_new spend_public_key view_public_key)))
  end.

(** *** ClientKexRng *)

Inductive ClientKexRngMethod :=
| KexRng_init (obj view_key : JObject) (pubkey : JByteArray) (version : Z)
| KexRng_advance (obj : JObject)
| KexRng_get_output (obj : JObject)
| KexRng_get_next_n (obj : JObject) (n : Z)
| KexRng_finalize (obj : JObject).

Definition ClientKexRng_call (m : ClientKexRngMethod) : call :=
  match m with
  | KexRng_init obj view_key pubkey version => void (
      view_key ← get as_private view_key;
      pubkey_bytes ← byte_array pubkey;
      let assembled_pubkey := mkKexRngPubkey pubkey_bytes (as_u32 version) in
      kexrng ← try (fun e => McKexRng (kex_error e))
        (versioned_try_from_kex_pubkey blake2b assembled_pubkey view_key);
      set_field obj (OKexRng kexrng))
  | KexRng_advance obj => void (
      '(p, kexrng) ← get_field as_kex_rng obj;
      write p (OKexRng (advance blake2b kexrng)))
  | KexRng_get_output obj => or_null_bytes (
      kexrng ← get as_kex_rng obj; new_bytes (peek kexrng))
  | KexRng_get_next_n obj n => jni_ffi_call_or (mret (RArray null_array)) (
      kexrng ← get as_kex_rng obj;
      arr ← env_make (fun j => new_bytes_array j (rng_take blake2b (Z.to_nat (as_u64 n)) kexrng));
      mret (RArray arr))
  | KexRng_finalize obj => finalize as_kex_rng obj
  end.

(** *** AccountKey *)

Inductive AccountKeyMethod :=
| Account_init (obj view_key spend_key : JObject) (fog_report_url : JString)
    (fog_authority_spki : JByteArray) (fog_report_id : JString)
| Account_init_from_root_entropy (obj : JObject) (root_entropy : JByteArray) (fqdn : JString)
    (fog_authority_spki : JByteArray) (fog_report_id : JString)
| Account_get_default_subaddress_spend_key (obj : JObject)
| Account_get_default_subaddress_view_key (obj : JObject)
| Account_finalize (obj : JObject).

Inductive AccountPartMethod :=
| Account_get_view_key (obj : JObject)
| Account_get_spend_key (obj : JObject)
| Account_getFogUriString (obj : JObject)
| Account_get_fog_authority_spki (obj : JObject)
| Account_get_report_id (obj : JObject)
| Account_get_public_address (obj : JObject).

(** An empty domain name means no url, which is the empty url in the identity. *)
Definition fog_url_of (fqdn : bytes) : option bytes := if (length fqdn =? 0)%nat then None else Some fqdn.

Definition AccountKey_call (m : AccountKeyMethod) : call :=
  match m with
  | Account_init obj view_key spend_key fog_report_url fog_authority_spki fog_report_id => void (
      view_key ← get as_private view_key;
      spend_key ← get as_private spend_key;
      fog_report_url ← jstring fog_report_url;
      fog_authority_spki ← byte_array fog_authority_spki;
      fog_report_id ← jstring fog_report_id;
      set_field obj (OAccount (account_new_with_fog spend_key view_key fog_report_url fog_report_id
        fog_authority_spki)))
  | Account_init_from_root_entropy obj root_entropy fqdn fog_authority_spki fog_report_id => void (
      root_entropy ← byte_array root_entropy;
      root_entropy ← array32 root_entropy;
      fqdn ← jstring fqdn;
      fog_authority_spki ← byte_array fog_authority_spki;
      fog_report_id ← jstring fog_report_id;
      set_field obj (OAccount (account_from_root_identity root_entropy (default [] (fog_url_of fqdn))
        fog_report_id fog_authority_spki)))
  | Account_get_default_subaddress_spend_key obj => or_zero (
      account_key ← get as_account obj;
      into_raw (OPrivate (default_subaddress_spend_private account_key)))
  | Account_get_default_subaddress_view_key obj => or_zero (
      account_key ← get as_account obj;
      into_raw (OPrivate (default_subaddress_view_private account_key)))
  | Account_finalize obj => finalize as_account obj
  end.

Definition AccountPart_call (m : AccountPartMethod) : call :=
  match m with
  | Account_get_view_key obj => or_zero (
      account_key ← get as_account obj; into_raw (OPrivate (view_private_key account_key)))
  | Account_get_spend_key obj => or_zero (
      account_key ← get as_account obj; into_raw (OPrivate (spend_private_key account_key)))
  | Account_getFogUriString obj => or_null_string (
      account_key ← get as_account obj;
      new_jstring (default [] (account_fog_report_url account_key)))
  | Account_get_fog_authority_spki obj => or_null_bytes (
      account_key ← get as_account obj; option_bytes (account_fog_authority_spki account_key))
  | Account_get_report_id obj =>
      (* the value returned with an exception is a new string *)
      jni_ffi_call_or (s ← new_jstring []; mret (RString s)) (
        account_key ← get as_account obj;
        s ← new_jstring (default [] (account_fog_report_id account_key));
        mret (RString s))
  | Account_get_public_address obj => or_zero (
      account_key ← get as_account obj; into_raw (OAddress (default_subaddress account_key)))
  end.

(** *** TxOut, TxOutMembershipProof and Transaction *)

Inductive TxOutMethod :=
| TxOut_init_from_protobuf_bytes (obj : JObject) (bytes : JByteArray)
| TxOut_finalize (obj : JObject)
| TxOut_compute_key_image (obj account_key : JObject)
| TxOut_encode (obj : JObject)
| Proof_init_from_protobuf_bytes (obj : JObject) (bytes : JByteArray)
| Proof_finalize (obj : JObject)
| Transaction_finalize (obj : JObject)
| Transaction_encode (obj : JObject).

Definition TxOut_call (m : TxOutMethod) : call :=
  match m with
  | TxOut_init_from_protobuf_bytes obj bytes => void (
      protobuf_bytes ← byte_array bytes;
      tx_out ← try McDecode (tx_out_decode protobuf_bytes);
      set_field obj (OTxOut tx_out))
  | TxOut_finalize obj => finalize as_tx_out obj
  | TxOut_compute_key_image obj account_key => or_null_bytes (
      tx_out ← get as_tx_out obj;
      account_key ← get as_account account_key;
      tx_pub_key ← try McKey (tx_out_public_key tx_out);
      let onetime_private_key := recover_onetime_private_key tx_pub_key (view_private_key account_key)
        (default_subaddress_spend_private account_key) in
      new_bytes (key_image_from onetime_private_key))
  | TxOut_encode obj => or_null_bytes (
      tx_out ← get as_tx_out obj; new_bytes (tx_out_encode tx_out))
  | Proof_init_from_protobuf_bytes obj bytes => void (
      protobuf_bytes ← byte_array bytes;
      proof ← try McDecode (proof_decode protobuf_bytes);
      set_field obj (OProof proof))
  | Proof_finalize obj => finalize as_proof obj
  | Transaction_finalize obj => finalize as_tx obj
  | Transaction_encode obj => or_null_bytes (
      tx ← get as_tx obj; new_bytes (tx_encode tx))
  end.

(** *** TransactionBuilder *)

Inductive TransactionBuilderMethod :=
| Builder_init (obj fog_resolver : JObject)
| Builder_finalize (obj : JObject)
| Builder_add_input (obj : JObject) (ring membership_proofs : JObjectArray) (real_index : Z)
    (onetime_private_key view_private_key : JObject)
| Builder_add_output (rng : Entropy) (obj value recipient : JObject) (confirmation_number_out : JByteArray)
| Builder_set_tombstone_block (obj : JObject) (value : Z)
| Builder_set_fee (obj : JObject) (value : Z)
| Builder_build_tx (rng : Entropy) (obj : JObject).

(** The confirmation number is copied out when there is an array that can hold it. *)
Definition copy_confirmation (confirmation_number : bytes) (out : JByteArray) : jni unit :=
  if is_null_bytes out then mret tt else
  len ← env_read (fun j => byte_array_length j out);
  if (length confirmation_number <=? len)%nat
  then env_make (fun j => set_byte_array_region j out 0 confirmation_number)
  else mret tt.

(** The builder is used up, also when building fails. *)
Definition build_tx (rng : Entropy) (obj : JObject) : jni positive :=
  tx_builder ← take_field as_builder obj;
  tx ← try McTxBuilder (builder_build rng tx_builder);
  into_raw (OTx tx).

Definition TransactionBuilder_call (m : TransactionBuilderMethod) : call :=
  match m with
  | Builder_init obj fog_resolver => void (
      fog_resolver ← get as_resolver fog_resolver;
      set_field obj (OBuilder (builder_new fog_resolver)))
  | Builder_finalize obj => finalize as_builder obj
  | Builder_add_input obj ring membership_proofs real_index onetime_private_key view_private_key => void (
      '(p, tx_builder) ← get_field as_builder obj;
      ring ← each ring (fun index =>
        obj ← env_read (fun j => get_object_array_element j ring index);
        get_clone as_tx_out obj);
      membership_proofs ← each membership_proofs (fun index =>
        obj ← env_read (fun j => get_object_array_element j membership_proofs index);
        get_clone as_proof obj);
      onetime_private_key ← get as_private onetime_private_key;
      view_private_key ← get as_private view_private_key;
      input_credentials ← try (fun e => e) (input_credentials_new ring membership_proofs
        (as_u64 real_index) onetime_private_key view_private_key);
      write p (OBuilder (builder_add_input input_credentials tx_builder)))
  | Builder_add_output rng obj value recipient confirmation_number_out => or_zero (
      '(p, tx_builder) ← get_field as_builder obj;
      value ← jni_big_int_to_u64 value;
      recipient ← get as_address recipient;
      let '(r, tx_builder) := builder_add_output rng tx_builder value recipient in
      write p (OBuilder tx_builder);;
      '(tx_out, confirmation_number) ← try McTxBuilder r;
      copy_confirmation confirmation_number confirmation_number_out;;
      into_raw (OTxOut tx_out))
  | Builder_set_tombstone_block obj value => void (
      '(p, tx_builder) ← get_field as_builder obj;
      write p (OBuilder (builder_set_tombstone_block (as_u64 value) tx_builder)))
  | Builder_set_fee obj value => void (
      '(p, tx_builder) ← get_field as_builder obj;
      write p (OBuilder (builder_set_fee (as_u64 value) tx_builder)))
  | Builder_build_tx rng obj => or_zero (build_tx rng obj)
  end.

(** *** Util and Receipt *)

Inductive UtilMethod :=
| Util_recover_onetime_private_key (tx_pub_key view_key spend_key : JObject)
| Util_attest_verify_report (report_bytes : JByteArray)
| Util_versioned_crypto_box_decrypt (key : JObject) (encrypted : JByteArray)
| Util_bigint2string (value : JObject)
| Receipt_is_confirmation_valid (confirmation_number : JByteArray) (tx_pub_key view_key : JObject).

Definition Util_call (m : UtilMethod) : call :=
  match m with
  | Util_recover_onetime_private_key tx_pub_key view_key spend_key => or_zero (
      tx_pub_key ← get as_public tx_pub_key;
      view_key ← get as_private view_key;
      spend_key ← get as_private spend_key;
      into_raw (OPrivate (recover_onetime_private_key tx_pub_key view_key spend_key)))
  | Util_attest_verify_report report_bytes => or_null_bytes (
      report_bytes ← byte_array report_bytes;
      report_data ← try (fun e => e) (report_data_of report_bytes);
      new_bytes report_data)
  | Util_versioned_crypto_box_decrypt key encrypted => or_null_bytes (
      view_key ← get as_private key;
      encrypted ← byte_array encrypted;
      '(success, plaintext) ← try McCryptoBox (box_decrypt view_key encrypted);
      if negb success then fail (McOther 3) else new_bytes plaintext)
  | Util_bigint2string value => or_null_string (
      val ← jni_big_int_to_u64 value; new_jstring (u64_to_string val))
  | Receipt_is_confirmation_valid confirmation_number tx_pub_key view_key =>
      jni_ffi_call_or (mret (RBool 0)) (
        tx_pub_key ← get as_public tx_pub_key;
        view_key ← get as_private view_key;
        confirmation_number ← byte_array confirmation_number;
        confirmation ← array32 confirmation_number;
        mret (RBool (if confirmation_validate confirmation tx_pub_key view_key then 1 else 0)))
  end.

(** *** ResponderId and Verifier *)

Inductive VerifierMethod :=
| Responder_init (obj : JObject) (address : JString)
| Responder_finalize (obj : JObject)
| Verifier_init (obj : JObject)
| Verifier_add_mr_signer (obj : JObject) (mr_signer : JByteArray) (product_id security_version : Z)
    (config_advisories hardening_advisories : JObjectArray)
| Verifier_add_mr_enclave (obj : JObject) (mr_enclave : JByteArray)
    (config_advisories hardening_advisories : JObjectArray)
| Verifier_finalize (obj : JObject).

Definition as_u16 (z : Z) : Z := z mod 65536.

Definition strings (a : JObjectArray) : jni (list bytes) :=
  each a (fun i => s ← env_read (fun j => get_string_array_element j a i); jstring s).

Definition Verifier_call (m : VerifierMethod) : call :=
  match m with
  | Responder_init obj address => void (
      address ← jstring address;
      responder_id ← try McOther (responder_id_from_str address);
      set_field obj (OResponder responder_id))
  | Responder_finalize obj => finalize as_responder obj
  | Verifier_init obj => void (
      set_field obj (OVerifier (verifier_debug DEBUG_ENCLAVE verifier_default)))
  | Verifier_add_mr_signer obj mr_signer product_id security_version config hardening => void (
      mr_signer ← byte_array mr_signer;
      mr_signer ← array32 mr_signer;
      let mr_signer_verifier := mr_signer_new mr_signer (as_u16 product_id) (as_u16 security_version) in
      config ← strings config;
      hardening ← strings hardening;
      let mr_signer_verifier := foldl mr_signer_hardening_advisory
        (foldl mr_signer_config_advisory mr_signer_verifier config) hardening in
      '(p, verifier) ← get_field as_verifier obj;
      write p (OVerifier (verifier_mr_signer mr_signer_verifier verifier)))
  | Verifier_add_mr_enclave obj mr_enclave config hardening => void (
      mr_enclave ← byte_array mr_enclave;
      mr_enclave ← array32 mr_enclave;
      let mr_enclave_verifier := mr_enclave_new mr_enclave in
      config ← strings config;
      hardening ← strings hardening;
      let mr_enclave_verifier := foldl mr_enclave_hardening_advisory
        (foldl mr_enclave_config_advisory mr_enclave_verifier config) hardening in
      '(p, verifier) ← get_field as_verifier obj;
      write p (OVerifier (verifier_mr_enclave mr_enclave_verifier verifier)))
  | Verifier_finalize obj => finalize as_verifier obj
  end.

(** *** FogResolver and FogReportResponses *)

Inductive ResolverMethod :=
| Resolver_init (obj report_responses verifier : JObject)
| Resolver_finalize (obj : JObject)
| Responses_init (obj : JObject)
| Responses_add_response (obj : JObject) (report_uri : JString) (report_response : JObject)
| Responses_finalize (obj : JObject).
Definition Resolver_call (m : ResolverMethod) : call :=
  match m with
  | Resolver_init obj report_responses verifier => void (
      report_responses ← get as_responses report_responses;
      verifier ← get as_verifier verifier;
      fog_resolver ← try (fun e => e) (fog_resolver_new report_responses verifier);
      set_field obj (OResolver fog_resolver))
  | Resolver_finalize obj => finalize as_resolver obj
  | Responses_init obj => void (set_field obj (OResponses ∅))
  | Responses_add_response obj report_uri report_response => void (
      report_uri ← jstring report_uri;
      report_uri ← try McUriParse (fog_uri_from_str report_uri);
      let report_uri := fog_uri_to_string report_uri in
      report_response ← get as_response report_response;
      '(p, report_responses) ← get_field as_responses obj;
      write p (OResponses (<[report_uri := report_response]> report_responses)))
  | Responses_finalize obj => finalize as_responses obj
  end.

(** *** ReportResponse, VerificationSignature, VerificationReport and Report *)

Inductive ReportMethod :=
| Response_init (obj : JObject) (reports chain : JObjectArray) (signature : JByteArray)
| Response_finalize (obj : JObject)
| Signature_init (obj : JObject) (contents_bytes : JByteArray)
| Signature_finalize (obj : JObject)
| VerificationReport_init (obj verification_signature : JObject) (chain : JObjectArray) (http_body : JString)
| VerificationReport_finalize (obj : JObject)
| Report_init (obj : JObject) (report_id : JString) (verification_report : JObject) (pubkey_expiry : Z)
| Report_finalize (obj : JObject).

Definition byte_arrays (a : JObjectArray) : jni (list bytes) :=
  each a (fun i => b ← env_read (fun j => get_bytes_array_element j a i); byte_array b).

Definition Report_call (m : ReportMethod) : call :=
  match m with
  | Response_init obj reports chain signature => void (
      reports ← each reports (fun index =>
        obj ← env_read (fun j => get_object_array_element j reports index);
        get_clone as_report obj);
      chain ← byte_arrays chain;
      signature ← byte_array signature;
      set_field obj (OResponse (mkReportResponse reports chain signature)))
  | Response_finalize obj => finalize as_response obj
  | Signature_init obj contents_bytes => void (
      contents_bytes ← byte_array contents_bytes;
      set_field obj (OSignature contents_bytes))
  | Signature_finalize obj => finalize as_signature obj
  | VerificationReport_init obj verification_signature chain http_body => void (
      verification_signature ← get as_signature verification_signature;
      chain ← byte_arrays chain;
      http_body ← jstring http_body;
      set_field obj (OVerificationReport (mkVerificationReport verification_signature chain http_body)))
  | VerificationReport_finalize obj => finalize as_verification_report obj
  | Report_init obj report_id verification_report pubkey_expiry => void (
      verification_report ← get as_verification_report verification_report;
      report_id ← jstring report_id;
      set_field obj (OReport (mkReport report_id verification_report (as_u64 pubkey_expiry))))
  | Report_finalize obj => finalize as_report obj
  end.

(** *** Mnemonics and AccountKeyDeriver *)

Inductive MnemonicMethod :=
| Mnemonics_entropy_from_mnemonic (mnemonic : JString)
| Mnemonics_entropy_to_mnemonic (entropy : JByteArray)
| Mnemonics_words_by_prefix (prefix : JString)
| Deriver_accountKey_from_mnemonic (mnemonic_phrase : JString) (account_index : Z).

(** [words.join(",")]. *)
Fixpoint join_words (words : list bytes) : bytes :=
  match words with
  | [] => []
  | [w] => w
  | w :: words => w ++ [44] ++ join_words words
  end.

Definition Mnemonic_call (m : MnemonicMethod) : call :=
  match m with
  | Mnemonics_entropy_from_mnemonic mnemonic => or_null_bytes (
      mnemonic ← jstring mnemonic;
      mnemonic ← try (fun e => e) (mnemonic_from_phrase mnemonic);
      new_bytes (mnemonic_entropy mnemonic))
  | Mnemonics_entropy_to_mnemonic entropy => or_null_string (
      bytes ← byte_array entropy;
      mnemonic ← try (fun e => e) (mnemonic_from_entropy bytes);
      new_jstring (mnemonic_to_string mnemonic))
  | Mnemonics_words_by_prefix prefix => or_null_string (
      prefix ← jstring prefix; new_jstring (join_words (words_by_prefix prefix)))
  | Deriver_accountKey_from_mnemonic mnemonic_phrase account_index => or_zero (
      mnemonic_phrase ← jstring mnemonic_phrase;
      mnemonic ← try (fun e => e) (mnemonic_from_phrase mnemonic_phrase);
      into_raw (OAccount (account_from_slip10 mnemonic (as_u32 account_index))))
  end.

(** ** All of them *)

Inductive AndroidCall :=
| MPrivate (m : RistrettoPrivateMethod)
| MAttested (m : AttestedClientMethod)
| MAmount (m : AmountMethod)
| MPublic (m : RistrettoPublicMethod)
| MWrapper (m : PrintableWrapperMethod)
| MAddress (m : PublicAddressMethod)
| MKexRng (m : ClientKexRngMethod)
| MAccount (m : AccountKeyMethod)
| MAccountPart (m : AccountPartMethod)
| MTxOut (m : TxOutMethod)
| MBuilder (m : TransactionBuilderMethod)
| MUtil (m : UtilMethod)
| MVerifier (m : VerifierMethod)
| MResolver (m : ResolverMethod)
| MReport (m : ReportMethod)
| MMnemonic (m : MnemonicMethod).

Definition android_call (c : AndroidCall) : call :=
  match c with
  | MPrivate m => RistrettoPrivate_call m
  | MAttested m => AttestedClient_call m
  | MAmount m => Amount_call m
  | MPublic m => RistrettoPublic_call m
  | MWrapper m => PrintableWrapper_call m
  | MAddress m => PublicAddress_call m
  | MKexRng m => ClientKexRng_call m
  | MAccount m => AccountKey_call m
  | MAccountPart m => AccountPart_call m
  | MTxOut m => TxOut_call m
  | MBuilder m => TransactionBuilder_call m
  | MUtil m => Util_call m
  | MVerifier m => Verifier_call m
  | MResolver m => Resolver_call m
  | MReport m => Report_call m
  | MMnemonic m => Mnemonic_call m
  end.
End methods.
