(* ===== verification/AndroidSpec.v ===== *)
(** * What the Android bindings promise to a Java program

    An object of a Java class holds the address of a boxed value of the type
    that belongs to the class, or null.  A Java program that keeps the
    signatures of the native methods, gives each address it gets to one object
    of the right class and does not pass one object for two parameters never
    blocks or crashes in the library, and every box has exactly one owner.  The
    methods are looked at one by one with rules for the steps they are made of. *)

From S2P Require Import Prelude FogTypes KexRng Jni Android.

Local Open Scope Z_scope.

Section spec.
Context `{C : AndroidCrates} {J : Jni RustObj} {JL : JniLaws J}.
Context (class_of : JObject -> JClass).

Abbreviation St := (JState Jvm RustObj).

(** ** The invariant *)

(** [raw]: addresses that Java was given and no object has yet, with the class they are for. *)
Record owned (raw : gmap positive JClass) (j : Jvm) (boxes : gmap positive RustObj) : Prop := {
  owned_typed : forall o p, rust_ptr j o = Some p -> exists v, boxes !! p = Some v /\ kind v = class_of o;
  owned_once : forall o o' p, rust_ptr j o = Some p -> rust_ptr j o' = Some p -> o = o';
  owned_raw : forall p k, raw !! p = Some k ->
    (exists v, boxes !! p = Some v /\ kind v = k) /\ forall o, rust_ptr j o <> Some p;
  owned_all : forall p v, boxes !! p = Some v -> is_Some (raw !! p) \/ exists o, rust_ptr j o = Some p;
}.

(** In the middle of a method: [hs] are the objects whose locks it holds, with
    their boxes; the addresses boxed at the start, [B0], are still boxed. *)
Context (B0 : gmap positive RustObj).

Definition addresses_kept (boxes : gmap positive RustObj) : Prop :=
  forall p a, B0 !! p = Some (OAddress a) -> boxes !! p = Some (OAddress a).

Record ok (raw : gmap positive JClass) (hs : list (JObject * positive)) (s : St) : Prop := {
  ok_pending : pending (js_jvm s) = false;
  ok_owned : owned raw (js_jvm s) (js_boxes s);
  ok_kept : addresses_kept (js_boxes s);
  ok_guards : forall o p, (o, p) ∈ hs -> rust_ptr (js_jvm s) o = Some p;
  ok_held : forall p, p ∈ js_held s -> exists o, (o, p) ∈ hs;
}.

(** A body returns with [Q], or fails with the invariant intact. *)
Definition spec {A} raw hs (m : jni A) (Q : A -> St -> Prop) : Prop :=
  forall s, ok raw hs s ->
  match m s with
  | JDone a s' => Q a s'
  | JFails _ s' | JPanics s' => exists hs', ok raw hs' s'
  | JBlocks | JUndefined => False
  end.

(** ** The steps *)

Lemma spec_ret {A} raw hs (a : A) (Q : A -> St -> Prop) :
  (forall s, ok raw hs s -> Q a s) -> spec raw hs (mret a) Q.
Proof. intros H s Hs; by apply H. Qed.

Lemma spec_bind {A B} raw hs (m : jni A) (f : A -> jni B) (R : A -> St -> Prop) Q :
  spec raw hs m R ->
  (forall a s, R a s -> match f a s with
     | JDone b s' => Q b s'
     | JFails _ s' | JPanics s' => exists hs', ok raw hs' s'
     | JBlocks | JUndefined => False end) ->
  spec raw hs (m ≫= f) Q.
Proof.
  intros Hm Hf s Hs; specialize (Hm s Hs); unfold mbind, jni_bind.
  destruct (m s); try done. by apply Hf.
Qed.

(** A step that keeps the invariant, with some locks more. *)
Lemma spec_step {A B} raw hs hs' (m : jni A) (f : A -> jni B) (P : A -> Prop) Q :
  spec raw hs m (fun a s => P a /\ ok raw (hs' a) s) ->
  (forall a, P a -> spec raw (hs' a) (f a) Q) ->
  spec raw hs (m ≫= f) Q.
Proof. intros Hm Hf; apply (spec_bind _ _ _ _ _ _ Hm); intros a s [Ha Hs]; by apply Hf. Qed.

Lemma spec_fail {A} raw hs e (Q : A -> St -> Prop) : spec raw hs (fail e) Q.
Proof. intros s Hs; by exists hs. Qed.

Definition keeps {A} raw hs (m : jni A) : Prop := spec raw hs m (fun _ s => ok raw hs s).

Lemma keep_bind {A B} raw hs (m : jni A) (f : A -> jni B) Q :
  keeps raw hs m -> (forall a, spec raw hs (f a) Q) -> spec raw hs (m ≫= f) Q.
Proof. intros Hm Hf; apply (spec_bind _ _ _ _ _ _ Hm); intros a s Hs; by apply Hf. Qed.

Lemma keeps_try {A E} raw hs (from : E -> McError) (r : result A E) : keeps raw hs (try from r).
Proof. intros s Hs; destruct r; [done|by exists hs]. Qed.

Lemma keeps_read {A} raw hs (f : Jvm -> result A Z) : keeps raw hs (env_read f).
Proof.
  intros s Hs; unfold env_read; rewrite (ok_pending _ _ _ Hs). by apply keeps_try.
Qed.

Lemma ok_same raw hs s j' :
  same_fields (js_jvm s) j' -> ok raw hs s -> ok raw hs (mkJState j' (js_boxes s) (js_held s)).
Proof.
  intros [Hf Hp] [Op Oo Ok Og Oh]; split; cbn [js_jvm js_boxes js_held]; [by rewrite Hp| |done| |done].
  - destruct Oo as [T O R A]; split; intros *; rewrite ?Hf; eauto.
    + intros Hr; destruct (R _ _ Hr) as [? Hn]; split; [done|]; intros o; rewrite Hf; auto.
    + intros Hb; destruct (A _ _ Hb) as [?|[o Ho]]; [by left|right; exists o; by rewrite Hf].
  - intros o p H; rewrite Hf; auto.
Qed.

Lemma keeps_make {A} raw hs (f : Jvm -> result A Z * Jvm) :
  (forall j, same_fields j (f j).2) -> keeps raw hs (env_make f).
Proof.
  intros Hf s Hs; unfold env_make; rewrite (ok_pending _ _ _ Hs).
  pose proof (Hf (js_jvm s)) as Hj; destruct (f (js_jvm s)) as [r j]; apply keeps_try.
  by apply ok_same.
Qed.

(** [as_t] reads the values of the class [k]. *)
Class Reads {T} (k : JClass) (as_t : RustObj -> option T) : Prop :=
  reads : forall v, is_Some (as_t v) <-> kind v = k.

Lemma spec_get_field {T} raw hs k (as_t : RustObj -> option T) `{!Reads k as_t} o :
  class_of o = k -> (forall p, (o, p) ∉ hs) ->
  spec raw hs (get_field as_t o) (fun pt s => ok raw ((o, pt.1) :: hs) s).
Proof.
  intros Hk Hnot s Hs; unfold get_field; rewrite (ok_pending _ _ _ Hs).
  destruct (rust_ptr (js_jvm s) o) as [p|] eqn:Ep.
  - assert (p ∉ js_held s) as Hp.
    { intros (o'&Ho')%(ok_held _ _ _ Hs). pose proof (ok_guards _ _ _ Hs _ _ Ho') as Eo.
      rewrite (owned_once _ _ _ (ok_owned _ _ _ Hs) _ _ _ Eo Ep) in Ho'. by apply (Hnot p). }
    rewrite (get_field_free s o p Ep Hp).
    destruct (owned_typed _ _ _ (ok_owned _ _ _ Hs) _ _ Ep) as (v&->&Hv); cbn.
    rewrite Hk in Hv; apply reads in Hv as [t ->].
    destruct Hs as [Op Oo Ok Og Oh]; split; try done; cbn [js_jvm js_boxes js_held fst].
    + intros o' p' [[= -> ->]|H]%elem_of_cons; auto.
    + intros p' [->|H]%elem_of_cons; [exists o; set_solver|].
      destruct (Oh _ H) as [o' ?]; exists o'; set_solver.
  - destruct (get_field_null s o Ep) as [e ->]. by exists hs.
Qed.

Lemma spec_get {T B} raw hs k (as_t : RustObj -> option T) `{!Reads k as_t} o (f : T -> jni B) Q :
  class_of o = k -> (forall p, (o, p) ∉ hs) ->
  (forall t p, spec raw ((o, p) :: hs) (f t) Q) -> spec raw hs (get as_t o ≫= f) Q.
Proof.
  intros Hk Hn Hf s Hs; pose proof (spec_get_field raw hs k as_t o Hk Hn s Hs) as Hg.
  unfold get, mbind, jni_bind, mret, jni_ret; destruct (get_field as_t o s) as [[p t] s'| | | |]; try done.
  by apply (Hf t p).
Qed.

Lemma spec_get_mut {T B} raw hs k (as_t : RustObj -> option T) `{!Reads k as_t} o
  (f : positive * T -> jni B) Q :
  class_of o = k -> (forall p, (o, p) ∉ hs) ->
  (forall t p, spec raw ((o, p) :: hs) (f (p, t)) Q) -> spec raw hs (get_field as_t o ≫= f) Q.
Proof.
  intros Hk Hn Hf s Hs; pose proof (spec_get_field raw hs k as_t o Hk Hn s Hs) as Hg.
  unfold mbind, jni_bind; destruct (get_field as_t o s) as [[p t] s'| | | |]; try done.
  by apply (Hf t p).
Qed.

(** A lock that is given back. *)
Lemma keeps_clone {T} raw hs k (as_t : RustObj -> option T) `{!Reads k as_t} o :
  class_of o = k -> (forall p, (o, p) ∉ hs) -> keeps raw hs (get_clone as_t o).
Proof.
  intros Hk Hn s Hs; pose proof (spec_get_field raw hs k as_t o Hk Hn s Hs) as Hg.
  unfold get_clone, unlock, mbind, jni_bind, mret, jni_ret.
  destruct (get_field as_t o s) as [[p t] s'| | | |]; try done; cbn [fst] in *.
  destruct Hg as [Op Oo Ok Og Oh]; split; cbn [js_jvm js_boxes js_held]; try done.
  - intros o' p' H; apply Og; set_solver.
  - intros p' [Hp H]%list_elem_of_filter. destruct (Oh _ H) as [o' [[= -> ->]|?]%elem_of_cons]; [done|].
    by exists o'.
Qed.

Lemma keeps_write raw hs o p v :
  (o, p) ∈ hs -> kind v = class_of o -> kind v <> CAddress -> keeps raw hs (write p v).
Proof.
  intros Ho Hk Hv s Hs; pose proof (ok_guards _ _ _ Hs _ _ Ho) as Ep.
  destruct Hs as [Op [T O R A] Ok Og Oh]; split; cbn [js_jvm js_boxes js_held]; try done.
  - split; [| done | |].
    + intros o' p' E'; destruct (decide (p' = p)) as [->|Hne].
      * rewrite lookup_insert_eq, (O _ _ _ E' Ep). eauto.
      * rewrite lookup_insert_ne by done; eauto.
    + intros p' k Hr; destruct (R _ _ Hr) as [Hb Hn]; split; [|done].
      rewrite lookup_insert_ne; [done|]. intros ->; by apply (Hn o).
    + intros p' v'; destruct (decide (p' = p)) as [->|Hne]; [right; by exists o|].
      rewrite lookup_insert_ne by done; eauto.
  - intros p' a Ha; rewrite lookup_insert_ne; [by apply Ok|]. intros <-.
    destruct (T _ _ Ep) as (v'&Hv'&Hk'). rewrite (Ok _ _ Ha) in Hv'; simplify_eq. by rewrite Hk, <- Hk' in Hv.
Qed.

(** A new box for an object that had none. *)
Lemma owned_set raw j j' boxes o p v :
  owned raw j boxes -> boxes !! p = None -> rust_ptr j o = None -> kind v = class_of o ->
  rust_ptr j' o = Some p -> (forall o', o' <> o -> rust_ptr j' o' = rust_ptr j o') ->
  owned raw j' (<[p := v]> boxes).
Proof.
  intros [T O R A] Hp Ho Hk Ho' Hrest.
  assert (Hj : forall o1 p1, rust_ptr j' o1 = Some p1 ->
    (o1 = o /\ p1 = p) \/ (o1 <> o /\ p1 <> p /\ rust_ptr j o1 = Some p1)).
  { intros o1 p1 E; destruct (decide (o1 = o)) as [->|Hne]; [left; split; congruence|right].
    rewrite Hrest in E by done; split_and!; try done; intros ->. destruct (T _ _ E) as (?&?&?); congruence. }
  split.
  - intros o1 p1 [[-> ->]|(?&?&?)]%Hj; [rewrite lookup_insert_eq; eauto|].
    rewrite lookup_insert_ne by done; eauto.
  - intros o1 o2 p1 [[-> ->]|(?&?&E1)]%Hj [[-> ?]|(?&?&E2)]%Hj; try done; eauto.
  - intros p1 k Hr; destruct (R _ _ Hr) as [(v1&Hv1&?) Hn]; split.
    + exists v1; rewrite lookup_insert_ne; [done|]; congruence.
    + intros o1 [[-> ->]|(?&?&E1)]%Hj; [congruence|]. by apply (Hn o1).
  - intros p1 v1; destruct (decide (p1 = p)) as [->|Hne]; [right; by exists o|].
    rewrite lookup_insert_ne by done; intros Hv1; destruct (A _ _ Hv1) as [?|[o1 E1]]; [by left|right].
    exists o1; rewrite Hrest; [done|]; congruence.
Qed.

Lemma keeps_set raw hs o v : kind v = class_of o -> keeps raw hs (set_field o v).
Proof.
  intros Hk s Hs; unfold set_field; rewrite (ok_pending _ _ _ Hs).
  destruct (rust_ptr (js_jvm s) o) as [p|] eqn:Ep.
  - destruct (set_field_set s o v p Ep) as [e ->]. by exists hs.
  - destruct (set_field_null s o v Ep) as [[e ->]|(p&j'&Hp&->&Ho&Hrest&Hpend)]; [by exists hs|].
    destruct Hs as [Op Oo Ok Og Oh]; split; cbn [js_jvm js_boxes js_held]; try done.
    + by rewrite Hpend.
    + by eapply owned_set.
    + intros p' a Ha; rewrite lookup_insert_ne; [by apply Ok|]. intros <-.
      rewrite (Ok _ _ Ha) in Hp; done.
    + intros o' p' H; rewrite Hrest; [auto|]. intros ->. rewrite (Og _ _ H) in Ep; done.
Qed.

(** The value leaves its box, which is not an address. *)
Lemma keeps_take {T} raw k (as_t : RustObj -> option T) `{!Reads k as_t} o :
  class_of o = k -> k <> CAddress -> keeps raw [] (take_field as_t o).
Proof.
  intros Hk Hka s Hs; unfold take_field; rewrite (ok_pending _ _ _ Hs).
  destruct (rust_ptr (js_jvm s) o) as [p|] eqn:Ep.
  - assert (p ∉ js_held s) as Hp by (intros (?&?)%(ok_held _ _ _ Hs); set_solver).
    destruct (take_field_free s o p Ep Hp) as (j'&->&Ho&Hrest&Hpend); cbn [js_boxes].
    destruct Hs as [Op [Ty O R A] Ok Og Oh].
    destruct (Ty _ _ Ep) as (v&Hv&Hkv). rewrite Hv; cbn. rewrite Hk in Hkv.
    destruct (proj2 (reads v) Hkv) as [t ->].
    assert (Hj : forall o1 p1, rust_ptr j' o1 = Some p1 -> p1 <> p /\ rust_ptr (js_jvm s) o1 = Some p1).
    { intros o1 p1 E; destruct (decide (o1 = o)) as [->|Hne]; [congruence|].
      rewrite Hrest in E by done; split; [|done]; intros ->. by apply Hne, (O _ _ p). }
    split; cbn [js_jvm js_boxes js_held]; try done; [by rewrite Hpend| | |set_solver].
    + split.
      * intros o1 p1 [? E]%Hj; rewrite lookup_delete_ne by done; eauto.
      * intros o1 o2 p1 [? E1]%Hj [? E2]%Hj; eauto.
      * intros p1 k1 Hr; destruct (R _ _ Hr) as [Hb Hn]; split.
        -- rewrite lookup_delete_ne; [done|]. intros ->; by apply (Hn o).
        -- intros o1 [? E1]%Hj; by apply (Hn o1).
      * intros p1 v1 [Hne Hv1]%lookup_delete_Some.
        destruct (A _ _ Hv1) as [?|[o1 E1]]; [by left|right]. exists o1; rewrite Hrest; [done|]; congruence.
    + intros p1 a Ha; rewrite lookup_delete_ne; [by apply Ok|]. intros <-.
      rewrite (Ok _ _ Ha) in Hv; injection Hv as <-; by apply Hka.
  - destruct (take_field_null s o Ep) as [e ->]. by exists [].
Qed.

(** An address for Java. *)
Definition gives raw hs (k : JClass) (p : positive) (s : St) : Prop :=
  raw !! p = None /\ ok (<[p := k]> raw) hs s.

Lemma spec_into_raw raw hs v : spec raw hs (into_raw v) (gives raw hs (kind v)).
Proof.
  intros s Hs; unfold into_raw. set (p := fresh (dom (js_boxes s))).
  assert (Hp : js_boxes s !! p = None) by (apply not_elem_of_dom, is_fresh).
  destruct Hs as [Op [T O R A] Ok Og Oh].
  assert (Hj : forall o, rust_ptr (js_jvm s) o <> Some p).
  { intros o E; destruct (T _ _ E) as (?&?&?); congruence. }
  split.
  - destruct (raw !! p) eqn:E; [|done]. destruct (R _ _ E) as [(?&?&?) _]; congruence.
  - split; cbn [js_jvm js_boxes js_held]; try done.
    + split; [| done | |].
      * intros o p' E; destruct (T _ _ E) as (v'&?&?); exists v'.
        rewrite lookup_insert_ne; [done|]; congruence.
      * intros p' k [[<- <-]|[Hne Hr]]%lookup_insert_Some.
        -- rewrite lookup_insert_eq; split; [eauto|done].
        -- rewrite lookup_insert_ne by done; eauto.
      * intros p' v' [[<- <-]|[Hne Hr]]%lookup_insert_Some.
        -- left; rewrite lookup_insert_eq; eauto.
        -- destruct (A _ _ Hr) as [?|?]; [left; by rewrite lookup_insert_ne|by right].
    + intros p' a Ha; rewrite lookup_insert_ne; [by apply Ok|]. intros <-.
      rewrite (Ok _ _ Ha) in Hp; done.
Qed.

Lemma keeps_each {T} raw hs (a : JObjectArray) (f : nat -> jni T) :
  (forall i, keeps raw hs (f i)) -> keeps raw hs (each a f).
Proof.
  intros Hf; unfold each; apply keep_bind; [apply keeps_read|]; intros n.
  generalize (seq 0 n) as l; induction l as [|i l IH]; cbn [mapM]; [intros s Hs; exact Hs|].
  apply keep_bind; [apply Hf|]; intros x. apply keep_bind; [apply IH|]; intros xs.
  by intros s Hs.
Qed.

(** ** Whole methods *)

(** A method ends in a value or in an exception, with everything owned. *)
Definition call_ok (raw : gmap positive JClass) (k : option JClass) (r : called JRet) : Prop :=
  match r with
  | Value (RLong (Some p)) s => exists k', k = Some k' /\ gives raw [] k' p s
  | Value _ s => ok raw [] s
  | Exception _ s => pending (js_jvm s) = true /\ owned raw (js_jvm s) (js_boxes s)
      /\ addresses_kept (js_boxes s) /\ js_held s = []
  | Hangs | Crashes => False
  end.

Definition ends {A} (raw : gmap positive JClass) (_ : A) (s : St) : Prop := exists hs, ok raw hs s.

Lemma ok_release raw hs s : ok raw hs s -> ok raw [] (drop_guards s).
Proof. intros [Op Oo Ok Og Oh]; split; cbn; try done; set_solver. Qed.

Lemma owned_fields raw j j' boxes : (forall o, rust_ptr j' o = rust_ptr j o) -> owned raw j boxes -> owned raw j' boxes.
Proof.
  intros Hf [T O R A]; split; intros *; rewrite ?Hf; eauto.
  - intros Hr; destruct (R _ _ Hr) as [? Hn]; split; [done|]; intros o; rewrite Hf; auto.
  - intros Hb; destruct (A _ _ Hb) as [?|[o Ho]]; [by left|right; exists o; by rewrite Hf].
Qed.

Lemma call_spec raw k (dflt : JRet) (f : jni JRet) :
  spec raw [] f (fun r s => match r with
    | RLong (Some p) => exists k' hs, k = Some k' /\ gives raw hs k' p s
    | _ => exists hs, ok raw hs s end) ->
  forall s, ok raw [] s -> call_ok raw k (jni_ffi_call_or (mret dflt) f s).
Proof.
  intros Hf s Hs; specialize (Hf s Hs); unfold jni_ffi_call_or, mret, jni_ret.
  assert (Hthrow : forall e s' hs, ok raw hs s' ->
    call_ok raw k (Exception e (mkJState (throw_new (js_jvm s') e) (js_boxes s') (@nil positive)))).
  { intros e s' hs [Op Oo Ok Og Oh]; cbn. destruct (throw_pending (js_jvm s') e) as [Hp Hfld].
    split_and!; try done. by apply (owned_fields _ (js_jvm s')). }
  destruct (f s) as [r s'|e s'|s'| |]; try done.
  - destruct r as [| | |[p|]| | |]; cbn [call_ok];
      try (destruct Hf as [hs Hf]; by apply (ok_release _ hs)).
    destruct Hf as (k'&hs&->&Hr&Hf). exists k'; split; [done|split; [done|]]. by apply (ok_release _ hs).
  - destruct Hf as [hs Hf]; by apply (Hthrow e s' hs).
  - destruct Hf as [hs Hf]; by apply (Hthrow _ s' hs).
Qed.

Lemma spec_then_ret {A B} raw hs (m : jni A) (g : A -> B) (Q : B -> St -> Prop) :
  spec raw hs m (fun a s => Q (g a) s) -> spec raw hs (a ← m; mret (g a)) Q.
Proof. intros Hm; apply (spec_bind _ _ _ _ _ _ Hm); by intros a s H. Qed.

Lemma void_ok raw k f : spec raw [] f (ends raw) -> forall s, ok raw [] s -> call_ok raw k (void f s).
Proof. intros Hf; apply call_spec; by apply spec_then_ret. Qed.

Lemma null_bytes_ok raw k f :
  spec raw [] f (ends raw) -> forall s, ok raw [] s -> call_ok raw k (or_null_bytes f s).
Proof. intros Hf; apply call_spec; by apply spec_then_ret. Qed.

Lemma null_string_ok raw k f :
  spec raw [] f (ends raw) -> forall s, ok raw [] s -> call_ok raw k (or_null_string f s).
Proof. intros Hf; apply call_spec; by apply spec_then_ret. Qed.

Lemma zero_ok raw k f :
  spec raw [] f (fun p s => exists hs, gives raw hs k p s) ->
  forall s, ok raw [] s -> call_ok raw (Some k) (or_zero f s).
Proof.
  intros Hf; apply call_spec; apply spec_then_ret; intros s Hs; specialize (Hf s Hs).
  destruct (f s); try done. destruct Hf as [hs ?]; by exists k, hs.
Qed.

Lemma keeps_ends {A} raw hs (m : jni A) : keeps raw hs m -> spec raw hs m (ends raw).
Proof. intros Hm s Hs; specialize (Hm s Hs); destruct (m s); try done. by exists hs. Qed.

Lemma into_raw_gives raw hs v k :
  kind v = k -> spec raw hs (into_raw v) (fun p s => exists hs, gives raw hs k p s).
Proof.
  intros <- s Hs; pose proof (spec_into_raw raw hs v s Hs) as H; destruct (into_raw v s); try done.
  by exists hs.
Qed.

Lemma keeps_new_bytes raw hs bs : keeps raw hs (new_bytes bs).
Proof. apply keeps_make; intros j; apply bytes_same. Qed.
Lemma keeps_new_jstring raw hs bs : keeps raw hs (new_jstring bs).
Proof. apply keeps_make; intros j; apply string_same. Qed.
Lemma keeps_option_bytes raw hs o : keeps raw hs (option_bytes o).
Proof. destruct o; [apply keeps_new_bytes|by intros s Hs]. Qed.
Lemma keeps_option_string raw hs o : keeps raw hs (option_string o).
Proof. destruct o; [apply keeps_new_jstring|by intros s Hs]. Qed.
Lemma keeps_array32 raw hs bs : keeps raw hs (array32 bs).
Proof. unfold array32; destruct (length bs =? 32)%nat; [by intros s Hs|apply spec_fail]. Qed.
Lemma keeps_ret {A} raw hs (a : A) : keeps raw hs (mret a).
Proof. by intros s Hs. Qed.
Lemma keeps_fail {A} raw hs e : keeps raw hs (fail (A := A) e).
Proof. apply spec_fail. Qed.
Lemma keep_then {A B} raw hs (m : jni A) (f : A -> jni B) :
  keeps raw hs m -> (forall a, keeps raw hs (f a)) -> keeps raw hs (m ≫= f).
Proof. apply keep_bind. Qed.
Lemma keeps_big_int raw hs o : keeps raw hs (jni_big_int_to_u64 o).
Proof. apply keep_then; [apply keeps_read|]; intros a; apply keeps_try. Qed.
Lemma keeps_strings raw hs a : keeps raw hs (strings a).
Proof. apply keeps_each; intros i; apply keep_then; [apply keeps_read|]; intros x; apply keeps_read. Qed.
Lemma keeps_byte_arrays raw hs a : keeps raw hs (byte_arrays a).
Proof. apply keeps_each; intros i; apply keep_then; [apply keeps_read|]; intros x; apply keeps_read. Qed.
Lemma keeps_confirmation raw hs n a : keeps raw hs (copy_confirmation n a).
Proof.
  unfold copy_confirmation; destruct (is_null_bytes a); [apply keeps_ret|].
  apply keep_then; [apply keeps_read|]; intros len. destruct (length n <=? len)%nat; [|apply keeps_ret].
  apply keeps_make; intros j; apply region_same.
Qed.
End spec.

#[export] Instance reads_private `{C : AndroidCrates} : Reads CPrivate as_private.
Proof. intros []; split; try done; by intros [? [=]]. Qed.
#[export] Instance reads_public `{C : AndroidCrates} : Reads CPublic as_public.
Proof. intros []; split; try done; by intros [? [=]]. Qed.
#[export] Instance reads_attested `{C : AndroidCrates} : Reads CAttested as_attested.
Proof. intros []; split; try done; by intros [? [=]]. Qed.
#[export] Instance reads_amount `{C : AndroidCrates} : Reads CAmount as_amount.
Proof. intros []; split; try done; by intros [? [=]]. Qed.
#[export] Instance reads_address `{C : AndroidCrates} : Reads CAddress as_address.
Proof. intros []; split; try done; by intros [? [=]]. Qed.
#[export] Instance reads_kex_rng `{C : AndroidCrates} : Reads CKexRng as_kex_rng.
Proof. intros []; split; try done; by intros [? [=]]. Qed.
#[export] Instance reads_account `{C : AndroidCrates} : Reads CAccount as_account.
Proof. intros []; split; try done; by intros [? [=]]. Qed.
#[export] Instance reads_tx_out `{C : AndroidCrates} : Reads CTxOut as_tx_out.
Proof. intros []; split; try done; by intros [? [=]]. Qed.
#[export] Instance reads_proof `{C : AndroidCrates} : Reads CProof as_proof.
Proof. intros []; split; try done; by intros [? [=]]. Qed.
#[export] Instance reads_tx `{C : AndroidCrates} : Reads CTx as_tx.
Proof. intros []; split; try done; by intros [? [=]]. Qed.
#[export] Instance reads_builder `{C : AndroidCrates} : Reads CBuilder as_builder.
Proof. intros []; split; try done; by intros [? [=]]. Qed.
#[export] Instance reads_responder `{C : AndroidCrates} : Reads CResponder as_responder.
Proof. intros []; split; try done; by intros [? [=]]. Qed.
#[export] Instance reads_verifier `{C : AndroidCrates} : Reads CVerifier as_verifier.
Proof. intros []; split; try done; by intros [? [=]]. Qed.
#[export] Instance reads_resolver `{C : AndroidCrates} : Reads CResolver as_resolver.
Proof. intros []; split; try done; by intros [? [=]]. Qed.
#[export] Instance reads_responses `{C : AndroidCrates} : Reads CResponses as_responses.
Proof. intros []; split; try done; by intros [? [=]]. Qed.
#[export] Instance reads_response `{C : AndroidCrates} : Reads CResponse as_response.
Proof. intros []; split; try done; by intros [? [=]]. Qed.
#[export] Instance reads_signature `{C : AndroidCrates} : Reads CSignature as_signature.
Proof. intros []; split; try done; by intros [? [=]]. Qed.
#[export] Instance reads_verification_report `{C : AndroidCrates} : Reads CVerificationReport as_verification_report.
Proof. intros []; split; try done; by intros [? [=]]. Qed.
#[export] Instance reads_report `{C : AndroidCrates} : Reads CReport as_report.
Proof. intros []; split; try done; by intros [? [=]]. Qed.
