(* ===== verification/AndroidSafe.v ===== *)
(** * A Java program cannot corrupt the library

    The signatures of the native methods as a contract, a step relation for the
    Java program (calls, new objects around the addresses it gets, handled
    exceptions and anything else it does to its own objects), and the safety of
    every program that keeps the contract. *)

From S2P Require Import Prelude FogTypes KexRng Jni Android AndroidSpec.

Local Open Scope Z_scope.

Section safe.
Context `{C : AndroidCrates} {J : Jni RustObj} {JL : JniLaws J}.
Context (class_of : JObject -> JClass).

Abbreviation St := (JState Jvm RustObj).

(** ** The contract *)

(** The elements of a Java array have its element class. *)
Definition elements (a : JObjectArray) (k : JClass) : Prop :=
  forall j i o, get_object_array_element j a i = Ok o -> class_of o = k.

Definition private_args (m : RistrettoPrivateMethod) : Prop :=
  match m with
  | Private_init obj _ | Private_init_seed obj _ | Private_finalize obj | Private_get_bytes obj
  | Private_get_public obj => class_of obj = CPrivate
  end.

Definition attested_args (m : AttestedClientMethod) : Prop :=
  match m with
  | Attested_start _ obj responder_id => class_of obj = CAttested /\ class_of responder_id = CResponder
  | Attested_finish _ obj _ verifier => class_of obj = CAttested /\ class_of verifier = CVerifier
  | Attested_finalize obj | Attested_get_binding obj | Attested_encrypt_payload obj _ _
  | Attested_decrypt_payload obj _ _ => class_of obj = CAttested
  end.

Definition amount_args (m : AmountMethod) : Prop :=
  match m with
  | Amount_init obj _ _ | Amount_finalize obj => class_of obj = CAmount
  | Amount_unmask_value obj view_key tx_pub_key =>
      class_of obj = CAmount /\ class_of view_key = CPrivate /\ class_of tx_pub_key = CPublic
  end.

Definition public_args (m : RistrettoPublicMethod) : Prop :=
  match m with
  | Public_init obj _ | Public_finalize obj | Public_get_bytes obj => class_of obj = CPublic
  end.

(** Two keys are two objects. *)
Definition address_args (m : PublicAddressMethod) : Prop :=
  match m with
  | Address_init_with_fog obj view_key spend_key _ _ _ | Address_init obj view_key spend_key =>
      class_of obj = CAddress /\ class_of view_key = CPublic /\ class_of spend_key = CPublic
      /\ view_key <> spend_key
  | Address_get_view_key obj | Address_get_fog_authority_sig obj | Address_get_report_id obj
  | Address_get_spend_key obj | Address_get_fog_uri obj => class_of obj = CAddress
  end.

Definition kex_rng_args (m : ClientKexRngMethod) : Prop :=
  match m with
  | KexRng_init obj view_key _ _ => class_of obj = CKexRng /\ class_of view_key = CPrivate
  | KexRng_advance obj | KexRng_get_output obj | KexRng_get_next_n obj _ | KexRng_finalize obj =>
      class_of obj = CKexRng
  end.

Definition account_args (m : AccountKeyMethod) : Prop :=
  match m with
  | Account_init obj view_key spend_key _ _ _ =>
      class_of obj = CAccount /\ class_of view_key = CPrivate /\ class_of spend_key = CPrivate
      /\ view_key <> spend_key
  | Account_init_from_root_entropy obj _ _ _ _ | Account_get_default_subaddress_spend_key obj
  | Account_get_default_subaddress_view_key obj | Account_finalize obj => class_of obj = CAccount
  end.

(** [get_report_id] is left out: it can crash. *)
Definition account_part_args (m : AccountPartMethod) : Prop :=
  match m with
  | Account_get_report_id _ => False
  | Account_get_view_key obj | Account_get_spend_key obj | Account_getFogUriString obj | Account_get_fog_authority_spki obj
  | Account_get_public_address obj => class_of obj = CAccount
  end.

Definition tx_out_args (m : TxOutMethod) : Prop :=
  match m with
  | TxOut_compute_key_image obj account_key => class_of obj = CTxOut /\ class_of account_key = CAccount
  | TxOut_init_from_protobuf_bytes obj _ | TxOut_finalize obj | TxOut_encode obj => class_of obj = CTxOut
  | Proof_init_from_protobuf_bytes obj _ | Proof_finalize obj => class_of obj = CProof
  | Transaction_finalize obj | Transaction_encode obj => class_of obj = CTx
  end.

Definition builder_args (m : TransactionBuilderMethod) : Prop :=
  match m with
  | Builder_init obj fog_resolver => class_of obj = CBuilder /\ class_of fog_resolver = CResolver
  | Builder_add_input obj ring proofs _ onetime_private_key view_private_key =>
      class_of obj = CBuilder /\ elements ring CTxOut /\ elements proofs CProof
      /\ class_of onetime_private_key = CPrivate /\ class_of view_private_key = CPrivate
      /\ onetime_private_key <> view_private_key
  | Builder_add_output _ obj _ recipient _ => class_of obj = CBuilder /\ class_of recipient = CAddress
  | Builder_finalize obj | Builder_set_tombstone_block obj _ | Builder_set_fee obj _
  | Builder_build_tx _ obj => class_of obj = CBuilder
  end.

Definition util_args (m : UtilMethod) : Prop :=
  match m with
  | Util_recover_onetime_private_key tx_pub_key view_key spend_key =>
      class_of tx_pub_key = CPublic /\ class_of view_key = CPrivate /\ class_of spend_key = CPrivate
      /\ view_key <> spend_key
  | Util_versioned_crypto_box_decrypt key _ => class_of key = CPrivate
  | Util_attest_verify_report _ | Util_bigint2string _ => True
  | Receipt_is_confirmation_valid _ tx_pub_key view_key =>
      class_of tx_pub_key = CPublic /\ class_of view_key = CPrivate
  end.

Definition verifier_args (m : VerifierMethod) : Prop :=
  match m with
  | Responder_init obj _ | Responder_finalize obj => class_of obj = CResponder
  | Verifier_init obj | Verifier_add_mr_signer obj _ _ _ _ _ | Verifier_add_mr_enclave obj _ _ _
  | Verifier_finalize obj => class_of obj = CVerifier
  end.

Definition resolver_args (m : ResolverMethod) : Prop :=
  match m with
  | Resolver_init obj report_responses verifier =>
      class_of obj = CResolver /\ class_of report_responses = CResponses /\ class_of verifier = CVerifier
  | Resolver_finalize obj => class_of obj = CResolver
  | Responses_add_response obj _ report_response =>
      class_of obj = CResponses /\ class_of report_response = CResponse
  | Responses_init obj | Responses_finalize obj => class_of obj = CResponses
  end.

Definition report_args (m : ReportMethod) : Prop :=
  match m with
  | Response_init obj reports _ _ => class_of obj = CResponse /\ elements reports CReport
  | Response_finalize obj => class_of obj = CResponse
  | Signature_init obj _ | Signature_finalize obj => class_of obj = CSignature
  | VerificationReport_init obj verification_signature _ _ =>
      class_of obj = CVerificationReport /\ class_of verification_signature = CSignature
  | VerificationReport_finalize obj => class_of obj = CVerificationReport
  | Report_init obj _ verification_report _ =>
      class_of obj = CReport /\ class_of verification_report = CVerificationReport
  | Report_finalize obj => class_of obj = CReport
  end.

Definition args_ok (c : AndroidCall) : Prop :=
  match c with
  | MPrivate m => private_args m | MAttested m => attested_args m | MAmount m => amount_args m
  | MPublic m => public_args m | MWrapper _ => True | MAddress m => address_args m
  | MKexRng m => kex_rng_args m | MAccount m => account_args m
  | MAccountPart m => account_part_args m | MTxOut m => tx_out_args m
  | MBuilder m => builder_args m | MUtil m => util_args m | MVerifier m => verifier_args m
  | MResolver m => resolver_args m | MReport m => report_args m | MMnemonic _ => True
  end.

(** The class of the address that a method returns. *)
Definition returns (c : AndroidCall) : option JClass :=
  match c with
  | MPrivate (Private_get_public _) => Some CPublic
  | MAddress (Address_get_view_key _) | MAddress (Address_get_spend_key _) => Some CPublic
  | MAccount (Account_get_default_subaddress_spend_key _)
  | MAccount (Account_get_default_subaddress_view_key _)
  | MAccountPart (Account_get_view_key _) | MAccountPart (Account_get_spend_key _) => Some CPrivate
  | MAccountPart (Account_get_public_address _) => Some CAddress
  | MBuilder (Builder_add_output _ _ _ _ _) => Some CTxOut
  | MBuilder (Builder_build_tx _ _) => Some CTx
  | MUtil (Util_recover_onetime_private_key _ _ _) => Some CPrivate
  | MMnemonic (Deriver_accountKey_from_mnemonic _ _) => Some CAccount
  | _ => None
  end.

(** ** The methods *)

Section methods.
Context (B0 : gmap positive RustObj) (raw : gmap positive JClass).

Abbreviation keeps := (keeps class_of B0 raw).
Abbreviation spec := (spec class_of B0 raw).
Abbreviation call_ok := (call_ok class_of B0 raw).
Abbreviation ok := (ok class_of B0 raw).

Lemma keeps_object hs k {T} (as_t : RustObj -> option T) `{!Reads k as_t} a i :
  elements a k -> (forall o p, (o, p) ∈ hs -> class_of o <> k) ->
  keeps hs (obj ← env_read (fun j => get_object_array_element j a i); get_clone as_t obj).
Proof.
  intros Ha Hn s Hs; unfold env_read, mbind, jni_bind; rewrite (ok_pending _ _ _ _ _ Hs).
  destruct (get_object_array_element (js_jvm s) a i) as [o|e] eqn:E; [|by exists hs].
  cbn [try]; unfold mret, jni_ret.
  apply (keeps_clone class_of B0 raw hs k as_t o); [by eapply Ha|..|done].
  intros p Hp; by apply (Hn _ _ Hp), (Ha _ _ _ E).
Qed.

(** An object is not among those that are locked. *)
Ltac not_held := intros ? ?; repeat match goal with
  | H : _ ∈ _ :: _ |- _ => apply elem_of_cons in H as [H|H]
  | H : _ ∈ [] |- _ => by apply not_elem_of_nil in H
  end; simplify_eq; try congruence.

Ltac other_class := intros ? ? ?; repeat match goal with
  | H : _ ∈ _ :: _ |- _ => apply elem_of_cons in H as [H|H]
  | H : _ ∈ [] |- _ => by apply not_elem_of_nil in H
  end; simplify_eq; congruence.

Ltac held := first [apply list_elem_of_here | apply list_elem_of_further; held].

Ltac keep := first
  [ apply keeps_try | apply keeps_read | apply keeps_new_bytes | apply keeps_new_jstring
  | apply keeps_option_bytes | apply keeps_option_string | apply keeps_array32 | apply keeps_ret
  | apply keeps_fail | apply keeps_big_int | apply keeps_strings | apply keeps_byte_arrays
  | apply keeps_confirmation | apply keeps_set; cbn [kind]; congruence
  | eapply keeps_write; [held | cbn [kind]; congruence | done]
  | eapply keeps_take; [typeclasses eauto | eassumption | done]
  | apply keeps_make; intros ?; first [apply array_same | apply integer_same]
  | apply keeps_each; intros ?; eapply keeps_object; [typeclasses eauto | eassumption | other_class] ].

Ltac jstep := first
  [ eapply spec_get; [typeclasses eauto | eassumption | not_held |]; intros ? ?
  | eapply spec_get_mut; [typeclasses eauto | eassumption | not_held |]; intros ? ?
  | apply keep_bind; [keep|]; intros ?
  | apply into_raw_gives; reflexivity
  | apply spec_ret; intros ? ?; eexists; eassumption
  | apply keeps_ends; keep ].

Ltac jsteps := repeat first [jstep | case_match; simplify_eq].

Ltac method Ha := cbn in Ha; destruct_and?; try done;
  first [apply void_ok | apply null_bytes_ok | apply null_string_ok | apply zero_ok | apply call_spec]; jsteps.

Lemma private_ok m s : private_args m -> ok [] s -> call_ok (returns (MPrivate m)) (RistrettoPrivate_call m s).
Proof. intros Ha Hs; revert s Hs; destruct m; method Ha. Qed.

Lemma attested_ok m s : attested_args m -> ok [] s -> call_ok (returns (MAttested m)) (AttestedClient_call m s).
Proof. intros Ha Hs; revert s Hs; destruct m; method Ha. Qed.

Lemma public_ok m s : public_args m -> ok [] s -> call_ok (returns (MPublic m)) (RistrettoPublic_call m s).
Proof. intros Ha Hs; revert s Hs; destruct m; method Ha. Qed.

Lemma wrapper_ok m s : ok [] s -> call_ok (returns (MWrapper m)) (PrintableWrapper_call m s).
Proof. intros Hs; pose proof I as Ha; revert s Hs; destruct m; method Ha. Qed.

Lemma address_ok m s : address_args m -> ok [] s -> call_ok (returns (MAddress m)) (PublicAddress_call m s).
Proof. intros Ha Hs; revert s Hs; destruct m; method Ha. Qed.

Lemma amount_ok m s : amount_args m -> ok [] s -> call_ok (returns (MAmount m)) (Amount_call m s).
Proof. intros Ha Hs; revert s Hs; destruct m; method Ha. Qed.

Lemma kex_rng_ok m s : kex_rng_args m -> ok [] s -> call_ok (returns (MKexRng m)) (ClientKexRng_call m s).
Proof. intros Ha Hs; revert s Hs; destruct m; method Ha. Qed.

Lemma account_ok m s : account_args m -> ok [] s -> call_ok (returns (MAccount m)) (AccountKey_call m s).
Proof. intros Ha Hs; revert s Hs; destruct m; method Ha. Qed.

Lemma account_part_ok m s :
  account_part_args m -> ok [] s -> call_ok (returns (MAccountPart m)) (AccountPart_call m s).
Proof. intros Ha Hs; revert s Hs; destruct m; method Ha. Qed.

Lemma tx_out_ok m s : tx_out_args m -> ok [] s -> call_ok (returns (MTxOut m)) (TxOut_call m s).
Proof. intros Ha Hs; revert s Hs; destruct m; method Ha. Qed.

Lemma builder_ok m s : builder_args m -> ok [] s -> call_ok (returns (MBuilder m)) (TransactionBuilder_call m s).
Proof. intros Ha Hs; revert s Hs; destruct m; method Ha. Qed.

Lemma util_ok m s : util_args m -> ok [] s -> call_ok (returns (MUtil m)) (Util_call m s).
Proof. intros Ha Hs; revert s Hs; destruct m; method Ha. Qed.

Lemma verifier_ok m s : verifier_args m -> ok [] s -> call_ok (returns (MVerifier m)) (Verifier_call m s).
Proof. intros Ha Hs; revert s Hs; destruct m; method Ha. Qed.

Lemma resolver_ok m s : resolver_args m -> ok [] s -> call_ok (returns (MResolver m)) (Resolver_call m s).
Proof. intros Ha Hs; revert s Hs; destruct m; method Ha. Qed.

Lemma report_ok m s : report_args m -> ok [] s -> call_ok (returns (MReport m)) (Report_call m s).
Proof. intros Ha Hs; revert s Hs; destruct m; method Ha. Qed.

Lemma mnemonic_ok m s : ok [] s -> call_ok (returns (MMnemonic m)) (Mnemonic_call m s).
Proof. intros Hs; pose proof I as Ha; revert s Hs; destruct m; method Ha. Qed.

Lemma android_call_ok c s : args_ok c -> ok [] s -> call_ok (returns c) (android_call c s).
Proof.
  destruct c; cbn [args_ok android_call].
  - apply private_ok.
  - apply attested_ok.
  - apply amount_ok.
  - apply public_ok.
  - intros _; apply wrapper_ok.
  - apply address_ok.
  - apply kex_rng_ok.
  - apply account_ok.
  - apply account_part_ok.
  - apply tx_out_ok.
  - apply builder_ok.
  - apply util_ok.
  - apply verifier_ok.
  - apply resolver_ok.
  - apply report_ok.
  - intros _; apply mnemonic_ok.
Qed.
End methods.

(** ** Java programs *)

(** The state, with the addresses that Java still has to give to an object. *)
Inductive java_step : gmap positive JClass * St -> gmap positive JClass * St -> Prop :=
| java_gets_address raw s c p k s' :
    args_ok c -> pending (js_jvm s) = false -> returns c = Some k ->
    android_call c s = Value (RLong (Some p)) s' -> java_step (raw, s) (<[p := k]> raw, s')
| java_gets_value raw s c r s' :
    args_ok c -> pending (js_jvm s) = false -> (forall p, r <> RLong (Some p)) ->
    android_call c s = Value r s' -> java_step (raw, s) (raw, s')
| java_gets_exception raw s c e s' :
    args_ok c -> pending (js_jvm s) = false ->
    android_call c s = Exception e s' -> java_step (raw, s) (raw, s')
(** [new RistrettoPublic(rustObj)] and the like *)
| java_wraps raw s p k o j' :
    raw !! p = Some k -> class_of o = k -> rust_ptr (js_jvm s) o = None ->
    rust_ptr j' o = Some p -> (forall o', o' <> o -> rust_ptr j' o' = rust_ptr (js_jvm s) o') ->
    java_step (raw, s) (delete p raw, mkJState j' (js_boxes s) (js_held s))
(** anything else, also handling an exception *)
| java_runs raw s j' :
    (forall o, rust_ptr j' o = rust_ptr (js_jvm s) o) ->
    java_step (raw, s) (raw, mkJState j' (js_boxes s) (js_held s)).

Definition java_runs_to := rtc java_step.

(** A program that has not called the library yet. *)
Definition java_starts (st : gmap positive JClass * St) : Prop :=
  st.1 = ∅ /\ js_boxes st.2 = ∅ /\ js_held st.2 = [] /\ forall o, rust_ptr (js_jvm st.2) o = None.

Definition java_inv (st : gmap positive JClass * St) : Prop :=
  owned class_of st.1 (js_jvm st.2) (js_boxes st.2) /\ js_held st.2 = [].

Definition keeps_addresses (st st' : gmap positive JClass * St) : Prop :=
  addresses_kept (js_boxes st.2) (js_boxes st'.2).

Lemma java_starts_inv st : java_starts st -> java_inv st.
Proof.
  destruct st as [raw s]; intros (Hr&Hb&Hh&Hp); cbn in *; split; [|done].
  cbn; subst raw; split; intros *; rewrite ?Hp, ?Hb, ?lookup_empty; done.
Qed.

Lemma java_inv_ok raw s : java_inv (raw, s) -> pending (js_jvm s) = false -> ok class_of (js_boxes s) raw [] s.
Proof.
  intros [Ho Hh] Hp; cbn in *; split; try done.
  - by intros p a H.
  - by intros o p H%not_elem_of_nil.
  - intros p; rewrite Hh; by intros H%not_elem_of_nil.
Qed.

Lemma java_inv_call raw s c :
  java_inv (raw, s) -> pending (js_jvm s) = false -> args_ok c ->
  call_ok class_of (js_boxes s) raw (returns c) (android_call c s).
Proof. intros Hi Hp Ha; by apply android_call_ok, java_inv_ok. Qed.

Lemma ok_java_inv B0 raw s : ok class_of B0 raw [] s -> java_inv (raw, s).
Proof.
  intros [Op Oo Ok Og Oh]; split; [done|]; cbn. destruct (js_held s) as [|p l]; [done|].
  destruct (Oh p) as [o H]; set_solver.
Qed.

(** The object takes the address over. *)
Lemma owned_wraps raw j j' boxes p k o :
  owned class_of raw j boxes -> raw !! p = Some k -> class_of o = k -> rust_ptr j o = None ->
  rust_ptr j' o = Some p -> (forall o', o' <> o -> rust_ptr j' o' = rust_ptr j o') ->
  owned class_of (delete p raw) j' boxes.
Proof.
  intros [T O R A] Hr Hk Ho Ho' Hrest. destruct (R _ _ Hr) as [(v&Hv&Hkv) Hn].
  assert (Hj : forall o1 p1, rust_ptr j' o1 = Some p1 ->
    (o1 = o /\ p1 = p) \/ (o1 <> o /\ p1 <> p /\ rust_ptr j o1 = Some p1)).
  { intros o1 p1 E; destruct (decide (o1 = o)) as [->|Hne]; [left; split; congruence|right].
    rewrite Hrest in E by done; split_and!; try done; intros ->. by apply (Hn o1). }
  split.
  - intros o1 p1 [[-> ->]|(?&?&?)]%Hj; eauto. exists v; by rewrite Hk.
  - intros o1 o2 p1 [[-> ->]|(?&?&E1)]%Hj [[-> ?]|(?&?&E2)]%Hj; try done; eauto.
  - intros p1 k1 [Hne Hr1]%lookup_delete_Some; destruct (R _ _ Hr1) as [Hb Hn1]; split; [done|].
    intros o1 [[-> ->]|(?&?&E1)]%Hj; [done|by apply (Hn1 o1)].
  - intros p1 v1 Hv1; destruct (decide (p1 = p)) as [->|Hne]; [right; by exists o|].
    destruct (A _ _ Hv1) as [?|[o1 E1]]; [left; by rewrite lookup_delete_ne|right].
    exists o1; rewrite Hrest; [done|]; congruence.
Qed.

Lemma java_step_inv st st' : java_step st st' -> java_inv st -> java_inv st' /\ keeps_addresses st st'.
Proof.
  intros Hst Hi; destruct Hst as [raw s c p k s' Ha Hp Hk E|raw s c r s' Ha Hp Hr E|raw s c e s' Ha Hp E
    |raw s p k o j' Hr Hk Ho Ho' Hrest|raw s j' Hj].
  - pose proof (java_inv_call _ _ _ Hi Hp Ha) as H; rewrite E in H.
    destruct H as (k'&Hk'&_&H); rewrite Hk in Hk'; injection Hk' as <-.
    split; [by eapply ok_java_inv|apply (ok_kept _ _ _ _ _ H)].
  - pose proof (java_inv_call _ _ _ Hi Hp Ha) as H; rewrite E in H.
    assert (ok class_of (js_boxes s) raw [] s') as H'.
    { destruct r as [| | |[p|]| | |]; try done. by destruct (Hr p). }
    split; [by eapply ok_java_inv|apply (ok_kept _ _ _ _ _ H')].
  - pose proof (java_inv_call _ _ _ Hi Hp Ha) as H; rewrite E in H.
    destruct H as (_&H&Hk&Hh); split; [by split|done].
  - destruct Hi as [Hi Hh]; split; [|by intros ? ?]. split; [|done]. by eapply owned_wraps.
  - destruct Hi as [Hi Hh]; split; [|by intros ? ?]. split; [|done]. by eapply owned_fields.
Qed.

Lemma java_runs_inv st st' : java_runs_to st st' -> java_inv st -> java_inv st' /\ keeps_addresses st st'.
Proof.
  induction 1 as [st|st st1 st2 Hs _ IH]; intros Hi; [by split; [|intros ? ?]|].
  destruct (java_step_inv _ _ Hs Hi) as [Hi1 Hk1]. destruct (IH Hi1) as [Hi2 Hk2].
  split; [done|]. intros p a Ha; by apply Hk2, Hk1.
Qed.

(** C8: the bindings are memory safe under the contract.  In every state a Java
    program can reach, every object points to a box of its own class, no two
    objects share a box, every box is reachable from one object or is an address
    Java still holds, and no lock is left; the next call returns or throws, and
    never blocks, reads a wrong box or calls Java in a forbidden state. *)
Theorem android_memory_safe raw0 s0 raw s c :
  java_starts (raw0, s0) -> java_runs_to (raw0, s0) (raw, s) ->
  java_inv (raw, s)
  /\ (pending (js_jvm s) = false -> args_ok c ->
      match android_call c s with
      | Value _ _ | Exception _ _ => True
      | Hangs | Crashes => False
      end).
Proof.
  intros H0 Hr; destruct (java_runs_inv _ _ Hr (java_starts_inv _ H0)) as [Hi _].
  split; [done|]. intros Hp Ha; pose proof (java_inv_call _ _ _ Hi Hp Ha) as H.
  by destruct (android_call c s).
Qed.

(** An address in a box is never freed: [PublicAddress] has no [finalize_jni]. *)
Theorem address_boxes_leak raw0 s0 raw s raw' s' p a :
  java_starts (raw0, s0) -> java_runs_to (raw0, s0) (raw, s) -> js_boxes s !! p = Some (OAddress a) ->
  java_runs_to (raw, s) (raw', s') -> js_boxes s' !! p = Some (OAddress a).
Proof.
  intros H0 Hr Hp Hr'; destruct (java_runs_inv _ _ Hr (java_starts_inv _ H0)) as [Hi _].
  destruct (java_runs_inv _ _ Hr' Hi) as [_ Hk]. by apply Hk.
Qed.
End safe.
