(* ===== verification/AndroidFacts.v ===== *)
(** * What single methods of the Android bindings do

    Amounts cross the boundary as big integers: which ones are read back as the
    number Java meant.  A phone draws the search keys of the ingest enclave
    through its native methods.  And four ways in which a Java program can be
    surprised: a negative amount, a lost session, one object for two keys and a
    value computed after an exception. *)

From S2P Require Import Prelude FogTypes KexRng Jni Android AndroidSpec.

Local Open Scope Z_scope.

(** ** Big integers *)

(** The number that [BigInteger.toByteArray] encodes: two's complement, big end first. *)
Definition signed_be (bs : bytes) : Z :=
  match bs with
  | [] => 0
  | b :: _ => from_be_bytes bs - (if 128 <=? b then 256 ^ Z.of_nat (length bs) else 0)
  end.

Lemma le_combine_app xs ys :
  le_combine (xs ++ ys) = le_combine xs + 256 ^ Z.of_nat (length xs) * le_combine ys.
Proof.
  induction xs as [|x xs IH]; cbn [app le_combine length]; [lia|].
  rewrite IH, Nat2Z.inj_succ, Z.pow_succ_r by lia. lia.
Qed.

Lemma le_combine_range bs : Forall is_byte bs -> 0 <= le_combine bs < 256 ^ Z.of_nat (length bs).
Proof.
  induction 1 as [|b bs Hb _ IH]; cbn [le_combine length]; [lia|].
  rewrite Nat2Z.inj_succ, Z.pow_succ_r by lia; unfold is_byte in Hb; lia.
Qed.

Lemma from_be_cons b bs : from_be_bytes (b :: bs) = 256 ^ Z.of_nat (length bs) * b + from_be_bytes bs.
Proof.
  unfold from_be_bytes; cbn [rev]; rewrite le_combine_app, length_rev; cbn [le_combine]; lia.
Qed.

Lemma from_be_range bs : Forall is_byte bs -> 0 <= from_be_bytes bs < 256 ^ Z.of_nat (length bs).
Proof.
  intros H; unfold from_be_bytes; rewrite <- length_rev. by apply le_combine_range, Forall_rev.
Qed.

Lemma from_be_zeros n bs : from_be_bytes (replicate n 0 ++ bs) = from_be_bytes bs.
Proof. induction n as [|n IH]; [done|]. cbn [replicate app]. rewrite from_be_cons, IH; lia. Qed.

Lemma strip_zeros_value bs : from_be_bytes (strip_zeros bs) = from_be_bytes bs.
Proof.
  induction bs as [|b bs IH]; [done|]. destruct b; [|done..]. cbn [strip_zeros].
  rewrite IH, from_be_cons; lia.
Qed.

Lemma strip_zeros_bytes bs : Forall is_byte bs -> Forall is_byte (strip_zeros bs).
Proof. induction 1 as [|b bs Hb Hbs IH]; [done|]. destruct b; [done|by constructor..]. Qed.

(** Without leading zeros the length is that of the number. *)
Lemma strip_zeros_large bs n :
  Forall is_byte bs -> (n < length (strip_zeros bs))%nat -> 256 ^ Z.of_nat n <= from_be_bytes (strip_zeros bs).
Proof.
  induction 1 as [|b bs Hb Hbs IH]; [cbn; lia|]. destruct b as [|b|b]; [exact IH| |unfold is_byte in Hb; lia].
  cbn [strip_zeros length]; intros Hn; rewrite from_be_cons. pose proof (from_be_range _ Hbs).
  assert (256 ^ Z.of_nat n <= 256 ^ Z.of_nat (length bs)) by (apply Z.pow_le_mono_r; lia). nia.
Qed.

(** The conversion is the unsigned reading, when it fits. *)
Lemma big_int_bytes_value bs :
  Forall is_byte bs ->
  if from_be_bytes bs <? u64_modulus then big_int_bytes_to_u64 bs = Ok (from_be_bytes bs)
  else big_int_bytes_to_u64 bs = Err (McOther 0).
Proof.
  intros Hb; unfold big_int_bytes_to_u64; rewrite from_be_zeros, strip_zeros_value.
  destruct (Nat.ltb_spec 8 (length (strip_zeros bs))) as [Hl|Hl].
  - pose proof (strip_zeros_large bs 8 Hb Hl) as H; rewrite strip_zeros_value in H.
    destruct (Z.ltb_spec (from_be_bytes bs) u64_modulus); [unfold u64_modulus in *; lia|done].
  - pose proof (from_be_range _ (strip_zeros_bytes _ Hb)) as H; rewrite strip_zeros_value in H.
    assert (256 ^ Z.of_nat (length (strip_zeros bs)) <= 256 ^ 8) by (apply Z.pow_le_mono_r; lia).
    destruct (Z.ltb_spec (from_be_bytes bs) u64_modulus); [done|unfold u64_modulus in *; lia].
Qed.

Lemma signed_be_cases bs :
  Forall is_byte bs ->
  (0 <= signed_be bs /\ from_be_bytes bs = signed_be bs)
  \/ (signed_be bs < 0 /\ from_be_bytes bs = signed_be bs + 256 ^ Z.of_nat (length bs)).
Proof.
  intros Hb; destruct Hb as [|b bs Hb Hbs]; [by left|]. cbn [signed_be].
  pose proof (from_be_range (b :: bs) (Forall_cons_2 _ _ _ Hb Hbs)).
  destruct (Z.leb_spec 128 b); [right|left]; lia.
Qed.

Section facts.
Context `{C : AndroidCrates} {J : Jni RustObj} {JL : JniLaws J}.

Abbreviation St := (JState Jvm RustObj).

(** C10: a big integer that is a 64-bit amount is read exactly and one that is too
    large is refused, without change to the state; a negative one is read as the
    wrong amount [256^length + z] unless that is too large as well. *)
Theorem big_int_to_u64_correct (s : St) obj bs :
  pending (js_jvm s) = false -> to_byte_array (js_jvm s) obj = Ok bs -> Forall is_byte bs ->
  (is_u64 (signed_be bs) -> jni_big_int_to_u64 obj s = JDone (signed_be bs) s)
  /\ (u64_modulus <= signed_be bs -> jni_big_int_to_u64 obj s = JFails (McOther 0) s)
  /\ (signed_be bs < 0 -> (length bs <= 8)%nat ->
      jni_big_int_to_u64 obj s = JDone (signed_be bs + 256 ^ Z.of_nat (length bs)) s).
Proof.
  intros Hp Hbs Hb; unfold jni_big_int_to_u64, env_read, mbind, jni_bind; rewrite Hp, Hbs; cbn [try].
  unfold mret, jni_ret; pose proof (big_int_bytes_value bs Hb) as Hv; pose proof (from_be_range _ Hb) as Hr.
  pose proof (signed_be_cases bs Hb) as Hs. unfold is_u64; split_and!.
  - intros Hz; assert (E : from_be_bytes bs = signed_be bs) by lia. rewrite E in Hv.
    destruct (Z.ltb_spec (signed_be bs) u64_modulus); [by rewrite Hv|lia].
  - intros Hz; assert (E : from_be_bytes bs = signed_be bs) by (unfold u64_modulus in Hz; lia). rewrite E in Hv.
    destruct (Z.ltb_spec (signed_be bs) u64_modulus); [lia|by rewrite Hv].
  - intros Hz Hl; assert (E : from_be_bytes bs = signed_be bs + 256 ^ Z.of_nat (length bs)) by lia.
    assert (256 ^ Z.of_nat (length bs) <= 256 ^ 8) by (apply Z.pow_le_mono_r; lia).
    rewrite E in Hv, Hr. destruct (Z.ltb_spec (signed_be bs + 256 ^ Z.of_nat (length bs)) u64_modulus);
      [by rewrite Hv|unfold u64_modulus in *; lia].
Qed.

(** ** Search keys on a phone *)

(** [obj] has a box with [v], and the library is idle. *)
Record holds (s : St) (obj : JObject) (p : positive) (v : RustObj) : Prop := {
  holds_idle : pending (js_jvm s) = false;
  holds_free : js_held s = [];
  holds_ptr : rust_ptr (js_jvm s) obj = Some p;
  holds_box : js_boxes s !! p = Some v;
}.

(** A lock that is free is taken. *)
Lemma get_field_at {T} (as_t : RustObj -> option T) s o p v t :
  pending (js_jvm s) = false -> rust_ptr (js_jvm s) o = Some p -> p ∉ js_held s ->
  js_boxes s !! p = Some v -> as_t v = Some t ->
  get_field as_t o s = JDone (p, t) (mkJState (js_jvm s) (js_boxes s) (p :: js_held s)).
Proof.
  intros Hp Ho Hh Hb Ht; unfold get_field. rewrite Hp, (get_field_free s o p Ho Hh), Hb; cbn. by rewrite Ht.
Qed.

Lemma get_at {T} (as_t : RustObj -> option T) s o p v t :
  pending (js_jvm s) = false -> rust_ptr (js_jvm s) o = Some p -> p ∉ js_held s ->
  js_boxes s !! p = Some v -> as_t v = Some t ->
  get as_t o s = JDone t (mkJState (js_jvm s) (js_boxes s) (p :: js_held s)).
Proof. intros; unfold get, mbind, jni_bind; by erewrite get_field_at. Qed.

Lemma holds_get {T} (as_t : RustObj -> option T) s o p v t :
  holds s o p v -> as_t v = Some t -> get as_t o s = JDone t (mkJState (js_jvm s) (js_boxes s) [p]).
Proof. intros [Hp Hh Ho Hb] Ht; erewrite get_at; [by rewrite Hh|done|done|rewrite Hh; set_solver|done|done]. Qed.

Lemma holds_get_field {T} (as_t : RustObj -> option T) s o p v t :
  holds s o p v -> as_t v = Some t ->
  get_field as_t o s = JDone (p, t) (mkJState (js_jvm s) (js_boxes s) [p]).
Proof.
  intros [Hp Hh Ho Hb] Ht; erewrite get_field_at; [by rewrite Hh|done|done|rewrite Hh; set_solver|done|done].
Qed.

(** [advance] called [n] times, while it returns. *)
Fixpoint advance_calls (n : nat) (obj : JObject) (s : St) : option St :=
  match n with
  | O => Some s
  | S n => match android_call (MKexRng (KexRng_advance obj)) s with
           | Value _ s => advance_calls n obj s
           | _ => None
           end
  end.

Lemma advance_call_value s obj p r :
  holds s obj p (OKexRng r) ->
  exists s', android_call (MKexRng (KexRng_advance obj)) s = Value RVoid s'
    /\ holds s' obj p (OKexRng (advance blake2b r)).
Proof.
  intros Hs; eexists; split.
  - cbn [android_call ClientKexRng_call]; unfold void, jni_ffi_call, jni_ffi_call_or, mbind, jni_bind.
    rewrite (holds_get_field as_kex_rng _ _ _ _ _ Hs eq_refl). reflexivity.
  - destruct Hs as [Hp Hh Ho Hb]; split; cbn; try done. by rewrite lookup_insert_eq.
Qed.

Lemma advance_calls_value n s obj p r :
  holds s obj p (OKexRng r) ->
  exists s', advance_calls n obj s = Some s' /\ holds s' obj p (OKexRng (advance_n blake2b n r)).
Proof.
  revert s r; induction n as [|n IH]; intros s r Hs; [by exists s|]. cbn [advance_calls].
  destruct (advance_call_value s obj p r Hs) as (s1&->&Hs1).
  destruct (IH s1 _ Hs1) as (s'&E&Hs'). exists s'; split; [done|]. by rewrite <- advance_n_S.
Qed.

Lemma init_call_value s obj view_key pv b pubkey version bs r :
  holds s view_key pv (OPrivate b) -> rust_ptr (js_jvm s) obj = None ->
  (forall t v, rust_ptr (js_jvm t) obj = None -> (set_rust_field t obj v).1 = Ok tt) ->
  convert_byte_array (js_jvm s) pubkey = Ok bs ->
  versioned_try_from_kex_pubkey blake2b (mkKexRngPubkey bs (as_u32 version)) b = Ok r ->
  exists s' p, android_call (MKexRng (KexRng_init obj view_key pubkey version)) s = Value RVoid s'
    /\ holds s' obj p (OKexRng r).
Proof.
  intros Hs Ho Hset Hbs Hr; set (t := mkJState (js_jvm s) (js_boxes s) [pv]).
  pose proof (holds_idle _ _ _ _ Hs) as Hp.
  destruct (set_field_null t obj (OKexRng r) Ho) as [[e E]|(p&j'&Hp'&E&Ho'&_&Hpend)].
  { specialize (Hset t (OKexRng r) Ho). by rewrite E in Hset. }
  exists (mkJState j' (<[p := OKexRng r]> (js_boxes s)) []), p; split.
  - cbn [android_call ClientKexRng_call]; unfold void, jni_ffi_call, jni_ffi_call_or, mbind, jni_bind.
    rewrite (holds_get as_private _ _ _ _ _ Hs eq_refl); unfold byte_array, env_read; cbn [js_jvm].
    rewrite Hp, Hbs; cbn [try]; unfold mret, jni_ret; rewrite Hr; cbn [try];
    unfold mret, jni_ret, set_field; cbn [js_jvm].
    rewrite Hp; fold t; rewrite E; reflexivity.
  - split; cbn; [by rewrite Hpend|done|done|by rewrite lookup_insert_eq].
Qed.

(** What Java is handed is what the rng has; the rng stays. *)
Lemma get_output_value s obj p r a j' :
  holds s obj p (OKexRng r) -> byte_array_from_slice (js_jvm s) (peek r) = (Ok a, j') ->
  android_call (MKexRng (KexRng_get_output obj)) s = Value (RBytes a) (mkJState j' (js_boxes s) []).
Proof.
  intros Hs E; cbn [android_call ClientKexRng_call]; unfold or_null_bytes, jni_ffi_call_or, mbind, jni_bind.
  rewrite (holds_get as_kex_rng _ _ _ _ _ Hs eq_refl); unfold new_bytes, env_make; cbn [js_jvm].
  by rewrite (holds_idle _ _ _ _ Hs), E.
Qed.

Lemma get_next_value s obj p r m a j' :
  holds s obj p (OKexRng r) ->
  new_bytes_array (js_jvm s) (rng_take blake2b (Z.to_nat (as_u64 m)) r) = (Ok a, j') ->
  android_call (MKexRng (KexRng_get_next_n obj m)) s = Value (RArray a) (mkJState j' (js_boxes s) []).
Proof.
  intros Hs E; cbn [android_call ClientKexRng_call]; unfold jni_ffi_call_or, mbind, jni_bind.
  rewrite (holds_get as_kex_rng _ _ _ _ _ Hs eq_refl); unfold env_make; cbn [js_jvm].
  by rewrite (holds_idle _ _ _ _ Hs), E.
Qed.

(** C9: a phone that is given the public key an ingest enclave published draws
    exactly the search keys the enclave writes.  The object that [init] makes
    from the user's view key and the published key moves one key on with each
    [advance], [get_output] returns the key it stands at and [get_next_n] that
    key and the following ones, both without moving. *)
Theorem phone_draws_enclave_keys `{!KexLaws K} s obj view_key pv a b pubkey version n kp rng :
  versioned_new_from_static_static blake2b a (public_from b) = (kp, rng) ->
  holds s view_key pv (OPrivate b) -> rust_ptr (js_jvm s) obj = None ->
  (forall t v, rust_ptr (js_jvm t) obj = None -> (set_rust_field t obj v).1 = Ok tt) ->
  convert_byte_array (js_jvm s) pubkey = Ok (krp_public_key kp) -> as_u32 version = krp_version kp ->
  exists s1 s2, android_call (MKexRng (KexRng_init obj view_key pubkey version)) s = Value RVoid s1
    /\ advance_calls n obj s1 = Some s2
    /\ (forall arr j', byte_array_from_slice (js_jvm s2) (peek (advance_n blake2b n rng)) = (Ok arr, j') ->
        android_call (MKexRng (KexRng_get_output obj)) s2 = Value (RBytes arr) (mkJState j' (js_boxes s2) []))
    /\ (forall m arr j', is_u64 m ->
        new_bytes_array (js_jvm s2)
          (map (fun i => peek (advance_n blake2b (n + i) rng)) (seq 0 (Z.to_nat m))) = (Ok arr, j') ->
        android_call (MKexRng (KexRng_get_next_n obj m)) s2 = Value (RArray arr) (mkJState j' (js_boxes s2) [])).
Proof.
  intros Hk Hs Ho Hset Hbs Hv.
  pose proof (new_from_static_static_sync blake2b a b) as Hsync; rewrite Hk in Hsync.
  assert (versioned_try_from_kex_pubkey blake2b (mkKexRngPubkey (krp_public_key kp) (as_u32 version)) b = Ok rng)
    as Hr by (rewrite Hv; by destruct kp).
  destruct (init_call_value _ _ _ _ _ _ _ _ _ Hs Ho Hset Hbs Hr) as (s1&p&E1&Hs1).
  destruct (advance_calls_value n _ _ _ _ Hs1) as (s2&E2&Hs2).
  exists s1, s2; split_and!; [done|done|intros; by eapply get_output_value|].
  intros m arr j' Hm E; eapply get_next_value; [done|].
  replace (as_u64 m) with m by (unfold as_u64, wrap64; by rewrite Z.mod_small). rewrite <- E; f_equal. apply list_eq; intros i.
  destruct (decide (i < Z.to_nat m)%nat) as [Hi|Hi].
  - rewrite rng_take_lookup, list_lookup_fmap, lookup_seq_lt by done; cbn.
    unfold advance_n; by rewrite Nat.add_comm, Nat.iter_add.
  - rewrite !lookup_ge_None_2; [done|..]; rewrite ?length_map, ?length_seq, ?rng_take_length; lia.
Qed.

(** ** Surprises *)

Lemma get_held {T} (as_t : RustObj -> option T) s o p :
  pending (js_jvm s) = false -> rust_ptr (js_jvm s) o = Some p -> p ∈ js_held s -> get as_t o s = JBlocks.
Proof.
  intros Hp Ho Hh; unfold get, get_field, mbind, jni_bind; by rewrite Hp, (get_field_held s o p Ho Hh).
Qed.

(** The contract is needed.  A Java program that passes one key as view and
    as spend key of an account or of an address blocks its thread forever, since
    the lock of the key is taken twice; and [get_report_id] on an account key
    that was finalized does not end in the exception alone, since the value to
    return with it is made by a Java call that is forbidden by then. *)
Theorem contract_is_needed s obj key p k (url id : JString) (auth : JByteArray) :
  (holds s key p (OPrivate k) ->
    android_call (MAccount (Account_init obj key key url auth id)) s = Hangs)
  /\ (forall pk, holds s key p (OPublic pk) ->
    android_call (MAddress (Address_init obj key key)) s = Hangs
    /\ android_call (MAddress (Address_init_with_fog obj key key url auth id)) s = Hangs)
  /\ (pending (js_jvm s) = false -> rust_ptr (js_jvm s) obj = None ->
    android_call (MAccountPart (Account_get_report_id obj)) s = Crashes).
Proof.
  assert (Hlock : forall {T} (as_t : RustObj -> option T) v, holds s key p v ->
    get as_t key (mkJState (js_jvm s) (js_boxes s) [p]) = JBlocks).
  { intros T as_t v [Hp _ Ho _]; apply (get_held _ _ _ p); cbn; try done; set_solver. }
  split_and!.
  - intros Hs; cbn [android_call AccountKey_call].
    unfold void, jni_ffi_call, jni_ffi_call_or, mbind, jni_bind.
    rewrite (holds_get as_private _ _ _ _ _ Hs eq_refl). by rewrite (Hlock _ _ _ Hs).
  - intros pk Hs; split; cbn [android_call PublicAddress_call];
      unfold void, jni_ffi_call, jni_ffi_call_or, mbind, jni_bind;
      rewrite (holds_get as_public _ _ _ _ _ Hs eq_refl); by rewrite (Hlock _ _ _ Hs).
  - intros Hp Ho; cbn [android_call AccountPart_call]; unfold jni_ffi_call_or, get, get_field, mbind, jni_bind.
    destruct (get_field_null s obj Ho) as [e ->]. rewrite Hp; unfold new_jstring, env_make; cbn [js_jvm drop_guards].
    by destruct (throw_pending (js_jvm s) (McJni e)) as [-> _].
Qed.

(** A session is lost when [attest_finish] is called again, or for the first time,
    with a response that cannot be read: the state is out of its object by then. *)
Theorem attest_finish_loses_session s rng obj p state auth_response verifier e :
  holds s obj p (OAttested state) -> (forall j, convert_byte_array j auth_response = Err e) ->
  exists s', android_call (MAttested (Attested_finish rng obj auth_response verifier)) s
      = Exception (McJni e) s'
    /\ rust_ptr (js_jvm s') obj = None /\ js_boxes s' = delete p (js_boxes s).
Proof.
  intros [Hp Hh Ho Hb] He; cbn [android_call AttestedClient_call].
  unfold void, jni_ffi_call, jni_ffi_call_or, take_field, mbind, jni_bind; rewrite Hp.
  destruct (take_field_free s obj p Ho) as (j'&->&Hn&_&Hpend); [rewrite Hh; set_solver|].
  cbn [js_boxes]; rewrite Hb; cbn [mbind option_bind as_attested]; unfold byte_array, env_read; cbn [js_jvm].
  rewrite Hpend, Hp, He; eexists; split; [reflexivity|]; cbn.
  by destruct (throw_pending j' (McJni e)) as [_ ->].
Qed.
End facts.
