(* ===== verification/AndroidExamples.v ===== *)
(** * A small Java machine for the Android bindings

    Objects are a class and a number, fields are a function and arrays are
    values; the other crates are simple stand-ins.  The laws hold, and the
    theorems are applied to short Java programs. *)

From S2P Require Import Prelude FogTypes KexRng Jni Android AndroidSpec AndroidSafe AndroidFacts.

Local Open Scope Z_scope.

#[export] Instance JClass_eq_dec : EqDecision JClass.
Proof. solve_decision. Defined.

#[export] Instance demo_crates : @AndroidCrates demo_kex := {|
  Entropy := Z;
  private_try_from bs := if (length bs =? 32)%nat then Ok bs else Err 1;
  private_from_seed bs := bs;
  private_to_bytes k := k;
  public_try_from_bytes bs := if (length bs =? 32)%nat then Ok bs else Err 1;
  blake2b := demo_hash;
  kex_error _ := 0;
  Commitment := bytes;
  commitment_try_from bs := Ok bs;
  create_shared_secret p _ := p;
  amount_get_value _ v _ := Ok (v, []);
  PrintableWrapper := bytes;
  b58_decode bs := Ok bs;
  b58_encode w := Ok w;
  wrapper_parse bs := Ok bs;
  wrapper_write w := Ok w;
  Mnemonic := bytes;
  mnemonic_from_phrase bs := Ok bs;
  mnemonic_from_entropy bs := Ok bs;
  mnemonic_entropy m := m;
  mnemonic_to_string m := m;
  words_by_prefix _ := [];
  AccountKey := bytes * bytes;
  PublicAddress := bytes * bytes;
  account_new_with_fog s v _ _ _ := (s, v);
  account_from_root_identity e _ _ _ := (e, e);
  account_from_slip10 m _ := (m, m);
  view_private_key a := a.2;
  spend_private_key a := a.1;
  default_subaddress_view_private a := a.2;
  default_subaddress_spend_private a := a.1;
  default_subaddress a := a;
  account_fog_report_url _ := None;
  account_fog_authority_spki _ := None;
  account_fog_report_id _ := None;
  address_new s v := (s, v);
  address_new_with_fog s v _ _ _ := (s, v);
  view_public_key a := a.2;
  spend_public_key a := a.1;
  address_fog_authority_sig _ := None;
  address_fog_report_id _ := None;
  address_fog_report_url _ := None;
  ResponderId := bytes;
  responder_id_from_str bs := Ok bs;
  responder_id_to_string r := r;
  MrSignerVerifier := unit;
  MrEnclaveVerifier := unit;
  Verifier := unit;
  mr_signer_new _ _ _ := tt;
  mr_signer_config_advisory _ _ := tt;
  mr_signer_hardening_advisory _ _ := tt;
  mr_enclave_new _ := tt;
  mr_enclave_config_advisory _ _ := tt;
  mr_enclave_hardening_advisory _ _ := tt;
  DEBUG_ENCLAVE := false;
  verifier_default := tt;
  verifier_debug _ _ := tt;
  verifier_mr_signer _ _ := tt;
  verifier_mr_enclave _ _ := tt;
  AuthPending := Z;
  Ready := Z;
  ake_initiate rng _ := Ok (rng, [rng]);
  ake_finish _ p _ _ := Ok p;
  ready_binding r := [r];
  ready_encrypt r _ bs := (Ok bs, r + 1);
  ready_decrypt r _ bs := (Ok bs, r + 1);
  report_data_of bs := Ok bs;
  box_decrypt _ bs := Ok (true, bs);
  FogUri := bytes;
  fog_uri_from_str bs := Ok bs;
  fog_uri_to_string u := u;
  FogResolver := unit;
  fog_resolver_new _ _ := Ok tt;
  TxOut := bytes;
  TxOutMembershipProof := bytes;
  Tx := Z;
  tx_out_decode bs := Ok bs;
  tx_out_encode t := t;
  tx_out_public_key t := Ok t;
  proof_decode bs := Ok bs;
  tx_encode t := [t];
  recover_onetime_private_key _ v _ := v;
  key_image_from k := k;
  confirmation_validate _ _ _ := true;
  InputCredentials := unit;
  input_credentials_new _ _ _ _ _ := Ok tt;
  TransactionBuilder := Z;
  builder_new _ := 0;
  builder_add_input _ b := b;
  builder_add_output _ b v _ := (Ok ([v], [v]), b + v);
  builder_set_tombstone_block _ b := b;
  builder_set_fee v b := b + v;
  builder_build _ b := Ok b;
  u64_to_string v := [v];
|}.

(** ** The machine *)

Record DemoJvm := mkDemoJvm { dj_field : JClass * Z -> option positive; dj_pending : bool }.

Definition set_ptr (j : DemoJvm) (o : JClass * Z) (p : option positive) : DemoJvm :=
  mkDemoJvm (fun o' => if decide (o' = o) then p else dj_field j o') (dj_pending j).

Abbreviation DemoObj := (@RustObj demo_kex demo_crates).

#[export] Instance demo_jni : Jni DemoObj := {|
  JObject := JClass * Z;
  JByteArray := bytes;
  JString := bytes;
  JObjectArray := list (JClass * Z) * list bytes;
  Jvm := DemoJvm;
  null_bytes := [];
  null_string := [];
  null_object := (CPrivate, 0);
  null_array := ([], []);
  is_null_bytes a := (length a =? 0)%nat;
  rust_ptr := dj_field;
  pending := dj_pending;
  throw_new j _ := mkDemoJvm (dj_field j) true;
  convert_byte_array _ a := if (length a =? 0)%nat then Err 7 else Ok a;
  get_string _ a := Ok a;
  get_array_length _ a := Ok (length a.1 + length a.2)%nat;
  get_object_array_element _ a i := match a.1 !! i with Some o => Ok o | None => Err 3 end;
  get_string_array_element _ a i := match a.2 !! i with Some o => Ok o | None => Err 3 end;
  get_bytes_array_element _ a i := match a.2 !! i with Some o => Ok o | None => Err 3 end;
  byte_array_length _ a := Ok (length a);
  byte_array_from_slice j bs := (Ok bs, j);
  set_byte_array_region j _ _ _ := (Ok tt, j);
  new_string j bs := (Ok bs, j);
  new_bytes_array j l := (Ok ([], l), j);
  new_big_integer j _ bs := (Ok (CPrivate, le_combine (rev bs)), j);
  to_byte_array _ o := Ok (if o.2 <? 0 then rev (le_split 8 o.2) else 0 :: rev (le_split 8 o.2));
  set_rust_field s o v :=
    match dj_field (js_jvm s) o with
    | Some _ => (Err 5, s)
    | None =>
        let p := fresh (dom (js_boxes s)) in
        (Ok tt, mkJState (set_ptr (js_jvm s) o (Some p)) (<[p := v]> (js_boxes s)) (js_held s))
    end;
  get_rust_field s o :=
    match dj_field (js_jvm s) o with
    | None => LockError 4
    | Some p => if decide (p ∈ js_held s) then LockBlocks else LockedAt p
    end;
  take_rust_field s o :=
    match dj_field (js_jvm s) o with
    | None => (Err 4, s)
    | Some p =>
        if decide (p ∈ js_held s) then (Err 6, s)
        else (Ok p, mkJState (set_ptr (js_jvm s) o None) (js_boxes s) (js_held s))
    end;
|}.

#[export] Instance demo_jni_laws : JniLaws demo_jni.
Proof.
  split; cbn [demo_jni rust_ptr pending set_rust_field get_rust_field take_rust_field js_jvm Jvm JObject].
  - intros s o v Ho; right; rewrite Ho; eexists _, _; split_and!; [|reflexivity|..].
    + apply not_elem_of_dom, is_fresh.
    + cbn; by rewrite decide_True.
    + intros o' Hne; cbn; by rewrite decide_False.
    + done.
  - intros s o v p Ho; rewrite Ho; by eexists.
  - intros s o Ho; rewrite Ho; by eexists.
  - intros s o p Ho Hp; by rewrite Ho, decide_True.
  - intros s o p Ho Hp; by rewrite Ho, decide_False.
  - intros s o Ho; rewrite Ho; by eexists.
  - intros s o p Ho Hp; rewrite Ho, decide_True by done; by eexists.
  - intros s o p Ho Hp; rewrite Ho, decide_False by done; eexists; split_and!; [reflexivity|..]; cbn.
    + by rewrite decide_True.
    + intros o' Hne; by rewrite decide_False.
    + done.
  - done.
  - done.
  - done.
  - done.
  - done.
  - done.
Qed.

(** ** Short programs *)

Abbreviation DemoSt := (JState DemoJvm DemoObj).
Abbreviation demo_step := (@java_step demo_kex demo_crates demo_jni fst).

Definition demo_start : DemoSt := mkJState (mkDemoJvm (fun _ => None) false) ∅ [].
Definition demo_key : bytes := replicate 32 9.

(** The state after a call that returns. *)
Definition after (c : @AndroidCall demo_kex demo_crates demo_jni) (s : DemoSt) : DemoSt :=
  match android_call c s with Value _ s => s | _ => s end.

Definition makes_key : @AndroidCall demo_kex demo_crates demo_jni :=
  @MPrivate demo_kex demo_crates demo_jni (@Private_init demo_kex demo_crates demo_jni (CPrivate, 1) demo_key).
Definition gets_public : @AndroidCall demo_kex demo_crates demo_jni :=
  @MPrivate demo_kex demo_crates demo_jni (@Private_get_public demo_kex demo_crates demo_jni (CPrivate, 1)).
Definition reads_public : @AndroidCall demo_kex demo_crates demo_jni :=
  @MPublic demo_kex demo_crates demo_jni (@Public_get_bytes demo_kex demo_crates demo_jni (CPublic, 2)).

Definition has_key : DemoSt := after makes_key demo_start.
Definition has_both : DemoSt := after gets_public has_key.
Definition wrapped : DemoSt :=
  mkJState (set_ptr (js_jvm has_both) (CPublic, 2) (Some 2%positive)) (js_boxes has_both) (js_held has_both).

Lemma after_value c s r :
  match @android_call demo_kex demo_crates demo_jni c s with Value r' _ => r' = r | _ => False end ->
  @android_call demo_kex demo_crates demo_jni c s = Value r (after c s).
Proof. unfold after; destruct (android_call c s); [by intros ->|done..]. Qed.

(** Java makes a key, asks for its public key and wraps the address it gets. *)
Lemma demo_program : rtc demo_step (∅, demo_start) (delete 2%positive (<[2%positive := CPublic]> ∅), wrapped).
Proof.
  eapply rtc_l; [|eapply rtc_l; [|eapply rtc_l; [|apply rtc_refl]]].
  - apply (@java_gets_value demo_kex demo_crates demo_jni fst ∅ demo_start makes_key RVoid has_key).
    + reflexivity.
    + reflexivity.
    + by intros p.
    + apply after_value; reflexivity.
  - apply (@java_gets_address demo_kex demo_crates demo_jni fst ∅ has_key gets_public 2%positive CPublic has_both).
    + reflexivity.
    + reflexivity.
    + reflexivity.
    + apply after_value; reflexivity.
  - apply (@java_wraps demo_kex demo_crates demo_jni fst (<[2%positive := CPublic]> ∅) has_both 2%positive
      CPublic (CPublic, 2)).
    + reflexivity.
    + reflexivity.
    + reflexivity.
    + reflexivity.
    + intros o' Hne; unfold wrapped, set_ptr; cbn [js_jvm rust_ptr demo_jni dj_field]; by rewrite decide_False.
Qed.

Lemma android_memory_safe_witness :
  @java_inv demo_kex demo_crates demo_jni fst (delete 2%positive (<[2%positive := CPublic]> ∅), wrapped)
  /\ (dj_pending (js_jvm wrapped) = false ->
      match @android_call demo_kex demo_crates demo_jni reads_public wrapped with
      | Value _ _ | Exception _ _ => True
      | Hangs | Crashes => False
      end).
Proof.
  destruct (@android_memory_safe demo_kex demo_crates demo_jni demo_jni_laws fst ∅ demo_start
    (delete 2%positive (<[2%positive := CPublic]> ∅)) wrapped reads_public) as [Hi Hc].
  - split; [reflexivity|]. split; [reflexivity|]. split; [reflexivity|]. intros o; reflexivity.
  - exact demo_program.
  - split; [exact Hi|]. intros Hp; apply (Hc Hp). reflexivity.
Defined.

(** The amount 5, and -1 which is read as [2^64 - 1]. *)
Lemma big_int_to_u64_correct_witness :
  @jni_big_int_to_u64 _ demo_jni (CTx, 5) demo_start = JDone 5 demo_start
  /\ @jni_big_int_to_u64 _ demo_jni (CTx, -1) demo_start = JDone 18446744073709551615 demo_start.
Proof.
  assert (Hb : forall n z, Forall is_byte (rev (le_split n z))) by (intros; apply Forall_rev, le_split_bytes).
  destruct (@big_int_to_u64_correct demo_kex demo_crates demo_jni demo_start (CTx, 5)
    (0 :: rev (le_split 8 5)) eq_refl eq_refl) as [H5 _].
  { constructor; [unfold is_byte; lia|apply Hb]. }
  destruct (@big_int_to_u64_correct demo_kex demo_crates demo_jni demo_start (CTx, -1)
    (rev (le_split 8 (-1))) eq_refl eq_refl (Hb 8%nat (-1))) as (_&_&Hm).
  assert (E5 : signed_be (0 :: rev (le_split 8 5)) = 5) by (vm_compute; reflexivity).
  assert (Em : signed_be (rev (le_split 8 (-1))) = -1) by (vm_compute; reflexivity).
  rewrite E5 in H5; rewrite Em in Hm. split.
  - apply H5; unfold is_u64, u64_modulus; lia.
  - apply Hm; [lia|]. rewrite length_rev, le_split_length; lia.
Defined.

(** The enclave has key [5] and the user key [7]. *)
Definition demo_pubkey : KexRngPubkey * VersionedKexRng :=
  versioned_new_from_static_static (K := demo_kex) demo_hash [5] [7].

Definition has_view_key : DemoSt :=
  mkJState (mkDemoJvm (fun o => if decide (o = (CPrivate, 1)) then Some 1%positive else None) false)
    {[1%positive := @OPrivate demo_kex demo_crates [7]]} [].

Lemma has_view_key_holds :
  @holds demo_kex demo_crates demo_jni has_view_key (CPrivate, 1) 1 (@OPrivate demo_kex demo_crates [7]).
Proof. split; reflexivity. Qed.

Abbreviation demo_rng_call m := (@MKexRng demo_kex demo_crates demo_jni m).

Lemma phone_draws_enclave_keys_witness :
  exists s1 s2,
    android_call (demo_rng_call (@KexRng_init demo_kex demo_crates demo_jni (CKexRng, 3) (CPrivate, 1)
      (krp_public_key demo_pubkey.1) (krp_version demo_pubkey.1))) has_view_key = Value RVoid s1
    /\ @advance_calls demo_kex demo_crates demo_jni 2 (CKexRng, 3) s1 = Some s2
    /\ android_call (demo_rng_call (@KexRng_get_output demo_kex demo_crates demo_jni (CKexRng, 3))) s2
      = Value (@RBytes _ demo_crates demo_jni (peek (advance_n demo_hash 2 demo_pubkey.2)))
          (mkJState (js_jvm s2) (js_boxes s2) []).
Proof.
  destruct (@phone_draws_enclave_keys demo_kex demo_crates demo_jni demo_jni_laws demo_kex_laws has_view_key
    (CKexRng, 3) (CPrivate, 1) 1 [5] [7] (krp_public_key demo_pubkey.1) (krp_version demo_pubkey.1) 2
    demo_pubkey.1 demo_pubkey.2) as (s1&s2&H1&H2&H3&_).
  - reflexivity.
  - exact has_view_key_holds.
  - reflexivity.
  - intros t v Ho; cbn [set_rust_field demo_jni Jvm JObject]; cbn [rust_ptr demo_jni Jvm] in Ho. by rewrite Ho.
  - reflexivity.
  - reflexivity.
  - exists s1, s2; split; [exact H1|]. split; [exact H2|]. apply H3; reflexivity.
Defined.

Lemma contract_is_needed_witness :
  @android_call demo_kex demo_crates demo_jni (@MAccount demo_kex demo_crates demo_jni
    (@Account_init demo_kex demo_crates demo_jni (CAccount, 2) (CPrivate, 1) (CPrivate, 1) [] [] []))
    has_view_key = Hangs
  /\ @android_call demo_kex demo_crates demo_jni (@MAccountPart demo_kex demo_crates demo_jni
    (@Account_get_report_id demo_kex demo_crates demo_jni (CAccount, 2))) has_view_key = Crashes.
Proof.
  destruct (@contract_is_needed demo_kex demo_crates demo_jni demo_jni_laws has_view_key (CAccount, 2)
    (CPrivate, 1) 1 [7] [] [] []) as (H1&_&H3).
  split; [exact (H1 has_view_key_holds)|]. apply H3; reflexivity.
Defined.
