(* ===== verification/ServerLife.v ===== *)
(** * Starting and stopping the servers

    The objects that hold the gRPC servers and threads of the ingest server
    (src/fog/ingest/server/src/server.rs), the ledger server
    (src/fog/ledger/server/src/server.rs), the view server
    (src/fog/view/server/src/server.rs) and the report server: what runs after a start that succeeds
    or fails, after a stop and after the object is dropped.

    What runs in the process is a finite map.  gRPC, the thread that refreshes
    the attestation report and joining a thread are foreign: [Platform]. *)

From S2P Require Import Prelude.

Local Open Scope Z_scope.

(** ** The process *)

Inductive Service :=
| AccountIngestApi | AccountIngestPeerApi | AttestedApi | HealthApi
| FogKeyImageApi | FogMerkleProofApi | FogBlockApi | FogUntrustedTxOutApi | FogViewApi | ReportApi.

Inductive Task :=
| GrpcServer (uri : bytes) (services : list Service)
| ReportCacheThread
| IngestWorkerThread
| PeerCheckupThread (period : Z)
| DbPollerThread.

(** [join_thread]: [None] if the thread never ends, [false] if it panicked. *)
Class Platform := {
  World : Type;
  build_server : World -> bytes -> list Service -> result unit Z * World;
  shutdown_server : World -> positive -> result unit Z * World;
  (** [shutdown] of a server that does not run, and [start] of one that was shut down:
      whether it runs again. *)
  shutdown_idle : World -> result unit Z * World;
  start_again : World -> bool * World;
  spawn_thread : World -> bool * World;
  report_cache_start : World -> result unit Z * World;
  report_cache_stop : World -> positive -> result unit Z * World;
  join_thread : World -> positive -> option bool * World;
}.

(** Threads can be made, and nothing that is stopped fails or hangs. *)
Class Polite (P : Platform) : Prop := {
  polite_spawn : forall w, (spawn_thread w).1 = true;
  polite_idle : forall w, (shutdown_idle w).1 = Ok tt;
  polite_shutdown : forall w p, (shutdown_server w p).1 = Ok tt;
  polite_report : forall w p, (report_cache_stop w p).1 = Ok tt;
  polite_join : forall w p, (join_thread w p).1 = Some true;
}.

(** How a method of a server object ends; [Waits] is forever. *)
Inductive ended (S A : Type) :=
| Returned (a : A) (s : S)
| Unwound (s : S)
| Waits.
Global Arguments Returned {S A}.
Global Arguments Unwound {S A}.
Global Arguments Waits {S A}.

Section life.
Context `{P : Platform}.

Record Proc := mkProc { running : gmap positive Task; proc_world : World }.

(** A method of an object of type [S]. *)
Definition life (S A : Type) : Type := S * Proc -> ended (S * Proc) A.

#[export] Instance life_ret S : MRet (life S) := fun A a s => Returned a s.
#[export] Instance life_bind S : MBind (life S) := fun A B f m s =>
  match m s with
  | Returned a s => f a s
  | Unwound s => Unwound s
  | Waits => Waits
  end.

Section ops.
Context {S : Type}.

Definition unwind {A} : life S A := fun s => Unwound s.
Definition self : life S S := fun s => Returned s.1 s.
Definition put_self (x : S) : life S unit := fun s => Returned tt (x, s.2).

Definition on_world {A} (f : World -> A * World) : life S A := fun s =>
  let '(a, w) := f (proc_world s.2) in Returned a (s.1, mkProc (running s.2) w).

(** A new task, and the end of one. *)
Definition run_task (t : Task) : life S positive := fun s =>
  let p := fresh (dom (running s.2)) in
  Returned p (s.1, mkProc (<[p := t]> (running s.2)) (proc_world s.2)).
Definition end_task (p : positive) : life S unit := fun s =>
  Returned tt (s.1, mkProc (delete p (running s.2)) (proc_world s.2)).

(** [thread::spawn], and [spawn(..).expect(..)]. *)
Definition spawn (t : Task) : life S positive :=
  ok ← on_world spawn_thread; if (ok : bool) then run_task t else unwind.

(** Dropping the handle of a gRPC server or of the report cache thread ends it. *)
Definition drop_task (o : option positive) : life S unit :=
  match o with Some p => end_task p | None => mret tt end.

(** [block_on(server.shutdown()).expect(..)]. *)
Definition shutdown (p : positive) : life S unit :=
  r ← on_world (fun w => shutdown_server w p);
  end_task p;;
  match r with Ok _ => mret tt | Err _ => unwind end.

(** [thread.join().expect(..)] after the stop request. *)
Definition join (p : positive) : life S unit :=
  r ← on_world (fun w => join_thread w p);
  match r with
  | None => fun _ => Waits
  | Some ok => end_task p;; if (ok : bool) then mret tt else unwind
  end.

Definition stop_report_cache (p : positive) : life S unit :=
  r ← on_world (fun w => report_cache_stop w p);
  end_task p;;
  match r with Ok _ => mret tt | Err _ => unwind end.

Definition when_some (o : option positive) (f : positive -> life S unit) : life S unit :=
  match o with Some p => f p | None => mret tt end.

(** [?]. *)
Definition and_then {A B} (m : life S (result A Z)) (f : A -> life S (result B Z)) : life S (result B Z) :=
  r ← m; match r with Ok a => f a | Err e => mret (Err e) end.

(** [server_builder.build()?] and [server.start()]. *)
Definition serve (uri : bytes) (services : list Service) : life S (result positive Z) :=
  and_then (on_world (fun w => build_server w uri services)) (fun _ =>
  p ← run_task (GrpcServer uri services); mret (Ok p)).
End ops.
End life.

(** ** The ingest server *)

Section ingest.
Context `{P : Platform}.

(** The configuration, as far as the server object uses it. *)
Record IngestLifeConfig := mkIngestLifeConfig {
  ilc_local_node_id : bytes;
  ilc_client_listen_uri : bytes;
  ilc_peer_listen_uri : bytes;
  ilc_peers : gset (list Z);
  ilc_peer_checkup_period : option Z;
}.

(** The controller is modelled in [IngestController]; the server object makes it
    and has it refresh the report cache. *)
Context {Ctl : Type} (controller_new : IngestLifeConfig -> run Ctl)
  (update_enclave_report_cache : Ctl -> result unit Z * Ctl)
  (uri_responder_id : bytes -> result bytes Z).

Record IngestServer := mkIngestServer {
  is_config : IngestLifeConfig;
  is_controller : Ctl;
  is_server : option positive;
  is_peer_server : option positive;
  is_ingest_worker : option positive;
  is_peer_checkup_worker : option positive;
}.

(** The responder ids of the peers; a uri without one panics. *)
Fixpoint responder_ids (uris : list bytes) : run (gset (list Z)) :=
  match uris with
  | [] => Ret ∅
  | uri :: uris =>
      match uri_responder_id uri with
      | Err _ => Panic
      | Ok id => ids ← responder_ids uris; Ret ({[id]} ∪ ids)
      end
  end.

Definition IngestServer_new (config : IngestLifeConfig) : run IngestServer :=
  peer_responder_ids ← responder_ids (elements (ilc_peers config));
  if negb (size peer_responder_ids =? size (ilc_peers config))%nat then Panic
  else if negb (bool_decide (ilc_local_node_id config ∈ peer_responder_ids)) then Panic
  else
    controller ← controller_new config;
    Ret (mkIngestServer config controller None None None None).

Definition client_services : list Service := [AccountIngestApi; HealthApi].
Definition peer_services : list Service := [AttestedApi; AccountIngestPeerApi; HealthApi].

(** [self.server = Some(server)]: the old value is dropped. *)
Definition set_server (o : option positive) : life IngestServer unit :=
  x ← self;
  put_self (mkIngestServer (is_config x) (is_controller x) o (is_peer_server x) (is_ingest_worker x)
    (is_peer_checkup_worker x));;
  drop_task (is_server x).
Definition set_peer_server (o : option positive) : life IngestServer unit :=
  x ← self;
  put_self (mkIngestServer (is_config x) (is_controller x) (is_server x) o (is_ingest_worker x)
    (is_peer_checkup_worker x));;
  drop_task (is_peer_server x).

(** The fields that are empty when they are written, or taken out before. *)
Definition put_ingest_worker (o : option positive) : life IngestServer unit :=
  x ← self;
  put_self (mkIngestServer (is_config x) (is_controller x) (is_server x) (is_peer_server x) o
    (is_peer_checkup_worker x)).
Definition put_peer_checkup_worker (o : option positive) : life IngestServer unit :=
  x ← self;
  put_self (mkIngestServer (is_config x) (is_controller x) (is_server x) (is_peer_server x)
    (is_ingest_worker x) o).
Definition take_server : life IngestServer (option positive) :=
  x ← self;
  put_self (mkIngestServer (is_config x) (is_controller x) None (is_peer_server x) (is_ingest_worker x)
    (is_peer_checkup_worker x));;
  mret (is_server x).
Definition take_peer_server : life IngestServer (option positive) :=
  x ← self;
  put_self (mkIngestServer (is_config x) (is_controller x) (is_server x) None (is_ingest_worker x)
    (is_peer_checkup_worker x));;
  mret (is_peer_server x).

Definition refresh_report : life IngestServer (result unit Z) :=
  x ← self;
  let '(r, controller) := update_enclave_report_cache (is_controller x) in
  put_self (mkIngestServer (is_config x) controller (is_server x) (is_peer_server x) (is_ingest_worker x)
    (is_peer_checkup_worker x));;
  mret r.

Definition start_ingest_rpc_server : life IngestServer (result unit Z) :=
  x ← self;
  and_then (serve (ilc_client_listen_uri (is_config x)) client_services) (fun server =>
  set_server (Some server);; mret (Ok tt)).

Definition start_peer_rpc_server : life IngestServer (result unit Z) :=
  x ← self;
  and_then (serve (ilc_peer_listen_uri (is_config x)) peer_services) (fun server =>
  set_peer_server (Some server);; mret (Ok tt)).

Definition start_ingest_worker : life IngestServer (result unit Z) :=
  x ← self;
  match is_ingest_worker x with
  | Some _ => unwind
  | None => p ← spawn IngestWorkerThread; put_ingest_worker (Some p);; mret (Ok tt)
  end.

Definition start_peer_checkup_worker : life IngestServer (result unit Z) :=
  x ← self;
  match is_peer_checkup_worker x with
  | Some _ => unwind
  | None =>
      match ilc_peer_checkup_period (is_config x) with
      | Some period => p ← spawn (PeerCheckupThread period); put_peer_checkup_worker (Some p);; mret (Ok tt)
      | None => mret (Ok tt)
      end
  end.

Definition start_helper : life IngestServer (result unit Z) :=
  and_then refresh_report (fun _ =>
  and_then start_ingest_rpc_server (fun _ =>
  and_then start_peer_rpc_server (fun _ =>
  and_then start_ingest_worker (fun _ =>
  start_peer_checkup_worker)))).

(** [drop] of the workers (worker.rs): request the stop and join. *)
Definition IngestServer_stop : life IngestServer unit :=
  x ← self;
  put_ingest_worker None;;
  when_some (is_ingest_worker x) join;;
  put_peer_checkup_worker None;;
  when_some (is_peer_checkup_worker x) join;;
  peer_server ← take_peer_server;
  when_some peer_server shutdown;;
  server ← take_server;
  when_some server shutdown.

Definition IngestServer_start : life IngestServer (result unit Z) :=
  ret ← start_helper;
  match ret with
  | Err e => IngestServer_stop;; mret (Err e)
  | Ok _ => mret ret
  end.
End ingest.

(** ** The ledger server *)

Section ledger.
Context `{P : Platform}.

(** A server object: running, or shut down and still there. *)
Inductive handle := Up (p : positive) | Down.

Record LedgerServer := mkLedgerServer {
  ls_client_listen_uri : bytes;
  ls_server : option handle;
  ls_report_cache_thread : option positive;
}.

Definition LedgerServer_new (client_listen_uri : bytes) : LedgerServer :=
  mkLedgerServer client_listen_uri None None.

Definition ledger_services : list Service :=
  [FogKeyImageApi; FogMerkleProofApi; FogBlockApi; FogUntrustedTxOutApi; HealthApi].

Definition running_handle (o : option handle) : option positive :=
  match o with Some (Up p) => Some p | _ => None end.

Definition start_report_cache {S} : life S (result positive Z) :=
  and_then (on_world report_cache_start) (fun _ => p ← run_task ReportCacheThread; mret (Ok p)).

Definition shutdown_handle {S} (h : handle) : life S unit :=
  match h with
  | Up p => shutdown p
  | Down => r ← on_world shutdown_idle; match r with Ok _ => mret tt | Err _ => unwind end
  end.

Definition LedgerServer_stop : life LedgerServer unit :=
  x ← self;
  match ls_server x with
  | Some h =>
      put_self (mkLedgerServer (ls_client_listen_uri x) (Some Down) (ls_report_cache_thread x));;
      shutdown_handle h
  | None => mret tt
  end;;
  x ← self;
  put_self (mkLedgerServer (ls_client_listen_uri x) (ls_server x) None);;
  when_some (ls_report_cache_thread x) stop_report_cache.

(** The [?] operators leave the method, not the block whose value is [ret]. *)
Definition LedgerServer_start : life LedgerServer (result unit Z) :=
  and_then start_report_cache (fun thread =>
  x ← self;
  put_self (mkLedgerServer (ls_client_listen_uri x) (ls_server x) (Some thread));;
  drop_task (ls_report_cache_thread x);;
  and_then (serve (ls_client_listen_uri x) ledger_services) (fun server =>
  x ← self;
  put_self (mkLedgerServer (ls_client_listen_uri x) (Some (Up server)) (ls_report_cache_thread x));;
  drop_task (running_handle (ls_server x));;
  let ret := Ok tt in
  match ret with Err _ => LedgerServer_stop | Ok _ => mret tt end;;
  mret ret)).
End ledger.

(** ** The view server *)

Section view.
Context `{P : Platform}.

Record PollThread := mkPollThread {
  pt_join_handle : option positive;
  pt_stop_requested : bool;
}.

(** [Built]: bound to its port in [new], not started. *)
Inductive ViewGrpc := Built | Started (h : handle).

Record ViewServer := mkViewServer {
  vs_server : ViewGrpc;
  vs_report_cache_thread : option positive;
  vs_db_poll_thread : PollThread;
}.

Definition view_services : list Service := [FogViewApi; HealthApi].

Definition ViewServer_new (client_listen_uri : bytes) (w : World) : run (ViewServer * World) :=
  match build_server w client_listen_uri view_services with
  | (Ok _, w) => Ret (mkViewServer Built None (mkPollThread None false), w)
  | (Err _, _) => Panic
  end.

(** [DbPollThread::start] and [stop]. *)
Definition db_poll_start : life ViewServer unit :=
  x ← self;
  match pt_join_handle (vs_db_poll_thread x) with
  | Some _ => unwind
  | None =>
      p ← spawn DbPollerThread;
      put_self (mkViewServer (vs_server x) (vs_report_cache_thread x)
        (mkPollThread (Some p) (pt_stop_requested (vs_db_poll_thread x))))
  end.

Definition db_poll_stop : life ViewServer unit :=
  x ← self;
  match pt_join_handle (vs_db_poll_thread x) with
  | Some p =>
      put_self (mkViewServer (vs_server x) (vs_report_cache_thread x) (mkPollThread None true));; join p
  | None => mret tt
  end.

Definition put_grpc (g : ViewGrpc) : life ViewServer unit :=
  x ← self; put_self (mkViewServer g (vs_report_cache_thread x) (vs_db_poll_thread x)).

(** [self.server.start()]. *)
Definition grpc_start (client_listen_uri : bytes) : life ViewServer unit :=
  x ← self;
  match vs_server x with
  | Built => p ← run_task (GrpcServer client_listen_uri view_services); put_grpc (Started (Up p))
  | Started (Up _) => mret tt
  | Started Down =>
      again ← on_world start_again;
      if (again : bool)
      then p ← run_task (GrpcServer client_listen_uri view_services); put_grpc (Started (Up p))
      else mret tt
  end.

Definition ViewServer_start (client_listen_uri : bytes) : life ViewServer unit :=
  r ← start_report_cache;
  match r with
  | Err _ => unwind
  | Ok thread =>
      x ← self;
      put_self (mkViewServer (vs_server x) (Some thread) (vs_db_poll_thread x));;
      drop_task (vs_report_cache_thread x);;
      db_poll_start;;
      grpc_start client_listen_uri
  end.

Definition ViewServer_stop : life ViewServer unit :=
  x ← self;
  put_self (mkViewServer (vs_server x) None (vs_db_poll_thread x));;
  when_some (vs_report_cache_thread x) stop_report_cache;;
  db_poll_stop;;
  x ← self;
  put_grpc (Started Down);;
  shutdown_handle match vs_server x with Started h => h | Built => Down end.
End view.

(** ** The report server (src/fog/report/server/src/server.rs) *)

Section report.
Context `{P : Platform}.

(** The application server is its gRPC server. *)
Definition report_services : list Service := [ReportApi; HealthApi].

Definition ReportServer_new (client_listen_uri : bytes) (w : World) : run (ViewGrpc * World) :=
  match build_server w client_listen_uri report_services with
  | (Ok _, w) => Ret (Built, w)
  | (Err _, _) => Panic
  end.

Definition ReportServer_start (client_listen_uri : bytes) : life ViewGrpc unit :=
  x ← self;
  match x with
  | Built => p ← run_task (GrpcServer client_listen_uri report_services); put_self (Started (Up p))
  | Started (Up _) => mret tt
  | Started Down =>
      again ← on_world start_again;
      if (again : bool)
      then p ← run_task (GrpcServer client_listen_uri report_services); put_self (Started (Up p))
      else mret tt
  end.

Definition ReportServer_stop : life ViewGrpc unit :=
  x ← self;
  put_self (Started Down);;
  shutdown_handle match x with Started h => h | Built => Down end.
End report.
