(* ===== verification/ServerLifeSpec.v ===== *)
(** * Nothing is left running

    What a server object runs is what it has handles for.  A start of the ingest
    server is all or nothing; a start of the ledger server that fails is not.
    Whatever was called before, also a start that panics, dropping a server
    object ends everything it started and nothing else. *)

From S2P Require Import Prelude ServerLife.

Local Open Scope Z_scope.

(** ** What an object owns *)

(** Besides [base] the tasks of [l] run, and nothing else. *)
Record owns (base : gmap positive Task) (l : list (positive * Task)) (m : gmap positive Task) : Prop := {
  owns_map : m = list_to_map l ∪ base;
  owns_once : NoDup l.*1;
  owns_apart : forall p, p ∈ l.*1 -> base !! p = None;
}.

Lemma owns_perm base l l' m : l ≡ₚ l' -> owns base l m -> owns base l' m.
Proof.
  intros Hl [Hm Hn Ha]; split.
  - by rewrite Hm, (list_to_map_proper l l' Hn Hl).
  - by rewrite <- Hl.
  - intros p; rewrite <- Hl; apply Ha.
Qed.

Lemma owns_run base l m t :
  owns base l m -> owns base ((fresh (dom m), t) :: l) (<[fresh (dom m) := t]> m).
Proof.
  intros [Hm Hn Ha]; set (p := fresh (dom m)).
  assert (Hp : m !! p = None) by (apply not_elem_of_dom, is_fresh).
  rewrite Hm in Hp; apply lookup_union_None in Hp as [Hl Hb]. split; cbn.
  - by rewrite Hm, insert_union_l.
  - constructor; [|done]. by apply not_elem_of_list_to_map.
  - intros q [->|Hq]%elem_of_cons; auto.
Qed.

Lemma owns_end base l m p t : owns base ((p, t) :: l) m -> owns base l (delete p m).
Proof.
  intros [Hm Hn Ha]; cbn in *; apply NoDup_cons in Hn as [Hp Hn].
  assert (Hb : base !! p = None) by (apply Ha; left). split; [|done|intros q Hq; apply Ha; by right].
  rewrite Hm, delete_union, delete_insert_id by (by apply not_elem_of_list_to_map).
  by rewrite (delete_id base) by done.
Qed.

(** The task of a field. *)
Definition slot (o : option positive) (t : Task) : list (positive * Task) :=
  match o with Some p => [(p, t)] | None => [] end.

Section rules.
Context `{P : Platform} {PP : Polite P} {S : Type} (slots : S -> list (positive * Task)).
Context (base : gmap positive Task).

(** From the object [x], with the tasks [l] that it has no handle for, [m] ends
    well; a panic leaves no task without a handle. *)
Definition sat {A} (x : S) (l : list (positive * Task)) (m : life S A)
  (Q : A -> S -> list (positive * Task) -> Prop) (U : S -> Prop) : Prop :=
  forall r w, owns base (l ++ slots x) r ->
  match m (x, mkProc r w) with
  | Returned a (x', p) => exists l', owns base (l' ++ slots x') (running p) /\ Q a x' l'
  | Unwound (x', p) => owns base (slots x') (running p) /\ U x'
  | Waits => False
  end.

Lemma sat_ret {A} x l (a : A) (Q : A -> S -> list (positive * Task) -> Prop) U : Q a x l -> sat x l (mret a) Q U.
Proof. intros HQ r w Hr; by exists l. Qed.

Lemma sat_bind {A B} x l (m : life S A) (f : A -> life S B) R Q U :
  sat x l m R U -> (forall a x' l', R a x' l' -> sat x' l' (f a) Q U) -> sat x l (m ≫= f) Q U.
Proof.
  intros Hm Hf r w Hr; specialize (Hm r w Hr); unfold mbind, life_bind.
  destruct (m (x, mkProc r w)) as [a [x' [r' w']]|[x' p]|]; [|done|done].
  destruct Hm as (l'&Hl'&HR); by apply (Hf a x' l' HR).
Qed.

Lemma sat_weaken {A} x l (m : life S A) (Q Q' : A -> S -> list (positive * Task) -> Prop) (U U' : S -> Prop) :
  sat x l m Q U -> (forall a x' l', Q a x' l' -> Q' a x' l') -> (forall x', U x' -> U' x') -> sat x l m Q' U'.
Proof.
  intros Hm HQ HU r w Hr; specialize (Hm r w Hr).
  destruct (m (x, mkProc r w)) as [a [x' p]|[x' p]|]; [|destruct Hm; auto|done].
  destruct Hm as (l'&?&?); exists l'; auto.
Qed.

Lemma sat_self {B} x l (f : S -> life S B) Q U : sat x l (f x) Q U -> sat x l (self ≫= f) Q U.
Proof. by intros H r w Hr; apply (H r w). Qed.

Lemma sat_put {B} x l x' l' (f : unit -> life S B) Q U :
  l ++ slots x ≡ₚ l' ++ slots x' -> sat x' l' (f tt) Q U -> sat x l (put_self x' ≫= f) Q U.
Proof. intros Hp H r w Hr; apply (H r w). by apply (owns_perm _ _ _ _ Hp). Qed.

Lemma sat_put_last x l x' l' Q U :
  l ++ slots x ≡ₚ l' ++ slots x' -> Q tt x' l' -> sat x l (put_self x') Q U.
Proof. intros Hp HQ r w Hr; exists l'; split; [|done]. by apply (owns_perm _ _ _ _ Hp). Qed.

Lemma sat_unwind {A} x (Q : A -> S -> list (positive * Task) -> Prop) (U : S -> Prop) :
  U x -> sat x [] unwind Q U.
Proof. intros HU r w Hr; by split. Qed.

Lemma sat_world {A B} x l (g : World -> A * World) (f : A -> life S B) Q U :
  (forall w, sat x l (f (g w).1) Q U) -> sat x l (on_world g ≫= f) Q U.
Proof.
  intros H r w Hr; unfold on_world, mbind, life_bind; cbn.
  pose proof (H w r) as Hw; destruct (g w) as [a w']; by apply Hw.
Qed.

Lemma sat_run {B} x l t (f : positive -> life S B) Q U :
  (forall p, sat x ((p, t) :: l) (f p) Q U) -> sat x l (run_task t ≫= f) Q U.
Proof. intros H r w Hr; apply H; cbn [app running snd]. by apply owns_run. Qed.

Lemma sat_end {B} x l p t (f : unit -> life S B) Q U :
  sat x l (f tt) Q U -> sat x ((p, t) :: l) (end_task p ≫= f) Q U.
Proof. intros H r w Hr; apply H. by eapply owns_end. Qed.

Lemma sat_end_last x l p t (Q : unit -> S -> list (positive * Task) -> Prop) U :
  Q tt x l -> sat x ((p, t) :: l) (end_task p) Q U.
Proof. intros H r w Hr; exists l; split; [|done]. by eapply owns_end. Qed.

(** Stopping is uneventful. *)
Lemma sat_shutdown x l p t (Q : unit -> S -> list (positive * Task) -> Prop) U :
  Q tt x l -> sat x ((p, t) :: l) (shutdown p) Q U.
Proof.
  intros HQ; unfold shutdown; apply sat_world; intros w; rewrite polite_shutdown.
  apply (sat_end x l p t), sat_ret, HQ.
Qed.

Lemma sat_join x l p t (Q : unit -> S -> list (positive * Task) -> Prop) U :
  Q tt x l -> sat x ((p, t) :: l) (join p) Q U.
Proof.
  intros HQ; unfold join; apply sat_world; intros w; rewrite polite_join.
  apply (sat_end x l p t), sat_ret, HQ.
Qed.

Lemma sat_stop_report x l p t (Q : unit -> S -> list (positive * Task) -> Prop) U :
  Q tt x l -> sat x ((p, t) :: l) (stop_report_cache p) Q U.
Proof.
  intros HQ; unfold stop_report_cache; apply sat_world; intros w; rewrite polite_report.
  apply (sat_end x l p t), sat_ret, HQ.
Qed.

Lemma sat_spawn {B} x l t (f : positive -> life S B) Q U :
  (forall p, sat x ((p, t) :: l) (f p) Q U) -> sat x l (spawn t ≫= f) Q U.
Proof.
  intros H; apply (sat_bind _ _ _ _ (fun p x' l' => x' = x /\ l' = (p, t) :: l)).
  - unfold spawn; apply sat_world; intros w; rewrite polite_spawn. intros r w' Hr.
    exists ((fresh (dom r), t) :: l); split; [by apply owns_run|done].
  - intros p x' l' [-> ->]; apply H.
Qed.

Lemma sat_and_then {A B} x l (m : life S (result A Z)) (f : A -> life S (result B Z)) R Q U :
  sat x l m R U ->
  (forall a x' l', R (Ok a) x' l' -> sat x' l' (f a) Q U) ->
  (forall e x' l', R (Err e) x' l' -> Q (Err e) x' l') -> sat x l (and_then m f) Q U.
Proof.
  intros Hm Hok Herr; apply (sat_bind _ _ _ _ _ _ _ Hm).
  intros [a|e] x' l' HR; [by apply Hok|by apply sat_ret, Herr].
Qed.

Lemma sat_serve x l uri services (Q : result positive Z -> S -> list (positive * Task) -> Prop) U :
  (forall p, Q (Ok p) x ((p, GrpcServer uri services) :: l)) -> (forall e, Q (Err e) x l) ->
  sat x l (serve uri services) Q U.
Proof.
  intros Hok Herr; unfold serve, and_then; apply sat_world; intros w.
  destruct (build_server w uri services).1; [|by apply sat_ret].
  apply sat_run; intros p; by apply sat_ret.
Qed.

Lemma sat_report_cache x l (Q : result positive Z -> S -> list (positive * Task) -> Prop) U :
  (forall p, Q (Ok p) x ((p, ReportCacheThread) :: l)) -> (forall e, Q (Err e) x l) ->
  sat x l start_report_cache Q U.
Proof.
  intros Hok Herr; unfold start_report_cache, and_then; apply sat_world; intros w.
  destruct (report_cache_start w).1; [|by apply sat_ret].
  apply sat_run; intros p; by apply sat_ret.
Qed.

Lemma sat_assoc {A B D} x l (m : life S A) (f : A -> life S B) (g : B -> life S D) Q U :
  sat x l (m ≫= fun a => f a ≫= g) Q U -> sat x l ((m ≫= f) ≫= g) Q U.
Proof.
  intros H r w Hr; specialize (H r w Hr); unfold mbind, life_bind in *.
  by destruct (m (x, mkProc r w)).
Qed.

Lemma sat_ret_bind {A B} x l (a : A) (f : A -> life S B) Q U : sat x l (f a) Q U -> sat x l (mret a ≫= f) Q U.
Proof. by intros H r w Hr; apply H. Qed.

(** A handle that is replaced. *)
Lemma sat_drop {B} x l o t (f : unit -> life S B) Q U :
  sat x l (f tt) Q U -> sat x (slot o t ++ l) (drop_task o ≫= f) Q U.
Proof. intros HQ; destruct o as [p|]; cbn [slot app drop_task]; [by apply (sat_end x l p t)|by apply sat_ret_bind]. Qed.

Lemma sat_when {B} x l o t (m : positive -> life S unit) (f : unit -> life S B) Q U :
  (forall p (R : unit -> S -> list (positive * Task) -> Prop), R tt x l -> sat x ((p, t) :: l) (m p) R U) ->
  sat x l (f tt) Q U -> sat x (slot o t ++ l) (when_some o m ≫= f) Q U.
Proof.
  intros Hm Hf; destruct o as [p|]; cbn [slot app when_some]; [|by apply sat_ret_bind].
  apply (sat_bind _ _ _ _ (fun _ x' l' => x' = x /\ l' = l)); [by apply Hm|]. by intros [] ? ? [-> ->].
Qed.

Lemma sat_when_last x l o t (m : positive -> life S unit) Q U :
  (forall p (R : unit -> S -> list (positive * Task) -> Prop), R tt x l -> sat x ((p, t) :: l) (m p) R U) ->
  Q tt x l -> sat x (slot o t ++ l) (when_some o m) Q U.
Proof. intros Hm Hf; destruct o as [p|]; cbn [slot app when_some]; [by apply Hm|by apply sat_ret]. Qed.
End rules.

(** ** The ingest server *)

Section ingest_spec.
Context `{P : Platform} {PP : Polite P} {Ctl : Type}.
Context (controller_new : IngestLifeConfig -> run Ctl)
  (update_enclave_report_cache : Ctl -> result unit Z * Ctl)
  (uri_responder_id : bytes -> result bytes Z).
Context (base : gmap positive Task).

Abbreviation IS := (IngestServer (Ctl := Ctl)).
Abbreviation start := (IngestServer_start update_enclave_report_cache).

Definition checkup_task (config : IngestLifeConfig) : Task :=
  PeerCheckupThread (default 0 (ilc_peer_checkup_period config)).

Definition ingest_slots (x : IS) : list (positive * Task) :=
  slot (is_server x) (GrpcServer (ilc_client_listen_uri (is_config x)) client_services)
  ++ slot (is_peer_server x) (GrpcServer (ilc_peer_listen_uri (is_config x)) peer_services)
  ++ slot (is_ingest_worker x) IngestWorkerThread
  ++ slot (is_peer_checkup_worker x) (checkup_task (is_config x)).

Abbreviation isat := (sat ingest_slots base).

(** All fields are empty. *)
Definition stopped (x : IS) : Prop :=
  is_server x = None /\ is_peer_server x = None /\ is_ingest_worker x = None
  /\ is_peer_checkup_worker x = None.

(** All is there that the configuration asks for. *)
Definition started (x : IS) : Prop :=
  is_Some (is_server x) /\ is_Some (is_peer_server x) /\ is_Some (is_ingest_worker x)
  /\ (is_Some (is_peer_checkup_worker x) <-> is_Some (ilc_peer_checkup_period (is_config x))).

Lemma sat_put_worker {B} x l o (f : unit -> life IS B) Q U :
  isat (mkIngestServer (is_config x) (is_controller x) (is_server x) (is_peer_server x) o
    (is_peer_checkup_worker x)) (slot (is_ingest_worker x) IngestWorkerThread ++ l) (f tt) Q U ->
  isat x (slot o IngestWorkerThread ++ l) (put_ingest_worker o ≫= f) Q U.
Proof.
  intros H; apply sat_assoc, sat_self; eapply sat_put; [|exact H].
  unfold ingest_slots; cbn [is_config is_server is_peer_server is_ingest_worker is_peer_checkup_worker].
  solve_Permutation.
Qed.

Lemma sat_put_checkup {B} x l o (f : unit -> life IS B) Q U :
  isat (mkIngestServer (is_config x) (is_controller x) (is_server x) (is_peer_server x)
    (is_ingest_worker x) o) (slot (is_peer_checkup_worker x) (checkup_task (is_config x)) ++ l) (f tt) Q U ->
  isat x (slot o (checkup_task (is_config x)) ++ l) (put_peer_checkup_worker o ≫= f) Q U.
Proof.
  intros H; apply sat_assoc, sat_self; eapply sat_put; [|exact H].
  unfold ingest_slots; cbn [is_config is_server is_peer_server is_ingest_worker is_peer_checkup_worker].
  solve_Permutation.
Qed.

Lemma sat_take_peer {B} x l (f : option positive -> life IS B) Q U :
  isat (mkIngestServer (is_config x) (is_controller x) (is_server x) None (is_ingest_worker x)
    (is_peer_checkup_worker x))
    (slot (is_peer_server x) (GrpcServer (ilc_peer_listen_uri (is_config x)) peer_services) ++ l)
    (f (is_peer_server x)) Q U ->
  isat x l (take_peer_server ≫= f) Q U.
Proof.
  intros H; apply sat_assoc, sat_self, sat_assoc; eapply sat_put; [|apply sat_ret_bind; exact H].
  unfold ingest_slots; cbn [is_config is_server is_peer_server is_ingest_worker is_peer_checkup_worker slot app].
  solve_Permutation.
Qed.

Lemma sat_take_server {B} x l (f : option positive -> life IS B) Q U :
  isat (mkIngestServer (is_config x) (is_controller x) None (is_peer_server x) (is_ingest_worker x)
    (is_peer_checkup_worker x))
    (slot (is_server x) (GrpcServer (ilc_client_listen_uri (is_config x)) client_services) ++ l)
    (f (is_server x)) Q U ->
  isat x l (take_server ≫= f) Q U.
Proof.
  intros H; apply sat_assoc, sat_self, sat_assoc; eapply sat_put; [|apply sat_ret_bind; exact H].
  unfold ingest_slots; cbn [is_config is_server is_peer_server is_ingest_worker is_peer_checkup_worker slot app].
  solve_Permutation.
Qed.

Lemma ingest_stop_sat x U :
  isat x [] IngestServer_stop (fun _ x' l => stopped x' /\ is_config x' = is_config x /\ l = []) U.
Proof.
  unfold IngestServer_stop; apply sat_self.
  apply (sat_put_worker x [] None). apply sat_when; [intros; by apply sat_join|].
  apply (sat_put_checkup _ [] None). apply sat_when; [intros; by apply sat_join|].
  apply sat_take_peer. apply sat_when; [intros; by apply sat_shutdown|].
  apply sat_take_server. apply sat_when_last; [intros; by apply sat_shutdown|]. by split.
Qed.

Lemma sat_set_server {B} x l o (f : unit -> life IS B) Q U :
  isat (mkIngestServer (is_config x) (is_controller x) o (is_peer_server x) (is_ingest_worker x)
    (is_peer_checkup_worker x)) l (f tt) Q U ->
  isat x (slot o (GrpcServer (ilc_client_listen_uri (is_config x)) client_services) ++ l)
    (set_server o ≫= f) Q U.
Proof.
  intros H; apply sat_assoc, sat_self, sat_assoc; eapply sat_put; [|eapply sat_drop; exact H].
  unfold ingest_slots; cbn [is_config is_server is_peer_server is_ingest_worker is_peer_checkup_worker].
  solve_Permutation.
Qed.

Lemma sat_set_peer_server {B} x l o (f : unit -> life IS B) Q U :
  isat (mkIngestServer (is_config x) (is_controller x) (is_server x) o (is_ingest_worker x)
    (is_peer_checkup_worker x)) l (f tt) Q U ->
  isat x (slot o (GrpcServer (ilc_peer_listen_uri (is_config x)) peer_services) ++ l)
    (set_peer_server o ≫= f) Q U.
Proof.
  intros H; apply sat_assoc, sat_self, sat_assoc; eapply sat_put; [|eapply sat_drop; exact H].
  unfold ingest_slots; cbn [is_config is_server is_peer_server is_ingest_worker is_peer_checkup_worker].
  solve_Permutation.
Qed.

(** What the steps of a start keep: the configuration and the workers. *)
Definition same_workers (x x' : IS) : Prop :=
  is_config x' = is_config x /\ is_ingest_worker x' = is_ingest_worker x
  /\ is_peer_checkup_worker x' = is_peer_checkup_worker x.

Lemma refresh_report_sat x U :
  isat x [] (refresh_report update_enclave_report_cache)
    (fun _ x' l => same_workers x x' /\ l = []) U.
Proof.
  unfold refresh_report; apply sat_self. destruct (update_enclave_report_cache (is_controller x)) as [r ctl].
  apply (sat_put _ _ _ _ _ []); [done|]. by apply sat_ret.
Qed.

Lemma start_rpc_sat x U :
  isat x [] start_ingest_rpc_server
    (fun r x' l => same_workers x x' /\ l = [] /\ (r = Ok tt -> is_Some (is_server x'))) U.
Proof.
  unfold start_ingest_rpc_server; apply sat_self.
  eapply (sat_and_then _ _ _ _ _ _ (fun r x' l => x' = x /\ match r with
    | Ok p => l = slot (Some p) (GrpcServer (ilc_client_listen_uri (is_config x)) client_services)
    | Err _ => l = [] end)); [by apply sat_serve| |].
  - intros p x' l [-> ->]. apply (sat_set_server x [] (Some p)). by apply sat_ret.
  - by intros e x' l [-> ->].
Qed.

Lemma start_peer_rpc_sat x U :
  isat x [] start_peer_rpc_server
    (fun r x' l => same_workers x x' /\ is_server x' = is_server x /\ l = []
      /\ (r = Ok tt -> is_Some (is_peer_server x'))) U.
Proof.
  unfold start_peer_rpc_server; apply sat_self.
  eapply (sat_and_then _ _ _ _ _ _ (fun r x' l => x' = x /\ match r with
    | Ok p => l = slot (Some p) (GrpcServer (ilc_peer_listen_uri (is_config x)) peer_services)
    | Err _ => l = [] end)); [by apply sat_serve| |].
  - intros p x' l [-> ->]. apply (sat_set_peer_server x [] (Some p)). by apply sat_ret.
  - by intros e x' l [-> ->].
Qed.

(** Neither the servers nor the configuration change. *)
Definition same_servers (x x' : IS) : Prop :=
  is_config x' = is_config x /\ is_server x' = is_server x /\ is_peer_server x' = is_peer_server x.

Lemma start_worker_sat x (U : IS -> Prop) :
  (is_ingest_worker x <> None -> U x) ->
  isat x [] start_ingest_worker
    (fun r x' l => same_servers x x' /\ is_peer_checkup_worker x' = is_peer_checkup_worker x /\ l = []
      /\ is_Some (is_ingest_worker x')) U.
Proof.
  intros HU; unfold start_ingest_worker; apply sat_self. destruct (is_ingest_worker x) as [p|] eqn:E.
  - by apply sat_unwind, HU.
  - apply sat_spawn; intros p. apply (sat_put_worker x [] (Some p)). rewrite E.
    by apply sat_ret.
Qed.

Lemma start_checkup_sat x (U : IS -> Prop) :
  (is_peer_checkup_worker x <> None -> U x) ->
  isat x [] start_peer_checkup_worker
    (fun r x' l => same_servers x x' /\ is_ingest_worker x' = is_ingest_worker x /\ l = []
      /\ (is_Some (is_peer_checkup_worker x') <-> is_Some (ilc_peer_checkup_period (is_config x')))) U.
Proof.
  intros HU; unfold start_peer_checkup_worker; apply sat_self. destruct (is_peer_checkup_worker x) as [p|] eqn:E.
  { by apply sat_unwind, HU. }
  destruct (ilc_peer_checkup_period (is_config x)) as [period|] eqn:Ep.
  - apply sat_spawn; intros p. replace (PeerCheckupThread period) with (checkup_task (is_config x))
      by (unfold checkup_task; by rewrite Ep).
    apply (sat_put_checkup x [] (Some p)). rewrite E. by apply sat_ret; split_and!; try done; cbn; rewrite Ep.
  - apply sat_ret; split_and!; try done. by rewrite E, Ep.
Qed.

Lemma start_helper_sat x :
  isat x [] (start_helper update_enclave_report_cache)
    (fun r x' l => is_config x' = is_config x /\ l = [] /\ (r = Ok tt -> started x'))
    (fun x' => ~ stopped x).
Proof.
  unfold start_helper; eapply sat_and_then; [apply refresh_report_sat| |by intros e x' l [[? ?] ?]].
  intros [] x1 l1 [(C1&W1&K1) ->]. eapply sat_and_then; [apply start_rpc_sat| |].
  2: { intros e x' l ((C2&?&?)&->&_). split_and!; [congruence|done|done]. }
  intros [] x2 l2 ((C2&W2&K2)&->&S2). eapply sat_and_then; [apply start_peer_rpc_sat| |].
  2: { intros e x' l ((C3&?&?)&_&->&_). split_and!; [congruence|done|done]. }
  intros [] x3 l3 ((C3&W3&K3)&V3&->&S3). eapply sat_and_then; [apply start_worker_sat| |].
  { intros Hw (?&?&?&?); congruence. }
  2: { intros e x' l ((C4&_)&_&->&_). split_and!; [congruence|done|done]. }
  intros [] x4 l4 ((C4&V4&Y4)&K4&->&S4). eapply sat_weaken; [apply (start_checkup_sat x4 (fun _ => ~ stopped x))| |done].
  { intros Hw (?&?&?&?); congruence. }
  intros r x5 l5 ((C5&V5&Y5)&W5&->&K5). split_and!; [congruence|done|]. intros _; split_and!; try done.
  - rewrite V5, V4, V3. auto.
  - rewrite Y5, Y4. auto.
  - by rewrite W5.
Qed.

Lemma ingest_start_sat x :
  isat x [] start
    (fun r x' l => is_config x' = is_config x /\ l = []
      /\ match r with Ok _ => started x' | Err _ => stopped x' end)
    (fun x' => ~ stopped x).
Proof.
  unfold IngestServer_start; eapply sat_bind; [apply start_helper_sat|].
  intros [[]|e] x' l (C&->&H).
  - apply sat_ret; auto.
  - eapply sat_bind; [apply ingest_stop_sat|]. intros [] x2 l2 (Hs&C2&->). apply sat_ret; split_and!; try done.
    congruence.
Qed.
End ingest_spec.

(** ** Whole lifetimes *)

Inductive LifeCall := CallStart | CallStop.

(** The calls one after the other, up to one that panics; then the object is
    dropped, which stops it.  [None] if it hangs or a second panic aborts. *)
Fixpoint calls_then_drop `{P : Platform} {S} (start stop : life S unit) (calls : list LifeCall) (s : S * Proc)
  : option Proc :=
  let drop s := match stop s with Returned _ s => Some s.2 | _ => None end in
  match calls with
  | [] => drop s
  | c :: calls =>
      match match c with CallStart => start | CallStop => stop end s with
      | Returned _ s => calls_then_drop start stop calls s
      | Unwound s => drop s
      | Waits => None
      end
  end.

Lemma lifetime_clean `{P : Platform} {S} (slots : S -> list (positive * Task)) base (start stop : life S unit) :
  (forall x, sat slots base x [] start (fun _ _ l => l = []) (fun _ => True)) ->
  (forall x, sat slots base x [] stop (fun _ x' l => l = [] /\ slots x' = []) (fun _ => False)) ->
  forall calls x r w, owns base (slots x) r ->
  exists p, calls_then_drop start stop calls (x, mkProc r w) = Some p /\ running p = base.
Proof.
  intros Hstart Hstop.
  assert (Hdrop : forall x r w, owns base (slots x) r ->
    exists p, match stop (x, mkProc r w) with Returned _ s => Some s.2 | _ => None end = Some p
      /\ running p = base).
  { intros x r w Hr; pose proof (Hstop x r w Hr) as H.
    destruct (stop (x, mkProc r w)) as [[] [x' p]|[x' p]|]; [|by destruct H|done].
    destruct H as (l&[Hm _ _]&->&Hs). exists p; split; [done|]. rewrite Hm, Hs; cbn. by rewrite map_empty_union. }
  induction calls as [|c calls IH]; intros x r w Hr; cbn [calls_then_drop]; [by apply Hdrop|].
  assert (H : sat slots base x [] (match c with CallStart => start | CallStop => stop end)
    (fun _ _ l => l = []) (fun _ => True)).
  { destruct c; [apply Hstart|]. eapply sat_weaken; [apply Hstop|by intros ? ? ? [? ?]|done]. }
  specialize (H r w Hr).
  destruct (match c with CallStart => start | CallStop => stop end (x, mkProc r w)) as [[] [x' [r' w']]|[x' [r' w']]|];
    [|by apply Hdrop, H|done].
  destruct H as (l&Hl&->). by apply IH.
Qed.

Section ledger_spec.
Context `{P : Platform} {PP : Polite P} (base : gmap positive Task).

Definition ledger_slots (x : LedgerServer) : list (positive * Task) :=
  slot (running_handle (ls_server x)) (GrpcServer (ls_client_listen_uri x) ledger_services)
  ++ slot (ls_report_cache_thread x) ReportCacheThread.

Abbreviation lsat := (sat ledger_slots base).

Lemma sat_shutdown_handle {S} (slots : S -> list (positive * Task)) x l h t
  (Q : unit -> S -> list (positive * Task) -> Prop) U :
  Q tt x l -> sat slots base x (slot (running_handle (Some h)) t ++ l) (shutdown_handle h) Q U.
Proof.
  intros HQ; destruct h as [p|]; cbn [shutdown_handle running_handle slot app]; [by apply sat_shutdown|].
  apply sat_world; intros w; rewrite polite_idle. by apply sat_ret.
Qed.

Lemma ledger_stop_sat x U :
  lsat x [] LedgerServer_stop (fun _ x' l => l = [] /\ ledger_slots x' = []) U.
Proof.
  unfold LedgerServer_stop; apply sat_self.
  apply (sat_bind _ _ _ _ _ _ (fun _ x' l => l = [] /\ running_handle (ls_server x') = None)).
  - destruct (ls_server x) as [h|] eqn:E; [|apply sat_ret; by rewrite E].
    eapply (sat_put _ _ _ _ _ (slot (running_handle (Some h))
      (GrpcServer (ls_client_listen_uri x) ledger_services) ++ [])).
    + unfold ledger_slots; rewrite E; cbn [ls_server running_handle ls_client_listen_uri
        ls_report_cache_thread slot app]. rewrite app_nil_r; solve_Permutation.
    + by apply sat_shutdown_handle.
  - intros [] x' l [-> Hx]. apply sat_self.
    eapply (sat_put _ _ _ _ _ (slot (ls_report_cache_thread x') ReportCacheThread ++ [])).
    + unfold ledger_slots; cbn [ls_server running_handle ls_client_listen_uri
        ls_report_cache_thread slot app]. rewrite !app_nil_r; solve_Permutation.
    + apply sat_when_last; [intros; by apply sat_stop_report|]. unfold ledger_slots; cbn. by rewrite Hx.
Qed.

Lemma ledger_start_sat x :
  lsat x [] LedgerServer_start
    (fun r x' l => l = [] /\ (r = Ok tt -> is_Some (running_handle (ls_server x'))
      /\ is_Some (ls_report_cache_thread x'))) (fun _ => False).
Proof.
  unfold LedgerServer_start.
  eapply (sat_and_then _ _ _ _ _ _ (fun r x' l => x' = x /\ match r with
    | Ok p => l = slot (Some p) ReportCacheThread | Err _ => l = [] end)); [by apply sat_report_cache| |].
  2: by intros e x' l [-> ->].
  intros p x' l [-> ->]. apply sat_self.
  eapply (sat_put _ _ _ _ _ (slot (ls_report_cache_thread x) ReportCacheThread ++ [])).
  { unfold ledger_slots; cbn [ls_server ls_client_listen_uri ls_report_cache_thread]. rewrite !app_nil_r.
    solve_Permutation. }
  apply sat_drop.
  eapply (sat_and_then _ _ _ _ _ _ (fun r x' l => x' = mkLedgerServer (ls_client_listen_uri x) (ls_server x) (Some p)
    /\ match r with Ok q => l = slot (Some q) (GrpcServer (ls_client_listen_uri x) ledger_services)
      | Err _ => l = [] end)); [by apply sat_serve| |].
  2: by intros e x' l [-> ->].
  intros q x' l [-> ->]. apply sat_self; cbn [ls_server ls_client_listen_uri ls_report_cache_thread].
  eapply (sat_put _ _ _ _ _ (slot (running_handle (ls_server x))
    (GrpcServer (ls_client_listen_uri x) ledger_services) ++ [])).
  { unfold ledger_slots; cbn [ls_server ls_client_listen_uri ls_report_cache_thread running_handle].
    rewrite !app_nil_r. solve_Permutation. }
  apply sat_drop, sat_ret_bind, sat_ret. by split; [|intros _].
Qed.
End ledger_spec.

Section view_spec.
Context `{P : Platform} {PP : Polite P} (base : gmap positive Task) (uri : bytes).

Definition grpc_handle (g : ViewGrpc) : option positive :=
  match g with Started h => running_handle (Some h) | Built => None end.

Definition view_slots (x : ViewServer) : list (positive * Task) :=
  slot (grpc_handle (vs_server x)) (GrpcServer uri view_services)
  ++ slot (vs_report_cache_thread x) ReportCacheThread
  ++ slot (pt_join_handle (vs_db_poll_thread x)) DbPollerThread.

Abbreviation vsat := (sat view_slots base).

Ltac slots := unfold view_slots; cbn [vs_server vs_report_cache_thread vs_db_poll_thread pt_join_handle grpc_handle
  running_handle slot app]; rewrite ?app_nil_r; solve_Permutation.

Lemma db_poll_stop_sat x U :
  vsat x [] db_poll_stop (fun _ x' l => l = [] /\ vs_server x' = vs_server x
    /\ vs_report_cache_thread x' = vs_report_cache_thread x /\ pt_join_handle (vs_db_poll_thread x') = None) U.
Proof.
  unfold db_poll_stop; apply sat_self. destruct (pt_join_handle (vs_db_poll_thread x)) as [p|] eqn:E.
  - eapply (sat_put _ _ _ _ _ [(p, DbPollerThread)]).
    + unfold view_slots; rewrite E; cbn [vs_server vs_report_cache_thread vs_db_poll_thread pt_join_handle slot app].
      rewrite ?app_nil_r. solve_Permutation.
    + by apply sat_join.
  - by apply sat_ret.
Qed.

Lemma view_stop_sat x U : vsat x [] ViewServer_stop (fun _ x' l => l = [] /\ view_slots x' = []) U.
Proof.
  unfold ViewServer_stop; apply sat_self.
  eapply (sat_put _ _ _ _ _ (slot (vs_report_cache_thread x) ReportCacheThread ++ [])); [slots|].
  apply sat_when; [intros; by apply sat_stop_report|]. eapply sat_bind; [apply db_poll_stop_sat|].
  intros [] x1 l1 (->&Hs&Hr&Hp); cbn in Hr. apply sat_self, sat_assoc, sat_self.
  eapply (sat_put _ _ _ _ _ (slot (grpc_handle (vs_server x1)) (GrpcServer uri view_services) ++ [])); [slots|].
  assert (HQ : view_slots (mkViewServer (Started Down) (vs_report_cache_thread x1) (vs_db_poll_thread x1)) = []).
  { unfold view_slots; cbn; by rewrite Hr, Hp. }
  destruct (vs_server x1) as [|h]; [|by apply sat_shutdown_handle].
  by apply (sat_shutdown_handle base view_slots _ [] Down (GrpcServer uri view_services)).
Qed.

Lemma db_poll_start_sat x :
  vsat x [] db_poll_start (fun _ x' l => l = []) (fun _ => True).
Proof.
  unfold db_poll_start; apply sat_self. destruct (pt_join_handle (vs_db_poll_thread x)) as [p|] eqn:E.
  - by apply sat_unwind.
  - apply sat_spawn; intros p. apply (sat_put_last _ _ _ _ _ []); [|done].
    unfold view_slots; rewrite E; cbn [vs_server vs_report_cache_thread vs_db_poll_thread pt_join_handle slot app].
    rewrite ?app_nil_r. solve_Permutation.
Qed.

Lemma grpc_start_sat x U : vsat x [] (grpc_start uri) (fun _ x' l => l = []) U.
Proof.
  assert (Hrun : forall y U', grpc_handle (vs_server y) = None ->
    vsat y [] (p ← run_task (GrpcServer uri view_services); put_grpc (Started (Up p))) (fun _ x' l => l = []) U').
  { intros y U' Hy; apply sat_run; intros p; unfold put_grpc; apply sat_self.
    apply (sat_put_last _ _ _ _ _ []); [|done]. unfold view_slots; rewrite Hy.
    cbn [vs_server vs_report_cache_thread vs_db_poll_thread grpc_handle running_handle slot app]. solve_Permutation. }
  unfold grpc_start; apply sat_self. destruct (vs_server x) as [|[p|]] eqn:E.
  - apply Hrun; by rewrite E.
  - by apply sat_ret.
  - apply sat_world; intros w. destruct (start_again w).1; [apply Hrun; by rewrite E|by apply sat_ret].
Qed.

Lemma view_start_sat x : vsat x [] (ViewServer_start uri) (fun _ _ l => l = []) (fun _ => True).
Proof.
  unfold ViewServer_start.
  eapply (sat_bind _ _ _ _ _ _ (fun r x' l => x' = x /\ match r with
    | Ok p => l = slot (Some p) ReportCacheThread | Err _ => l = [] end)); [by apply sat_report_cache|].
  intros [p|e] x' l [-> ->]; [|by apply sat_unwind]. apply sat_self.
  eapply (sat_put _ _ _ _ _ (slot (vs_report_cache_thread x) ReportCacheThread ++ [])); [slots|].
  apply sat_drop. eapply sat_bind; [apply db_poll_start_sat|]. intros [] x1 l1 ->. apply grpc_start_sat.
Qed.
End view_spec.

Section report_spec.
Context `{P : Platform} {PP : Polite P} (base : gmap positive Task) (uri : bytes).

Definition report_slots (x : ViewGrpc) : list (positive * Task) :=
  slot (grpc_handle x) (GrpcServer uri report_services).

Lemma report_start_sat x U : sat report_slots base x [] (ReportServer_start uri) (fun _ _ l => l = []) U.
Proof.
  assert (Hrun : forall y U', grpc_handle y = None -> sat report_slots base y []
    (p ← run_task (GrpcServer uri report_services); put_self (Started (Up p))) (fun _ x' l => l = []) U').
  { intros y U' Hy; apply sat_run; intros p. apply (sat_put_last _ _ _ _ _ []); [|done].
    unfold report_slots; by rewrite Hy. }
  unfold ReportServer_start; apply sat_self. destruct x as [|[p|]].
  - by apply Hrun.
  - by apply sat_ret.
  - apply sat_world; intros w. destruct (start_again w).1; [by apply Hrun|by apply sat_ret].
Qed.

Lemma report_stop_sat x U :
  sat report_slots base x [] ReportServer_stop (fun _ x' l => l = [] /\ report_slots x' = []) U.
Proof.
  unfold ReportServer_stop; apply sat_self.
  eapply (sat_put _ _ _ _ _ (slot (grpc_handle x) (GrpcServer uri report_services) ++ [])).
  { unfold report_slots; cbn [grpc_handle running_handle slot app]. by rewrite !app_nil_r. }
  destruct x as [|h]; [|by apply sat_shutdown_handle].
  by apply (sat_shutdown_handle base report_slots _ [] Down (GrpcServer uri report_services)).
Qed.
End report_spec.

(** ** The theorems *)

Section theorems.
Context `{P : Platform} {PP : Polite P} {Ctl : Type}.
Context (controller_new : IngestLifeConfig -> run Ctl)
  (update_enclave_report_cache : Ctl -> result unit Z * Ctl)
  (uri_responder_id : bytes -> result bytes Z).

(** The peers have responder ids, different ones, and ours is among them. *)
Definition valid_peers (config : IngestLifeConfig) : Prop :=
  (forall uri, uri ∈ ilc_peers config -> exists id, uri_responder_id uri = Ok id)
  /\ (forall uri uri' id, uri ∈ ilc_peers config -> uri' ∈ ilc_peers config ->
      uri_responder_id uri = Ok id -> uri_responder_id uri' = Ok id -> uri = uri')
  /\ (exists uri, uri ∈ ilc_peers config /\ uri_responder_id uri = Ok (ilc_local_node_id config)).

Lemma responder_ids_spec uris :
  NoDup uris ->
  match responder_ids uri_responder_id uris with
  | Ret ids => (forall uri, uri ∈ uris -> exists id, uri_responder_id uri = Ok id)
      /\ (forall id, id ∈ ids <-> exists uri, uri ∈ uris /\ uri_responder_id uri = Ok id)
      /\ (size ids <= length uris)%nat
      /\ (size ids = length uris <-> (forall uri uri' id, uri ∈ uris -> uri' ∈ uris ->
          uri_responder_id uri = Ok id -> uri_responder_id uri' = Ok id -> uri = uri'))
  | Panic => exists uri e, uri ∈ uris /\ uri_responder_id uri = Err e
  end.
Proof.
  induction uris as [|u uris IH]; intros Hn; cbn [responder_ids].
  { split_and!; [set_solver| |by rewrite size_empty|].
    - intros id; split; [set_solver|]. intros (?&?&?); set_solver.
    - split; [set_solver|]. intros _; by rewrite size_empty. }
  apply NoDup_cons in Hn as [Hu Hn]; specialize (IH Hn).
  destruct (uri_responder_id u) as [i|e] eqn:Eu; [|exists u, e; split; [by left|done]].
  destruct (responder_ids uri_responder_id uris) as [ids|]; cbn.
  2: { destruct IH as (uri&e&?&?). exists uri, e; split; [by right|done]. }
  destruct IH as (Hall&Hin&Hle&Heq). split_and!.
  - intros uri [->|?]%elem_of_cons; eauto.
  - intros id; rewrite elem_of_union, elem_of_singleton, Hin; split.
    + intros [->|(uri&?&?)]; [exists u; split; [by left|done]|exists uri; split; [by right|done]].
    + intros (uri&[->|?]%elem_of_cons&?); [left; congruence|right; eauto].
  - destruct (decide (i ∈ ids)).
    + replace ({[i]} ∪ ids) with ids by set_solver. cbn; lia.
    + rewrite size_union, size_singleton by set_solver. cbn; lia.
  - destruct (decide (i ∈ ids)) as [Hi|Hi].
    + replace ({[i]} ∪ ids) with ids by set_solver. split; [cbn; lia|]. intros Hinj.
      apply Hin in Hi as (uri&Huri&Ei). destruct Hu.
      rewrite (Hinj u uri i); [done|by left|by right|done|done].
    + rewrite size_union, size_singleton by set_solver. cbn [length].
      transitivity (size ids = length uris); [lia|]. rewrite Heq; split.
      * intros Hinj uri uri' id [->|H1]%elem_of_cons [->|H2]%elem_of_cons E1 E2; [done| | |eauto].
        -- destruct Hi; apply Hin; exists uri'; split; congruence.
        -- destruct Hi; apply Hin; exists uri; split; congruence.
      * intros Hinj uri uri' id H1 H2; apply Hinj; by right.
Qed.

(** An ingest server comes up exactly with a sensible list of peers: [new]
    panics when a peer has no responder id, two peers have the same one or our
    own is not among them, and otherwise makes the controller and a stopped
    server. *)
Theorem ingest_new_checks_peers config :
  (valid_peers config ->
    IngestServer_new controller_new uri_responder_id config
    = (controller ← controller_new config; Ret (mkIngestServer config controller None None None None)))
  /\ (~ valid_peers config -> IngestServer_new controller_new uri_responder_id config = Panic).
Proof.
  unfold IngestServer_new, valid_peers.
  pose proof (responder_ids_spec (elements (ilc_peers config)) (NoDup_elements _)) as H.
  destruct (responder_ids uri_responder_id (elements (ilc_peers config))) as [ids|]; cbn.
  2: { destruct H as (uri&e&Hu%elem_of_elements&He); split; [|done]. intros [Hv _].
       destruct (Hv uri Hu) as [id Hid]; congruence. }
  destruct H as (Hall&Hin&_&Heq). change (length (elements (ilc_peers config))) with (size (ilc_peers config)) in Heq.
  destruct (Nat.eqb_spec (size ids) (size (ilc_peers config))) as [Hs|Hs]; cbn.
  - destruct (bool_decide_reflect (ilc_local_node_id config ∈ ids)) as [Hl|Hl]; cbn.
    + split; [done|]. intros []; split_and!.
      * intros uri Hu; apply Hall; set_solver.
      * intros uri uri' id H1 H2; apply (proj1 Heq Hs); set_solver.
      * apply Hin in Hl as (uri&Hu%elem_of_elements&?); eauto.
    + split; [|done]. intros (_&_&uri&Hu&Ei). destruct Hl; apply Hin; exists uri; split; [set_solver|done].
  - split; [|done]. intros (_&Hinj&_). destruct Hs; apply Heq.
    intros uri uri' id H1%elem_of_elements H2%elem_of_elements; eauto.
Qed.


Lemma owns_nothing (r : gmap positive Task) : owns r [] r.
Proof. split; cbn; [by rewrite map_empty_union|constructor|set_solver]. Qed.


(** A ledger server whose port cannot be bound fails to start and keeps its
    report cache thread: the call of [stop] in [start] is never reached. *)
Theorem ledger_failed_start_keeps_thread uri r w w1 w2 e :
  report_cache_start w = (Ok tt, w1) -> build_server w1 uri ledger_services = (Err e, w2) ->
  exists x' p q, LedgerServer_start (LedgerServer_new uri, mkProc r w) = Returned (Err e) (x', p)
    /\ ls_report_cache_thread x' = Some q /\ r !! q = None /\ running p = <[q := ReportCacheThread]> r.
Proof.
  intros Hc Hb; unfold LedgerServer_start, start_report_cache, serve, and_then, on_world, mbind, life_bind; cbn.
  rewrite Hc; cbn; rewrite Hb; cbn. eexists _, _, _; split_and!; [reflexivity|reflexivity| |reflexivity].
  apply not_elem_of_dom, is_fresh.
Qed.

(** A view server that is stopped and started again never polls its database: the
    stop request is not taken back, so the new thread ends at once. *)
Theorem view_restart_stops_polling uri x p q x1 p1 x2 p2 :
  pt_join_handle (vs_db_poll_thread x) = Some q ->
  ViewServer_stop (x, p) = Returned tt (x1, p1) -> ViewServer_start uri (x1, p1) = Returned tt (x2, p2) ->
  is_Some (pt_join_handle (vs_db_poll_thread x2)) /\ pt_stop_requested (vs_db_poll_thread x2) = true.
Proof.
  intros Hq Hstop Hstart.
  assert (H1 : vs_db_poll_thread x1 = mkPollThread None true).
  { unfold ViewServer_stop, stop_report_cache, db_poll_stop, join, put_grpc, shutdown_handle, shutdown, when_some, self,
      put_self, on_world, end_task, mbind, life_bind, mret, life_ret in Hstop; cbn in Hstop.
    repeat (case_match; simplify_eq/=; try done). }
  destruct x1 as [g1 c1 t1]; cbn in H1; subst t1.
  unfold ViewServer_start, start_report_cache, and_then, drop_task, db_poll_start, grpc_start, spawn, put_grpc, self,
    put_self, on_world, run_task, end_task, mbind, life_bind, mret, life_ret, unwind in Hstart; cbn in Hstart.
  repeat (case_match; simplify_eq/=; try done).
Qed.
End theorems.
