(* ===== verification/ServerLifeExamples.v ===== *)
(** * A process for the servers

    Binding a port fails for the empty uri, everything else works; the theorems
    of [ServerLifeSpec] applied to it. *)

From S2P Require Import Prelude ServerLife ServerLifeSpec.

Local Open Scope Z_scope.

#[export] Instance demo_platform : Platform := {|
  World := unit;
  build_server w uri _ := (if (length uri =? 0)%nat then Err 1 else Ok tt, w);
  shutdown_server w _ := (Ok tt, w);
  shutdown_idle w := (Ok tt, w);
  start_again w := (false, w);
  spawn_thread w := (true, w);
  report_cache_start w := (Ok tt, w);
  report_cache_stop w _ := (Ok tt, w);
  join_thread w _ := (Some true, w);
|}.

#[export] Instance demo_polite : Polite demo_platform.
Proof. by split. Qed.

Definition demo_proc (r : gmap positive Task) : Proc := @mkProc demo_platform r tt.

(** A server with a checkup every ten seconds, and one whose peer port is taken. *)
Definition demo_life_config (peer_uri : bytes) : IngestLifeConfig :=
  mkIngestLifeConfig [1] [7] peer_uri {[ [1]; [2] ]} (Some 10).
Definition demo_update (n : nat) : result unit Z * nat := (Ok tt, S n).
Definition demo_ingest (peer_uri : bytes) : IngestServer (Ctl := nat) :=
  mkIngestServer (demo_life_config peer_uri) 0%nat None None None None.

Definition demo_uri_id (uri : bytes) : result bytes Z := Ok uri.

Lemma ingest_new_checks_peers_witness :
  IngestServer_new (fun _ => Ret 0%nat) demo_uri_id (demo_life_config [8]) = Ret (demo_ingest [8]).
Proof.
  destruct (ingest_new_checks_peers (fun _ => Ret 0%nat) demo_uri_id (demo_life_config [8])) as [H _].
  apply H; split_and!.
  - intros uri _; by exists uri.
  - intros uri uri' id _ _ [= ->] [= ->]; done.
  - exists [1]; split; [|done]. cbn [ilc_peers demo_life_config]; set_solver.
Defined.

Definition start_result (peer_uri : bytes) : result unit Z :=
  match IngestServer_start demo_update (demo_ingest peer_uri, demo_proc ∅) with
  | Returned r _ => r | _ => Err 0 end.


