(* ===== verification/Distribution.v ===== *)
(** * The distribution tool (src/fog/distribution/src/main.rs)

    The tool spends the outputs of a bootstrapped ledger to fog users: it reads a
    copy of the ledger and assigns its outputs to accounts, and worker threads
    take outputs from a shared queue, build a transaction of every few of them
    and submit it to the consensus nodes.

    The ledger database, the transaction builder, the random generator and the
    nodes are foreign code.  The threads are step functions between their
    accesses to what they share: the queue and the block height. *)

From S2P Require Import Prelude FogTypes KexRng CachedTxData PaykitClient.

Local Open Scope Z_scope.
Local Open Scope fog_scope.

(** ** The copy of the ledger *)

Class LedgerCopy (P : Type) := {
  lc_block_contents : Z -> result (list TxOut) Z;
  lc_num_txos : result Z Z;
  (** [get_tx_out_index_by_hash(&tx_out.hash())]. *)
  lc_index_by_hash : TxOut -> result Z Z;
  lc_by_index : Z -> result TxOut Z;
  lc_proofs : list Z -> result (list P) Z;
}.

(** config.rs *)
Record DistConfig := mkDistConfig {
  dc_num_tx_to_send : Z;
  dc_ring_size : nat;
  dc_tombstone_block : Z;
  dc_num_inputs : nat;
  dc_start_offset : nat;
  dc_num_transactions_per_account : nat;
  dc_account_offset : nat;
}.

(** [.unwrap()] and [.expect(..)]. *)
Definition runwrap {A E} (r : result A E) : run A := match r with Ok a => Ret a | Err _ => Panic end.

Section distribution.
Context {P : Type} `{W : WalletCrypto} `{B : !TxBuilder P} {LC : LedgerCopy P}.
Context (view_key_matches_output : AccountKey -> Public -> Public -> bool).
Context (gen_range : Rng -> Z -> Z * Rng) (set_iter : gset Z -> list Z).

Record SpendableTxOut := mkSpendableTxOut {
  sto_tx_out : TxOut;
  sto_amount : Z;
  sto_from_account_key : AccountKey;
}.

(** ** Reading the ledger *)

(** The position of the first output of somebody else. *)
Fixpoint num_transactions_from (i : nat) (account : AccountKey) (transactions : list TxOut) : run nat :=
  match transactions with
  | [] => Ret 0%nat
  | tx_out :: transactions =>
      target_key ← runwrap (public_try_from (txo_target_key tx_out));
      public_key ← runwrap (public_try_from (txo_public_key tx_out));
      if negb (view_key_matches_output account target_key public_key) then Ret i
      else num_transactions_from (S i) account transactions
  end.

Definition get_num_transactions_per_account (account : AccountKey) (transactions : list TxOut) : run nat :=
  num_transactions_from 0 account transactions.

(** [config.num_tx_to_send == -1 || processed < config.num_tx_to_send.try_into().unwrap()]. *)
Definition wanted (config : DistConfig) (processed : nat) : run bool :=
  if dc_num_tx_to_send config =? -1 then Ret true
  else if dc_num_tx_to_send config <? 0 then Panic
  else Ret (Z.of_nat processed <? dc_num_tx_to_send config).

Definition spendable (account : AccountKey) (tx_out : TxOut) : run SpendableTxOut :=
  public_key ← runwrap (public_try_from (txo_public_key tx_out));
  let shared_secret := get_tx_out_shared_secret (view_private_key account) public_key in
  '(input_amount, _) ← runwrap (Amount_get_value (txo_amount tx_out) shared_secret);
  Ret (mkSpendableTxOut tx_out input_amount account).

(** The loop over the outputs of a block. *)
Fixpoint assign_outputs (config : DistConfig) (per_account : nat) (accounts : list AccountKey)
    (account_index num_processed : nat) (transactions : list TxOut) : run (list SpendableTxOut) :=
  match transactions with
  | [] => Ret []
  | tx_out :: transactions =>
      let next := (per_account <=? num_processed)%nat in
      let account_index := if next then S account_index else account_index in
      let num_processed := if next then 0%nat else num_processed in
      match accounts !! account_index with
      | None => if next then Ret [] else Panic
      | Some account =>
          w ← wanted config num_processed;
          sent ← (if (w : bool) then s ← spendable account tx_out; Ret [s] else Ret []);
          rest ← assign_outputs config per_account accounts account_index (S num_processed) transactions;
          Ret (sent ++ rest)
      end
  end.

(** [while let Ok(block_contents) = ledger_db.get_block_contents(block_count)]. *)
Fixpoint load_blocks (fuel : nat) (config : DistConfig) (accounts : list AccountKey) (per_account : nat)
    (block_count : Z) : option (run (list SpendableTxOut)) :=
  match fuel with
  | O => None
  | S fuel =>
      match lc_block_contents block_count with
      | Err _ => Some (Ret [])
      | Ok transactions =>
          match (per_account ← (if (per_account =? 0)%nat
                                then first ← unwrap (accounts !! 0%nat);
                                     get_num_transactions_per_account first transactions
                                else Ret per_account);
                 _ ← unwrap (accounts !! dc_account_offset config);
                 sent ← assign_outputs config per_account accounts (dc_account_offset config) 0
                          (drop (dc_start_offset config) transactions);
                 Ret (per_account, sent)) with
          | Panic => Some Panic
          | Ret (per_account, sent) =>
              rest ← load_blocks fuel config accounts per_account (block_count + 1);
              Some (rest ← rest; Ret (sent ++ rest))
          end
      end
  end.

(** ** Building a transaction *)

Definition get_membership_proofs (utxos : list SpendableTxOut) : run (list (SpendableTxOut * P)) :=
  indexes ← mapM (fun utxo => runwrap (lc_index_by_hash (sto_tx_out utxo))) utxos;
  proofs ← runwrap (lc_proofs indexes);
  Ret (zip utxos proofs).

Fixpoint fill_ring (ring_size : nat) (it : list (Z * P)) : run (list (TxOut * P) * list (Z * P)) :=
  match ring_size with
  | O => Ret ([], it)
  | S n =>
      match it with
      | [] => Panic
      | (index, proof) :: it =>
          tx_out ← runwrap (lc_by_index index);
          '(ring, it) ← fill_ring n it;
          Ret ((tx_out, proof) :: ring, it)
      end
  end.

Fixpoint fill_all_rings (num_rings ring_size : nat) (it : list (Z * P)) : run (list (list (TxOut * P))) :=
  match num_rings with
  | O => Ret []
  | S n =>
      '(ring, it) ← fill_ring ring_size it;
      rings ← fill_all_rings n ring_size it;
      Ret (ring :: rings)
  end.

(** Drawing from an empty range panics; [None] when the fuel of the sampling runs out. *)
Definition dist_get_rings (fuel : nat) (ring_size num_rings : nat) (rng : Rng)
  : option (run (list (list (TxOut * P)) * Rng)) :=
  let num_requested := Z.of_nat ring_size *w Z.of_nat num_rings in
  match lc_num_txos with
  | Err _ => Some Panic
  | Ok num_txos =>
      if (0 <? num_requested) && (num_txos <=? 0) then Some Panic
      else
        '(sampled_indices, rng) ← sample_indices gen_range fuel num_txos num_requested ∅ rng;
        let sampled := set_iter sampled_indices in
        Some (proofs ← runwrap (lc_proofs sampled);
              rings ← fill_all_rings num_rings ring_size (zip sampled proofs);
              Ret (rings, rng))
  end.

(** The loop over the inputs; [rings] is the stack they take their rings from. *)
Fixpoint dist_add_inputs (utxos : list (SpendableTxOut * P)) (rings : list (list TxOut * list P))
    (tx_builder : Builder) : run Builder :=
  match utxos with
  | [] => Ret tx_builder
  | (utxo, proof) :: utxos =>
      match rings with
      | [] => Panic
      | (ring, membership_proofs) :: rings =>
          _ ← rassert (length ring =? length membership_proofs)%nat;
          let '(ring, membership_proofs, real_key_index) :=
            place_input ring membership_proofs (sto_tx_out utxo) proof in
          _ ← rassert (length ring =? length membership_proofs)%nat;
          public_key ← runwrap (public_try_from (txo_public_key (sto_tx_out utxo)));
          let key := sto_from_account_key utxo in
          let onetime_private_key := recover_onetime_private_key public_key (view_private_key key)
            (default_subaddress_spend_private key) in
          credentials ← runwrap (InputCredentials_new ring membership_proofs real_key_index
            onetime_private_key (view_private_key key));
          dist_add_inputs utxos rings (add_input tx_builder credentials)
      end
  end.

(** The first input pays for the fee; the subtraction wraps. *)
Definition output_amount (fee : Z) (i : nat) (utxo : SpendableTxOut) : Z :=
  if (i =? 0)%nat then sto_amount utxo -w fee else sto_amount utxo.

Fixpoint dist_add_outputs (amounts : list Z) (target : PublicAddress) (tx_builder : Builder) (rng : Rng)
  : run (Builder * Rng) :=
  match amounts with
  | [] => Ret (tx_builder, rng)
  | amount :: amounts =>
      let '(r, rng) := add_output tx_builder amount target rng in
      tx_builder ← runwrap r;
      dist_add_outputs amounts target tx_builder rng
  end.

(** [fee] and [block_height] are what is loaded from [FEE] and [BLOCK_HEIGHT]; the
    rings are drawn with a generator of their own. *)
Definition dist_build_tx (fuel : nat) (config : DistConfig) (spendable_txouts : list SpendableTxOut)
    (to_account : AccountKey) (fog_resolver : Resolver) (fee block_height : Z) (rng_rings rng : Rng)
  : option (run (Tx * Rng)) :=
  match get_membership_proofs spendable_txouts with
  | Panic => Some Panic
  | Ret utxos_with_proofs =>
      rings ← dist_get_rings fuel (dc_ring_size config) (length utxos_with_proofs) rng_rings;
      Some (
        '(rings, _) ← rings;
        _ ← rassert (length utxos_with_proofs =? length rings)%nat;
        let tx_builder := set_fee (TransactionBuilder_new fog_resolver) fee in
        let rings_and_proofs := (fun tuples => (tuples.*1, tuples.*2)) <$> rings in
        tx_builder ← dist_add_inputs utxos_with_proofs (rev rings_and_proofs) tx_builder;
        '(tx_builder, rng) ← dist_add_outputs (imap (output_amount fee) utxos_with_proofs.*1)
          (default_subaddress to_account) tx_builder rng;
        let '(tx, rng) := build (set_tombstone_block tx_builder (block_height +w dc_tombstone_block config)) rng in
        tx ← runwrap tx;
        Ret (tx, rng))
  end.

(** ** Submitting *)

(** Errors of [propose_tx], as far as they are told apart. *)
Inductive ProposeError := TombstoneBlockExceeded | OperationError | InternalRetryError.

Definition max_retries : nat := 30.

(** The node of the attempt [i]; without nodes the remainder panics. *)
Definition node_index (num_conns i counter : nat) : run nat :=
  if (num_conns =? 0)%nat then Panic else Ret ((i + counter) mod num_conns)%nat.

(** [answers i node] is the answer of the node to the attempt [i]; the result is
    whether the transaction was accepted, with the block height afterwards. *)
Fixpoint submit_from (retries i counter num_conns : nat) (answers : nat -> nat -> result Z ProposeError)
    (block_height : Z) : run (bool * Z) :=
  match retries with
  | O => Ret (false, block_height)
  | S retries =>
      node ← node_index num_conns i counter;
      match answers i node with
      | Ok height => Ret (true, Z.max block_height height)
      | Err TombstoneBlockExceeded => Ret (false, block_height)
      | Err OperationError => submit_from retries (S i) counter num_conns answers block_height
      | Err InternalRetryError => Ret (false, block_height)
      end
  end.

Definition submit_tx (counter num_conns : nat) (answers : nat -> nat -> result Z ProposeError)
    (block_height : Z) : run (bool * Z) :=
  submit_from max_retries 0 counter num_conns answers block_height.

(** ** The threads *)

(** A worker collects inputs, has built a transaction, or is gone. *)
Inductive DistPc :=
| Collecting (pending_spendable_txouts : list SpendableTxOut)
| HasTx (tx : Tx) (to_account : AccountKey)
| Gone.

Record DistWorker := mkDistWorker { dw_txs_created : nat; dw_pc : DistPc }.

(** The shared state.  [d_spent] and [d_dropped] are not in the code: the inputs of
    the transactions built so far, and what workers held when they ended. *)
Record DistState := mkDistState {
  d_queue : list SpendableTxOut;
  d_block_height : Z;
  d_tx_pub_keys : gmap (list Z) AccountKey;
  d_workers : list DistWorker;
  d_spent : list (list SpendableTxOut);
  d_dropped : list SpendableTxOut;
}.

(** What is the same for all threads. *)
Record DistSetup := mkDistSetup {
  ds_config : DistConfig;
  ds_fog_accounts : list AccountKey;
  ds_resolver : Resolver;
  ds_fee : Z;
  ds_num_conns : nat;
}.

(** [worker_thread_entry]: one step of the worker [k], with what the generators
    and the nodes say; [None] if it has none. *)
Definition dist_worker_step (setup : DistSetup) (fuel : nat) (rng_rings rng : Rng)
    (answers : nat -> nat -> result Z ProposeError) (k : nat) (s : DistState) : option (run DistState) :=
  let 'mkDistState queue height keys workers spent dropped := s in
  match workers !! k with
  | Some (mkDistWorker created (Collecting pending)) =>
      if (length pending <? dc_num_inputs (ds_config setup))%nat then
        match queue with
        | tx_out :: queue =>
            Some (Ret (mkDistState queue height keys
              (<[k := mkDistWorker created (Collecting (pending ++ [tx_out]))]> workers) spent dropped))
        | [] =>
            Some (Ret (mkDistState queue height keys (<[k := mkDistWorker created Gone]> workers) spent
              (dropped ++ pending)))
        end
      else
        let n := length (ds_fog_accounts setup) in
        match (if (n =? 0)%nat then None else ds_fog_accounts setup !! (created mod n)%nat) with
        | None => Some Panic
        | Some to_account =>
            r ← dist_build_tx fuel (ds_config setup) pending to_account (ds_resolver setup) (ds_fee setup)
                  height rng_rings rng;
            Some ('(tx, _) ← r;
                  Ret (mkDistState queue height keys (<[k := mkDistWorker (S created) (HasTx tx to_account)]> workers)
                    (spent ++ [pending]) dropped))
        end
  | Some (mkDistWorker created (HasTx tx to_account)) =>
      Some ('(accepted, height) ← submit_tx created (ds_num_conns setup) answers height;
            keys ← (if (accepted : bool)
                    then output ← unwrap (tx_outputs tx !! 0%nat);
                         Ret (<[txo_public_key output := to_account]> keys)
                    else Ret keys);
            Ret (mkDistState queue height keys (<[k := mkDistWorker created (Collecting [])]> workers) spent dropped))
  | Some (mkDistWorker _ Gone) | None => None
  end.

(** [max_threads] workers on the outputs that were read; a run is considered up to
    a panic. *)
Definition dist_start (max_threads : nat) (block_height : Z) (outputs : list SpendableTxOut) : DistState :=
  mkDistState outputs block_height ∅ (replicate max_threads (mkDistWorker 0 (Collecting []))) [] [].

Inductive dist_step (setup : DistSetup) : DistState -> DistState -> Prop :=
| dist_works fuel rng_rings rng answers k s s' :
    dist_worker_step setup fuel rng_rings rng answers k s = Some (Ret s') -> dist_step setup s s'.

(** [FEE]: the largest fee of the nodes that answer. *)
Definition dist_fee (MINIMUM_FEE : Z) (minimum_fees : list (option Z)) : Z :=
  match omap id minimum_fees with
  | [] => MINIMUM_FEE
  | fee :: fees => foldl Z.max fee fees
  end.
End distribution.
