(* ===== verification/DistributionSpec.v ===== *)
(** * What the distribution tool does

    No output is spent twice, whatever the threads do; a transaction is balanced
    and its rings are sound; a transaction is accepted when one of the first
    thirty nodes asked accepts it; and a tool that reads the number of outputs per
    account from a ledger of one account sends nothing. *)

From S2P Require Import Prelude FogTypes KexRng InputSelection CachedTxData CachedTxDataSpec PaykitClient PaykitSpec Distribution.

Local Open Scope Z_scope.
Local Open Scope fog_scope.

(** ** Lists *)

Lemma concat_insert {A B} (f : A -> list B) (l : list A) k x y :
  l !! k = Some x ->
  exists r, mjoin (f <$> l) ≡ₚ f x ++ r /\ mjoin (f <$> <[k := y]> l) ≡ₚ f y ++ r.
Proof.
  intros Hk; exists (mjoin (f <$> take k l) ++ mjoin (f <$> drop (S k) l)).
  rewrite <- (take_drop_middle l k x Hk) at 1. rewrite (insert_take_drop l k y (lookup_lt_Some _ _ _ Hk)).
  rewrite !fmap_app, !join_app, !fmap_cons; cbn [mjoin list_join]. split; solve_Permutation.
Qed.

Section spends.
Context {P : Type} `{W : WalletCrypto} `{B : !TxBuilder P} {LC : LedgerCopy P}.
Context (gen_range : Rng -> Z -> Z * Rng) (set_iter : gset Z -> list Z) (setup : DistSetup).

Abbreviation num_inputs := (dc_num_inputs (ds_config setup)).
Abbreviation step := (dist_step gen_range set_iter setup).

(** What a worker has taken and not spent. *)
Definition held (w : DistWorker) : list SpendableTxOut :=
  match dw_pc w with Collecting l => l | _ => [] end.

Definition gone (w : DistWorker) : list unit := match dw_pc w with Gone => [tt] | _ => [] end.

Record dist_inv (n : nat) (outputs : list SpendableTxOut) (s : DistState) : Prop := {
  di_all : d_queue s ++ mjoin (held <$> d_workers s) ++ mjoin (d_spent s) ++ d_dropped s ≡ₚ outputs;
  di_spent : Forall (fun inputs => length inputs = num_inputs) (d_spent s);
  di_held : Forall (fun w => (length (held w) <= num_inputs)%nat) (d_workers s);
  di_workers : length (d_workers s) = n;
  di_gone : mjoin (gone <$> d_workers s) <> [] -> d_queue s = [];
  di_dropped : (length (d_dropped s) <= length (mjoin (gone <$> d_workers s)) * (num_inputs - 1))%nat;
}.

Lemma dist_start_inv n height outputs : dist_inv n outputs (dist_start n height outputs).
Proof.
  assert (Hh : forall {A} (f : DistWorker -> list A), f (mkDistWorker 0 (Collecting [])) = [] ->
    mjoin (f <$> replicate n (mkDistWorker 0 (Collecting []))) = []).
  { intros A f Hf; induction n as [|n IH]; [done|]. cbn; by rewrite Hf. }
  split; cbn; rewrite ?Hh, ?length_replicate; try done.
  - by rewrite !app_nil_r.
  - apply Forall_replicate; cbn; lia.
Qed.

(** A worker that was not gone changes. *)
Lemma dist_inv_update n outputs queue h keys workers spent dropped k w w' queue' h' keys' spent' dropped' :
  dist_inv n outputs (mkDistState queue h keys workers spent dropped) -> workers !! k = Some w -> gone w = [] ->
  queue' ++ held w' ++ mjoin spent' ++ dropped' ≡ₚ queue ++ held w ++ mjoin spent ++ dropped ->
  Forall (fun inputs => length inputs = num_inputs) spent' -> (length (held w') <= num_inputs)%nat ->
  (queue = [] -> queue' = []) ->
  (gone w' = [] /\ dropped' = dropped
   \/ gone w' = [tt] /\ queue' = [] /\ (length dropped' <= length dropped + (num_inputs - 1))%nat) ->
  dist_inv n outputs (mkDistState queue' h' keys' (<[k := w']> workers) spent' dropped').
Proof.
  intros [Hall Hsp Hhd Hn Hg Hd] Hk Hw Hp Hs' Hh' Hq Hcase; cbn in *.
  destruct (concat_insert held workers k w w' Hk) as (r&E1&E2).
  destruct (concat_insert gone workers k w w' Hk) as (g&G1&G2). rewrite Hw in G1; cbn in G1.
  split; cbn.
  - rewrite <- Hall, E1, E2.
    transitivity (r ++ (queue' ++ held w' ++ mjoin spent' ++ dropped')); [solve_Permutation|].
    rewrite Hp; solve_Permutation.
  - done.
  - by apply Forall_insert.
  - by rewrite length_insert.
  - intros Hne; destruct Hcase as [[Hg' _]|(_&->&_)]; [|done]. apply Hq, Hg. rewrite Hg' in G2; cbn in G2.
    intros E; apply Hne, Permutation_nil_r. by rewrite G2, <- G1, E.
  - rewrite G2, length_app. rewrite G1 in Hd. destruct Hcase as [[Hg' ->]|(Hg'&_&Hl)]; rewrite Hg'; cbn [length]; nia.
Qed.

Lemma dist_step_inv n outputs s s' :
  (1 <= num_inputs)%nat -> step s s' -> dist_inv n outputs s -> dist_inv n outputs s'.
Proof.
  intros Hpos [fuel rng_rings rng answers k t t' Hstep] Hi.
  destruct t as [queue height keys workers spent dropped]; unfold dist_worker_step in Hstep.
  destruct (workers !! k) as [[created pc]|] eqn:Hk; [|done].
  assert (Hlen : (length (held (mkDistWorker created pc)) <= num_inputs)%nat).
  { apply (Forall_lookup_1 _ _ _ _ (di_held _ _ _ Hi) Hk). }
  destruct pc as [pending|tx to|]; [| |done]; cbn in Hlen.
  - destruct (length pending <? num_inputs)%nat eqn:El; [apply Nat.ltb_lt in El|apply Nat.ltb_ge in El].
    + destruct queue as [|x queue]; simplify_eq/=.
      * eapply dist_inv_update; [exact Hi|exact Hk|done| |exact (di_spent _ _ _ Hi)| | |]; cbn.
        -- solve_Permutation.
        -- lia.
        -- done.
        -- right; split_and!; [done|done|]. rewrite length_app; lia.
      * eapply dist_inv_update; [exact Hi|exact Hk|done| |exact (di_spent _ _ _ Hi)| | |]; cbn.
        -- rewrite Permutation_middle. solve_Permutation.
        -- rewrite length_app; cbn; lia.
        -- done.
        -- by left.
    + destruct (if (_ =? 0)%nat then _ else _) as [to|]; [|done].
      destruct (dist_build_tx _ _ _ _ _ _ _ _ _ _ _) as [[[tx rng']|]|]; simplify_eq/=.
      eapply dist_inv_update; [exact Hi|exact Hk|done| | | | |]; cbn.
      * rewrite join_app; cbn; rewrite app_nil_r. solve_Permutation.
      * apply Forall_app; split; [exact (di_spent _ _ _ Hi)|]. constructor; [lia|done].
      * lia.
      * done.
      * by left.
  - destruct (submit_tx _ _ _ _) as [[accepted h']|]; [|done]; cbn in Hstep.
    destruct (if (accepted : bool) then _ else _) as [keys'|]; simplify_eq/=.
    eapply dist_inv_update; [exact Hi|exact Hk|done|done|exact (di_spent _ _ _ Hi)| | |]; cbn; [lia|done|by left].
Qed.

End spends.

(** ** Transactions *)

Section builds.
Context {P : Type} `{W : WalletCrypto} `{B : !TxBuilder P} {LC : LedgerCopy P}.
Context (valid : TxOut -> P -> Prop).

(** The ledger knows its outputs by hash and by index, up to the number it
    reports, and proves that they are in it. *)
Class LedgerCopyLaws : Prop := {
  lcl_index : forall t i, lc_index_by_hash t = Ok i -> lc_by_index i = Ok t;
  lcl_proofs : forall indices, Forall (fun i => exists t, lc_by_index i = Ok t) indices ->
    exists proofs, lc_proofs indices = Ok proofs
      /\ Forall2 (fun i p => forall t, lc_by_index i = Ok t -> valid t p) indices proofs;
  lcl_num_txos : exists n, lc_num_txos = Ok n /\ is_u64 n
    /\ forall i, 0 <= i < n -> exists t, lc_by_index i = Ok t;
}.

(** The builder takes credentials whose ring and proofs fit and whose index is in
    the ring, and builds. *)
Class BuilderAccepts : Prop := {
  ba_credentials : forall ring proofs i onetime view, length ring = length proofs -> (i < length ring)%nat ->
    exists c, InputCredentials_new (P := P) ring proofs i onetime view = Ok c;
  ba_output : forall b amount target rng, exists b' rng', add_output (P := P) b amount target rng = (Ok b', rng');
  ba_build : forall b rng, exists tx rng', build (P := P) b rng = (Ok tx, rng');
}.

Context {LL : LedgerCopyLaws} {BA : BuilderAccepts}.

Definition proves (x : TxOut * P) : Prop := valid x.1 x.2.

Lemma get_membership_proofs_ok utxos :
  Forall (fun u => exists i, lc_index_by_hash (sto_tx_out u) = Ok i) utxos ->
  exists l, get_membership_proofs utxos = Ret l /\ l.*1 = utxos
    /\ Forall (fun x => valid (sto_tx_out x.1) x.2) l.
Proof.
  intros Hu; unfold get_membership_proofs.
  assert (H : exists indexes, mapM (fun utxo => runwrap (lc_index_by_hash (sto_tx_out utxo))) utxos = Ret indexes
    /\ Forall2 (fun u i => lc_by_index i = Ok (sto_tx_out u)) utxos indexes).
  { induction Hu as [|u us [i Hi] _ (ids&E&His)]; [by exists []|]. exists (i :: ids). cbn.
    rewrite Hi; cbn. rewrite E; cbn. split; [done|]. constructor; [by apply lcl_index|done]. }
  destruct H as (indexes&E&Hind). rewrite E; cbn.
  destruct (lcl_proofs indexes) as (proofs&Ep&Hp).
  { clear -Hind. induction Hind; constructor; eauto. }
  rewrite Ep; cbn. eexists; split; [reflexivity|]. clear E Ep Hu.
  revert proofs Hp; induction Hind as [|u i us ids Hi _ IH]; intros proofs Hp; inversion Hp as [|? p ? ps Hip Hps]; subst.
  - by split.
  - destruct (IH ps Hps) as [E1 E2]. cbn; split; [by rewrite E1|]. constructor; [by apply Hip|done].
Qed.

(** Rings of the size that is asked for, as long as there are outputs. *)
Lemma fill_ring_ok n it :
  (n <= length it)%nat ->
  Forall (fun x => exists t, lc_by_index x.1 = Ok t /\ valid t x.2) it ->
  exists ring, fill_ring n it = Ret (ring, drop n it) /\ length ring = n /\ Forall proves ring.
Proof.
  revert it; induction n as [|n IH]; intros it Hl Hit; cbn [fill_ring]; [by exists []|].
  destruct Hit as [|[i p] it (t&Ht&Hv) Hit]; cbn in *; [lia|]. rewrite Ht; cbn.
  destruct (IH it) as (ring&E&?&?); [lia|done|]. rewrite E; cbn. exists ((t, p) :: ring).
  split; [done|]. split; [cbn; lia|by constructor].
Qed.

Lemma fill_all_rings_ok m n it :
  (m * n <= length it)%nat ->
  Forall (fun x => exists t, lc_by_index x.1 = Ok t /\ valid t x.2) it ->
  exists rings, fill_all_rings m n it = Ret rings /\ length rings = m
    /\ Forall (fun ring => length ring = n /\ Forall proves ring) rings.
Proof.
  revert it; induction m as [|m IH]; intros it Hl Hit; cbn [fill_all_rings]; [by exists []|].
  destruct (fill_ring_ok n it) as (ring&E&?&?); [lia|done|]. rewrite E; cbn.
  destruct (IH (drop n it)) as (rings&E'&?&?); [rewrite length_drop; lia|by apply Forall_drop|].
  rewrite E'; cbn. exists (ring :: rings). split; [done|]. split; [cbn; lia|by constructor].
Qed.

(** The credentials of an input. *)
Definition spends (ring_size : nat) (utxo : SpendableTxOut) (c : Credentials) : Prop :=
  exists ring proofs i public_key,
    InputCredentials_new (P := P) ring proofs i
      (recover_onetime_private_key public_key (view_private_key (sto_from_account_key utxo))
        (default_subaddress_spend_private (sto_from_account_key utxo)))
      (view_private_key (sto_from_account_key utxo)) = Ok c
    /\ public_try_from (txo_public_key (sto_tx_out utxo)) = Ok public_key
    /\ ring !! i = Some (sto_tx_out utxo) /\ length ring = Nat.max 1 ring_size
    /\ Forall2 valid ring proofs.

Lemma place_input_valid ring proofs tx_out proof :
  Forall2 valid ring proofs -> valid tx_out proof ->
  let '(ring', proofs', i) := place_input ring proofs tx_out proof in Forall2 valid ring' proofs'.
Proof.
  intros Hr Hv; unfold place_input; destruct (list_find _ ring) as [[i t]|]; [done|].
  destruct Hr; cbn; by repeat constructor.
Qed.

Lemma dist_add_inputs_ok n utxos rings b :
  length utxos = length rings ->
  Forall (fun x => valid (sto_tx_out x.1) x.2
    /\ exists k, public_try_from (txo_public_key (sto_tx_out x.1)) = Ok k) utxos ->
  Forall (fun r => length r.1 = n /\ Forall2 valid r.1 r.2) rings ->
  exists creds, dist_add_inputs utxos rings b = Ret (foldl add_input b creds) /\ Forall2 (spends n) utxos.*1 creds.
Proof.
  intros Hl Hu; revert rings b Hl; induction Hu as [|[utxo proof] utxos (Hv&pk&Hpk) Hu IH];
    intros [|[ring proofs] rings] b Hl Hr; cbn in Hl; try lia; cbn [dist_add_inputs]; [exists []; split; [done|constructor]|].
  apply Forall_cons in Hr as [(Hn&Hvr) Hr]; cbn in *.
  pose proof (Forall2_length _ _ _ Hvr) as Hlen. rewrite Hlen, Nat.eqb_refl; cbn.
  pose proof (place_input_ok ring proofs (sto_tx_out utxo) proof Hlen) as Hp.
  pose proof (place_input_valid ring proofs (sto_tx_out utxo) proof Hvr Hv) as Hpv.
  destruct (place_input ring proofs (sto_tx_out utxo) proof) as [[ring' proofs'] i].
  destruct Hp as (Hlen'&Hi&Hn'). rewrite Hlen', Nat.eqb_refl; cbn. rewrite Hpk; cbn.
  destruct (ba_credentials ring' proofs' i
    (recover_onetime_private_key pk (view_private_key (sto_from_account_key utxo))
      (default_subaddress_spend_private (sto_from_account_key utxo)))
    (view_private_key (sto_from_account_key utxo)) Hlen') as [c Hc]; [by eapply lookup_lt_Some|].
  rewrite Hc; cbn. destruct (IH rings (add_input b c)) as (creds&E&HF); [lia|done|].
  exists (c :: creds); split; [done|]. constructor; [|done].
  exists ring', proofs', i, pk; split_and!; try done. by rewrite Hn', Hn.
Qed.

Lemma dist_add_outputs_ok amounts target b rng :
  exists b' rng', dist_add_outputs amounts target b rng = Ret (b', rng').
Proof.
  revert b rng; induction amounts as [|a amounts IH]; intros b rng; cbn; [eauto|].
  destruct (ba_output b a target rng) as (b'&rng'&->); cbn. apply IH.
Qed.

Context (gen_range : Rng -> Z -> Z * Rng) (set_iter : gset Z -> list Z).
Context (gen_range_ok : forall r l, 0 < l -> 0 <= (gen_range r l).1 < l)
  (set_iter_ok : forall s, set_iter s ≡ₚ elements s).

Lemma dist_get_rings_ok fuel ring_size num_rings rng num_txos :
  lc_num_txos = Ok num_txos -> Z.of_nat ring_size * Z.of_nat num_rings <= num_txos ->
  is_Some (sample_indices gen_range fuel num_txos (Z.of_nat ring_size * Z.of_nat num_rings) ∅ rng) ->
  exists rings rng', dist_get_rings gen_range set_iter fuel ring_size num_rings rng = Some (Ret (rings, rng'))
    /\ length rings = num_rings /\ Forall (fun ring => length ring = ring_size /\ Forall proves ring) rings.
Proof.
  intros Hn Hle [[sampled rng'] Hs]; unfold dist_get_rings; rewrite Hn.
  destruct lcl_num_txos as (n&En&Hu&Hby). rewrite Hn in En; injection En as <-; unfold is_u64 in Hu.
  assert (Z.of_nat ring_size *w Z.of_nat num_rings = Z.of_nat ring_size * Z.of_nat num_rings) as ->.
  { unfold u64_mul, wrap64; rewrite Z.mod_small by lia; done. }
  destruct (Z.ltb_spec 0 (Z.of_nat ring_size * Z.of_nat num_rings)) as [Hpos|Hpos], (Z.leb_spec num_txos 0) as [H0|H0];
    cbn [andb]; try lia.
  all: rewrite Hs; cbn [mbind option_bind].
  all: destruct (sample_indices_ok gen_range fuel num_txos (Z.of_nat ring_size * Z.of_nat num_rings) ∅ rng sampled rng'
    gen_range_ok ltac:(lia) ltac:(rewrite size_empty; lia) ltac:(set_solver) Hs) as [Hsz Hin].
  all: assert (Hall : Forall (fun i => exists t, lc_by_index i = Ok t) (set_iter sampled))
    by (apply Forall_forall; intros i Hi; apply Hby, Hin; rewrite set_iter_ok in Hi; by apply elem_of_elements).
  all: destruct (lcl_proofs _ Hall) as (proofs&Ep&Hp); rewrite Ep; cbn [runwrap mbind run_bind].
  all: destruct (fill_all_rings_ok num_rings ring_size (zip (set_iter sampled) proofs)) as (rings&E&Hl&Hf).
  all: try (pose proof (Forall2_length _ _ _ Hp) as Hlen; rewrite length_zip, <- Hlen, Nat.min_id, set_iter_ok;
    change (length (elements sampled)) with (size sampled); nia).
  all: try (clear -Hall Hp; revert Hall; induction Hp as [|i p is' ps Hip Hps IH]; intros Hall; constructor;
    [apply Forall_cons in Hall as [[t Ht] _]; eauto|apply IH; by apply Forall_cons in Hall as [_ ?]]).
  all: exists rings, rng'; by rewrite E.
Qed.

Lemma output_amounts_sum fee utxos :
  (forall u, utxos !! 0%nat = Some u -> 0 <= fee <= sto_amount u) -> utxos <> [] ->
  Forall (fun u => is_u64 (sto_amount u)) utxos ->
  zsum (imap (output_amount fee) utxos) + fee = zsum (sto_amount <$> utxos)
  /\ Forall is_u64 (imap (output_amount fee) utxos).
Proof.
  intros Hf Hne Ha; destruct Ha as [|u utxos Hu Ha]; [done|]. specialize (Hf u eq_refl).
  rewrite imap_cons, fmap_cons; unfold output_amount at 1 3; cbn [Nat.eqb].
  unfold is_u64 in Hu. rewrite u64_sub_small by (split; lia).
  assert (E : imap (output_amount fee ∘ S) utxos = sto_amount <$> utxos).
  { apply list_eq; intros i; rewrite list_lookup_imap, list_lookup_fmap; by destruct (utxos !! i). }
  rewrite E; unfold zsum; cbn [foldr]. split; [lia|]. constructor; [unfold is_u64; lia|].
  by apply Forall_fmap.
Qed.

End builds.

(** ** Submitting and reading *)

(** The first [i] attempts were refused for a reason that is retried. *)
Definition refused (counter num_conns : nat) (answers : nat -> nat -> result Z ProposeError) (i : nat) : Prop :=
  forall j, (j < i)%nat -> answers j ((j + counter) mod num_conns)%nat = Err OperationError.

Lemma submit_from_spec retries i counter num_conns answers height :
  (0 < num_conns)%nat -> refused counter num_conns answers i ->
  exists accepted height', submit_from retries i counter num_conns answers height = Ret (accepted, height')
    /\ height <= height'
    /\ (accepted = true <-> exists k h, (k < i + retries)%nat /\ refused counter num_conns answers k
         /\ answers k ((k + counter) mod num_conns)%nat = Ok h /\ height' = Z.max height h).
Proof.
  intros Hc; revert i; induction retries as [|n IH]; intros i Hr; cbn [submit_from].
  - exists false, height; split_and!; [done|lia|]. split; [done|]. intros (k&h&Hk&_&Ho&_).
    rewrite (Hr k) in Ho; [done|lia].
  - unfold node_index; destruct (Nat.eqb_spec num_conns 0); [lia|]. cbn [mbind run_bind].
    assert (Hlast : forall e height', answers i ((i + counter) mod num_conns)%nat = Err e -> e <> OperationError ->
      ~ exists k h, (k < i + S n)%nat /\ refused counter num_conns answers k
         /\ answers k ((k + counter) mod num_conns)%nat = Ok h /\ height' = Z.max height h).
    { intros e height' He Hne (k&h&Hk&Hrk&Ho&_). destruct (decide (i < k)%nat) as [Hlt|].
      - rewrite (Hrk i Hlt) in He; congruence.
      - destruct (decide (k = i)) as [->|]; [congruence|]. rewrite (Hr k) in Ho; [done|lia]. }
    destruct (answers i ((i + counter) mod num_conns)%nat) as [h|[]] eqn:E.
    + exists true, (Z.max height h); split_and!; [done|lia|]. split; [|done]. intros _.
      exists i, h; split_and!; [lia|done|done|done].
    + exists false, height; split_and!; [done|lia|]. split; [done|]. intros H; by destruct (Hlast _ _ eq_refl ltac:(done) H).
    + destruct (IH (S i)) as (a&h'&E'&Hle&Ha).
      { intros j Hj; destruct (decide (j = i)) as [->|]; [done|]. apply Hr; lia. }
      exists a, h'; rewrite E'; split_and!; [done|done|]. by replace (i + S n)%nat with (S i + n)%nat by lia.
    + exists false, height; split_and!; [done|lia|]. split; [done|]. intros H; by destruct (Hlast _ _ eq_refl ltac:(done) H).
Qed.

(** A transaction is reported as accepted exactly when one of thirty nodes in
    turn accepted it and those asked before refused for a reason that is
    retried; the block height never goes back. *)
Theorem submit_tx_correct counter num_conns answers height :
  (0 < num_conns)%nat ->
  exists accepted height', submit_tx counter num_conns answers height = Ret (accepted, height')
    /\ height <= height'
    /\ (accepted = true <-> exists k h, (k < 30)%nat /\ refused counter num_conns answers k
         /\ answers k ((k + counter) mod num_conns)%nat = Ok h /\ height' = Z.max height h).
Proof. intros Hc; apply (submit_from_spec 30 0 counter num_conns answers height Hc). intros j Hj; lia. Qed.

Section reads.
Context {P : Type} `{W : WalletCrypto} `{B : !TxBuilder P} {LC : LedgerCopy P}.
Context (view_key_matches_output : AccountKey -> Public -> Public -> bool).

(** The output is the account's. *)
Definition belongs (account : AccountKey) (tx_out : TxOut) : Prop :=
  exists target_key public_key, public_try_from (txo_target_key tx_out) = Ok target_key
    /\ public_try_from (txo_public_key tx_out) = Ok public_key
    /\ view_key_matches_output account target_key public_key = true.

Lemma all_own_num i account transactions :
  Forall (belongs account) transactions ->
  num_transactions_from view_key_matches_output i account transactions = Ret 0%nat.
Proof.
  intros H; revert i; induction H as [|t ts (tk&pk&Ht&Hp&Hm) _ IH]; intros i; cbn; [done|].
  rewrite Ht; cbn. rewrite Hp; cbn. rewrite Hm; cbn. apply IH.
Qed.

(** When all outputs belong to the only account, the number of outputs per
    account is taken to be zero and none of them is used. *)
Theorem single_account_sends_nothing config account transactions :
  Forall (belongs account) transactions ->
  get_num_transactions_per_account view_key_matches_output account transactions = Ret 0%nat
  /\ assign_outputs config 0 [account] 0 0 transactions = Ret [].
Proof. intros H; split; [by apply all_own_num|]. by destruct transactions. Qed.
End reads.
