(* ===== verification/DistributionExamples.v ===== *)
(** * The distribution tool on a small ledger

    A ledger of twelve outputs; output [i] has the public key [i].  One worker
    spends an output, and a transaction of two outputs is built. *)

From S2P Require Import Prelude FogTypes KexRng InputSelection CachedTxData PaykitClient WalletExamples PaykitExamples Distribution DistributionSpec.

Local Open Scope Z_scope.
Local Open Scope fog_scope.

Definition copy_output (i : Z) : TxOut := mkTxOut (mkAmount [] 100) [i] [i] [].

#[export] Instance demo_copy : LedgerCopy Z := {|
  lc_block_contents b := if b =? 0 then Ok (copy_output <$> [0; 1; 2; 3; 4; 5; 6; 7; 8; 9; 10; 11]) else Err 1;
  lc_num_txos := Ok 12;
  lc_index_by_hash t :=
    match txo_public_key t with
    | [i] => if bool_decide (t = copy_output i) && (0 <=? i) && (i <? 12) then Ok i else Err 1
    | _ => Err 1
    end;
  lc_by_index i := if (0 <=? i) && (i <? 12) then Ok (copy_output i) else Err 1;
  lc_proofs indices := Ok indices;
|}.

(** The proof of an output is its index. *)
Definition copy_valid (t : TxOut) (p : Z) : Prop := t = copy_output p.

#[export] Instance demo_copy_laws : LedgerCopyLaws copy_valid.
Proof.
  split.
  - intros t i; cbn. destruct (txo_public_key t) as [|j [|]]; [done| |done].
    case_bool_decide as Ht; [|done]; cbn [andb].
    destruct ((0 <=? j) && (j <? 12)) eqn:E; [|done]. intros [= <-]. by rewrite E, Ht.
  - intros l His; exists l; split; [done|]. induction His; constructor; [|done].
    intros t; cbn. destruct ((0 <=? x) && (x <? 12)); [|done]. by intros [= <-].
  - exists 12; split; [done|]. split; [unfold is_u64, u64_modulus; lia|]. intros i Hi; exists (copy_output i); cbn.
    destruct (Z.leb_spec 0 i), (Z.ltb_spec i 12); cbn; (done || lia).
Qed.

Lemma demo_builder_accepts : @BuilderAccepts Z demo_kex demo_builder.
Proof. split; intros; repeat eexists. Qed.

Definition demo_account : @AccountKey demo_kex := @mkAccountKey demo_kex [1] [2] [3].
Definition copy_utxo (i : Z) := @mkSpendableTxOut demo_kex (copy_output i) 100 demo_account.

(** ** One worker *)

Definition demo_dist_config : DistConfig := mkDistConfig (-1) 3 50 1 0 0 0.
Definition demo_setup := @mkDistSetup Z demo_kex demo_builder demo_dist_config [demo_account] tt 10 2.

Definition demo_worker_step := @dist_worker_step Z demo_kex wallet_crypto demo_builder demo_copy demo_gen elements
  demo_setup 20 0 0 (fun i _ => if (i =? 0)%nat then Err OperationError else Ok 7) 0.

Definition steps (s : @DistState demo_kex) : bool :=
  match demo_worker_step s with Some (Ret _) => true | _ => false end.
Definition stepped (s : @DistState demo_kex) : @DistState demo_kex :=
  match demo_worker_step s with Some (Ret s) => s | _ => s end.

Abbreviation demo_dist_step := (@dist_step Z demo_kex wallet_crypto demo_builder demo_copy demo_gen elements demo_setup).

Lemma steps_ok s : steps s = true -> demo_dist_step s (stepped s).
Proof.
  intros H; unfold steps in H; eapply (@dist_works Z demo_kex wallet_crypto demo_builder demo_copy demo_gen elements
    demo_setup 20%nat 0 0 (fun i _ => if (i =? 0)%nat then Err OperationError else Ok 7) 0%nat).
  unfold stepped; fold demo_worker_step. by destruct (demo_worker_step s) as [[]|].
Qed.

Definition demo_dist_start := @dist_start demo_kex 1 5 [copy_utxo 3].
Definition demo_dist_end := stepped (stepped (stepped (stepped demo_dist_start))).

(** Takes the output, builds, submits at the second attempt and ends. *)
Lemma demo_dist_run : rtc demo_dist_step demo_dist_start demo_dist_end.
Proof.
  eapply rtc_l; [apply steps_ok; vm_compute; reflexivity|].
  eapply rtc_l; [apply steps_ok; vm_compute; reflexivity|].
  eapply rtc_l; [apply steps_ok; vm_compute; reflexivity|].
  eapply rtc_l; [apply steps_ok; vm_compute; reflexivity|]. apply rtc_refl.
Qed.


(** ** A transaction of two outputs *)

